(* ===== verification/_CoqProject ===== *)
-Q . S2P
Prelude.v
GoStrings.v
Errors.v
Conc.v
Ledger.v
World.v
Sequential.v
Session.v
Store.v
Proxy.v
Invariant.v
Buffers.v
Rules.v
Tokens.v
SessionLogic.v
StoreLogic.v
StartupLogic.v
ProxyLogic.v
Reachable.v
Scenario.v
Accounts.v
Upkeep.v
Balance.v
Safety.v
ProxyRuns.v
Local.v
Observed.v
Amid.v
Histories.v
Company.v
StartupRuns.v
MonitorRuns.v
StoreRuns.v
Games.v
A2S.v
Readiness.v
ReadinessLogic.v
Network.v
Server.v
ServerLogic.v
Health.v
Config.v
Main.v
ProcessLogic.v
