(* ===== verification/Prelude.v ===== *)
(** * A verification of game-server-snooze

    The program is a UDP proxy in front of a game server that is asleep most of the time.
    The first packet that looks like an attempt to join opens a session for its sender and
    wakes the server through the Pterodactyl panel; packets are buffered until the server is
    ready, flushed in order and forwarded from then on; a server that nobody uses for a while
    is stopped again, and a server that stops answering closes the gate.  This library models
    the Go code under [src/cmd] and [src/pkg] and proves what makes it correct.

    ** Parts and files

    - [Prelude], [GoStrings]: integers at their width, instants and durations, byte slices,
      record updates and tactics; what the sources use of [strings], [hex], [strconv] and
      [time.ParseDuration].
    - [Errors]: error values and their chains, [errors.Is] and [errors.As], and the
      classifications of [pkg/server] and [pkg/proxy] on them.
    - [Conc]: the language of the stateful parts.  A [prog] is one goroutine: accesses to the
      shared state, questions to the environment, locks and [go] statements; [steps] is the
      interleaving semantics, [run] the sequential one, and a rely-guarantee logic proves what
      holds under interference.  [Sequential]: weakest preconditions for programs without
      shared state.
    - [World]: the structs of [pkg/proxy] and [pkg/session], the state all goroutines share,
      the questions they ask, the locks and the goroutines.  [Session] ([pkg/session/session.go]),
      [Store] ([store.go]) and [Proxy] ([pkg/proxy/proxy.go]): every method as a program, and
      in [Proxy.body] the code of every goroutine.
    - [Invariant], [Buffers], [Rules], [Tokens]: the invariant of the shared state, the ownership
      tokens that stand for wait-group counts, the lock discipline and the proof rules;
      [SessionLogic], [StoreLogic], [StartupLogic], [ProxyLogic]: every operation respects them;
      [Reachable], [Scenario]: executions from [New], and concrete ones to evaluate.
    - [Ledger], [Accounts], [Upkeep], [Balance]: double-entry bookkeeping of the wait groups.  A
      ledger gives every goroutine the [Done] calls it still has to make and the sessions it
      still has to wait for; all code keeps its account, so in every execution the counters are
      the sums of the ledger, and nothing is owed any more when [Serve] has returned.
    - [Safety]: what holds in every execution of the proxy.
    - [Local], [Histories]: what one goroutine does over its life, as a property of its events,
      in every execution; [Observed]: of its events and of what it sees of the state at each of
      its accesses, for the health monitor in [MonitorRuns].
    - [ProxyRuns], [StartupRuns]: what single operations do, alone.
    - [Amid], [Company]: what an operation does while others act between its accesses, and how
      this follows the interleaving semantics ([attended_steps]).  The company is the
      goroutines [readBackend] and [watchContext] of all sessions, the clock and the termination
      signal ([companions_respect]).  [StoreRuns] and the rest of [MonitorRuns]: expiring
      sessions, closing the gate and failing a startup in that company.
    - [Games] ([pkg/games/palworld.go]): the wake detector and its diagnostic.
    - [A2S], [Readiness], [ReadinessLogic] ([pkg/readiness]): the two readiness probes.
    - [Network], [Server], [ServerLogic] ([pkg/server/pterodactyl.go]): the panel client.
    - [Health] ([pkg/proxy/health.go], [cmd/healthcheck.go]): the health endpoint and its check.
    - [Config] ([pkg/config/config.go]), [Main] ([cmd/main.go]), [ProcessLogic]: configuration,
      construction of the parts, start and shutdown of the process.

    ** How the parts meet

    The proxy asks its [Controller], [BackendReadiness] and sockets by the questions of
    [World.query], and its theorems hold for every answer; [Server] and [Readiness] say which
    answers the panel client and the probes give.  The classification of errors of [Errors] is
    what the proxy applies to those answers ([status_verdict] says when the client's error is
    permanent, [pterodactyl_wait_ready] when the probe's is inconclusive).  The detector is a
    function of the packet; [detector_accepts_exactly] says that neither time nor its diagnostic
    state matters, so [Main.detector_of] gives it to the options of [Proxy].  A configuration
    that [Config.Validate] accepts builds all of them exactly if the panel client also accepts
    its server ID and base URL ([validated_configuration_starts]).

    ** What is proved

    - Safety in every execution (C1 to C12): stop requests only with an empty table, one startup
      at a time, order of writes, bounds of buffers and table, closed sessions stay closed, who
      does the I/O of a session is counted by its wait group, wait groups are exact, shutdown
      is final, no goroutine asks or changes anything once [Serve] has returned, no deadlock
      among the locks.
    - Operations alone (C13 to C17): waking, buffering, forwarding, flushing.
    - Lives of goroutines (C18 to C23): start and stop requests are bounded; relays are
      faithful; the gate opens only behind a confirmed readiness, and the monitor closes it only
      after three conclusive failures in a row against one and the same opening.
    - Operations in company (C24 to C26): a lost backend and a failed startup leave no session,
      no buffered packet and no goroutine of a session; a failed startup cools down; exactly the
      idle sessions expire.  These operations wait for goroutines of sessions, so they may block;
      the theorems say where, and that they end within finitely many accesses otherwise.
    - Errors (C27), detector (C28, C29), probes (C30 to C33), panel client (C34 to C36),
      configuration (C37, C38), process (C39) and health (C40).

    ** Bounds and fuel

    Loops over data recurse on it or take its length as fuel ([strip_all], [replace_all],
    [duration_items], [scan]), of which every round uses up at least one unit; the lemmas beside
    them say so where it is not the recursion itself ([duration_items_fuel], [scan_spec]).
    Loops that wait for the environment run for a number of rounds, [loop_rounds] and
    [run_task]; [a2s_wait_ready] and [pterodactyl_wait_ready] show that one round for each event
    before the context's end is enough.  In the interleaving semantics a loop is a task and
    needs no fuel.  [int], [int64] and [time.Duration] wrap around at 64 bits where the code
    adds or multiplies; lengths of slices are taken to be below that.

    ** What is not modelled, and why

    - The text of an error is kept without its formatted arguments, except in [responseError],
      whose text is the subject of C36; logging is output and changes no state.
    - Third-party code and the environment are parameters: the YAML decoder ([yaml_file]), name
      resolution and URL parsing ([Network]), the JSON decoder and the quoting verb ([Encoding]),
      the HTTP transport (which follows no redirect, as the client is told) and the sockets.
    - A context is the fact that it has ended; deadlines of the contexts that the startup
      passes to the panel are part of the environment's answers.
    - One clock reading stands for the wall and the monotonic clock; C26 is about clocks that
      fit in 64 bits of nanoseconds, as [time.Time.UnixNano] asks.
    - In C24 to C26 the other goroutines of the proxy (the handler of packets, the watchers, the
      sweeper, timers) do not act between the accesses of the operation; C1 to C12 hold whatever
      they do.
    - [http.ServeMux] only for clean paths; the dispatch of [main] on its arguments, signal
      handling, scripts, workflows and documents are not modelled.

    ** What modelling showed

    A body of an error response is cut before it is redacted, so a secret that straddles the
    cut leaves its first characters in the error ([truncation_leaks_token_prefix]); validation
    accepts panel URLs with a query or fragment and server IDs with other characters than letters,
    digits, dashes and underscores, which the client then refuses ([client_accepts]); an
    unreadable configuration file counts as absent; and a packet that replaces a closed session
    without success can leave an idle server without a scheduled stop
    ([replaced_session_schedules_no_stop]).

    ** This file

    Go's integers, times and byte slices, sums over finite maps, record updates and the shared
    tactics. *)
From stdpp Require Export base tactics numbers option list gmap sets coPset strings pretty.
From Stdlib Require Export ZArith Lia Ascii.
From Stdlib Require Export Strings.Byte.

Declare Scope go_scope.
Delimit Scope go_scope with go.
Open Scope Z_scope.

(** ** Fixed-width integers

    [int], [int64] and [time.Duration] are 64-bit two's complement, [uint64] is
    64-bit unsigned; all of them wrap around. *)

Definition two63 : Z := 9223372036854775808.

Definition two64 : Z := 18446744073709551616.

Definition int64 (z : Z) : Z := (z + two63) mod two64 - two63.

Definition uint64 (z : Z) : Z := z mod two64.

Definition in_int64 (z : Z) : Prop := - two63 <= z < two63.

Lemma int64_id z : in_int64 z -> int64 z = z.
Proof. unfold in_int64, int64, two63, two64. intros. rewrite Z.mod_small; lia. Qed.

Lemma int64_range z : in_int64 (int64 z).
Proof.
  unfold in_int64, int64, two63, two64.
  pose proof (Z.mod_pos_bound (z + 9223372036854775808) 18446744073709551616). lia.
Qed.

Lemma uint64_id z : 0 <= z < two64 -> uint64 z = z.
Proof. unfold uint64. intros. by apply Z.mod_small. Qed.

Lemma uint64_range z : 0 <= uint64 z < two64.
Proof. unfold uint64, two64. pose proof (Z.mod_pos_bound z 18446744073709551616). lia. Qed.

(** A generation counter never equals its own successor, wrap-around included. *)
Lemma uint64_succ_ne g : 0 <= g < two64 -> uint64 (g + 1) <> g.
Proof.
  unfold uint64, two64. intros Hg He.
  destruct (decide (g + 1 = 18446744073709551616)) as [Hm|Hm].
  - rewrite Hm, Z.mod_same in He; lia.
  - rewrite Z.mod_small in He; lia.
Qed.

(** ** Durations and instants

    A [time.Duration] is an [int64] count of nanoseconds.  A [time.Time] is the
    count of nanoseconds since the Unix epoch (one reading stands for both the
    wall and the monotonic clock); [zeroTime] is the zero [time.Time], 1 January
    of year 1.  [Sub] saturates as Go's does. *)

Definition Nanosecond : Z := 1.

Definition Second : Z := 1000000000.

Definition Minute : Z := 60 * Second.

Definition maxDuration : Z := two63 - 1.

Definition minDuration : Z := - two63.

Definition zeroTime : Z := -62135596800 * Second.

Definition IsZero (t : Z) : bool := bool_decide (t = zeroTime).

Definition Before (t u : Z) : bool := bool_decide (t < u).

Definition Add (t d : Z) : Z := t + d.

Definition Sub (t u : Z) : Z := ((t - u) `max` minDuration) `min` maxDuration.

Definition UnixNano (t : Z) : Z := int64 t.

(** [time.Unix(0, nanos)]. *)
Definition fromUnixNano (nanos : Z) : Z := nanos.

Lemma Sub_lt t u d : 0 <= d <= maxDuration -> Sub t u < d <-> t - u < d.
Proof. unfold Sub, minDuration, maxDuration, two63. lia. Qed.

(** ** Bytes *)

Abbreviation byte := Byte.byte.

Abbreviation bytes := (list Byte.byte).

#[export] Instance byte_eq_dec : EqDecision byte.
Proof. intros x y. apply Byte.byte_eq_dec. Defined.

Definition len {A} (l : list A) : Z := Z.of_nat (length l).

Lemma len_nonneg {A} (l : list A) : 0 <= len l.
Proof. unfold len. lia. Qed.

Lemma len_app {A} (l k : list A) : len (l ++ k) = len l + len k.
Proof. unfold len. rewrite length_app. lia. Qed.

Lemma len_cons {A} (x : A) l : len (x :: l) = 1 + len l.
Proof. unfold len. simpl. lia. Qed.

Lemma len_nil {A} : len (@nil A) = 0.
Proof. reflexivity. Qed.

Fixpoint sum_len {A} (l : list (list A)) : Z :=
  match l with
  | [] => 0
  | x :: l => len x + sum_len l
  end.

Lemma sum_len_app {A} (l k : list (list A)) : sum_len (l ++ k) = sum_len l + sum_len k.
Proof. induction l as [|x l IH]; simpl; [done|]. rewrite IH. lia. Qed.

Lemma sum_len_nonneg {A} (l : list (list A)) : 0 <= sum_len l.
Proof. induction l as [|x l IH]; simpl; [done|]. pose proof (len_nonneg x). lia. Qed.

(** ** Sums over finite maps *)

Section map_sum.
Context {K : Type} `{Countable K} {A : Type} (f : A -> Z).

Definition map_sum (m : gmap K A) : Z := map_fold (fun _ a acc => f a + acc) 0 m.

Lemma map_sum_empty : map_sum ∅ = 0.
Proof. apply map_fold_empty. Qed.

Lemma map_sum_insert_None m k a : m !! k = None -> map_sum (<[k := a]> m) = f a + map_sum m.
Proof.
  intros Hk. unfold map_sum. rewrite map_fold_insert_L; [done| |done]. intros. lia.
Qed.

Lemma map_sum_delete m k a : m !! k = Some a -> map_sum m = f a + map_sum (delete k m).
Proof.
  intros Hk. rewrite <- (insert_delete_id m k a Hk) at 1.
  apply map_sum_insert_None, lookup_delete_eq.
Qed.

Lemma map_sum_insert_Some m k a b :
  m !! k = Some b -> map_sum (<[k := a]> m) = f a - f b + map_sum m.
Proof.
  intros Hk. rewrite (map_sum_delete m k b Hk), <- (insert_delete_eq m k a).
  rewrite map_sum_insert_None by apply lookup_delete_eq. lia.
Qed.

Lemma map_sum_nonneg m : (forall k a, m !! k = Some a -> 0 <= f a) -> 0 <= map_sum m.
Proof.
  induction m as [|k a m Hk _ IH] using map_first_key_ind; intros Hf.
  - by rewrite map_sum_empty.
  - rewrite map_sum_insert_None by done.
    pose proof (Hf k a ltac:(by simplify_map_eq)).
    enough (0 <= map_sum m) by lia. apply IH. intros k' a' Hk'.
    apply (Hf k' a'). rewrite lookup_insert_ne; [done|]. by intros <-; simplify_eq.
Qed.
End map_sum.

Lemma map_sum_ext {K A} `{Countable K} (f g : A -> Z) (m : gmap K A) :
  (forall k a, m !! k = Some a -> f a = g a) -> map_sum f m = map_sum g m.
Proof.
  induction m as [|k a m Hk _ IH] using map_first_key_ind; intros Hfg.
  - by rewrite !map_sum_empty.
  - rewrite !map_sum_insert_None by done. rewrite (Hfg k a) by (by simplify_map_eq).
    f_equal. apply IH. intros k' a' Hk'. apply (Hfg k'). rewrite lookup_insert_ne; [done|].
    by intros <-; simplify_eq.
Qed.

(** ** Record updates

    [r <| field := v |>] is [r] with one field replaced, as an assignment to a
    struct field is; a record type declares its eta expansion as an [Eta] instance. *)

Class Eta (R : Type) := eta : R -> R.

Class Setter {R A : Type} (proj : R -> A) := set : (A -> A) -> R -> R.

Arguments set {R A} proj {_} f r.

Ltac field_setter :=
  match goal with
  | |- @Setter ?R ?A ?proj =>
      let e := constr:(_ : Eta R) in
      let e := eval hnf in e in
      let e := eval pattern proj in e in
      match e with ?upd _ => exact (fun f => upd (fun r => f (proj r))) end
  end.

#[export] Hint Extern 1 (Setter _) => field_setter : typeclass_instances.

Notation "r <| field := v |>" := (set field (fun _ => v) r)
  (at level 12, left associativity, v at level 99) : go_scope.

Open Scope go_scope.

(** ** Tactics *)

Create HintDb go discriminated.

Create Rewrite HintDb go_len.

#[export] Hint Resolve len_nonneg sum_len_nonneg uint64_range int64_range : go.

#[export] Hint Rewrite @len_app @len_cons @len_nil @sum_len_app : go_len.

(** Case analysis on the scrutinee of a [match] or [if] of the goal or of a hypothesis. *)
Ltac go_case :=
  match goal with
  | |- context [match ?x with _ => _ end] => destruct x eqn:?
  | _ : context [match ?x with _ => _ end] |- _ => destruct x eqn:?
  end.

(** Turn the boolean tests of the code into propositions. *)
Ltac go_bool :=
  repeat match goal with
  | H : andb _ _ = true |- _ => apply andb_true_iff in H; destruct H
  | H : orb _ _ = false |- _ => apply orb_false_iff in H; destruct H
  | H : negb _ = true |- _ => apply negb_true_iff in H
  | H : negb _ = false |- _ => apply negb_false_iff in H
  | H : bool_decide _ = true |- _ => apply bool_decide_eq_true in H
  | H : bool_decide _ = false |- _ => apply bool_decide_eq_false in H
  end.
