(* ===== verification/GoStrings.v ===== *)
(** * GoStrings: what the sources use of [strings], [encoding/hex], [strconv] and [time]

    Go strings are byte sequences.  [TrimSpace] removes the white space of Unicode in
    its UTF-8 encoding; [DecodeString] is that of [encoding/hex]; [Atoi] is decimal with a
    64-bit range; [ParseDuration] is that of [time], fractions included. *)
From Stdlib Require Import Floats.SpecFloat.
From S2P Require Import Prelude.

Open Scope string_scope.
Open Scope Z_scope.

(** The code of a byte. *)
Definition code (c : ascii) : Z := Z.of_N (N_of_ascii c).

Lemma code_range c : 0 <= code c < 256.
Proof. unfold code. pose proof (N_ascii_bounded c). lia. Qed.

(** ** [strings.TrimSpace] *)

(** The UTF-8 encodings of the characters [unicode.IsSpace] accepts. *)
Definition spaces : list (list Z) :=
  [[9]; [10]; [11]; [12]; [13]; [32]; [194; 133]; [194; 160]; [225; 154; 128]]
  ++ map (fun z => [226; 128; z]) [128; 129; 130; 131; 132; 133; 134; 135; 136; 137; 138; 168; 169; 175]
  ++ [[226; 129; 159]; [227; 128; 128]].

(** [l] without the prefix of the codes [p], if it has it. *)
Fixpoint strip_prefix (p : list Z) (l : list ascii) : option (list ascii) :=
  match p, l with
  | [], _ => Some l
  | z :: p, c :: l => if bool_decide (code c = z) then strip_prefix p l else None
  | _ :: _, [] => None
  end.

Fixpoint strip_first (ps : list (list Z)) (l : list ascii) : option (list ascii) :=
  match ps with
  | [] => None
  | p :: ps => match strip_prefix p l with Some l' => Some l' | None => strip_first ps l end
  end.

(** Strip prefixes of [ps] as long as there are any; every one is at least a byte long. *)
Fixpoint strip_all (fuel : nat) (ps : list (list Z)) (l : list ascii) : list ascii :=
  match fuel with
  | O => l
  | S fuel => match strip_first ps l with Some l' => strip_all fuel ps l' | None => l end
  end.

Definition trim_list (ps : list (list Z)) (l : list ascii) : list ascii := strip_all (length l) ps l.

Definition TrimSpace (s : string) : string :=
  let l := trim_list spaces (String.list_ascii_of_string s) in
  String.string_of_list_ascii (rev (trim_list (map (@rev Z) spaces) (rev l))).

(** ** [hex.DecodeString] *)

Definition hex_digit (c : ascii) : option Z :=
  let z := code c in
  if bool_decide (48 <= z <= 57) then Some (z - 48)
  else if bool_decide (97 <= z <= 102) then Some (z - 87)
  else if bool_decide (65 <= z <= 70) then Some (z - 55)
  else None.

(** The byte with a code. *)
Definition byte_of (z : Z) : byte :=
  match Byte.of_N (Z.to_N z) with Some b => b | None => Byte.x00 end.

Fixpoint hex_DecodeString (s : string) : option bytes :=
  match s with
  | EmptyString => Some []
  | String c1 (String c2 s) =>
      match hex_digit c1, hex_digit c2, hex_DecodeString s with
      | Some h, Some l, Some rest => Some (byte_of (16 * h + l) :: rest)
      | _, _, _ => None
      end
  | String _ EmptyString => None
  end.

(** [hex.EncodeToString], for the round trip. *)
Definition hex_char (z : Z) : ascii :=
  ascii_of_N (Z.to_N (if bool_decide (z < 10) then 48 + z else 87 + z)).

Fixpoint hex_EncodeToString (l : bytes) : string :=
  match l with
  | [] => EmptyString
  | b :: l =>
      let z := Z.of_N (Byte.to_N b) in
      String (hex_char (z / 16)) (String (hex_char (z mod 16)) (hex_EncodeToString l))
  end.

Lemma hex_digit_char z : 0 <= z < 16 -> hex_digit (hex_char z) = Some z.
Proof.
  intros Hz. assert (H : z ∈ map Z.of_nat (seq 0 16)).
  { apply list_elem_of_fmap. exists (Z.to_nat z). split; [lia|]. apply elem_of_seq. lia. }
  revert H. clear. simpl. rewrite !elem_of_cons.
  intros H. by destruct_or! H; subst; [..|inversion H].
Qed.

Lemma byte_of_to_N b : byte_of (Z.of_N (Byte.to_N b)) = b.
Proof. unfold byte_of. by rewrite N2Z.id, Byte.of_to_N. Qed.

Lemma hex_roundtrip l : hex_DecodeString (hex_EncodeToString l) = Some l.
Proof.
  induction l as [|b l IH]; [done|]. simpl. pose proof (Byte.to_N_bounded b).
  set (z := Z.of_N (Byte.to_N b)) in *. assert (Hz : 0 <= z < 256) by lia.
  rewrite !hex_digit_char, IH.
  - rewrite <- Z.div_mod by lia. unfold z. by rewrite byte_of_to_N.
  - apply Z.mod_pos_bound. lia.
  - split; [apply Z.div_pos; lia|apply Z.div_lt_upper_bound; lia].
Qed.

(** ** [strings.ReplaceAll], [strings.Split] and [strings.Join] for a separator byte *)

Fixpoint has_prefix (p s : string) : option string :=
  match p, s with
  | EmptyString, _ => Some s
  | String c p, String d s => if bool_decide (c = d) then has_prefix p s else None
  | String _ _, EmptyString => None
  end.

(** Replace the leftmost occurrences of a nonempty [old] that do not overlap. *)
Fixpoint replace_all (fuel : nat) (old new s : string) : string :=
  match fuel, s with
  | O, _ | _, EmptyString => s
  | S fuel, String c s' =>
      match has_prefix old s with
      | Some rest => new ++ replace_all fuel old new rest
      | None => String c (replace_all fuel old new s')
      end
  end.

Definition ReplaceAll (s old new : string) : string := replace_all (String.length s) old new s.

(** [strings.Split] at every byte [sep]. *)
Fixpoint Split (s : string) (sep : ascii) : list string :=
  match s with
  | EmptyString => [EmptyString]
  | String c s =>
      if bool_decide (c = sep) then EmptyString :: Split s sep
      else match Split s sep with
           | part :: parts => String c part :: parts
           | [] => [String c EmptyString]
           end
  end.

(** ** [strconv.Atoi] *)

Definition digit (c : ascii) : option Z :=
  let z := code c in if bool_decide (48 <= z <= 57) then Some (z - 48) else None.

Fixpoint digits (acc : Z) (s : string) : option Z :=
  match s with
  | EmptyString => Some acc
  | String c s => match digit c with Some d => digits (10 * acc + d) s | None => None end
  end.

(** The number of decimal digits, one at least. *)
Definition decimal (s : string) : option Z :=
  match s with EmptyString => None | _ => digits 0 s end.

Definition in_range (z : Z) : option Z :=
  if bool_decide (- two63 <= z < two63) then Some z else None.

Definition Atoi (s : string) : option Z :=
  match s with
  | String "-" s => match decimal s with Some z => in_range (- z) | None => None end
  | String "+" s => match decimal s with Some z => in_range z | None => None end
  | _ => match decimal s with Some z => in_range z | None => None end
  end.

(** ** [time.ParseDuration] *)

(** The leading digits: their value, or [None] past 2^63, and the rest. *)
Fixpoint leadingInt (acc : Z) (s : string) : option Z * string :=
  match s with
  | String c s' =>
      match digit c with
      | Some d =>
          if bool_decide (two63 / 10 < acc) then (None, s)
          else if bool_decide (two63 < 10 * acc + d) then (None, s)
          else leadingInt (10 * acc + d) s'
      | None => (Some acc, s)
      end
  | EmptyString => (Some acc, s)
  end.

(** The digits of a fraction: value, scale and rest; digits past the precision are dropped. *)
Fixpoint leadingFraction (acc scale : Z) (overflow : bool) (s : string) : Z * Z * string :=
  match s with
  | String c s' =>
      match digit c with
      | Some d =>
          if overflow then leadingFraction acc scale true s'
          else if bool_decide ((two63 - 1) / 10 < acc) then leadingFraction acc scale true s'
          else if bool_decide (two63 < 10 * acc + d) then leadingFraction acc scale true s'
          else leadingFraction (10 * acc + d) (scale * 10) false s'
      | None => (acc, scale, s)
      end
  | EmptyString => (acc, scale, s)
  end.

(** [float64] arithmetic: 53 bits of precision, exponents below 1024. *)
Definition float64 (z : Z) : spec_float := binary_normalize 53 1024 z 0 false.

Definition float_mul (x y : spec_float) : spec_float := SFmul 53 1024 x y.

Definition float_div (x y : spec_float) : spec_float := SFdiv 53 1024 x y.

(** [uint64] of a float that is not negative and in range: its integer part. *)
Definition float_trunc (x : spec_float) : Z :=
  match x with
  | S754_finite false m e => Z.shiftl (Zpos m) e
  | _ => 0
  end.

Definition unitMap (u : string) : option Z :=
  if bool_decide (u = "ns") then Some 1
  else if bool_decide (u = "us" \/ u = String "194" (String "181" "s") \/ u = String "206" (String "188" "s"))
  then Some 1000
  else if bool_decide (u = "ms") then Some 1000000
  else if bool_decide (u = "s") then Some Second
  else if bool_decide (u = "m") then Some Minute
  else if bool_decide (u = "h") then Some (60 * Minute)
  else None.

Definition digit_or_dot (c : ascii) : bool :=
  bool_decide (c = "."%char) || match digit c with Some _ => true | None => false end.

(** The unit: everything up to the next digit or dot. *)
Fixpoint take_unit (s : string) : string * string :=
  match s with
  | String c s' => if digit_or_dot c then (EmptyString, s) else let '(u, r) := take_unit s' in (String c u, r)
  | EmptyString => (EmptyString, EmptyString)
  end.

(** One number with its unit, in nanoseconds, and the rest. *)
Definition duration_item (s : string) : option (Z * string) :=
  if negb (match s with String c _ => digit_or_dot c | EmptyString => false end) then None
  else
    match leadingInt 0 s with
    | (None, _) => None
    | (Some v, s1) =>
        let pre := negb (bool_decide (String.length s = String.length s1)) in
        let '(f, scale, s2, post) :=
          match s1 with
          | String "." s1' =>
              let '(f, scale, s2) := leadingFraction 0 1 false s1' in
              (f, scale, s2, negb (bool_decide (String.length s1' = String.length s2)))
          | _ => (0, 1, s1, false)
          end in
        if negb pre && negb post then None
        else
          let '(u, s3) := take_unit s2 in
          match unitMap u with
          | None => None
          | Some unit =>
              if bool_decide (two63 / unit < v) then None
              else
                let v := v * unit + (if bool_decide (0 < f)
                  then float_trunc (float_mul (float64 f) (float_div (float64 unit) (float64 scale))) else 0) in
                if bool_decide (two63 < v) then None else Some (v, s3)
          end
    end.

Fixpoint duration_items (fuel : nat) (d : Z) (s : string) : option Z :=
  match fuel, s with
  | _, EmptyString => Some d
  | O, _ => None
  | S fuel, _ =>
      match duration_item s with
      | Some (v, s) =>
          let d := uint64 (d + v) in if bool_decide (two63 < d) then None else duration_items fuel d s
      | None => None
      end
  end.

Definition ParseDuration (s : string) : option Z :=
  let '(neg, s) :=
    match s with
    | String "-" s => (true, s)
    | String "+" s => (false, s)
    | _ => (false, s)
    end in
  if bool_decide (s = "0") then Some 0
  else if bool_decide (s = "") then None
  else
    match duration_items (String.length s) 0 s with
    | None => None
    | Some d => if neg then Some (- d) else if bool_decide (two63 - 1 < d) then None else Some d
    end.

Example ParseDuration_examples :
  map ParseDuration ["90s"; "1h30m"; "-1.5h"; "300ms"; "0.1s"; "5"; ""; "1.s"; ".s"; "9223372036854775807ns";
                     "9223372036854775808ns"; "-9223372036854775808ns"] =
  [Some (90 * Second); Some (90 * Minute); Some (- 90 * Minute); Some 300000000; Some 100000000; None; None;
   Some Second; None; Some (two63 - 1); None; Some (- two63)].
Proof. vm_compute. reflexivity. Qed.

Example TrimSpace_examples :
  map TrimSpace [" 0102 "; ""; String "194" (String "160" "a b"); "x"] = ["0102"; ""; "a b"; "x"].
Proof. vm_compute. reflexivity. Qed.

(** ** Enough fuel *)

Lemma leadingInt_length s : forall acc v r, leadingInt acc s = (Some v, r) -> (String.length r <= String.length s)%nat.
Proof.
  induction s as [|c s IH]; intros acc v r; simpl; [by intros [= _ <-]|].
  destruct (digit c); [|by intros [= _ <-]]. repeat case_bool_decide; try done.
  intros Hr%IH. lia.
Qed.

Lemma leadingFraction_length s : forall acc scale o f k r,
  leadingFraction acc scale o s = (f, k, r) -> (String.length r <= String.length s)%nat.
Proof.
  induction s as [|c s IH]; intros acc scale o f k r; simpl; [by intros [= _ _ <-]|].
  destruct (digit c); [|by intros [= _ _ <-]]. destruct o; [|repeat case_bool_decide]; intros Hr%IH; lia.
Qed.

Lemma take_unit_length s : forall u r, take_unit s = (u, r) -> (String.length u + String.length r = String.length s)%nat.
Proof.
  induction s as [|c s IH]; intros u r; simpl; [by intros [= <- <-]|].
  destruct (digit_or_dot c); [by intros [= <- <-]|]. destruct (take_unit s) as [u' r'] eqn:Hu.
  intros [= <- <-]. simpl. specialize (IH _ _ eq_refl). lia.
Qed.

Lemma unitMap_nonempty u unit : unitMap u = Some unit -> (0 < String.length u)%nat.
Proof. destruct u; [done|simpl; lia]. Qed.

(** Every item takes at least its unit off the string. *)
Lemma duration_item_length s v r : duration_item s = Some (v, r) -> (String.length r < String.length s)%nat.
Proof.
  unfold duration_item. destruct (negb _); [done|].
  destruct (leadingInt 0 s) as [[w|] s1] eqn:Hi; [|done]. apply leadingInt_length in Hi.
  set (fraction := match s1 with EmptyString => _ | _ => _ end).
  assert (Hf : (String.length (snd (fst fraction)) <= String.length s1)%nat).
  { unfold fraction. destruct s1 as [|c s1']; [done|].
    destruct c as [[] [] [] [] [] [] [] []]; try (simpl; lia).
    destruct (leadingFraction 0 1 false s1') as [[f scale] s2] eqn:Hl.
    apply leadingFraction_length in Hl. simpl. lia. }
  destruct fraction as [[[f scale] s2] post]. simpl in Hf. destruct (_ && _); [done|].
  destruct (take_unit s2) as [u s3] eqn:Hu. apply take_unit_length in Hu.
  destruct (unitMap u) as [unit|] eqn:Hm; [|done]. apply unitMap_nonempty in Hm.
  repeat case_bool_decide; try done; intros [= _ <-]; lia.
Qed.

Lemma duration_items_fuel n m d s :
  (String.length s <= n)%nat -> (String.length s <= m)%nat -> duration_items n d s = duration_items m d s.
Proof.
  revert m d s. induction n as [|n IH]; intros m d s Hn Hm; destruct s as [|c s]; simpl in Hn; try lia.
  { by destruct m. } { by destruct m. }
  destruct m as [|m]; [simpl in Hm; lia|]. cbn [duration_items].
  destruct (duration_item (String c s)) as [[v r]|] eqn:Hi; [|done]. apply duration_item_length in Hi.
  simpl in *. case_bool_decide; [done|]. apply IH; lia.
Qed.
