(* ===== verification/Errors.v ===== *)
(** * Errors: Go's error values, their chains, and the classifications of them

    Models the error handling the packages share: the standard library's
    [errors.Is] and [errors.As] over the chains the sources build with
    [fmt.Errorf] and its wrapping verb, [errors.Join] and the wrapper types of
    [pkg/server/pterodactyl.go] and [pkg/readiness/pterodactyl.go]; the
    classifiers [server.IsPermanent], [server.markPermanent],
    [proxy.backendReadinessInconclusive] and [proxy.backendHealthFailureClass]. *)
From S2P Require Import Prelude.

Open Scope string_scope.

(** Errors the sources compare by identity. *)
Inductive sentinel :=
| Canceled               (* context.Canceled *)
| DeadlineExceeded       (* context.DeadlineExceeded *)
| NetErrClosed           (* net.ErrClosed *)
| HttpErrServerClosed    (* http.ErrServerClosed *)
| IoEOF                  (* io.EOF *)
| ErrSessionClosed       (* session.ErrSessionClosed *)
| ErrSessionCapacity.    (* session.ErrSessionCapacity *)

#[export] Instance sentinel_eq_dec : EqDecision sentinel.
Proof. solve_decision. Defined.

Inductive error :=
| ErrSentinel (s : sentinel)
| ErrText (message : string)                     (* fmt.Errorf without a wrapping verb *)
| ErrWrap (prefix : string) (err : error)        (* fmt.Errorf with a final wrapping verb *)
| ErrNet (timeout : bool) (message : string)     (* a net.Error that wraps nothing *)
| ErrNetOp (timeout : bool) (err : error)        (* a net.Error that wraps an error *)
| ErrJoin (left right : error)                   (* errors.Join of two non-nil errors *)
| permanentError (err : error)
| redactedError (err : error) (message : string)
| inconclusiveReadinessError (err : error).

(** [Unwrap], the next links of the chain in the order [errors] visits them. *)
Definition unwrap (e : error) : list error :=
  match e with
  | ErrSentinel _ | ErrText _ | ErrNet _ _ => []
  | ErrWrap _ e | ErrNetOp _ e | permanentError e | redactedError e _ | inconclusiveReadinessError e => [e]
  | ErrJoin e1 e2 => [e1; e2]
  end.

(** [errors.As]: the first value, in depth-first order, that [view] recognises. *)
Fixpoint errors_As {A} (view : error -> option A) (e : error) : option A :=
  match view e with
  | Some a => Some a
  | None =>
      match e with
      | ErrSentinel _ | ErrText _ | ErrNet _ _ => None
      | ErrWrap _ e | ErrNetOp _ e | permanentError e | redactedError e _ | inconclusiveReadinessError e =>
          errors_As view e
      | ErrJoin e1 e2 =>
          match errors_As view e1 with Some a => Some a | None => errors_As view e2 end
      end
  end.

(** [errors.Is] for a sentinel target. *)
Definition errors_Is (target : sentinel) (e : error) : bool :=
  match errors_As (fun e => match e with
                            | ErrSentinel s => if bool_decide (s = target) then Some tt else None
                            | _ => None
                            end) e with
  | Some _ => true
  | None => false
  end.

(** The value [Permanent()] returns on the first error of the chain that has the
    method: [permanentError] answers true, [inconclusiveReadinessError] asks
    [IsPermanent] of the error it wraps. *)
Fixpoint permanent_target (e : error) : option bool :=
  match e with
  | ErrSentinel _ | ErrText _ | ErrNet _ _ => None
  | permanentError _ => Some true
  | inconclusiveReadinessError e =>
      Some (match permanent_target e with Some b => b | None => false end)
  | ErrWrap _ e | ErrNetOp _ e | redactedError e _ => permanent_target e
  | ErrJoin e1 e2 =>
      match permanent_target e1 with Some b => Some b | None => permanent_target e2 end
  end.

Definition IsPermanent (e : error) : bool :=
  match permanent_target e with Some b => b | None => false end.

(** The method [Permanent()] of the error types that have it. *)
Definition Permanent (e : error) : option bool :=
  match e with
  | permanentError _ => Some true
  | inconclusiveReadinessError e => Some (IsPermanent e)
  | _ => None
  end.

Definition markPermanent (e : option error) : option error :=
  match e with
  | None => None
  | Some e => Some (permanentError e)
  end.

(** The method [ReadinessInconclusive()]. *)
Definition ReadinessInconclusive (e : error) : option bool :=
  match e with
  | inconclusiveReadinessError _ => Some true
  | _ => None
  end.

Definition backendReadinessInconclusive (e : error) : bool :=
  match errors_As ReadinessInconclusive e with Some b => b | None => false end.

(** The method [Timeout()] of a [net.Error]; [context.DeadlineExceeded] is one too. *)
Definition net_Timeout (e : error) : option bool :=
  match e with
  | ErrNet timeout _ | ErrNetOp timeout _ => Some timeout
  | ErrSentinel DeadlineExceeded => Some true
  | _ => None
  end.

Definition backendHealthFailureClass (e : error) : string :=
  if errors_Is DeadlineExceeded e then "timeout"
  else if errors_Is Canceled e then "canceled"
  else match errors_As net_Timeout e with
       | Some true => "timeout"
       | _ => "probe_failure"
       end.

(** ** Chains *)

(** [in_chain x e]: [x] is [e] or one of the errors [e] wraps. *)
Inductive in_chain (x : error) : error -> Prop :=
| in_chain_here : in_chain x x
| in_chain_next e e' : e' ∈ unwrap e -> in_chain x e' -> in_chain x e.

(** A chain that no [errors.Join] forks; only process shutdown joins non-nil errors. *)
Fixpoint linear (e : error) : bool :=
  match e with
  | ErrSentinel _ | ErrText _ | ErrNet _ _ => true
  | ErrWrap _ e | ErrNetOp _ e | permanentError e | redactedError e _
  | inconclusiveReadinessError e => linear e
  | ErrJoin _ _ => false
  end.

Lemma error_chain_ind (P : error -> Prop) :
  (forall e, Forall P (unwrap e) -> P e) -> forall e, P e.
Proof. intros H. fix IH 1. intros e. apply H. destruct e; simpl; auto. Qed.

Lemma in_chain_inv x e : in_chain x e <-> x = e \/ Exists (in_chain x) (unwrap e).
Proof.
  rewrite Exists_exists. split.
  - intros [|e1 e' ? ?]; eauto.
  - intros [->|(e' & ? & ?)]; [constructor|by econstructor].
Qed.

(** One unfolding of [errors.As], uniform in the constructors. *)
Lemma errors_As_unfold {A} (view : error -> option A) e :
  errors_As view e = match view e with
    | Some a => Some a
    | None => foldr (fun e' acc => match errors_As view e' with
                                   | Some a => Some a | None => acc end) None (unwrap e)
    end.
Proof. destruct e; simpl; repeat case_match; congruence. Qed.

(** [errors.As] finds a value exactly when some error of the chain is recognised. *)
Lemma errors_As_is_Some {A} (view : error -> option A) e :
  is_Some (errors_As view e) <-> exists x, in_chain x e /\ is_Some (view x).
Proof.
  induction e as [e IH] using error_chain_ind. rewrite errors_As_unfold.
  setoid_rewrite in_chain_inv. destruct (view e) as [a|] eqn:Hv.
  { split; [|eauto]. intros _. exists e. rewrite Hv. eauto. }
  transitivity (Exists (fun e' => is_Some (errors_As view e')) (unwrap e)).
  - clear IH. induction (unwrap e) as [|e1 l IHl]; simpl.
    + rewrite Exists_nil. split; [by intros []|done].
    + rewrite Exists_cons, <- IHl. destruct (errors_As view e1) eqn:He1; naive_solver.
  - rewrite Forall_forall in IH. rewrite Exists_exists. split.
    + intros (e' & Hin & Hs). apply (IH _ Hin) in Hs as (x & ? & ?).
      exists x. split; [right|done]. apply Exists_exists. eauto.
    + intros (x & [->|Hx] & Hs); [rewrite Hv in Hs; by destruct Hs|].
      apply Exists_exists in Hx as (e' & Hin & ?). exists e'. split; [done|]. apply IH; eauto.
Qed.

Lemma errors_Is_spec s e : errors_Is s e = true <-> in_chain (ErrSentinel s) e.
Proof.
  unfold errors_Is. match goal with |- context [errors_As ?v e] => set (view := v) end.
  assert (Hv : forall x, is_Some (view x) <-> x = ErrSentinel s).
  { intros []; simpl; try (split; [by intros []|done]).
    case_bool_decide; subst; split; intros H'; try done; try congruence; by destruct H'. }
  transitivity (is_Some (errors_As view e)).
  - destruct (errors_As view e); split; intros H; try done; by destruct H.
  - rewrite errors_As_is_Some. setoid_rewrite Hv. naive_solver.
Qed.

(** [IsPermanent] is [errors.As] for an interface with the method [Permanent]. *)
Lemma permanent_target_errors_As e : permanent_target e = errors_As Permanent e.
Proof. induction e; simpl; unfold IsPermanent; rewrite ?IHe1, ?IHe2; done. Qed.

(** Without a fork in the chain, an error is permanent exactly when some error of
    its chain was marked so: the inconclusive and redacted wrappers hide nothing. *)
Lemma Exists_one {A} (P : A -> Prop) x : Exists P [x] <-> P x.
Proof. rewrite Exists_cons, Exists_nil. tauto. Qed.

Lemma in_chain_exists_inv {A} (f : A -> error) e :
  (forall a, f a <> e) ->
  (exists a, in_chain (f a) e) <-> Exists (fun e' => exists a, in_chain (f a) e') (unwrap e).
Proof.
  intros Hne. rewrite Exists_exists. split.
  - intros [a Ha]. apply in_chain_inv in Ha as [Ha|Ha]; [by destruct (Hne a)|].
    apply Exists_exists in Ha as (e' & ? & ?). eauto.
  - intros (e' & ? & a & ?). exists a. by econstructor.
Qed.

Lemma IsPermanent_spec e :
  linear e = true -> IsPermanent e = true <-> exists x, in_chain (permanentError x) e.
Proof.
  unfold IsPermanent. induction e; simpl; intros Hl; try done.
  all: try (rewrite in_chain_exists_inv by done; simpl; rewrite Exists_nil; split; done).
  all: try (rewrite in_chain_exists_inv by done; simpl; rewrite Exists_one; exact (IHe Hl)).
  split; [|done]. intros _. exists e. apply in_chain_here.
Qed.

Lemma backendReadinessInconclusive_spec e :
  backendReadinessInconclusive e = true <-> exists x, in_chain (inconclusiveReadinessError x) e.
Proof.
  unfold backendReadinessInconclusive.
  transitivity (is_Some (errors_As ReadinessInconclusive e)).
  - assert (H : forall b, errors_As ReadinessInconclusive e = Some b -> b = true).
    { clear. induction e; simpl; intros b; try naive_solver. case_match; naive_solver. }
    destruct (errors_As _ _) as [b|] eqn:Hb; [rewrite (H b eq_refl)|]; split; eauto;
      try done; by intros [].
  - rewrite errors_As_is_Some. split.
    + intros (x & Hx & Hs). destruct x; try by destruct Hs. eauto.
    + intros (x & Hx). eexists. split; [done|]. simpl. eauto.
Qed.

(** A forked chain hides marks: [errors.As] stops at the first error that has the
    method, so an inconclusive transient error joined before a permanent one wins. *)
Example IsPermanent_join_order :
  IsPermanent (ErrJoin (inconclusiveReadinessError (ErrText "timeout"))
                       (permanentError (ErrText "unauthorized"))) = false
  /\ IsPermanent (ErrJoin (permanentError (ErrText "unauthorized"))
                          (inconclusiveReadinessError (ErrText "timeout"))) = true.
Proof. split; reflexivity. Qed.

(** C27. Classification sees through the wrapping.  On a chain that no join forks, an error is
    permanent exactly when some error of its chain was marked permanent, however many
    contexts, redactions and inconclusive wrappers surround the mark; a readiness result is
    inconclusive exactly when its chain has the inconclusive wrapper; and a health failure is
    called a cancellation exactly when its chain ends in a cancelled context rather than an
    exceeded deadline, a timeout exactly when its chain has an exceeded deadline or, with no
    cancellation, its outermost network error reports a timeout. *)
Theorem classification_sees_through e :
  linear e = true ->
  (IsPermanent e = true <-> exists x, in_chain (permanentError x) e) /\
  (backendReadinessInconclusive e = true <-> exists x, in_chain (inconclusiveReadinessError x) e) /\
  (backendHealthFailureClass e = "canceled" <->
     in_chain (ErrSentinel Canceled) e /\ ~ in_chain (ErrSentinel DeadlineExceeded) e) /\
  (backendHealthFailureClass e = "timeout" <->
     in_chain (ErrSentinel DeadlineExceeded) e \/
     ~ in_chain (ErrSentinel Canceled) e /\ errors_As net_Timeout e = Some true).
Proof.
  intros Hl. split_and!; [by apply IsPermanent_spec|apply backendReadinessInconclusive_spec|..];
    rewrite <- !errors_Is_spec; unfold backendHealthFailureClass;
    destruct (errors_Is DeadlineExceeded e), (errors_Is Canceled e); try naive_solver;
    destruct (errors_As net_Timeout e) as [[]|]; naive_solver.
Qed.

Lemma classification_sees_through_witness :
  let e := ErrWrap "probe Pterodactyl readiness"
             (inconclusiveReadinessError (ErrWrap "get Pterodactyl status" (permanentError (ErrText "HTTP 401")))) in
  exists x, in_chain (permanentError x) e.
Proof. intros e. apply (classification_sees_through e eq_refl). reflexivity. Defined.
