(* ===== verification/Conc.v ===== *)
(** * Conc: goroutines, locks and interference

    The language the stateful components are written in, its interleaving
    semantics, its sequential semantics, and a rely-guarantee logic for it.

    A [prog] is the code of one goroutine: a tree of atomic accesses to the shared
    state, questions to the environment (system calls, interface calls, the
    scheduler's choices), lock operations and [go] statements.  An [Atomic] whose
    function returns [None] blocks, which models channel receives and
    [WaitGroup.Wait].  A loop is a task: the goroutine runs the task's body, and the
    body returns the task to continue with. *)
From S2P Require Import Prelude.

Inductive mode := Shared | Exclusive.

#[export] Instance mode_eq_dec : EqDecision mode.
Proof. solve_decision. Defined.

(** ** Programs *)

(** Where an iteration of a loop leads: round again with a new loop variable, or out. *)
Inductive loop (A B : Type) := Again (a : A) | Return (b : B).

Arguments Again {A B} a.
Arguments Return {A B} b.

Inductive prog (W : Type) (Q : Type -> Type) (L T A : Type) : Type :=
| Ret (a : A)
| Atomic (B : Type) (f : W -> option (B * W)) (k : B -> prog W Q L T A)
| Ask (B : Type) (q : Q B) (k : B -> prog W Q L T A)
| Acquire (l : L) (m : mode) (k : prog W Q L T A)
| Release (l : L) (m : mode) (k : prog W Q L T A)
| Go (t : T) (k : prog W Q L T A).

Arguments Ret {W Q L T A} a.
Arguments Atomic {W Q L T A B} f k.
Arguments Ask {W Q L T A B} q k.
Arguments Acquire {W Q L T A} l m k.
Arguments Release {W Q L T A} l m k.
Arguments Go {W Q L T A} t k.

Fixpoint bind {W Q L T A B} (p : prog W Q L T A) (g : A -> prog W Q L T B) : prog W Q L T B :=
  match p with
  | Ret a => g a
  | Atomic f k => Atomic f (fun b => bind (k b) g)
  | Ask q k => Ask q (fun b => bind (k b) g)
  | Acquire l m k => Acquire l m (bind k g)
  | Release l m k => Release l m (bind k g)
  | Go t k => Go t (bind k g)
  end.

Declare Scope prog_scope.
Delimit Scope prog_scope with prog.

Notation "x <- p ;; q" := (bind p (fun x => q))
  (at level 100, p at next level, right associativity) : prog_scope.
Notation "' pat <- p ;; q" := (bind p (fun x => match x with pat => q end))
  (at level 100, pat pattern, p at next level, right associativity) : prog_scope.
Notation "p ;;; q" := (bind p (fun _ => q))
  (at level 100, right associativity) : prog_scope.

Open Scope prog_scope.

Section derived.
Context {W : Type} {Q : Type -> Type} {L T : Type}.

(** One access to the shared state that never blocks. *)
Definition atomic {B} (f : W -> B * W) : prog W Q L T B := Atomic (fun w => Some (f w)) Ret.

Definition gets {B} (f : W -> B) : prog W Q L T B := atomic (fun w => (f w, w)).

Definition modify (f : W -> W) : prog W Q L T unit := atomic (fun w => (tt, f w)).

(** Block until [c] holds. *)
Definition await (c : W -> bool) : prog W Q L T unit :=
  Atomic (fun w => if c w then Some (tt, w) else None) Ret.

Definition ask {B} (q : Q B) : prog W Q L T B := Ask q Ret.

Definition lock (l : L) : prog W Q L T unit := Acquire l Exclusive (Ret tt).

Definition unlock (l : L) : prog W Q L T unit := Release l Exclusive (Ret tt).

Definition rlock (l : L) : prog W Q L T unit := Acquire l Shared (Ret tt).

Definition runlock (l : L) : prog W Q L T unit := Release l Shared (Ret tt).

Definition go (t : T) : prog W Q L T unit := Go t (Ret tt).

(** A critical section that is one access to the state its lock guards. *)
Definition critical {B} (l : L) (f : W -> B * W) : prog W Q L T B :=
  lock l;;; b <- atomic f;; unlock l;;; Ret b.

Definition rcritical {B} (l : L) (f : W -> B) : prog W Q L T B :=
  rlock l;;; b <- gets f;; runlock l;;; Ret b.
End derived.

(** ** Sequential runs

    One goroutine alone, its locks free, the environment's answers given by an
    oracle that sees the questions answered so far; [log] records them and
    [spawned] the goroutines started. *)

Section run.
Context {W : Type} {Q : Type -> Type} {L T Ev : Type}.
Context (event : forall B, Q B -> B -> Ev).
Context (oracle : forall B, list Ev -> Q B -> B).

Record outcome (A : Type) := Outcome {
  result : A;
  final : W;
  log : list Ev;
  spawned : list T }.

Fixpoint run {A} (p : prog W Q L T A) (w : W) (lg : list Ev) (sp : list T)
    : option (outcome A) :=
  match p with
  | Ret a => Some (Outcome A a w lg sp)
  | Atomic f k =>
      match f w with
      | Some (b, w') => run (k b) w' lg sp
      | None => None
      end
  | Ask q k => let b := oracle _ lg q in run (k b) w (lg ++ [event _ q b]) sp
  | Acquire _ _ k | Release _ _ k => run k w lg sp
  | Go t k => run k w lg (sp ++ [t])
  end.

Lemma run_bind {A B} (p : prog W Q L T A) (g : A -> prog W Q L T B) w lg sp :
  run (bind p g) w lg sp =
  match run p w lg sp with
  | Some (Outcome _ a w' lg' sp') => run (g a) w' lg' sp'
  | None => None
  end.
Proof.
  revert w lg sp. induction p; intros w lg sp; simpl; auto.
  by destruct (f w) as [[]|].
Qed.

(** Run a task for at most [n] iterations of its loop; [None] when it blocks, and the
    task itself is returned when it has not finished by then. *)
Fixpoint run_task (body : T -> prog W Q L T (option T)) (n : nat) (t : T) (w : W)
    (lg : list Ev) (sp : list T) : option (outcome (option T)) :=
  match n with
  | O => Some (Outcome _ (Some t) w lg sp)
  | S n =>
      match run (body t) w lg sp with
      | Some (Outcome _ (Some t') w' lg' sp') => run_task body n t' w' lg' sp'
      | r => r
      end
  end.
End run.

Arguments Outcome {W T Ev A}.
Arguments result {W T Ev A}.
Arguments final {W T Ev A}.
Arguments log {W T Ev A}.
Arguments spawned {W T Ev A}.

(** ** Interleaving semantics *)

Section semantics.
Context {W : Type} {Q : Type -> Type} {L T Ev : Type} `{EqDecision L}.
Context (event : forall B, Q B -> B -> Ev).
Context (body : T -> prog W Q L T (option T)).

Record thread := Thread {
  code : prog W Q L T (option T);
  locks : list (L * mode) }.

Record config := Config {
  world_of : W;
  pool : gmap nat thread }.

(** [l] can be taken in mode [m]: nobody holds it in a conflicting mode. *)
Definition available (l : L) (m : mode) (ts : gmap nat thread) : Prop :=
  forall tid th m', ts !! tid = Some th -> (l, m') ∈ locks th -> m = Shared /\ m' = Shared.

Definition drop_lock (l : L) (m : mode) (h : list (L * mode)) : list (L * mode) :=
  filter (fun x => x <> (l, m)) h.

Inductive step : config -> option (nat * Ev) -> config -> Prop :=
| step_next tid t h w ts :
    ts !! tid = Some (Thread (Ret (Some t)) h) ->
    step (Config w ts) None (Config w (<[tid := Thread (body t) h]> ts))
| step_exit tid h w ts :
    ts !! tid = Some (Thread (Ret None) h) ->
    step (Config w ts) None (Config w (delete tid ts))
| step_atomic tid B (f : W -> option (B * W)) k h w ts b w' :
    ts !! tid = Some (Thread (Atomic f k) h) ->
    f w = Some (b, w') ->
    step (Config w ts) None (Config w' (<[tid := Thread (k b) h]> ts))
| step_ask tid B (q : Q B) k h w ts b :
    ts !! tid = Some (Thread (Ask q k) h) ->
    step (Config w ts) (Some (tid, event B q b)) (Config w (<[tid := Thread (k b) h]> ts))
| step_acquire tid l m k h w ts :
    ts !! tid = Some (Thread (Acquire l m k) h) ->
    available l m ts ->
    step (Config w ts) None (Config w (<[tid := Thread k ((l, m) :: h)]> ts))
| step_release tid l m k h w ts :
    ts !! tid = Some (Thread (Release l m k) h) ->
    (l, m) ∈ h ->
    step (Config w ts) None (Config w (<[tid := Thread k (drop_lock l m h)]> ts))
| step_go tid t k h w ts tid' :
    ts !! tid = Some (Thread (Go t k) h) ->
    ts !! tid' = None ->
    step (Config w ts) None
         (Config w (<[tid' := Thread (body t) []]> (<[tid := Thread k h]> ts))).

(** Executions, with the environment's events in order. *)
Inductive steps : config -> list (nat * Ev) -> config -> Prop :=
| steps_refl c : steps c [] c
| steps_snoc c tr c' e c'' :
    steps c tr c' -> step c' e c'' -> steps c (tr ++ option_list e) c''.

Lemma steps_trans c tr c' tr' c'' : steps c tr c' -> steps c' tr' c'' -> steps c (tr ++ tr') c''.
Proof.
  intros H1 H2. induction H2 as [c'|c' tr' c2 e c3 H2 IH Hs].
  - by rewrite app_nil_r.
  - rewrite app_assoc. by eapply steps_snoc; [apply IH|].
Qed.

(** *** An executable scheduler

    [exec] runs the goroutines in the order of a schedule, [(tid, n)] giving [n] steps
    to the goroutine [tid]; the environment answers by an oracle that sees the events
    so far, and new goroutines are numbered from [next]. *)

Definition conflicts (l : L) (m : mode) (x : L * mode) : bool :=
  bool_decide (fst x = l) && negb (bool_decide (m = Shared) && bool_decide (snd x = Shared)).

Definition free (l : L) (m : mode) (ts : gmap nat thread) : bool :=
  forallb (fun x => forallb (fun y => negb (conflicts l m y)) (locks (snd x))) (map_to_list ts).

Lemma free_available l m ts : free l m ts = true -> available l m ts.
Proof.
  intros Hf tid th m' Hth Hin. unfold free in Hf. rewrite forallb_forall in Hf.
  assert (Hx : In (tid, th) (map_to_list ts)).
  { by apply list_elem_of_In, elem_of_map_to_list. }
  specialize (Hf _ Hx). simpl in Hf. rewrite forallb_forall in Hf.
  specialize (Hf (l, m') ltac:(by apply list_elem_of_In)). unfold conflicts in Hf. simpl in Hf.
  rewrite bool_decide_eq_true_2 in Hf by done. by destruct m, m'.
Qed.

Definition exec_step (answer : forall B, Q B -> B) (child tid : nat) (c : config)
    : option (option (nat * Ev) * config) :=
  let w := world_of c in
  let ts := pool c in
  match ts !! tid with
  | None => None
  | Some (Thread p h) =>
      match p with
      | Ret (Some t) => Some (None, Config w (<[tid := Thread (body t) h]> ts))
      | Ret None => Some (None, Config w (delete tid ts))
      | Atomic f k =>
          match f w with
          | Some (b, w') => Some (None, Config w' (<[tid := Thread (k b) h]> ts))
          | None => None
          end
      | Ask q k =>
          let b := answer _ q in
          Some (Some (tid, event _ q b), Config w (<[tid := Thread (k b) h]> ts))
      | Acquire l m k =>
          if free l m ts then Some (None, Config w (<[tid := Thread k ((l, m) :: h)]> ts)) else None
      | Release l m k =>
          if existsb (fun x => bool_decide (x = (l, m))) h
          then Some (None, Config w (<[tid := Thread k (drop_lock l m h)]> ts)) else None
      | Go t k =>
          match ts !! child with
          | None => Some (None, Config w (<[child := Thread (body t) []]> (<[tid := Thread k h]> ts)))
          | Some _ => None
          end
      end
  end.

Lemma exec_step_sound answer child tid c e c' :
  exec_step answer child tid c = Some (e, c') -> step c e c'.
Proof.
  destruct c as [w ts]. unfold exec_step. simpl.
  destruct (ts !! tid) as [[p h]|] eqn:Hl; [|done].
  destruct p as [[t|]|B f k|B q k|l m k|l m k|t k].
  - intros [= <- <-]. by apply step_next.
  - intros [= <- <-]. by eapply step_exit.
  - destruct (f w) as [[b w']|] eqn:Hf; [|done]. intros [= <- <-]. by eapply step_atomic.
  - intros [= <- <-]. by apply step_ask.
  - destruct (free l m ts) eqn:Hf; [|done]. intros [= <- <-].
    apply step_acquire; [done|]. by apply free_available.
  - destruct (existsb _ h) eqn:Hx; [|done]. intros [= <- <-].
    apply step_release; [done|]. apply existsb_exists in Hx as (x & Hin & ->%bool_decide_eq_true).
    by apply list_elem_of_In.
  - destruct (ts !! child) eqn:Hc; [done|]. intros [= <- <-]. by apply step_go.
Qed.

Definition is_go (c : config) (tid : nat) : bool :=
  match pool c !! tid with Some (Thread (Go _ _) _) => true | _ => false end.

Fixpoint exec_n (oracle : list (nat * Ev) -> forall B, Q B -> B) (tid n next : nat)
    (tr : list (nat * Ev)) (c : config) : option (nat * list (nat * Ev) * config) :=
  match n with
  | O => Some (next, tr, c)
  | S n =>
      match exec_step (oracle tr) next tid c with
      | Some (e, c') =>
          exec_n oracle tid n (if is_go c tid then S next else next) (tr ++ option_list e) c'
      | None => None
      end
  end.

Fixpoint exec (oracle : list (nat * Ev) -> forall B, Q B -> B) (sched : list (nat * nat))
    (next : nat) (tr : list (nat * Ev)) (c : config) : option (nat * list (nat * Ev) * config) :=
  match sched with
  | [] => Some (next, tr, c)
  | (tid, n) :: sched =>
      match exec_n oracle tid n next tr c with
      | Some (next, tr, c) => exec oracle sched next tr c
      | None => None
      end
  end.

Lemma exec_n_sound oracle tid n : forall next tr c0 c next' tr' c',
  exec_n oracle tid n next tr c = Some (next', tr', c') -> steps c0 tr c -> steps c0 tr' c'.
Proof.
  induction n as [|n IH]; intros next tr c0 c next' tr' c'; simpl; [by intros [= _ <- <-]|].
  destruct (exec_step _ _ _ _) as [[e c2]|] eqn:He; [|done]. intros Hx Hs.
  eapply IH; [exact Hx|]. eapply steps_snoc; [exact Hs|]. by eapply exec_step_sound.
Qed.

(** What the scheduler runs is an execution. *)
Lemma exec_sound oracle sched : forall next tr c0 c next' tr' c',
  exec oracle sched next tr c = Some (next', tr', c') -> steps c0 tr c -> steps c0 tr' c'.
Proof.
  induction sched as [|[tid n] sched IH]; intros next tr c0 c next' tr' c'; simpl; [by intros [= _ <- <-]|].
  destruct (exec_n _ _ _ _ _ _) as [[[next2 tr2] c2]|] eqn:He; [|done]. intros Hx Hs.
  eapply IH; [exact Hx|]. by eapply exec_n_sound.
Qed.
End semantics.

Arguments Thread {W Q L T}.
Arguments code {W Q L T}.
Arguments locks {W Q L T}.
Arguments Config {W Q L T}.
Arguments world_of {W Q L T}.
Arguments pool {W Q L T}.

(** Peel the static half of the [wp] of a lock operation off the goal and off [Hp]. *)
Ltac wp_static Hp :=
  try match type of Hp with
      | _ /\ _ => let Hs := fresh "Hs" in destruct Hp as [Hs Hp]; split; [exact Hs|]
      end.

(** ** Rely-guarantee

    Threads own disjoint sets of tokens (a token is a [positive]), and the tokens no
    thread owns are in the pot; [inv] is the invariant of the shared state, the exclusively held locks and
    the pot.  [guar o h] bounds what a thread owning [o] and holding [h] may do to
    the state in one step, [rely o h] what all the others may do to it meanwhile.
    [allowed] is what must hold when a question is put to the environment, and
    [rank] orders the locks. *)

Section logic.
Context {W : Type} {Q : Type -> Type} {L T Ev : Type} `{Countable L}.
Context (body : T -> prog W Q L T (option T)).
Context (inv : W -> gset L -> coPset -> Prop).
Context (guar rely : coPset -> list (L * mode) -> W -> W -> Prop).
Context (rank : L -> nat).
Context (allowed : forall B, Q B -> coPset -> list (L * mode) -> W -> Prop).
Context (pre : T -> coPset -> W -> Prop).

(** What holding the locks [h] says about the set of exclusively held locks. *)
Definition view (h : list (L * mode)) (xl : gset L) : Prop :=
  forall l m, (l, m) ∈ h -> match m with Exclusive => l ∈ xl | Shared => l ∉ xl end.

Definition compat (h h' : list (L * mode)) : Prop :=
  forall l m m', (l, m) ∈ h -> (l, m') ∈ h' -> m = Shared /\ m' = Shared.

Definition lock_on (l : L) (m : mode) (xl : gset L) : gset L :=
  match m with Exclusive => {[l]} ∪ xl | Shared => xl end.

Definition lock_off (l : L) (m : mode) (xl : gset L) : gset L :=
  match m with Exclusive => xl ∖ {[l]} | Shared => xl end.

(** [now o h w w1 xl pot]: the others took the state from [w] to [w1], where the
    invariant holds. *)
Record now (o : coPset) (h : list (L * mode)) (w w1 : W) (xl : gset L) (pot : coPset)
    : Prop := Now {
  now_rely : rely o h w w1;
  now_view : view h xl;
  now_disj : o ## pot;
  now_inv : inv w1 xl pot }.

Fixpoint wp {A} (o : coPset) (h : list (L * mode)) (p : prog W Q L T A)
    (post : A -> coPset -> list (L * mode) -> W -> Prop) (w : W) : Prop :=
  match p with
  | Ret a => forall w1, rely o h w w1 -> post a o h w1
  | Atomic f k => forall w1 xl pot, now o h w w1 xl pot ->
      match f w1 with
      | None => True
      | Some (b, w2) =>
          guar o h w1 w2 /\
          exists o2 pot2, o2 ## pot2 /\ o2 ∪ pot2 = o ∪ pot /\ inv w2 xl pot2 /\
                          wp o2 h (k b) post w2
      end
  | Ask q k => forall w1 xl pot, now o h w w1 xl pot ->
      allowed _ q o h w1 /\ forall b, wp o h (k b) post w1
  | Acquire l m k =>
      (forall x, x ∈ h -> (rank (fst x) < rank l)%nat) /\
      forall w1 xl pot, now o h w w1 xl pot -> l ∉ xl ->
        inv w1 (lock_on l m xl) pot /\ wp o ((l, m) :: h) k post w1
  | Release l m k =>
      (l, m) ∈ h /\
      forall w1 xl pot, now o h w w1 xl pot ->
        inv w1 (lock_off l m xl) pot /\ wp o (drop_lock l m h) k post w1
  | Go t k => forall w1 xl pot, now o h w w1 xl pot ->
      exists o1 o2, o1 ## o2 /\ o1 ∪ o2 = o /\ pre t o1 w1 /\ wp o2 h k post w1
  end.

Definition task_post (r : option T) (o : coPset) (h : list (L * mode)) (w : W) : Prop :=
  h = [] /\ match r with Some t => pre t o w | None => True end.

Context `{rely_preorder : forall o h, PreOrder (rely o h)}.

Lemma now_trans o h w w0 w1 xl pot :
  rely o h w w0 -> now o h w0 w1 xl pot -> now o h w w1 xl pot.
Proof. intros ? []. split; try done. by etransitivity. Qed.

Lemma wp_rely {A} o h (p : prog W Q L T A) post w w' :
  rely o h w w' -> wp o h p post w -> wp o h p post w'.
Proof.
  intros Hr Hp. destruct p; simpl in *; wp_static Hp; intros; eapply Hp;
    eauto using now_trans. by etransitivity.
Qed.

Lemma wp_mono {A} (p : prog W Q L T A) (post post' : A -> coPset -> list (L * mode) -> W -> Prop) :
  (forall a o h w, post a o h w -> post' a o h w) ->
  forall o h w, wp o h p post w -> wp o h p post' w.
Proof.
  intros Hpost. induction p as [a|B f k IH|B q k IH|l m k IH|l m k IH|t k IH]; simpl;
    intros o h w Hp; wp_static Hp; [by auto| ..]; intros w' xl pot Hn.
  - specialize (Hp _ _ _ Hn). destruct (f w') as [[b w2]|]; [|done].
    destruct Hp as (? & o2 & pot2 & ? & ? & ? & ?). split; [done|]. exists o2, pot2. eauto 10.
  - destruct (Hp _ _ _ Hn). split; auto.
  - intros Hl. destruct (Hp _ _ _ Hn Hl). split; auto.
  - destruct (Hp _ _ _ Hn). split; auto.
  - destruct (Hp _ _ _ Hn) as (o1 & o2 & ? & ? & ? & ?). exists o1, o2. eauto 10.
Qed.

Lemma wp_bind {A B} (p : prog W Q L T A) (g : A -> prog W Q L T B) post :
  forall o h w, wp o h p (fun a o h w => wp o h (g a) post w) w -> wp o h (bind p g) post w.
Proof.
  induction p as [a|C f k IH|C q k IH|l m k IH|l m k IH|t k IH]; simpl; intros o h w Hp;
    wp_static Hp; [by apply Hp| ..]; intros w' xl pot Hn.
  - specialize (Hp _ _ _ Hn). destruct (f w') as [[b w2]|]; [|done].
    destruct Hp as (? & o2 & pot2 & ? & ? & ? & ?). split; [done|]. exists o2, pot2. eauto 10.
  - destruct (Hp _ _ _ Hn). split; auto.
  - intros Hl. destruct (Hp _ _ _ Hn Hl). split; auto.
  - destruct (Hp _ _ _ Hn). split; auto.
  - destruct (Hp _ _ _ Hn) as (o1 & o2 & ? & ? & ? & ?). exists o1, o2. eauto 10.
Qed.

(** ** Soundness *)

Context (event : forall B, Q B -> B -> Ev).
Context (guar_rely : forall o h o' h' w w',
  o ## o' -> compat h h' -> guar o h w w' -> rely o' h' w w').
Context (body_ok : forall t o w, pre t o w -> wp o [] (body t) task_post w).

Record pool_ok (w : W) (ts : gmap nat (thread (W:=W) (Q:=Q) (L:=L) (T:=T)))
    (xl : gset L) (pot : coPset) (own : nat -> coPset) : Prop := PoolOk {
  po_inv : inv w xl pot;
  po_thread : forall tid th, ts !! tid = Some th ->
    own tid ## pot /\ view (locks th) xl /\ wp (own tid) (locks th) (code th) task_post w;
  po_pair : forall tid1 tid2 th1 th2, tid1 <> tid2 ->
    ts !! tid1 = Some th1 -> ts !! tid2 = Some th2 ->
    own tid1 ## own tid2 /\ compat (locks th1) (locks th2);
  po_held : forall l, l ∈ xl -> exists tid th, ts !! tid = Some th /\ (l, Exclusive) ∈ locks th }.

Lemma pool_now w ts xl pot own tid th :
  pool_ok w ts xl pot own -> ts !! tid = Some th -> now (own tid) (locks th) w w xl pot.
Proof.
  intros [Hi Ht _ _] Hl. destruct (Ht _ _ Hl) as (? & ? & _). by split.
Qed.

Definition give (own : nat -> coPset) (tid : nat) (o : coPset) (i : nat) : coPset :=
  if decide (i = tid) then o else own i.

Lemma give_eq own tid o : give own tid o tid = o.
Proof. unfold give. by rewrite decide_True. Qed.

Lemma give_ne own tid o i : i <> tid -> give own tid o i = own i.
Proof. intros. unfold give. by rewrite decide_False. Qed.

Lemma tokens_disjoint (o pot o2 pot2 oi : coPset) :
  o2 ∪ pot2 ⊆ o ∪ pot -> oi ## pot -> o ## oi -> o2 ## oi /\ oi ## pot2.
Proof. set_solver. Qed.

Lemma tokens_split (o1 o2 o pot : coPset) :
  o1 ∪ o2 = o -> o1 ## o2 -> o ## pot -> o2 ## pot /\ o2 ∪ pot ⊆ o ∪ pot /\ o1 ## pot.
Proof. set_solver. Qed.

Lemma disjoint_part (o1 o oi : coPset) : o1 ⊆ o -> oi ## o -> oi ## o1.
Proof. set_solver. Qed.

(** A step that leaves the locks alone and re-divides its own tokens and the pot. *)
Lemma pool_ok_update w ts xl pot own tid p h p' w' o2 pot2 :
  pool_ok w ts xl pot own ->
  ts !! tid = Some (Thread p h) ->
  (w' = w \/ guar (own tid) h w w') ->
  o2 ## pot2 -> o2 ∪ pot2 ⊆ own tid ∪ pot -> inv w' xl pot2 ->
  wp o2 h p' task_post w' ->
  pool_ok w' (<[tid := Thread p' h]> ts) xl pot2 (give own tid o2).
Proof.
  intros [Hi Ht Hp Hx] Hl Hg Hd He Hi2 Hw.
  assert (Ho : forall i th, i <> tid -> ts !! i = Some th ->
    o2 ## own i /\ own i ## pot2 /\ compat h (locks th) /\ compat (locks th) h).
  { intros i th Hne Hth. destruct (Hp tid i _ _ ltac:(done) Hl Hth) as [? ?].
    destruct (Hp i tid _ _ Hne Hth Hl) as [_ ?]. destruct (Ht _ _ Hth) as (? & _ & _).
    by destruct (tokens_disjoint _ _ _ _ (own i) He). }
  split; [done| | |].
  - intros i th Hth. rewrite lookup_insert in Hth.
    destruct (decide (tid = i)) as [<-|]; simplify_eq/=.
    + rewrite give_eq. split; [done|]. by destruct (Ht _ _ Hl) as (_ & ? & _).
    + rewrite give_ne by done. destruct (Ht _ _ Hth) as (_ & ? & Hwi).
      destruct (Ho i th ltac:(done) Hth) as (? & ? & ? & ?). split; [done|]. split; [done|].
      destruct Hg as [->|Hg]; [done|]. destruct (Hp tid i _ _ ltac:(done) Hl Hth).
      eapply wp_rely, Hwi. by eapply guar_rely.
  - intros i j th1 th2 Hij H1 H2. rewrite lookup_insert in H1, H2.
    destruct (decide (tid = i)) as [<-|], (decide (tid = j)) as [<-|]; simplify_eq/=.
    + rewrite give_eq, give_ne by done. by destruct (Ho j th2 ltac:(done) H2) as (? & ? & ? & ?).
    + rewrite give_eq, give_ne by done. destruct (Ho i th1 ltac:(done) H1) as (? & ? & ? & ?).
      by split; [symmetry|].
    + rewrite !give_ne by done. by eapply Hp.
  - intros l Hlx. destruct (Hx _ Hlx) as (i & th & Hth & Hin).
    destruct (decide (i = tid)) as [->|].
    + exists tid, (Thread p' h). rewrite lookup_insert_eq. split; [done|].
      rewrite Hl in Hth. by simplify_eq/=.
    + exists i, th. by rewrite lookup_insert_ne.
Qed.

Lemma elem_of_lock_on l l' m xl :
  l' ∈ lock_on l m xl <-> (m = Exclusive /\ l' = l) \/ l' ∈ xl.
Proof. destruct m; simpl; [naive_solver|]. rewrite elem_of_union, elem_of_singleton. naive_solver. Qed.

Lemma elem_of_lock_off l l' m xl :
  l' ∈ lock_off l m xl <-> l' ∈ xl /\ ~ (m = Exclusive /\ l' = l).
Proof.
  destruct m; simpl; [naive_solver|]. rewrite elem_of_difference, elem_of_singleton. naive_solver.
Qed.

Lemma view_lock_on l m h xl :
  view h xl -> (m = Exclusive -> (l, Shared) ∉ h) -> view h (lock_on l m xl).
Proof.
  intros Hv Hn l' [] Hin; specialize (Hv _ _ Hin); simpl in Hv; rewrite elem_of_lock_on; [|by right].
  intros [[-> ->]|?]; [by apply Hn|done].
Qed.

Lemma view_lock_off l m h xl :
  view h xl -> (m = Exclusive -> (l, Exclusive) ∉ h) -> view h (lock_off l m xl).
Proof.
  intros Hv Hn l' [] Hin; specialize (Hv _ _ Hin); simpl in Hv; rewrite elem_of_lock_off; [tauto|].
  split; [done|]. intros [-> ->]. by apply Hn.
Qed.

(** A lock operation: the thread's own locks and the exclusive set move together. *)
Lemma pool_ok_locks w ts xl pot own tid p h p' h' xl' :
  pool_ok w ts xl pot own ->
  ts !! tid = Some (Thread p h) ->
  inv w xl' pot ->
  view h' xl' ->
  (forall i th, i <> tid -> ts !! i = Some th ->
     view (locks th) xl' /\ compat h' (locks th) /\ compat (locks th) h') ->
  (forall l, l ∈ xl' -> (l, Exclusive) ∈ h' \/
     exists i th, i <> tid /\ ts !! i = Some th /\ (l, Exclusive) ∈ locks th) ->
  wp (own tid) h' p' task_post w ->
  pool_ok w (<[tid := Thread p' h']> ts) xl' pot own.
Proof.
  intros [Hi Ht Hp Hx] Hl Hi' Hv Ho Hxl Hw. split; [done| | |].
  - intros i th Hth. rewrite lookup_insert in Hth. case_decide; simplify_eq/=.
    + by destruct (Ht _ _ Hl) as (? & _ & _).
    + destruct (Ht _ _ Hth) as (? & _ & ?). by destruct (Ho i th ltac:(done) Hth).
  - intros i j th1 th2 Hij H1 H2. rewrite lookup_insert in H1, H2.
    destruct (decide (tid = i)) as [<-|], (decide (tid = j)) as [<-|]; simplify_eq/=.
    + destruct (Hp tid j _ _ Hij Hl H2). destruct (Ho j th2 ltac:(done) H2) as (? & ? & ?). done.
    + destruct (Hp i tid _ _ Hij H1 Hl). destruct (Ho i th1 ltac:(done) H1) as (? & ? & ?). done.
    + by eapply Hp.
  - intros l Hlx. destruct (Hxl _ Hlx) as [?|(i & th & ? & ? & ?)].
    + exists tid, (Thread p' h'). by rewrite lookup_insert_eq.
    + exists i, th. by rewrite lookup_insert_ne.
Qed.

Lemma compat_cons_l l m h h' :
  (forall m', (l, m') ∈ h' -> m = Shared /\ m' = Shared) -> compat h h' -> compat ((l, m) :: h) h'.
Proof. intros Hl Hc l' m1 m2. rewrite elem_of_cons. intros [[= -> ->]|?] ?; eauto. Qed.

Lemma compat_sym h h' : compat h h' -> compat h' h.
Proof. intros Hc l m m' H1 H2. by destruct (Hc l m' m H2 H1). Qed.

Lemma drop_lock_subseteq (l : L) m (h : list (L * mode)) : drop_lock l m h ⊆ h.
Proof. intros x. unfold drop_lock. rewrite list_elem_of_filter. tauto. Qed.

Lemma compat_subseteq (h1 h2 h' : list (L * mode)) : h1 ⊆ h2 -> compat h2 h' -> compat h1 h'.
Proof. intros Hs Hc l m m' H1. apply Hc. by apply Hs. Qed.

Lemma pool_ok_acquire w ts xl pot own tid l m p h :
  pool_ok w ts xl pot own ->
  ts !! tid = Some (Thread (Acquire l m p) h) ->
  available l m ts ->
  pool_ok w (<[tid := Thread p ((l, m) :: h)]> ts) (lock_on l m xl) pot own.
Proof.
  intros Hok Hl Ha. pose proof Hok as [Hi Ht Hp Hx]. destruct (Ht _ _ Hl) as (Hd & Hv & Hs & Hw).
  assert (Hlx : l ∉ xl).
  { intros Hlx. destruct (Hx _ Hlx) as (i & th & Hth & Hin). by destruct (Ha _ _ _ Hth Hin). }
  assert (Hfree : forall i th, ts !! i = Some th -> m = Exclusive -> (l, Shared) ∉ locks th).
  { intros i th Hth -> Hin. by destruct (Ha _ _ _ Hth Hin). }
  destruct (Hw _ _ _ (pool_now _ _ _ _ _ _ _ Hok Hl) Hlx) as [Hi2 Hw2].
  eapply pool_ok_locks; try done.
  - intros l' m'. rewrite elem_of_cons. intros [[= -> ->]|Hin].
    + destruct m; [done|]. apply elem_of_lock_on. by left.
    + apply (view_lock_on l m h); [done| |done]. by apply (Hfree _ _ Hl).
  - intros i th Hne Hth. destruct (Ht _ _ Hth) as (_ & Hvi & _).
    destruct (Hp tid i _ _ ltac:(done) Hl Hth) as [_ Hc].
    assert (compat ((l, m) :: h) (locks th)) by (apply compat_cons_l; [eauto|done]).
    split; [|split; [done|by apply compat_sym]]. apply view_lock_on; [done|]. by apply (Hfree i).
  - intros l' [[-> ->]|Hlx']%elem_of_lock_on; [left; by apply elem_of_cons; left|].
    destruct (Hx _ Hlx') as (i & th & Hth & Hin). destruct (decide (i = tid)) as [->|].
    + left. simplify_eq/=. by apply elem_of_cons; right.
    + right. eauto.
Qed.

Lemma pool_ok_release w ts xl pot own tid l m p h :
  pool_ok w ts xl pot own ->
  ts !! tid = Some (Thread (Release l m p) h) ->
  pool_ok w (<[tid := Thread p (drop_lock l m h)]> ts) (lock_off l m xl) pot own.
Proof.
  intros Hok Hl. pose proof Hok as [Hi Ht Hp Hx]. destruct (Ht _ _ Hl) as (Hd & Hv & Hs & Hw).
  simpl in Hs. destruct (Hw _ _ _ (pool_now _ _ _ _ _ _ _ Hok Hl)) as [Hi2 Hw2].
  eapply pool_ok_locks; try done.
  - apply view_lock_off.
    + intros l' m' Hin. by apply Hv, (drop_lock_subseteq l m).
    + intros -> Hin. by apply list_elem_of_filter in Hin as [? _].
  - intros i th Hne Hth. destruct (Ht _ _ Hth) as (_ & Hvi & _).
    destruct (Hp tid i _ _ ltac:(done) Hl Hth) as [_ Hc].
    assert (compat (drop_lock l m h) (locks th)) by
      (eapply compat_subseteq, Hc; apply drop_lock_subseteq).
    split; [|split; [done|by apply compat_sym]]. apply view_lock_off; [done|].
    intros -> Hin. by destruct (Hc _ _ _ Hs Hin).
  - intros l' [Hlx Hne]%elem_of_lock_off.
    destruct (Hx _ Hlx) as (i & th & Hth & Hin). destruct (decide (i = tid)) as [->|]; [|by eauto 10].
    left. simplify_eq/=. apply list_elem_of_filter. split; [|done]. intros [= -> <-]. by apply Hne.
Qed.

Lemma pool_ok_exit w ts xl pot own tid :
  pool_ok w ts xl pot own ->
  ts !! tid = Some (Thread (Ret None) []) ->
  pool_ok w (delete tid ts) xl pot own.
Proof.
  intros [Hi Ht Hp Hx] Hl. split; [done| | |].
  - intros i th Hth. apply lookup_delete_Some in Hth as [_ Hth]. eauto.
  - intros i j th1 th2 Hij H1 H2. apply lookup_delete_Some in H1 as [_ H1], H2 as [_ H2]. eauto.
  - intros l Hlx. destruct (Hx _ Hlx) as (i & th & Hth & Hin). exists i, th. split; [|done].
    apply lookup_delete_Some. split; [|done]. intros <-. simplify_eq/=. by apply elem_of_nil in Hin.
Qed.

Lemma pool_ok_spawn w ts xl pot own tid p o :
  pool_ok w ts xl pot own ->
  ts !! tid = None ->
  o ## pot ->
  (forall i th, ts !! i = Some th -> own i ## o) ->
  wp o [] p task_post w ->
  pool_ok w (<[tid := Thread p []]> ts) xl pot (give own tid o).
Proof.
  intros [Hi Ht Hp Hx] Hn Hd Ho Hw.
  assert (Hne : forall i th, ts !! i = Some th -> i <> tid) by congruence.
  split; [done| | |].
  - intros i th Hth. rewrite lookup_insert in Hth.
    destruct (decide (tid = i)) as [<-|]; simplify_eq/=.
    + rewrite give_eq. split; [done|]. split; [|done]. intros l m Hin. by apply elem_of_nil in Hin.
    + rewrite give_ne by done. eauto.
  - intros i j th1 th2 Hij H1 H2. rewrite lookup_insert in H1, H2.
    destruct (decide (tid = i)) as [<-|], (decide (tid = j)) as [<-|]; simplify_eq/=.
    + rewrite give_eq, give_ne by done. split; [symmetry; eauto|].
      intros l m m' Hin. by apply elem_of_nil in Hin.
    + rewrite give_eq, give_ne by done. split; [eauto|].
      intros l m m' _ Hin. by apply elem_of_nil in Hin.
    + rewrite !give_ne by done. eauto.
  - intros l Hlx. destruct (Hx _ Hlx) as (i & th & Hth & Hin). exists i, th.
    rewrite lookup_insert_ne by (intros <-; congruence). done.
Qed.

Definition config_ok (c : config (W:=W) (Q:=Q) (L:=L) (T:=T)) : Prop :=
  exists xl pot own, pool_ok (world_of c) (pool c) xl pot own.

Lemma step_config_ok c e c' :
  step event body c e c' -> config_ok c -> config_ok c'.
Proof.
  intros Hs (xl & pot & own & Hok).
  destruct Hs as [tid t h w ts Hl|tid h w ts Hl|tid B f k h w ts b w' Hl Hf|tid B q k h w ts b Hl
    |tid l m k h w ts Hl Ha|tid l m k h w ts Hl Hin|tid t k h w ts tid' Hl Hl'];
    simpl in *; pose proof (po_thread _ _ _ _ _ Hok _ _ Hl) as (Hd & Hv & Hw); simpl in Hd, Hv, Hw;
    pose proof (pool_now _ _ _ _ _ _ _ Hok Hl) as Hn; simpl in Hn.
  - exists xl, pot, (give own tid (own tid)). destruct (Hw w ltac:(reflexivity)) as [-> Hpre].
    eapply pool_ok_update; eauto; by apply po_inv in Hok.
  - exists xl, pot, own. destruct (Hw w ltac:(reflexivity)) as [-> _]. by apply pool_ok_exit.
  - specialize (Hw _ _ _ Hn). rewrite Hf in Hw.
    destruct Hw as (? & o2 & pot2 & ? & ? & ? & ?).
    exists xl, pot2, (give own tid o2). eapply pool_ok_update; eauto. set_solver.
  - destruct (Hw _ _ _ Hn) as [_ Hk]. exists xl, pot, (give own tid (own tid)).
    eapply pool_ok_update; eauto. by apply po_inv in Hok.
  - exists (lock_on l m xl), pot, own. by apply pool_ok_acquire.
  - exists (lock_off l m xl), pot, own. by apply pool_ok_release.
  - destruct (Hw _ _ _ Hn) as (o1 & o2 & Ho12 & Ho & Hpre & Hk).
    exists xl, pot, (give (give own tid o2) tid' o1).
    assert (Hup : pool_ok w (<[tid := Thread k h]> ts) xl pot (give own tid o2)).
    { destruct (tokens_split o1 o2 (own tid) pot) as (? & ? & ?); [done..|].
      eapply pool_ok_update; eauto. by apply po_inv in Hok. }
    destruct (tokens_split o1 o2 (own tid) pot) as (? & ? & Ho1); [done..|].
    apply pool_ok_spawn; [done| |done| |by apply body_ok].
    + rewrite lookup_insert_ne; [done|]. by intros <-; simplify_eq.
    + intros i th Hth. rewrite lookup_insert in Hth. destruct (decide (tid = i)) as [<-|].
      * rewrite give_eq. by symmetry.
      * rewrite give_ne by done. destruct (po_pair _ _ _ _ _ Hok tid i _ _ ltac:(done) Hl Hth) as [? _].
        apply (disjoint_part o1 (own tid)); [|by symmetry]. rewrite <- Ho. apply union_subseteq_l.
Qed.

(** Every step stays within what its goroutine may do to the state. *)
Lemma step_config_guar c e c' :
  step event body c e c' -> config_ok c ->
  world_of c' = world_of c \/ exists o h, guar o h (world_of c) (world_of c').
Proof.
  intros Hs (xl & pot & own & Hok).
  destruct Hs as [| |tid B f k h w ts b w' Hl Hf| | | |]; simpl in *; auto. right.
  destruct (po_thread _ _ _ _ _ Hok _ _ Hl) as (Hd & Hv & Hw).
  specialize (Hw _ _ _ (pool_now _ _ _ _ _ _ _ Hok Hl)). rewrite Hf in Hw. destruct Hw as [Hg _].
  eauto.
Qed.

Lemma steps_config_ok c tr c' :
  steps event body c tr c' -> config_ok c -> config_ok c'.
Proof. induction 1; eauto using step_config_ok. Qed.

(** What holds of every configuration: the invariant, and at every question a thread is
    about to ask, its permission, the owners being pairwise disjoint. *)
Lemma config_ok_inv c : config_ok c -> exists xl pot, inv (world_of c) xl pot.
Proof. intros (xl & pot & own & [Hi _ _ _]). eauto. Qed.

Lemma config_ok_ask c :
  config_ok c ->
  exists xl pot (own : nat -> coPset), inv (world_of c) xl pot /\
    (forall tid th, pool c !! tid = Some th -> own tid ## pot) /\
    (forall tid1 tid2 th1 th2, tid1 <> tid2 -> pool c !! tid1 = Some th1 ->
       pool c !! tid2 = Some th2 -> own tid1 ## own tid2) /\
    (forall tid B (q : Q B) k h, pool c !! tid = Some (Thread (Ask q k) h) ->
       allowed _ q (own tid) h (world_of c)).
Proof.
  intros (xl & pot & own & Hok). exists xl, pot, own. split; [apply Hok|]. split; [|split].
  - intros tid th Hth. by apply (po_thread _ _ _ _ _ Hok) in Hth as [? _].
  - intros. by eapply Hok.
  - intros tid B q k h Hl. destruct (po_thread _ _ _ _ _ Hok _ _ Hl) as (_ & _ & Hw).
    by destruct (Hw _ _ _ (pool_now _ _ _ _ _ _ _ Hok Hl)).
Qed.

Lemma config_ok_acquire c tid l m k h :
  config_ok c -> pool c !! tid = Some (Thread (Acquire l m k) h) ->
  forall x, x ∈ h -> (rank (fst x) < rank l)%nat.
Proof.
  intros (xl & pot & own & Hok) Hl. destruct (po_thread _ _ _ _ _ Hok _ _ Hl) as (_ & _ & Hw).
  apply Hw.
Qed.

(** [tid] waits for a lock another thread holds. *)
Definition lock_blocked (c : config (W:=W) (Q:=Q) (L:=L) (T:=T)) (tid : nat) : Prop :=
  exists l m k h, pool c !! tid = Some (Thread (Acquire l m k) h) /\
    exists tid' th' m', pool c !! tid' = Some th' /\ (l, m') ∈ locks th'.

(** Lock acquisition follows the rank, so the holders of locks never all wait. *)
Lemma config_ok_no_deadlock c :
  config_ok c -> forall n, (forall l, (rank l <= n)%nat) ->
  (forall tid th, pool c !! tid = Some th -> locks th <> [] -> lock_blocked c tid) ->
  forall tid th, pool c !! tid = Some th -> locks th = [].
Proof.
  intros Hok n Hn Hb.
  assert (Hr : forall d l m tid th, (n - rank l <= d)%nat -> pool c !! tid = Some th ->
                 (l, m) ∈ locks th -> False).
  { induction d as [|d IH]; intros l m tid th Hd Hth Hin;
      (destruct (Hb tid th Hth) as (l2 & m2 & k & h & Hl2 & tid' & th' & m' & Hth' & Hin');
        [by intros He; rewrite He in Hin; apply elem_of_nil in Hin|]);
      rewrite Hth in Hl2; simplify_eq/=;
      pose proof (config_ok_acquire _ _ _ _ _ _ Hok Hth _ Hin) as Hlt; simpl in Hlt;
      pose proof (Hn l2).
    - lia.
    - eapply (IH l2 m' tid' th'); eauto. lia. }
  intros tid th Hth. destruct (locks th) as [|[l m] h] eqn:Hlk; [done|]. exfalso.
  apply (Hr n l m tid th); [lia|done|]. rewrite Hlk. by apply elem_of_cons; left.
Qed.
End logic.
