(* ===== verification/Ledger.v ===== *)
(** * Ledger: what every goroutine of an execution still has to give back

    A ledger has an entry for every goroutine: its account.  [accounts p post s]: in every
    state it may meet, the program [p] of a goroutine with the account [s] posts each of its
    accesses the way [moves] allows, asks only what [permits] allows, and ends with an account
    that satisfies [post].  An execution keeps a ledger in step with the goroutines of its
    pool. *)
From S2P Require Import Prelude Conc.

Section ledger.
Context {W : Type} {Q : Type -> Type} {L T Ev S : Type} `{EqDecision L}.
Context (event : forall B, Q B -> B -> Ev).
Context (body : T -> prog W Q L T (option T)).

(** [backed s w]: what the state promises the holder of [s]; [moves s w s' w']: one access;
    [hands t s s']: what is left of [s] once it has started a goroutine with the task [t]. *)
Context (backed : S -> W -> Prop).
Context (moves : S -> W -> S -> W -> Prop).
Context (permits : forall B, Q B -> S -> Prop).
Context (hands : T -> S -> S -> Prop).
Context (acquired released : L -> mode -> S -> S).

Fixpoint accounts {A} (p : prog W Q L T A) (post : A -> S -> Prop) (s : S) : Prop :=
  match p with
  | Ret a => post a s
  | Atomic f k => forall w b w', backed s w -> f w = Some (b, w') ->
      exists s', moves s w s' w' /\ accounts (k b) post s'
  | Ask q k => permits _ q s /\ forall b, accounts (k b) post s
  | Acquire l m k => accounts k post (acquired l m s)
  | Release l m k => accounts k post (released l m s)
  | Go t k => exists s', hands t s s' /\ accounts k post s'
  end.

Lemma accounts_mono {A} (p : prog W Q L T A) (post post' : A -> S -> Prop) s :
  accounts p post s -> (forall a s', post a s' -> post' a s') -> accounts p post' s.
Proof.
  intros Hp Hpost. revert s Hp.
  induction p as [a|B f k IH|B q k IH|l m k IH|l m k IH|t k IH]; intros s Hp; simpl in *; auto.
  - intros w b w' Hb Hf. destruct (Hp w b w' Hb Hf) as (s' & ? & ?). eauto.
  - destruct Hp. split; auto.
  - destruct Hp as (s' & ? & ?). eauto.
Qed.

Lemma accounts_bind {A B} (p : prog W Q L T A) (g : A -> prog W Q L T B) post s :
  accounts p (fun a => accounts (g a) post) s -> accounts (bind p g) post s.
Proof.
  revert s. induction p as [a|C f k IH|C q k IH|l m k IH|l m k IH|t k IH]; intros s Hp; simpl in *; auto.
  - intros w b w' Hb Hf. destruct (Hp w b w' Hb Hf) as (s' & ? & ?). eauto.
  - destruct Hp. split; auto.
  - destruct Hp as (s' & ? & ?). eauto.
Qed.

Lemma accounts_call {A B} (p : prog W Q L T A) (g : A -> prog W Q L T B) mid post s :
  accounts p mid s -> (forall a s', mid a s' -> accounts (g a) post s') -> accounts (bind p g) post s.
Proof. intros Hp Hg. apply accounts_bind. by eapply accounts_mono. Qed.

(** ** The ledger of an execution

    [start t] is the account with which the task [t] begins, [settled r s] what its iteration
    leaves; [fits h s] relates an account to the locks its goroutine holds. *)
Context (start : T -> S) (settled : option T -> S -> Prop) (fits : list (L * mode) -> S -> Prop).

Notation thread := (thread (W := W) (Q := Q) (L := L) (T := T)).
Notation config := (config (W := W) (Q := Q) (L := L) (T := T)).

Hypothesis body_accounts : forall t, accounts (body t) settled (start t).
Hypothesis fits_start : forall h t, fits h (start t).
Hypothesis fits_moves : forall h s w s' w', moves s w s' w' -> fits h s -> fits h s'.
Hypothesis fits_acquired : forall h l m s, fits h s -> fits ((l, m) :: h) (acquired l m s).
Hypothesis fits_released : forall h l m s, fits h s -> fits (drop_lock l m h) (released l m s).
Hypothesis fits_hands : forall h t s s', hands t s s' -> fits h s -> fits h s'.

(** Entry and goroutine agree. *)
Definition agrees (th : option thread) (s : option S) : Prop :=
  match th, s with
  | Some th, Some s => accounts (code th) settled s /\ fits (locks th) s
  | None, None => True
  | _, _ => False
  end.

Definition books (c : config) (l : gmap nat S) : Prop := forall tid, agrees (pool c !! tid) (l !! tid).

(** What a step of the goroutine [tid] with the account [s] does to state and ledger. *)
Inductive entry (w w' : W) (tid : nat) (s : S) (l : gmap nat S) : gmap nat S -> Prop :=
| entry_next t : w' = w -> settled (Some t) s -> entry w w' tid s l (<[tid := start t]> l)
| entry_exit : w' = w -> settled None s -> entry w w' tid s l (delete tid l)
| entry_move s' : moves s w s' w' -> entry w w' tid s l (<[tid := s']> l)
| entry_ask : w' = w -> entry w w' tid s l l
| entry_acquire k m : w' = w -> entry w w' tid s l (<[tid := acquired k m s]> l)
| entry_release k m : w' = w -> entry w w' tid s l (<[tid := released k m s]> l)
| entry_go t s' tid' : w' = w -> hands t s s' -> l !! tid' = None ->
    entry w w' tid s l (<[tid' := start t]> (<[tid := s']> l)).

Lemma books_insert w w' ts (l : gmap nat S) tid th s :
  books (Config w ts) l -> accounts (code th) settled s -> fits (locks th) s ->
  books (Config w' (<[tid := th]> ts)) (<[tid := s]> l).
Proof.
  intros Hb Ha Hf i. specialize (Hb i). simpl in *. rewrite !lookup_insert. by case_decide.
Qed.

Lemma books_step c e c' l :
  step event body c e c' -> books c l ->
  (forall tid s, l !! tid = Some s -> backed s (world_of c)) ->
  exists tid s l', l !! tid = Some s /\ books c' l' /\ entry (world_of c) (world_of c') tid s l l' /\
    forall tid' ev, e = Some (tid', ev) -> tid' = tid /\
      exists B (q : Q B) k b h, pool c !! tid = Some (Thread (Ask q k) h) /\ ev = event B q b /\ permits B q s.
Proof.
  intros Hs Hb Hk.
  assert (Hth : forall tid th, pool c !! tid = Some th ->
    exists s, l !! tid = Some s /\ accounts (code th) settled s /\ fits (locks th) s).
  { intros tid th Hth. specialize (Hb tid). rewrite Hth in Hb. destruct (l !! tid) as [s|]; [|done]. eauto. }
  destruct Hs as [tid t h w ts Ht|tid h w ts Ht|tid B f k h w ts b w' Ht Hf|tid B q k h w ts b Ht
    |tid k m p h w ts Ht Ha|tid k m p h w ts Ht Hl|tid t k h w ts tid' Ht Hn]; simpl in *;
    destruct (Hth _ _ Ht) as (s & Hl' & Hacc & Hfit); simpl in *; exists tid, s.
  - exists (<[tid := start t]> l). split; [done|]. split; [apply (books_insert w w); [done|apply body_accounts|apply fits_start]|].
    split; [by apply entry_next|done].
  - exists (delete tid l). split; [done|]. split; [|split; [by apply entry_exit|done]].
    intros i. specialize (Hb i). simpl in *. rewrite !lookup_delete. by case_decide.
  - destruct (Hacc w b w' (Hk _ _ Hl') Hf) as (s' & Hm & Hacc'). exists (<[tid := s']> l). split; [done|].
    split; [apply (books_insert w); [done|done|by eapply fits_moves]|]. split; [by apply entry_move|done].
  - exists l. destruct Hacc as [Hq Hacc]. split; [done|]. split; [|split; [by apply entry_ask|]].
    + intros i. specialize (Hb i). simpl in *. rewrite lookup_insert. case_decide as Hi; [|done]. subst i.
      rewrite Hl'; split; [apply Hacc|exact Hfit].
    + intros tid' ev [= <- <-]. split; [done|]. by eexists _, _, _, _, _.
  - exists (<[tid := acquired k m s]> l). split; [done|].
    split; [apply (books_insert w); [done|done|by apply fits_acquired]|]. split; [by apply entry_acquire|done].
  - exists (<[tid := released k m s]> l). split; [done|].
    split; [apply (books_insert w); [done|done|by apply fits_released]|]. split; [by apply entry_release|done].
  - destruct Hacc as (s' & Hh & Hacc'). assert (Hln : l !! tid' = None).
    { specialize (Hb tid'). simpl in Hb. rewrite Hn in Hb. by destruct (l !! tid'). }
    exists (<[tid' := start t]> (<[tid := s']> l)). split; [done|]. split; [|split; [by apply entry_go|done]].
    apply (books_insert w w); [|apply body_accounts|apply fits_start].
    apply (books_insert w); [done|done|by eapply fits_hands].
Qed.
End ledger.
