(* ===== verification/World.v ===== *)
(** * World: the data of the running proxy

    The structs of [pkg/proxy] and [pkg/session] as records, the state every
    goroutine shares, the questions goroutines put to the environment (system calls,
    the [server.Controller] and [proxy.BackendReadiness] interfaces, the scheduler's
    and the map iterator's choices), the locks, and the goroutines as tasks. *)
From S2P Require Import Prelude Errors Conc.

Open Scope string_scope.

(** ** Backend states ([server.State]) *)

Definition StateOffline : string := "offline".

Definition StateStarting : string := "starting".

Definition StateRunning : string := "running".

Definition StateStopping : string := "stopping".

(** ** Addresses *)

(** A [net.UDPAddr]; [addr_ip] is the text of its IP. *)
Record UDPAddr := mkUDPAddr {
  addr_ip : string;
  addr_port : Z }.

Fixpoint has_colon (s : string) : bool :=
  match s with
  | EmptyString => false
  | String c s => bool_decide (c = ":"%char) || has_colon s
  end.

(** [UDPAddr.String]: [net.JoinHostPort] of the IP and the port, brackets around an
    IP that contains a colon. *)
Definition addr_String (a : UDPAddr) : string :=
  (if has_colon (addr_ip a) then "[" ++ addr_ip a ++ "]" else addr_ip a)
  ++ ":" ++ pretty (addr_port a).

(** ** Sessions ([session.Session])

    The identity of a session, its pointer, is its key in the heap.  [closeOnce] is
    the state of a [sync.Once]; [upstreamClosed] records the close of the upstream
    socket, [ctxCancelled] the call of [cancel], [doneClosed] the close of the channel
    [done], and [goroutineWG] the counter of the wait group. *)

Inductive once := OnceNew | OnceRunning | OnceDone.

#[export] Instance once_eq_dec : EqDecision once.
Proof. solve_decision. Defined.

Record Session := mkSession {
  clientAddr : UDPAddr;
  maxPacket : Z;
  lastActivity : Z;
  closed : bool;
  closeOnce : once;
  ctxCancelled : bool;
  upstreamClosed : bool;
  doneClosed : bool;
  goroutineWG : Z }.

#[export] Instance Session_eta : Eta Session := fun s =>
  mkSession (clientAddr s) (maxPacket s) (lastActivity s) (closed s) (closeOnce s)
    (ctxCancelled s) (upstreamClosed s) (doneClosed s) (goroutineWG s).

(** [session.SessionOptions]; an absent address is a nil pointer. *)
Record SessionOptions := mkSessionOptions {
  so_ClientAddr : option UDPAddr;
  so_BackendAddr : option UDPAddr;
  so_PublicConn : bool;
  so_MaxPacketSize : Z }.

(** ** The proxy ([proxy.Options], [proxy.packetQueue], [proxy.Proxy])

    Interface-valued options are true when not nil; the detector is the function
    [DetectStart] of its packet. *)

Record Options := mkOptions {
  Listener : bool;
  BackendAddr : option UDPAddr;
  Controller : bool;
  Detector : option (bytes -> bool);
  Readiness : bool;
  MaxSessions : Z;
  MaxPacketSize : Z;
  IdleTimeout : Z;
  SweepInterval : Z;
  AutoStopDelay : Z;
  AutoStopRetryDelay : Z;
  StartupTimeout : Z;
  StartupPollInterval : Z;
  StartupSettleDelay : Z;
  StartupFailureCooldown : Z;
  StartupBufferPackets : Z;
  StartupBufferBytesPerSession : Z;
  StartupBufferBytesGlobal : Z }.

#[export] Instance Options_eta : Eta Options := fun o =>
  mkOptions (Listener o) (BackendAddr o) (Controller o) (Detector o) (Readiness o)
    (MaxSessions o) (MaxPacketSize o) (IdleTimeout o) (SweepInterval o) (AutoStopDelay o)
    (AutoStopRetryDelay o) (StartupTimeout o) (StartupPollInterval o) (StartupSettleDelay o)
    (StartupFailureCooldown o) (StartupBufferPackets o) (StartupBufferBytesPerSession o)
    (StartupBufferBytesGlobal o).

Record packetQueue := mkQueue {
  packets : list bytes;
  queue_bytes : Z;
  overflowLogged : bool }.

#[export] Instance packetQueue_eta : Eta packetQueue := fun q =>
  mkQueue (packets q) (queue_bytes q) (overflowLogged q).

Record backendHealthFailures := mkFailures {
  failures_generation : Z;
  failures_count : Z }.

(** A timer made by [time.AfterFunc]: armed until its deadline, fired, or stopped. *)
Inductive timer := TimerArmed (deadline : Z) | TimerFired | TimerDone | TimerStopped.

#[export] Instance timer_eq_dec : EqDecision timer.
Proof. solve_decision. Defined.

(** The struct [Proxy]; its [store] field is [sessions] of the world, [wg] and
    [timerWG] are wait-group counters and [readyClosed] the state of [ready]. *)
Record Proxy := mkProxy {
  options : Options;
  readyClosed : bool;
  backendReady : bool;
  readinessGeneration : Z;
  backendRunning : bool;
  startupRunning : bool;
  startupGeneration : Z;
  startupBlockedUntil : Z;
  shuttingDown : bool;
  queues : gmap nat packetQueue;
  queuedBytes : Z;
  stopTimer : option nat;
  stopGeneration : Z;
  lastCapacityWarning : Z;
  wg : Z;
  timerWG : Z }.

#[export] Instance Proxy_eta : Eta Proxy := fun p =>
  mkProxy (options p) (readyClosed p) (backendReady p) (readinessGeneration p)
    (backendRunning p) (startupRunning p) (startupGeneration p) (startupBlockedUntil p)
    (shuttingDown p) (queues p) (queuedBytes p) (stopTimer p) (stopGeneration p)
    (lastCapacityWarning p) (wg p) (timerWG p).

(** ** The shared state

    [clock] is what [time.Now] reads.  [parentCancelled] is the context given to
    [Serve], [serveCancelled] the call of the cancel function of the context [Serve]
    derives from it and stores as [proxy.ctx]; [serveResult] is what [Serve] returned.
    [storeMax] and [sessions] are the
    struct [session.Store]; the heaps of sessions and timers only grow. *)

Record world := mkWorld {
  clock : Z;
  parentCancelled : bool;
  serveCancelled : bool;
  listenerClosed : bool;
  serveResult : option (option error);
  heap : gmap nat Session;
  nextSession : nat;
  storeMax : Z;
  sessions : gmap string nat;
  timers : gmap nat timer;
  nextTimer : nat;
  px : Proxy }.

#[export] Instance world_eta : Eta world := fun w =>
  mkWorld (clock w) (parentCancelled w) (serveCancelled w) (listenerClosed w)
    (serveResult w) (heap w) (nextSession w) (storeMax w) (sessions w) (timers w) (nextTimer w) (px w).

(** [proxy.ctx.Err()]: the only way this context ends is a cancellation. *)
Definition ctx_Err (w : world) : option error :=
  if parentCancelled w || serveCancelled w then Some (ErrSentinel Canceled) else None.

Definition upd_px (f : Proxy -> Proxy) (w : world) : world := w <| px := f (px w) |>.

Definition upd_session (sid : nat) (f : Session -> Session) (w : world) : world :=
  w <| heap := alter f sid (heap w) |>.

(** ** Questions to the environment *)

(** What [ReadMsgUDP] on the public socket returns: a datagram and its source, or an error. *)
Inductive received :=
| Datagram (from : UDPAddr) (payload : bytes)
| ReceiveError (err : error).

(** The winner of a [select] between a context and a ticker or timer. *)
Inductive select_ctx :=
| CtxDone (err : error)
| Ticked (now : Z).

Inductive query : Type -> Type :=
| QStatus : query (string * option error)            (* Controller.Status *)
| QStart : query (option error)                      (* Controller.Start *)
| QStop : query (option error)                       (* Controller.Stop *)
| QWaitReady : query (option error)                  (* Readiness.WaitReady *)
| QProbe : query (option error)                      (* Readiness.Probe *)
| QDial : query (option error)                       (* net.DialUDP to the backend *)
| QWrite (sid : nat) (data : bytes) : query (option error)           (* upstream.Write *)
| QReadBackend (sid : nat) : query (bytes * option error)            (* upstream.ReadMsgUDP *)
| QWriteClient (sid : nat) (data : bytes) : query (option error)     (* publicConn.WriteToUDP *)
| QReceive : query received                          (* Listener.ReadMsgUDP *)
| QSelect : query select_ctx                         (* select on a context and a ticker *)
| QEither : query bool                               (* select with both branches ready *)
| QOrder (ids : list nat) : query (list nat)         (* iteration order of a map of sessions *)
| QKeyOrder (keys : list string) : query (list string)  (* iteration order of the store *)
| QElapse : query Z.                                 (* the passing of time *)

Inductive event :=
| EvStatus (state : string) (err : option error)
| EvStart (err : option error)
| EvStop (err : option error)
| EvWaitReady (err : option error)
| EvProbe (err : option error)
| EvDial (err : option error)
| EvWrite (sid : nat) (data : bytes) (err : option error)
| EvReadBackend (sid : nat) (data : bytes) (err : option error)
| EvWriteClient (sid : nat) (data : bytes) (err : option error)
| EvReceive (r : received)
| EvKeyOrder (keys : list string)
| EvChoice
| EvElapse.

Definition event_of (B : Type) (q : query B) : B -> event :=
  match q in query B return B -> event with
  | QStatus => fun r => EvStatus (fst r) (snd r)
  | QStart => EvStart
  | QStop => EvStop
  | QWaitReady => EvWaitReady
  | QProbe => EvProbe
  | QDial => EvDial
  | QWrite sid data => EvWrite sid data
  | QReadBackend sid => fun r => EvReadBackend sid (fst r) (snd r)
  | QWriteClient sid data => EvWriteClient sid data
  | QReceive => EvReceive
  | QKeyOrder keys => fun _ => EvKeyOrder keys
  | QSelect | QEither | QOrder _ => fun _ => EvChoice
  | QElapse => fun _ => EvElapse
  end.

(** The environment may name any order in which Go ranges over a map; an answer that
    is not a permutation of the keys stands for the default order. *)
Definition range_order {K} `{EqDecision K} (keys answer : list K) : list K :=
  if decide (answer ≡ₚ keys) then answer else keys.

Lemma range_order_perm {K} `{EqDecision K} (keys answer : list K) :
  range_order keys answer ≡ₚ keys.
Proof. unfold range_order. by case_decide. Qed.

(** ** Locks and goroutines *)

(** [admissionMu], [forwardingMu], [mu] of the proxy and [mu] of the store. *)
Inductive lockid := AdmissionMu | ForwardingMu | Mu | StoreMu.

#[export] Instance lockid_eq_dec : EqDecision lockid.
Proof. solve_decision. Defined.

#[export] Instance lockid_countable : Countable lockid.
Proof.
  refine (inj_countable'
    (fun l => match l with AdmissionMu => 0 | ForwardingMu => 1 | Mu => 2 | StoreMu => 3 end%nat)
    (fun n => match n with 0 => AdmissionMu | 1 => ForwardingMu | 2 => Mu | _ => StoreMu end%nat) _).
  by intros [].
Defined.

(** The goroutines: [Serve] and its loop, the goroutines it starts, the two of each
    session, the startup goroutine, the armed auto-stop timers, and two that stand
    for the environment (time and the termination signal). *)
Inductive task :=
| TServe
| TServeLoop
| TListenerCloser
| TSweeper
| TMonitor (failures : backendHealthFailures)
| TStartup (generation : Z) (startSent : bool)
| TWatch (key : string) (sid : nat)
| TReadBackend (sid : nat)
| TWatchContext (sid : nat)
| TAutoStop (id : nat) (generation : Z) (attempt : Z)
| TClock
| TSignal.

Abbreviation proc := (prog world query lockid task).

Open Scope prog_scope.
