(* ===== verification/Sequential.v ===== *)
(** * Sequential: programs of one goroutine without shared state

    The probes and the HTTP client are such programs: they only put questions to their
    environment.  Loops run for a given number of rounds.  A weakest
    precondition says what a run does whatever the environment answers. *)
From S2P Require Import Prelude Conc.

Open Scope prog_scope.

Section sequential.
Context {Q : Type -> Type} {Ev : Type} (event : forall B, Q B -> B -> Ev).

Abbreviation seq_prog := (prog unit Q Empty_set Empty_set).

(** [for { body }] for at most [fuel] rounds; [None] when the loop is not over by then. *)
Fixpoint loop_rounds {A B} (fuel : nat) (body : A -> seq_prog (loop A B)) (a : A) : seq_prog (option B) :=
  match fuel with
  | O => Ret None
  | S fuel =>
      r <- body a;;
      match r with
      | Again a => loop_rounds fuel body a
      | Return b => Ret (Some b)
      end
  end.

Context (oracle : forall B, list Ev -> Q B -> B).

(** The run of [p] behind the events [lg] ends, in a result and a log that satisfy [R]. *)
Definition wp {A} (p : seq_prog A) (lg : list Ev) (R : A -> list Ev -> Prop) : Prop :=
  match run event oracle p tt lg [] with
  | Some o => R (result o) (log o)
  | None => False
  end.

Lemma no_tasks (l : list Empty_set) : l = [].
Proof. by destruct l as [|[]]. Qed.

Lemma seq_ret {A} (a : A) lg (R : A -> list Ev -> Prop) : R a lg -> wp (Ret a) lg R.
Proof. done. Qed.

Lemma seq_bind {A B} (p : seq_prog A) (k : A -> seq_prog B) lg R :
  wp p lg (fun a lg' => wp (k a) lg' R) -> wp (bind p k) lg R.
Proof.
  unfold wp. rewrite run_bind. destruct (run _ _ p _ _ _) as [[a [] lg' sp]|]; [|done].
  simpl. by rewrite (no_tasks sp).
Qed.

(** A question: any answer, which the log keeps. *)
Lemma seq_ask {B} (q : Q B) lg (R : B -> list Ev -> Prop) :
  R (oracle B lg q) (lg ++ [event B q (oracle B lg q)]) -> wp (ask q) lg R.
Proof. done. Qed.

Lemma seq_mono {A} (p : seq_prog A) lg (R R' : A -> list Ev -> Prop) :
  wp p lg R -> (forall a lg', R a lg' -> R' a lg') -> wp p lg R'.
Proof. unfold wp. destruct (run _ _ p _ _ _); [auto|done]. Qed.

Lemma seq_and {A} (p : seq_prog A) lg (R R' : A -> list Ev -> Prop) :
  wp p lg R -> wp p lg R' -> wp p lg (fun a lg' => R a lg' /\ R' a lg').
Proof. unfold wp. by destruct (run _ _ p _ _ _). Qed.

(** A loop keeps its invariant [P] until a round returns with [R]. *)
Lemma seq_loop {A B} (body : A -> seq_prog (loop A B)) (P : A -> list Ev -> Prop) (R : B -> list Ev -> Prop) :
  (forall a lg, P a lg ->
     wp (body a) lg (fun r lg' => match r with Again a' => P a' lg' | Return b => R b lg' end)) ->
  forall fuel a lg, P a lg ->
  wp (loop_rounds fuel body a) lg
     (fun r lg' => match r with None => exists a', P a' lg' | Some b => R b lg' end).
Proof.
  intros Hb fuel. induction fuel as [|fuel IH]; intros a lg HP; simpl; [apply seq_ret; eauto|].
  apply seq_bind. eapply seq_mono; [by apply Hb|]. intros [a'|b] lg' H; [by apply IH|by apply seq_ret].
Qed.

(** A loop every round of which logs an event, and none of which goes on behind [k] events,
    is over within [k] rounds. *)
Lemma seq_loop_ends {A B} (body : A -> seq_prog (loop A B)) (k : nat) :
  (forall a lg, wp (body a) lg (fun r lg' =>
     (length lg < length lg')%nat /\ match r with Again _ => (length lg < k)%nat | Return _ => True end)) ->
  forall fuel a lg, (k < length lg + fuel)%nat ->
  wp (loop_rounds fuel body a) lg (fun r _ => r <> None \/ fuel = O).
Proof.
  intros Hb fuel. induction fuel as [|fuel IH]; intros a lg Hk; simpl; [apply seq_ret; auto|].
  apply seq_bind. eapply seq_mono; [by apply Hb|]. intros [a'|b] lg' [Hl H].
  - eapply seq_mono; [apply IH; lia|]. intros r lg2 [?| ->]; [auto|lia].
  - apply seq_ret. auto.
Qed.
End sequential.

(** Run one step of a program: binds are opened, every answer is generalised, and [event_cbn]
    evaluates the event of a question. *)
Ltac wp_step_with event_cbn :=
  match goal with
  | |- wp _ _ (bind _ _) _ _ => apply seq_bind
  | |- wp _ _ (ask _) _ _ => apply seq_ask; event_cbn
  | |- wp _ _ (Ret _) _ _ => apply seq_ret
  | |- wp _ ?o (match ?o' ?B ?lg ?q with _ => _ end) _ _ => destruct (o' B lg q) eqn:?
  | |- wp _ _ (match ?x with _ => _ end) _ _ => destruct x eqn:?
  end.
