(* ===== verification/Session.v ===== *)
(** * Session: one client flow ([pkg/session/session.go])

    A session owns the upstream socket of one client.  Its state is a record in the
    heap; the sections under [activityMu] are single accesses to it, [closeOnce] is
    a [sync.Once], and [readBackend] and [watchContext] are its two goroutines. *)
From S2P Require Import Prelude Errors Conc World.

(** ** The sections under [activityMu], as functions of the record *)

(** [touch]: record activity unless the session is closed. *)
Definition touch_session (now : Z) (s : Session) : bool * Session :=
  if closed s then (false, s) else (true, s <| lastActivity := UnixNano now |>).

Definition LastActivity (s : Session) : Z := fromUnixNano (lastActivity s).

(** The locked half of [TryExpire]: mark an idle session closed. *)
Definition expire_session (cutoff : Z) (s : Session) : bool * Session :=
  if closed s || negb (Before (LastActivity s) cutoff) then (false, s)
  else (true, s <| closed := true |>).

(** Apply [f] to the session [sid] points to. *)
Definition on_session {B} (nil : B) (sid : nat) (f : Session -> B * Session) (w : world)
    : B * world :=
  match heap w !! sid with
  | Some s => let '(b, s') := f s in (b, w <| heap := <[sid := s']> (heap w) |>)
  | None => (nil, w)
  end.

(** ** Operations *)

Definition touch (sid : nat) : proc bool :=
  atomic (fun w => on_session false sid (touch_session (clock w)) w).

Definition RecordActivity (sid : nat) : proc (option error) :=
  ok <- touch sid;;
  Ret (if ok then None else Some (ErrSentinel ErrSessionClosed)).

(** [closeOnce.Do(f)]: the first caller runs [f], later callers wait until it is done. *)
Definition closeOnce_Do (sid : nat) (f : proc unit) : proc unit :=
  first <- Atomic (fun w =>
    match heap w !! sid with
    | Some s =>
        match closeOnce s with
        | OnceNew => Some (true, upd_session sid (fun s => s <| closeOnce := OnceRunning |>) w)
        | OnceRunning => None
        | OnceDone => Some (false, w)
        end
    | None => Some (false, w)
    end) Ret;;
  if first : bool
  then f;;; modify (upd_session sid (fun s => s <| closeOnce := OnceDone |>))
  else Ret tt.

Definition closeSocket (sid : nat) : proc unit :=
  modify (upd_session sid (fun s => s <| ctxCancelled := true |>));;;
  modify (upd_session sid (fun s => s <| upstreamClosed := true |>)).

Definition closeResources (sid : nat) : proc unit :=
  closeOnce_Do sid
    (modify (upd_session sid (fun s => s <| closed := true |>));;;
     closeSocket sid).

Definition ForwardClient (sid : nat) (data : bytes) : proc (option error) :=
  activity <- RecordActivity sid;;
  match activity with
  | Some err => Ret (Some err)
  | None =>
      written <- ask (QWrite sid data);;
      match written with
      | None => Ret None
      | Some err =>
          isClosed <- gets (fun w => match heap w !! sid with Some s => closed s | None => true end);;
          if isClosed : bool then Ret (Some (ErrSentinel ErrSessionClosed))
          else closeResources sid;;; Ret (Some (ErrWrap "forward client packet" err))
      end
  end.

Definition TryExpire (sid : nat) (cutoff : Z) : proc bool :=
  expired <- atomic (on_session false sid (expire_session cutoff));;
  if expired : bool then closeOnce_Do sid (closeSocket sid);;; Ret true else Ret false.

(** [Close] waits for the session's two goroutines and always returns nil. *)
Definition Close (sid : nat) : proc (option error) :=
  closeResources sid;;;
  await (fun w => match heap w !! sid with Some s => bool_decide (goroutineWG s = 0) | None => true end);;;
  Ret None.

(** The allocation of the struct by [NewSession]. *)
Definition alloc_session (addr : UDPAddr) (maxPacketSize : Z) (w : world) : nat * world :=
  let sid := nextSession w in
  (sid, w <| heap := <[sid := mkSession addr maxPacketSize 0 false OnceNew false false false 0]> (heap w) |>
          <| nextSession := S sid |>).

Definition add_goroutines (n : Z) (s : Session) : Session :=
  s <| goroutineWG := goroutineWG s + n |>.

Definition NewSession (options : SessionOptions) : proc (option nat * option error) :=
  match so_ClientAddr options, so_BackendAddr options, so_PublicConn options with
  | Some client, Some _, true =>
      if bool_decide (so_MaxPacketSize options < 1)
      then Ret (None, Some (ErrText "max packet size must be positive"))
      else
        dialed <- ask QDial;;
        match dialed with
        | Some err => Ret (None, Some (ErrWrap "connect backend UDP socket" err))
        | None =>
            sid <- atomic (alloc_session client (so_MaxPacketSize options));;
            touch sid;;;
            modify (upd_session sid (add_goroutines 2));;;
            go (TReadBackend sid);;;
            go (TWatchContext sid);;;
            Ret (Some sid, None)
        end
  | _, _, _ => Ret (None, Some (ErrText "client, backend, and public UDP addresses are required"))
  end.

(** ** The goroutines *)

(** [ReadMsgUDP] into a buffer of [size] bytes: the bytes read and the flag [MSG_TRUNC]. *)
Definition recv_msg (size : Z) (payload : bytes) : bytes * bool :=
  (take (Z.to_nat size) payload, bool_decide (size < len payload)).

(** The deferred calls of [readBackend], last deferred first. *)
Definition readBackend_exit (sid : nat) : proc unit :=
  closeResources sid;;;
  modify (upd_session sid (fun s => s <| doneClosed := true |>));;;
  modify (upd_session sid (add_goroutines (-1))).

(** One iteration of the loop of [readBackend]; true to go round again. *)
Definition readBackend (sid : nat) : proc bool :=
  maxp <- gets (fun w => match heap w !! sid with Some s => maxPacket s | None => 0 end);;
  '(payload, err) <- ask (QReadBackend sid);;
  match err with
  | Some _ => readBackend_exit sid;;; Ret false
  | None =>
      let '(data, truncated) := recv_msg maxp payload in
      if bool_decide (len data = 0) || truncated then Ret true
      else
        alive <- touch sid;;
        if negb alive then readBackend_exit sid;;; Ret false
        else
          sent <- ask (QWriteClient sid data);;
          match sent with
          | Some _ => readBackend_exit sid;;; Ret false
          | None => Ret true
          end
  end.

(** The [select] of [watchContext]: which of the two channels are ready. *)
Definition watchContext_ready (sid : nat) (w : world) : option ((bool * bool) * world) :=
  match heap w !! sid with
  | Some s =>
      let cancelled := ctxCancelled s || parentCancelled w || serveCancelled w in
      if cancelled || doneClosed s then Some ((cancelled, doneClosed s), w) else None
  | None => None
  end.

Definition watchContext (sid : nat) : proc unit :=
  '(cancelled, isDone) <- Atomic (watchContext_ready sid) Ret;;
  cancelFirst <- (if cancelled && isDone then ask QEither else Ret cancelled);;
  (if cancelFirst : bool then closeResources sid else Ret tt);;;
  modify (upd_session sid (add_goroutines (-1))).
