(* ===== verification/Store.v ===== *)
(** * Store: the session table ([pkg/session/store.go])

    [sessions] of the world is the map of [Store] from client keys to sessions and
    [storeMax] its capacity; every method runs under the store's [RWMutex]. *)
From S2P Require Import Prelude Errors Conc World Session.

(** [NewStore]: the capacity, or an error. *)
Definition NewStore (max : Z) : error + Z :=
  if bool_decide (max < 1) then inl (ErrText "session capacity must be positive") else inr max.

Definition store_len (w : world) : Z := Z.of_nat (size (sessions w)).

Definition set_session (key : string) (sid : nat) (w : world) : world :=
  w <| sessions := <[key := sid]> (sessions w) |>.

Definition delete_session (key : string) (w : world) : world :=
  w <| sessions := delete key (sessions w) |>.

Definition GetOrCreate (key : string) (create : proc (option nat * option error))
    : proc (option nat * bool * Z * option error) :=
  lock StoreMu;;;
  existing <- gets (fun w => sessions w !! key);;
  count <- gets store_len;;
  max <- gets storeMax;;
  result <-
    match existing with
    | Some sid => Ret (Some sid, false, count, None)
    | None =>
        if bool_decide (max <= count)
        then Ret (None, false, count, Some (ErrSentinel ErrSessionCapacity))
        else
          '(created, err) <- create;;
          match err, created with
          | Some err, _ => Ret (None, false, count, Some err)
          | None, None => Ret (None, false, count, Some (ErrText "session factory returned nil"))
          | None, Some sid =>
              modify (set_session key sid);;;
              count' <- gets store_len;;
              Ret (Some sid, true, count', None)
          end
    end;;
  unlock StoreMu;;;
  Ret result.

Definition Get (key : string) : proc (option nat) := rcritical StoreMu (fun w => sessions w !! key).

Definition Len : proc Z := rcritical StoreMu store_len.

(** The section of [Remove] under the lock: whether it removed the entry, and the count. *)
Definition remove_session (key : string) (expected : nat) (w : world) : (bool * Z) * world :=
  if bool_decide (sessions w !! key = Some expected)
  then let w' := delete_session key w in ((true, store_len w'), w')
  else ((false, store_len w), w).

Definition Remove (key : string) (expected : nat) : proc (bool * Z * option error) :=
  '(removed, count) <- critical StoreMu (remove_session key expected);;
  if removed : bool
  then err <- Close expected;; Ret (true, count, err)
  else Ret (false, count, None).

(** [errors.Join] of two errors that may be nil. *)
Definition errors_Join (e1 e2 : option error) : option error :=
  match e1, e2 with
  | Some e1, Some e2 => Some (ErrJoin e1 e2)
  | Some e, None | None, Some e => Some e
  | None, None => None
  end.

Fixpoint close_each (toClose : list nat) (result : option error) : proc (option error) :=
  match toClose with
  | [] => Ret result
  | sid :: rest => err <- Close sid;; close_each rest (errors_Join result err)
  end.

(** The range loop of [ExpireIdle] over the keys still to visit. *)
Fixpoint expire_each (cutoff : Z) (keys : list string) (toClose : list nat) : proc (list nat) :=
  match keys with
  | [] => Ret toClose
  | key :: keys =>
      value <- gets (fun w => sessions w !! key);;
      match value with
      | None => expire_each cutoff keys toClose
      | Some sid =>
          expired <- TryExpire sid cutoff;;
          if expired : bool
          then modify (delete_session key);;; expire_each cutoff keys (toClose ++ [sid])
          else expire_each cutoff keys toClose
      end
  end.

Definition session_keys (w : world) : list string := (map_to_list (sessions w)).*1.

Definition ExpireIdle (cutoff : Z) : proc (Z * Z * option error) :=
  lock StoreMu;;;
  keys <- gets session_keys;;
  answer <- ask (QKeyOrder keys);;
  toClose <- expire_each cutoff (range_order keys answer) [];;
  count <- gets store_len;;
  unlock StoreMu;;;
  result <- close_each toClose None;;
  Ret (len toClose, count, result).

(** The section of [CloseAll] under the lock: every entry leaves the table. *)
Definition take_sessions (answer : list string) (w : world) : list nat * world :=
  let keys := range_order (session_keys w) answer in
  (omap (fun key => sessions w !! key) keys, w <| sessions := ∅ |>).

Definition CloseAll : proc (option error) :=
  lock StoreMu;;;
  keys <- gets session_keys;;
  answer <- ask (QKeyOrder keys);;
  toClose <- atomic (take_sessions answer);;
  unlock StoreMu;;;
  close_each toClose None.
