(* ===== verification/Proxy.v ===== *)
(** * Proxy: admission, startup, forwarding, expiry and auto-stop ([pkg/proxy/proxy.go])

    Every method of [Proxy] is a program over the world; a section of code under
    [mu] that only touches the state is one access inside the lock.  [body] gives
    the code of every goroutine. *)
From S2P Require Import Prelude Errors Conc World Session Store.

Open Scope string_scope.

Definition maxAutoStopAttempts : Z := 3.

Definition defaultAutoStopRetryDelay : Z := 5 * Second.

Definition defaultStartupFailureCooldown : Z := 5 * Second.

Definition backendHealthFailureThreshold : Z := 3.

(** ** Consecutive health failures *)

Definition failures_reset : backendHealthFailures := mkFailures 0 0.

Definition failures_record (generation : Z) (f : backendHealthFailures)
    : Z * backendHealthFailures :=
  let f := if bool_decide (failures_generation f = generation) then f
           else mkFailures generation 0 in
  let f := mkFailures (failures_generation f) (int64 (failures_count f + 1)) in
  (failures_count f, f).

(** ** Construction *)

(** The defaults [New] fills in. *)
Definition default_options (o : Options) : Options :=
  let o :=
    if bool_decide (SweepInterval o <= 0) then
      let half := Z.quot (IdleTimeout o) 2 in
      let half := if bool_decide (half <= 0) then Nanosecond else half in
      let half := if bool_decide (5 * Second < half) then 5 * Second else half in
      o <| SweepInterval := half |>
    else o in
  let o :=
    if bool_decide (AutoStopRetryDelay o = 0)
    then o <| AutoStopRetryDelay := defaultAutoStopRetryDelay |> else o in
  if bool_decide (StartupFailureCooldown o = 0)
  then o <| StartupFailureCooldown := defaultStartupFailureCooldown |> else o.

Definition initial_proxy (o : Options) : Proxy :=
  mkProxy o false false 0 false false 0 zeroTime false ∅ 0 None 0 zeroTime 0 0.

(** [New]: the proxy and the capacity of its store, or an error. *)
Definition New (o : Options) : error + (Proxy * Z) :=
  if negb (Listener o) || bool_decide (BackendAddr o = None) || negb (Controller o)
     || negb (match Detector o with Some _ => true | None => false end)
  then inl (ErrText "listener, backend, controller, and detector are required")
  else
    let o := default_options o in
    if bool_decide (MaxPacketSize o < 1) || bool_decide (IdleTimeout o <= 0)
       || bool_decide (AutoStopDelay o <= 0) || bool_decide (AutoStopRetryDelay o < 0)
       || bool_decide (StartupFailureCooldown o < 0)
    then inl (ErrText "packet and lifecycle limits must be positive")
    else if bool_decide (StartupTimeout o <= 0) || bool_decide (StartupPollInterval o <= 0)
       || bool_decide (StartupTimeout o <= StartupPollInterval o)
       || bool_decide (StartupSettleDelay o < 0)
    then inl (ErrText "invalid startup timing")
    else if bool_decide (StartupBufferPackets o < 1)
       || bool_decide (StartupBufferBytesPerSession o < MaxPacketSize o)
       || bool_decide (StartupBufferBytesGlobal o < StartupBufferBytesPerSession o)
    then inl (ErrText "startup buffers must hold at least one maximum-size packet per session")
    else
      match NewStore (MaxSessions o) with
      | inl err => inl err
      | inr max => inr (initial_proxy o, max)
      end.

(** The state in which [Serve] is called. *)
Definition initial_world (now : Z) (p : Proxy) (max : Z) : world :=
  mkWorld now false false false None ∅ 0 max ∅ ∅ 0 p.

(** ** Queues *)

Definition emptyQueue : packetQueue := mkQueue [] 0 false.

(** [removeQueue] under [mu]. *)
Definition remove_queue (active : nat) (p : Proxy) : Proxy :=
  match queues p !! active with
  | Some queue =>
      p <| queues := delete active (queues p) |>
        <| queuedBytes := int64 (queuedBytes p - queue_bytes queue) |>
  | None => p
  end.

Definition removeQueue (active : nat) : proc unit :=
  critical Mu (fun w => (tt, upd_px (remove_queue active) w)).

Definition enqueueLocked (active : nat) (packet : bytes) (p : Proxy) : Proxy :=
  let o := options p in
  let queue := match queues p !! active with Some q => q | None => emptyQueue end in
  if bool_decide (StartupBufferPackets o <= len (packets queue))
     || bool_decide (StartupBufferBytesPerSession o < int64 (queue_bytes queue + len packet))
     || bool_decide (StartupBufferBytesGlobal o < int64 (queuedBytes p + len packet))
  then p <| queues := <[active := queue <| overflowLogged := true |>]> (queues p) |>
  else
    p <| queues := <[active := queue <| packets := (packets queue ++ [packet])%list |>
                                     <| queue_bytes := int64 (queue_bytes queue + len packet) |>]>
                   (queues p) |>
      <| queuedBytes := int64 (queuedBytes p + len packet) |>.

(** [queues = make(map...); queuedBytes = 0]. *)
Definition clear_queues (p : Proxy) : Proxy := p <| queues := ∅ |> <| queuedBytes := 0 |>.

(** [removeClosedQueues] under [mu]: the order of the range loop does not matter. *)
Definition queue_is_closed (h : gmap nat Session) (active : nat) : bool :=
  match h !! active with Some s => doneClosed s | None => false end.

Definition remove_closed_queues (h : gmap nat Session) (p : Proxy) : Proxy :=
  let gone := filter (fun x => queue_is_closed h (fst x) = true) (queues p) in
  p <| queues := filter (fun x => queue_is_closed h (fst x) = false) (queues p) |>
    <| queuedBytes := int64 (queuedBytes p - map_sum queue_bytes gone) |>.

Definition removeClosedQueues : proc unit :=
  critical Mu (fun w => (tt, upd_px (remove_closed_queues (heap w)) w)).

(** ** Auto-stop timers *)

(** [stopAutoStopTimerLocked]: [Timer.Stop] reports true for an armed timer only. *)
Definition stopAutoStopTimerLocked (w : world) : world :=
  match stopTimer (px w) with
  | None => w
  | Some id =>
      let w :=
        match timers w !! id with
        | Some (TimerArmed _) =>
            upd_px (fun p => p <| timerWG := timerWG p - 1 |>)
              (w <| timers := <[id := TimerStopped]> (timers w) |>)
        | _ => w
        end in
      upd_px (fun p => p <| stopTimer := None |>) w
  end.

(** [timerWG.Add(1)] and [time.AfterFunc]. *)
Definition arm_timer (delay : Z) (w : world) : nat * world :=
  let id := nextTimer w in
  (id, upd_px (fun p => p <| timerWG := timerWG p + 1 |> <| stopTimer := Some id |>)
         (w <| timers := <[id := TimerArmed (clock w + Z.max 0 delay)]> (timers w) |>
            <| nextTimer := S id |>)).

Definition scheduleAutoStopAttemptLocked (generation attempt delay : Z) : proc unit :=
  id <- atomic (arm_timer delay);;
  go (TAutoStop id generation attempt).

Definition bump_stop_generation (w : world) : world :=
  upd_px (fun p => p <| stopGeneration := uint64 (stopGeneration p + 1) |>) w.

Definition cancelAutoStop : proc unit :=
  critical Mu (fun w => (tt, stopAutoStopTimerLocked (bump_stop_generation w))).

(** The start of [scheduleAutoStop] under [mu]: the generation to schedule, if any. *)
Definition schedule_generation (w : world) : option Z * world :=
  if shuttingDown (px w) || negb (backendReady (px w)) then (None, w)
  else
    let w := bump_stop_generation w in
    (Some (stopGeneration (px w)), stopAutoStopTimerLocked w).

Definition scheduleAutoStop : proc unit :=
  lock Mu;;;
  scheduled <- atomic schedule_generation;;
  delay <- gets (fun w => AutoStopDelay (options (px w)));;
  (match scheduled with
   | None => Ret tt
   | Some generation => scheduleAutoStopAttemptLocked generation 1 delay
   end);;;
  unlock Mu.

(** ** Startup *)

(** The decision of [startServer] under [mu]: the generation of the new attempt, if any. *)
Definition begin_startup (w : world) : option Z * world :=
  let p := px w in
  if shuttingDown p || backendReady p || startupRunning p
     || Before (clock w) (startupBlockedUntil p)
  then (None, w)
  else
    let generation := uint64 (startupGeneration p + 1) in
    (Some generation,
     upd_px (fun p => p <| startupRunning := true |> <| startupGeneration := generation |>) w).

Definition add_wg (n : Z) : proc unit := modify (upd_px (fun p => p <| wg := wg p + n |>)).

Definition startServer : proc unit :=
  started <- critical Mu begin_startup;;
  match started with
  | None => Ret tt
  | Some generation => add_wg 1;;; go (TStartup generation false)
  end.

(** [completeStartup] under [mu]: end the attempt; true when another one is due. *)
Definition complete_startup (generation : Z) (w : world) : bool * world :=
  let p := px w in
  if bool_decide (startupGeneration p <> generation) then (false, w)
  else
    let w := upd_px (fun p => p <| startupRunning := false |>) w in
    (negb (shuttingDown p) && negb (backendReady p) && bool_decide (0 < Z.of_nat (size (queues p)))
       && negb (Before (clock w) (startupBlockedUntil p)), w).

Definition completeStartup (generation : Z) : proc bool := critical Mu (complete_startup generation).

Definition finishStartup (generation : Z) : proc unit :=
  again <- completeStartup generation;;
  if again : bool then startServer else Ret tt.

(** The section of [failStartup] under [mu]. *)
Definition fail_startup (generation : Z) (permanent : bool) (w : world) : world :=
  let w := upd_px clear_queues w in
  if bool_decide (startupGeneration (px w) = generation) then
    let w := upd_px (fun p => p <| startupRunning := false |> <| backendRunning := false |>) w in
    if permanent
    then upd_px (fun p => p <| startupBlockedUntil :=
                            Add (clock w) (StartupFailureCooldown (options p)) |>) w
    else w
  else w.

Definition failStartup (generation : Z) (permanent : bool) : proc unit :=
  lock AdmissionMu;;;
  lock ForwardingMu;;;
  critical Mu (fun w => (tt, fail_startup generation permanent w));;;
  CloseAll;;;
  unlock ForwardingMu;;;
  unlock AdmissionMu.

Definition mark_not_running (p : Proxy) : Proxy :=
  let p := p <| backendRunning := false |> in
  if backendReady p
  then p <| backendReady := false |>
         <| readinessGeneration := uint64 (readinessGeneration p + 1) |>
  else p.

Definition markBackendNotRunning : proc unit :=
  lock ForwardingMu;;;
  critical Mu (fun w => (tt, upd_px mark_not_running w));;;
  unlock ForwardingMu.

(** The inner loop of the flush: forward packets until one fails. *)
Fixpoint flush_packets (active : nat) (ps : list bytes) : proc unit :=
  match ps with
  | [] => Ret tt
  | packet :: ps =>
      err <- ForwardClient active packet;;
      match err with Some _ => Ret tt | None => flush_packets active ps end
  end.

Fixpoint flush_queues (order : list nat) : proc unit :=
  match order with
  | [] => Ret tt
  | active :: order =>
      queue <- gets (fun w => queues (px w) !! active);;
      flush_packets active (match queue with Some q => packets q | None => [] end);;;
      flush_queues order
  end.

Definition queue_keys (w : world) : list nat := (map_to_list (queues (px w))).*1.

(** The last section of the flush under [mu]: the gate opens. *)
Definition open_gate (p : Proxy) : Proxy :=
  let p := clear_queues p in
  if backendReady p then p
  else p <| backendReady := true |>
         <| readinessGeneration := uint64 (readinessGeneration p + 1) |>.

Definition openStartupGate : proc unit :=
  lock AdmissionMu;;;
  lock ForwardingMu;;;
  lock Mu;;;
  down <- gets (fun w => shuttingDown (px w));;
  (if down : bool then unlock Mu
   else
     modify (upd_px (fun p => p <| backendRunning := true |>));;;
     ids <- gets queue_keys;;
     answer <- ask (QOrder ids);;
     flush_queues (range_order ids answer);;;
     modify (upd_px open_gate);;;
     unlock Mu;;;
     activeSessions <- Len;;
     (if bool_decide (activeSessions = 0) then scheduleAutoStop else Ret tt));;;
  unlock ForwardingMu;;;
  unlock AdmissionMu.

(** The branch of [ensureRunning] for a running backend. *)
Definition startup_running : proc (option error) :=
  critical Mu (fun w => (tt, upd_px (fun p => p <| backendRunning := true |>) w));;;
  o <- gets (fun w => options (px w));;
  waited <- (if Readiness o then ask QWaitReady else Ret None);;
  match waited with
  | Some err => Ret (Some (ErrWrap "wait for Palworld application readiness" err))
  | None =>
      settled <- (if bool_decide (0 < StartupSettleDelay o)
                  then r <- ask QSelect;; Ret (match r with CtxDone err => Some err | Ticked _ => None end)
                  else Ret None);;
      match settled with
      | Some err => Ret (Some err)
      | None =>
          probed <- (if Readiness o then ask QProbe else Ret None);;
          match probed with
          | Some err => Ret (Some (ErrWrap "recheck Palworld application readiness after settle" err))
          | None => openStartupGate;;; Ret None
          end
      end
  end.

(** The branch of [ensureRunning] for an offline backend, with its one start request. *)
Definition startup_offline (startSent : bool) : proc (loop bool (option error)) :=
  markBackendNotRunning;;;
  if startSent then Ret (Again true)
  else
    startErr <- ask QStart;;
    match startErr with
    | Some err =>
        if IsPermanent err
        then Ret (Return (Some (ErrWrap "start Pterodactyl server" err)))
        else Ret (Again true)
    | None => Ret (Again true)
    end.

(** The final [select] of an iteration of [ensureRunning]. *)
Definition startup_wait (startSent : bool) : proc (loop bool (option error)) :=
  r <- ask QSelect;;
  Ret (match r with
       | CtxDone err => Return (Some (ErrWrap "wait for Pterodactyl running" err))
       | Ticked _ => Again startSent
       end).

(** One iteration of the loop of [ensureRunning]; its loop variable is [startSent]. *)
Definition ensureRunning (startSent : bool) : proc (loop bool (option error)) :=
  '(state, err) <- ask QStatus;;
  next <-
    match err with
    | Some err =>
        Ret (if IsPermanent err
             then Return (Some (ErrWrap "query Pterodactyl status" err)) else Again startSent)
    | None =>
        if bool_decide (state = StateRunning) then r <- startup_running;; Ret (Return r)
        else if bool_decide (state = StateOffline) then startup_offline startSent
        else if bool_decide (state = StateStarting) then markBackendNotRunning;;; Ret (Again true)
        else if bool_decide (state = StateStopping) then markBackendNotRunning;;; Ret (Again false)
        else Ret (Again startSent)
    end;;
  match next with
  | Return r => Ret (Return r)
  | Again startSent => startup_wait startSent
  end.

(** The rest of the goroutine of [startServer], once [ensureRunning] has returned. *)
Definition startup_exit (generation : Z) (err : option error) : proc unit :=
  (match err with
   | Some err =>
       cancelled <- gets ctx_Err;;
       match cancelled with
       | None => failStartup generation (IsPermanent err)
       | Some _ => finishStartup generation
       end
   | None => finishStartup generation
   end);;;
  add_wg (-1).

(** ** Admission and forwarding *)

(** [forwardOrQueue]: true when the session took the packet. *)
Definition forwardOrQueue (active : nat) (packet : bytes) : proc bool :=
  rlock ForwardingMu;;;
  lock Mu;;;
  ready <- gets (fun w => backendReady (px w));;
  handled <-
    (if negb ready then
       activity <- RecordActivity active;;
       match activity with
       | Some _ => unlock Mu;;; Ret false
       | None =>
           modify (upd_px (enqueueLocked active packet));;;
           unlock Mu;;;
           startServer;;;
           Ret true
       end
     else
       unlock Mu;;;
       err <- ForwardClient active packet;;
       Ret (match err with Some _ => false | None => true end));;
  runlock ForwardingMu;;;
  Ret handled.

(** [shouldLogCapacityWarning] under [mu]. *)
Definition capacity_warning (now : Z) (p : Proxy) : bool * Proxy :=
  if negb (IsZero (lastCapacityWarning p))
     && bool_decide (Sub now (lastCapacityWarning p) < Second)
  then (false, p)
  else (true, p <| lastCapacityWarning := now |>).

Definition shouldLogCapacityWarning : proc bool :=
  critical Mu (fun w =>
    let '(b, p) := capacity_warning (clock w) (px w) in (b, w <| px := p |>)).

Definition watchSession (key : string) (active : nat) : proc unit :=
  add_wg 1;;;
  go (TWatch key active).

Definition detect_start (o : Options) (packet : bytes) : bool :=
  match Detector o with Some DetectStart => DetectStart packet | None => false end.

Definition session_options (o : Options) (client : UDPAddr) : SessionOptions :=
  mkSessionOptions (Some client) (BackendAddr o) (Listener o) (MaxPacketSize o).

(** The part of [handleClientPacket] that runs under [admissionMu], after its second
    look at the store. *)
Definition admitPacket (key : string) (client : UDPAddr) (packet : bytes) : proc unit :=
  '(ready, running, startupBlocked) <- critical Mu (fun w =>
     ((backendReady (px w), backendRunning (px w), Before (clock w) (startupBlockedUntil (px w))), w));;
  o <- gets (fun w => options (px w));;
  if startupBlocked : bool then Ret tt
  else if negb ready && negb running && negb (detect_start o packet) then Ret tt
  else
    '(createdSession, created, _, err) <- GetOrCreate key (NewSession (session_options o client));;
    match err, createdSession with
    | Some err, _ =>
        if errors_Is ErrSessionCapacity err
        then shouldLogCapacityWarning;;; Ret tt else Ret tt
    | None, None => Ret tt
    | None, Some active =>
        (if created : bool then cancelAutoStop;;; watchSession key active else Ret tt);;;
        forwardOrQueue active packet;;;
        if negb ready then startServer else Ret tt
    end.

Definition handleClientPacket (client : UDPAddr) (packet : bytes) : proc unit :=
  if bool_decide (len packet = 0) then Ret tt
  else
    let key := addr_String client in
    existing <- Get key;;
    handled <- match existing with Some sid => forwardOrQueue sid packet | None => Ret false end;;
    if handled : bool then Ret tt
    else
      lock AdmissionMu;;;
      existing <- Get key;;
      handled <-
        match existing with
        | Some sid =>
            handled <- forwardOrQueue sid packet;;
            if handled : bool then Ret true
            else Remove key sid;;; removeQueue sid;;; Ret false
        | None => Ret false
        end;;
      (if handled : bool then Ret tt else admitPacket key client packet);;;
      unlock AdmissionMu.

(** The goroutine of [watchSession]. *)
Definition watch_session (key : string) (active : nat) : proc unit :=
  await (fun w => match heap w !! active with Some s => doneClosed s | None => false end);;;
  '(removed, count, _) <- Remove key active;;
  removeQueue active;;;
  (if removed && bool_decide (count = 0) then
     cancelled <- gets ctx_Err;;
     match cancelled with None => scheduleAutoStop | Some _ => Ret tt end
   else Ret tt);;;
  add_wg (-1).

(** ** Idle expiry *)

Fixpoint refresh_each (pending : list nat) : proc unit :=
  match pending with
  | [] => Ret tt
  | active :: pending => RecordActivity active;;; refresh_each pending
  end.

Definition refreshPendingSessions : proc unit :=
  pending <- critical Mu (fun w => (queue_keys w, w));;
  answer <- ask (QOrder pending);;
  refresh_each (range_order pending answer).

Definition expireIdleSessions (now : Z) : proc unit :=
  refreshPendingSessions;;;
  idle <- gets (fun w => IdleTimeout (options (px w)));;
  '(expired, count, _) <- ExpireIdle (Add now (- idle));;
  (if bool_decide (0 < expired) then removeClosedQueues else Ret tt);;;
  if bool_decide (0 < expired) && bool_decide (count = 0) then scheduleAutoStop else Ret tt.

(** One iteration of [runSweeper]. *)
Definition runSweeper : proc (loop unit unit) :=
  r <- ask QSelect;;
  match r with
  | CtxDone _ => await (fun w => bool_decide (ctx_Err w <> None));;; add_wg (-1);;; Ret (Return tt)
  | Ticked now => expireIdleSessions now;;; Ret (Again tt)
  end.

(** ** Backend health *)

(** The section of [closeBackendGate] under [mu]; false when the loss is stale. *)
Definition close_gate (generation : Z) (w : world) : bool * world :=
  let p := px w in
  if negb (backendReady p) || bool_decide (readinessGeneration p <> generation) then (false, w)
  else
    let w := upd_px (fun p =>
      p <| backendReady := false |> <| backendRunning := false |>
        <| readinessGeneration := uint64 (readinessGeneration p + 1) |>
        <| stopGeneration := uint64 (stopGeneration p + 1) |>) w in
    (true, upd_px clear_queues (stopAutoStopTimerLocked w)).

Definition closeBackendGate (generation : Z) : proc unit :=
  lock AdmissionMu;;;
  lock ForwardingMu;;;
  closedGate <- critical Mu (close_gate generation);;
  (if closedGate : bool then Len;;; CloseAll;;; Ret tt else Ret tt);;;
  unlock ForwardingMu;;;
  unlock AdmissionMu.

(** One iteration of [runBackendHealthMonitor]; its loop variable is [failures]. *)
Definition runBackendHealthMonitor (failures : backendHealthFailures)
    : proc (loop backendHealthFailures unit) :=
  r <- ask QSelect;;
  match r with
  | CtxDone _ => await (fun w => bool_decide (ctx_Err w <> None));;; add_wg (-1);;; Ret (Return tt)
  | Ticked _ =>
      '(ready, generation) <- critical Mu (fun w => ((backendReady (px w), readinessGeneration (px w)), w));;
      if negb ready then Ret (Again failures_reset)
      else
        err <- ask QProbe;;
        cancelled <- gets ctx_Err;;
        match cancelled with
        | Some _ => add_wg (-1);;; Ret (Return tt)
        | None =>
            generationCurrent <- critical Mu (fun w =>
              (backendReady (px w) && bool_decide (readinessGeneration (px w) = generation), w));;
            if negb generationCurrent then Ret (Again failures_reset)
            else
              match err with
              | None => Ret (Again failures_reset)
              | Some err =>
                  if backendReadinessInconclusive err then Len;;; Ret (Again failures_reset)
                  else
                    let '(failureCount, failures) := failures_record generation failures in
                    if bool_decide (failureCount < backendHealthFailureThreshold)
                    then Ret (Again failures)
                    else closeBackendGate generation;;; Ret (Again failures_reset)
              end
        end
  end.

(** ** Auto-stop attempts *)

Definition forget_timer (generation : Z) (p : Proxy) : Proxy :=
  if bool_decide (generation = stopGeneration p) then p <| stopTimer := None |> else p.

(** The end of a failed attempt under [mu]: whether to retry. *)
Definition retry_delay (attempt : Z) (o : Options) : Z :=
  int64 (AutoStopRetryDelay o * int64 (Z.shiftl 1 (attempt - 1))).

(** [runAutoStopAttempt] after its two checks, under [admissionMu]. *)
Definition auto_stop_request (generation attempt : Z) : proc unit :=
  err <- ask QStop;;
  match err with
  | None =>
      markBackendNotRunning;;;
      critical Mu (fun w => (tt, upd_px (forget_timer generation) w))
  | Some _ =>
      if bool_decide (maxAutoStopAttempts <= attempt)
      then critical Mu (fun w => (tt, upd_px (forget_timer generation) w))
      else
        lock Mu;;;
        p <- gets px;;
        (if bool_decide (generation = stopGeneration p) && backendReady p
         then scheduleAutoStopAttemptLocked generation (attempt + 1) (retry_delay attempt (options p))
         else Ret tt);;;
        unlock Mu
  end.

Definition runAutoStopAttempt (generation attempt : Z) : proc unit :=
  lock AdmissionMu;;;
  active <- Len;;
  (if bool_decide (active <> 0) then Ret tt
   else
     valid <- critical Mu (fun w =>
       (bool_decide (generation = stopGeneration (px w)) && backendReady (px w), w));;
     if valid : bool then auto_stop_request generation attempt else Ret tt);;;
  unlock AdmissionMu.

(** The timer of [scheduleAutoStopAttemptLocked]: wait for the deadline or for
    [Timer.Stop], and run the callback in the first case. *)
Definition timer_wait (id : nat) (w : world) : option (bool * world) :=
  match timers w !! id with
  | Some (TimerArmed deadline) =>
      if bool_decide (deadline <= clock w)
      then Some (true, w <| timers := <[id := TimerFired]> (timers w) |>) else None
  | _ => Some (false, w)
  end.

Definition timer_done (id : nat) (w : world) : world :=
  upd_px (fun p => p <| timerWG := timerWG p - 1 |>)
    (w <| timers := <[id := TimerDone]> (timers w) |>).

Definition auto_stop_timer (id : nat) (generation attempt : Z) : proc unit :=
  fired <- Atomic (timer_wait id) Ret;;
  if fired : bool
  then runAutoStopAttempt generation attempt;;; modify (timer_done id)
  else Ret tt.

(** ** Serving *)

(** The section of [shutdown] under [mu]. *)
Definition shut_down (w : world) : world :=
  let w := upd_px (fun p =>
    let p := p <| shuttingDown := true |> in
    let p := if backendReady p
             then p <| backendReady := false |>
                    <| readinessGeneration := uint64 (readinessGeneration p + 1) |>
             else p in
    p <| backendRunning := false |> <| startupRunning := false |>
      <| startupGeneration := uint64 (startupGeneration p + 1) |>
      <| stopGeneration := uint64 (stopGeneration p + 1) |>) w in
  stopAutoStopTimerLocked w.

Definition shutdown : proc unit :=
  lock AdmissionMu;;;
  lock ForwardingMu;;;
  critical Mu (fun w => (tt, shut_down w));;;
  CloseAll;;;
  unlock ForwardingMu;;;
  unlock AdmissionMu.

(** The adoption of a running backend by [Serve], under [mu]. *)
Definition adopt_running (p : Proxy) : Proxy :=
  let p := p <| backendRunning := true |> <| backendReady := negb (Readiness (options p)) |> in
  if backendReady p then p <| readinessGeneration := uint64 (readinessGeneration p + 1) |> else p.

(** [Serve] up to its read loop. *)
Definition Serve : proc unit :=
  modify (upd_px (fun p => p <| readyClosed := true |>));;;
  o <- gets (fun w => options (px w));;
  '(state, err) <- ask QStatus;;
  (if bool_decide (err = None) && bool_decide (state = StateRunning) then
     critical Mu (fun w => (tt, upd_px adopt_running w));;;
     if Readiness o then startServer else Ret tt
   else Ret tt);;;
  add_wg 2;;;
  go TSweeper;;;
  (if Readiness o then add_wg 1;;; go (TMonitor failures_reset) else Ret tt);;;
  go TListenerCloser.

(** The deferred calls of [Serve] and its return. *)
Definition Serve_exit (result : option error) : proc unit :=
  modify (fun w => w <| serveCancelled := true |>);;;
  shutdown;;;
  await (fun w => bool_decide (timerWG (px w) = 0));;;
  await (fun w => bool_decide (wg (px w) = 0));;;
  modify (fun w => w <| serveResult := Some result |>).

(** One iteration of the read loop of [Serve]. *)
Definition Serve_loop : proc (loop unit (option error)) :=
  size <- gets (fun w => MaxPacketSize (options (px w)));;
  r <- ask QReceive;;
  match r with
  | ReceiveError err =>
      cancelled <- gets ctx_Err;;
      if bool_decide (cancelled <> None) || errors_Is NetErrClosed err then
        parentErr <- gets (fun w => if parentCancelled w then Some (ErrSentinel Canceled) else None);;
        Ret (Return parentErr)
      else Ret (Return (Some (ErrWrap "read public UDP packet" err)))
  | Datagram client payload =>
      let '(packet, truncated) := recv_msg size payload in
      if truncated : bool then Ret (Again tt)
      else handleClientPacket client packet;;; Ret (Again tt)
  end.

(** The goroutine of [Serve] that closes the listener on cancellation. *)
Definition listener_closer : proc unit :=
  await (fun w => bool_decide (ctx_Err w <> None));;;
  modify (fun w => w <| listenerClosed := true |>);;;
  add_wg (-1).

(** ** The code of every goroutine *)

Definition body (t : task) : proc (option task) :=
  match t with
  | TServe => Serve;;; Ret (Some TServeLoop)
  | TServeLoop =>
      next <- Serve_loop;;
      match next with
      | Again _ => Ret (Some TServeLoop)
      | Return result => Serve_exit result;;; Ret None
      end
  | TListenerCloser => listener_closer;;; Ret None
  | TSweeper =>
      next <- runSweeper;;
      Ret (match next with Again _ => Some TSweeper | Return _ => None end)
  | TMonitor failures =>
      next <- runBackendHealthMonitor failures;;
      Ret (match next with Again failures => Some (TMonitor failures) | Return _ => None end)
  | TStartup generation startSent =>
      next <- ensureRunning startSent;;
      match next with
      | Again startSent => Ret (Some (TStartup generation startSent))
      | Return err => startup_exit generation err;;; Ret None
      end
  | TWatch key sid => watch_session key sid;;; Ret None
  | TReadBackend sid =>
      again <- readBackend sid;;
      Ret (if again : bool then Some (TReadBackend sid) else None)
  | TWatchContext sid => watchContext sid;;; Ret None
  | TAutoStop id generation attempt => auto_stop_timer id generation attempt;;; Ret None
  | TClock =>
      elapsed <- ask QElapse;;
      modify (fun w => w <| clock := clock w + Z.max 0 elapsed |>);;;
      Ret (Some TClock)
  | TSignal => modify (fun w => w <| parentCancelled := true |>);;; Ret None
  end.
