(* ===== verification/Invariant.v ===== *)
(** * Invariant: what every goroutine may assume and must respect

    The invariant of the shared state, the ownership tokens, the lock discipline and
    the resulting rely and guarantee, with the proof rules the files that verify the
    operations share. *)
From S2P Require Import Prelude Errors Conc World Session Store Proxy.

(** ** Tokens

    [TokServe] belongs to the goroutine of [Serve], [TokStartup] to the goroutine of
    the startup attempt in flight, [TokTimer id] to the goroutine of a timer; a
    [TokJob] stands for one unit of [wg], [TokRead sid] and [TokCtx sid] for the units
    of the session's [goroutineWG] that [readBackend] and [watchContext] return. *)
Inductive token :=
| TokServe
| TokStartup
| TokTimer (id : nat)
| TokJob (n : nat)
| TokRead (sid : nat)
| TokCtx (sid : nat).

#[export] Instance token_eq_dec : EqDecision token.
Proof. solve_decision. Defined.

#[export] Instance token_countable : Countable token.
Proof.
  refine (inj_countable'
    (fun t => match t with
       | TokServe => (0, 0) | TokStartup => (1, 0) | TokTimer n => (2, n)
       | TokJob n => (3, n) | TokRead n => (4, n) | TokCtx n => (5, n) end%nat)
    (fun x => match x with
       | (0, _) => TokServe | (1, _) => TokStartup | (2, n) => TokTimer n
       | (3, n) => TokJob n | (4, n) => TokRead n | (_, n) => TokCtx n end%nat) _).
  by intros [].
Defined.

Definition tok (t : token) : positive := encode t.

Lemma tok_inj t u : tok t = tok u -> t = u.
Proof. apply encode_inj. Qed.

(** The order in which the locks nest. *)
Definition rank (l : lockid) : nat :=
  match l with AdmissionMu => 0 | ForwardingMu => 1 | Mu => 2 | StoreMu => 3 end.

Definition below (l : lockid) (h : list (lockid * mode)) : Prop :=
  forall x, x ∈ h -> (rank (fst x) < rank l)%nat.

(** ** The invariant of the state *)

(** What [New] and the configuration guarantee of the options. *)
Record options_ok (o : Options) : Prop := {
  oo_packet : 1 <= MaxPacketSize o;
  oo_packets : 1 <= StartupBufferPackets o;
  oo_session : MaxPacketSize o <= StartupBufferBytesPerSession o;
  oo_global : StartupBufferBytesPerSession o <= StartupBufferBytesGlobal o;
  oo_width : StartupBufferBytesGlobal o + MaxPacketSize o < two63 }.

Record queue_ok (o : Options) (q : packetQueue) : Prop := {
  qo_count : len (packets q) <= StartupBufferPackets o;
  qo_bytes : queue_bytes q = sum_len (packets q);
  qo_limit : queue_bytes q <= StartupBufferBytesPerSession o }.

(** The startup buffers: their byte accounting is exact and within the limits. *)
Record buffers_ok (p : Proxy) : Prop := {
  bo_queues : map_Forall (fun _ => queue_ok (options p)) (queues p);
  bo_total : queuedBytes p = map_sum queue_bytes (queues p);
  bo_limit : queuedBytes p <= StartupBufferBytesGlobal (options p) }.

(** The order in which the resources of a session are given up. *)
Record session_ok (s : Session) : Prop := {
  so_cancelled : ctxCancelled s = true -> closed s = true;
  so_upstream : upstreamClosed s = true -> closed s = true;
  so_once : closeOnce s = OnceDone ->
    closed s = true /\ ctxCancelled s = true /\ upstreamClosed s = true;
  so_done : doneClosed s = true -> closeOnce s = OnceDone }.

Definition timer_pending (t : timer) : Z :=
  match t with TimerArmed _ | TimerFired => 1 | TimerDone | TimerStopped => 0 end.

Record state_ok (w : world) : Prop := {
  st_options : options_ok (options (px w));
  st_buffers : buffers_ok (px w);
  st_queued : forall sid, is_Some (queues (px w) !! sid) -> is_Some (heap w !! sid);
  st_ready : backendReady (px w) = true -> queues (px w) = ∅;
  st_shutdown : shuttingDown (px w) = true -> backendReady (px w) = false;
  st_capacity : store_len w <= storeMax w;
  st_keys : forall key sid, sessions w !! key = Some sid ->
    exists s, heap w !! sid = Some s /\ addr_String (clientAddr s) = key;
  st_sessions : map_Forall (fun _ => session_ok) (heap w);
  st_fresh : forall sid, is_Some (heap w !! sid) -> (sid < nextSession w)%nat;
  st_timerWG : timerWG (px w) = map_sum timer_pending (timers w);
  st_timers : forall id, is_Some (timers w !! id) -> (id < nextTimer w)%nat }.

(** The count of the goroutines of a session that its [goroutineWG] waits for. *)
Definition workers (w : world) (sid : nat) : Z :=
  match heap w !! sid with Some s => goroutineWG s | None => 0 end.

(** The tokens that must be in the pot, [J], [R] and [C] being the units of [wg] and the
    sessions whose [readBackend] and [watchContext] run: no startup attempt is in
    flight unless [startupRunning] says so, no timer exists before it is armed, and
    the token of [Serve] is back once it has returned. *)
Definition reserved (w : world) (J R C : gset nat) (t : token) : Prop :=
  match t with
  | TokServe => serveResult w <> None
  | TokStartup => shuttingDown (px w) = false /\ startupRunning (px w) = false
  | TokTimer id => (nextTimer w <= id)%nat
  | TokJob n => n ∉ J
  | TokRead sid => sid ∉ R
  | TokCtx sid => sid ∉ C
  end.

(** Both wait groups count exactly the tokens out of the pot.  Once [Serve] has returned
    the table is empty, no timer is pending and no counted goroutine is left. *)
Record pot_ok_with (w : world) (pot : coPset) (J R C : gset nat) : Prop := PotOk {
  pt_reserved : forall t, reserved w J R C t -> tok t ∈ pot;
  pt_wg : wg (px w) = Z.of_nat (size J);
  pt_workers : forall sid,
    workers w sid = Z.b2z (bool_decide (sid ∈ R)) + Z.b2z (bool_decide (sid ∈ C));
  pt_result : serveResult w <> None -> shuttingDown (px w) = true /\ sessions w = ∅
    /\ timerWG (px w) = 0 /\ wg (px w) = 0 }.
Definition pot_ok (w : world) (pot : coPset) : Prop := exists J R C, pot_ok_with w pot J R C.

Definition inv (w : world) (xl : gset lockid) (pot : coPset) : Prop := state_ok w /\ pot_ok w pot.

(** ** The discipline *)

Definition once_rank (o : once) : nat :=
  match o with OnceNew => 0 | OnceRunning => 1 | OnceDone => 2 end.

(** A session only moves towards closed, and a closed one records no activity. *)
Record session_le (s s' : Session) : Prop := {
  sl_client : clientAddr s' = clientAddr s;
  sl_packet : maxPacket s' = maxPacket s;
  sl_closed : closed s = true -> closed s' = true;
  sl_activity : closed s = true -> lastActivity s' = lastActivity s;
  sl_once : (once_rank (closeOnce s) <= once_rank (closeOnce s'))%nat;
  sl_cancelled : ctxCancelled s = true -> ctxCancelled s' = true;
  sl_upstream : upstreamClosed s = true -> upstreamClosed s' = true;
  sl_done : doneClosed s = true -> doneClosed s' = true }.

#[export] Instance session_le_preorder : PreOrder session_le.
Proof.
  split.
  - intros s. by split.
  - intros s1 s2 s3 [] []. split; try congruence; try lia; auto.
    intros Hc. rewrite sl_activity1; auto.
Qed.

Definition heap_le (h h' : gmap nat Session) : Prop :=
  forall sid s, h !! sid = Some s -> exists s', h' !! sid = Some s' /\ session_le s s'.

#[export] Instance heap_le_preorder : PreOrder heap_le.
Proof.
  split.
  - intros h sid s Hs. by exists s.
  - intros h1 h2 h3 H12 H23 sid s Hs. destruct (H12 _ _ Hs) as (s2 & Hs2 & ?).
    destruct (H23 _ _ Hs2) as (s3 & ? & ?). exists s3. split; [done|]. by etransitivity.
Qed.

(** The fields [mu] guards. *)
Definition mu_fields (p : Proxy) :=
  (backendReady p, readinessGeneration p, backendRunning p, startupRunning p, startupGeneration p,
   startupBlockedUntil p, shuttingDown p, queues p, queuedBytes p, stopTimer p, stopGeneration p,
   lastCapacityWarning p).

(** One step, when the actor lacks the right named by each proposition: who does not
    hold [admissionMu] adds no session and does not shut down; who does not hold
    [mu] leaves the fields it guards alone; who does not own the startup attempt does
    not end it; who is not [Serve] opens no session and starts no queue; and so on. *)
Record disc (admission store mu forwarding startup serve : Prop) (fired : nat -> Prop)
    (w w' : world) : Prop := {
  di_clock : clock w <= clock w';
  di_options : options (px w') = options (px w);
  di_max : storeMax w' = storeMax w;
  di_heap : heap_le (heap w) (heap w');
  di_next : (nextSession w <= nextSession w')%nat;
  di_nextTimer : (nextTimer w <= nextTimer w')%nat;
  di_shutdown : shuttingDown (px w) = true -> shuttingDown (px w') = true;
  di_ctx : ctx_Err w <> None -> ctx_Err w' <> None;
  di_admission : admission ->
    sessions w' ⊆ sessions w /\ shuttingDown (px w') = shuttingDown (px w);
  di_store : store -> sessions w' = sessions w;
  di_mu : mu -> mu_fields (px w') = mu_fields (px w);
  di_forwarding : forwarding -> backendReady (px w') = backendReady (px w);
  di_startup : startup -> startupRunning (px w) = true ->
    shuttingDown (px w') = true \/
    (startupRunning (px w') = true /\ startupGeneration (px w') = startupGeneration (px w));
  di_serve : serve -> nextSession w' = nextSession w /\ sessions w' ⊆ sessions w
    /\ dom (queues (px w')) ⊆ dom (queues (px w)) /\ shuttingDown (px w') = shuttingDown (px w);
  di_wg : serve -> wg (px w) = 0 -> wg (px w') = 0;
  di_workers : serve -> forall sid, workers w sid = 0 -> workers w' sid = 0;
  di_timerWG : shuttingDown (px w) = true -> timerWG (px w') <= timerWG (px w);
  di_timers : forall id, is_Some (timers w !! id) -> is_Some (timers w' !! id);
  di_timer : forall id, fired id -> timers w !! id = Some TimerFired ->
    timers w' !! id = Some TimerFired }.

Lemma disc_refl a b c d e f g w : disc a b c d e f g w w.
Proof. split; auto; try reflexivity. Qed.

Lemma disc_trans a b c d e f g w1 w2 w3 :
  disc a b c d e f g w1 w2 -> disc a b c d e f g w2 w3 -> disc a b c d e f g w1 w3.
Proof.
  intros H1 H2. destruct H1, H2. split; try congruence; try lia; auto.
  - by etransitivity.
  - intros Ha. destruct (di_admission0 Ha), (di_admission1 Ha). split; [by etransitivity|congruence].
  - intros Hs. by rewrite di_store1, di_store0.
  - intros Hs. by rewrite di_mu1, di_mu0.
  - intros Hs. by rewrite di_forwarding1, di_forwarding0.
  - intros Hs Hr. destruct (di_startup0 Hs Hr) as [|[Hr2 Hg]]; [auto|].
    destruct (di_startup1 Hs Hr2) as [|[? ?]]; [auto|]. right. split; congruence.
  - intros Hs. destruct (di_serve0 Hs) as (? & ? & ? & ?), (di_serve1 Hs) as (? & ? & ? & ?).
    split; [congruence|]. split; [by etransitivity|]. split; [by etransitivity|congruence].
  - intros Hs. pose proof (di_timerWG0 Hs). pose proof (di_timerWG1 (di_shutdown0 Hs)). lia.
Qed.

Lemma disc_mono (a a' b b' c c' d d' e e' f f' : Prop) (g g' : nat -> Prop) w w' :
  (a' -> a) -> (b' -> b) -> (c' -> c) -> (d' -> d) -> (e' -> e) -> (f' -> f) ->
  (forall i, g' i -> g i) -> disc a b c d e f g w w' -> disc a' b' c' d' e' f' g' w w'.
Proof. intros ? ? ? ? ? ? ? []. split; auto. Qed.

Definition guar (o : coPset) (h : list (lockid * mode)) : world -> world -> Prop :=
  disc ((AdmissionMu, Exclusive) ∉ h) ((StoreMu, Exclusive) ∉ h) ((Mu, Exclusive) ∉ h)
       ((ForwardingMu, Exclusive) ∉ h /\ tok TokServe ∉ o) (tok TokStartup ∉ o) (tok TokServe ∉ o)
       (fun id => tok (TokTimer id) ∉ o).

Definition rely (o : coPset) (h : list (lockid * mode)) : world -> world -> Prop :=
  disc ((AdmissionMu, Exclusive) ∈ h) (exists m, (StoreMu, m) ∈ h) ((Mu, Exclusive) ∈ h)
       ((exists m, (ForwardingMu, m) ∈ h) /\ tok TokServe ∈ o) (tok TokStartup ∈ o) (tok TokServe ∈ o)
       (fun id => tok (TokTimer id) ∈ o).

#[export] Instance rely_preorder o h : PreOrder (rely o h).
Proof. split; [intros ?; apply disc_refl|]. intros ? ? ?. apply disc_trans. Qed.

Lemma guar_rely o h o' h' w w' :
  o ## o' -> compat h h' -> guar o h w w' -> rely o' h' w w'.
Proof.
  intros Hd Hc. apply disc_mono.
  - intros H1 H2. by destruct (Hc _ _ _ H2 H1).
  - intros [m H1] H2. by destruct (Hc _ _ _ H2 H1).
  - intros H1 H2. by destruct (Hc _ _ _ H2 H1).
  - intros [[m H1] Ht]. split; [intros H2; by destruct (Hc _ _ _ H2 H1)|]. set_solver.
  - set_solver.
  - set_solver.
  - set_solver.
Qed.

Lemma rely_mono o h h' w w' : h' ⊆ h -> rely o h w w' -> rely o h' w w'.
Proof.
  intros Hs. apply disc_mono; auto.
  - intros [m Hm]. exists m. by apply Hs.
  - intros [[m Hm] ?]. split; [|done]. exists m. by apply Hs.
Qed.

(** ** What the environment may be asked, and when goroutines may start *)

(** Counted by [wg] or [Serve] itself. *)
Definition has_job (o : coPset) : Prop := exists n, tok (TokJob n) ∈ o.

Definition employed (o : coPset) : Prop := tok TokServe ∈ o \/ has_job o.

(** A stop request needs an empty store and a proxy that is not shutting down; a start
    request, or a wait for readiness, needs the startup attempt; a packet goes to the
    backend in the flush, or with the gate open and nothing queued.  Everything but the
    stop request is asked by [Serve] or a goroutine that [wg] or [goroutineWG] counts. *)
Definition allowed (B : Type) (q : query B) (o : coPset) (h : list (lockid * mode)) (w : world)
    : Prop :=
  match q with
  | QStop => sessions w = ∅ /\ shuttingDown (px w) = false
  | QStart | QWaitReady => tok TokStartup ∈ o /\ employed o
  | QStatus | QProbe | QDial | QReceive => employed o
  | QWrite _ _ => employed o /\
      ((ForwardingMu, Exclusive) ∈ h \/ (backendReady (px w) = true /\ queues (px w) = ∅))
  | QReadBackend sid | QWriteClient sid _ => tok (TokRead sid) ∈ o
  | _ => True
  end.

(** What each goroutine needs at the start of every iteration. *)
Definition pre (t : task) (o : coPset) (w : world) : Prop :=
  match t with
  | TServe => tok TokServe ∈ o /\ queues (px w) = ∅ /\ shuttingDown (px w) = false
  | TServeLoop => tok TokServe ∈ o
  | TListenerCloser | TSweeper | TMonitor _ => has_job o
  | TStartup generation _ => tok TokStartup ∈ o /\ has_job o /\
      (shuttingDown (px w) = true \/
       (startupRunning (px w) = true /\ startupGeneration (px w) = generation))
  | TAutoStop id _ attempt => tok (TokTimer id) ∈ o /\ is_Some (timers w !! id)
      /\ 1 <= attempt <= maxAutoStopAttempts
  | TReadBackend sid => tok (TokRead sid) ∈ o /\ is_Some (heap w !! sid)
  | TWatchContext sid => tok (TokCtx sid) ∈ o /\ is_Some (heap w !! sid)
  | TWatch _ sid => has_job o /\ is_Some (heap w !! sid)
  | _ => True
  end.
