(* ===== verification/Buffers.v ===== *)
(** * Buffers: the bounded startup queues

    The operations on [queues] and [queuedBytes] keep the byte accounting exact and
    within the configured limits, and buffer whole packets in arrival order. *)
From S2P Require Import Prelude Errors Conc World Session Store Proxy Invariant.

Lemma queue_bytes_nonneg o q : queue_ok o q -> 0 <= queue_bytes q.
Proof. intros [_ -> _]. apply sum_len_nonneg. Qed.

Lemma buffers_bytes_nonneg p active q :
  buffers_ok p -> queues p !! active = Some q -> 0 <= queue_bytes q.
Proof. intros [Hq _ _] Ha. eapply queue_bytes_nonneg, Hq, Ha. Qed.

Lemma buffers_split p active q :
  buffers_ok p -> queues p !! active = Some q ->
  queuedBytes p = queue_bytes q + map_sum queue_bytes (delete active (queues p))
  /\ 0 <= map_sum queue_bytes (delete active (queues p)).
Proof.
  intros Hok Ha. rewrite (bo_total _ Hok). split; [by apply map_sum_delete|].
  apply map_sum_nonneg. intros k q' [_ Hk]%lookup_delete_Some.
  by eapply buffers_bytes_nonneg.
Qed.

Lemma queuedBytes_bounds p :
  options_ok (options p) -> buffers_ok p -> 0 <= queuedBytes p < two63.
Proof.
  intros Ho Hok. split.
  - rewrite (bo_total _ Hok). apply map_sum_nonneg. intros. by eapply buffers_bytes_nonneg.
  - pose proof (bo_limit _ Hok). destruct Ho. lia.
Qed.

Lemma clear_queues_ok p : options_ok (options p) -> buffers_ok (clear_queues p).
Proof.
  intros []. split; simpl; [apply map_Forall_empty|by rewrite map_sum_empty|lia].
Qed.

Lemma remove_queue_ok active p :
  options_ok (options p) -> buffers_ok p -> buffers_ok (remove_queue active p).
Proof.
  intros Ho Hok. unfold remove_queue. destruct (queues p !! active) as [q|] eqn:Hq; [|done].
  destruct (buffers_split p active q Hok Hq) as [Ht Hn].
  pose proof (queuedBytes_bounds p Ho Hok). pose proof (buffers_bytes_nonneg p active q Hok Hq).
  split; simpl.
  - by apply map_Forall_delete, Hok.
  - rewrite int64_id by (unfold in_int64; lia). lia.
  - rewrite int64_id by (unfold in_int64; lia). pose proof (bo_limit _ Hok). lia.
Qed.

Lemma map_sum_filter_split {K A} `{Countable K} (f : A -> Z) (P : K * A -> bool) (m : gmap K A) :
  map_sum f m = map_sum f (filter (fun x => P x = true) m)
                + map_sum f (filter (fun x => P x = false) m).
Proof.
  induction m as [|k a m Hk _ IH] using map_first_key_ind.
  - by rewrite !map_filter_empty, !map_sum_empty.
  - rewrite map_sum_insert_None by done.
    assert (Hf : forall b, filter (fun x => P x = b) m !! k = None).
    { intros b. apply map_lookup_filter_None. by left. }
    destruct (P (k, a)) eqn:HP.
    + rewrite map_filter_insert_True, map_filter_insert_False, (delete_id m)
        by (try done; congruence). rewrite map_sum_insert_None by done. lia.
    + rewrite map_filter_insert_False, map_filter_insert_True, (delete_id m)
        by (try done; congruence). rewrite (map_sum_insert_None _ (filter _ m) k a) by done. lia.
Qed.

Lemma remove_closed_queues_ok h p :
  options_ok (options p) -> buffers_ok p -> buffers_ok (remove_closed_queues h p).
Proof.
  intros Ho Hok. unfold remove_closed_queues.
  pose proof (map_sum_filter_split queue_bytes (fun x => queue_is_closed h (fst x)) (queues p)) as Hs.
  cbv beta in Hs.
  assert (Hn : forall b, 0 <= map_sum queue_bytes
                 (filter (fun x => queue_is_closed h (fst x) = b) (queues p))).
  { intros b. apply map_sum_nonneg. intros k q [Hk _]%map_lookup_filter_Some.
    by eapply buffers_bytes_nonneg. }
  pose proof (Hn true). pose proof (Hn false).
  pose proof (queuedBytes_bounds p Ho Hok). pose proof (bo_total _ Hok).
  pose proof (bo_limit _ Hok).
  split; simpl.
  - intros k q [Hk _]%map_lookup_filter_Some. by eapply Hok.
  - rewrite int64_id by (unfold in_int64; lia). lia.
  - rewrite int64_id by (unfold in_int64; lia). lia.
Qed.

(** The bound arithmetic of [enqueueLocked] never wraps around. *)
Lemma enqueue_no_overflow p active (packet : bytes) :
  options_ok (options p) -> buffers_ok p -> len packet <= MaxPacketSize (options p) ->
  int64 (queue_bytes (default emptyQueue (queues p !! active)) + len packet)
    = queue_bytes (default emptyQueue (queues p !! active)) + len packet
  /\ int64 (queuedBytes p + len packet) = queuedBytes p + len packet.
Proof.
  intros Ho Hok Hl. pose proof (queuedBytes_bounds p Ho Hok). pose proof (bo_limit _ Hok).
  destruct Ho. pose proof (len_nonneg packet).
  assert (0 <= queue_bytes (default emptyQueue (queues p !! active)) <= StartupBufferBytesPerSession (options p)).
  { destruct (queues p !! active) as [q|] eqn:Hq; simpl; [|lia].
    split; [by eapply buffers_bytes_nonneg|]. by eapply Hok. }
  split; apply int64_id; unfold in_int64, two63 in *; lia.
Qed.

Lemma enqueueLocked_ok active packet p :
  options_ok (options p) -> buffers_ok p -> len packet <= MaxPacketSize (options p) ->
  buffers_ok (enqueueLocked active packet p).
Proof.
  intros Ho Hok Hl. unfold enqueueLocked.
  destruct (enqueue_no_overflow p active packet Ho Hok Hl) as [E1 E2].
  assert (Hq : queue_ok (options p) (default emptyQueue (queues p !! active))).
  { destruct (queues p !! active) as [q|] eqn:Hq; simpl; [by eapply Hok|].
    destruct Ho. split; simpl; rewrite ?len_nil; try lia. }
  assert (Hsum : forall q', map_sum queue_bytes (<[active := q']> (queues p)) =
    queue_bytes q' - queue_bytes (default emptyQueue (queues p !! active)) + queuedBytes p).
  { intros q'. rewrite (bo_total _ Hok). destruct (queues p !! active) as [q|] eqn:Hqa; simpl.
    - by apply map_sum_insert_Some.
    - rewrite map_sum_insert_None by done. lia. }
  set (queue := default emptyQueue (queues p !! active)) in *.
  replace (match queues p !! active with Some q => q | None => emptyQueue end) with queue by
    (unfold queue; by destruct (queues p !! active)).
  rewrite E1, E2. destruct (_ || _) eqn:Hfull.
  - split; simpl; [|by rewrite Hsum; simpl; lia|apply Hok].
    apply map_Forall_insert_2; [|apply Hok]. destruct Hq. by split.
  - go_bool. destruct Hq as [Hc Hb Hlim]. split; simpl; [|rewrite Hsum; simpl; lia|lia].
    apply map_Forall_insert_2; [|apply Hok]. split; simpl.
    + rewrite len_app, len_cons, len_nil. lia.
    + rewrite sum_len_app. simpl. lia.
    + lia.
Qed.
