(* ===== verification/Rules.v ===== *)
(** * Rules: proof rules of the interference logic for the proxy

    [WP o h p post w]: a goroutine that owns the tokens [o], holds the locks [h] and
    runs [p] from the state [w] respects the discipline of [Invariant.v] whatever the
    other goroutines do within it, and ends with [post]. *)
From S2P Require Import Prelude Errors Conc World Session Store Proxy Invariant Buffers.

Abbreviation WP := (wp inv guar rely rank allowed pre).

(** ** What the pot depends on *)

Record kept (w w' : world) : Prop := Kept {
  kp_result : serveResult w' = serveResult w;
  kp_shutdown : shuttingDown (px w') = shuttingDown (px w);
  kp_startup : startupRunning (px w') = startupRunning (px w);
  kp_nextTimer : nextTimer w' = nextTimer w;
  kp_timerWG : timerWG (px w') = timerWG (px w);
  kp_wg : wg (px w') = wg (px w);
  kp_sessions : sessions w' ⊆ sessions w;
  kp_workers : forall sid, workers w' sid = workers w sid }.

Lemma map_empty_sub {A} (m : gmap string A) : m ⊆ ∅ -> m = ∅.
Proof.
  intros Hs. apply map_eq. intros key. rewrite lookup_empty.
  destruct (m !! key) as [a|] eqn:He; [|done]. by apply (lookup_weaken _ _ _ _ He) in Hs.
Qed.

Lemma kept_pot w w' pot : kept w w' -> pot_ok w pot -> pot_ok w' pot.
Proof.
  intros [K1 K2 K3 K4 K5 K6 K7 K8] (J & R & C & [P1 P2 P3 P4]). exists J, R, C. split.
  - intros t Ht. apply P1. destruct t; simpl in *; congruence.
  - congruence.
  - intros sid. by rewrite K8.
  - rewrite K1, K2, K5, K6. intros Hr. destruct (P4 Hr) as (? & Hs & ? & ?).
    rewrite Hs in K7. repeat (split; [done|]). split; [by apply map_empty_sub|done].
Qed.

Lemma kept_refl w : kept w w.
Proof. by split. Qed.

Section rules.
Context {A B : Type}.
Implicit Types (o : coPset) (h : list (lockid * mode)) (w : world).
Implicit Types (k : B -> proc A) (post : A -> coPset -> list (lockid * mode) -> world -> Prop).

(** The obligation of a step that exchanges no token. *)
Record step_ok o h w w' : Prop := StepOk {
  sk_guar : guar o h w w';
  sk_state : state_ok w';
  sk_pot : forall pot, o ## pot -> pot_ok w pot -> pot_ok w' pot }.

Lemma wp_atomic (f : world -> B * world) k post o h w :
  (forall w1, rely o h w w1 -> state_ok w1 ->
     step_ok o h w1 (snd (f w1)) /\ WP o h (k (fst (f w1))) post (snd (f w1))) ->
  WP o h (bind (atomic f) k) post w.
Proof.
  intros H w1 xl pot [Hr Hv Hd [Hs Hp]]. destruct (H w1 Hr Hs) as [[Hg Hs' Hp'] Hk].
  destruct (f w1) as [b w2]; simpl in *. split; [done|].
  exists o, pot. split; [done|]. split; [done|]. split; [|done]. split; auto.
Qed.

Lemma wp_gets (f : world -> B) k post o h w :
  (forall w1, rely o h w w1 -> state_ok w1 -> WP o h (k (f w1)) post w1) ->
  WP o h (bind (gets f) k) post w.
Proof.
  intros H. apply wp_atomic. simpl. intros w1 Hr Hs. split; [|by apply H].
  split; [apply disc_refl|done|done].
Qed.

Lemma wp_ask (q : query B) k post o h w :
  (forall w1, rely o h w w1 -> state_ok w1 ->
     allowed B q o h w1 /\ forall b, WP o h (k b) post w1) ->
  WP o h (bind (ask q) k) post w.
Proof. intros H w1 xl pot [Hr Hv Hd [Hs Hp]]. by apply H. Qed.
End rules.

Section lock_rules.
Context {A : Type}.
Implicit Types (o : coPset) (h : list (lockid * mode)) (w : world).
Implicit Types (k : unit -> proc A) (post : A -> coPset -> list (lockid * mode) -> world -> Prop).

Lemma wp_modify (f : world -> world) k post o h w :
  (forall w1, rely o h w w1 -> state_ok w1 ->
     step_ok o h w1 (f w1) /\ WP o h (k tt) post (f w1)) ->
  WP o h (bind (modify f) k) post w.
Proof. intros H. by apply wp_atomic. Qed.

Lemma wp_await (c : world -> bool) k post o h w :
  (forall w1, rely o h w w1 -> state_ok w1 -> c w1 = true -> WP o h (k tt) post w1) ->
  WP o h (bind (await c) k) post w.
Proof.
  intros H w1 xl pot [Hr Hv Hd [Hs Hp]]. simpl. destruct (c w1) eqn:Hc; [|done].
  split; [apply disc_refl|]. exists o, pot. split; [done|]. split; [done|]. split; [by split|].
  by apply H.
Qed.

Lemma wp_acquire l m k post o h w :
  below l h ->
  (forall w1, rely o h w w1 -> state_ok w1 -> WP o ((l, m) :: h) (k tt) post w1) ->
  WP o h (bind (Acquire l m (Ret tt)) k) post w.
Proof.
  intros Hb H. split; [done|]. intros w1 xl pot [Hr Hv Hd [Hs Hp]] _. split; [by split|]. by apply H.
Qed.

Lemma below_not_in l m h : below l h -> (l, m) ∉ h.
Proof. intros Hb Hin. specialize (Hb _ Hin). simpl in Hb. lia. Qed.

Lemma drop_lock_id l m h : (l, m) ∉ h -> drop_lock l m h = h.
Proof.
  unfold drop_lock. induction h as [|x h IH]; [done|]. intros Hn.
  rewrite filter_cons_True; [|by intros ->; apply Hn; left].
  f_equal. apply IH. intros Hin. apply Hn. by right.
Qed.

Lemma drop_lock_head l m h : below l h -> drop_lock l m ((l, m) :: h) = h.
Proof.
  intros Hb. unfold drop_lock. rewrite filter_cons_False by tauto.
  by apply drop_lock_id, below_not_in.
Qed.

(** Locks are released in the opposite order they were taken. *)
Lemma wp_release l m k post o h w :
  below l h -> WP o h (k tt) post w ->
  WP o ((l, m) :: h) (bind (Release l m (Ret tt)) k) post w.
Proof.
  intros Hb H. split; [by left|]. intros w1 xl pot [Hr Hv Hd [Hs Hp]]. split; [by split|].
  rewrite drop_lock_head by done.
  assert (Hr' : rely o h w w1) by (eapply rely_mono, Hr; by right).
  eapply wp_rely in H; [exact H|apply _|exact Hr'].
Qed.

Lemma wp_lock l k post o h w :
  below l h ->
  (forall w1, rely o h w w1 -> state_ok w1 -> WP o ((l, Exclusive) :: h) (k tt) post w1) ->
  WP o h (bind (lock l) k) post w.
Proof. apply wp_acquire. Qed.

Lemma wp_rlock l k post o h w :
  below l h ->
  (forall w1, rely o h w w1 -> state_ok w1 -> WP o ((l, Shared) :: h) (k tt) post w1) ->
  WP o h (bind (rlock l) k) post w.
Proof. apply wp_acquire. Qed.

Lemma wp_unlock l k post o h w :
  below l h -> WP o h (k tt) post w -> WP o ((l, Exclusive) :: h) (bind (unlock l) k) post w.
Proof. apply wp_release. Qed.

Lemma wp_runlock l k post o h w :
  below l h -> WP o h (k tt) post w -> WP o ((l, Shared) :: h) (bind (runlock l) k) post w.
Proof. apply wp_release. Qed.

(** Starting a goroutine that needs no token of its parent. *)
Lemma wp_go t k post o h w :
  (forall w1, rely o h w w1 -> state_ok w1 -> pre t ∅ w1 /\ WP o h (k tt) post w1) ->
  WP o h (bind (go t) k) post w.
Proof.
  intros H w1 xl pot [Hr Hv Hd [Hs Hp]]. destruct (H _ Hr Hs).
  exists ∅, o. split; [set_solver|]. split; [set_solver|]. done.
Qed.
End lock_rules.

Lemma wp_ret {A} (a : A) (post : A -> coPset -> list (lockid * mode) -> world -> Prop) o h w :
  (forall w1, rely o h w w1 -> post a o h w1) -> WP o h (Ret a) post w.
Proof. done. Qed.

Lemma wp_call {A B} (p : proc A) (g : A -> proc B) post o h w :
  WP o h p (fun a o h w => WP o h (g a) post w) w -> WP o h (bind p g) post w.
Proof. apply wp_bind, _. Qed.

Lemma wp_rely_state {A} (p : proc A) post o h w w' :
  rely o h w w' -> WP o h p post w -> WP o h p post w'.
Proof. apply wp_rely, _. Qed.

(** A critical section that is one access; [w1] is the state found when the lock is
    taken. *)
Lemma wp_critical {A B} l (f : world -> B * world) (k : B -> proc A) post o h w :
  below l h ->
  (forall w1, rely o h w w1 -> state_ok w1 ->
     step_ok o ((l, Exclusive) :: h) w1 (snd (f w1)) /\ WP o h (k (fst (f w1))) post (snd (f w1))) ->
  WP o h (bind (critical l f) k) post w.
Proof.
  intros Hb H. apply wp_call. unfold critical. apply wp_lock; [done|]. intros w1 Hr1 _.
  apply wp_atomic. intros w2 Hr2 Hs2.
  assert (Hr : rely o h w w2).
  { etransitivity; [exact Hr1|]. eapply rely_mono, Hr2. by right. }
  destruct (H w2 Hr Hs2) as [Hstep Hk]. split; [done|].
  apply wp_unlock; [done|]. apply wp_ret. intros w3 Hr3. by eapply wp_rely_state.
Qed.

Lemma wp_rcritical {A B} l (f : world -> B) (k : B -> proc A) post o h w :
  below l h ->
  (forall w1, rely o h w w1 -> state_ok w1 -> WP o h (k (f w1)) post w1) ->
  WP o h (bind (rcritical l f) k) post w.
Proof.
  intros Hb H. apply wp_call. unfold rcritical. apply wp_rlock; [done|]. intros w1 Hr1 _.
  apply wp_gets. intros w2 Hr2 Hs2.
  assert (Hr : rely o h w w2).
  { etransitivity; [exact Hr1|]. eapply rely_mono, Hr2. by right. }
  apply wp_runlock; [done|]. apply wp_ret. intros w3 Hr3. by eapply wp_rely_state, H.
Qed.

(** ** Steps on parts of the state *)

Lemma ctx_Err_ext w w' :
  parentCancelled w' = parentCancelled w -> serveCancelled w' = serveCancelled w ->
  ctx_Err w' = ctx_Err w.
Proof. unfold ctx_Err. by intros -> ->. Qed.

(** A step on one session that moves it forwards. *)
Definition moves (f : Session -> Session) (s : Session) : Prop :=
  session_le s (f s) /\ session_ok (f s) /\ goroutineWG (f s) = goroutineWG s.

Lemma upd_session_kept sid f w :
  state_ok w ->
  (forall s, heap w !! sid = Some s -> session_ok s -> moves f s) ->
  kept w (upd_session sid f w).
Proof.
  intros Hok Hf. split; try done. intros i. unfold workers. simpl.
  destruct (decide (i = sid)) as [->|].
  - rewrite lookup_alter_eq. destruct (heap w !! sid) as [s|] eqn:Hs; simpl; [|done].
    apply (Hf s); [done|]. by eapply st_sessions.
  - by rewrite lookup_alter_ne.
Qed.

Lemma upd_session_ok o h sid f w :
  state_ok w ->
  (forall s, heap w !! sid = Some s -> session_ok s -> moves f s) ->
  step_ok o h w (upd_session sid f w).
Proof.
  intros Hok Hf. pose proof (st_sessions _ Hok) as Hses.
  assert (Hle : heap_le (heap w) (alter f sid (heap w))).
  { intros i s Hs. destruct (decide (i = sid)) as [->|].
    - exists (f s). rewrite lookup_alter_eq, Hs. split; [done|]. apply (Hf s); [done|]. by eapply Hses.
    - exists s. by rewrite lookup_alter_ne. }
  pose proof (upd_session_kept sid f w Hok Hf) as Hkept. split.
  - split; simpl; try done; auto; try reflexivity.
    intros _ i Hi. by rewrite (kp_workers _ _ Hkept).
  - split; simpl; try apply Hok.
    + intros i Hi. apply lookup_alter_is_Some. by apply (st_queued _ Hok).
    + intros key i Hk. destruct (st_keys _ Hok _ _ Hk) as (s & Hs & Ha).
      destruct (Hle _ _ Hs) as (s' & ? & [Hc _ _ _ _ _ _ _]). exists s'. by rewrite Hc.
    + intros i s Hs. destruct (decide (i = sid)) as [->|].
      * rewrite lookup_alter_eq in Hs. apply fmap_Some in Hs as (s0 & Hs0 & ->).
        apply (Hf s0); [done|]. by eapply Hses.
      * rewrite lookup_alter_ne in Hs by done. by eapply Hses.
    + intros i. rewrite lookup_alter_is_Some. apply Hok.
  - intros pot _. by apply kept_pot.
Qed.

Lemma step_refl o h w : state_ok w -> step_ok o h w w.
Proof. intros. split; [apply disc_refl|done|done]. Qed.

Lemma on_session_upd {B} (nil : B) sid f w :
  snd (on_session nil sid f w) = upd_session sid (fun s => snd (f s)) w.
Proof.
  unfold on_session, upd_session. destruct (heap w !! sid) as [s|] eqn:Hs; simpl.
  - destruct (f s) as [b s'] eqn:Hf. unfold set. simpl. f_equal. apply map_eq. intros i.
    destruct (decide (i = sid)) as [->|].
    + rewrite lookup_insert_eq, lookup_alter_eq, Hs. simpl. by rewrite Hf.
    + by rewrite lookup_insert_ne, lookup_alter_ne.
  - destruct w. unfold set. simpl in *. f_equal. symmetry. apply map_eq. intros i.
    destruct (decide (i = sid)) as [->|]; [|by rewrite lookup_alter_ne].
    by rewrite lookup_alter_eq, Hs.
Qed.


Lemma on_session_ok {B} (nil : B) o h sid f w :
  state_ok w ->
  (forall s, heap w !! sid = Some s -> session_ok s -> moves (fun s => snd (f s)) s) ->
  step_ok o h w (snd (on_session nil sid f w)).
Proof. intros. rewrite on_session_upd. by apply upd_session_ok. Qed.

(** A step on the fields of the proxy, under [mu]. *)
Record px_step (o : coPset) (h : list (lockid * mode)) (hp : gmap nat Session) (p p' : Proxy) : Prop := PxStep {
  ps_options : options p' = options p;
  ps_timerWG : timerWG p' = timerWG p;
  ps_wg : wg p' = wg p;
  ps_shutdown : shuttingDown p' = shuttingDown p;
  ps_ready : backendReady p' = backendReady p \/ (ForwardingMu, Exclusive) ∈ h \/ tok TokServe ∈ o;
  ps_startup : startupRunning p' = startupRunning p /\ startupGeneration p' = startupGeneration p;
  ps_serve : dom (queues p') ⊆ dom (queues p) \/ tok TokServe ∈ o;
  ps_queued : forall sid, is_Some (queues p' !! sid) ->
    is_Some (queues p !! sid) \/ is_Some (hp !! sid);
  ps_buffers : buffers_ok p';
  ps_gate : backendReady p' = true -> queues p' = ∅ /\ shuttingDown p' = false }.

Lemma upd_px_ok o h f w :
  (Mu, Exclusive) ∈ h -> state_ok w -> px_step o h (heap w) (px w) (f (px w)) ->
  step_ok o h w (upd_px f w).
Proof.
  intros Hmu Hok [Ho Ht Hwg Hsd Hr [Hs1 Hs2] Hse Hq Hb Hg]. split.
  - split; simpl; try done; try reflexivity; try congruence.
    + intros [? ?]. naive_solver.
    + intros _ ?. right. split; congruence.
    + intros Hn. destruct Hse; [|done]. split; [done|]. by split.
    + intros _. rewrite Ht. lia.
  - split; simpl; try apply Hok; try done.
    + rewrite Ho. apply Hok.
    + intros sid Hsid. destruct (Hq _ Hsid); [by apply (st_queued _ Hok)|done].
    + intros Hr'. by apply Hg.
    + intros Hd. destruct (backendReady (f (px w))); [|done]. destruct (Hg eq_refl). congruence.
    + rewrite Ht. apply Hok.
  - intros pot _. by apply kept_pot.
Qed.

(** ** Neutral steps: no right is needed, so they are invisible to the discipline *)

Definition frame (w w' : world) : Prop :=
  disc True True True True True True (fun _ => True) w w' /\ kept w w'.

Lemma frame_guar o h w w' : frame w w' -> guar o h w w'.
Proof. intros [Hf _]. by eapply disc_mono, Hf. Qed.

Lemma frame_rely o h w w' : frame w w' -> rely o h w w'.
Proof. intros [Hf _]. by eapply disc_mono, Hf. Qed.

Lemma frame_pot w w' pot : frame w w' -> pot_ok w pot -> pot_ok w' pot.
Proof. intros [_ Hk]. by apply kept_pot. Qed.

Lemma upd_session_frame sid f w :
  state_ok w ->
  (forall s, heap w !! sid = Some s -> session_ok s -> moves f s) ->
  frame w (upd_session sid f w).
Proof.
  intros Hok Hf. destruct (upd_session_ok ∅ [] sid f w Hok Hf) as [[] _ _].
  pose proof (upd_session_kept sid f w Hok Hf) as Hk.
  split; [|done]. split; simpl in *; try done; auto.
Qed.

Lemma wp_neutral {A B} (f : world -> B * world) (k : B -> proc A) post o h w :
  (forall w1, rely o h w w1 -> state_ok w1 -> frame w1 (snd (f w1)) /\ state_ok (snd (f w1))) ->
  (forall w1, rely o h w w1 -> state_ok w1 -> rely o h w (snd (f w1)) ->
     WP o h (k (fst (f w1))) post (snd (f w1))) ->
  WP o h (bind (atomic f) k) post w.
Proof.
  intros Hf Hk. apply wp_atomic. intros w1 Hr Hs. destruct (Hf _ Hr Hs) as [Hfr Hs'].
  split.
  - split; [by apply frame_guar|done|]. intros pot _. by apply frame_pot.
  - apply Hk; [done|done|]. etransitivity; [exact Hr|]. by apply frame_rely.
Qed.

Lemma wp_upd_session {A} sid f (k : unit -> proc A) post o h w :
  (forall w1 s, rely o h w w1 -> state_ok w1 -> heap w1 !! sid = Some s -> session_ok s -> moves f s) ->
  (forall w1, rely o h w w1 -> state_ok w1 -> rely o h w (upd_session sid f w1) ->
     WP o h (k tt) post (upd_session sid f w1)) ->
  WP o h (bind (modify (upd_session sid f)) k) post w.
Proof.
  intros Hf Hk. apply wp_neutral; simpl; [|done]. intros w1 Hr Hs. split.
  - apply upd_session_frame; [done|]. eauto.
  - eapply (upd_session_ok ∅ []); [done|]. eauto.
Qed.

(** ** Automation *)

(** [rely] between two states linked by the hypotheses, the locks held and the tokens
    owned meanwhile including those of the goal. *)
Lemma rely_forget o o' h h' w w' : o ⊆ o' -> h ⊆ h' -> rely o' h' w w' -> rely o h w w'.
Proof.
  intros Ho Hs. apply disc_mono; auto.
  - intros [m Hm]. exists m. by apply Hs.
  - intros [[m Hm] ?]. split; [|by apply Ho]. exists m. by apply Hs.
Qed.

Lemma rely_step o o' h h' w w1 w2 :
  o ⊆ o' -> h ⊆ h' -> rely o' h' w1 w2 -> rely o h w w1 -> rely o h w w2.
Proof. intros Ho Hs H1 H2. etransitivity; [exact H2|]. by eapply rely_forget. Qed.

Lemma locks_cons (x : lockid * mode) h h' : h ⊆ h' -> h ⊆ x :: h'.
Proof. intros Hs y Hy. right. by apply Hs. Qed.

Ltac locks_sub :=
  first [reflexivity | apply list_subseteq_nil | apply locks_cons; locks_sub | assumption].

Ltac toks_sub := first [reflexivity | apply empty_subseteq | assumption].

Ltac rely_chain :=
  match goal with
  | |- rely _ _ ?w ?w => reflexivity
  | H : rely ?o' ?h' ?u ?w' |- rely ?o ?h ?w ?w' =>
      apply (rely_step o o' h h' w u w'); [toks_sub|locks_sub|exact H|rely_chain]
  end.

Lemma below_nil l : below l [].
Proof. intros x Hx. by apply elem_of_nil in Hx. Qed.

Lemma below_cons l x h : (rank (fst x) < rank l)%nat -> below l h -> below l (x :: h).
Proof. intros Hx Hh y. rewrite elem_of_cons. intros [->|Hy]; [done|by apply Hh]. Qed.

Lemma below_up l l' h : (rank l <= rank l')%nat -> below l h -> below l' h.
Proof. intros Hl Hh x Hx. specialize (Hh _ Hx). lia. Qed.

Ltac ranks :=
  first
    [ assumption
    | apply below_nil
    | apply below_cons; [simpl; lia|ranks]
    | match goal with
      | H : below ?l ?h |- below ?l' ?h => apply (below_up l l' h); [simpl; lia|exact H]
      end ].
