(* ===== verification/Tokens.v ===== *)
(** * Tokens: the accesses that exchange tokens with the pot

    A goroutine counted by [wg], or by the [goroutineWG] of a session, takes a token
    when it is counted and gives it back when it is counted out, so a wait group at
    zero means that no goroutine holds one. *)
From S2P Require Import Prelude Errors Conc World Session Store Proxy Invariant Buffers Rules.

Definition tokens (t : token) : coPset := {[tok t]}.

Lemma elem_of_tokens x t : x ∈ tokens t <-> x = tok t.
Proof. unfold tokens. by rewrite elem_of_singleton. Qed.

Lemma tokens_sub t o : tok t ∈ o -> tokens t ⊆ o.
Proof. by intros Ho x ->%elem_of_tokens. Qed.

Lemma tokens_ne t u : t <> u -> tok t ∉ tokens u.
Proof. intros Hne. rewrite elem_of_tokens. by intros ?%tok_inj. Qed.

Lemma tokens_in t : tok t ∈ tokens t.
Proof. by apply elem_of_tokens. Qed.

Lemma coPset_give (o pot t : coPset) : t ⊆ pot -> o ## pot ->
  o ∪ t ## pot ∖ t /\ (o ∪ t) ∪ (pot ∖ t) = o ∪ pot /\ t ## o /\ t ∪ o = o ∪ t.
Proof.
  intros Ht Hd. split; [set_solver|]. split; [|split; [set_solver|set_solver]].
  apply set_eq. intros x. rewrite !elem_of_union, elem_of_difference.
  destruct (decide (x ∈ t)); set_solver.
Qed.

Lemma coPset_return (o pot t : coPset) : o ## pot ->
  o ∖ t ## pot ∪ (o ∩ t) /\ (o ∖ t) ∪ (pot ∪ (o ∩ t)) = o ∪ pot.
Proof.
  intros Hd. split; [set_solver|]. apply set_eq. intros x.
  rewrite !elem_of_union, elem_of_difference, elem_of_intersection.
  destruct (decide (x ∈ t)); set_solver.
Qed.

Lemma tokens_hand t u o : tokens t ## o -> tok u ∉ o ->
  tokens t ∪ tokens u ## o /\ (tokens t ∪ tokens u) ∪ o = o ∪ tokens t ∪ tokens u.
Proof.
  intros Hd Hu. split.
  - apply disjoint_union_l. split; [done|]. by intros x ->%elem_of_tokens.
  - set_solver.
Qed.

Lemma tokens_one t o : tok t ∉ o -> tokens t ## o /\ tokens t ∪ o = o ∪ tokens t.
Proof. intros Hu. split; [by intros x ->%elem_of_tokens|set_solver]. Qed.

Lemma returned t (o pot : coPset) : tok t ∈ o -> tok t ∈ pot ∪ (o ∩ tokens t).
Proof. intros Ho. apply elem_of_union_r, elem_of_intersection. split; [done|apply tokens_in]. Qed.

Lemma not_in_pot t (o pot : coPset) : o ## pot -> tok t ∈ o -> tok t ∉ pot.
Proof. set_solver. Qed.

Lemma employed_mono o o' : o ⊆ o' -> employed o -> employed o'.
Proof. intros Hs [?|[n ?]]; [left; by apply Hs|right; exists n; by apply Hs]. Qed.

Lemma has_job_minus o t : (forall n, t <> TokJob n) -> has_job o -> has_job (o ∖ tokens t).
Proof.
  intros Ht [n Hn]. exists n. apply elem_of_difference. split; [done|]. apply tokens_ne.
  intros Heq. by apply (Ht n).
Qed.

Lemma size_0 (J : gset nat) : size J = 0%nat -> J = ∅.
Proof. intros Hs. by apply leibniz_equiv, size_empty_inv. Qed.

(** A goroutine that owns [TokServe] or a job knows that [Serve] has not returned. *)
Lemma serving w pot o : pot_ok w pot -> o ## pot -> employed o -> serveResult w = None.
Proof.
  intros (J & R & C & [P1 P2 P3 P4]) Hd He. destruct (serveResult w) as [r|] eqn:Hr; [|done].
  destruct (P4 ltac:(done)) as (_ & _ & _ & Hwg). destruct He as [Ho|[n Ho]];
    destruct (not_in_pot _ _ _ Hd Ho); apply P1; simpl; [congruence|].
  rewrite P2 in Hwg. assert (J = ∅) as -> by (apply size_0; lia). set_solver.
Qed.

Lemma job_counted w pot o n : pot_ok w pot -> o ## pot -> tok (TokJob n) ∈ o -> 1 <= wg (px w).
Proof.
  intros (J & R & C & [P1 P2 P3 P4]) Hd Ho. rewrite P2.
  destruct (decide (n ∈ J)) as [Hn|Hn]; [|by destruct (not_in_pot _ _ _ Hd Ho); apply P1].
  assert (size J <> 0%nat); [|lia]. intros E%size_0. set_solver.
Qed.

(** Before [shutdown], [Serve] has not returned. *)
Lemma pot_up w pot : pot_ok w pot -> shuttingDown (px w) = false -> serveResult w = None.
Proof.
  intros (J & R & C & [P1 P2 P3 P4]) Hsd. destruct (serveResult w); [|done].
  destruct (P4 ltac:(done)). congruence.
Qed.

(** A step that leaves the wait groups alone takes a reserved token, or gives one back. *)
Definition same_counts (w w' : world) : Prop :=
  serveResult w' = serveResult w /\ wg (px w') = wg (px w) /\ heap w' = heap w.

Lemma pot_take t w w' pot :
  pot_ok w pot -> shuttingDown (px w) = false -> same_counts w w' ->
  (forall J R C u, reserved w' J R C u -> u <> t /\ reserved w J R C u) ->
  pot_ok w' (pot ∖ tokens t).
Proof.
  intros Hpot Hsd (Hres & Hwg & Hh) Hr. pose proof (pot_up _ _ Hpot Hsd) as Hnone.
  destruct Hpot as (J & R & C & [P1 P2 P3 P4]). exists J, R, C. split.
  - intros u Hu. destruct (Hr _ _ _ _ Hu) as [Hne Hu']. apply elem_of_difference. split; [by apply P1|].
    by apply tokens_ne.
  - congruence.
  - intros sid. rewrite <- P3. unfold workers. by rewrite Hh.
  - congruence.
Qed.

Lemma pot_return t w w' pot o :
  pot_ok w pot -> tok t ∈ o -> same_counts w w' ->
  sessions w' = sessions w -> timerWG (px w') = timerWG (px w) ->
  (shuttingDown (px w) = true -> shuttingDown (px w') = true) ->
  (forall J R C u, u <> t -> reserved w' J R C u -> reserved w J R C u) ->
  pot_ok w' (pot ∪ (o ∩ tokens t)).
Proof.
  intros (J & R & C & [P1 P2 P3 P4]) Ho (Hres & Hwg & Hh) Hs Ht Hsd Hr. exists J, R, C. split.
  - intros u Hu. destruct (decide (u = t)) as [->|Hne]; [by apply returned|].
    apply elem_of_union_l, P1. by apply Hr.
  - congruence.
  - intros sid. rewrite <- P3. unfold workers. by rewrite Hh.
  - rewrite Hres, Hs, Ht, Hwg. intros Hn. destruct (P4 Hn) as (? & ?). auto.
Qed.

(** ** The wait group of the proxy *)

Definition count_wg (n : Z) (w : world) : world := upd_px (fun p => p <| wg := wg p + n |>) w.

Lemma count_wg_state n w : state_ok w -> state_ok (count_wg n w).
Proof. intros Hok. destruct (st_buffers _ Hok) as [B1 B2 B3]. split; simpl; try apply Hok. by split. Qed.

Lemma count_wg_disc a b c d e f g n w :
  (f -> wg (px w) <> 0) -> disc a b c d e f g w (count_wg n w).
Proof. intros Hf. split; simpl; try done; try reflexivity; auto. intros Hx Hz. by destruct (Hf Hx). Qed.

Lemma hire w pot o :
  pot_ok w pot -> o ## pot -> employed o -> exists n, tok (TokJob n) ∈ pot /\
    pot_ok (count_wg 1 w) (pot ∖ tokens (TokJob n)).
Proof.
  intros Hpot Hd He. pose proof (serving _ _ _ Hpot Hd He) as Hres.
  destruct Hpot as (J & R & C & [P1 P2 P3 P4]). set (n := fresh J).
  assert (Hn : n ∉ J) by apply is_fresh. exists n. split; [by apply P1|].
  exists ({[n]} ∪ J), R, C. split; [|simpl; rewrite P2, size_union, size_singleton by set_solver; lia|done|].
  - intros t Ht. apply elem_of_difference. split; [|].
    + apply P1. destruct t; simpl in *; auto. set_solver.
    + intros Heq%elem_of_tokens%tok_inj. subst t. simpl in Ht. set_solver.
  - simpl. congruence.
Qed.

Lemma fire w pot o n :
  pot_ok w pot -> o ## pot -> tok (TokJob n) ∈ o ->
  pot_ok (count_wg (-1) w) (pot ∪ (o ∩ tokens (TokJob n))).
Proof.
  intros Hpot Hd Ho.
  pose proof (serving _ _ _ Hpot Hd ltac:(right; by exists n)) as Hres.
  destruct Hpot as (J & R & C & [P1 P2 P3 P4]).
  destruct (decide (n ∈ J)) as [Hn|Hn]; [|by destruct (not_in_pot _ _ _ Hd Ho); apply P1].
  exists (J ∖ {[n]}), R, C. split; [| |done|simpl; congruence].
  - intros t Ht. destruct (decide (t = TokJob n)) as [->|Hne]; [by apply returned|].
    apply elem_of_union_l, P1. destruct t as [| | |m| |]; simpl in *; auto.
    intros Hm. apply Ht, elem_of_difference. split; [done|]. rewrite elem_of_singleton. congruence.
  - simpl. rewrite P2, size_difference, size_singleton by set_solver.
    assert (size J <> 0%nat); [|lia]. intros E%size_0. set_solver.
Qed.

Lemma employed_not_serve o w pot :
  pot_ok w pot -> o ## pot -> employed o -> tok TokServe ∉ o -> wg (px w) <> 0.
Proof. intros Hpot Hd [?|[n Hn]] Hs; [done|]. pose proof (job_counted _ _ _ _ Hpot Hd Hn). lia. Qed.

Lemma wp_hire {A} (k : unit -> proc A) post o r h w :
  employed o -> r ⊆ o -> tok TokServe ∉ r ->
  (forall w1 n, rely r h w w1 -> tok (TokJob n) ∉ o -> WP (o ∪ tokens (TokJob n)) h (k tt) post w1) ->
  WP o h (bind (add_wg 1) k) post w.
Proof.
  intros He Hro Hr Hk w1 xl pot [Hr1 Hv Hd [Hok Hpot]].
  destruct (hire _ _ _ Hpot Hd He) as (n & Hn & Hpot').
  split; [apply count_wg_disc; by eapply employed_not_serve|].
  destruct (coPset_give o pot (tokens (TokJob n)) (tokens_sub _ _ Hn) Hd) as (D1 & D2 & _).
  exists (o ∪ tokens (TokJob n)), (pot ∖ tokens (TokJob n)).
  split; [done|]. split; [done|]. split; [split; [by apply count_wg_state|done]|].
  apply Hk; [|intros Ho; by apply (not_in_pot _ _ _ Hd Ho)].
  etransitivity; [eapply rely_forget, Hr1; [done|reflexivity]|]. by apply count_wg_disc.
Qed.

Lemma count_wg_2 w : count_wg 1 (count_wg 1 w) = count_wg 2 w.
Proof.
  destruct w as [? ? ? ? ? ? ? ? ? ? ? []]. unfold count_wg, upd_px. simpl. unfold set. simpl.
  do 2 f_equal. lia.
Qed.

Lemma wp_hire2 {A} (k : unit -> proc A) post o h w :
  tok TokServe ∈ o ->
  (forall w1 n m, n <> m -> tok (TokJob n) ∉ o -> tok (TokJob m) ∉ o -> rely ∅ h w w1 ->
     WP (o ∪ tokens (TokJob n) ∪ tokens (TokJob m)) h (k tt) post w1) ->
  WP o h (bind (add_wg 2) k) post w.
Proof.
  intros Ho Hk w1 xl pot [Hr1 Hv Hd [Hok Hpot]].
  destruct (hire _ _ o Hpot Hd ltac:(by left)) as (n & Hn & Hpot1).
  destruct (coPset_give o pot (tokens (TokJob n)) (tokens_sub _ _ Hn) Hd) as (D1 & D2 & _).
  destruct (hire _ _ (o ∪ tokens (TokJob n)) Hpot1 D1 ltac:(left; set_solver)) as (m & Hm & Hpot2).
  destruct (coPset_give _ _ (tokens (TokJob m)) (tokens_sub _ _ Hm) D1) as (E1 & E2 & _).
  rewrite count_wg_2 in Hpot2. change (upd_px _ w1) with (count_wg 2 w1).
  split; [apply count_wg_disc; intros Hs; by destruct (Hs Ho)|].
  exists (o ∪ tokens (TokJob n) ∪ tokens (TokJob m)), (pot ∖ tokens (TokJob n) ∖ tokens (TokJob m)).
  split; [done|]. split; [congruence|]. split; [split; [by apply count_wg_state|done]|].
  apply Hk.
  - intros ->. apply elem_of_difference in Hm as [_ Hm]. apply Hm, tokens_in.
  - intros Hno. by apply (not_in_pot _ _ _ Hd Hno).
  - intros Hno. apply elem_of_difference in Hm as [Hm _]. by apply (not_in_pot _ _ _ Hd Hno).
  - etransitivity; [eapply rely_forget, Hr1; [apply empty_subseteq|reflexivity]|].
    apply count_wg_disc. set_solver.
Qed.

Lemma wp_fire {A} (k : unit -> proc A) post o n h w :
  tok (TokJob n) ∈ o ->
  (forall w1, WP (o ∖ tokens (TokJob n)) h (k tt) post w1) ->
  WP o h (bind (add_wg (-1)) k) post w.
Proof.
  intros Ho Hk w1 xl pot [Hr1 Hv Hd [Hok Hpot]]. change (upd_px _ w1) with (count_wg (-1) w1).
  split; [apply count_wg_disc; pose proof (job_counted _ _ _ _ Hpot Hd Ho); lia|].
  destruct (coPset_return o pot (tokens (TokJob n)) Hd) as [D1 D2].
  exists (o ∖ tokens (TokJob n)), (pot ∪ (o ∩ tokens (TokJob n))).
  split; [done|]. split; [done|]. split; [|done]. split; [by apply count_wg_state|]. by apply fire.
Qed.

(** ** The wait group of a session *)

Lemma add_goroutines_le n s : session_ok s ->
  session_le s (add_goroutines n s) /\ session_ok (add_goroutines n s).
Proof. intros []. by split. Qed.

Definition count_workers (sid : nat) (n : Z) (w : world) : world :=
  upd_session sid (add_goroutines n) w.

(** All of [upd_session_ok] but the count of the workers. *)
Lemma count_workers_ok a b c d e f g sid n w :
  state_ok w -> (f -> forall i, workers w i = 0 -> workers (count_workers sid n w) i = 0) ->
  disc a b c d e f g w (count_workers sid n w) /\ state_ok (count_workers sid n w).
Proof.
  intros Hok Hf. pose proof (st_sessions _ Hok) as Hses.
  assert (Hle : heap_le (heap w) (heap (count_workers sid n w))).
  { intros i s Hs. simpl. destruct (decide (i = sid)) as [->|].
    - exists (add_goroutines n s). rewrite lookup_alter_eq, Hs. split; [done|].
      apply add_goroutines_le. by eapply Hses.
    - exists s. by rewrite lookup_alter_ne. }
  split; [split; simpl; try done; auto; reflexivity|].
  split; simpl; try apply Hok.
  - intros i Hi. apply lookup_alter_is_Some. by apply (st_queued _ Hok).
  - intros key i Hk. destruct (st_keys _ Hok _ _ Hk) as (s & Hs & Ha).
    destruct (Hle _ _ Hs) as (s' & ? & []). exists s'. split; [done|]. congruence.
  - intros i s Hs. destruct (decide (i = sid)) as [->|].
    + rewrite lookup_alter_eq in Hs. apply fmap_Some in Hs as (s0 & Hs0 & ->).
      apply add_goroutines_le. by eapply Hses.
    + rewrite lookup_alter_ne in Hs by done. by eapply Hses.
  - intros i. rewrite lookup_alter_is_Some. apply Hok.
Qed.

Lemma workers_count sid n w i :
  is_Some (heap w !! sid) ->
  workers (count_workers sid n w) i = if decide (i = sid) then workers w sid + n else workers w i.
Proof.
  intros [s Hs]. unfold workers. simpl. case_decide; subst.
  - by rewrite lookup_alter_eq, Hs.
  - by rewrite lookup_alter_ne.
Qed.

Definition staff (sid : nat) : coPset := tokens (TokRead sid) ∪ tokens (TokCtx sid).

Lemma heap_le_some sid w w' :
  heap_le (heap w) (heap w') -> is_Some (heap w !! sid) -> is_Some (heap w' !! sid).
Proof. intros Hle [s Hs]. destruct (Hle _ _ Hs) as (s' & ? & _). by exists s'. Qed.

Lemma staff_pot sid w pot :
  pot_ok w pot -> serveResult w = None -> is_Some (heap w !! sid) -> workers w sid = 0 ->
  staff sid ⊆ pot /\ pot_ok (count_workers sid 2 w) (pot ∖ staff sid).
Proof.
  intros (J & R & C & [P1 P2 P3 P4]) Hres Hw Hz.
  assert (Hfree : sid ∉ R /\ sid ∉ C).
  { specialize (P3 sid). rewrite Hz in P3. repeat case_bool_decide; simpl in P3; try lia. done. }
  destruct Hfree as [HR HC]. split.
  { apply union_subseteq. split; apply tokens_sub; by apply P1. }
  exists J, ({[sid]} ∪ R), ({[sid]} ∪ C). split; [|done| |simpl; congruence].
  - intros t Ht. apply elem_of_difference. split.
    + apply P1. destruct t; simpl in *; auto; set_solver.
    + unfold staff. rewrite elem_of_union, !elem_of_tokens.
      intros [?%tok_inj|?%tok_inj]; subst t; simpl in Ht; set_solver.
  - intros i. rewrite workers_count by done. case_decide as Hi; [subst i|].
    + rewrite Hz, !bool_decide_eq_true_2 by set_solver. done.
    + rewrite P3. f_equal; f_equal; apply bool_decide_ext; set_solver.
Qed.

Lemma staff_split sid o : staff sid ## o ->
  tokens (TokRead sid) ## o ∪ tokens (TokCtx sid) /\
  tokens (TokRead sid) ∪ (o ∪ tokens (TokCtx sid)) = o ∪ staff sid /\
  tokens (TokCtx sid) ## o /\ tokens (TokCtx sid) ∪ o = o ∪ tokens (TokCtx sid).
Proof.
  unfold staff. intros Hd. assert (tokens (TokRead sid) ## tokens (TokCtx sid)).
  { intros x ->%elem_of_tokens ?%elem_of_tokens%tok_inj. done. }
  repeat split; set_solver.
Qed.

(** [NewSession] counts its two goroutines in. *)
Lemma wp_staff {A} sid (k : unit -> proc A) post o h w :
  tok TokServe ∈ o -> is_Some (heap w !! sid) -> workers w sid = 0 ->
  (forall w1, rely ∅ h w w1 -> staff sid ## o -> WP (o ∪ staff sid) h (k tt) post w1) ->
  WP o h (bind (modify (upd_session sid (add_goroutines 2))) k) post w.
Proof.
  intros Ho Hw Hz Hk w1 xl pot [Hr1 Hv Hd [Hok Hpot]].
  change (upd_session sid _ w1) with (count_workers sid 2 w1).
  pose proof (heap_le_some sid w w1 (di_heap _ _ _ _ _ _ _ _ _ Hr1) Hw) as Hw1.
  pose proof (di_workers _ _ _ _ _ _ _ _ _ Hr1 Ho _ Hz) as Hz1.
  destruct (staff_pot sid w1 pot) as [Hsub Hpot2]; [done|by eapply serving; [..|left]|done|done|].
  split; [apply count_workers_ok; [done|by intros Hn; destruct (Hn Ho)]|].
  destruct (coPset_give o pot (staff sid) Hsub Hd) as (D1 & D2 & D3 & _).
  exists (o ∪ staff sid), (pot ∖ staff sid). split; [done|]. split; [done|].
  split; [split; [by apply (count_workers_ok True True True True True False (fun _ => True))|done]|].
  apply Hk; [|done]. etransitivity; [eapply rely_forget, Hr1; [apply empty_subseteq|reflexivity]|].
  apply count_workers_ok; [done|]. set_solver.
Qed.

Lemma b2z_remove (sid i : nat) (X : gset nat) :
  Z.b2z (bool_decide (i ∈ X ∖ {[sid]})) = if decide (i = sid) then 0 else Z.b2z (bool_decide (i ∈ X)).
Proof.
  case_decide as Hi.
  - subst i. by rewrite bool_decide_eq_false_2 by set_solver.
  - f_equal. apply bool_decide_ext. set_solver.
Qed.

Lemma leave_pot t sid w pot o :
  t = TokRead sid \/ t = TokCtx sid -> pot_ok w pot -> o ## pot -> tok t ∈ o -> is_Some (heap w !! sid) ->
  pot_ok (count_workers sid (-1) w) (pot ∪ (o ∩ tokens t)) /\ workers w sid <> 0.
Proof.
  intros Ht (J & R & C & [P1 P2 P3 P4]) Hd Ho Hw.
  assert (Hret : forall (R' C' : gset nat),
    (forall i, i <> sid -> i ∉ R' -> i ∉ R) -> (forall i, i <> sid -> i ∉ C' -> i ∉ C) ->
    (t <> TokRead sid -> R' = R) -> (t <> TokCtx sid -> C' = C) ->
    forall u, reserved (count_workers sid (-1) w) J R' C' u -> tok u ∈ pot ∪ (o ∩ tokens t)).
  { intros R' C' HR HC ER EC u Hu. destruct (decide (u = t)) as [->|Hne]; [by apply returned|].
    apply elem_of_union_l, P1. destruct u as [| | | |i|i]; simpl in *; auto.
    - destruct (decide (i = sid)) as [->|]; [rewrite <- ER by congruence; done|by apply HR].
    - destruct (decide (i = sid)) as [->|]; [rewrite <- EC by congruence; done|by apply HC]. }
  assert (Hin : ~ reserved w J R C t) by (intros Hres; by destruct (not_in_pot _ _ _ Hd Ho (P1 _ Hres))).
  destruct Ht as [->| ->]; simpl in Hin; apply dec_stable in Hin; split.
  - exists J, (R ∖ {[sid]}), C. split; [|done| |done].
    + apply Hret; try done; set_solver.
    + intros i. rewrite workers_count, b2z_remove, !P3 by done. case_decide; [subst i|done].
      rewrite (bool_decide_eq_true_2 (sid ∈ R)) by done. simpl. lia.
  - rewrite P3, (bool_decide_eq_true_2 (sid ∈ R)) by done. case_bool_decide; simpl; lia.
  - exists J, R, (C ∖ {[sid]}). split; [|done| |done].
    + apply Hret; try done; set_solver.
    + intros i. rewrite workers_count, b2z_remove, !P3 by done. case_decide; [subst i|done].
      rewrite (bool_decide_eq_true_2 (sid ∈ C)) by done. simpl. lia.
  - rewrite P3, (bool_decide_eq_true_2 (sid ∈ C)) by done. case_bool_decide; simpl; lia.
Qed.

(** A goroutine of a session counts itself out. *)
Lemma wp_leave {A} t sid (k : unit -> proc A) post o h w :
  t = TokRead sid \/ t = TokCtx sid -> tok t ∈ o -> is_Some (heap w !! sid) ->
  (forall w1, WP (o ∖ tokens t) h (k tt) post w1) ->
  WP o h (bind (modify (upd_session sid (add_goroutines (-1)))) k) post w.
Proof.
  intros Ht Ho Hw Hk w1 xl pot [Hr1 Hv Hd [Hok Hpot]].
  change (upd_session sid _ w1) with (count_workers sid (-1) w1).
  pose proof (heap_le_some sid w w1 (di_heap _ _ _ _ _ _ _ _ _ Hr1) Hw) as Hw1.
  destruct (leave_pot _ _ _ _ _ Ht Hpot Hd Ho Hw1) as [Hpot2 Hpos].
  split.
  { apply count_workers_ok; [done|]. intros _ i. rewrite workers_count by done.
    by case_decide; [subst i|]. }
  destruct (coPset_return o pot (tokens t) Hd) as [D1 D2].
  exists (o ∖ tokens t), (pot ∪ (o ∩ tokens t)). split; [done|]. split; [done|]. split; [|done].
  split; [by apply (count_workers_ok True True True True True False (fun _ => True))|done].
Qed.

(** Starting a goroutine that takes the tokens [o1] over. *)
Lemma wp_go_with {A} t o1 o2 (k : unit -> proc A) post o h w :
  o1 ## o2 -> o1 ∪ o2 = o ->
  (forall w1, rely o h w w1 -> state_ok w1 -> pre t o1 w1 /\ WP o2 h (k tt) post w1) ->
  WP o h (bind (go t) k) post w.
Proof.
  intros Hd He H w1 xl pot [Hr Hv Hdp [Hs Hp]]. exists o1, o2. split; [done|]. split; [done|].
  by apply H.
Qed.
