(* ===== verification/SessionLogic.v ===== *)
(** * SessionLogic: the operations of a session under interference

    Whatever the other goroutines do, no operation of a session needs a lock or a
    token, a closed session records no activity, and a session whose resources have
    been released stays so. *)
From S2P Require Import Prelude Errors Conc World Session Store Proxy Invariant Buffers Rules.
From S2P Require Import Tokens.

Lemma touch_session_moves now s : session_ok s -> moves (fun s => snd (touch_session now s)) s.
Proof.
  intros Hs. unfold moves, touch_session. destruct (closed s) eqn:Hc; simpl.
  - split; [reflexivity|done].
  - destruct Hs. split; [|done]. split; simpl; try done. congruence.
Qed.

(** The session [sid] exists and satisfies [P], and so it will in every later state,
    [P] being about what sessions never undo. *)
Definition has_session (P : Session -> Prop) (sid : nat) (w : world) : Prop :=
  exists s, heap w !! sid = Some s /\ P s.

Lemma has_session_rely P sid o h w w' :
  (forall s s', session_le s s' -> P s -> P s') -> rely o h w w' ->
  has_session P sid w -> has_session P sid w'.
Proof.
  intros HP Hr (s & Hs & Hp). destruct (di_heap _ _ _ _ _ _ _ _ _ Hr _ _ Hs) as (s' & ? & ?).
  exists s'. eauto.
Qed.

Definition released (s : Session) : Prop :=
  closed s = true /\ ctxCancelled s = true /\ upstreamClosed s = true.

Lemma released_le s s' : session_le s s' -> released s -> released s'.
Proof. intros [] (? & ? & ?). split; [auto|]. split; auto. Qed.

(** The resources are released and [closeOnce] has run to its end. *)
Definition finished (s : Session) : Prop := released s /\ closeOnce s = OnceDone.

Lemma finished_le s s' : session_le s s' -> finished s -> finished s'.
Proof.
  intros Hle [Hr Ho]. split; [by eapply released_le|]. pose proof (sl_once _ _ Hle) as Hx.
  rewrite Ho in Hx. destruct (closeOnce s'); simpl in Hx; [lia|lia|done].
Qed.

Lemma wp_touch sid post o h w :
  (forall b w', rely o h w w' -> post b o h w') -> WP o h (touch sid) post w.
Proof.
  intros Hp. apply (wp_neutral _ Ret).
  - intros w1 Hr Hs. rewrite on_session_upd.
    split; [apply upd_session_frame|apply (upd_session_ok ∅ [])]; try done;
      intros s _; apply touch_session_moves.
  - intros w1 Hr Hs Hr'. apply wp_ret. intros w2 Hr2. apply Hp. by etransitivity.
Qed.

Lemma wp_RecordActivity sid post o h w :
  (forall r w', rely o h w w' -> post r o h w') -> WP o h (RecordActivity sid) post w.
Proof.
  intros Hp. apply wp_call, wp_touch. intros b w1 Hr. apply wp_ret. intros w2 Hr2.
  apply Hp. by etransitivity.
Qed.

Lemma once_running_moves s : closeOnce s = OnceNew -> session_ok s ->
  moves (fun s => s <| closeOnce := OnceRunning |>) s.
Proof.
  intros Ho [Hk1 Hk2 Hk3 Hk4].
  split; [|split; [|done]]; split; simpl; rewrite ?Ho; auto; try lia; try done.
  intros Hd. specialize (Hk4 Hd). congruence.
Qed.

Lemma once_done_moves s : released s -> session_ok s ->
  moves (fun s => s <| closeOnce := OnceDone |>) s.
Proof.
  intros (? & ? & ?) [Hk1 Hk2 Hk3 Hk4]. split; [|split; [|done]]; split; simpl; auto.
  destruct (closeOnce s); simpl; lia.
Qed.

(** [closeOnce.Do(f)]: when it returns, [f] has run to its end, so what [f] establishes
    for good holds, whoever ran it. *)
Lemma wp_closeOnce_Do sid f post o h w :
  is_Some (heap w !! sid) ->
  (forall w1 post', rely o h w w1 ->
     (forall w', rely o h w w' -> has_session released sid w' -> post' tt o h w') ->
     WP o h f post' w1) ->
  (forall w', rely o h w w' -> has_session finished sid w' -> post tt o h w') ->
  WP o h (closeOnce_Do sid f) post w.
Proof.
  intros [s0 Hs0] Hf Hp w1 xl pot [Hr Hv Hd [Hs Hpot]].
  destruct (di_heap _ _ _ _ _ _ _ _ _ Hr _ _ Hs0) as (s & Hh & _). rewrite Hh.
  pose proof (st_sessions _ Hs _ _ Hh) as Hsok. simpl in Hsok.
  destruct (closeOnce s) eqn:Ho; simpl; [|done|].
  - set (w2 := upd_session sid _ w1).
    assert (Hfr : frame w1 w2 /\ state_ok w2).
    { split; [apply upd_session_frame|eapply (upd_session_ok ∅ [])]; try done;
        intros s' Hs' Hok'; simplify_eq; by apply once_running_moves. }
    destruct Hfr as [Hfr Hs2]. split; [by apply frame_guar|].
    exists o, pot. split; [done|]. split; [done|]. split; [split; [done|by eapply frame_pot]|].
    assert (Hr2 : rely o h w w2) by (etransitivity; [exact Hr|by apply frame_rely]).
    apply wp_call. apply Hf; [done|]. intros w3 Hr3 Hrel.
    apply (wp_upd_session _ _ Ret).
    + intros w4 s4 Hr4 Hs4 Hh4 Hok4.
      destruct (has_session_rely released sid o h w3 w4 released_le Hr4 Hrel) as (s5 & ? & Hrl).
      simplify_eq. by apply once_done_moves.
    + intros w4 Hr4 Hs4 Hr5. apply wp_ret. intros w5 Hr6.
      destruct (has_session_rely released sid o h w3 w4 released_le Hr4 Hrel) as (s4 & Hh4 & Hrl).
      apply Hp; [rely_chain|]. eapply has_session_rely; [apply finished_le|exact Hr6|].
      exists (s4 <| closeOnce := OnceDone |>). simpl. rewrite lookup_alter_eq, Hh4. done.
  - split; [apply disc_refl|]. exists o, pot. split; [done|]. split; [done|].
    split; [by split|]. intros w2 Hr2. apply Hp; [rely_chain|].
    eapply has_session_rely; [apply finished_le|exact Hr2|]. exists s. split; [done|].
    split; [|done]. by apply (so_once _ Hsok).
Qed.

Lemma has_session_exists P sid w : has_session P sid w -> is_Some (heap w !! sid).
Proof. intros (s & ? & _). by exists s. Qed.

Lemma exists_rely sid o h w w' : rely o h w w' -> is_Some (heap w !! sid) -> is_Some (heap w' !! sid).
Proof.
  intros Hr [s Hs]. destruct (di_heap _ _ _ _ _ _ _ _ _ Hr _ _ Hs) as (s' & ? & _). by exists s'.
Qed.

Lemma closed_le s s' : session_le s s' -> closed s = true -> closed s' = true.
Proof. by intros []. Qed.

(** A session found in an earlier state is still there, and still released. *)
Ltac alive :=
  first
    [ eassumption
    | eapply has_session_exists; eassumption
    | match goal with
      | H : rely ?o ?h ?u ?w |- is_Some (heap ?w !! ?sid) => apply (exists_rely sid o h u w H); alive
      end ].

Ltac keeps :=
  first
    [ eassumption
    | match goal with
      | H : rely ?o ?h ?u ?w |- has_session ?P ?sid ?w =>
          apply (has_session_rely P sid o h u w); [|exact H|keeps];
          solve [exact finished_le | exact released_le | exact closed_le | done]
      end ].

(** One write to a session that moves it forwards, and what it establishes. *)
Lemma wp_session_write {A} (P P' : Session -> Prop) sid f (k : unit -> proc A) post o h w :
  (forall s s', session_le s s' -> P s -> P s') ->
  (forall s, P s -> session_ok s -> moves f s /\ P' (f s)) ->
  has_session P sid w ->
  (forall w', rely o h w w' -> has_session P' sid w' -> WP o h (k tt) post w') ->
  WP o h (bind (modify (upd_session sid f)) k) post w.
Proof.
  intros HP Hf Hw Hk. apply wp_upd_session.
  - intros w1 s Hr _ Hs Hok. destruct (has_session_rely P sid o h w w1 HP Hr Hw) as (s' & ? & ?).
    simplify_eq. by destruct (Hf s).
  - intros w1 Hr Hok Hr'. apply Hk; [done|].
    destruct (has_session_rely P sid o h w w1 HP Hr Hw) as (s' & Hs' & ?).
    exists (f s'). simpl. rewrite lookup_alter_eq, Hs'. split; [done|].
    apply Hf; [done|]. by eapply st_sessions.
Qed.

Lemma wp_closeSocket sid post o h w :
  has_session (fun s => closed s = true) sid w ->
  (forall w', rely o h w w' -> has_session released sid w' -> post tt o h w') ->
  WP o h (closeSocket sid) post w.
Proof.
  intros Hw Hp.
  apply (wp_session_write _ (fun s => closed s = true /\ ctxCancelled s = true) _ _ _ _ _ _ _ closed_le);
    [|done|].
  { intros s Hc []. split; [|done]. split; [by split|]. split; [|done]. split; simpl; naive_solver. }
  intros w1 Hr1 Hw1.
  apply (wp_session_write (fun s => closed s = true /\ ctxCancelled s = true) released _ _ Ret); [..|done|].
  { intros s s' [] []. auto. }
  { intros s [? ?] []. split; [|done]. split; [by split|]. split; [|done]. split; simpl; naive_solver. }
  intros w2 Hr2 Hw2. apply wp_ret. intros w3 Hr3. apply Hp; [rely_chain|].
  keeps.
Qed.

(** When [closeResources] returns the session is closed, its context cancelled and its
    socket closed, whichever goroutine did it. *)
Lemma wp_closeResources sid post o h w :
  is_Some (heap w !! sid) ->
  (forall w', rely o h w w' -> has_session finished sid w' -> post tt o h w') ->
  WP o h (closeResources sid) post w.
Proof.
  intros Hw Hp. apply wp_closeOnce_Do; [done| |done]. intros w1 post' Hr1 Hpost'.
  apply (wp_session_write (fun _ => True) (fun s => closed s = true)); [done| |..].
  - intros s _ []. split; [|done]. split; [by split|]. split; [|done]. split; simpl; naive_solver.
  - destruct (exists_rely sid o h w w1 Hr1 Hw) as [s Hs]. by exists s.
  - intros w2 Hr2 Hw2. apply wp_closeSocket; [done|]. intros w3 Hr3. apply Hpost'. rely_chain.
Qed.

Lemma wp_ForwardClient sid data post o h w :
  is_Some (heap w !! sid) ->
  (forall w', rely o h w w' -> allowed _ (QWrite sid data) o h w') ->
  (forall r w', rely o h w w' -> post r o h w') ->
  WP o h (ForwardClient sid data) post w.
Proof.
  intros Hw Ha Hp. apply wp_call, wp_RecordActivity. intros r w1 Hr1.
  destruct r as [err|]; [apply wp_ret; intros; apply Hp; rely_chain|].
  apply wp_ask. intros w2 Hr2 _. split; [apply Ha; rely_chain|]. intros written.
  destruct written as [err|]; [|apply wp_ret; intros; apply Hp; rely_chain].
  apply wp_gets. intros w3 Hr3 _. destruct (match heap w3 !! sid with Some s => closed s | None => true end).
  - apply wp_ret; intros; apply Hp; rely_chain.
  - apply wp_call, wp_closeResources.
    + alive.
    + intros w4 Hr4 _. apply wp_ret; intros; apply Hp; rely_chain.
Qed.

Lemma expire_session_moves cutoff s :
  session_ok s -> moves (fun s => snd (expire_session cutoff s)) s.
Proof.
  intros Hs. unfold moves, expire_session.
  destruct (closed s) eqn:Hc; simpl; [split; [reflexivity|done]|].
  destruct (negb _); simpl; [split; [reflexivity|done]|].
  destruct Hs as [H1 H2 H3 H4]. split; [|split; [|done]]; split; simpl; try congruence; auto.
  intros Ho. destruct (H3 Ho). auto.
Qed.

Lemma wp_TryExpire sid cutoff post o h w :
  is_Some (heap w !! sid) ->
  (forall b w', rely o h w w' -> (b = true -> has_session finished sid w') -> post b o h w') ->
  WP o h (TryExpire sid cutoff) post w.
Proof.
  intros Hw Hp. apply wp_neutral.
  - intros w1 Hr Hs. rewrite on_session_upd.
    split; [apply upd_session_frame|apply (upd_session_ok ∅ [])]; try done;
      intros s _; apply expire_session_moves.
  - intros w1 Hr Hs Hr'. destruct (exists_rely sid o h w w1 Hr Hw) as [s Hh].
    unfold on_session in *. rewrite Hh in *.
    destruct (expire_session cutoff s) as [[] s'] eqn:He; cbn [fst snd] in *.
    + set (w2 := w1 <| heap := _ |>) in *.
      assert (Hc : has_session (fun s => closed s = true) sid w2).
      { exists s'. simpl. rewrite lookup_insert_eq. split; [done|].
        unfold expire_session in He. by destruct (_ || _); simplify_eq/=. }
      apply wp_call, wp_closeOnce_Do; [by eapply has_session_exists| |].
      * intros w3 post' Hr3 Hp3. apply wp_closeSocket.
        -- keeps.
        -- intros w4 Hr4. apply Hp3. rely_chain.
      * intros w3 Hr3 Hrel. apply wp_ret. intros w4 Hr4. apply Hp; [rely_chain|].
        intros _. keeps.
    + apply wp_ret. intros w2 Hr2. apply Hp; [rely_chain|done].
Qed.

Lemma wp_Close sid post o h w :
  is_Some (heap w !! sid) ->
  (forall w', rely o h w w' -> has_session finished sid w' -> post None o h w') ->
  WP o h (Close sid) post w.
Proof.
  intros Hw Hp. apply wp_call, wp_closeResources; [done|]. intros w1 Hr1 Hrel.
  apply wp_await. intros w2 Hr2 _ _. apply wp_ret. intros w3 Hr3. apply Hp; [rely_chain|].
  keeps.
Qed.

Lemma heap_fresh w : state_ok w -> heap w !! nextSession w = None.
Proof.
  intros Hok. destruct (heap w !! nextSession w) eqn:E; [|done].
  pose proof (st_fresh _ Hok _ (mk_is_Some _ _ E)). lia.
Qed.

Lemma alloc_session_heap_le client maxp w :
  state_ok w -> heap_le (heap w) (heap (snd (alloc_session client maxp w))).
Proof.
  intros Hok sid s Hs. exists s. simpl. rewrite lookup_insert_ne; [by split|].
  intros <-. by rewrite heap_fresh in Hs.
Qed.

Lemma alloc_session_workers client maxp w i :
  state_ok w -> workers (snd (alloc_session client maxp w)) i = workers w i.
Proof.
  intros Hok. unfold workers. simpl. destruct (decide (i = nextSession w)) as [->|].
  - by rewrite lookup_insert_eq, heap_fresh.
  - by rewrite lookup_insert_ne.
Qed.

Lemma alloc_session_ok client maxp o h w :
  tok TokServe ∈ o -> state_ok w -> step_ok o h w (snd (alloc_session client maxp w)).
Proof.
  intros Ho Hok. pose proof (alloc_session_heap_le client maxp w Hok) as Hle.
  pose proof (fun i => alloc_session_workers client maxp w i Hok) as Hw. split.
  - split; simpl; try done; auto.
  - split; simpl; try apply Hok.
    + intros sid Hsid. apply lookup_insert_is_Some'. right. by apply (st_queued _ Hok).
    + intros key sid Hk. destruct (st_keys _ Hok _ _ Hk) as (s & Hs & <-).
      destruct (Hle _ _ Hs) as (s' & ? & []). exists s'. split; [done|]. congruence.
    + apply map_Forall_insert_2; [by split|apply Hok].
    + intros sid. rewrite lookup_insert_is_Some. intros [<-|[_ Hs]]; [lia|].
      pose proof (st_fresh _ Hok _ Hs). lia.
  - intros pot _. by apply kept_pot.
Qed.

(** A step of [Serve] that changes no field of the proxy looks to the others like one
    that took no lock. *)
Lemma alloc_session_rely client maxp h w :
  state_ok w -> rely ∅ h w (snd (alloc_session client maxp w)).
Proof.
  intros Hok. pose proof (alloc_session_heap_le client maxp w Hok) as Hle.
  split; simpl; try done; auto.
Qed.

Definition client_of (client : UDPAddr) (s : Session) : Prop := clientAddr s = client.

Lemma client_le client s s' : session_le s s' -> client_of client s -> client_of client s'.
Proof. unfold client_of. intros []. congruence. Qed.

Lemma wp_NewSession options post o h w :
  tok TokServe ∈ o ->
  (forall r w', rely ∅ h w w' ->
     (forall sid, r = (Some sid, None) ->
        exists client, so_ClientAddr options = Some client /\ has_session (client_of client) sid w') ->
     post r o h w') ->
  WP o h (NewSession options) post w.
Proof.
  intros Ho Hp. unfold NewSession.
  destruct (so_ClientAddr options) as [client|] eqn:Hc;
    [|apply wp_ret; intros; apply Hp; [rely_chain|done]].
  destruct (so_BackendAddr options), (so_PublicConn options);
    try (apply wp_ret; intros; apply Hp; [rely_chain|done]).
  case_bool_decide; [apply wp_ret; intros; apply Hp; [rely_chain|done]|].
  apply wp_ask. intros w1 Hr1 _. split; [by left|]. intros [err|];
    [apply wp_ret; intros; apply Hp; [rely_chain|done]|].
  apply wp_atomic. intros w2 Hr2 Hok2. split; [by apply alloc_session_ok|].
  pose proof (alloc_session_rely client (so_MaxPacketSize options) h w2 Hok2) as Hr2'.
  assert (Hs : has_session (client_of client) (nextSession w2)
                 (snd (alloc_session client (so_MaxPacketSize options) w2))).
  { unfold has_session. simpl. rewrite lookup_insert_eq. by eexists. }
  change (fst (alloc_session _ _ w2)) with (nextSession w2).
  assert (Hz : workers (snd (alloc_session client (so_MaxPacketSize options) w2)) (nextSession w2) = 0).
  { rewrite alloc_session_workers by done. unfold workers. by rewrite heap_fresh. }
  revert Hz.
  generalize dependent (snd (alloc_session client (so_MaxPacketSize options) w2)).
  generalize (nextSession w2). intros sid w3 Hr3 Hs.
  intros Hz. apply wp_call, wp_touch. intros _ w4 Hr4. apply (wp_staff sid); [done|alive| |].
  { apply (di_workers _ _ _ _ _ _ _ _ _ Hr4); done. }
  intros w5 Hr5 Hfree. destruct (staff_split _ _ Hfree) as (D1 & D2 & D3 & D4).
  eapply wp_go_with; [exact D1|exact D2|]. intros w6 Hr6 _. split; [split; [apply tokens_in|alive]|].
  eapply wp_go_with; [exact D3|exact D4|]. intros w7 Hr7 _. split; [split; [apply tokens_in|alive]|].
  assert (o ⊆ o ∪ tokens (TokCtx sid)) by set_solver.
  apply wp_ret. intros w8 Hr8. apply Hp; [rely_chain|]. intros sid' [= <-]. exists client.
  split; [done|].
  assert (Hr : rely ∅ h w3 w8) by rely_chain.
  eapply has_session_rely; [apply client_le|exact Hr|done].
Qed.

Lemma wp_readBackend_exit sid post o h w :
  tok (TokRead sid) ∈ o -> is_Some (heap w !! sid) ->
  (forall o' w', post tt o' h w') -> WP o h (readBackend_exit sid) post w.
Proof.
  intros Ho Hw Hp. apply wp_call, wp_closeResources; [done|]. intros w1 Hr1 Hfin.
  apply (wp_session_write finished finished); [exact finished_le| |done|].
  - intros s [Hrl Hos] []. split; [|done]. split; [by split|]. split; [|done]. by split.
  - intros w2 Hr2 Hfin2. apply (wp_leave (TokRead sid) _ Ret); [by left|done|alive|].
    intros w3. by apply wp_ret.
Qed.

Lemma wp_readBackend sid post o h w :
  tok (TokRead sid) ∈ o -> is_Some (heap w !! sid) ->
  (forall w', rely o h w w' -> post true o h w') -> (forall o' w', post false o' h w') ->
  WP o h (readBackend sid) post w.
Proof.
  intros Ho Hw Hp Hp'. unfold readBackend.
  assert (Hexit : forall w1, rely o h w w1 ->
    WP o h (readBackend_exit sid;;; Ret false) post w1).
  { intros w1 Hr1. apply wp_call, wp_readBackend_exit; [done|alive|]. intros o' w2. by apply wp_ret. }
  apply wp_gets. intros w1 Hr1 _. apply wp_ask. intros w2 Hr2 _. split; [done|].
  intros [payload [err|]]; [apply Hexit; rely_chain|].
  destruct (recv_msg _ payload) as [data truncated].
  destruct (_ || truncated); [apply wp_ret; intros; apply Hp; rely_chain|].
  apply wp_call, wp_touch. intros alive w3 Hr3. destruct (negb alive); [apply Hexit; rely_chain|].
  apply wp_ask. intros w4 Hr4 _. split; [done|].
  intros [err|]; [apply Hexit; rely_chain|]. apply wp_ret. intros. apply Hp; rely_chain.
Qed.

Lemma wp_watchContext sid post o h w :
  tok (TokCtx sid) ∈ o -> is_Some (heap w !! sid) ->
  (forall o' w', post tt o' h w') -> WP o h (watchContext sid) post w.
Proof.
  intros Ho Hw Hp w1 xl pot [Hr Hv Hd [Hs Hpot]].
  unfold watchContext_ready. destruct (heap w1 !! sid) as [s|] eqn:Hh; [|done].
  destruct (_ || doneClosed s); [|done].
  split; [apply disc_refl|]. exists o, pot. split; [done|]. split; [done|]. split; [by split|].
  assert (Hend : forall w3, rely o h w w3 ->
    WP o h (modify (upd_session sid (add_goroutines (-1)))) post w3).
  { intros w3 Hr3. apply (wp_leave (TokCtx sid) _ Ret); [by right|done|alive|].
    intros w4. by apply wp_ret. }
  assert (Hrest : forall (b : bool) w2, rely o h w1 w2 ->
    WP o h ((if b then closeResources sid else Ret tt);;; modify (upd_session sid (add_goroutines (-1))))
      post w2).
  { intros [] w2 Hr2; apply wp_call.
    - apply wp_closeResources; [alive|]. intros w3 Hr3 _. apply Hend. rely_chain.
    - apply wp_ret. intros w3 Hr3. apply Hend. rely_chain. }
  apply wp_call, wp_ret. intros w2' Hr2'.
  apply wp_call. match goal with |- context [if ?b then ask QEither else _] => destruct b end.
  - apply (wp_ask _ Ret). intros w2 Hr2 _. split; [done|]. intros b. apply wp_ret. intros w3 Hr3.
    apply Hrest. rely_chain.
  - apply wp_ret. intros w2 Hr2. apply Hrest. rely_chain.
Qed.
