(* ===== verification/StoreLogic.v ===== *)
(** * StoreLogic: the operations of the session table under interference

    The table never exceeds its capacity, it only grows by [GetOrCreate] under
    [admissionMu], and every operation that takes a session out of it has released
    the session's resources when it returns. *)
From S2P Require Import Prelude Errors Conc World Session Store Proxy Invariant Buffers Rules.
From S2P Require Import Tokens SessionLogic.

Lemma below_not_held l m h : below l h -> (l, m) ∉ h.
Proof. apply below_not_in. Qed.

(** ** Steps on the table *)

Definition shrink (m : gmap string nat) (w : world) : world := w <| sessions := m |>.

Lemma shrink_ok o h m w :
  m ⊆ sessions w -> state_ok w -> step_ok o ((StoreMu, Exclusive) :: h) w (shrink m w).
Proof.
  intros Hm Hok. split.
  - split; simpl; try done; try reflexivity; auto.
    intros []. by left.
  - split; simpl; try apply Hok.
    + pose proof (st_capacity _ Hok) as Hc. unfold store_len in *. simpl.
      pose proof (map_subseteq_size _ _ Hm). lia.
    + intros key sid Hk. eapply (st_keys _ Hok). by eapply lookup_weaken.
  - intros pot _. by apply kept_pot.
Qed.

Lemma shrink_rely o h m w :
  m ⊆ sessions w -> below StoreMu h -> rely o h w (shrink m w).
Proof.
  intros Hm Hb. split; simpl; try done; try reflexivity; auto.
  intros [m' Hin]. by apply below_not_held in Hin.
Qed.

Lemma set_session_ok o h key sid w :
  (AdmissionMu, Exclusive) ∈ h -> (StoreMu, Exclusive) ∈ h -> tok TokServe ∈ o ->
  state_ok w -> store_len w < storeMax w -> sessions w !! key = None ->
  has_session (fun s => addr_String (clientAddr s) = key) sid w ->
  step_ok o h w (set_session key sid w).
Proof.
  intros Ha Hst Ho Hok Hlt Hnone (s & Hs & Hk). split.
  - split; simpl; try done; try reflexivity; auto.
  - split; simpl; try apply Hok.
    + unfold store_len in *. simpl. rewrite map_size_insert_None by done. lia.
    + intros key' sid'. rewrite lookup_insert_Some. intros [[<- <-]|[_ Hk']]; [by eauto|].
      by eapply (st_keys _ Hok).
  - intros pot Hd Hpot. pose proof (serving _ _ _ Hpot Hd ltac:(by left)) as Hres.
    destruct Hpot as (J & R & C & [P1 P2 P3 P4]). exists J, R, C. split; try done.
Qed.

Lemma set_session_rely key sid w : rely ∅ [] w (set_session key sid w).
Proof.
  split; simpl; try done; try reflexivity; auto.
  - intros Hin. by apply elem_of_nil in Hin.
  - intros [m Hin]. by apply elem_of_nil in Hin.
Qed.

Lemma rely_sessions_store o h m w w' :
  (StoreMu, m) ∈ h -> rely o h w w' -> sessions w' = sessions w.
Proof. intros Hin Hr. apply (di_store _ _ _ _ _ _ _ _ _ Hr). eauto. Qed.

Lemma rely_sessions_admission o h w w' :
  (AdmissionMu, Exclusive) ∈ h -> rely o h w w' ->
  sessions w' ⊆ sessions w /\ shuttingDown (px w') = shuttingDown (px w).
Proof. intros Hin Hr. by apply (di_admission _ _ _ _ _ _ _ _ _ Hr). Qed.

Lemma rely_max o h w w' : rely o h w w' -> storeMax w' = storeMax w.
Proof. apply di_max. Qed.

(** ** Operations *)

Lemma wp_Get key post o h w :
  below StoreMu h ->
  (forall r w', rely o h w w' -> (forall sid, r = Some sid -> is_Some (heap w' !! sid)) -> post r o h w') ->
  WP o h (Get key) post w.
Proof.
  intros Hb Hp. apply (wp_rcritical _ _ Ret); [done|]. intros w1 Hr1 Hok. apply wp_ret.
  intros w2 Hr2. apply Hp; [rely_chain|]. intros sid Hs.
  destruct (st_keys _ Hok _ _ Hs) as (s & ? & _).
  eapply exists_rely; [exact Hr2|]. by exists s.
Qed.

Lemma wp_Len post o h w :
  below StoreMu h ->
  (forall w1 w2, rely o h w w1 -> state_ok w1 -> rely o h w1 w2 -> post (store_len w1) o h w2) ->
  WP o h Len post w.
Proof.
  intros Hb Hp. apply (wp_rcritical _ _ Ret); [done|]. intros w1 Hr1 Hok. apply wp_ret.
  intros w2 Hr2. by apply (Hp w1).
Qed.

Lemma wp_GetOrCreate client o h post key options w :
  below StoreMu h -> (AdmissionMu, Exclusive) ∈ h -> tok TokServe ∈ o ->
  so_ClientAddr options = Some client -> addr_String client = key ->
  (forall sid created count err w', rely ∅ [] w w' ->
     (forall s, sid = Some s -> is_Some (heap w' !! s)) -> post (sid, created, count, err) o h w') ->
  WP o h (GetOrCreate key (NewSession options)) post w.
Proof.
  intros Hb Ha Ho Hc Hk Hp. unfold GetOrCreate. apply wp_lock; [done|]. intros w1 Hr1 _.
  apply wp_gets. intros w2 Hr2 Hok2. apply wp_gets. intros w3 Hr3 Hok3. apply wp_gets. intros w4 Hr4 Hok4.
  set (h' := (StoreMu, Exclusive) :: h) in *.
  assert (Hin : (StoreMu, Exclusive) ∈ h') by by left.
  assert (Hend : forall r w', rely ∅ [] w w' ->
    (forall s, r.1.1.1 = Some s -> is_Some (heap w' !! s)) ->
    WP o h' (unlock StoreMu;;; Ret r) post w').
  { intros [[[sid created] count] err] w' Hr' Hs. apply wp_unlock; [done|]. apply wp_ret.
    intros w'' Hr''. apply Hp; [rely_chain|]. intros s Hsid. specialize (Hs _ Hsid). alive. }
  apply wp_call. destruct (sessions w2 !! key) as [sid|] eqn:He.
  { apply wp_ret. intros w5 Hr5. apply Hend; [rely_chain|]. intros s [= <-].
    destruct (st_keys _ Hok2 _ _ He) as (s & Hs & _). assert (is_Some (heap w2 !! sid)) by by exists s.
    alive. }
  case_bool_decide as Hcap; [apply wp_ret; intros w5 Hr5; apply Hend; [rely_chain|done]|].
  apply wp_call, wp_NewSession; [done|]. intros [created err] w5 Hr5 Hnew.
  destruct err as [err|]; [apply wp_ret; intros w6 Hr6; apply Hend; [rely_chain|done]|].
  destruct created as [sid|]; [|apply wp_ret; intros w6 Hr6; apply Hend; [rely_chain|done]].
  destruct (Hnew _ eq_refl) as (client' & Hc' & Hs). rewrite Hc in Hc'. injection Hc' as <-. subst key.
  apply wp_modify. intros w6 Hr6 Hok6.
  assert (H36 : rely ∅ h' w3 w6) by rely_chain. assert (H26 : rely ∅ h' w2 w6) by rely_chain.
  assert (Hs6 : has_session (client_of client) sid w6).
  { eapply has_session_rely; [apply client_le|exact Hr6|done]. }
  split.
  { apply set_session_ok; try done; [by right| | |].
    - unfold store_len in *. rewrite (rely_sessions_store _ _ _ _ _ Hin H36).
      rewrite (rely_max _ _ _ _ H36), <- (rely_max _ _ _ _ Hr4). lia.
    - by rewrite (rely_sessions_store _ _ _ _ _ Hin H26).
    - destruct Hs6 as (s & ? & Hcl). exists s. split; [done|]. by rewrite Hcl. }
  pose proof (set_session_rely (addr_String client) sid w6) as Hr7.
  assert (Hex : is_Some (heap (set_session (addr_String client) sid w6) !! sid)).
  { by eapply has_session_exists. }
  set (w7 := set_session _ _ _) in *.
  apply wp_gets. intros w8 Hr8 _. apply wp_ret. intros w9 Hr9. apply Hend; [rely_chain|].
  intros s [= <-]. alive.
Qed.

Lemma wp_Remove key sid post o h w :
  below StoreMu h ->
  (forall removed count err w', rely o h w w' ->
     (removed = true -> has_session finished sid w') -> post (removed, count, err) o h w') ->
  WP o h (Remove key sid) post w.
Proof.
  intros Hb Hp. apply wp_critical; [done|]. intros w1 Hr1 Hok1. unfold remove_session.
  case_bool_decide as He; cbn [fst snd].
  - assert (Hsub : delete key (sessions w1) ⊆ sessions w1) by apply delete_subseteq.
    split; [by apply shrink_ok|]. destruct (st_keys _ Hok1 _ _ He) as (s & Hs & _).
    pose proof (shrink_rely o h _ _ Hsub Hb) as Hr2. fold (delete_session key w1) in Hr2.
    assert (is_Some (heap w1 !! sid)) by by exists s.
    apply wp_call, wp_Close; [alive|]. intros w2 Hr3 Hfin. apply wp_ret. intros w3 Hr4.
    apply Hp; [rely_chain|]. intros _. keeps.
  - split; [by apply step_refl|]. apply wp_ret. intros w2 Hr2. apply Hp; [rely_chain|done].
Qed.

(** Every session of [l] exists. *)
Definition all_alive (l : list nat) (w : world) : Prop :=
  forall sid, sid ∈ l -> is_Some (heap w !! sid).

Lemma all_alive_rely l o h w w' : rely o h w w' -> all_alive l w -> all_alive l w'.
Proof. intros Hr Hl sid Hin. specialize (Hl _ Hin). alive. Qed.

Definition all_finished (l : list nat) (w : world) : Prop :=
  forall sid, sid ∈ l -> has_session finished sid w.

Lemma all_finished_rely l o h w w' : rely o h w w' -> all_finished l w -> all_finished l w'.
Proof. intros Hr Hl sid Hin. specialize (Hl _ Hin). keeps. Qed.

Lemma wp_close_each l : forall result post o h w,
  all_alive l w ->
  (forall r w', rely o h w w' -> all_finished l w' -> post r o h w') ->
  WP o h (close_each l result) post w.
Proof.
  induction l as [|sid l IH]; intros result post o h w Hl Hp; cbn [close_each].
  - apply wp_ret. intros w1 Hr1. apply Hp; [done|]. intros sid Hin. by apply elem_of_nil in Hin.
  - apply wp_call, wp_Close; [apply Hl; by left|]. intros w1 Hr1 Hfin. apply IH.
    + intros sid' Hin. assert (is_Some (heap w !! sid')) by (apply Hl; by right). alive.
    + intros r w2 Hr2 Hall. apply Hp; [rely_chain|]. intros sid'.
      rewrite elem_of_cons. intros [->|Hin]; [keeps|by apply Hall].
Qed.

Lemma wp_expire_each cutoff keys : forall toClose post o h w,
  below StoreMu h -> all_alive toClose w ->
  (forall l w', rely o h w w' -> all_alive l w' -> post l o ((StoreMu, Exclusive) :: h) w') ->
  WP o ((StoreMu, Exclusive) :: h) (expire_each cutoff keys toClose) post w.
Proof.
  induction keys as [|key keys IH]; intros toClose post o h w Hb Hl Hp.
  - apply wp_ret. intros w1 Hr1. apply Hp; [rely_chain|]. by eapply all_alive_rely.
  - apply wp_gets. intros w1 Hr1 Hok1.
    assert (Hskip : forall w2, rely o h w w2 ->
      WP o ((StoreMu, Exclusive) :: h) (expire_each cutoff keys toClose) post w2).
    { intros w2 Hr2. apply IH; [done|by eapply all_alive_rely|]. intros l w3 Hr3. apply Hp. rely_chain. }
    destruct (sessions w1 !! key) as [sid|] eqn:He; [|apply Hskip; rely_chain].
    destruct (st_keys _ Hok1 _ _ He) as (s & Hs & _). assert (is_Some (heap w1 !! sid)) by by exists s.
    apply wp_call, wp_TryExpire; [done|]. intros b w2 Hr2 Hfin.
    destruct b; [|apply Hskip; rely_chain].
    apply wp_modify. intros w3 Hr3 Hok3.
    assert (Hsub : delete key (sessions w3) ⊆ sessions w3) by apply delete_subseteq.
    split; [by apply shrink_ok|].
    pose proof (shrink_rely o h _ _ Hsub Hb) as Hr4. fold (delete_session key w3) in Hr4.
    apply IH; [done| |].
    + intros sid'. rewrite elem_of_app, list_elem_of_singleton. intros [Hin| ->]; [|alive].
      assert (is_Some (heap w !! sid')) by by apply Hl. alive.
    + intros l w5 Hr5. apply Hp. rely_chain.
Qed.

Lemma wp_ExpireIdle cutoff post o h w :
  below StoreMu h ->
  (forall r w', rely o h w w' -> post r o h w') ->
  WP o h (ExpireIdle cutoff) post w.
Proof.
  intros Hb Hp. apply wp_lock; [done|]. intros w1 Hr1 _. apply wp_gets. intros w2 Hr2 _.
  apply wp_ask. intros w3 Hr3 _. split; [done|]. intros answer.
  apply wp_call, wp_expire_each; [done|intros sid Hin; by apply elem_of_nil in Hin|].
  intros l w4 Hr4 Hl. apply wp_gets. intros w5 Hr5 _. apply wp_unlock; [done|].
  apply wp_call, wp_close_each; [by eapply all_alive_rely|]. intros r w6 Hr6 _.
  apply wp_ret. intros w7 Hr7. apply Hp. rely_chain.
Qed.

Lemma take_sessions_alive answer w :
  state_ok w -> all_alive (fst (take_sessions answer w)) w.
Proof.
  intros Hok sid. simpl. rewrite list_elem_of_omap. intros (key & _ & Hk).
  destruct (st_keys _ Hok _ _ Hk) as (s & ? & _). by exists s.
Qed.

(** [CloseAll] empties the table, and nobody fills it again while [admissionMu] is held. *)
Lemma wp_CloseAll post o h w :
  below StoreMu h ->
  (forall r w', rely o h w w' -> ((AdmissionMu, Exclusive) ∈ h -> sessions w' = ∅) -> post r o h w') ->
  WP o h CloseAll post w.
Proof.
  intros Hb Hp. apply wp_lock; [done|]. intros w1 Hr1 _. apply wp_gets. intros w2 Hr2 _.
  apply wp_ask. intros w3 Hr3 _. split; [done|]. intros answer.
  apply wp_atomic. intros w4 Hr4 Hok4. pose proof (take_sessions_alive answer w4 Hok4) as Hl.
  assert (Hsub : ∅ ⊆ sessions w4) by apply map_empty_subseteq.
  pose proof (shrink_rely o h _ _ Hsub Hb) as Hr5.
  split; [by apply shrink_ok|]. fold (shrink ∅ w4). change (snd (take_sessions answer w4)) with (shrink ∅ w4).
  set (w5 := shrink ∅ w4) in *. assert (Hempty : sessions w5 = ∅) by done.
  apply wp_unlock; [done|]. apply wp_close_each; [by eapply all_alive_rely|].
  intros r w6 Hr6 _. apply Hp; [rely_chain|]. intros Ha.
  destruct (rely_sessions_admission _ _ _ _ Ha Hr6) as [Hs _]. rewrite Hempty in Hs.
  by apply map_empty_sub.
Qed.
