(* ===== verification/StartupLogic.v ===== *)
(** * StartupLogic: timers, startup attempts and the gate under interference

    The accesses under [mu], the auto-stop timers, the beginning and the ends of a
    startup attempt and the flush that opens the gate respect the discipline. *)
From S2P Require Import Prelude Errors Conc World Session Store Proxy Invariant Buffers Rules.
From S2P Require Import Tokens SessionLogic StoreLogic.

(** ** Accesses under [mu] *)

(** A step taken under [mu] on top of the locks [h], and what it looks like to code that
    only knows the tokens [r] and the locks [h]. *)
Record own_step (o r : coPset) (h : list (lockid * mode)) (w w' : world) : Prop := OwnStep {
  os_ok : step_ok o ((Mu, Exclusive) :: h) w w';
  os_rely : rely r h w w' }.

Lemma step_ok_trans o h w1 w2 w3 :
  step_ok o h w1 w2 -> (state_ok w2 -> step_ok o h w2 w3) -> step_ok o h w1 w3.
Proof.
  intros [G1 S1 P1] H2. destruct (H2 S1) as [G2 S2 P2]. split; [|done|by auto].
  by eapply disc_trans.
Qed.

Lemma own_step_trans o r h w1 w2 w3 :
  own_step o r h w1 w2 -> (state_ok w2 -> own_step o r h w2 w3) -> own_step o r h w1 w3.
Proof.
  intros [A1 R1] H2. split.
  - eapply step_ok_trans; [exact A1|]. intros Hs. by destruct (H2 Hs).
  - destruct (H2 (sk_state _ _ _ _ A1)). by etransitivity.
Qed.

Lemma own_step_refl o r h w : state_ok w -> own_step o r h w w.
Proof. intros. split; [by apply step_refl|reflexivity]. Qed.

Lemma px_own o r h f w :
  below Mu h -> state_ok w -> px_step o ((Mu, Exclusive) :: h) (heap w) (px w) (f (px w)) ->
  tok TokServe ∉ r \/ (backendReady (f (px w)) = backendReady (px w) /\
                       dom (queues (f (px w))) ⊆ dom (queues (px w))) ->
  own_step o r h w (upd_px f w).
Proof.
  intros Hb Hok Hstep Hr. split; [by apply upd_px_ok; [left|..]|].
  destruct Hstep as [Ho Ht Hwg Hsd _ [Hs1 Hs2] _ _ _ _].
  split; simpl; try done; try reflexivity; try congruence.
  - by intros ?%below_not_held.
  - intros [_ ?]. naive_solver.
  - intros _ ?. right. split; congruence.
  - intros ?. destruct Hr as [|[_ ?]]; [done|]. by split.
  - intros _. rewrite Ht. lia.
Qed.

(** Only the fields that no clause of the discipline but [mu]'s constrains change. *)
Lemma px_own_quiet o r h f w :
  below Mu h -> state_ok w ->
  (forall p, options (f p) = options p /\ timerWG (f p) = timerWG p /\ wg (f p) = wg p /\
     shuttingDown (f p) = shuttingDown p /\ backendReady (f p) = backendReady p /\
     startupRunning (f p) = startupRunning p /\ startupGeneration (f p) = startupGeneration p /\
     queues (f p) = queues p /\ queuedBytes (f p) = queuedBytes p) ->
  own_step o r h w (upd_px f w).
Proof.
  intros Hb Hok Hf. destruct (Hf (px w)) as (E1 & E2 & E0 & E3 & E4 & E5 & E6 & E7 & E8).
  apply px_own; [done|done| |right; by rewrite E4, E7].
  destruct (st_buffers _ Hok) as [B1 B2 B3].
  split; auto; try (split; rewrite ?E1, ?E7, ?E8; done).
  - left. by rewrite E7.
  - rewrite E7. auto.
  - rewrite E4, E7, E3. intros Hr. split; [by apply Hok|].
    destruct (shuttingDown (px w)) eqn:Hd; [|done]. rewrite (st_shutdown _ Hok Hd) in Hr. done.
Qed.

Ltac quiet := apply px_own_quiet; [assumption|assumption|by intros []].

Lemma wp_mu {A B} (f : world -> B * world) (k : B -> proc A) post o r h w :
  below Mu h ->
  (forall w1, rely o h w w1 -> state_ok w1 -> own_step o r h w1 (snd (f w1))) ->
  (forall w1, rely o h w w1 -> state_ok w1 -> rely r h w1 (snd (f w1)) ->
     WP o h (k (fst (f w1))) post (snd (f w1))) ->
  WP o h (bind (critical Mu f) k) post w.
Proof.
  intros Hb Hf Hk. apply wp_critical; [done|]. intros w1 Hr Hok.
  destruct (Hf w1 Hr Hok). split; [done|]. by apply Hk.
Qed.

(** ** Auto-stop timers *)

(** A timer changes state and [timerWG] follows; a fired timer belongs to its goroutine. *)
Definition change_timer (id : nat) (t : timer) (n : Z) (w : world) : world :=
  w <| timers := <[id := t]> (timers w) |> <| px := px w <| timerWG := n |> |>.

Lemma change_timer_frame id t t' n o o' h w :
  state_ok w -> timers w !! id = Some t ->
  (t = TimerFired -> tok (TokTimer id) ∈ o) -> (t = TimerFired -> tok (TokTimer id) ∉ o') ->
  n = timerWG (px w) - timer_pending t + timer_pending t' -> timer_pending t' <= timer_pending t ->
  step_ok o h w (change_timer id t' n w) /\ rely o' h w (change_timer id t' n w).
Proof.
  intros Hok Ht Ho Ho' -> Hle. destruct (st_buffers _ Hok) as [B1 B2 B3].
  assert (Hsum : timer_pending t <= timerWG (px w) /\ 0 <= timer_pending t').
  { split; [|destruct t'; simpl; lia]. rewrite (st_timerWG _ Hok), (map_sum_delete _ _ _ _ Ht).
    enough (0 <= map_sum timer_pending (delete id (timers w))) by lia.
    apply map_sum_nonneg. intros k [] _; simpl; lia. }
  assert (Hf : forall i, (i = id -> t <> TimerFired) -> timers w !! i = Some TimerFired ->
                 <[id := t']> (timers w) !! i = Some TimerFired).
  { intros i Hi Hw. rewrite lookup_insert_ne; [done|]. intros <-. apply Hi; congruence. }
  split; [split|].
  - split; simpl; try done; try reflexivity; auto.
    + intros _. lia.
    + intros i Hi. rewrite lookup_insert_is_Some'. by right.
    + intros i Hi. apply Hf. by intros -> ?%Ho.
  - split; simpl; try apply Hok; try by split.
    + rewrite (map_sum_insert_Some _ _ _ _ _ Ht), (st_timerWG _ Hok). lia.
    + intros i. rewrite lookup_insert_is_Some'. intros [<-|Hi]; apply (st_timers _ Hok); by eauto.
  - intros pot _ (J & R & C & [P1 P2 P3 P4]). exists J, R, C. split; simpl; auto. intros Hres.
    destruct (P4 Hres) as (? & ? & Hz & ?). repeat (split; [done|]). split; [lia|done].
  - split; simpl; try done; try reflexivity; auto.
    + intros _. lia.
    + intros i Hi. rewrite lookup_insert_is_Some'. by right.
    + intros i Hi. apply Hf. by intros -> ?%Ho'.
Qed.

Lemma stop_timer_own o r h w :
  below Mu h -> state_ok w -> own_step o r h w (stopAutoStopTimerLocked w).
Proof.
  intros Hb Hok. unfold stopAutoStopTimerLocked.
  destruct (stopTimer (px w)) as [id|]; [|by apply own_step_refl].
  apply own_step_trans with
    (match timers w !! id with
     | Some (TimerArmed _) =>
         upd_px (fun p => p <| timerWG := timerWG p - 1 |>)
           (w <| timers := <[id := TimerStopped]> (timers w) |>)
     | _ => w
     end); [|intros; quiet].
  destruct (timers w !! id) as [[]|] eqn:Ht; try by apply own_step_refl.
  destruct (change_timer_frame id _ TimerStopped (timerWG (px w) - 1) o r ((Mu, Exclusive) :: h) w Hok Ht);
    [done|done|simpl; lia|simpl; lia|].
  destruct (change_timer_frame id _ TimerStopped (timerWG (px w) - 1) o r h w Hok Ht);
    [done|done|simpl; lia|simpl; lia|]. by split.
Qed.

Lemma own_step_mu o r h w w' : own_step o r h w w' -> state_ok w'.
Proof. intros [[]]. done. Qed.

Lemma rely_mu_shutdown o h w w' :
  (Mu, Exclusive) ∈ h -> rely o h w w' -> shuttingDown (px w') = shuttingDown (px w).
Proof. intros Hin Hr. pose proof (di_mu _ _ _ _ _ _ _ _ _ Hr Hin) as Hm. by injection Hm. Qed.

(** The new timer gets its token, which its goroutine takes over. *)
Lemma wp_scheduleAutoStopAttemptLocked generation attempt delay post o r h w :
  below Mu h -> r ⊆ o -> 1 <= attempt <= maxAutoStopAttempts -> shuttingDown (px w) = false ->
  (forall w', rely r h w w' -> post tt o ((Mu, Exclusive) :: h) w') ->
  WP o ((Mu, Exclusive) :: h) (scheduleAutoStopAttemptLocked generation attempt delay) post w.
Proof.
  intros Hb Hro Hat Hsd Hp w1 xl pot [Hr1 Hv Hd [Hok Hpot]].
  set (h' := (Mu, Exclusive) :: h) in *.
  assert (Hsd1 : shuttingDown (px w1) = false).
  { rewrite (rely_mu_shutdown o h' w w1); [done|by left|done]. }
  change (arm_timer delay w1) with (nextTimer w1, snd (arm_timer delay w1)). cbv beta iota.
  set (w2 := snd (arm_timer delay w1)). set (id := nextTimer w1).
  assert (Hnone : timers w1 !! id = None).
  { destruct (timers w1 !! id) eqn:E; [|done]. pose proof (st_timers _ Hok _ (mk_is_Some _ _ E)). lia. }
  assert (Hlook : forall i, is_Some (timers w1 !! i) -> timers w2 !! i = timers w1 !! i).
  { intros i Hi. simpl. rewrite lookup_insert_ne; [done|]. intros <-.
    fold id in Hi. rewrite Hnone in Hi. by apply is_Some_None in Hi. }
  assert (Hdisc : guar o h' w1 w2 /\ rely r h w1 w2).
  { split; split; simpl; try done; try reflexivity; auto; try lia.
    - intros Hn. destruct Hn. by left.
    - congruence.
    - intros i Hi. change (is_Some (timers w2 !! i)). by rewrite Hlook.
    - intros i _ Hi. change (timers w2 !! i = Some TimerFired). by rewrite Hlook; [|eexists].
    - by intros ?%below_not_held.
    - congruence.
    - intros i Hi. change (is_Some (timers w2 !! i)). by rewrite Hlook.
    - intros i _ Hi. change (timers w2 !! i = Some TimerFired). by rewrite Hlook; [|eexists]. }
  destruct Hdisc as [Hg Hr2]. split; [done|].
  assert (Htok : tokens (TokTimer id) ⊆ pot).
  { apply tokens_sub. destruct Hpot as (J & R & C & [P1 _ _ _]). apply P1. simpl. done || lia. }
  destruct (coPset_give o pot (tokens (TokTimer id)) Htok Hd) as (D1 & D2 & D3 & D4).
  exists (o ∪ tokens (TokTimer id)), (pot ∖ tokens (TokTimer id)).
  split; [done|]. split; [done|]. split.
  { split.
    - destruct (st_buffers _ Hok) as [B1 B2 B3].
      split; simpl; try apply Hok; [by split| |].
      + rewrite map_sum_insert_None, (st_timerWG _ Hok) by done. simpl. lia.
      + intros i. rewrite lookup_insert_is_Some'. fold id. intros [<-|Hi]; [lia|].
        pose proof (st_timers _ Hok _ Hi). lia.
    - apply (pot_take _ w1); [done|done|done|]. intros J R C [| |i| | |]; simpl; try done.
      intros Hi. split; [intros [= ->]|]; lia. }
  intros w3 xl3 pot3 [Hr3 _ _ _]. exists (tokens (TokTimer id)), o.
  split; [done|]. split; [done|]. split.
  - simpl. split; [apply tokens_in|]. split; [|done].
    apply (di_timers _ _ _ _ _ _ _ _ _ Hr3). simpl. rewrite lookup_insert_eq. by eexists.
  - apply wp_ret. intros w4 Hr4. apply Hp. assert (r ⊆ o ∪ tokens (TokTimer id)) by set_solver.
    rely_chain.
Qed.

Lemma stop_timer_shuttingDown w :
  shuttingDown (px (stopAutoStopTimerLocked w)) = shuttingDown (px w).
Proof.
  unfold stopAutoStopTimerLocked. destruct (stopTimer _) as [id|]; [|done].
  by destruct (timers w !! id) as [[]|].
Qed.

Lemma wp_cancelAutoStop post o r h w :
  below Mu h -> r ⊆ o ->
  (forall w', rely r h w w' -> post tt o h w') -> WP o h cancelAutoStop post w.
Proof.
  intros Hb Hro Hp. apply (wp_mu _ Ret _ _ r); [done| |].
  - intros w1 _ Hok. cbn [snd]. apply own_step_trans with (bump_stop_generation w1); [quiet|].
    intros Hok'. by apply stop_timer_own.
  - intros w1 Hr1 _ Hr2. apply wp_ret. intros w2 Hr3. apply Hp. rely_chain.
Qed.

Lemma schedule_generation_own o r h w :
  below Mu h -> state_ok w -> own_step o r h w (snd (schedule_generation w)).
Proof.
  intros Hb Hok. unfold schedule_generation. destruct (_ || _); [by apply own_step_refl|].
  cbn [snd]. apply own_step_trans with (bump_stop_generation w); [quiet|].
  intros Hok'. by apply stop_timer_own.
Qed.

Lemma schedule_generation_up w generation :
  state_ok w -> fst (schedule_generation w) = Some generation ->
  shuttingDown (px (snd (schedule_generation w))) = false.
Proof.
  intros Hok. unfold schedule_generation. destruct (_ || _) eqn:Hc; [done|]. go_bool. intros _.
  cbn [snd]. by rewrite stop_timer_shuttingDown.
Qed.

Lemma wp_scheduleAutoStop post o r h w :
  below Mu h -> r ⊆ o ->
  (forall w', rely r h w w' -> post tt o h w') -> WP o h scheduleAutoStop post w.
Proof.
  intros Hb Hro Hp. apply wp_lock; [done|]. intros w1 Hr1 _. apply wp_atomic. intros w2 Hr2 Hok2.
  destruct (schedule_generation_own o r h w2 Hb Hok2) as [Hstep Hr3]. split; [done|].
  pose proof (schedule_generation_up w2) as Hup.
  generalize dependent (snd (schedule_generation w2)). intros w3 _ Hr3 Hup.
  apply wp_gets. intros w4 Hr4 _. apply wp_call.
  assert (Hend : forall w5, rely r h w w5 -> WP o ((Mu, Exclusive) :: h) (unlock Mu) post w5).
  { intros w5 Hr5. apply (wp_unlock _ Ret); [done|]. apply wp_ret. intros w6 Hr6. apply Hp. rely_chain. }
  destruct (fst (schedule_generation w2)) as [generation|].
  - apply (wp_scheduleAutoStopAttemptLocked _ _ _ _ _ r); [done|done|unfold maxAutoStopAttempts; lia| |].
    { rewrite (rely_mu_shutdown _ _ w3 w4 ltac:(by left) Hr4). by eapply Hup. }
    intros w5 Hr5. apply Hend. rely_chain.
  - apply wp_ret. intros w5 Hr5. apply Hend. rely_chain.
Qed.

(** ** Startup attempts *)

(** The access that begins an attempt takes its token out of the pot; the goroutine of
    the attempt takes it over. *)
Lemma wp_startServer post o r h w :
  below Mu h -> employed o -> r ⊆ o -> tok TokServe ∉ r ->
  (forall w', rely r h w w' -> post tt o h w') -> WP o h startServer post w.
Proof.
  intros Hb He Hro Hns Hp. unfold startServer. apply wp_call. unfold critical. apply wp_lock; [done|].
  intros w1 Hr1 _. intros w2 xl pot [Hr2 Hv Hd [Hok Hpot]]. unfold begin_startup.
  destruct (_ || Before _ _) eqn:Hc.
  - split; [apply disc_refl|]. exists o, pot. split; [done|]. split; [done|]. split; [by split|].
    apply wp_unlock; [done|]. apply wp_ret. intros w3 Hr3. apply wp_ret. intros w4 Hr4.
    apply Hp. rely_chain.
  - apply orb_false_iff in Hc as [[[Hsd Hready]%orb_false_iff Hrun]%orb_false_iff _].
    cbv beta iota. set (generation := uint64 _). set (w3 := upd_px _ w2). set (h' := _ :: h) in *.
    assert (Hdisc : guar o h' w2 w3 /\ rely o h w2 w3).
    { split; split; simpl; try done; try reflexivity; auto; try congruence.
      - intros Hn. destruct Hn. by left.
      - by intros ?%below_not_held. }
    destruct Hdisc as [Hg Hr3]. split; [done|].
    assert (Htok : tokens TokStartup ⊆ pot).
    { apply tokens_sub. destruct Hpot as (J & R & C & [P1 _ _ _]). apply P1. simpl. done || lia. }
    destruct (coPset_give o pot (tokens TokStartup) Htok Hd) as (D1 & D2 & D3 & D4).
    exists (o ∪ tokens TokStartup), (pot ∖ tokens TokStartup).
    split; [done|]. split; [done|]. split.
    { split.
      - destruct (st_buffers _ Hok) as [B1 B2 B3]. split; simpl; try apply Hok. by split.
      - apply (pot_take _ w2); [done|done|done|]. intros J R C []; simpl; try done. by intros []. }
    assert (Hsub : r ⊆ o ∪ tokens TokStartup) by set_solver.
    apply wp_unlock; [done|]. apply wp_ret. intros w4 Hr4.
    apply (wp_hire _ _ _ (r ∪ tokens TokStartup)); [|by apply union_mono_r| |].
    { eapply employed_mono, He. apply union_subseteq_l. }
    { intros [?|?]%elem_of_union; [done|]. by eapply tokens_ne. }
    intros w5 n Hr5 Hn. assert (Hsub2 : r ⊆ o ∪ tokens TokStartup ∪ tokens (TokJob n)) by set_solver.
    assert (Hsub3 : r ⊆ r ∪ tokens TokStartup) by set_solver.
    destruct (tokens_hand TokStartup (TokJob n) o) as [E1 E2]; [done|set_solver|].
    apply (wp_go_with _ (tokens TokStartup ∪ tokens (TokJob n)) o); [done|done|].
    intros w6 Hr6 _. split.
    + assert (Hs : tokens TokStartup ⊆ o ∪ tokens TokStartup) by set_solver.
      assert (Hs2 : tokens TokStartup ⊆ r ∪ tokens TokStartup) by set_solver.
      assert (Hs3 : tokens TokStartup ⊆ o ∪ tokens TokStartup ∪ tokens (TokJob n)) by set_solver.
      split; [apply elem_of_union_l, tokens_in|].
      split; [exists n; apply elem_of_union_r, tokens_in|].
      assert (Hr : rely (tokens TokStartup) [] w3 w6) by rely_chain.
      apply (di_startup _ _ _ _ _ _ _ _ _ Hr); [apply tokens_in|done].
    + apply wp_ret. intros w7 Hr7. apply Hp. rely_chain.
Qed.

(** What an access that ends an attempt leaves alone. *)
Definition same_result (w w' : world) : Prop :=
  same_counts w w' /\ sessions w' = sessions w /\ timerWG (px w') = timerWG (px w) /\
  nextTimer w' = nextTimer w.

(** An access under [mu] that may end the attempt gives its token back. *)
Lemma wp_end_startup {A B} (f : world -> B * world) (k : B -> proc A) post o h w :
  below Mu h -> tok TokStartup ∈ o ->
  (forall w1, rely o h w w1 -> state_ok w1 -> disc
      ((AdmissionMu, Exclusive) ∉ h) ((StoreMu, Exclusive) ∉ h) False
      ((ForwardingMu, Exclusive) ∉ h /\ tok TokServe ∉ o) False (tok TokServe ∉ o)
      (fun id => tok (TokTimer id) ∉ o) w1 (snd (f w1)) /\ state_ok (snd (f w1))
      /\ same_result w1 (snd (f w1))) ->
  (forall w1, rely o h w w1 -> WP (o ∖ tokens TokStartup) h (k (fst (f w1))) post (snd (f w1))) ->
  WP o h (bind (critical Mu f) k) post w.
Proof.
  intros Hb Ho Hf Hk. apply wp_call. unfold critical. apply wp_lock; [done|].
  intros w1 Hr1 _. intros w2 xl pot [Hr2 Hv Hd [Hok Hpot]].
  assert (Hr12 : rely o h w w2) by rely_chain.
  destruct (Hf w2 Hr12 Hok) as (Hdisc & Hok2 & Hres & Hses & Htm & Hnt). specialize (Hk w2 Hr12).
  destruct (f w2) as [b w3]; cbn [fst snd] in *. split.
  { revert Hdisc. apply disc_mono; auto.
    - intros Hn Hin. apply Hn. by right.
    - intros Hn Hin. apply Hn. by right.
    - intros Hn. apply Hn. by left.
    - intros [Hn ?]. split; [|done]. intros Hin. apply Hn. by right. }
  destruct (coPset_return o pot (tokens TokStartup) Hd) as (D1 & D2).
  exists (o ∖ tokens TokStartup), (pot ∪ (o ∩ tokens TokStartup)).
  split; [done|]. split; [done|]. split.
  { split; [done|]. apply (pot_return _ w2); try done.
    - apply (di_shutdown _ _ _ _ _ _ _ _ _ Hdisc).
    - intros J R C []; simpl; try done; [|by rewrite Hnt]. by rewrite (proj1 Hres). }
  apply wp_unlock; [done|]. apply wp_ret. intros w4 Hr4. by eapply wp_rely_state.
Qed.

Lemma complete_startup_ok a b c d f generation w :
  state_ok w ->
  disc a b False c False d f w (snd (complete_startup generation w)) /\
  state_ok (snd (complete_startup generation w)) /\
  same_result w (snd (complete_startup generation w)).
Proof.
  intros Hok. unfold complete_startup.
  case_bool_decide; cbn [snd]; [split; [apply disc_refl|done]|].
  destruct (st_buffers _ Hok) as [B1 B2 B3]. split; [|split; [|done]].
  - split; simpl; try done; try reflexivity; auto.
  - split; simpl; try apply Hok. by split.
Qed.

Lemma wp_finishStartup generation post o h w :
  below Mu h -> tok TokStartup ∈ o -> has_job o ->
  (forall w', post tt (o ∖ tokens TokStartup) h w') -> WP o h (finishStartup generation) post w.
Proof.
  intros Hb Ho Hj Hp. apply wp_end_startup; [done|done| |].
  - intros w1 _ Hok. by apply complete_startup_ok.
  - intros w1 _. destruct (fst (complete_startup generation w1)).
    + apply (wp_startServer _ _ ∅); [done|right; by apply has_job_minus|apply empty_subseteq|apply not_elem_of_empty|]. auto.
    + apply wp_ret. auto.
Qed.

Lemma is_Some_lookup_empty {A} (i : nat) : ~ is_Some ((∅ : gmap nat A) !! i).
Proof. rewrite lookup_empty. apply is_Some_None. Qed.

Lemma fail_startup_ok a b c d f generation permanent w :
  state_ok w ->
  disc a b False c False d f w (fail_startup generation permanent w) /\
  state_ok (fail_startup generation permanent w) /\
  same_result w (fail_startup generation permanent w).
Proof.
  intros Hok. pose proof (clear_queues_ok (px w) (st_options _ Hok)) as [B1 B2 B3].
  unfold fail_startup. case_bool_decide; [destruct permanent|]; (split; [|split; [|done]]).
  all: try (split; simpl; try done; try reflexivity; auto; set_solver).
  all: split; simpl; try done; try apply Hok; try by split.
  all: by intros sid ?%is_Some_lookup_empty.
Qed.

Lemma wp_failStartup generation permanent post o w :
  tok TokStartup ∈ o ->
  (forall w', post tt (o ∖ tokens TokStartup) [] w') ->
  WP o [] (failStartup generation permanent) post w.
Proof.
  intros Ho Hp. unfold failStartup.
  apply wp_lock; [ranks|]. intros w1 Hr1 _. apply wp_lock; [ranks|]. intros w2 Hr2 _.
  apply wp_end_startup; [ranks|done| |].
  { intros w3 _ Hok. cbn [snd]. by apply fail_startup_ok. }
  intros w3 _. apply wp_call, wp_CloseAll; [ranks|].
  intros r w4 Hr4 _. apply wp_unlock; [ranks|]. apply (wp_unlock _ Ret); [ranks|]. by apply wp_ret.
Qed.

Lemma mark_not_running_own o r h w :
  below Mu h -> (ForwardingMu, Exclusive) ∈ h -> tok TokServe ∉ r -> state_ok w ->
  own_step o r h w (upd_px mark_not_running w).
Proof.
  intros Hb Hf Ht Hok. apply px_own; [done|done| |by left].
  destruct (st_buffers _ Hok) as [B1 B2 B3].
  assert (Hg : backendReady (mark_not_running (px w)) = false).
  { unfold mark_not_running. simpl. by destruct (backendReady (px w)) eqn:Hr. }
  unfold mark_not_running in *. simpl in *. destruct (backendReady (px w)) eqn:Hr; split; simpl in *;
    try done; auto; try (by split); try congruence. right; left; by right.
Qed.

Lemma wp_markBackendNotRunning post o r h w :
  below ForwardingMu h -> r ⊆ o -> tok TokServe ∉ r ->
  (forall w', rely r h w w' -> post tt o h w') -> WP o h markBackendNotRunning post w.
Proof.
  intros Hb Hro Ht Hp. apply wp_lock; [ranks|]. intros w1 Hr1 _.
  apply (wp_mu _ _ _ _ r); [ranks| |].
  - intros w2 _ Hok. apply mark_not_running_own; [ranks|by left|done|done].
  - intros w2 Hr2 _ Hr3. apply (wp_unlock _ Ret); [ranks|]. apply wp_ret. intros w3 Hr4.
    cbn [snd] in *. apply Hp. rely_chain.
Qed.

(** ** The flush *)

(** Every session with a queue exists: sessions are never freed and only theirs are queued. *)
Lemma wp_flush_packets active ps : forall post o h w,
  is_Some (heap w !! active) -> (ForwardingMu, Exclusive) ∈ h -> employed o ->
  (forall w', rely o h w w' -> post tt o h w') ->
  WP o h (flush_packets active ps) post w.
Proof.
  induction ps as [|packet ps IH]; intros post o h w Hw Hf He Hp; cbn [flush_packets].
  - by apply wp_ret.
  - apply wp_call, wp_ForwardClient; [done|intros; split; [done|by left]|]. intros r w1 Hr1. destruct r as [err|].
    + apply wp_ret. intros w2 Hr2. apply Hp. rely_chain.
    + apply IH; [alive|done|done|]. intros w2 Hr2. apply Hp. rely_chain.
Qed.

Lemma wp_modify_mu {A} (f : world -> world) (k : unit -> proc A) post o r h w :
  (forall w1, rely o ((Mu, Exclusive) :: h) w w1 -> state_ok w1 -> own_step o r h w1 (f w1)) ->
  (forall w1, rely o ((Mu, Exclusive) :: h) w w1 -> state_ok w1 -> rely r h w1 (f w1) ->
     WP o ((Mu, Exclusive) :: h) (k tt) post (f w1)) ->
  WP o ((Mu, Exclusive) :: h) (bind (modify f) k) post w.
Proof.
  intros Hf Hk. apply wp_modify. intros w1 Hr Hok. destruct (Hf w1 Hr Hok). split; [done|]. by apply Hk.
Qed.

Lemma wp_flush_queues order : forall post o h w,
  all_alive order w -> (ForwardingMu, Exclusive) ∈ h -> employed o ->
  (forall w', rely o h w w' -> post tt o h w') ->
  WP o h (flush_queues order) post w.
Proof.
  induction order as [|active order IH]; intros post o h w Hl Hf He Hp; cbn [flush_queues].
  - by apply wp_ret.
  - assert (is_Some (heap w !! active)) by (apply Hl; by left).
    apply wp_gets. intros w1 Hr1 _. apply wp_call, wp_flush_packets; [alive|done|done|].
    intros w2 Hr2. apply IH; [|done|done|intros w3 Hr3; apply Hp; rely_chain].
    intros sid Hin. assert (is_Some (heap w !! sid)) by (apply Hl; by right). alive.
Qed.

Lemma queue_keys_alive w : state_ok w -> all_alive (queue_keys w) w.
Proof.
  intros Hok sid Hin. apply (st_queued _ Hok). unfold queue_keys in Hin.
  apply list_elem_of_fmap in Hin as ([k q] & -> & Hin).
  apply elem_of_map_to_list in Hin. by exists q.
Qed.

Lemma open_gate_own o r h w :
  below Mu h -> (ForwardingMu, Exclusive) ∈ h -> tok TokServe ∉ r -> state_ok w ->
  shuttingDown (px w) = false -> own_step o r h w (upd_px open_gate w).
Proof.
  intros Hb Hf Ht Hok Hsd. apply px_own; [done|done| |by left].
  destruct (clear_queues_ok (px w) (st_options _ Hok)) as [B1 B2 B3].
  unfold open_gate. simpl in *. destruct (backendReady (px w)) eqn:Hr; split; simpl in *;
    try done; auto; try (left; set_solver); try (by intros sid ?%is_Some_lookup_empty); try (by split).
  right; left; by right.
Qed.

Lemma wp_openStartupGate post o r w :
  r ⊆ o -> tok TokServe ∉ r -> employed o ->
  (forall w', rely r [] w w' -> post tt o [] w') -> WP o [] openStartupGate post w.
Proof.
  intros Hro Ht He Hp. set (h := [(ForwardingMu, Exclusive); (AdmissionMu, Exclusive)]).
  assert (Hend : forall w', rely r [] w w' ->
    WP o h (unlock ForwardingMu;;; unlock AdmissionMu) post w').
  { intros w' Hr. apply wp_unlock; [ranks|]. apply (wp_unlock _ Ret); [ranks|]. apply wp_ret.
    intros w'' Hr'. apply Hp. rely_chain. }
  assert (Hb : below Mu h) by (unfold h; ranks).
  apply wp_lock; [ranks|]. intros w1 Hr1 _. apply wp_lock; [ranks|]. intros w2 Hr2 _. fold h in Hr2 |- *.
  apply wp_lock; [done|]. intros w3 Hr3 _. apply wp_gets. intros w4 Hr4 _. apply wp_call.
  destruct (shuttingDown (px w4)) eqn:Hsd.
  { apply (wp_unlock _ Ret); [done|]. apply wp_ret. intros w5 Hr5. apply Hend. rely_chain. }
  apply (wp_modify_mu _ _ _ _ r); [intros w5 _ Hok5; quiet|]. intros w5 Hr5 Hok5 Hr6.
  apply wp_gets. intros w7 Hr7 Hok7. apply wp_ask. intros w8 Hr8 _. split; [done|]. intros answer.
  apply wp_call, wp_flush_queues; [|right; by left|done|].
  { intros sid. rewrite range_order_perm. intros Hin.
    pose proof (queue_keys_alive _ Hok7 _ Hin). alive. }
  intros w9 Hr9. apply (wp_modify_mu _ _ _ _ r).
  { intros w10 Hr10 Hok10. apply open_gate_own; [done|by left|done|done|].
    assert (Hr : rely r h w4 w10) by rely_chain.
    destruct (rely_sessions_admission _ _ _ _ ltac:(by right; left) Hr) as [_ ->]. done. }
  intros w10 Hr10 Hok10 Hr11. apply wp_unlock; [done|].
  apply wp_call, wp_Len; [unfold h; ranks|]. intros w12 w13 Hr12 _ Hr13. case_bool_decide.
  - apply (wp_scheduleAutoStop _ _ r); [done|done|]. intros w14 Hr14. apply Hend. rely_chain.
  - apply wp_ret. intros w14 Hr14. apply Hend. rely_chain.
Qed.
