(* ===== verification/ProxyLogic.v ===== *)
(** * ProxyLogic: admission, forwarding and the goroutines under interference

    The rest of the operations of [Proxy.v] respect the discipline; [body_ok] says so
    of the code of every goroutine. *)
From S2P Require Import Prelude Errors Conc World Session Store Proxy Invariant Buffers Rules.
From S2P Require Import Tokens SessionLogic StoreLogic StartupLogic.

(** ** Admission and forwarding: the goroutine of [Serve] *)

Lemma enqueueLocked_fields active packet p :
  let p' := enqueueLocked active packet p in
  options p' = options p /\ timerWG p' = timerWG p /\ wg p' = wg p /\
  shuttingDown p' = shuttingDown p /\ backendReady p' = backendReady p /\ startupRunning p' = startupRunning p /\
  startupGeneration p' = startupGeneration p /\
  forall sid, is_Some (queues p' !! sid) -> sid = active \/ is_Some (queues p !! sid).
Proof.
  unfold enqueueLocked. destruct (_ || _); simpl; repeat (split; [done|]);
    intros sid; rewrite lookup_insert_is_Some'; naive_solver.
Qed.

Lemma enqueueLocked_own active packet o h w :
  below Mu h -> tok TokServe ∈ o -> state_ok w -> is_Some (heap w !! active) ->
  backendReady (px w) = false -> len packet <= MaxPacketSize (options (px w)) ->
  own_step o ∅ h w (upd_px (enqueueLocked active packet) w).
Proof.
  intros Hb Ho Hok Ha Hr Hlen.
  destruct (enqueueLocked_fields active packet (px w)) as (E1 & E2 & E0 & E3 & E4 & E5 & E6 & E7).
  apply px_own; [done|done| |left; set_solver].
  split; auto.
  - intros sid Hs. destruct (E7 _ Hs) as [->|]; auto.
  - apply enqueueLocked_ok; [apply Hok|apply Hok|done].
  - rewrite E4, Hr. done.
Qed.

Lemma rely_options o h w w' : rely o h w w' -> options (px w') = options (px w).
Proof. apply di_options. Qed.

Lemma rely_mu o h w w' :
  (Mu, Exclusive) ∈ h -> rely o h w w' -> backendReady (px w') = backendReady (px w).
Proof.
  intros Hin Hr. pose proof (di_mu _ _ _ _ _ _ _ _ _ Hr Hin) as Hm. by injection Hm.
Qed.

Lemma rely_forwarding o h m w w' :
  (ForwardingMu, m) ∈ h -> tok TokServe ∈ o -> rely o h w w' ->
  backendReady (px w') = backendReady (px w) /\ dom (queues (px w')) ⊆ dom (queues (px w)).
Proof.
  intros Hin Ho Hr. split.
  - apply (di_forwarding _ _ _ _ _ _ _ _ _ Hr). eauto.
  - by apply (di_serve _ _ _ _ _ _ _ _ _ Hr).
Qed.

Lemma wp_forwardOrQueue active packet post o h w :
  below ForwardingMu h -> tok TokServe ∈ o -> is_Some (heap w !! active) ->
  len packet <= MaxPacketSize (options (px w)) ->
  (forall b w', rely ∅ [] w w' -> post b o h w') ->
  WP o h (forwardOrQueue active packet) post w.
Proof.
  intros Hb Ho Ha Hlen Hp. set (hf := (ForwardingMu, Shared) :: h).
  assert (Hend : forall b w', rely ∅ [] w w' ->
    WP o hf (runlock ForwardingMu;;; Ret b) post w').
  { intros b w' Hr'. apply wp_runlock; [done|]. apply wp_ret. intros w'' Hr''. apply Hp. rely_chain. }
  assert (Hbm : below Mu hf) by (unfold hf; ranks).
  apply wp_rlock; [done|]. intros w1 Hr1 _. apply wp_lock; [done|]. intros w2 Hr2 _. fold hf in Hr2 |- *.
  apply wp_gets. intros w3 Hr3 Hok3. apply wp_call. destruct (backendReady (px w3)) eqn:Hready; cbn [negb].
  - apply wp_unlock; [done|].
    assert (Hq : queues (px w3) = ∅) by by apply Hok3.
    apply wp_call, wp_ForwardClient.
    + alive.
    + intros w' Hr'. split; [by left|]. right. destruct (rely_forwarding o hf Shared w3 w' ltac:(by left) Ho Hr') as [-> Hd].
      split; [done|]. rewrite Hq, dom_empty_L in Hd. apply dom_empty_inv_L. set_solver.
    + intros r w4 Hr4. apply wp_ret. intros w5 Hr5. apply Hend. rely_chain.
  - apply wp_call, wp_RecordActivity. intros r w4 Hr4. destruct r as [err|].
    + apply wp_unlock; [done|]. apply wp_ret. intros w5 Hr5. apply Hend. rely_chain.
    + apply (wp_modify_mu _ _ _ _ ∅).
      * intros w5 Hr5 Hok5. apply enqueueLocked_own; [done|done|done|alive| |].
        -- assert (Hr : rely o ((Mu, Exclusive) :: hf) w3 w5) by rely_chain.
           rewrite (rely_mu _ _ _ _ ltac:(by left) Hr). done.
        -- assert (Hr : rely ∅ [] w w5) by rely_chain. by rewrite (rely_options _ _ _ _ Hr).
      * intros w5 Hr5 _ Hr6. apply wp_unlock; [done|].
        apply wp_call, (wp_startServer _ _ ∅); [done|by left|apply empty_subseteq|apply not_elem_of_empty|].
        intros w6 Hr7. apply wp_ret. intros w7 Hr8.
        apply Hend. rely_chain.
Qed.

Lemma remove_queue_own active o r h w :
  below Mu h -> state_ok w -> own_step o r h w (upd_px (remove_queue active) w).
Proof.
  intros Hb Hok. unfold upd_px, remove_queue. pose proof (remove_queue_ok active _ (st_options _ Hok) (st_buffers _ Hok)) as Hrq.
  unfold remove_queue in Hrq. destruct (queues (px w) !! active) as [q|] eqn:Hq.
  - apply (px_own o r h (fun p => p <| queues := delete active (queues p) |>
        <| queuedBytes := int64 (queuedBytes p - queue_bytes q) |>)); [done|done| |].
    + split; simpl; try done; auto.
      * left. rewrite dom_delete_L. set_solver.
      * intros sid [_ Hs]%lookup_delete_is_Some. by left.
      * intros Hr. rewrite (st_ready _ Hok Hr) in Hq. by rewrite lookup_empty in Hq.
    + right. split; [done|]. simpl. rewrite dom_delete_L. set_solver.
  - by destruct w; apply own_step_refl.
Qed.

Lemma wp_removeQueue active post o h w :
  below Mu h -> (forall w', rely o h w w' -> post tt o h w') -> WP o h (removeQueue active) post w.
Proof.
  intros Hb Hp. apply (wp_mu _ Ret _ _ o); [done| |].
  - intros w1 _ Hok. by apply remove_queue_own.
  - intros w1 Hr1 _ Hr2. apply wp_ret. intros w2 Hr3. cbn [snd] in *. apply Hp. rely_chain.
Qed.

Lemma options_ok_packet w : state_ok w -> 1 <= MaxPacketSize (options (px w)).
Proof. intros Hok. apply (st_options _ Hok). Qed.

Lemma capacity_warning_own o r h w :
  below Mu h -> state_ok w ->
  own_step o r h w (snd (let '(b, p) := capacity_warning (clock w) (px w) in (b, w <| px := p |>))).
Proof.
  intros Hb Hok. unfold capacity_warning. destruct (negb _ && _); cbn [snd].
  - destruct w. by apply own_step_refl.
  - change (own_step o r h w (upd_px (fun p => p <| lastCapacityWarning := clock w |>) w)). quiet.
Qed.

Lemma wp_admit key client packet post o w :
  tok TokServe ∈ o -> addr_String client = key ->
  len packet <= MaxPacketSize (options (px w)) ->
  (forall w', rely ∅ [] w w' -> post tt o [(AdmissionMu, Exclusive)] w') ->
  WP o [(AdmissionMu, Exclusive)] (admitPacket key client packet) post w.
Proof.
  intros Ho Hk Hlen Hp. set (h := [(AdmissionMu, Exclusive)]) in *.
  assert (Hbf : below ForwardingMu h) by (unfold h; ranks).
  assert (Hend : forall w', rely ∅ [] w w' -> WP o h (Ret tt) post w').
  { intros w' Hr. apply wp_ret. intros w'' Hr'. apply Hp. rely_chain. }
  apply (wp_mu _ _ _ _ o); [ranks|intros; by apply own_step_refl|].
  intros w1 Hr1 _ _. cbn [fst snd]. apply wp_gets. intros w2 Hr2 _.
  destruct (Before _ _); [apply Hend; rely_chain|].
  destruct (_ && negb (detect_start _ _)); [apply Hend; rely_chain|].
  apply wp_call, (wp_GetOrCreate client); [ranks|by left|done|done|done|].
  intros sid created count err w3 Hr3 Hs. destruct err as [err|].
  { destruct (errors_Is _ _); [|apply Hend; rely_chain].
    apply wp_call, (wp_mu _ Ret _ _ o); [ranks|intros; apply capacity_warning_own; [ranks|done]|].
    intros w4 Hr4 _. generalize dependent (snd (let '(b, p) := capacity_warning (clock w4) (px w4) in (b, w4 <| px := p |>))).
    intros w5 Hr5. apply wp_ret. intros w6 Hr6. apply Hend. rely_chain. }
  destruct sid as [sid|]; [|apply Hend; rely_chain]. specialize (Hs _ eq_refl).
  assert (Hfwd : forall w4, rely ∅ [] w3 w4 ->
    WP o h (forwardOrQueue sid packet;;; (if negb (backendReady (px w1)) then startServer else Ret tt)) post w4).
  { intros w4 Hr4. apply wp_call, wp_forwardOrQueue; [done|done|alive| |].
    { assert (Hr : rely ∅ [] w w4) by rely_chain. by rewrite (rely_options _ _ _ _ Hr). }
    intros b w5 Hr5. destruct (negb _); [|apply Hend; rely_chain].
    apply (wp_startServer _ _ ∅); [ranks|by left|apply empty_subseteq|apply not_elem_of_empty|].
    intros w6 Hr6. apply Hp. rely_chain. }
  apply wp_call. destruct created.
  - apply wp_call, (wp_cancelAutoStop _ _ o); [ranks|done|]. intros w4 Hr4.
    apply (wp_hire _ _ _ ∅); [by left|apply empty_subseteq|apply not_elem_of_empty|].
    intros w5 n Hr5 Hn. destruct (tokens_one _ _ Hn) as [D1 D2]. apply (wp_go_with _ _ _ Ret _ _ _ _ D1 D2).
    intros w6 Hr6 _. split; [split; [exists n; apply tokens_in|alive]|].
    apply wp_ret. intros w7 Hr7. apply Hfwd. rely_chain.
  - apply wp_ret. intros w4 Hr4. apply Hfwd. rely_chain.
Qed.

Lemma wp_handleClientPacket client packet post o w :
  tok TokServe ∈ o -> len packet <= MaxPacketSize (options (px w)) ->
  (forall w', rely ∅ [] w w' -> post tt o [] w') ->
  WP o [] (handleClientPacket client packet) post w.
Proof.
  intros Ho Hlen Hp. unfold handleClientPacket.
  assert (Hend : forall w', rely ∅ [] w w' -> WP o [] (Ret tt) post w').
  { intros w' Hr. apply wp_ret. intros w'' Hr'. apply Hp. rely_chain. }
  assert (Hlen' : forall w', rely ∅ [] w w' -> len packet <= MaxPacketSize (options (px w'))).
  { intros w' Hr. by rewrite (rely_options _ _ _ _ Hr). }
  case_bool_decide; [apply Hend; reflexivity|].
  assert (Hslow : forall w', rely ∅ [] w w' -> WP o []
    (lock AdmissionMu;;;
     existing <- Get (addr_String client);;
     handled <- match existing with
       | Some sid => handled <- forwardOrQueue sid packet;;
           if handled : bool then Ret true else Remove (addr_String client) sid;;; removeQueue sid;;; Ret false
       | None => Ret false end;;
     (if handled : bool then Ret tt else admitPacket (addr_String client) client packet);;;
     unlock AdmissionMu) post w').
  { intros w1 Hr1. apply wp_lock; [ranks|]. intros w2 Hr2 _.
    assert (Hunlock : forall w', rely ∅ [] w w' ->
      WP o [(AdmissionMu, Exclusive)] (unlock AdmissionMu) post w').
    { intros w' Hr. apply (wp_unlock _ Ret); [ranks|]. apply Hend, Hr. }
    assert (Hadmit : forall w', rely ∅ [] w w' ->
      WP o [(AdmissionMu, Exclusive)] (admitPacket (addr_String client) client packet;;; unlock AdmissionMu) post w').
    { intros w' Hr. apply wp_call, wp_admit; [done|done|by apply Hlen'|].
      intros w'' Hr'. apply Hunlock. rely_chain. }
    apply wp_call, wp_Get; [ranks|]. intros existing w3 Hr3 Hs. apply wp_call.
    destruct existing as [sid|]; [|apply wp_ret; intros w4 Hr4; apply Hadmit; rely_chain].
    specialize (Hs _ eq_refl). apply wp_call, wp_forwardOrQueue; [ranks|done|alive|apply Hlen'; rely_chain|].
    intros handled w4 Hr4. destruct handled.
    - apply wp_ret. intros w5 Hr5. apply wp_call, wp_ret. intros w6 Hr6. apply Hunlock. rely_chain.
    - apply wp_call, wp_Remove; [ranks|]. intros removed count err w5 Hr5 _.
      apply wp_call, wp_removeQueue; [ranks|]. intros w6 Hr6. apply wp_ret. intros w7 Hr7.
      apply Hadmit. rely_chain. }
  apply wp_call, wp_Get; [ranks|]. intros existing w1 Hr1 Hs. apply wp_call.
  destruct existing as [sid|].
  - specialize (Hs _ eq_refl). apply wp_forwardOrQueue; [ranks|done|alive|apply Hlen'; rely_chain|].
    intros handled w2 Hr2. destruct handled; [apply Hend|apply Hslow]; rely_chain.
  - apply wp_ret. intros w2 Hr2. apply Hslow. rely_chain.
Qed.

(** ** Closing sessions: the watcher and the sweeper *)

Lemma wp_watch_session key active post o w :
  has_job o -> is_Some (heap w !! active) ->
  (forall o' w', post tt o' [] w') -> WP o [] (watch_session key active) post w.
Proof.
  intros [n Hn] Ha Hp. apply wp_await. intros w1 Hr1 _ _. apply wp_call, wp_Remove; [ranks|].
  intros removed count err w2 Hr2 _. apply wp_call, wp_removeQueue; [ranks|]. intros w3 Hr3.
  assert (Hend : forall w', WP o [] (add_wg (-1)) post w').
  { intros w'. apply (wp_fire Ret _ _ n); [done|]. intros. by apply wp_ret. }
  apply wp_call. destruct (removed && _).
  - apply wp_gets. intros w4 Hr4 _. destruct (ctx_Err w4); [by apply wp_ret|].
    apply (wp_scheduleAutoStop _ _ o); [ranks|done|]. auto.
  - by apply wp_ret.
Qed.

Lemma wp_refresh_each pending : forall post o h w,
  (forall w', rely o h w w' -> post tt o h w') -> WP o h (refresh_each pending) post w.
Proof.
  induction pending as [|active pending IH]; intros post o h w Hp; cbn [refresh_each].
  - by apply wp_ret.
  - apply wp_call, wp_RecordActivity. intros r w1 Hr1. apply IH. intros w2 Hr2. apply Hp. rely_chain.
Qed.

Lemma remove_closed_queues_own o r h w :
  below Mu h -> state_ok w -> own_step o r h w (upd_px (remove_closed_queues (heap w)) w).
Proof.
  intros Hb Hok. apply px_own; [done|done| |].
  - split; simpl; try done; auto.
    + left. apply dom_filter_subseteq.
    + intros sid [q [Hq _]%map_lookup_filter_Some]. left. by eexists.
    + apply remove_closed_queues_ok; apply Hok.
    + intros Hr. rewrite (st_ready _ Hok Hr). split; [apply map_filter_empty|].
      destruct (shuttingDown (px w)) eqn:Hd; [|done]. by rewrite (st_shutdown _ Hok Hd) in Hr.
  - right. split; [done|]. apply dom_filter_subseteq.
Qed.

Lemma wp_expireIdleSessions now post o w :
  (forall w', post tt o [] w') -> WP o [] (expireIdleSessions now) post w.
Proof.
  intros Hp. apply wp_call, (wp_mu _ _ _ _ o); [ranks|intros; by apply own_step_refl|].
  intros w1 Hr1 _ _. apply wp_ask. intros w2 Hr2 _. split; [done|]. intros answer.
  apply wp_refresh_each. intros w3 Hr3. apply wp_gets. intros w4 Hr4 _.
  apply wp_call, wp_ExpireIdle; [ranks|]. intros [[expired count] err] w5 Hr5.
  assert (Hend : forall w', WP o []
    (if bool_decide (0 < expired) && bool_decide (count = 0) then scheduleAutoStop else Ret tt) post w').
  { intros w'. destruct (_ && _); [|by apply wp_ret]. apply (wp_scheduleAutoStop _ _ o); [ranks|done|]. auto. }
  apply wp_call. case_bool_decide; [|by apply wp_ret].
  apply (wp_mu _ Ret _ _ o); [ranks|intros; apply remove_closed_queues_own; [ranks|done]|].
  intros w6 Hr6 _ Hr7. apply wp_ret. auto.
Qed.

Lemma wp_runSweeper post o w :
  has_job o -> (forall w', post (Again tt) o [] w') -> (forall o' w', post (Return tt) o' [] w') ->
  WP o [] runSweeper post w.
Proof.
  intros [n Hn] Hp Hp'. apply wp_ask. intros w1 Hr1 _. split; [done|]. intros [err|now].
  - apply wp_await. intros w2 Hr2 _ _. apply (wp_fire _ _ _ n); [done|]. intros w3. apply wp_ret. auto.
  - apply wp_call, wp_expireIdleSessions. intros w2. apply wp_ret. auto.
Qed.

(** ** The health monitor *)

Lemma close_gate_own generation o r h w :
  below Mu h -> (ForwardingMu, Exclusive) ∈ h -> tok TokServe ∉ r -> state_ok w ->
  own_step o r h w (snd (close_gate generation w)).
Proof.
  intros Hb Hf Ht Hok. unfold close_gate. destruct (_ || _) eqn:Hc; [by apply own_step_refl|].
  cbn [snd]. destruct (st_buffers _ Hok) as [B1 B2 B3].
  set (lower := fun p => p <| backendReady := false |> <| backendRunning := false |>
    <| readinessGeneration := uint64 (readinessGeneration p + 1) |>
    <| stopGeneration := uint64 (stopGeneration p + 1) |>).
  apply own_step_trans with (upd_px lower w); [apply px_own; [done|done| |by left]|].
  - split; simpl; try done; auto; try by split. right; left; by right.
  - intros Hok2. eapply own_step_trans; [by apply stop_timer_own|]. intros Hok3.
    apply px_own; [done|done| |by left]. destruct (clear_queues_ok _ (st_options _ Hok3)) as [C1 C2 C3].
    split; simpl; try done; auto.
    + left. set_solver.
    + by intros sid ?%is_Some_lookup_empty.
    + intros Hr. split; [done|].
      destruct (shuttingDown _) eqn:Hd; [|done]. by rewrite (st_shutdown _ Hok3 Hd) in Hr.
Qed.

Lemma wp_closeBackendGate generation post o w :
  (forall w', post tt o [] w') -> WP o [] (closeBackendGate generation) post w.
Proof.
  intros Hp. set (h := [(ForwardingMu, Exclusive); (AdmissionMu, Exclusive)]).
  assert (Hend : forall w', WP o h (unlock ForwardingMu;;; unlock AdmissionMu) post w').
  { intros w'. apply wp_unlock; [ranks|]. apply (wp_unlock _ Ret); [ranks|]. by apply wp_ret. }
  apply wp_lock; [ranks|]. intros w1 Hr1 _. apply wp_lock; [ranks|]. intros w2 Hr2 _. fold h in Hr2 |- *.
  apply (wp_mu _ _ _ _ ∅); [unfold h; ranks| |].
  { intros w3 _ Hok. apply close_gate_own; [unfold h; ranks|by left|set_solver|done]. }
  intros w3 Hr3 _ _. apply wp_call. destruct (fst (close_gate generation w3)).
  - apply wp_call, wp_Len; [unfold h; ranks|]. intros w4 w5 _ _ _.
    apply wp_call, wp_CloseAll; [unfold h; ranks|]. intros r w6 _ _. by apply wp_ret.
  - by apply wp_ret.
Qed.

Lemma wp_runBackendHealthMonitor failures post o w :
  has_job o -> (forall f w', post (Again f) o [] w') -> (forall o' w', post (Return tt) o' [] w') ->
  WP o [] (runBackendHealthMonitor failures) post w.
Proof.
  intros Hj Hp Hp'. pose proof Hj as [n Hn].
  assert (Hret : forall f w', WP o [] (Ret (Again f)) post w') by (intros; by apply wp_ret).
  assert (Hexit : forall w', WP o [] (add_wg (-1);;; Ret (Return tt)) post w').
  { intros w'. apply (wp_fire _ _ _ n); [done|]. intros w''. by apply wp_ret. }
  apply wp_ask. intros w1 Hr1 _. split; [done|]. intros [err|now].
  - apply wp_await. auto.
  - apply (wp_mu _ _ _ _ o); [ranks|intros; by apply own_step_refl|]. intros w2 Hr2 _ _. cbn [fst snd].
    destruct (negb _); [done|]. apply wp_ask. intros w3 Hr3 _. split; [by right|]. intros err.
    apply wp_gets. intros w4 Hr4 _. destruct (ctx_Err w4); [done|].
    apply (wp_mu _ _ _ _ o); [ranks|intros; by apply own_step_refl|]. intros w5 Hr5 _ _. cbn [fst snd].
    destruct (negb _); [done|]. destruct err as [err|]; [|done].
    destruct (backendReadinessInconclusive err).
    + apply wp_call, wp_Len; [ranks|]. auto.
    + destruct (failures_record _ failures) as [count failures']. case_bool_decide; [done|].
      apply wp_call, wp_closeBackendGate. auto.
Qed.

(** ** Auto-stop *)

Lemma forget_timer_own generation o r h w :
  below Mu h -> state_ok w -> own_step o r h w (upd_px (forget_timer generation) w).
Proof.
  intros Hb Hok. apply px_own_quiet; [done|done|]. intros p. unfold forget_timer.
  by case_bool_decide.
Qed.

Lemma wp_forget_timer generation post o r w :
  r ⊆ o -> (forall w', rely r [] w w' -> post tt o [(AdmissionMu, Exclusive)] w') ->
  WP o [(AdmissionMu, Exclusive)]
    (critical Mu (fun w => (tt, upd_px (forget_timer generation) w))) post w.
Proof.
  intros Hro Hp. apply (wp_mu _ Ret _ _ r); [ranks|intros; apply forget_timer_own; [ranks|done]|].
  intros w1 Hr1 _ Hr2. apply wp_ret. intros w2 Hr3. cbn [snd] in *. apply Hp. rely_chain.
Qed.

(** The stop request, made while [admissionMu] keeps the table empty and the proxy up. *)
Lemma wp_auto_stop_request generation attempt id post o w :
  tok (TokTimer id) ∈ o -> 1 <= attempt <= maxAutoStopAttempts ->
  sessions w = ∅ -> shuttingDown (px w) = false ->
  (forall w', rely (tokens (TokTimer id)) [] w w' -> post tt o [(AdmissionMu, Exclusive)] w') ->
  WP o [(AdmissionMu, Exclusive)] (auto_stop_request generation attempt) post w.
Proof.
  intros Ho Hat Hempty Hsd Hp. set (h := [(AdmissionMu, Exclusive)]) in *.
  assert (Hro : tokens (TokTimer id) ⊆ o) by by apply tokens_sub.
  apply wp_ask. intros w1 Hr1 _. split.
  { simpl. destruct (rely_sessions_admission _ _ _ _ ltac:(by left) Hr1) as [Hs ->]. split; [|done].
    rewrite Hempty in Hs. by apply map_empty_sub. }
  intros [err|].
  - case_bool_decide as Hmax.
    + apply (wp_forget_timer _ _ _ (tokens (TokTimer id))); [done|].
      intros w2 Hr2. apply Hp. rely_chain.
    + apply wp_lock; [ranks|]. intros w2 Hr2 _. apply wp_gets. intros w3 Hr3 _. apply wp_call.
      assert (Hend : forall w', rely (tokens (TokTimer id)) [] w w' ->
        WP o ((Mu, Exclusive) :: h) (unlock Mu) post w').
      { intros w' Hr. apply (wp_unlock _ Ret); [unfold h; ranks|]. apply wp_ret.
        intros w'' Hr'. apply Hp. rely_chain. }
      assert (Hsd3 : shuttingDown (px w3) = false).
      { assert (Hr : rely o h w w3) by rely_chain.
        by destruct (rely_sessions_admission _ _ _ _ ltac:(by left) Hr) as [_ ->]. }
      destruct (_ && _); [|apply wp_ret; intros w4 Hr4; apply Hend; rely_chain].
      apply (wp_scheduleAutoStopAttemptLocked _ _ _ _ _ (tokens (TokTimer id))); [unfold h; ranks|done|lia|done|].
      intros w4 Hr4. apply Hend. rely_chain.
  - apply wp_call, (wp_markBackendNotRunning _ _ (tokens (TokTimer id)));
      [unfold h; ranks|done|by apply tokens_ne|].
    intros w2 Hr2. apply (wp_forget_timer _ _ _ (tokens (TokTimer id))); [done|].
    intros w3 Hr3. apply Hp. rely_chain.
Qed.

Lemma wp_runAutoStopAttempt generation attempt id post o w :
  tok (TokTimer id) ∈ o -> 1 <= attempt <= maxAutoStopAttempts ->
  (forall w', rely (tokens (TokTimer id)) [] w w' -> post tt o [] w') ->
  WP o [] (runAutoStopAttempt generation attempt) post w.
Proof.
  intros Ho Hat Hp. set (h := [(AdmissionMu, Exclusive)]).
  assert (Hro : tokens (TokTimer id) ⊆ o) by by apply tokens_sub.
  assert (Hend : forall w', rely (tokens (TokTimer id)) [] w w' ->
    WP o h (unlock AdmissionMu) post w').
  { intros w' Hr. apply (wp_unlock _ Ret); [ranks|]. apply wp_ret. intros w'' Hr'. apply Hp. rely_chain. }
  apply wp_lock; [ranks|]. intros w1 Hr1 _. fold h. apply wp_call, wp_Len; [unfold h; ranks|].
  intros w2 w3 Hr2 _ Hr3. apply wp_call. case_bool_decide as Hlen.
  { apply wp_ret. intros w4 Hr4. apply Hend. rely_chain. }
  assert (Hempty : sessions w2 = ∅).
  { unfold store_len in Hlen. apply map_size_empty_inv. lia. }
  apply (wp_mu _ _ _ _ o); [unfold h; ranks|intros; by apply own_step_refl|].
  intros w4 Hr4 Hok4 _. cbn [fst snd]. destruct (_ && backendReady (px w4)) eqn:Hvalid.
  - go_bool. apply (wp_auto_stop_request _ _ id); [done|done| | |].
    + assert (Hr : rely o h w2 w4) by rely_chain.
      destruct (rely_sessions_admission _ _ _ _ ltac:(by left) Hr) as [Hs _].
      rewrite Hempty in Hs. by apply map_empty_sub.
    + destruct (shuttingDown (px w4)) eqn:Hd; [|done]. rewrite (st_shutdown _ Hok4 Hd) in *. done.
    + intros w5 Hr5. apply Hend. rely_chain.
  - apply wp_ret. intros w5 Hr5. apply Hend. rely_chain.
Qed.

Lemma timer_wait_fire id deadline w :
  timers w !! id = Some (TimerArmed deadline) ->
  w <| timers := <[id := TimerFired]> (timers w) |> = change_timer id TimerFired (timerWG (px w)) w.
Proof. by destruct w as [? ? ? ? ? ? ? ? ? ? ? []]. Qed.

Lemma wp_auto_stop_timer id generation attempt post o w :
  tok (TokTimer id) ∈ o -> 1 <= attempt <= maxAutoStopAttempts ->
  (forall w', post tt o [] w') -> WP o [] (auto_stop_timer id generation attempt) post w.
Proof.
  intros Ho Hat Hp w1 xl pot [Hr Hv Hd [Hok Hpot]].
  assert (Hskip : guar o [] w1 w1 /\ exists o2 pot2, o2 ## pot2 /\ o2 ∪ pot2 = o ∪ pot /\
    inv w1 xl pot2 /\ WP o2 [] (bind (Ret false) (fun fired : bool => if fired
      then runAutoStopAttempt generation attempt;;; modify (timer_done id) else Ret tt)) post w1).
  { split; [apply disc_refl|]. exists o, pot. split; [done|]. split; [done|]. split; [by split|].
    apply wp_call, wp_ret. intros. by apply wp_ret. }
  unfold timer_wait. destruct (timers w1 !! id) as [[deadline| | |]|] eqn:Ht; try done.
  case_bool_decide; [|done]. rewrite (timer_wait_fire id deadline) by done.
  destruct (change_timer_frame id _ TimerFired (timerWG (px w1)) o (tokens (TokTimer id)) [] w1 Hok Ht)
    as [[Hg Hok2 Hpot2] Hr2]; [done|done|simpl; lia|simpl; lia|].
  set (w2 := change_timer _ _ _ _) in *.
  assert (Hf : timers w2 !! id = Some TimerFired) by (simpl; by rewrite lookup_insert_eq).
  split; [done|]. exists o, pot. split; [done|]. split; [done|]. split; [split; auto|].
  apply wp_call, wp_ret. intros w3 Hr3. apply wp_call, (wp_runAutoStopAttempt _ _ id); [done|done|].
  intros w4 Hr4. apply (wp_modify _ Ret). intros w5 Hr5 Hok5. split; [|by apply wp_ret].
  assert (Hro : tokens (TokTimer id) ⊆ o) by by apply tokens_sub.
  assert (Hr25 : rely (tokens (TokTimer id)) [] w2 w5) by rely_chain.
  assert (Ht5 : timers w5 !! id = Some TimerFired).
  { apply (di_timer _ _ _ _ _ _ _ _ _ Hr25); [apply tokens_in|done]. }
  by apply (change_timer_frame id _ TimerDone (timerWG (px w5) - 1) o ∅ [] w5 Hok5 Ht5); [|set_solver|simpl; lia|simpl; lia].
Qed.

(** ** Serving *)

(** The fields that [shutdown] changes before it stops the timer. *)
Definition close_down (p : Proxy) : Proxy :=
  let p := p <| shuttingDown := true |> in
  let p := if backendReady p
           then p <| backendReady := false |>
                  <| readinessGeneration := uint64 (readinessGeneration p + 1) |>
           else p in
  p <| backendRunning := false |> <| startupRunning := false |>
    <| startupGeneration := uint64 (startupGeneration p + 1) |>
    <| stopGeneration := uint64 (stopGeneration p + 1) |>.

Lemma shut_down_unfold w : shut_down w = stopAutoStopTimerLocked (upd_px close_down w).
Proof. done. Qed.

Lemma close_down_fields p :
  let p' := close_down p in
  options p' = options p /\ timerWG p' = timerWG p /\ shuttingDown p' = true /\
  backendReady p' = false /\ queues p' = queues p /\ queuedBytes p' = queuedBytes p /\
  wg p' = wg p.
Proof. unfold close_down. simpl. by destruct (backendReady p) eqn:Hr. Qed.

Lemma shut_down_ok o w :
  let h := [(Mu, Exclusive); (ForwardingMu, Exclusive); (AdmissionMu, Exclusive)] in
  tok TokServe ∈ o -> state_ok w ->
  step_ok o h w (shut_down w) /\ rely ∅ [] w (shut_down w).
Proof.
  intros h Ho Hok. rewrite shut_down_unfold.
  destruct (close_down_fields (px w)) as (E1 & E2 & E3 & E4 & E5 & E6 & E7).
  destruct (st_buffers _ Hok) as [B1 B2 B3].
  assert (Hstep : step_ok o h w (upd_px close_down w) /\ rely ∅ [] w (upd_px close_down w)).
  { unfold upd_px. generalize dependent (close_down (px w)). intros p E1 E2 E3 E4 E5 E6 E7. split; [split|].
    - split; simpl; rewrite ?E1, ?E2, ?E3, ?E5; try done; try reflexivity; auto;
        try (intros Hn; destruct Hn; by repeat constructor).
    - split; simpl; rewrite ?E1, ?E2, ?E4, ?E5; try done; try apply Hok.
      split; by rewrite ?E1, ?E5, ?E6.
    - intros pot _ (J & R & C & [P1 P2 P3 P4]). exists J, R, C.
      split; simpl; rewrite ?E2, ?E3, ?E7; try done.
      + intros [] Hu; apply P1; simpl in *; try done. rewrite E3 in Hu. by destruct Hu.
      + intros Hres. by destruct (P4 Hres) as (? & ? & ? & ?).
    - split; simpl; rewrite ?E1, ?E2, ?E3, ?E5; try done; try reflexivity; auto.
      + by intros ?%elem_of_nil.
      + by intros ?%elem_of_nil.
      + intros [[m ?%elem_of_nil] _]. done. }
  destruct Hstep as [Hstep Hr]. pose proof (sk_state _ _ _ _ Hstep) as Hok2. split.
  - eapply step_ok_trans; [exact Hstep|]. intros _.
    apply (stop_timer_own o ∅ [(ForwardingMu, Exclusive); (AdmissionMu, Exclusive)]); [ranks|done].
  - etransitivity; [exact Hr|]. apply (stop_timer_own ∅ ∅ []); [ranks|done].
Qed.

Lemma shut_down_px w : shuttingDown (px (shut_down w)) = true.
Proof. rewrite shut_down_unfold, stop_timer_shuttingDown. apply close_down_fields. Qed.

(** After [shutdown] the table stays empty: only [Serve] opens sessions. *)
Lemma wp_shutdown post o w :
  tok TokServe ∈ o ->
  (forall w', sessions w' = ∅ -> shuttingDown (px w') = true -> post tt o [] w') ->
  WP o [] shutdown post w.
Proof.
  intros Ho Hp. apply wp_lock; [ranks|]. intros w1 Hr1 _. apply wp_lock; [ranks|]. intros w2 Hr2 _.
  apply wp_critical; [ranks|]. intros w3 Hr3 Hok3. cbn [fst snd].
  split; [by apply shut_down_ok|]. pose proof (shut_down_px w3) as Hsd.
  generalize dependent (shut_down w3). intros w4 Hsd.
  apply wp_call, wp_CloseAll; [ranks|]. intros r w5 Hr5 Hempty.
  assert (Hs5 : sessions w5 = ∅) by (apply Hempty; by repeat constructor).
  apply wp_unlock; [ranks|]. apply (wp_unlock _ Ret); [ranks|]. apply wp_ret. intros w6 Hr6. apply Hp.
  - destruct (di_serve _ _ _ _ _ _ _ _ _ Hr6 Ho) as (_ & Hs & _ & _). rewrite Hs5 in Hs.
    by apply map_empty_sub.
  - apply (di_shutdown _ _ _ _ _ _ _ _ _ Hr6). by apply (di_shutdown _ _ _ _ _ _ _ _ _ Hr5).
Qed.

(** A step outside the proxy, the table, the heap and the timers. *)
Lemma world_frame w w' :
  clock w <= clock w' -> (ctx_Err w <> None -> ctx_Err w' <> None) ->
  px w' = px w -> heap w' = heap w -> nextSession w' = nextSession w -> storeMax w' = storeMax w ->
  sessions w' = sessions w -> timers w' = timers w -> nextTimer w' = nextTimer w ->
  state_ok w ->
  disc True True True True True True (fun _ => True) w w' /\ state_ok w'.
Proof.
  intros Hc Hx E1 E2 E3 E4 E5 E6 E7 Hok. split.
  - split; rewrite ?E1, ?E2, ?E3, ?E4, ?E5, ?E6, ?E7; auto; try reflexivity.
    intros _ sid. unfold workers. by rewrite E2.
  - destruct Hok. split; unfold store_len in *; rewrite ?E1, ?E2, ?E3, ?E4, ?E5, ?E6, ?E7; done.
Qed.

Lemma wp_world {A} (f : world -> world) (k : unit -> proc A) post o h w :
  (forall w, clock w <= clock (f w) /\ (ctx_Err w <> None -> ctx_Err (f w) <> None) /\
     px (f w) = px w /\ heap (f w) = heap w /\ nextSession (f w) = nextSession w /\
     storeMax (f w) = storeMax w /\ sessions (f w) = sessions w /\ timers (f w) = timers w /\
     nextTimer (f w) = nextTimer w /\ serveResult (f w) = serveResult w) ->
  (forall w', rely o h w w' -> WP o h (k tt) post w') ->
  WP o h (bind (modify f) k) post w.
Proof.
  intros Hf Hk. apply wp_neutral; simpl.
  - intros w1 _ Hok. destruct (Hf w1) as (? & ? & Hpx & Hh & ? & ? & Hs & ? & ? & ?).
    destruct (world_frame w1 (f w1)) as [Hd Hok']; try done.
    split; [|done]. split; [done|]. split; rewrite ?Hpx; try done; [by rewrite Hs|].
    intros sid. unfold workers. by rewrite Hh.
  - intros w1 _ _ Hr. by apply Hk.
Qed.

(** A write to [ready], which no lock guards. *)
Lemma wp_close_ready {A} (k : unit -> proc A) post o h w :
  (forall w1, rely o h w w1 -> WP o h (k tt) post w1) ->
  WP o h (bind (modify (upd_px (fun p => p <| readyClosed := true |>))) k) post w.
Proof.
  intros Hk. apply wp_neutral; simpl.
  - intros w1 Hr Hok. split; [split; [|done]; split; simpl; try done; try reflexivity; auto|].
    destruct (st_buffers _ Hok) as [B1 B2 B3]. split; simpl; try apply Hok. by split.
  - intros w1 Hr Hok Hr'. by apply Hk.
Qed.

Lemma adopt_running_own o w :
  tok TokServe ∈ o -> state_ok w -> queues (px w) = ∅ -> shuttingDown (px w) = false ->
  own_step o ∅ [] w (upd_px adopt_running w).
Proof.
  intros Ho Hok Hq Hsd. apply px_own; [ranks|done| |left; set_solver].
  destruct (st_buffers _ Hok) as [B1 B2 B3].
  unfold adopt_running. simpl. destruct (negb _); split; simpl; try done; auto; by split.
Qed.

Lemma wp_Serve post o w :
  pre TServe o w -> (forall w', post tt o [] w') -> WP o [] Serve post w.
Proof.
  intros (Ho & Hq & Hsd) Hp.
  assert (Hloop : forall (b : bool) w', WP o []
    (add_wg 2;;; go TSweeper;;; (if b then add_wg 1;;; go (TMonitor failures_reset) else Ret tt);;;
     go TListenerCloser) post w').
  { intros b w'. apply wp_hire2; [done|]. intros w1 n m Hnm Hn Hm _.
    destruct (tokens_one (TokJob n) (o ∪ tokens (TokJob m))) as [D1 D2].
    { intros [?|?]%elem_of_union; [done|]. eapply tokens_ne; [|done]. congruence. }
    assert (D3 : o ∪ tokens (TokJob n) ∪ tokens (TokJob m) = tokens (TokJob n) ∪ (o ∪ tokens (TokJob m))).
    { rewrite D2. set_solver. }
    rewrite D3. apply (wp_go_with _ _ _ _ _ _ _ _ D1 eq_refl).
    intros w2 _ _. split; [exists n; apply tokens_in|].
    destruct (tokens_one _ _ Hm) as [D4 D5].
    assert (Hgo : forall w3, WP (o ∪ tokens (TokJob m)) [] (go TListenerCloser) post w3).
    { intros w3. apply (wp_go_with _ _ _ Ret _ _ _ _ D4 D5). intros w4 _ _.
      split; [exists m; apply tokens_in|]. by apply wp_ret. }
    apply wp_call. destruct b; [|by apply wp_ret].
    apply (wp_hire _ _ _ ∅); [left; set_solver|apply empty_subseteq|apply not_elem_of_empty|].
    intros w3 k _ Hk. destruct (tokens_one _ _ Hk) as [D6 D7].
    apply (wp_go_with _ _ _ Ret _ _ _ _ D6 D7). intros w4 _ _.
    split; [exists k; apply tokens_in|]. by apply wp_ret. }
  apply wp_close_ready. intros w1 Hr1. apply wp_gets. intros w2 Hr2 _.
  apply wp_ask. intros w3 Hr3 _. split; [by left|]. intros [state err].
  apply wp_call. destruct (_ && _); [|by apply wp_ret].
  apply (wp_mu _ _ _ _ ∅); [ranks| |].
  - intros w4 Hr4 Hok4. cbn [snd].
    assert (Hr : rely o [] w w4) by rely_chain.
    destruct (di_serve _ _ _ _ _ _ _ _ _ Hr Ho) as (_ & _ & Hd & Hs).
    apply adopt_running_own; [done|done| |congruence].
    rewrite Hq, dom_empty_L in Hd. apply dom_empty_inv_L. set_solver.
  - intros w4 Hr4 _ _. destruct (Readiness _); [|apply wp_ret; intros; apply (Hloop false)].
    apply (wp_startServer _ _ ∅); [ranks|by left|apply empty_subseteq|apply not_elem_of_empty|].
    intros. apply (Hloop true).
Qed.

Lemma timerWG_nonneg w : state_ok w -> 0 <= timerWG (px w).
Proof.
  intros Hok. rewrite (st_timerWG _ Hok). apply map_sum_nonneg. intros id [] _; simpl; lia.
Qed.

(** [Serve] returns its token with its result. *)
Lemma wp_Serve_exit result post o w :
  tok TokServe ∈ o ->
  (forall o' w', post tt o' [] w') -> WP o [] (Serve_exit result) post w.
Proof.
  intros Ho Hp. apply wp_world.
  { intros w'. repeat (split; try done). unfold ctx_Err. simpl. by rewrite orb_true_r. }
  intros w1 Hr1.
  apply wp_call, wp_shutdown; [done|]. intros w2 Hs2 Hsd2.
  apply wp_await. intros w3 Hr3 Hok3 Ht3. go_bool. apply wp_await. intros w4 Hr4 Hok4 Hwg4. go_bool.
  intros w5 xl pot [Hr5 Hv Hd [Hok5 Hpot]].
  assert (Hr : rely o [] w2 w5) by rely_chain. assert (Hr35 : rely o [] w3 w5) by rely_chain.
  destruct (di_serve _ _ _ _ _ _ _ _ _ Hr Ho) as (_ & Hs & _). rewrite Hs2 in Hs.
  pose proof (di_shutdown _ _ _ _ _ _ _ _ _ Hr Hsd2) as Hsd5.
  pose proof (di_timerWG _ _ _ _ _ _ _ _ _ Hr35 (di_shutdown _ _ _ _ _ _ _ _ _ Hr3 Hsd2)) as Ht5.
  pose proof (timerWG_nonneg w5 Hok5).
  assert (Hr45 : rely o [] w4 w5) by rely_chain.
  pose proof (di_wg _ _ _ _ _ _ _ _ _ Hr45 Ho Hwg4) as Hwg5.
  destruct (world_frame w5 (w5 <| serveResult := Some result |>)) as [Hdisc Hok']; try done.
  split; [by eapply disc_mono, Hdisc|].
  destruct (coPset_return o pot (tokens TokServe) Hd) as (D1 & D2).
  exists (o ∖ tokens TokServe), (pot ∪ (o ∩ tokens TokServe)).
  split; [done|]. split; [done|]. split; [|by apply wp_ret].
  split; [done|]. destruct Hpot as (J & R & C & [P1 P2 P3 P4]). exists J, R, C. split; simpl; try done.
  - intros t Ht. destruct (decide (t = TokServe)) as [->|Hne]; [by apply returned|].
    apply elem_of_union_l, P1. by destruct t.
  - intros _. split; [done|]. split; [by apply map_empty_sub|]. split; [lia|done].
Qed.

(** ** The goroutine of a startup attempt *)

Section startup.
Context (o : coPset) (Ho : tok TokStartup ∈ o) (Hj : has_job o).
Let own : tokens TokStartup ⊆ o.
Proof. by apply tokens_sub. Qed.
Let not_serve : tok TokServe ∉ tokens TokStartup.
Proof. by apply tokens_ne. Qed.
Let job : employed o.
Proof. by right. Qed.

Lemma wp_startup_running post w :
  (forall r w', rely (tokens TokStartup) [] w w' -> post r o [] w') ->
  WP o [] startup_running post w.
Proof.
  intros Hp.
  assert (Hret : forall r w', rely (tokens TokStartup) [] w w' -> WP o [] (Ret r) post w').
  { intros r w' Hr. apply wp_ret. intros w'' Hr'. apply Hp. rely_chain. }
  apply (wp_mu _ _ _ _ (tokens TokStartup)); [ranks|intros; cbn [snd]; apply px_own_quiet; [ranks|done|by intros []]|].
  intros w1 Hr1 _ Hr2. cbn [snd] in Hr2 |- *. set (w2 := upd_px _ w1) in *.
  apply wp_gets. intros w3 Hr3 _.
  assert (Hask : forall (b : bool) (q : query (option error)) w', rely (tokens TokStartup) [] w w' ->
    (forall w', allowed _ q o [] w') ->
    WP o [] (if b then ask q else Ret None) (fun _ o' h' w'' => o' = o /\ h' = [] /\
      rely (tokens TokStartup) [] w w'') w').
  { intros b q w' Hr Hq. destruct b.
    - apply (wp_ask _ Ret). intros w4 Hr4 _. split; [apply Hq|]. intros e. apply wp_ret.
      intros w5 Hr5. repeat (split; [done|]). rely_chain.
    - apply wp_ret. intros w4 Hr4. repeat (split; [done|]). rely_chain. }
  apply wp_call. eapply wp_mono; [|apply Hask; [rely_chain|done]].
  intros r o' h' w4 (-> & -> & Hr4). destruct r as [err|]; [apply Hret; rely_chain|].
  apply wp_call.
  assert (Hsettle : forall r w5, rely (tokens TokStartup) [] w w5 -> WP o []
    (match r with Some err => Ret (Some err) | None =>
       probed <- (if Readiness (options (px w3)) then ask QProbe else Ret None);;
       match probed with
       | Some err => Ret (Some (ErrWrap "recheck Palworld application readiness after settle" err))
       | None => openStartupGate;;; Ret None
       end end) post w5).
  { intros [err|] w5 Hr5; [by apply Hret|].
    apply wp_call. eapply wp_mono; [|apply Hask; [exact Hr5|done]].
    intros [err|] o' h' w6 (-> & -> & Hr6); [by apply Hret|].
    apply wp_call, (wp_openStartupGate _ _ (tokens TokStartup)); [done|done|done|].
    intros w7 Hr7. apply Hret. rely_chain. }
  case_bool_decide.
  - apply wp_ask. intros w5 Hr5 _. split; [done|]. intros sel. apply wp_ret. intros w6 Hr6.
    apply Hsettle. rely_chain.
  - apply wp_ret. intros w5 Hr5. apply (Hsettle None). rely_chain.
Qed.

Lemma wp_startup_offline startSent post w :
  (forall r w', rely (tokens TokStartup) [] w w' -> post r o [] w') ->
  WP o [] (startup_offline startSent) post w.
Proof.
  intros Hp.
  assert (Hret : forall r w', rely (tokens TokStartup) [] w w' -> WP o [] (Ret r) post w').
  { intros r w' Hr. apply wp_ret. intros w'' Hr'. apply Hp. rely_chain. }
  apply wp_call, (wp_markBackendNotRunning _ _ (tokens TokStartup)); [ranks|done|done|].
  intros w1 Hr1. destruct startSent; [apply Hret; rely_chain|].
  apply wp_ask. intros w2 Hr2 _. split; [done|]. intros [err|]; [|apply Hret; rely_chain].
  destruct (IsPermanent err); apply Hret; rely_chain.
Qed.

Lemma wp_ensureRunning startSent post w :
  (forall r w', rely (tokens TokStartup) [] w w' -> post r o [] w') ->
  WP o [] (ensureRunning startSent) post w.
Proof.
  intros Hp.
  assert (Hret : forall r w', rely (tokens TokStartup) [] w w' -> WP o [] (Ret r) post w').
  { intros r w' Hr. apply wp_ret. intros w'' Hr'. apply Hp. rely_chain. }
  assert (Hwait : forall (next : loop bool (option error)) w', rely (tokens TokStartup) [] w w' -> WP o []
    (match next with Return r => Ret (Return r) | Again startSent => startup_wait startSent end) post w').
  { intros [b|r] w' Hr; [|by apply Hret]. apply wp_ask. intros w1 Hr1 _. split; [done|].
    intros sel. apply Hret. rely_chain. }
  assert (Hmark : forall b w', rely (tokens TokStartup) [] w w' -> WP o []
    (markBackendNotRunning;;; Ret (Again b)) (fun next o h w => WP o h
      (match next with Return r => Ret (Return r) | Again startSent => startup_wait startSent end) post w) w').
  { intros b w' Hr. apply wp_call, (wp_markBackendNotRunning _ _ (tokens TokStartup)); [ranks|done|done|].
    intros w1 Hr1. apply wp_ret. intros w2 Hr2. apply (Hwait (Again b)). rely_chain. }
  apply wp_ask. intros w1 Hr1 _. split; [done|]. intros [state err]. apply wp_call.
  destruct err as [err|]; [apply wp_ret; intros w2 Hr2;
    apply (Hwait (if IsPermanent err then Return _ else Again startSent)); rely_chain|].
  case_bool_decide.
  { apply wp_call, wp_startup_running. intros r w2 Hr2. apply wp_ret. intros w3 Hr3.
    apply (Hwait (Return r)). rely_chain. }
  case_bool_decide.
  { apply wp_startup_offline. intros r w2 Hr2. apply (Hwait r). rely_chain. }
  case_bool_decide; [apply Hmark; rely_chain|].
  case_bool_decide; [apply Hmark; rely_chain|].
  apply wp_ret. intros w2 Hr2. apply (Hwait (Again startSent)). rely_chain.
Qed.

Lemma wp_startup_exit generation err post w :
  (forall o' w', post tt o' [] w') -> WP o [] (startup_exit generation err) post w.
Proof.
  intros Hp. assert (Hj' : has_job (o ∖ tokens TokStartup)) by by apply has_job_minus.
  assert (Hend : forall o' w', has_job o' -> WP o' [] (add_wg (-1)) post w').
  { intros o' w' [n Hn]. apply (wp_fire Ret _ _ n); [done|]. intros w1. by apply wp_ret. }
  apply wp_call.
  assert (Hfinish : forall w', WP o [] (finishStartup generation)
    (fun _ o h w => WP o h (add_wg (-1)) post w) w').
  { intros w'. apply wp_finishStartup; [ranks|done|done|]. auto. }
  destruct err as [err|]; [|done]. apply wp_gets. intros w1 Hr1 _.
  destruct (ctx_Err w1); [done|]. apply wp_failStartup; [done|]. auto.
Qed.
End startup.

(** ** Every goroutine respects the discipline *)

Lemma recv_msg_len size payload data :
  0 <= size -> fst (recv_msg size payload) = data -> len data <= size.
Proof. intros Hs <-. simpl. unfold len. rewrite length_take. lia. Qed.

Lemma wp_Serve_loop post o w :
  tok TokServe ∈ o -> (forall r w', post r o [] w') -> WP o [] Serve_loop post w.
Proof.
  intros Ho Hp. assert (Hret : forall r w', WP o [] (Ret r) post w') by (intros; by apply wp_ret).
  apply wp_gets. intros w1 Hr1 Hok1. apply wp_ask. intros w2 Hr2 _. split; [by left|].
  intros [client payload|err].
  - destruct (recv_msg _ payload) as [packet truncated] eqn:Hm. destruct truncated; [done|].
    apply wp_call, wp_handleClientPacket; [done| |auto].
    assert (Hr : rely o [] w1 w2) by rely_chain. rewrite (rely_options _ _ _ _ Hr).
    apply (recv_msg_len _ payload); [pose proof (options_ok_packet _ Hok1); lia|]. by rewrite Hm.
  - apply wp_gets. intros w3 Hr3 _. destruct (_ || _); [|done]. apply wp_gets. auto.
Qed.

Theorem body_ok t o w : pre t o w -> WP o [] (body t) (task_post pre) w.
Proof.
  destruct t as [| | | |failures|generation startSent|key sid|sid|sid|id generation attempt| |]; cbn [body]; intros Hpre.
  - apply wp_call, wp_Serve; [done|]. intros w1. apply wp_ret. intros w2 _. split; [done|]. apply Hpre.
  - apply wp_call, wp_Serve_loop; [done|]. intros [[]|result] w1.
    + apply wp_ret. by intros w2 _.
    + apply wp_call, wp_Serve_exit; [done|]. intros o' w2. by apply wp_ret.
  - destruct Hpre as [n Hn]. apply wp_call, wp_await. intros w1 _ _ _.
    apply wp_world; [intros w'; by repeat split|]. intros w2 _.
    apply (wp_fire Ret _ _ n); [done|]. intros w3. apply wp_ret. intros w4 _. by apply wp_ret.
  - apply wp_call, wp_runSweeper; [done| |]; intros; by apply wp_ret.
  - apply wp_call, wp_runBackendHealthMonitor; [done| |]; intros; by apply wp_ret.
  - destruct Hpre as (Ho & Hj & Hrun). apply wp_call, wp_ensureRunning; [done|done|].
    intros [sent|err] w1 Hr1.
    + apply wp_ret. intros w2 Hr2. split; [done|]. split; [done|]. split; [done|].
      pose proof (tokens_sub _ _ Ho) as Hsub.
      assert (Hr : rely (tokens TokStartup) [] w w2) by rely_chain.
      destruct Hrun as [Hsd|[Hrun <-]]; [left; by apply (di_shutdown _ _ _ _ _ _ _ _ _ Hr)|].
      apply (di_startup _ _ _ _ _ _ _ _ _ Hr); [apply tokens_in|done].
    + apply wp_call, wp_startup_exit; [done|done|]. intros o' w2. by apply wp_ret.
  - destruct Hpre. apply wp_call, wp_watch_session; [done|done|]. intros o' w1. by apply wp_ret.
  - destruct Hpre as [Ho Ha]. apply wp_call, wp_readBackend; [done|done| |].
    + intros w1 Hr1. apply wp_ret. intros w2 Hr2. split; [done|]. split; [done|]. alive.
    + intros o' w1. by apply wp_ret.
  - destruct Hpre. apply wp_call, wp_watchContext; [done|done|]. intros o' w1. by apply wp_ret.
  - destruct Hpre as (Ho & _ & Hat). apply wp_call, wp_auto_stop_timer; [done|done|].
    intros w1. by apply wp_ret.
  - apply wp_ask. intros w1 _ _. split; [done|]. intros elapsed.
    apply wp_world; [intros w'; repeat (split; try done); simpl; lia|]. intros w2 _. by apply wp_ret.
  - apply wp_world; [intros w'; by repeat (split; try done)|]. intros w1 _. by apply wp_ret.
Qed.
