(* ===== verification/Reachable.v ===== *)
(** * Reachable: what holds of every execution of the proxy

    An execution starts from the proxy [New] builds, with the goroutine of [Serve],
    the passing of time and the termination signal, and interleaves the steps of all
    goroutines in any order, the environment answering as it likes. *)
From S2P Require Import Prelude Errors Conc World Session Store Proxy Invariant Buffers Rules.
From S2P Require Import Tokens SessionLogic StoreLogic StartupLogic ProxyLogic.

Abbreviation configuration := (config (W:=world) (Q:=query) (L:=lockid) (T:=task)).

(** The configuration in which [Serve] is called on the proxy [p] at the time [now]. *)
Definition initial (now : Z) (p : Proxy) (max : Z) : configuration :=
  Config (initial_world now p max)
    {[0%nat := Thread (body TServe) []; 1%nat := Thread (body TClock) [];
      2%nat := Thread (body TSignal) []]}.

(** The byte limits leave room below the largest [int]. *)
Definition limits_in_range (o : Options) : Prop :=
  StartupBufferBytesGlobal o + MaxPacketSize o < two63.

(** [c] is reached, with the events [tr], from a proxy built with the options [o]. *)
Definition reachable (o : Options) (tr : list (nat * event)) (c : configuration) : Prop :=
  exists now p max, New o = inr (p, max) /\ limits_in_range o /\
    steps event_of body (initial now p max) tr c.

(** The execution a schedule and an oracle describe, from the start. *)
Definition run_schedule (o : Options) (oracle : list (nat * event) -> forall B, query B -> B)
    (sched : list (nat * nat)) : option (list (nat * event) * configuration) :=
  match New o with
  | inl _ => None
  | inr (p, max) =>
      match exec event_of body oracle sched 3 [] (initial 0 p max) with
      | Some (_, tr, c) => Some (tr, c)
      | None => None
      end
  end.

Lemma run_schedule_reachable o oracle sched tr c :
  limits_in_range o -> run_schedule o oracle sched = Some (tr, c) -> reachable o tr c.
Proof.
  unfold run_schedule. intros Hl. destruct (New o) as [err|[p max]] eqn:Hnew; [done|].
  destruct (exec _ _ _ _ _ _ _) as [[[next tr'] c']|] eqn:He; [|done]. intros [= <- <-].
  exists 0, p, max. split; [done|]. split; [done|]. eapply exec_sound; [exact He|]. apply steps_refl.
Qed.

(** The question the goroutine [tid] is about to ask satisfies [P]. *)
Definition asking (P : forall B, query B -> bool) (c : configuration) (tid : nat) : bool :=
  match pool c !! tid with
  | Some th => match code th with @Ask _ _ _ _ _ B q _ => P B q | _ => false end
  | None => false
  end.

(** What an event says of the configuration it happens in. *)
Lemma step_event_inv c tid ev c' :
  step event_of body c (Some (tid, ev)) c' ->
  exists B (q : query B) k h b, pool c !! tid = Some (Thread (Ask q k) h) /\
    ev = event_of B q b /\ c' = Config (world_of c) (<[tid := Thread (k b) h]> (pool c)).
Proof. inversion 1; subst; simpl in *. do 5 eexists. by repeat split. Qed.

(** ** The initial configuration *)

Lemma default_options_limits o :
  MaxPacketSize (default_options o) = MaxPacketSize o /\
  StartupBufferPackets (default_options o) = StartupBufferPackets o /\
  StartupBufferBytesPerSession (default_options o) = StartupBufferBytesPerSession o /\
  StartupBufferBytesGlobal (default_options o) = StartupBufferBytesGlobal o /\
  MaxSessions (default_options o) = MaxSessions o.
Proof. unfold default_options. cbv zeta. repeat (case_bool_decide; simpl); done. Qed.

Lemma New_inv o p max :
  New o = inr (p, max) ->
  p = initial_proxy (default_options o) /\ max = MaxSessions o /\ 1 <= max /\
  1 <= MaxPacketSize o /\ 1 <= StartupBufferPackets o /\
  MaxPacketSize o <= StartupBufferBytesPerSession o <= StartupBufferBytesGlobal o.
Proof.
  unfold New, NewStore. cbv zeta. destruct (default_options_limits o) as (E1 & E2 & E3 & E4 & E5).
  rewrite ?E1, ?E2, ?E3, ?E4, ?E5.
  do 4 (match goal with |- (if ?b then _ else _) = _ -> _ => destruct b eqn:?; [done|] end).
  destruct (bool_decide (MaxSessions o < 1)) eqn:?; [done|]. intros [= <- <-]. go_bool. repeat (split; [done || lia|]). lia.
Qed.

Lemma initial_state_ok now o p max :
  New o = inr (p, max) -> limits_in_range o -> state_ok (initial_world now p max).
Proof.
  intros (-> & -> & Hmax & H1 & H2 & H3 & H4)%New_inv Hl. unfold limits_in_range in Hl.
  destruct (default_options_limits o) as (E1 & E2 & E3 & E4 & E5).
  split; simpl; try done.
  - split; rewrite ?E1, ?E2, ?E3, ?E4; lia.
  - split; simpl; [apply map_Forall_empty|done|]. rewrite E4. lia.
  - by intros sid ?%is_Some_lookup_empty.
  - unfold store_len. simpl. rewrite map_size_empty. lia.
  - by intros sid ?%is_Some_lookup_empty.
  - by intros id ?%is_Some_lookup_empty.
Qed.

Definition initial_own (tid : nat) : coPset := if decide (tid = 0%nat) then tokens TokServe else ∅.

Lemma initial_config_ok now o p max :
  New o = inr (p, max) -> limits_in_range o ->
  config_ok inv guar rely rank allowed pre (initial now p max).
Proof.
  intros Hnew Hl. pose proof (initial_state_ok now o p max Hnew Hl) as Hok.
  apply New_inv in Hnew as (-> & _). exists ∅, (⊤ ∖ tokens TokServe), initial_own.
  assert (Hth : forall tid th, pool (initial now (initial_proxy (default_options o)) max) !! tid = Some th ->
    locks th = [] /\ exists t, code th = body t /\
      pre t (initial_own tid) (initial_world now (initial_proxy (default_options o)) max)).
  { intros tid th. unfold initial. cbn [pool]. rewrite !lookup_insert_Some, lookup_singleton_Some.
    intros [[<- <-]|[_ [[<- <-]|[_ [<- <-]]]]]; (split; [done|]); eexists; (split; [reflexivity|]); cbn [pre]; try done. }
  assert (Hown : forall i, initial_own i ⊆ tokens TokServe).
  { intros i. unfold initial_own. case_decide; set_solver. }
  split.
  - split; [done|]. assert (Hne : forall t, t <> TokServe -> tok t ∈ ⊤ ∖ tokens TokServe).
    { intros t Ht. apply elem_of_difference. split; [done|]. rewrite elem_of_tokens. by intros ?%tok_inj. }
    exists ∅, ∅, ∅. split; try done. intros [] Ht; apply Hne; simpl in Ht; done.
  - intros tid th Hlook. destruct (Hth _ _ Hlook) as (Hlk & t & Hcode & Hpre). rewrite Hlk, Hcode.
    split; [specialize (Hown tid); set_solver|]. split; [|by apply body_ok].
    intros l m Hin. by apply elem_of_nil in Hin.
  - intros i j th1 th2 Hij H1 H2. destruct (Hth _ _ H1) as [-> _], (Hth _ _ H2) as [-> _]. split.
    + unfold initial_own. repeat case_decide; set_solver.
    + intros l m m' Hin. by apply elem_of_nil in Hin.
  - intros l. set_solver.
Qed.

(** Every reachable configuration respects the discipline. *)
Lemma reachable_ok o tr c : reachable o tr c -> config_ok inv guar rely rank allowed pre c.
Proof.
  intros (now & p & max & Hnew & Hl & Hs).
  eapply steps_config_ok; [apply rely_preorder|exact guar_rely|exact body_ok|exact Hs|by eapply initial_config_ok].
Qed.

Lemma reachable_state o tr c : reachable o tr c -> state_ok (world_of c).
Proof. intros Hr. by destruct (config_ok_inv _ _ _ _ _ _ _ (reachable_ok _ _ _ Hr)) as (xl & pot & [? ?]). Qed.

(** What [config_ok] says of a goroutine about to ask a question. *)
Lemma reachable_ask o tr c :
  reachable o tr c -> exists xl pot (own : nat -> coPset), inv (world_of c) xl pot /\
    (forall tid th, pool c !! tid = Some th -> own tid ## pot) /\
    (forall tid1 tid2 th1 th2, tid1 <> tid2 -> pool c !! tid1 = Some th1 ->
       pool c !! tid2 = Some th2 -> own tid1 ## own tid2) /\
    (forall tid B (q : query B) k h, pool c !! tid = Some (Thread (Ask q k) h) ->
       allowed _ q (own tid) h (world_of c)).
Proof.
  intros Hr. eapply (config_ok_ask inv guar rely rank allowed pre). by eapply reachable_ok.
Qed.

Lemma reachable_trans o tr c tr' c' :
  reachable o tr c -> steps event_of body c tr' c' -> reachable o (tr ++ tr') c'.
Proof.
  intros (now & p & max & Hnew & Hl & Hs) Hs'. exists now, p, max. split; [done|]. split; [done|].
  by eapply steps_trans.
Qed.

(** From one reachable configuration to a later one the state only moves the way [disc]
    lets the goroutines move it together. *)
Definition evolves : world -> world -> Prop :=
  disc False False False False False False (fun _ => False).

Lemma evolves_refl w : evolves w w.
Proof. apply disc_refl. Qed.

Lemma guar_evolves o h w w' : guar o h w w' -> evolves w w'.
Proof. intros Hg. by eapply disc_mono, Hg. Qed.

Lemma reachable_steps o tr c tr' c' :
  reachable o tr c -> steps event_of body c tr' c' -> evolves (world_of c) (world_of c').
Proof.
  intros Hr Hs. induction Hs as [c|c tr1 c1 e c2 Hs IH Hstep]; [apply disc_refl|].
  eapply disc_trans; [by apply IH|].
  pose proof (reachable_ok _ _ _ (reachable_trans _ _ _ _ _ Hr Hs)) as Hok.
  destruct (step_config_guar body inv guar rely rank allowed pre event_of _ _ _ Hstep Hok) as [->|(o' & h & Hg)];
    [apply disc_refl|by eapply guar_evolves].
Qed.

Lemma reachable_options o tr c :
  reachable o tr c -> options (px (world_of c)) = default_options o /\
  storeMax (world_of c) = MaxSessions o.
Proof.
  intros (now & p & max & Hnew & Hl & Hs).
  assert (Hr : reachable o [] (initial now p max)).
  { exists now, p, max. split; [done|]. split; [done|]. apply steps_refl. }
  pose proof (reachable_steps _ _ _ _ _ Hr Hs) as Hev.
  rewrite (di_options _ _ _ _ _ _ _ _ _ Hev), (di_max _ _ _ _ _ _ _ _ _ Hev).
  apply New_inv in Hnew as (-> & -> & _). done.
Qed.
