(* ===== verification/Scenario.v ===== *)
(** * Scenario: executions to evaluate

    Concrete options, oracles and schedules, so that the theorems on executions can be
    applied to configurations the scheduler computes. *)
From S2P Require Import Prelude Errors Conc World Session Store Proxy Invariant Buffers Rules.
From S2P Require Import Tokens SessionLogic StoreLogic StartupLogic ProxyLogic Reachable.

Open Scope string_scope.

Definition backend_addr : UDPAddr := mkUDPAddr "10.0.0.2" 8211.

Definition client_addr : UDPAddr := mkUDPAddr "192.0.2.7" 50000.

(** The detector accepts the packets that start with a zero byte. *)
Definition zero_detector (packet : bytes) : bool :=
  match packet with b :: _ => bool_decide (b = Byte.x00) | [] => false end.

Definition sample_options : Options :=
  mkOptions true (Some backend_addr) true (Some zero_detector) true 2 1500 (60 * Second) 0
    (300 * Second) 0 (120 * Second) (2 * Second) 0 0 4 6000 12000.

Definition wake_packet : bytes := [Byte.x00; Byte.x01].

(** The answers of an environment whose backend is in the state [state]. *)
Definition answers (state : string) (elapsed : Z) (B : Type) (q : query B) : B :=
  match q in query B return B with
  | QStatus => (state, None)
  | QStart | QStop | QWaitReady | QProbe | QDial => None
  | QWrite _ _ | QWriteClient _ _ => None
  | QReadBackend _ => ([], Some (ErrText "closed"))
  | QReceive => Datagram client_addr wake_packet
  | QSelect => Ticked elapsed
  | QEither => true
  | QOrder ids => ids
  | QKeyOrder keys => keys
  | QElapse => elapsed
  end.

(** A running backend and nobody playing. *)
Definition idle_oracle (tr : list (nat * event)) (B : Type) (q : query B) : B :=
  answers StateRunning (400 * Second) B q.

(** An offline backend that a client wakes. *)
Definition wake_oracle (tr : list (nat * event)) (B : Type) (q : query B) : B :=
  answers StateOffline (1 * Second) B q.

Lemma sample_limits : limits_in_range sample_options.
Proof. unfold limits_in_range. vm_compute. done. Qed.

(** What the scheduler finds in the configuration it reaches. *)
Definition found (oracle : list (nat * event) -> forall B, query B -> B) (sched : list (nat * nat))
    (check : configuration -> bool) : bool :=
  match run_schedule sample_options oracle sched with
  | Some (_, c) => check c
  | None => false
  end.

Lemma found_reachable oracle sched check :
  found oracle sched check = true -> exists tr c, reachable sample_options tr c /\ check c = true.
Proof.
  unfold found. destruct (run_schedule _ _ _) as [[tr c]|] eqn:Hr; [|done]. intros Hc.
  exists tr, c. split; [|done]. eapply run_schedule_reachable; [apply sample_limits|exact Hr].
Qed.

Definition is_stop (B : Type) (q : query B) : bool := match q with QStop => true | _ => false end.

Definition is_start (B : Type) (q : query B) : bool := match q with QStart => true | _ => false end.

Definition is_write (B : Type) (q : query B) : bool := match q with QWrite _ _ => true | _ => false end.

Lemma asking_stop c tid :
  asking is_stop c tid = true -> exists k h, pool c !! tid = Some (Thread (Ask QStop k) h).
Proof.
  unfold asking. destruct (pool c !! tid) as [[p h]|] eqn:Hp; [|done]. simpl.
  destruct p as [|B f k|B q k| | |]; try done. destruct q; try done. by exists k, h.
Qed.

Lemma asking_start c tid :
  asking is_start c tid = true -> exists k h, pool c !! tid = Some (Thread (Ask QStart k) h).
Proof.
  unfold asking. destruct (pool c !! tid) as [[p h]|] eqn:Hp; [|done]. simpl.
  destruct p as [|B f k|B q k| | |]; try done. destruct q; try done. by exists k, h.
Qed.

Lemma asking_write c tid :
  asking is_write c tid = true ->
  exists sid data k h, pool c !! tid = Some (Thread (Ask (QWrite sid data) k) h).
Proof.
  unfold asking. destruct (pool c !! tid) as [[p h]|] eqn:Hp; [|done]. simpl.
  destruct p as [|B f k|B q k| | |]; try done. destruct q; try done. by do 4 eexists.
Qed.

(** A termination signal with nobody playing: the socket is closed and every ticker
    loses against the context. *)
Definition closing_oracle (tr : list (nat * event)) (B : Type) (q : query B) : B :=
  match q in query B return B with
  | QReceive => ReceiveError (ErrSentinel NetErrClosed)
  | QSelect => CtxDone (ErrSentinel Canceled)
  | q => answers StateOffline (1 * Second) _ q
  end.

Definition returned_from_serve (c : configuration) : bool :=
  match serveResult (world_of c) with Some _ => true | None => false end.
