(* ===== verification/Accounts.v ===== *)
(** * Accounts: the wait groups and who gives them back

    Every goroutine of the proxy with its account: the units of [wg], of a session's
    [goroutineWG] and of the running auto-stop callbacks it still has to return, and the
    sessions it has taken out of the table and still has to wait for.  All code keeps the
    accounts, so in every execution the counters are exactly the sums over the goroutines
    of the pool, and a session outside the table has goroutines only while somebody who is
    counted himself waits for them. *)
From S2P Require Import Prelude Errors Conc Ledger World Session Store Proxy Invariant Buffers Rules.
From S2P Require Import Tokens SessionLogic StoreLogic StartupLogic ProxyLogic Reachable.

Open Scope list_scope.
Open Scope Z_scope.

(** ** Accounts *)

Inductive credit := Job | Work (sid : nat) | Fired (id : nat).

#[export] Instance credit_eq_dec : EqDecision credit.
Proof. solve_decision. Defined.

Fixpoint tally (c : credit) (l : list credit) : Z :=
  match l with
  | [] => 0
  | x :: l => (if decide (x = c) then 1 else 0) + tally c l
  end.

(** [serving]: the goroutine of [Serve] before it returns; [units] and [owed] as above.
    [locked] says that it holds the lock of the store, [seen] what it then found in the table
    and [known] which sessions it has seen in the heap. *)
Record account := mkAccount {
  serving : bool;
  units : list credit;
  owed : list nat;
  locked : bool;
  seen : option (gmap string nat);
  known : list nat }.

#[export] Instance account_eta : Eta account := fun s =>
  mkAccount (serving s) (units s) (owed s) (locked s) (seen s) (known s).

Definition held (c : credit) (s : account) : Z := tally c (units s).

(** The counter the units of a credit stand for. *)
Definition count (w : world) (c : credit) : Z :=
  match c with
  | Job => wg (px w)
  | Work sid => workers w sid
  | Fired id => Z.b2z (bool_decide (timers w !! id = Some TimerFired))
  end.

Definition in_table (w : world) (sid : nat) : Prop := exists key, sessions w !! key = Some sid.

Definition covered (s : account) (w : world) (sid : nat) : Prop :=
  workers w sid = 0 \/ in_table w sid \/ sid ∈ owed s.

(** [Serve] itself or counted by [wg]. *)
Definition on_duty (s : account) : Prop := serving s = true \/ 0 < held Job s.

Definition active (s : account) : Prop := serving s = true \/ units s <> [].

Definition knows (s : account) (w : world) : Prop :=
  (forall sid, sid ∈ known s -> is_Some (heap w !! sid)) /\
  (locked s = true -> forall m, seen s = Some m -> sessions w = m).

Definition backed (s : account) (w : world) : Prop :=
  state_ok w /\ (forall c, held c s <= count w c) /\ (owed s <> [] -> on_duty s) /\ knows s w.

(** Only time has passed, or the termination signal has come. *)
Definition idle_move (w w' : world) : Prop :=
  w' = w <| clock := clock w' |> <| parentCancelled := parentCancelled w' |>.

Record moves (s : account) (w : world) (s' : account) (w' : world) : Prop := {
  mv_count : forall c, count w' c - count w c = held c s' - held c s;
  mv_covered : forall sid, covered s w sid -> covered s' w' sid;
  mv_duty : owed s' <> [] -> on_duty s';
  mv_serving : serving s' = true -> serving s = true;
  mv_result : serveResult w' = serveResult w \/ (serving s = true /\ serving s' = false);
  mv_sessions : sessions w' = sessions w \/ locked s = true;
  mv_locked : locked s' = locked s;
  mv_knows : knows s' w';
  mv_heap : forall sid, is_Some (heap w !! sid) -> is_Some (heap w' !! sid);
  mv_idle : active s \/ idle_move w w' \/ exists id deadline, timers w !! id = Some (TimerArmed deadline) }.

(** I/O on a session is for a goroutine the session counts; only the passing of time is for
    everybody. *)
Definition permits (B : Type) (q : query B) (s : account) : Prop :=
  match q with
  | QReadBackend sid | QWriteClient sid _ => 1 <= held (Work sid) s
  | QElapse => True
  | _ => active s
  end.

(** The units a goroutine is started with. *)
Definition needs (t : task) : list credit :=
  match t with
  | TListenerCloser | TSweeper | TMonitor _ | TStartup _ _ | TWatch _ _ => [Job]
  | TReadBackend sid | TWatchContext sid => [Work sid]
  | TServe | TServeLoop | TAutoStop _ _ _ | TClock | TSignal => []
  end.

Definition serves (t : task) : bool := match t with TServe | TServeLoop => true | _ => false end.

Definition start (t : task) : account := mkAccount (serves t) (needs t) [] false None [].

Definition hands (t : task) (s s' : account) : Prop :=
  serves t = false /\ units s = (needs t ++ units s') /\ s' = s <| units := units s' |> /\
  (owed s' <> [] -> on_duty s -> on_duty s').

Definition acquired (l : lockid) (m : mode) (s : account) : account :=
  if decide ((l, m) = (StoreMu, Exclusive)) then s <| locked := true |> <| seen := None |> else s.

Definition released (l : lockid) (m : mode) (s : account) : account :=
  if decide ((l, m) = (StoreMu, Exclusive)) then s <| locked := false |> else s.

(** What an iteration leaves. *)
Definition settled (r : option task) (s : account) : Prop :=
  owed s = [] /\ locked s = false /\
  match r with
  | Some t => serving s = serves t /\ units s = needs t
  | None => serving s = false /\ units s = []
  end.

Definition fits (h : list (lockid * mode)) (s : account) : Prop :=
  locked s = true -> (StoreMu, Exclusive) ∈ h.

Abbreviation acc := (accounts backed moves permits hands acquired released).

Lemma held_cons c x l s : units s = x :: l -> held c s = (if decide (x = c) then 1 else 0) + tally c l.
Proof. unfold held. by intros ->. Qed.

Lemma tally_nonneg c l : 0 <= tally c l.
Proof. induction l as [|x l IH]; simpl; [lia|]. case_decide; lia. Qed.

Lemma tally_empty l : (forall c, tally c l <= 0) -> l = [].
Proof.
  destruct l as [|x l]; [done|]. intros H. specialize (H x). simpl in H.
  rewrite decide_True in H by done. pose proof (tally_nonneg x l). lia.
Qed.

(** ** Calm code: it neither counts nor touches the table *)

Record calm_move (w w' : world) : Prop := {
  cm_count : forall c, count w' c = count w c;
  cm_sessions : sessions w' = sessions w;
  cm_result : serveResult w' = serveResult w;
  cm_heap : forall sid, is_Some (heap w !! sid) -> is_Some (heap w' !! sid) }.

#[export] Instance calm_move_preorder : PreOrder calm_move.
Proof.
  split; [intros w; by split|]. intros w1 w2 w3 [] []. split; [|congruence..|auto].
  intros c. by rewrite cm_count1.
Qed.

Lemma calm_move_moves s w w' : backed s w -> active s -> calm_move w w' -> moves s w s w'.
Proof.
  intros (_ & _ & Hd & Hk & Hsn) Ha [C1 C2 C3 C4]. split; auto.
  - intros c. rewrite C1. lia.
  - intros sid [H|[[key H]|H]].
    + left. specialize (C1 (Work sid)). simpl in C1. by rewrite C1.
    + right; left. exists key. by rewrite C2.
    + by right; right.
  - split; [auto|]. rewrite C2. auto.
Qed.

Definition plain {B} (q : query B) : Prop :=
  match q with QReadBackend _ | QWriteClient _ _ => False | _ => True end.

Fixpoint calm {A} (p : proc A) : Prop :=
  match p with
  | Ret _ => True
  | Atomic f k => (forall w b w', state_ok w -> f w = Some (b, w') -> calm_move w w') /\ forall b, calm (k b)
  | Ask q k => plain q /\ forall b, calm (k b)
  | Acquire l m k | Release l m k => (l, m) <> (StoreMu, Exclusive) /\ calm k
  | Go t k => (serves t = false /\ needs t = []) /\ calm k
  end.

Lemma calm_bind {A B} (p : proc A) (g : A -> proc B) : calm p -> (forall a, calm (g a)) -> calm (bind p g).
Proof.
  intros Hp Hg. induction p as [a|C f k IH|C q k IH|l m k IH|l m k IH|t k IH]; simpl in *; [apply Hg|..];
    destruct Hp; split; auto.
Qed.

Lemma accounts_calm {A} (p : proc A) s : active s -> calm p -> acc p (fun _ s' => s' = s) s.
Proof.
  intros Ha. induction p as [a|B f k IH|B q k IH|l m k IH|l m k IH|t k IH]; simpl; intros Hc.
  - done.
  - destruct Hc as [Hf Hk]. intros w b w' Hb Hw. exists s. split; [|auto].
    apply calm_move_moves; [done|done|]. eapply Hf; [apply Hb|done].
  - destruct Hc as [Hq Hk]. split; [by destruct q|auto].
  - destruct Hc as [Hl Hk]. unfold acquired. rewrite decide_False by done. auto.
  - destruct Hc as [Hl Hk]. unfold released. rewrite decide_False by done. auto.
  - destruct Hc as [[Hs Hn] Hk]. exists s. split; [|auto]. split; [done|]. rewrite Hn. by destruct s.
Qed.

(** *** Calm accesses *)

Lemma calm_px g w : (forall p, wg (g p) = wg p) -> calm_move w (upd_px g w).
Proof. intros Hg. split; try done. intros []; [apply Hg|done|done]. Qed.

Lemma workers_upd sid g w i :
  (forall s, goroutineWG (g s) = goroutineWG s) -> workers (upd_session sid g w) i = workers w i.
Proof.
  intros Hg. unfold workers. simpl. rewrite lookup_alter. case_decide as Hi; [subst i|done].
  destruct (heap w !! sid); simpl; [apply Hg|done].
Qed.

Lemma calm_upd sid g w : (forall s, goroutineWG (g s) = goroutineWG s) -> calm_move w (upd_session sid g w).
Proof.
  intros Hg. split; try done.
  - intros []; [done|by apply workers_upd|done].
  - intros i [s Hs]. simpl. rewrite lookup_alter. case_decide as Hi; [subst i|by eexists]. rewrite Hs. by eexists.
Qed.

Lemma calm_on_session {B} (nil : B) sid f w :
  (forall s, goroutineWG (snd (f s)) = goroutineWG s) -> calm_move w (snd (on_session nil sid f w)).
Proof.
  intros Hf. unfold on_session. destruct (heap w !! sid) as [s|] eqn:Hs; [|reflexivity].
  pose proof (Hf s) as Hw. destruct (f s) as [b s']. simpl in *. split; try done.
  - intros [|i|]; [done| |done]. simpl. unfold workers. simpl. rewrite lookup_insert. case_decide; [subst|done].
    by rewrite Hs, Hw.
  - intros i Hi. simpl. rewrite lookup_insert. by case_decide.
Qed.

Lemma calm_stop_timer w : calm_move w (stopAutoStopTimerLocked w).
Proof.
  unfold stopAutoStopTimerLocked. destruct (stopTimer (px w)) as [id|]; [|reflexivity].
  transitivity (match timers w !! id with
    | Some (TimerArmed _) => upd_px (fun p => p <| timerWG := timerWG p - 1 |>)
        (w <| timers := <[id := TimerStopped]> (timers w) |>)
    | _ => w end); [|by apply calm_px].
  destruct (timers w !! id) as [[deadline| | |]|] eqn:Ht; try reflexivity. split; try done.
  intros [| |i]; try done. simpl. rewrite lookup_insert. case_decide; [subst|done]. by rewrite Ht.
Qed.

Lemma calm_arm delay w : state_ok w -> calm_move w (snd (arm_timer delay w)).
Proof.
  intros Hok. split; try done. intros [| |i]; try done. simpl. rewrite lookup_insert. case_decide; [subst|done].
  destruct (timers w !! nextTimer w) as [t|] eqn:Ht; [|done].
  pose proof (st_timers _ Hok (nextTimer w) ltac:(by eexists)). lia.
Qed.

Section calm_rules.
Context {A : Type}.

Lemma calm_gets (f : world -> A) : calm (gets f : proc A).
Proof. split; [|done]. intros w b w' _ [= _ <-]. reflexivity. Qed.

Lemma calm_atomic (f : world -> A * world) :
  (forall w, state_ok w -> calm_move w (snd (f w))) -> calm (atomic f : proc A).
Proof. intros Hf. split; [|done]. intros w b w' Hok [= He]. specialize (Hf w Hok). by rewrite He in Hf. Qed.

Lemma calm_rcritical l (f : world -> A) : calm (rcritical l f : proc A).
Proof. split; [done|]. split; [|done]. intros w b w' _ [= _ <-]. reflexivity. Qed.

Lemma calm_critical l (f : world -> A * world) :
  l <> StoreMu -> (forall w, state_ok w -> calm_move w (snd (f w))) -> calm (critical l f : proc A).
Proof.
  intros Hl Hf. split; [by intros [= ->]|]. split; [|by intros b; split; [intros [= ->]|]].
  intros w b w' Hok [= He]. specialize (Hf w Hok). by rewrite He in Hf.
Qed.
End calm_rules.

Lemma calm_modify f : (forall w, state_ok w -> calm_move w (f w)) -> calm (modify f : proc unit).
Proof. intros Hf. by apply calm_atomic. Qed.

Lemma calm_await c : calm (await c : proc unit).
Proof. split; [|done]. intros w b w' _. destruct (c w); [|done]. intros [= _ <-]. reflexivity. Qed.

Create HintDb calm discriminated.

(** An access that updates the proxy or a session without counting. *)
Ltac calm_access :=
  intros; cbn [snd];
  first [ reflexivity
        | apply calm_px; intros []; try reflexivity; simpl; repeat case_match; reflexivity
        | apply calm_upd; intros []; reflexivity
        | solve [eauto 2 with calm nocore] ].

Ltac go_calm :=
  repeat first
    [ progress intros | done | solve [eauto 1 with calm nocore]
    | match goal with
      | |- calm (bind _ _) => apply calm_bind
      | |- calm (Ret _) => exact I
      | |- calm (gets _) => apply calm_gets
      | |- calm (await _) => apply calm_await
      | |- calm (rcritical _ _) => apply calm_rcritical
      | |- calm (critical _ _) => apply calm_critical; [discriminate|intros; cbn [snd]; try calm_access]
      | |- calm (modify _) => apply calm_modify; intros; try calm_access
      | |- calm (atomic _) => apply calm_atomic; intros; cbn [snd]; try calm_access
      | |- calm (ask _) => split; [exact I|intros ?; exact I]
      | |- calm (lock _) => split; [discriminate|exact I]
      | |- calm (unlock _) => split; [discriminate|exact I]
      | |- calm (rlock _) => split; [discriminate|exact I]
      | |- calm (runlock _) => split; [discriminate|exact I]
      | |- calm (go _) => split; [split; reflexivity|exact I]
      | |- calm (match ?x with _ => _ end) => destruct x
      end ].

Lemma calm_touch sid : calm (touch sid).
Proof.
  apply calm_atomic. intros w _. apply calm_on_session. intros s. unfold touch_session. by destruct (closed s).
Qed.

Lemma calm_closeOnce_Do sid f : calm f -> calm (closeOnce_Do sid f).
Proof.
  intros Hf. split.
  - intros w b w' _. destruct (heap w !! sid) as [s|]; [|by intros [= _ <-]].
    destruct (closeOnce s); [|done|by intros [= _ <-]]. intros [= _ <-]. calm_access.
  - intros b. simpl. destruct b; [|done]. apply calm_bind; [done|]. go_calm.
Qed.

#[export] Hint Resolve calm_touch calm_closeOnce_Do : calm.

Lemma calm_closeSocket sid : calm (closeSocket sid).
Proof. unfold closeSocket. go_calm. Qed.

#[export] Hint Resolve calm_closeSocket : calm.

Lemma calm_closeResources sid : calm (closeResources sid).
Proof. apply calm_closeOnce_Do. go_calm. Qed.

Lemma calm_RecordActivity sid : calm (RecordActivity sid).
Proof. unfold RecordActivity. go_calm. Qed.

#[export] Hint Resolve calm_closeResources calm_RecordActivity : calm.

Lemma calm_ForwardClient sid data : calm (ForwardClient sid data).
Proof. unfold ForwardClient. go_calm. Qed.

Lemma calm_TryExpire sid cutoff : calm (TryExpire sid cutoff).
Proof.
  unfold TryExpire. apply calm_bind; [|intros []; [|done]].
  - apply calm_atomic. intros w _. apply calm_on_session. intros s. unfold expire_session.
    by destruct (closed s || negb (Before (LastActivity s) cutoff)).
  - apply calm_bind; [|done]. apply calm_closeOnce_Do. go_calm.
Qed.

#[export] Hint Resolve calm_ForwardClient calm_TryExpire : calm.

Lemma calm_Get key : calm (Get key).
Proof. apply calm_rcritical. Qed.

Lemma calm_Len : calm Len.
Proof. apply calm_rcritical. Qed.

Lemma calm_bump w : calm_move w (bump_stop_generation w).
Proof. by apply calm_px. Qed.

#[export] Hint Resolve calm_Get calm_Len calm_stop_timer calm_arm calm_bump : calm.

Lemma calm_removeQueue sid : calm (removeQueue sid).
Proof. unfold removeQueue. go_calm. apply calm_px. intros p. unfold remove_queue. by destruct (queues p !! sid). Qed.

Lemma calm_scheduleAutoStopAttemptLocked generation attempt delay :
  calm (scheduleAutoStopAttemptLocked generation attempt delay).
Proof. unfold scheduleAutoStopAttemptLocked. go_calm. Qed.

#[export] Hint Resolve calm_removeQueue calm_scheduleAutoStopAttemptLocked : calm.

Lemma calm_schedule_generation w : calm_move w (snd (schedule_generation w)).
Proof.
  unfold schedule_generation. destruct (_ || _); [reflexivity|]. simpl. etransitivity; [apply calm_bump|]. apply calm_stop_timer.
Qed.

#[export] Hint Resolve calm_schedule_generation : calm.

Lemma calm_cancelAutoStop : calm cancelAutoStop.
Proof.
  unfold cancelAutoStop. apply calm_critical; [done|]. intros w _. simpl. etransitivity; [apply calm_bump|]. apply calm_stop_timer.
Qed.

Lemma calm_scheduleAutoStop : calm scheduleAutoStop.
Proof. unfold scheduleAutoStop. go_calm. Qed.

Lemma calm_completeStartup generation : calm (completeStartup generation).
Proof.
  apply calm_critical; [done|]. intros w _. unfold complete_startup. case_bool_decide; [reflexivity|]. calm_access.
Qed.

Lemma calm_markBackendNotRunning : calm markBackendNotRunning.
Proof.
  unfold markBackendNotRunning. go_calm. apply calm_px. intros p. unfold mark_not_running. simpl. by case_match.
Qed.

#[export] Hint Resolve calm_cancelAutoStop calm_scheduleAutoStop calm_completeStartup calm_markBackendNotRunning : calm.

Lemma calm_flush_packets active ps : calm (flush_packets active ps).
Proof. induction ps as [|packet ps IH]; [done|]. cbn [flush_packets]. go_calm. Qed.

#[export] Hint Resolve calm_flush_packets : calm.

Lemma calm_flush_queues order : calm (flush_queues order).
Proof. induction order as [|active order IH]; [done|]. cbn [flush_queues]. go_calm. Qed.

#[export] Hint Resolve calm_flush_queues : calm.

Lemma calm_openStartupGate : calm openStartupGate.
Proof.
  unfold openStartupGate. go_calm. apply calm_px. intros p. unfold open_gate. simpl. by case_match.
Qed.

#[export] Hint Resolve calm_openStartupGate : calm.

Lemma calm_startup_running : calm startup_running.
Proof. unfold startup_running. go_calm. Qed.

Lemma calm_startup_offline startSent : calm (startup_offline startSent).
Proof. unfold startup_offline. go_calm. Qed.

#[export] Hint Resolve calm_startup_running calm_startup_offline : calm.

Lemma calm_ensureRunning startSent : calm (ensureRunning startSent).
Proof. unfold ensureRunning, startup_wait. go_calm. Qed.

Lemma calm_refresh_each pending : calm (refresh_each pending).
Proof. induction pending as [|sid pending IH]; [done|]. cbn [refresh_each]. go_calm. Qed.

#[export] Hint Resolve calm_refresh_each : calm.

Lemma calm_refreshPendingSessions : calm refreshPendingSessions.
Proof. unfold refreshPendingSessions. go_calm. Qed.

Lemma calm_removeClosedQueues : calm removeClosedQueues.
Proof. unfold removeClosedQueues. go_calm. Qed.

Lemma calm_shouldLogCapacityWarning : calm shouldLogCapacityWarning.
Proof.
  apply calm_critical; [done|]. intros w _. unfold capacity_warning. destruct (_ && _); simpl; [by destruct w|].
  by apply (calm_px (fun p => p <| lastCapacityWarning := clock w |>)).
Qed.

Lemma calm_runAutoStopAttempt generation attempt : calm (runAutoStopAttempt generation attempt).
Proof.
  assert (Hf : forall w, calm_move w (upd_px (forget_timer generation) w)).
  { intros w. apply calm_px. intros p. unfold forget_timer. by case_bool_decide. }
  unfold runAutoStopAttempt, auto_stop_request. go_calm.
  all: apply calm_critical; [done|intros; apply Hf].
Qed.

#[export] Hint Resolve calm_ensureRunning calm_refreshPendingSessions calm_removeClosedQueues
  calm_shouldLogCapacityWarning calm_runAutoStopAttempt : calm.

(** ** Code that counts *)

Record owing (l : list nat) (s s' : account) : Prop := {
  ow_serving : serving s' = serving s;
  ow_units : units s' = units s;
  ow_locked : locked s' = locked s;
  ow_owed : owed s' = l }.

(** The same account but for what it has seen. *)
Abbreviation same s s' := (owing (owed s) s s').

Lemma same_refl s : same s s.
Proof. by split. Qed.

Lemma owing_trans l l' s1 s2 s3 : owing l s1 s2 -> owing l' s2 s3 -> owing l' s1 s3.
Proof. intros [] []. split; congruence. Qed.

Lemma owing_held l s s' c : owing l s s' -> held c s' = held c s.
Proof. intros []. unfold held. congruence. Qed.

Lemma owing_duty l s s' : owing l s s' -> on_duty s -> on_duty s'.
Proof. intros Ho. unfold on_duty. rewrite (owing_held _ _ _ _ Ho), (ow_serving _ _ _ Ho). auto. Qed.

Lemma on_duty_active s : on_duty s -> active s.
Proof.
  intros [H|H]; [by left|right]. unfold held in H. intros He. rewrite He in H. simpl in H. lia.
Qed.

(** A calm access of a goroutine that learns something. *)
Lemma calm_same_moves s s' w w' :
  backed s w -> active s -> calm_move w w' -> same s s' -> knows s' w' -> moves s w s' w'.
Proof.
  intros Hb Ha Hc Hs Hk. destruct (calm_move_moves s w w' Hb Ha Hc) as [M1 M2 M3 M4 M5 M6 M7 M8 M9 M10].
  pose proof Hs as [S1 S2 S3 S4]. split; try done.
  - intros c. rewrite (owing_held _ _ _ _ Hs). apply M1.
  - intros sid Hsid. destruct (M2 sid Hsid) as [|[|]]; [by left|by right; left|right; right; by rewrite S4].
  - rewrite S4. intros Ho. eapply owing_duty; [exact Hs|auto].
  - by rewrite S1.
  - destruct M5 as [|[? ?]]; [by left|right; by rewrite S1].
Qed.

Section account_rules.
Context {A B : Type}.
Implicit Types (post : A -> account -> Prop).

Lemma acc_atomic (f : world -> B * world) (k : B -> proc A) post s :
  (forall w, backed s w -> exists s', moves s w s' (snd (f w)) /\ acc (k (fst (f w))) post s') ->
  acc (bind (atomic f) k) post s.
Proof. intros H w b w' Hb [= He]. specialize (H w Hb). by rewrite He in H. Qed.

Lemma acc_ask (q : query B) (k : B -> proc A) post s :
  permits _ q s -> (forall b, acc (k b) post s) -> acc (bind (ask q) k) post s.
Proof. by split. Qed.

Lemma acc_calm (p : proc B) (k : B -> proc A) post s :
  calm p -> active s -> (forall b, acc (k b) post s) -> acc (bind p k) post s.
Proof.
  intros Hc Ha Hk. eapply accounts_call; [by apply accounts_calm|]. intros b s' ->. apply Hk.
Qed.

Lemma acc_gets (f : world -> B) (k : B -> proc A) post s :
  active s -> (forall b, acc (k b) post s) -> acc (bind (gets f) k) post s.
Proof. intros Ha Hk. apply acc_calm; [apply calm_gets|done..]. Qed.

Lemma acc_ret (a : A) post s : post a s -> acc (Ret a) post s.
Proof. done. Qed.
End account_rules.

Section account_lock_rules.
Context {A : Type}.
Implicit Types (k : unit -> proc A) (post : A -> account -> Prop).

Lemma acc_modify f k post s :
  (forall w, backed s w -> exists s', moves s w s' (f w) /\ acc (k tt) post s') ->
  acc (bind (modify f) k) post s.
Proof. apply (acc_atomic (fun w => (tt, f w))). Qed.

Lemma acc_access f (post : unit -> account -> Prop) s :
  (forall w, backed s w -> exists s', moves s w s' (f w) /\ post tt s') -> acc (modify f) post s.
Proof. intros H w b w' Hb [= <- <-]. exact (H w Hb). Qed.

Lemma acc_lock_store k post s :
  acc (k tt) post (s <| locked := true |> <| seen := None |>) -> acc (bind (lock StoreMu) k) post s.
Proof. done. Qed.

Lemma acc_unlock_store k post s :
  acc (k tt) post (s <| locked := false |>) -> acc (bind (unlock StoreMu) k) post s.
Proof. done. Qed.

Lemma acc_go t k post s :
  (exists s', hands t s s' /\ acc (k tt) post s') -> acc (bind (go t) k) post s.
Proof. done. Qed.
End account_lock_rules.
