(* ===== verification/Upkeep.v ===== *)
(** * Upkeep: all code keeps its account

    The code that counts: hiring and leaving, the operations of the session table with the
    sessions they take out of it, and every goroutine from start to end. *)
From S2P Require Import Prelude Errors Conc Ledger World Session Store Proxy Invariant Buffers Rules.
From S2P Require Import Tokens SessionLogic StoreLogic StartupLogic ProxyLogic Reachable Accounts.

Open Scope list_scope.
Open Scope Z_scope.

(** ** Units *)

Lemma count_upd_px g w c : count (upd_px g w) c = match c with Job => wg (g (px w)) | _ => count w c end.
Proof. by destruct c. Qed.

Lemma tally_replicate c x n l :
  tally c (replicate n x ++ l) = (if decide (x = c) then Z.of_nat n else 0) + tally c l.
Proof. induction n as [|n IH]; simpl; [by case_decide|]. rewrite IH. case_decide; lia. Qed.

Lemma moves_hire n s w :
  backed s w -> on_duty s ->
  moves s w (s <| units := replicate n Job ++ units s |>) (upd_px (fun p => p <| wg := wg p + Z.of_nat n |>) w).
Proof.
  intros (_ & _ & _ & Hk & Hsn) Hd. split; simpl; auto.
  - intros c. rewrite count_upd_px. unfold held. simpl. rewrite tally_replicate.
    destruct c; simpl; repeat case_decide; try congruence; lia.
  - intros _. destruct Hd as [Hd|Hd]; [by left|right]. unfold held in *. simpl. rewrite tally_replicate.
    case_decide; lia.
  - by split.
  - left. by apply on_duty_active.
Qed.

(** [wg.Add(1); go t]. *)
Lemma acc_hire {A} t (k : unit -> proc A) post s :
  needs t = [Job] -> serves t = false -> on_duty s -> acc (k tt) post s ->
  acc (bind (add_wg 1) (fun _ => bind (go t) k)) post s.
Proof.
  intros Hn Hs Hd Hk. apply acc_modify. intros w Hb. eexists. split; [by apply (moves_hire 1)|].
  apply acc_go. exists s. split; [|done]. split; [done|]. rewrite Hn. split; [done|]. by destruct s.
Qed.

(** [wg.Done()] as the last thing a goroutine does. *)
Lemma acc_leave post s :
  units s = [Job] -> owed s = [] -> serving s = false ->
  (forall s', serving s' = false -> units s' = [] -> owed s' = [] -> locked s' = locked s -> post tt s') ->
  acc (add_wg (-1)) post s.
Proof.
  intros Hu Ho Hs Hp. apply acc_access. intros w (_ & _ & _ & Hk & Hsn).
  exists (s <| units := [] |>). split; [|by apply Hp]. split; simpl; auto.
  - intros c. rewrite (held_cons c Job [] s) by done. rewrite count_upd_px. unfold held.
    destruct c; simpl; repeat case_decide; try congruence; lia.
  - by rewrite Ho.
  - by split.
  - left. right. by rewrite Hu.
Qed.

Lemma workers_add sid n w i :
  is_Some (heap w !! sid) ->
  workers (upd_session sid (add_goroutines n) w) i = workers w i + (if decide (i = sid) then n else 0).
Proof.
  intros [s Hs]. unfold workers. simpl. rewrite lookup_alter. repeat case_decide; subst; try done; [|lia].
  by rewrite Hs.
Qed.

(** [goroutineWG.Done()] as the last thing a goroutine of a session does. *)
Lemma acc_session_leave sid post s :
  units s = [Work sid] -> owed s = [] -> serving s = false ->
  (forall s', serving s' = false -> units s' = [] -> owed s' = [] -> locked s' = locked s -> post tt s') ->
  acc (modify (upd_session sid (add_goroutines (-1)))) post s.
Proof.
  intros Hu Ho Hs Hp. apply acc_access. intros w (_ & Hc & _ & Hk & Hsn).
  assert (Hex : is_Some (heap w !! sid)).
  { specialize (Hc (Work sid)). rewrite (held_cons _ (Work sid) [] s) in Hc by done. simpl in Hc.
    rewrite decide_True in Hc by done. unfold workers in Hc. destruct (heap w !! sid); [by eexists|lia]. }
  assert (Hh : forall i, is_Some (heap w !! i) -> is_Some (heap (upd_session sid (add_goroutines (-1)) w) !! i)).
  { intros i Hi. simpl. rewrite lookup_alter. case_decide; [subst|done]. destruct Hex as [x ->]. by eexists. }
  exists (s <| units := [] |>). split; [|by apply Hp]. split; simpl; auto.
  - intros c. rewrite (held_cons c (Work sid) [] s) by done. unfold held.
    destruct c as [|i|i]; simpl count; [| rewrite workers_add by done|]; simpl; repeat case_decide; simplify_eq; lia.
  - intros i [Hi|[Hi|Hi]]; [|by right; left|by right; right]. left. rewrite workers_add by done.
    case_decide; [|lia]. subst i. specialize (Hc (Work sid)). rewrite (held_cons _ (Work sid) [] s) in Hc by done.
    simpl in Hc. rewrite decide_True in Hc by done. lia.
  - by rewrite Ho.
  - split; [auto|]. auto.
  - left. right. by rewrite Hu.
Qed.

(** ** The session table *)

(** A store operation's look at the table. *)
Lemma look_moves s w : backed s w -> active s -> moves s w (s <| seen := Some (sessions w) |>) w.
Proof.
  intros Hb Ha. apply calm_same_moves; [done|done|reflexivity|by split|]. destruct Hb as (_ & _ & _ & Hk & _).
  split; [done|]. simpl. by intros _ m [= ->].
Qed.

(** An access to the table under its lock; the removed sessions are owed. *)
Lemma table_moves s m l x w :
  backed s w -> active s -> locked s = true -> (l <> [] -> on_duty s) ->
  (forall sid, in_table w sid \/ sid ∈ owed s -> (exists key, m !! key = Some sid) \/ sid ∈ l) ->
  x = None \/ x = Some m ->
  moves s w (s <| owed := l |> <| seen := x |>) (w <| sessions := m |>).
Proof.
  intros (_ & _ & _ & Hk & Hsn) Ha Hl Hd Hc Hx. split; simpl; auto.
  - intros c. change (count (w <| sessions := m |>) c) with (count w c). change (held c (s <| owed := l |> <| seen := x |>)) with (held c s). lia.
  - intros sid [H|H]; [by left|]. right. by apply Hc.
  - split; [done|]. simpl. intros _ m' ->. destruct Hx as [|Hx]; [done|congruence].
Qed.

Lemma acc_Close {A} sid l (k : option error -> proc A) post s :
  owed s = sid :: l -> active s ->
  (forall r s', owing l s s' -> acc (k r) post s') -> acc (bind (Close sid) k) post s.
Proof.
  intros Ho Ha Hk. unfold Close. apply accounts_bind, acc_calm; [apply calm_closeResources|done|]. intros _.
  intros w b w' Hb Hw. exists (s <| owed := l |>). split; [|by apply acc_ret, Hk].
  destruct (match heap w !! sid with Some s => _ | None => true end) eqn:Hz; [|done]. injection Hw as _ <-.
  destruct Hb as (_ & _ & Hd & Hkn & Hsn). split; simpl; auto.
  - intros c. change (held c (s <| owed := l |>)) with (held c s). lia.
  - intros i [H|[H|H]]; [by left|by right; left|]. rewrite Ho in H. apply elem_of_cons in H as [->|H]; [|by right; right].
    left. unfold workers. destruct (heap w !! sid); [by apply bool_decide_eq_true in Hz|done].
  - intros Hn. apply Hd. by rewrite Ho.
  - by split.
Qed.

Lemma acc_close_each toClose : forall r s,
  owed s = toClose -> active s -> acc (close_each toClose r) (fun _ s' => owing [] s s') s.
Proof.
  induction toClose as [|sid toClose IH]; intros r s Ho Ha; cbn [close_each]; [by split|].
  eapply acc_Close; [done..|]. intros err s1 H1. eapply accounts_mono; [apply IH; [apply H1|]|].
  - unfold active. by rewrite (ow_serving _ _ _ H1), (ow_units _ _ _ H1).
  - intros r2 s2 H2. by eapply owing_trans.
Qed.

Lemma owing_active l s s' : owing l s s' -> active s -> active s'.
Proof. intros [H1 H2 _ _]. unfold active. by rewrite H1, H2. Qed.

Lemma acc_expire_each cutoff keys : forall toClose s,
  locked s = true -> owed s = toClose -> on_duty s ->
  acc (expire_each cutoff keys toClose) (fun l s' => owing l s s') s.
Proof.
  induction keys as [|key keys IH]; intros toClose s Hl Ho Hd; cbn [expire_each]; [by split|].
  pose proof (on_duty_active _ Hd) as Ha.
  apply acc_atomic. intros w Hb. exists (s <| seen := Some (sessions w) |>). split; [by apply look_moves|].
  cbn [fst]. set (s1 := s <| seen := Some (sessions w) |>). assert (H01 : owing toClose s s1) by by split.
  pose proof (owing_duty _ _ _ H01 Hd) as Hd1.
  assert (Hskip : acc (expire_each cutoff keys toClose) (fun l s' => owing l s s') s1).
  { eapply accounts_mono; [by apply IH|]. intros l s' H. by eapply owing_trans. }
  destruct (sessions w !! key) as [sid|] eqn:He; [|done].
  apply acc_calm; [apply calm_TryExpire|by apply on_duty_active|]. intros []; [|done].
  apply acc_modify. intros w2 Hb2. exists (s1 <| owed := (toClose ++ [sid]) |> <| seen := None |>). split.
  - apply table_moves; [done|by apply on_duty_active|done|by intros _| |by left].
    destruct Hb2 as (_ & _ & _ & _ & Hsn). specialize (Hsn Hl _ eq_refl).
    intros i [[key' Hk]|Hi].
    + rewrite Hsn in Hk. destruct (decide (key' = key)) as [->|].
      * right. set_solver.
      * left. exists key'. rewrite Hsn. by rewrite lookup_delete_ne.
    + right. simpl in Hi. rewrite Ho in Hi. set_solver.
  - eapply accounts_mono; [by apply IH|]. intros l s' H. eapply owing_trans; [|exact H]. by split.
Qed.

(** Code that leaves a goroutine on duty its account. *)
Definition at_work (s : account) : Prop := on_duty s /\ owed s = [] /\ locked s = false.

Definition steady {A} (p : proc A) : Prop := forall s, at_work s -> acc p (fun _ s' => same s s') s.

Lemma at_work_same s s' : at_work s -> same s s' -> at_work s'.
Proof.
  intros (Hd & Ho & Hl) Hs. split; [by eapply owing_duty|]. by rewrite (ow_owed _ _ _ Hs), (ow_locked _ _ _ Hs).
Qed.

Lemma steady_ret {A} (a : A) : steady (Ret a).
Proof. intros s _. apply same_refl. Qed.

Lemma steady_calm {A} (p : proc A) : calm p -> steady p.
Proof.
  intros Hc s (Hd & _). eapply accounts_mono; [apply accounts_calm; [by apply on_duty_active|done]|].
  intros a s' ->. apply same_refl.
Qed.

Lemma same_trans s1 s2 s3 : same s1 s2 -> same s2 s3 -> same s1 s3.
Proof. intros H1 H2. rewrite (ow_owed _ _ _ H1) in H2. by eapply owing_trans. Qed.

Lemma steady_bind {A B} (p : proc A) (k : A -> proc B) : steady p -> (forall a, steady (k a)) -> steady (bind p k).
Proof.
  intros Hp Hk s Hs. eapply accounts_call; [by apply Hp|]. intros a s1 H1.
  eapply accounts_mono; [exact (Hk a s1 (at_work_same _ _ Hs H1))|]. intros b s2 H2. exact (same_trans _ _ _ H1 H2).
Qed.

(** A steady call of a goroutine on duty. *)
Lemma acc_steady {A B} (p : proc B) (k : B -> proc A) post s :
  steady p -> at_work s -> (forall b s', same s s' -> at_work s' -> acc (k b) post s') -> acc (bind p k) post s.
Proof.
  intros Hp Hs Hk. eapply accounts_call; [by apply Hp|]. intros b s' H. apply Hk; [done|]. by eapply at_work_same.
Qed.

Lemma steady_CloseAll : steady CloseAll.
Proof.
  intros s (Hd & Ho & Hl). apply acc_lock_store. set (s1 := s <| locked := true |> <| seen := None |>).
  assert (Ha1 : active s1) by by apply on_duty_active.
  apply acc_gets; [done|]. intros keys. apply acc_ask; [done|]. intros answer.
  apply acc_atomic. intros w Hb. exists (s1 <| owed := fst (take_sessions answer w) |> <| seen := None |>). split.
  - apply table_moves; [done|done|done|by intros _| |by left]. intros sid [[key Hk]|Hi].
    + right. unfold take_sessions. simpl. apply list_elem_of_omap. exists key. split; [|done].
      rewrite range_order_perm. unfold session_keys. apply list_elem_of_fmap. exists (key, sid).
      split; [done|]. by apply elem_of_map_to_list.
    + simpl in Hi. rewrite Ho in Hi. by apply elem_of_nil in Hi.
  - apply acc_unlock_store. eapply accounts_mono; [by apply acc_close_each|].
    intros r s2 [E1 E2 E3 E4]. split; simpl in *; congruence.
Qed.

Lemma steady_ExpireIdle cutoff : steady (ExpireIdle cutoff).
Proof.
  intros s (Hd & Ho & Hl). apply acc_lock_store. set (s1 := s <| locked := true |> <| seen := None |>).
  assert (Ha1 : active s1) by by apply on_duty_active.
  apply acc_gets; [done|]. intros keys. apply acc_ask; [done|]. intros answer.
  eapply accounts_call; [exact (acc_expire_each cutoff _ [] s1 eq_refl Ho Hd)|]. intros toClose s2 H2. cbv beta in H2.
  pose proof (owing_active _ _ _ H2 Ha1) as Ha2. apply acc_gets; [done|]. intros count. apply acc_unlock_store.
  eapply accounts_call; [apply acc_close_each; [apply H2|done]|]. intros r s3 H3.
  destruct H2 as [E1 E2 E3 E4], H3 as [F1 F2 F3 F4]. split; simpl in *; congruence.
Qed.

Lemma acc_critical_store {A B} (f : world -> B * world) (k : B -> proc A) post s :
  (forall w, backed (s <| locked := true |> <| seen := None |>) w -> exists s',
     moves (s <| locked := true |> <| seen := None |>) w s' (snd (f w)) /\
     acc (k (fst (f w))) post (s' <| locked := false |>)) ->
  acc (bind (critical StoreMu f) k) post s.
Proof. intros H w b w' Hb [= He]. specialize (H w Hb). by rewrite He in H. Qed.

Lemma steady_Remove key sid : steady (Remove key sid).
Proof.
  intros s (Hd & Ho & Hl). apply acc_critical_store.
  set (s1 := s <| locked := true |> <| seen := None |>). assert (Ha1 : active s1) by by apply on_duty_active.
  intros w Hb. unfold remove_session. case_bool_decide as He; cbn [fst snd].
  - exists (s1 <| owed := [sid] |> <| seen := None |>). split.
    + apply table_moves; [done|done|done|by intros _| |by left]. intros i [[key' Hk]|Hi].
      * destruct (decide (key' = key)) as [->|]; [right|left; exists key'; by rewrite lookup_delete_ne].
        rewrite He in Hk. injection Hk as ->. by left.
      * simpl in Hi. rewrite Ho in Hi. by apply elem_of_nil in Hi.
    + eapply acc_Close; [done|done|]. intros r s2 [E1 E2 E3 E4].
      apply acc_ret. split; simpl in *; congruence.
  - exists s1. split; [by apply calm_move_moves|]. apply acc_ret.
    split; simpl; congruence.
Qed.

Lemma acc_add_goroutines {A} sid (k : unit -> proc A) post s :
  known s = [sid] -> owed s = [] -> on_duty s ->
  acc (k tt) post (s <| owed := [sid] |>) ->
  acc (bind (modify (upd_session sid (add_goroutines 2))) (fun _ =>
       bind (go (TReadBackend sid)) (fun _ => bind (go (TWatchContext sid)) k))) post s.
Proof.
  intros Hkn Ho Hd Hk. apply acc_modify. intros w (_ & _ & _ & Hh & Hsn).
  assert (Hex : is_Some (heap w !! sid)) by (apply Hh; rewrite Hkn; by left).
  set (s1 := s <| units := Work sid :: Work sid :: units s |> <| owed := [sid] |>).
  assert (Hheap : forall i, is_Some (heap w !! i) -> is_Some (heap (upd_session sid (add_goroutines 2) w) !! i)).
  { intros i Hi. simpl. rewrite lookup_alter. case_decide; [subst|done]. destruct Hex as [x ->]. by eexists. }
  assert (Hheld : forall c, held c s1 = held c s + (if decide (c = Work sid) then 2 else 0)).
  { intros c. unfold held. simpl. repeat case_decide; simplify_eq; lia. }
  exists s1. split.
  - split; simpl; auto.
    + intros c. rewrite Hheld. destruct c as [|i|i]; simpl count; [| rewrite workers_add by done|];
        simpl; repeat case_decide; simplify_eq; lia.
    + intros i Hi. destruct (decide (i = sid)) as [->|]; [right; right; by left|].
      destruct Hi as [Hi|[Hi|Hi]]; [|by right; left|rewrite Ho in Hi; by apply elem_of_nil in Hi].
      left. rewrite workers_add by done. case_decide; [done|lia].
    + split; [intros i Hi; apply Hheap, Hh, Hi|done].
    + left. by apply on_duty_active.
  - apply acc_go. exists (s1 <| units := Work sid :: units s |>). split.
    { split; [done|]. split; [done|]. split; [by destruct s|]. by intros _ _. }
    apply acc_go. exists (s <| owed := [sid] |>). split; [|done].
    split; [done|]. split; [done|]. split; [by destruct s|]. by intros _ _.
Qed.

(** [NewSession] leaves its caller to put the session into the table. *)
Lemma acc_NewSession options s :
  owed s = [] -> on_duty s ->
  acc (NewSession options) (fun r s' => seen s' = seen s /\
    owing (match r with (Some sid, None) => [sid] | _ => [] end) s s') s.
Proof.
  intros Ho Hd. pose proof (on_duty_active _ Hd) as Ha. unfold NewSession.
  destruct (so_ClientAddr options) as [client|], (so_BackendAddr options), (so_PublicConn options);
    try (apply acc_ret; split; [done|]; by split).
  case_bool_decide; [apply acc_ret; split; [done|]; by split|].
  apply acc_ask; [done|]. intros [err|]; [apply acc_ret; split; [done|]; by split|].
  apply acc_atomic. intros w Hb. exists (s <| known := [fst (alloc_session client (so_MaxPacketSize options) w)] |>).
  assert (Hfresh : heap w !! nextSession w = None).
  { destruct (heap w !! nextSession w) eqn:He; [|done].
    pose proof (st_fresh _ (proj1 Hb) (nextSession w) ltac:(by eexists)). lia. }
  split.
  - destruct Hb as (Hok & Hc & Hdd & Hkn & Hsn). apply calm_same_moves; [done|done| |by split|].
    + split; try done.
      * intros [|i|]; try done. simpl. unfold workers. simpl. rewrite lookup_insert. case_decide; [subst|done].
        by rewrite Hfresh.
      * intros i Hi. simpl. rewrite lookup_insert. by case_decide.
    + split; [|done]. intros i Hi. apply list_elem_of_singleton in Hi as ->. simpl. rewrite lookup_insert_eq. by eexists.
  - cbn [fst]. set (sid := nextSession w). apply acc_calm; [apply calm_touch|done|]. intros _.
    apply acc_add_goroutines; [done..|]. apply acc_ret. split; [done|]. by split.
Qed.

Lemma steady_GetOrCreate key options : steady (GetOrCreate key (NewSession options)).
Proof.
  intros s (Hd & Ho & Hl). apply acc_lock_store. set (s1 := s <| locked := true |> <| seen := None |>).
  assert (Ha1 : active s1) by by apply on_duty_active.
  apply acc_atomic. intros w Hb. exists (s1 <| seen := Some (sessions w) |>). split; [by apply look_moves|]. cbn [fst].
  set (s2 := s1 <| seen := Some (sessions w) |>).
  apply acc_gets; [done|]. intros count. apply acc_gets; [done|]. intros max.
  assert (Hend : forall r s', same s2 s' ->
    acc (unlock StoreMu;;; Ret r : proc (option nat * bool * Z * option error)) (fun _ s' => same s s') s').
  { intros r s' [E1 E2 E3 E4]. apply acc_unlock_store, acc_ret. split; simpl in *; congruence. }
  apply accounts_bind. destruct (sessions w !! key) as [sid|] eqn:He; [apply acc_ret, Hend; by split|].
  case_bool_decide; [apply acc_ret, Hend; by split|].
  eapply accounts_call; [apply acc_NewSession; [exact Ho|exact Hd]|]. intros [created err] s3 [Hseen H3].
  destruct err as [err|]; [apply acc_ret, Hend; by destruct created; destruct H3; split; simpl in *; congruence|].
  destruct created as [sid|]; [|apply acc_ret, Hend; by destruct H3; split; simpl in *; congruence].
  pose proof (owing_active _ _ _ H3 Ha1) as Ha3.
  apply acc_modify. intros w3 Hb3. exists (s3 <| owed := [] |> <| seen := None |>). split.
  - apply table_moves; [done|done|by rewrite (ow_locked _ _ _ H3)|done| |by left].
    destruct Hb3 as (_ & _ & _ & _ & Hsn).
    specialize (Hsn ltac:(by rewrite (ow_locked _ _ _ H3)) _ Hseen). simpl in Hsn.
    intros i [[key' Hk]|Hi]; left.
    + exists key'. rewrite lookup_insert_ne; [done|]. intros <-. rewrite Hsn in Hk. congruence.
    + rewrite (ow_owed _ _ _ H3) in Hi. apply list_elem_of_singleton in Hi as ->. exists key. apply lookup_insert_eq.
  - apply acc_gets; [done|]. intros count'. apply acc_ret, Hend. destruct H3 as [E1 E2 E3 E4]. split; simpl in *; congruence.
Qed.

(** ** Steady code *)

Create HintDb steady discriminated.

#[export] Hint Resolve steady_CloseAll steady_ExpireIdle steady_Remove steady_GetOrCreate : steady.

Ltac go_steady :=
  repeat first
    [ progress intros | done | solve [eauto 1 with steady nocore]
    | solve [apply steady_calm; go_calm]
    | match goal with
      | |- steady (bind _ _) => apply steady_bind
      | |- steady (Ret _) => apply steady_ret
      | |- steady (match ?x with _ => _ end) => destruct x
      end ].

Lemma steady_hire t : needs t = [Job] -> serves t = false -> steady (add_wg 1;;; go t).
Proof.
  intros Hn Hs s (Hd & _).
  apply (acc_hire t (fun a => Ret a) (fun _ s' => same s s') s); [done..|]. apply acc_ret, same_refl.
Qed.

Lemma calm_begin_startup w : calm_move w (snd (begin_startup w)).
Proof. unfold begin_startup. destruct (_ || _); [reflexivity|]. by apply calm_px. Qed.

#[export] Hint Resolve calm_begin_startup : calm.

Lemma steady_startServer : steady startServer.
Proof.
  unfold startServer. apply steady_bind; [apply steady_calm; go_calm|]. intros [generation|]; [|apply steady_ret].
  by apply steady_hire.
Qed.

Lemma steady_watchSession key sid : steady (watchSession key sid).
Proof. by apply steady_hire. Qed.

#[export] Hint Resolve steady_startServer steady_watchSession : steady.

Lemma steady_finishStartup generation : steady (finishStartup generation).
Proof. unfold finishStartup. go_steady. Qed.

Lemma calm_fail_startup generation permanent w : calm_move w (fail_startup generation permanent w).
Proof.
  assert (Hpx : forall w' g, calm_move w w' -> (forall p, wg (g p) = wg p) -> calm_move w (upd_px g w')).
  { intros w' g Hw Hg. etransitivity; [exact Hw|by apply calm_px]. }
  unfold fail_startup. cbv zeta. case_bool_decide; [|by apply calm_px].
  destruct permanent; repeat (apply Hpx; [|done]); reflexivity.
Qed.

#[export] Hint Resolve steady_finishStartup : steady.
#[export] Hint Resolve calm_fail_startup : calm.

Lemma steady_failStartup generation permanent : steady (failStartup generation permanent).
Proof. unfold failStartup. go_steady. Qed.

Lemma steady_expireIdleSessions now : steady (expireIdleSessions now).
Proof. unfold expireIdleSessions. go_steady. Qed.

Lemma calm_close_gate generation w : calm_move w (snd (close_gate generation w)).
Proof.
  unfold close_gate. destruct (_ || _); [reflexivity|]. simpl.
  etransitivity; [|by apply calm_px]. etransitivity; [|apply calm_stop_timer]. by apply calm_px.
Qed.

#[export] Hint Resolve calm_close_gate : calm.

Lemma steady_closeBackendGate generation : steady (closeBackendGate generation).
Proof. unfold closeBackendGate. go_steady. Qed.

Lemma calm_shut_down w : calm_move w (shut_down w).
Proof.
  unfold shut_down. simpl. etransitivity; [|apply calm_stop_timer]. apply calm_px. intros p. simpl. by case_match.
Qed.

#[export] Hint Resolve calm_shut_down : calm.

Lemma steady_shutdown : steady shutdown.
Proof. unfold shutdown. go_steady. Qed.

#[export] Hint Resolve steady_failStartup steady_expireIdleSessions steady_closeBackendGate steady_shutdown : steady.

Lemma steady_forwardOrQueue sid packet : steady (forwardOrQueue sid packet).
Proof.
  unfold forwardOrQueue. go_steady. apply steady_calm, calm_modify. intros. apply calm_px. intros p.
  unfold enqueueLocked. by case_match.
Qed.

#[export] Hint Resolve steady_forwardOrQueue : steady.

Lemma steady_admitPacket key client packet : steady (admitPacket key client packet).
Proof. unfold admitPacket. go_steady. Qed.

#[export] Hint Resolve steady_admitPacket : steady.

Lemma steady_handleClientPacket client packet : steady (handleClientPacket client packet).
Proof. unfold handleClientPacket. go_steady. Qed.

#[export] Hint Resolve steady_handleClientPacket : steady.

(** ** Every goroutine *)

Lemma steady_Serve : steady Serve.
Proof.
  intros s Hs. unfold Serve. apply acc_calm; [go_calm|by apply on_duty_active, Hs|]. intros _.
  apply acc_gets; [by apply on_duty_active, Hs|]. intros o.
  apply acc_ask; [by apply on_duty_active, Hs|]. intros [state err].
  eapply acc_steady; [|exact Hs|].
  { destruct (_ && _); [|apply steady_ret]. apply steady_bind; [|intros _; go_steady].
    apply steady_calm, calm_critical; [done|]. intros. apply calm_px. intros p. unfold adopt_running. simpl. by case_match. }
  intros _ s1 H1 Hs1. apply acc_modify. intros w Hb. eexists. split; [apply (moves_hire 2); [done|apply Hs1]|].
  apply acc_go. exists (s1 <| units := Job :: units s1 |>). split.
  { split; [done|]. split; [done|]. split; [by destruct s1|]. intros Hn. by destruct (Hn (proj1 (proj2 Hs1))). }
  assert (Hs2 : at_work (s1 <| units := Job :: units s1 |>)).
  { destruct Hs1 as (Hd & ? & ?). split; [|done]. destruct Hd as [Hd|Hd]; [by left|right].
    unfold held in *. simpl. lia. }
  eapply acc_steady; [|exact Hs2|].
  { destruct (Readiness o); [|apply steady_ret]. by apply steady_hire. }
  intros _ s3 [E1 E2 E3 E4] _. exists (s3 <| units := units s1 |>). split.
  - split; [done|]. split; [exact E2|]. split; [by destruct s3|]. intros Hn. destruct (Hn (eq_trans E4 (proj1 (proj2 Hs1)))).
  - destruct H1 as [F1 F2 F3 F4]. split; simpl in *; congruence.
Qed.

Lemma at_work_serving t : serves t = true -> at_work (start t).
Proof. intros Ht. split; [by left|done]. Qed.

Lemma at_work_job t : needs t = [Job] -> at_work (start t).
Proof. intros Ht. split; [right; unfold held; simpl; by rewrite Ht|done]. Qed.

(** A goroutine that has returned its last unit. *)
Definition gone (s : account) : Prop := serving s = false /\ units s = [] /\ owed s = [] /\ locked s = false.

Lemma gone_settled s : gone s -> settled None s.
Proof. by intros (? & ? & ? & ?). Qed.

Lemma same_settled t s : owed (start t) = [] -> same (start t) s -> settled (Some t) s.
Proof. intros Ho [E1 E2 E3 E4]. by split. Qed.

(** The end of a goroutine that [wg] counts. *)
Lemma acc_job_leave t (post : unit -> account -> Prop) s :
  needs t = [Job] -> serves t = false -> same (start t) s -> (forall s', gone s' -> post tt s') ->
  acc (add_wg (-1)) post s.
Proof.
  intros Hn Ht [E1 E2 E3 E4] Hp. apply acc_leave; [by rewrite E2|by rewrite E4|by rewrite E1|].
  intros s' F1 F2 F3 F4. apply Hp. split; [done|]. split; [done|]. split; [done|]. by rewrite F4, E3.
Qed.

Lemma body_TServe : acc (body TServe) settled (start TServe).
Proof.
  cbn [body]. apply (acc_steady Serve); [apply steady_Serve|by apply at_work_serving|].
  intros _ s' H _. apply acc_ret. by destruct H.
Qed.

Lemma calm_result r w : serveResult w = r -> calm_move w (w <| serveCancelled := true |>).
Proof. intros _. by split; [intros []|..]. Qed.

Lemma acc_Serve_exit result s : same (start TServeLoop) s -> at_work s -> acc (Serve_exit result) (fun _ => gone) s.
Proof.
  intros H Hs. unfold Serve_exit. apply acc_calm; [apply calm_modify; intros w _; by apply (calm_result (serveResult w))|by apply on_duty_active, Hs|].
  intros _. eapply acc_steady; [apply steady_shutdown|exact Hs|]. intros _ s1 H1 Hs1.
  apply acc_calm; [apply calm_await|by apply on_duty_active, Hs1|]. intros _.
  apply acc_calm; [apply calm_await|by apply on_duty_active, Hs1|]. intros _.
  apply acc_access. intros w (_ & _ & _ & Hk & Hsn). destruct (same_trans _ _ _ H H1) as [E1 E2 E3 E4]. simpl in *.
  exists (s1 <| serving := false |>). split; [|by split_and!]. split; simpl; auto.
  - intros c. change (held c (s1 <| serving := false |>)) with (held c s1).
    replace (count _ c) with (count w c) by (by destruct c). lia.
  - rewrite E4. done.
  - by split.
  - left. by left.
Qed.

Lemma body_TServeLoop : acc (body TServeLoop) settled (start TServeLoop).
Proof.
  assert (Hs : at_work (start TServeLoop)) by by apply at_work_serving.
  cbn [body]. unfold Serve_loop. apply accounts_bind, acc_gets; [by left|]. intros size.
  apply acc_ask; [by left|]. intros [client payload|err].
  - destruct (recv_msg size payload) as [packet [|]]; [by apply acc_ret, acc_ret, same_settled, same_refl|].
    eapply acc_steady; [apply steady_handleClientPacket|exact Hs|]. intros _ s1 H1 _.
    by apply acc_ret, acc_ret, same_settled.
  - assert (Hexit : forall result s, same (start TServeLoop) s -> at_work s ->
      acc (Serve_exit result;;; Ret None : proc (option task)) settled s).
    { intros result s H1 Hw. eapply accounts_call; [by apply acc_Serve_exit|]. intros r s' Hg. by apply acc_ret, gone_settled. }
    apply acc_gets; [by left|]. intros cancelled. destruct (_ || _); [|apply acc_ret; by apply Hexit].
    apply acc_gets; [by left|]. intros parentErr. apply acc_ret. by apply Hexit.
Qed.

Lemma body_TListenerCloser : acc (body TListenerCloser) settled (start TListenerCloser).
Proof.
  cbn [body]. unfold listener_closer. apply accounts_bind, acc_calm; [apply calm_await|by right|]. intros _.
  apply acc_calm; [apply calm_modify; intros w _; by split; [intros []|..]|by right|]. intros _.
  eapply (acc_job_leave TListenerCloser); [done|done|apply same_refl|]. intros s' Hg. by apply acc_ret, gone_settled.
Qed.

Lemma body_TSweeper : acc (body TSweeper) settled (start TSweeper).
Proof.
  cbn [body]. unfold runSweeper. apply accounts_bind, acc_ask; [by right|]. intros [err|now].
  - apply acc_calm; [apply calm_await|by right|]. intros _. apply accounts_bind.
    eapply (acc_job_leave TSweeper); [done|done|apply same_refl|]. intros s' Hg. by apply acc_ret, acc_ret, gone_settled.
  - eapply acc_steady; [apply steady_expireIdleSessions|by apply at_work_job|]. intros _ s' H _.
    by apply acc_ret, acc_ret, same_settled.
Qed.

Lemma body_TMonitor failures : acc (body (TMonitor failures)) settled (start (TMonitor failures)).
Proof.
  set (s := start (TMonitor failures)). assert (Ha : active s) by by right.
  assert (Hw : at_work s) by by apply at_work_job.
  assert (Hagain : forall s' f, same s s' -> acc (Ret (Some (TMonitor f)) : proc (option task)) settled s').
  { intros s' f H. apply acc_ret. by apply (same_settled (TMonitor f)). }
  assert (Hleave : acc (add_wg (-1);;; Ret (Return tt)) (fun next s' =>
    acc (Ret (match next with Again f => Some (TMonitor f) | Return _ => None end : option task) : proc (option task)) settled s') s).
  { apply accounts_bind. eapply (acc_job_leave (TMonitor failures)); [done|done|apply same_refl|].
    intros s' Hg. by apply acc_ret, acc_ret, gone_settled. }
  cbn [body]. unfold runBackendHealthMonitor. apply accounts_bind, acc_ask; [done|]. intros [err|now].
  - by apply acc_calm; [apply calm_await|done|].
  - apply acc_calm; [go_calm|done|]. intros [ready generation].
    destruct ready; simpl negb; cbv iota; [|by apply acc_ret, Hagain].
    apply acc_ask; [done|]. intros err. apply acc_gets; [done|]. intros [cancelled|]; [done|].
    apply acc_calm; [go_calm|done|]. intros [|]; simpl negb; cbv iota; [|by apply acc_ret, Hagain].
    destruct err as [err|]; [|by apply acc_ret, Hagain].
    destruct (backendReadinessInconclusive err).
    { apply acc_calm; [go_calm|done|]. intros _. by apply acc_ret, Hagain. }
    destruct (failures_record generation failures) as [n failures'].
    case_bool_decide; [by apply acc_ret, Hagain|].
    eapply acc_steady; [apply steady_closeBackendGate|exact Hw|]. intros _ s' Hs' _. by apply acc_ret, Hagain.
Qed.

Lemma body_TStartup generation startSent :
  acc (body (TStartup generation startSent)) settled (start (TStartup generation startSent)).
Proof.
  set (s := start (TStartup generation startSent)). assert (Hw : at_work s) by by apply at_work_job.
  cbn [body]. apply acc_calm; [go_calm|by right|]. intros [startSent'|err]; [by apply acc_ret, same_settled, same_refl|].
  unfold startup_exit. apply accounts_bind. eapply acc_steady; [|exact Hw|].
  { destruct err as [err|]; go_steady. }
  intros _ s' H _. eapply (acc_job_leave (TStartup generation startSent)); [done|done|exact H|]. intros s2 Hg. by apply acc_ret, gone_settled.
Qed.

Lemma body_TWatch key sid : acc (body (TWatch key sid)) settled (start (TWatch key sid)).
Proof.
  set (s := start (TWatch key sid)). assert (Hw : at_work s) by by apply at_work_job.
  cbn [body]. unfold watch_session. apply accounts_bind, acc_calm; [apply calm_await|by right|]. intros _.
  eapply acc_steady; [apply steady_Remove|exact Hw|]. intros [[removed count] err] s1 H1 Hw1.
  eapply acc_steady; [apply steady_calm; go_calm|exact Hw1|]. intros _ s2 H2 Hw2.
  eapply acc_steady; [|exact Hw2|].
  { destruct (removed && _); [|apply steady_ret]. apply steady_bind; [go_steady|]. intros [e|]; go_steady. }
  intros _ s3 H3 _. eapply (acc_job_leave (TWatch key sid)); [done|done|exact (same_trans _ _ _ H1 (same_trans _ _ _ H2 H3))|].
  intros s4 Hg. by apply acc_ret, gone_settled.
Qed.

Lemma body_TReadBackend sid : acc (body (TReadBackend sid)) settled (start (TReadBackend sid)).
Proof.
  set (s := start (TReadBackend sid)). assert (Ha : active s) by by right.
  assert (Hp : 1 <= held (Work sid) s) by (unfold held; simpl; rewrite decide_True by done; lia).
  assert (Hexit : acc (readBackend_exit sid;;; Ret false) (fun again s' =>
    acc (Ret (if again : bool then Some (TReadBackend sid) else None) : proc (option task)) settled s') s).
  { apply accounts_bind. unfold readBackend_exit. apply acc_calm; [go_calm|done|]. intros _.
    apply acc_calm; [go_calm|done|]. intros _. apply acc_session_leave; [done..|]. intros s' F1 F2 F3 F4.
    apply acc_ret, acc_ret. by split_and!. }
  assert (Hagain : acc (Ret true) (fun again s' =>
    acc (Ret (if again : bool then Some (TReadBackend sid) else None) : proc (option task)) settled s') s).
  { by apply acc_ret, acc_ret, same_settled, same_refl. }
  cbn [body]. unfold readBackend. apply accounts_bind, acc_gets; [done|]. intros maxp.
  apply acc_ask; [done|]. intros [payload [err|]]; [done|].
  destruct (recv_msg maxp payload) as [data truncated]. destruct (_ || _); [done|].
  apply acc_calm; [go_calm|done|]. intros [|]; simpl negb; cbv iota; [|done].
  apply acc_ask; [done|]. by intros [err|].
Qed.

Lemma body_TWatchContext sid : acc (body (TWatchContext sid)) settled (start (TWatchContext sid)).
Proof.
  set (s := start (TWatchContext sid)). assert (Ha : active s) by by right.
  cbn [body]. unfold watchContext. apply accounts_bind, acc_calm; [|done|].
  { split; [|done]. intros w b w' _. unfold watchContext_ready. destruct (heap w !! sid) as [x|]; [|done].
    cbv zeta. destruct (_ || _); [|done]. intros [= _ <-]. reflexivity. }
  intros [cancelled isDone]. apply acc_calm; [go_calm|done|]. intros cancelFirst. apply acc_calm; [go_calm|done|]. intros _.
  apply acc_session_leave; [done..|]. intros s' F1 F2 F3 F4. apply acc_ret. by split_and!.
Qed.

(** Time and the signal. *)
Lemma idle_moves s w w' : backed s w -> idle_move w w' -> moves s w s w'.
Proof.
  intros (_ & _ & Hd & Hk) Hi. rewrite Hi. split; simpl; auto.
  - intros c. replace (count _ c) with (count w c) by (by destruct c). lia.
  - right; left. by destruct w.
Qed.

Lemma idle_refl w : idle_move w w.
Proof. by destruct w. Qed.

Lemma acc_timer_done id s :
  units s = [Fired id] -> owed s = [] -> serving s = false -> locked s = false ->
  acc (modify (timer_done id)) (fun _ => gone) s.
Proof.
  intros Hu Ho Hs Hl. apply acc_access. intros w (_ & Hc & _ & Hk & Hsn).
  assert (Hf : timers w !! id = Some TimerFired).
  { specialize (Hc (Fired id)). rewrite (held_cons _ (Fired id) [] s) in Hc by done. simpl in Hc.
    rewrite decide_True in Hc by done. by case_bool_decide. }
  exists (s <| units := [] |>). split; [|by split_and!]. split; simpl; auto.
  - intros c. rewrite (held_cons c (Fired id) [] s) by done. unfold held. destruct c as [|i|i]; simpl.
    + repeat case_decide; simplify_eq; lia.
    + repeat case_decide; simplify_eq. change (workers (timer_done id w) i) with (workers w i). lia.
    + rewrite lookup_insert. destruct (decide (id = i)) as [->|Hne].
      * rewrite Hf, decide_True by done. done.
      * rewrite decide_False by congruence. lia.
  - by rewrite Ho.
  - by split.
  - left. right. by rewrite Hu.
Qed.

Lemma body_TAutoStop id generation attempt :
  acc (body (TAutoStop id generation attempt)) settled (start (TAutoStop id generation attempt)).
Proof.
  set (s := start (TAutoStop id generation attempt)). cbn [body]. unfold auto_stop_timer. cbn [bind].
  assert (Hstay : forall w, backed s w -> exists s', moves s w s' w /\ settled None s').
  { intros w Hb. exists s. split; [by apply idle_moves, idle_refl|done]. }
  intros w b w' Hb Hw. unfold timer_wait in Hw.
  destruct (timers w !! id) as [[deadline| | |]|] eqn:Ht; try (injection Hw as <- <-; by apply Hstay).
  case_bool_decide; [|done]. injection Hw as <- <-. exists (s <| units := [Fired id] |>). split.
  - destruct Hb as (_ & _ & _ & Hk & Hsn). split; simpl; auto.
    + intros c. unfold held. destruct c as [|i|i]; simpl.
      * repeat case_decide; simplify_eq; lia.
      * repeat case_decide; simplify_eq. unfold workers. simpl. lia.
      * rewrite lookup_insert. destruct (decide (id = i)) as [->|Hne].
        -- rewrite Ht, decide_True by done. done.
        -- rewrite decide_False by congruence. lia.
    + done.
    + by split.
    + right; right. eauto.
  - apply accounts_bind, acc_calm; [go_calm|by right|]. intros _.
    eapply accounts_mono; [by apply acc_timer_done|]. intros ? s' Hg. by apply acc_ret, gone_settled.
Qed.

Lemma body_accounts t : acc (body t) settled (start t).
Proof.
  destruct t.
  - apply body_TServe.
  - apply body_TServeLoop.
  - apply body_TListenerCloser.
  - apply body_TSweeper.
  - apply body_TMonitor.
  - apply body_TStartup.
  - apply body_TWatch.
  - apply body_TReadBackend.
  - apply body_TWatchContext.
  - apply body_TAutoStop.
  - split; [done|]. intros elapsed w b w' Hb [= <- <-]. exists (start TClock).
    split; [by apply idle_moves; [|destruct w]|done].
  - intros w b w' Hb [= <- <-]. exists (start TSignal). split; [by apply idle_moves; [|destruct w]|done].
Qed.
