(* ===== verification/Balance.v ===== *)
(** * Balance: the ledger of an execution

    Every reachable configuration has a balanced ledger; once [Serve] has returned it is
    empty, so nobody is left who could act. *)
From S2P Require Import Prelude Errors Conc Ledger World Session Store Proxy Invariant Buffers Rules.
From S2P Require Import Tokens SessionLogic StoreLogic StartupLogic ProxyLogic Reachable Accounts Upkeep.

Open Scope list_scope.
Open Scope Z_scope.

(** ** The ledger of an execution *)

Abbreviation books := (books backed moves permits hands acquired released settled fits).

Record balanced (c : configuration) (l : gmap nat account) : Prop := {
  ba_books : books c l;
  ba_count : forall cr, count (world_of c) cr = map_sum (held cr) l;
  ba_covered : forall sid, workers (world_of c) sid = 0 \/ in_table (world_of c) sid \/
    exists tid s, l !! tid = Some s /\ sid ∈ owed s;
  ba_duty : forall tid s, l !! tid = Some s -> owed s <> [] -> on_duty s;
  ba_serving : forall tid1 tid2 s1 s2, l !! tid1 = Some s1 -> l !! tid2 = Some s2 ->
    serving s1 = true -> serving s2 = true -> tid1 = tid2;
  ba_result : serveResult (world_of c) <> None -> forall tid s, l !! tid = Some s -> serving s = false;
  ba_knows : forall tid s, l !! tid = Some s -> knows s (world_of c) }.

Lemma held_nonneg c s : 0 <= held c s.
Proof. apply tally_nonneg. Qed.

Lemma held_le_count c l tid s cr :
  balanced c l -> l !! tid = Some s -> held cr s <= count (world_of c) cr.
Proof.
  intros Hb Hs. rewrite (ba_count _ _ Hb), (map_sum_delete _ _ _ _ Hs).
  pose proof (map_sum_nonneg (held cr) (delete tid l) ltac:(intros; apply held_nonneg)). lia.
Qed.

Lemma backed_of c l tid s : state_ok (world_of c) -> balanced c l -> l !! tid = Some s -> backed s (world_of c).
Proof.
  intros Hok Hb Hs. split; [done|]. split; [|split].
  - intros cr. by eapply held_le_count.
  - by eapply ba_duty.
  - by eapply ba_knows.
Qed.

(** An entry that changes neither the state nor what the goroutine owes. *)
Lemma balanced_same c c' l tid s s' :
  balanced c l -> world_of c' = world_of c -> l !! tid = Some s ->
  serving s' = serving s -> units s' = units s -> owed s' = owed s -> knows s' (world_of c) ->
  books c' (<[tid := s']> l) -> balanced c' (<[tid := s']> l).
Proof.
  intros [B1 B2 B3 B4 B5 B6 B7] Hw Hs E1 E2 E3 Hk Hb. split; rewrite ?Hw; try done.
  - intros cr. rewrite (map_sum_insert_Some _ _ _ _ _ Hs), B2. unfold held. rewrite E2. lia.
  - intros sid. destruct (B3 sid) as [|[|(i & s0 & Hi & Hin)]]; [by left|by right; left|]. right; right.
    destruct (decide (i = tid)) as [->|].
    + exists tid, s'. rewrite lookup_insert_eq. split; [done|]. rewrite E3. congruence.
    + exists i, s0. by rewrite lookup_insert_ne.
  - intros i s0. rewrite lookup_insert_Some. intros [[<- <-]|[_ Hi]]; [|by eapply B4].
    unfold on_duty, held. rewrite E1, E2, E3. by apply (B4 tid).
  - intros i j s1 s2. rewrite !lookup_insert_Some.
    intros [[<- <-]|[? Hi]] [[<- <-]|[? Hj]]; rewrite ?E1; try done; intros; by eapply B5.
  - intros Hr i s0. rewrite lookup_insert_Some. intros [[<- <-]|[_ Hi]]; [rewrite E1|]; by eapply B6.
  - intros i s0. rewrite lookup_insert_Some. intros [[<- <-]|[_ Hi]]; [done|by eapply B7].
Qed.

(** The lock of the store excludes: what others have seen under it stays. *)
Lemma balanced_move c c' l tid s s' :
  balanced c l -> l !! tid = Some s ->
  (forall i s0, i <> tid -> l !! i = Some s0 -> locked s0 = true -> locked s = true -> False) ->
  moves s (world_of c) s' (world_of c') -> books c' (<[tid := s']> l) -> balanced c' (<[tid := s']> l).
Proof.
  intros [B1 B2 B3 B4 B5 B6 B7] Hs Hx [M1 M2 M3 M4 M5 M6 M7 M8 M9 M10] Hb. split; try done.
  - intros cr. rewrite (map_sum_insert_Some _ _ _ _ _ Hs), <- B2. specialize (M1 cr). lia.
  - intros sid. assert (Hown : covered s (world_of c) sid -> workers (world_of c') sid = 0 \/
      in_table (world_of c') sid \/ exists i s0, <[tid := s']> l !! i = Some s0 /\ sid ∈ owed s0).
    { intros [|[|]]%M2; [by left|by right; left|]. right; right. exists tid, s'. by rewrite lookup_insert_eq. }
    destruct (B3 sid) as [|[|(i & s0 & Hi & Hin)]]; [by apply Hown; left|by apply Hown; right; left|].
    destruct (decide (i = tid)) as [->|].
    + rewrite Hs in Hi. injection Hi as <-. apply Hown. by right; right.
    + right; right. exists i, s0. by rewrite lookup_insert_ne.
  - intros i s0. rewrite lookup_insert_Some. intros [[<- <-]|[_ Hi]]; [done|by eapply B4].
  - intros i j s1 s2. rewrite !lookup_insert_Some.
    intros [[<- <-]|[? Hi]] [[<- <-]|[? Hj]] H1 H2; try done; eauto.
  - intros Hr i s0. destruct M5 as [Hsame|[H1 H2]].
    + rewrite Hsame in Hr. rewrite lookup_insert_Some. intros [[<- <-]|[_ Hi]]; [|by eapply B6].
      pose proof (B6 Hr _ _ Hs) as Hf. destruct (serving s') eqn:Hs'; [|done]. rewrite M4 in Hf; done.
    + rewrite lookup_insert_Some. intros [[<- <-]|[Hne Hi]]; [done|].
      destruct (serving s0) eqn:H0; [|done]. destruct Hne. by eapply B5.
  - intros i s0. rewrite lookup_insert_Some. intros [[<- <-]|[Hne Hi]]; [done|].
    destruct (B7 _ _ Hi) as [Hk Hsn]. split; [auto|]. intros Hl. destruct M6 as [Hsame|Hlk].
    + rewrite Hsame. auto.
    + destruct (Hx i s0 ltac:(congruence) Hi Hl Hlk).
Qed.

Lemma balanced_exit c c' l tid s :
  balanced c l -> world_of c' = world_of c -> l !! tid = Some s -> units s = [] -> owed s = [] ->
  books c' (delete tid l) -> balanced c' (delete tid l).
Proof.
  intros [B1 B2 B3 B4 B5 B6 B7] Hw Hs E2 E3 Hb. split; rewrite ?Hw; try done.
  - intros cr. rewrite B2, (map_sum_delete _ _ _ _ Hs). unfold held at 1. rewrite E2. simpl. lia.
  - intros sid. destruct (B3 sid) as [|[|(i & s0 & Hi & Hin)]]; [by left|by right; left|]. right; right.
    exists i, s0. rewrite lookup_delete_ne; [done|]. intros <-. rewrite Hs in Hi. injection Hi as <-.
    rewrite E3 in Hin. by apply elem_of_nil in Hin.
  - intros i s0. rewrite lookup_delete_Some. intros [_ Hi]. by eapply B4.
  - intros i j s1 s2. rewrite !lookup_delete_Some. intros [_ Hi] [_ Hj]. by eapply B5.
  - intros Hr i s0. rewrite lookup_delete_Some. intros [_ Hi]. by eapply B6.
  - intros i s0. rewrite lookup_delete_Some. intros [_ Hi]. by eapply B7.
Qed.

Lemma balanced_go c c' l tid s t s' tid' :
  balanced c l -> world_of c' = world_of c -> l !! tid = Some s -> l !! tid' = None -> hands t s s' ->
  books c' (<[tid' := start t]> (<[tid := s']> l)) -> balanced c' (<[tid' := start t]> (<[tid := s']> l)).
Proof.
  intros [B1 B2 B3 B4 B5 B6 B7] Hw Hs Hn (Ht & Hu & Hs' & Hd) Hb.
  assert (Hn' : <[tid := s']> l !! tid' = None) by (rewrite lookup_insert_ne; [done|congruence]).
  assert (Hso : serving s' = serving s /\ owed s' = owed s /\ locked s' = locked s /\ seen s' = seen s /\ known s' = known s).
  { by rewrite Hs'. }
  destruct Hso as (E1 & E3 & E4 & E5 & E6).
  assert (Hin : forall i s0, <[tid' := start t]> (<[tid := s']> l) !! i = Some s0 ->
    (i = tid' /\ s0 = start t) \/ (i = tid /\ s0 = s') \/ (i <> tid /\ l !! i = Some s0)).
  { intros i s0. rewrite !lookup_insert_Some. intros [[<- <-]|[? [[<- <-]|[? Hi]]]]; auto. }
  split; rewrite ?Hw; try done.
  - intros cr. rewrite (map_sum_insert_None _ _ _ _ Hn'), (map_sum_insert_Some _ _ _ _ _ Hs), B2.
    unfold held. rewrite Hu. simpl. replace (tally cr (needs t ++ units s')) with (tally cr (needs t) + tally cr (units s')); [lia|].
    clear. induction (needs t) as [|x l IH]; simpl; [done|]. rewrite <- IH. lia.
  - intros sid. destruct (B3 sid) as [|[|(i & s0 & Hi & Hio)]]; [by left|by right; left|]. right; right.
    destruct (decide (i = tid)) as [->|].
    + exists tid, s'. rewrite lookup_insert_ne by congruence. rewrite lookup_insert_eq. split; [done|].
      rewrite Hs in Hi. injection Hi as <-. by rewrite E3.
    + exists i, s0. rewrite lookup_insert_ne by congruence. by rewrite lookup_insert_ne.
  - intros i s0 [[-> ->]|[[-> ->]|[_ Hi]]]%Hin; [done| |by eapply B4].
    intros Ho. apply Hd; [done|]. apply (B4 tid); [done|]. by rewrite <- E3.
  - intros i j s1 s2 [[-> ->]|[[-> ->]|[? Hi]]]%Hin [[-> ->]|[[-> ->]|[? Hj]]]%Hin; simpl; rewrite ?E1, ?Ht; try done;
      intros; by eapply B5.
  - intros Hr i s0 [[-> ->]|[[-> ->]|[_ Hi]]]%Hin; [done| |by eapply B6]. rewrite E1. by eapply B6.
  - intros i s0 [[-> ->]|[[-> ->]|[_ Hi]]]%Hin; [|  |by eapply B7].
    + split; [intros sid Hsid; by apply elem_of_nil in Hsid|done].
    + destruct (B7 _ _ Hs) as [K1 K2]. split; [by rewrite E6|]. by rewrite E4, E5.
Qed.

(** No two goroutines hold the lock of the store. *)
Lemma reachable_store_lock o tr c tid1 tid2 th1 th2 :
  reachable o tr c -> tid1 <> tid2 -> pool c !! tid1 = Some th1 -> pool c !! tid2 = Some th2 ->
  (StoreMu, Exclusive) ∈ locks th1 -> (StoreMu, Exclusive) ∈ locks th2 -> False.
Proof.
  intros Hr Hne H1 H2 L1 L2. destruct (reachable_ok _ _ _ Hr) as (xl & pot & own & Hok).
  destruct (po_pair _ _ _ _ _ _ _ _ _ _ _ Hok _ _ _ _ Hne H1 H2) as [_ Hc]. by destruct (Hc _ _ _ L1 L2).
Qed.

Lemma fits_acquired h l m s : fits h s -> fits ((l, m) :: h) (acquired l m s).
Proof.
  unfold fits, acquired. intros Hf. case_decide as He; [injection He as -> ->; intros _; by left|].
  intros Hl. right. by apply Hf.
Qed.

Lemma fits_released h l m s : fits h s -> fits (drop_lock l m h) (released l m s).
Proof.
  unfold fits, released, drop_lock. intros Hf. case_decide as He; [done|]. intros Hl.
  apply list_elem_of_filter. split; [|by apply Hf]. intros Hx. apply He. congruence.
Qed.

Lemma locked_holds c l tid s :
  books c l -> l !! tid = Some s -> locked s = true ->
  exists th, pool c !! tid = Some th /\ (StoreMu, Exclusive) ∈ locks th.
Proof.
  intros Hb Hs Hl. specialize (Hb tid). rewrite Hs in Hb. destruct (pool c !! tid) as [th|]; [|done].
  exists th. split; [done|]. by apply Hb.
Qed.

Lemma knows_acquired k m s w : knows s w -> knows (acquired k m s) w.
Proof. unfold acquired. case_decide; [|done]. by intros [Hk _]. Qed.

Lemma knows_released k m s w : knows s w -> knows (released k m s) w.
Proof. unfold released. case_decide; [|done]. by intros [Hk _]. Qed.

(** What a step of an execution means in the ledger. *)
Lemma balanced_step o tr c e c' l :
  reachable o tr c -> step event_of body c e c' -> balanced c l ->
  exists tid s l', l !! tid = Some s /\ balanced c' l' /\
    (world_of c' = world_of c \/ exists s', moves s (world_of c) s' (world_of c')) /\
    forall tid' ev, e = Some (tid', ev) -> tid' = tid /\
      exists B (q : query B) k b h, pool c !! tid = Some (Thread (Ask q k) h) /\ ev = event_of B q b /\ permits B q s.
Proof.
  intros Hr Hs Hb. pose proof (reachable_state _ _ _ Hr) as Hok.
  destruct (books_step event_of body backed moves permits hands acquired released start settled fits
    body_accounts ltac:(done)
    ltac:(intros h s w s' w' Hm Hf Hl; apply Hf; by rewrite <- (mv_locked _ _ _ _ Hm))
    fits_acquired fits_released
    ltac:(intros h t s s' (_ & _ & -> & _) Hf; exact Hf)
    _ _ _ _ Hs (ba_books _ _ Hb) ltac:(intros; by eapply backed_of))
    as (tid & s & l' & Hl & Hbooks & Hent & Hev).
  exists tid, s, l'. split; [done|]. pose proof (ba_knows _ _ Hb _ _ Hl) as Hk.
  destruct Hent as [t Hw (Ho & Hlk & Hsv & Hu)|Hw (Ho & Hlk & Hsv & Hu)|s' Hm|Hw|k m Hw|k m Hw|t s' tid' Hw Hh Hn];
    (split; [|split; [first [by left|right; by eexists]|done]]).
  - eapply balanced_same; try done. split; [intros sid Hsid; by apply elem_of_nil in Hsid|done].
  - by eapply balanced_exit.
  - eapply balanced_move; try done. intros i s0 Hne Hi L0 L1.
    destruct (locked_holds _ _ _ _ (ba_books _ _ Hb) Hi L0) as (th0 & P0 & Q0).
    destruct (locked_holds _ _ _ _ (ba_books _ _ Hb) Hl L1) as (th1 & P1 & Q1).
    by destruct (reachable_store_lock _ _ _ _ _ _ _ Hr Hne P0 P1).
  - destruct Hb as [B1 B2 B3 B4 B5 B6 B7]. by split; rewrite ?Hw.
  - eapply balanced_same; try done; [..|by apply knows_acquired]; unfold acquired; by case_decide.
  - eapply balanced_same; try done; [..|by apply knows_released]; unfold released; by case_decide.
  - by eapply balanced_go.
Qed.

Definition initial_ledger : gmap nat account :=
  {[0%nat := start TServe; 1%nat := start TClock; 2%nat := start TSignal]}.

Lemma initial_balanced o now p max : New o = inr (p, max) -> balanced (initial now p max) initial_ledger.
Proof.
  intros (-> & _)%New_inv.
  assert (Hin : forall tid s, initial_ledger !! tid = Some s ->
    s = start TServe /\ tid = 0%nat \/ s = start TClock \/ s = start TSignal).
  { intros tid s. unfold initial_ledger. rewrite !lookup_insert_Some, lookup_singleton_Some. naive_solver. }
  split.
  - intros tid. unfold initial, initial_ledger. cbn [pool]. rewrite !lookup_insert, !lookup_singleton.
    unfold agrees. repeat case_decide; try done; cbv iota; (split; [apply body_accounts|done]).
  - intros cr. unfold initial_ledger. rewrite <- insert_empty, !map_sum_insert_None, map_sum_empty by done.
    by destruct cr.
  - intros sid. by left.
  - intros tid s [[-> _]|[-> | ->]]%Hin; done.
  - intros i j s1 s2 [[-> ->]|[-> | ->]]%Hin [[-> ->]|[-> | ->]]%Hin; done.
  - done.
  - intros tid s [[-> _]|[-> | ->]]%Hin; (split; [intros sid Hsid; by apply elem_of_nil in Hsid|done]).
Qed.

(** Every reachable configuration has a balanced ledger. *)
Lemma reachable_balanced o tr c : reachable o tr c -> exists l, balanced c l.
Proof.
  intros (now & p & max & Hnew & Hl & Hs).
  assert (H0 : exists l, balanced (initial now p max) l) by (exists initial_ledger; by eapply initial_balanced).
  assert (Hr0 : reachable o [] (initial now p max)) by (exists now, p, max; split_and!; [done..|constructor]).
  clear Hnew Hl. induction Hs as [c|c tr c1 e c2 Hs IH Hstep]; [done|]. destruct (IH H0 Hr0) as [l Hb].
  pose proof (reachable_trans _ _ _ _ _ Hr0 Hs) as Hr1.
  destruct (balanced_step _ _ _ _ _ _ Hr1 Hstep Hb) as (_ & _ & l' & _ & Hb' & _). by exists l'.
Qed.

(** ** After [Serve] has returned *)

(** Nobody is left who could do anything but wait for ever. *)
Lemma returned_inactive o tr c l tid s :
  reachable o tr c -> balanced c l -> serveResult (world_of c) <> None -> l !! tid = Some s -> ~ active s.
Proof.
  intros Hr Hb Hres Hs. pose proof (reachable_state _ _ _ Hr) as Hok.
  destruct (reachable_ask _ _ _ Hr) as (xl & pot & own & [_ (J & R & C & [_ _ _ P4])] & _).
  destruct (P4 Hres) as (_ & Htable & Ht & Hwg).
  assert (Hserv : serving s = false) by (by eapply ba_result).
  assert (Hzero : forall cr, count (world_of c) cr = 0 -> held cr s <= 0).
  { intros cr Hcr. rewrite <- Hcr. by eapply held_le_count. }
  assert (Hjob : forall i s0, l !! i = Some s0 -> held Job s0 = 0).
  { intros i s0 Hi. pose proof (held_le_count _ _ _ _ Job Hb Hi) as H. simpl in H. pose proof (held_nonneg Job s0). lia. }
  intros [|Hu]; [congruence|]. apply Hu, tally_empty. intros [|sid|id].
  - fold (held Job s). rewrite (Hjob _ _ Hs). done.
  - apply (Hzero (Work sid)). simpl. destruct (ba_covered _ _ Hb sid) as [|[[key Hk]|(i & s0 & Hi & Hin)]]; [done|..].
    + by rewrite Htable, lookup_empty in Hk.
    + assert (Hd : on_duty s0) by (eapply ba_duty; [done|done|]; by intros He; rewrite He in Hin; apply elem_of_nil in Hin).
      destruct Hd as [Hd|Hd]; [by rewrite (ba_result _ _ Hb Hres _ _ Hi) in Hd|]. rewrite (Hjob _ _ Hi) in Hd. lia.
  - apply (Hzero (Fired id)). simpl. case_bool_decide as Hf; [|done].
    pose proof (st_timerWG _ Hok) as Hsum. rewrite Ht, (map_sum_delete _ _ _ _ Hf) in Hsum. simpl in Hsum.
    pose proof (map_sum_nonneg timer_pending (delete id (timers (world_of c))) ltac:(by intros ? [])). lia.
Qed.

Lemma no_pending_timer w id t :
  state_ok w -> timerWG (px w) = 0 -> timers w !! id = Some t -> timer_pending t = 0.
Proof.
  intros Hok Ht Hid. pose proof (st_timerWG _ Hok) as Hsum. rewrite Ht, (map_sum_delete _ _ _ _ Hid) in Hsum.
  pose proof (map_sum_nonneg timer_pending (delete id (timers w)) ltac:(by intros ? [])). destruct t; simpl in *; lia.
Qed.

Lemma returned_step o tr c e c' :
  reachable o tr c -> serveResult (world_of c) <> None -> step event_of body c e c' ->
  idle_move (world_of c) (world_of c') /\ forall tid ev, e = Some (tid, ev) -> ev = EvElapse.
Proof.
  intros Hr Hres Hs. destruct (reachable_balanced _ _ _ Hr) as [l Hb].
  destruct (balanced_step _ _ _ _ _ _ Hr Hs Hb) as (tid & s & l' & Hl & Hb' & Hw & Hev).
  pose proof (returned_inactive _ _ _ _ _ _ Hr Hb Hres Hl) as Hina. split.
  - destruct Hw as [->|[s' Hm]]; [apply idle_refl|]. destruct (mv_idle _ _ _ _ Hm) as [|[|(id & deadline & Hid)]]; [done..|].
    destruct (reachable_ask _ _ _ Hr) as (xl & pot & own & [_ (J & R & C & [_ _ _ P4])] & _).
    destruct (P4 Hres) as (_ & _ & Ht & _).
    pose proof (no_pending_timer _ _ _ (reachable_state _ _ _ Hr) Ht Hid). done.
  - intros tid' ev He. destruct (Hev _ _ He) as (_ & B & q & k & b & h & _ & -> & Hp).
    destruct q; simpl in Hp; try done; destruct Hina; right; intros Hu;
      unfold held in Hp; rewrite Hu in Hp; simpl in Hp; lia.
Qed.

(** Then only time passes. *)
Lemma returned_steps o tr c tr' c' :
  reachable o tr c -> serveResult (world_of c) <> None -> steps event_of body c tr' c' ->
  idle_move (world_of c) (world_of c') /\ Forall (fun x => snd x = EvElapse) tr'.
Proof.
  intros Hr Hres Hs. induction Hs as [c|c tr1 c1 e c2 Hs IH Hstep]; [by split; [apply idle_refl|]|].
  destruct (IH Hr Hres) as [Hi Hf]. pose proof (reachable_trans _ _ _ _ _ Hr Hs) as Hr1.
  assert (Hres1 : serveResult (world_of c1) <> None) by by rewrite Hi.
  destruct (returned_step _ _ _ _ _ Hr1 Hres1 Hstep) as [Hi2 He]. split.
  - unfold idle_move in *. rewrite Hi2, Hi. done.
  - apply Forall_app. split; [done|]. destruct e as [[tid ev]|]; [|constructor].
    constructor; [by eapply He|constructor].
Qed.

(** No session has a goroutine left. *)
Lemma returned_workers o tr c sid :
  reachable o tr c -> serveResult (world_of c) <> None -> workers (world_of c) sid = 0.
Proof.
  intros Hr Hres. destruct (reachable_balanced _ _ _ Hr) as [l Hb].
  change (count (world_of c) (Work sid) = 0). rewrite (ba_count _ _ Hb).
  assert (Hz : forall k s, l !! k = Some s -> held (Work sid) s = 0).
  { intros k s Hk. assert (units s = []) as Hu.
    { destruct (units s) eqn:Hu; [done|]. destruct (returned_inactive _ _ _ _ _ _ Hr Hb Hres Hk). right. by rewrite Hu. }
    unfold held. by rewrite Hu. }
  clear -Hz. induction l as [|k s l Hk _ IH] using map_first_key_ind; [apply map_sum_empty|].
  rewrite map_sum_insert_None by done. rewrite (Hz k) by apply lookup_insert_eq. rewrite IH; [done|].
  intros k' s' Hk'. apply (Hz k'). rewrite lookup_insert_ne; [done|]. by intros <-; simplify_eq.
Qed.
