(* ===== verification/Safety.v ===== *)
(** * Safety: the promises of the running proxy

    What the proxy guarantees in every execution, whatever its clients, its backend,
    the panel and the scheduler do. *)
From S2P Require Import Prelude Errors Conc World Session Store Proxy Invariant Buffers Rules.
From S2P Require Import Tokens SessionLogic StoreLogic StartupLogic ProxyLogic Reachable Scenario.
From S2P Require Import Ledger Accounts Upkeep Balance.

Abbreviation step_to c tid ev c' := (step event_of body c (Some (tid, ev)) c').

(** ** What the proxy asks of the panel *)

Lemma stop_requests o tr c tid err c' :
  reachable o tr c -> step_to c tid (EvStop err) c' ->
  sessions (world_of c) = ∅ /\ shuttingDown (px (world_of c)) = false.
Proof.
  intros Hr (B & q & k & h & b & Hp & He & ->)%step_event_inv.
  destruct (reachable_ask _ _ _ Hr) as (xl & pot & own & _ & _ & _ & Ha).
  specialize (Ha _ _ _ _ _ Hp). by destruct q; simplify_eq/=.
Qed.

(** C1. Automatic stop never interrupts play.  Whenever a goroutine sends the stop request
    to the panel, no client session is open and the proxy is not shutting down (so a
    shutdown never stops the game server either), and the request itself changes no
    state of the proxy. *)
Theorem stop_only_when_idle o tr c tid err c' :
  reachable o tr c -> step_to c tid (EvStop err) c' ->
  sessions (world_of c) = ∅ /\ shuttingDown (px (world_of c)) = false /\ world_of c' = world_of c.
Proof.
  intros Hr Hs. destruct (stop_requests _ _ _ _ _ _ Hr Hs).
  by destruct (step_event_inv _ _ _ _ Hs) as (B & q & k & h & b & _ & _ & ->).
Qed.

Lemma stop_only_when_idle_witness : exists tr c c',
  reachable sample_options tr c /\ step_to c 4%nat (EvStop None) c' /\ sessions (world_of c) = ∅.
Proof.
  destruct (found_reachable idle_oracle [(0, 11); (3, 27); (1, 2); (4, 8)]%nat
    (fun c => asking is_stop c 4)) as (tr & c & Hr & Ha); [vm_compute; reflexivity|].
  destruct (asking_stop _ _ Ha) as (k & h & Hp).
  assert (Hs : exists c', step_to c 4%nat (EvStop None) c').
  { destruct c as [w ts]. eexists. by apply (step_ask event_of body 4 _ QStop k h w ts None). }
  destruct Hs as [c' Hs]. exists tr, c, c'. split; [exact Hr|]. split; [exact Hs|].
  apply (stop_only_when_idle _ _ _ _ _ _ Hr Hs).
Defined.

(** The goroutine [tid] is about to send the start request, or to wait for the game to
    become ready. *)
Definition starting (c : configuration) (tid : nat) : Prop :=
  exists k h, pool c !! tid = Some (Thread (Ask QStart k) h) \/
              pool c !! tid = Some (Thread (Ask QWaitReady k) h).

Lemma starting_owns o tr c : reachable o tr c ->
  exists own : nat -> coPset,
    (forall tid1 tid2 th1 th2, tid1 <> tid2 -> pool c !! tid1 = Some th1 ->
       pool c !! tid2 = Some th2 -> own tid1 ## own tid2) /\
    (forall tid, starting c tid -> tok TokStartup ∈ own tid /\ exists th, pool c !! tid = Some th).
Proof.
  intros Hr. destruct (reachable_ask _ _ _ Hr) as (xl & pot & own & _ & _ & Hd & Ha). exists own. split; [done|].
  intros tid (k & h & [Hp|Hp]); (split; [by destruct (Ha _ _ _ _ _ Hp)|by eexists]).
Qed.

(** C2. Starts are serialised: at any moment at most one goroutine is sending a start
    request or waiting for the readiness of a start. *)
Theorem single_startup o tr c tid1 tid2 :
  reachable o tr c -> starting c tid1 -> starting c tid2 -> tid1 = tid2.
Proof.
  intros Hr H1 H2. destruct (starting_owns _ _ _ Hr) as (own & Hd & Ho).
  destruct (decide (tid1 = tid2)) as [|Hne]; [done|].
  destruct (Ho _ H1) as (O1 & th1 & P1), (Ho _ H2) as (O2 & th2 & P2).
  by destruct (Hd _ _ _ _ Hne P1 P2 _ O1 O2).
Qed.

Lemma single_startup_witness : exists tr c, reachable sample_options tr c /\ starting c 9%nat /\
  (forall tid, starting c tid -> tid = 9%nat).
Proof.
  destruct (found_reachable wake_oracle [(0, 62); (9, 6)]%nat (fun c => asking is_start c 9))
    as (tr & c & Hr & Ha); [vm_compute; reflexivity|].
  destruct (asking_start _ _ Ha) as (k & h & Hp).
  assert (Hs : starting c 9%nat) by (exists k, h; by left).
  exists tr, c. split; [exact Hr|]. split; [exact Hs|]. intros tid Ht.
  apply (single_startup _ _ _ _ _ Hr Ht Hs).
Defined.

(** ** What clients' packets experience *)

(** C3. No packet overtakes a buffered one.  A packet is written towards the backend only
    by the flush that holds the forwarding lock exclusively, or while the gate is open
    and no packet of any session is buffered. *)
Theorem writes_keep_order o tr c tid sid data err c' :
  reachable o tr c -> step_to c tid (EvWrite sid data err) c' ->
  (exists th, pool c !! tid = Some th /\ (ForwardingMu, Exclusive) ∈ locks th) \/
  (backendReady (px (world_of c)) = true /\ queues (px (world_of c)) = ∅).
Proof.
  intros Hr (B & q & k & h & b & Hp & He & ->)%step_event_inv.
  destruct (reachable_ask _ _ _ Hr) as (xl & pot & own & _ & _ & _ & Ha). specialize (Ha _ _ _ _ _ Hp).
  destruct q; simplify_eq/=. destruct Ha as [_ [Hf|Hg]]; [left; by eexists|by right].
Qed.

Lemma writes_keep_order_witness : exists tr c sid data c',
  reachable sample_options tr c /\ step_to c 0%nat (EvWrite sid data None) c' /\
  ((exists th, pool c !! 0%nat = Some th /\ (ForwardingMu, Exclusive) ∈ locks th) \/
   (backendReady (px (world_of c)) = true /\ queues (px (world_of c)) = ∅)).
Proof.
  destruct (found_reachable idle_oracle [(0, 11); (3, 27); (0, 42)]%nat
    (fun c => asking is_write c 0)) as (tr & c & Hr & Ha); [vm_compute; reflexivity|].
  destruct (asking_write _ _ Ha) as (sid & data & k & h & Hp).
  assert (Hs : exists c', step_to c 0%nat (EvWrite sid data None) c').
  { destruct c as [w ts]. eexists. by apply (step_ask event_of body 0 _ (QWrite sid data) k h w ts None). }
  destruct Hs as [c' Hs]. exists tr, c, sid, data, c'. split; [exact Hr|]. split; [exact Hs|].
  apply (writes_keep_order _ _ _ _ _ _ _ _ Hr Hs).
Defined.

(** C4. The startup buffers are bounded and their accounting is exact: per session at most
    the configured number of packets and bytes, over all sessions at most the global
    number of bytes, and [queuedBytes] is the number of bytes buffered. *)
Theorem startup_buffers_bounded o tr c :
  reachable o tr c ->
  let p := px (world_of c) in
  (forall sid q, queues p !! sid = Some q ->
     len (packets q) <= StartupBufferPackets o /\
     sum_len (packets q) <= StartupBufferBytesPerSession o) /\
  queuedBytes p = map_sum (fun q => sum_len (packets q)) (queues p) /\
  0 <= queuedBytes p <= StartupBufferBytesGlobal o.
Proof.
  intros Hr p. pose proof (reachable_state _ _ _ Hr) as Hok.
  destruct (reachable_options _ _ _ Hr) as [Ho _].
  destruct (default_options_limits o) as (_ & E1 & E2 & E3 & _).
  pose proof (st_buffers _ Hok) as Hb. fold p in Hb, Ho. split; [|split].
  - intros sid q Hq. destruct (bo_queues _ Hb _ _ Hq) as [H1 H2 H3]. rewrite Ho, E1 in H1.
    rewrite H2, Ho, E2 in H3. done.
  - rewrite (bo_total _ Hb). apply map_sum_ext. intros sid q Hq. by destruct (bo_queues _ Hb _ _ Hq).
  - destruct (queuedBytes_bounds p (st_options _ Hok) Hb). split; [done|].
    pose proof (bo_limit _ Hb) as Hl. rewrite Ho, E3 in Hl. done.
Qed.

Lemma startup_buffers_bounded_witness : exists tr c,
  reachable sample_options tr c /\ queuedBytes (px (world_of c)) = 2 /\
  queuedBytes (px (world_of c)) <= StartupBufferBytesGlobal sample_options.
Proof.
  destruct (found_reachable wake_oracle [(0, 62)]%nat
    (fun c => bool_decide (queuedBytes (px (world_of c)) = 2))) as (tr & c & Hr & Ha);
    [vm_compute; reflexivity|].
  apply bool_decide_eq_true in Ha. exists tr, c. split; [exact Hr|]. split; [exact Ha|].
  apply (startup_buffers_bounded _ _ _ Hr).
Defined.

(** C5. The session table never exceeds its capacity, and each of its entries is a session
    whose client address is the key. *)
Theorem session_capacity_respected o tr c :
  reachable o tr c ->
  Z.of_nat (size (sessions (world_of c))) <= MaxSessions o /\
  forall key sid, sessions (world_of c) !! key = Some sid ->
    exists s, heap (world_of c) !! sid = Some s /\ addr_String (clientAddr s) = key.
Proof.
  intros Hr. pose proof (reachable_state _ _ _ Hr) as Hok.
  destruct (reachable_options _ _ _ Hr) as [_ <-]. split; [apply (st_capacity _ Hok)|apply (st_keys _ Hok)].
Qed.

Lemma session_capacity_respected_witness : exists tr c,
  reachable sample_options tr c /\ size (sessions (world_of c)) = 1%nat /\
  Z.of_nat (size (sessions (world_of c))) <= 2.
Proof.
  destruct (found_reachable wake_oracle [(0, 62)]%nat
    (fun c => bool_decide (size (sessions (world_of c)) = 1%nat))) as (tr & c & Hr & Ha);
    [vm_compute; reflexivity|].
  apply bool_decide_eq_true in Ha. exists tr, c. split; [exact Hr|]. split; [exact Ha|].
  apply (session_capacity_respected _ _ _ Hr).
Defined.

(** C6. While the gate is open nothing is buffered and the proxy is not shutting down. *)
Theorem open_gate_is_flushed o tr c :
  reachable o tr c -> backendReady (px (world_of c)) = true ->
  queues (px (world_of c)) = ∅ /\ queuedBytes (px (world_of c)) = 0 /\
  shuttingDown (px (world_of c)) = false.
Proof.
  intros Hr Hg. pose proof (reachable_state _ _ _ Hr) as Hok. pose proof (st_ready _ Hok Hg) as Hq.
  split; [done|]. split.
  - rewrite (bo_total _ (st_buffers _ Hok)), Hq. apply map_sum_empty.
  - destruct (shuttingDown _) eqn:Hd; [|done]. by rewrite (st_shutdown _ Hok Hd) in Hg.
Qed.

Lemma open_gate_is_flushed_witness : exists tr c,
  reachable sample_options tr c /\ backendReady (px (world_of c)) = true /\
  queues (px (world_of c)) = ∅.
Proof.
  destruct (found_reachable idle_oracle [(0, 11); (3, 27)]%nat
    (fun c => backendReady (px (world_of c)))) as (tr & c & Hr & Ha); [vm_compute; reflexivity|].
  exists tr, c. split; [exact Hr|]. split; [exact Ha|].
  apply (open_gate_is_flushed _ _ _ Hr Ha).
Defined.

(** ** Sessions *)

(** C7. Closing is for good.  From any reachable configuration on, a session keeps its
    client; once closed it stays closed and never records activity again; its
    cancelled context, closed socket and closed [done] channel stay so; and a session
    whose [closeOnce] has run holds no open resource. *)
Theorem closed_sessions_stay_closed o tr c tr' c' sid s :
  reachable o tr c -> steps event_of body c tr' c' -> heap (world_of c) !! sid = Some s ->
  exists s', heap (world_of c') !! sid = Some s' /\ clientAddr s' = clientAddr s /\
    (closed s = true -> closed s' = true /\ lastActivity s' = lastActivity s) /\
    (upstreamClosed s = true -> upstreamClosed s' = true) /\
    (doneClosed s = true -> doneClosed s' = true) /\
    (closeOnce s' = OnceDone ->
       closed s' = true /\ ctxCancelled s' = true /\ upstreamClosed s' = true).
Proof.
  intros Hr Hs Hh. pose proof (reachable_steps _ _ _ _ _ Hr Hs) as Hev.
  destruct (di_heap _ _ _ _ _ _ _ _ _ Hev _ _ Hh) as (s' & Hs' & Hle).
  exists s'. split; [done|]. destruct Hle as [L1 L2 L3 L4 L5 L6 L7 L8].
  split; [done|]. split; [auto|]. split; [done|]. split; [done|].
  apply (st_sessions _ (reachable_state _ _ _ (reachable_trans _ _ _ _ _ Hr Hs)) _ _ Hs').
Qed.

Lemma closed_sessions_stay_closed_witness : exists tr c s,
  reachable sample_options tr c /\ heap (world_of c) !! 0%nat = Some s /\ closed s = false /\
  exists s', heap (world_of c) !! 0%nat = Some s' /\ clientAddr s' = clientAddr s.
Proof.
  destruct (found_reachable wake_oracle [(0, 62)]%nat
    (fun c => match heap (world_of c) !! 0%nat with Some s => negb (closed s) | None => false end))
    as (tr & c & Hr & Ha); [vm_compute; reflexivity|].
  destruct (heap (world_of c) !! 0%nat) as [s|] eqn:Hh; [|discriminate].
  exists tr, c, s. split; [exact Hr|]. split; [exact Hh|]. split; [by apply negb_true_iff|].
  destruct (closed_sessions_stay_closed _ _ _ _ _ _ _ Hr (steps_refl event_of body c) Hh)
    as (s' & H1 & H2 & _). exists s'. split; [exact H1|exact H2].
Defined.

(** A goroutine reads from the upstream socket of [sid] or writes to its client. *)
Definition session_io (sid : nat) (ev : event) : Prop :=
  match ev with EvReadBackend sid' _ _ | EvWriteClient sid' _ _ => sid' = sid | _ => False end.

Lemma session_io_owner o tr c :
  reachable o tr c -> exists own : nat -> coPset,
    (forall tid1 tid2 th1 th2, tid1 <> tid2 -> pool c !! tid1 = Some th1 ->
       pool c !! tid2 = Some th2 -> own tid1 ## own tid2) /\
    forall tid ev c' sid, step_to c tid ev c' -> session_io sid ev ->
      tok (TokRead sid) ∈ own tid /\ is_Some (pool c !! tid).
Proof.
  intros Hr. destruct (reachable_ask _ _ _ Hr) as (xl & pot & own & _ & _ & Hd & Ha). exists own. split; [done|].
  intros tid ev c' sid (B & q & k & h & b & Hp & -> & _)%step_event_inv Hio. split; [|by eexists].
  specialize (Ha _ _ _ _ _ Hp). by destruct q; simpl in *; subst.
Qed.

(** C8. Who works for a session is counted by it.  When a goroutine reads from the upstream
    socket of a session or writes to its client, the counter of the session's [goroutineWG]
    is exactly the number of [Done] calls that the goroutines of the configuration still have
    to make for it, according to a ledger that their code keeps; the acting goroutine has
    such a call still to make, so the counter is not zero and no [Close] of the session can
    have got past its wait at that moment; and no other goroutine does such I/O for the same
    session meanwhile. *)
Theorem session_io_is_counted o tr c tid ev c' sid :
  reachable o tr c -> step_to c tid ev c' -> session_io sid ev ->
  (exists l s, books c l /\ workers (world_of c) sid = map_sum (held (Work sid)) l /\
     l !! tid = Some s /\ 1 <= held (Work sid) s) /\
  1 <= workers (world_of c) sid <= 2 /\
  forall tid' ev' c'', step_to c tid' ev' c'' -> session_io sid ev' -> tid' = tid.
Proof.
  intros Hr Hs Hio. destruct (reachable_balanced _ _ _ Hr) as [l Hb].
  destruct (balanced_step _ _ _ _ _ _ Hr Hs Hb) as (tid0 & s & l' & Hl & _ & _ & Hev).
  destruct (Hev _ _ eq_refl) as (<- & B & q & k & b & h & Hp & -> & Hq).
  assert (Hheld : 1 <= held (Work sid) s) by (by destruct q; simpl in *; subst).
  split; [|split].
  - exists l, s. split; [apply (ba_books _ _ Hb)|]. split; [apply (ba_count _ _ Hb (Work sid))|done].
  - pose proof (held_le_count _ _ _ _ (Work sid) Hb Hl) as Hle. simpl in Hle.
    destruct (reachable_ask _ _ _ Hr) as (xl & pot & own & [_ (J & R & C & [_ _ P3 _])] & _).
    rewrite P3 in *. repeat case_bool_decide; simpl in *; lia.
  - intros tid' ev' c'' Hs' Hio'. destruct (session_io_owner _ _ _ Hr) as (own & Hd & Ho).
    destruct (Ho _ _ _ _ Hs Hio) as [O1 [th1 T1]], (Ho _ _ _ _ Hs' Hio') as [O2 [th2 T2]].
    destruct (decide (tid' = tid)) as [|Hne]; [done|]. by destruct (Hd _ _ _ _ Hne T2 T1 _ O2 O1).
Qed.

Definition is_read (B : Type) (q : query B) : bool :=
  match q with QReadBackend sid => bool_decide (sid = 0%nat) | _ => false end.

Lemma asking_read c tid :
  asking is_read c tid = true -> exists k h, pool c !! tid = Some (Thread (Ask (QReadBackend 0) k) h).
Proof.
  unfold asking. destruct (pool c !! tid) as [[p h]|] eqn:Hp; [|done]. simpl.
  destruct p as [|B f k|B q k| | |]; try done. destruct q; try done. simpl.
  intros ->%bool_decide_eq_true. by exists k, h.
Qed.

Lemma session_io_is_counted_witness : exists tr c c' l s,
  reachable sample_options tr c /\ step_to c 6%nat (EvReadBackend 0 [] None) c' /\
  books c l /\ l !! 6%nat = Some s /\ 1 <= held (Work 0) s /\ workers (world_of c) 0 = 2.
Proof.
  destruct (found_reachable wake_oracle [(0, 62); (6, 1)]%nat
    (fun c => asking is_read c 6 && bool_decide (workers (world_of c) 0 = 2)))
    as (tr & c & Hr & Ha); [vm_compute; reflexivity|].
  apply andb_true_iff in Ha as [Ha Hw]. apply bool_decide_eq_true in Hw.
  destruct (asking_read _ _ Ha) as (k & h & Hp).
  assert (Hs : exists c', step_to c 6%nat (EvReadBackend 0 [] None) c').
  { destruct c as [w ts]. eexists.
    by apply (step_ask event_of body 6 _ (QReadBackend 0) k h w ts ([], None)). }
  destruct Hs as [c' Hs].
  destruct (session_io_is_counted _ _ _ _ _ _ 0%nat Hr Hs eq_refl) as ((l & s & H1 & _ & H2 & H3) & _).
  exists tr, c, c', l, s. split; [exact Hr|]. split; [exact Hs|]. split; [exact H1|]. split; [exact H2|].
  split; [exact H3|exact Hw].
Defined.

(** C9. The wait groups are never negative: [wg] counts the goroutines it was told of,
    [timerWG] is exactly the number of armed or running auto-stop timers, and the
    [goroutineWG] of a session lies between 0 and 2; so no [Done] panics. *)
Theorem wait_groups_exact o tr c :
  reachable o tr c ->
  0 <= wg (px (world_of c)) /\
  timerWG (px (world_of c)) = map_sum timer_pending (timers (world_of c)) /\
  0 <= timerWG (px (world_of c)) /\
  forall sid, 0 <= workers (world_of c) sid <= 2.
Proof.
  intros Hr. pose proof (reachable_state _ _ _ Hr) as Hok.
  destruct (reachable_ask _ _ _ Hr) as (xl & pot & own & [_ (J & R & C & [_ P2 P3 _])] & _).
  split; [lia|]. split; [apply (st_timerWG _ Hok)|]. split; [by apply timerWG_nonneg|].
  intros sid. rewrite P3. repeat case_bool_decide; simpl; lia.
Qed.

Lemma wait_groups_exact_witness : exists tr c,
  reachable sample_options tr c /\ wg (px (world_of c)) = 5 /\ 0 <= workers (world_of c) 0 <= 2.
Proof.
  destruct (found_reachable wake_oracle [(0, 62)]%nat
    (fun c => bool_decide (wg (px (world_of c)) = 5))) as (tr & c & Hr & Ha); [vm_compute; reflexivity|].
  apply bool_decide_eq_true in Ha. exists tr, c. split; [exact Hr|]. split; [exact Ha|].
  apply (wait_groups_exact _ _ _ Hr).
Defined.

(** ** Shutting down *)

(** C10. Shutdown is final.  Once [shutdown] has run its critical section, in every later
    configuration the proxy is still shutting down, the gate is closed, nothing is
    sent to stop the game server, and no timer is armed any more. *)
Theorem shutdown_is_final o tr c tr' c' :
  reachable o tr c -> steps event_of body c tr' c' -> shuttingDown (px (world_of c)) = true ->
  shuttingDown (px (world_of c')) = true /\ backendReady (px (world_of c')) = false /\
  timerWG (px (world_of c')) <= timerWG (px (world_of c)) /\
  forall tid err, (tid, EvStop err) ∉ tr'.
Proof.
  intros Hr Hs Hd. pose proof (reachable_steps _ _ _ _ _ Hr Hs) as Hev.
  pose proof (di_shutdown _ _ _ _ _ _ _ _ _ Hev Hd) as Hd'.
  split; [done|]. split; [|split; [by apply Hev|]].
  { apply (st_shutdown _ (reachable_state _ _ _ (reachable_trans _ _ _ _ _ Hr Hs)) Hd'). }
  intros tid err. clear Hev Hd'. induction Hs as [c|c tr1 c1 e c2 Hs IH Hstep]; [apply not_elem_of_nil|].
  rewrite elem_of_app. intros [Hin|Hin]; [by apply IH|].
  destruct e as [[tid' ev]|]; simpl in Hin; [|by apply elem_of_nil in Hin].
  apply list_elem_of_singleton in Hin as [= <- <-].
  destruct (stop_requests _ _ _ _ _ _ (reachable_trans _ _ _ _ _ Hr Hs) Hstep) as [_ Hf].
  rewrite (di_shutdown _ _ _ _ _ _ _ _ _ (reachable_steps _ _ _ _ _ Hr Hs) Hd) in Hf. done.
Qed.

Lemma shutdown_is_final_witness : exists tr c,
  reachable sample_options tr c /\ shuttingDown (px (world_of c)) = true /\
  backendReady (px (world_of c)) = false.
Proof.
  destruct (found_reachable closing_oracle [(0, 10); (2, 2); (3, 3); (4, 3); (5, 3); (0, 19)]%nat
    (fun c => shuttingDown (px (world_of c)))) as (tr & c & Hr & Ha); [vm_compute; reflexivity|].
  exists tr, c. split; [exact Hr|]. split; [exact Ha|].
  apply (shutdown_is_final _ _ _ _ _ Hr (steps_refl event_of body c) Ha).
Defined.

(** C11. Nothing of the proxy outlives [Serve].  When [Serve] has returned, every wait group is at
    zero, those of all sessions included, the session table is empty, the gate is closed and
    no auto-stop timer is armed or running.  Whatever the scheduler does from then on, no
    goroutine asks the environment anything any more (no call of the panel, no probe, no I/O on
    any socket, no ticker or timer, no iteration of a map), but for the passing of time, and the
    state stays what it is: only the clock and the caller's own context may change. *)
Theorem nothing_outlives_serve o tr c tr' c' :
  reachable o tr c -> serveResult (world_of c) <> None -> steps event_of body c tr' c' ->
  (let w := world_of c' in
   shuttingDown (px w) = true /\ backendReady (px w) = false /\ sessions w = ∅ /\
   wg (px w) = 0 /\ timerWG (px w) = 0 /\ (forall sid, workers w sid = 0) /\
   (forall id t, timers w !! id = Some t -> timer_pending t = 0)) /\
  Forall (fun x => snd x = EvElapse) tr' /\
  world_of c' = world_of c <| clock := clock (world_of c') |>
                           <| parentCancelled := parentCancelled (world_of c') |>.
Proof.
  intros Hr Hres Hs. destruct (returned_steps _ _ _ _ _ Hr Hres Hs) as [Hi Hf].
  pose proof (reachable_trans _ _ _ _ _ Hr Hs) as Hr'.
  assert (Hres' : serveResult (world_of c') <> None) by (rewrite Hi; exact Hres).
  pose proof (reachable_state _ _ _ Hr') as Hok.
  destruct (reachable_ask _ _ _ Hr') as (xl & pot & own & [_ (J & R & C & [_ _ _ P4])] & _).
  destruct (P4 Hres') as (Hsd & Hsess & Ht & Hwg). split; [|split; [exact Hf|exact Hi]]. cbv zeta.
  split_and!; [done|by apply st_shutdown|done..| |].
  - intros sid. by eapply returned_workers.
  - intros id t. by apply no_pending_timer.
Qed.

Definition is_elapse (B : Type) (q : query B) : bool := match q with QElapse => true | _ => false end.

Lemma asking_elapse c tid :
  asking is_elapse c tid = true -> exists k h, pool c !! tid = Some (Thread (Ask QElapse k) h).
Proof.
  unfold asking. destruct (pool c !! tid) as [[p h]|] eqn:Hp; [|done]. simpl.
  destruct p as [|B f k|B q k| | |]; try done. destruct q; try done. by exists k, h.
Qed.

Lemma nothing_outlives_serve_witness : exists tr c c',
  reachable sample_options tr c /\ serveResult (world_of c) <> None /\
  steps event_of body c [(1%nat, EvElapse)] c' /\
  wg (px (world_of c')) = 0 /\ workers (world_of c') 0 = 0.
Proof.
  destruct (found_reachable closing_oracle [(0, 10); (2, 2); (3, 3); (4, 3); (5, 3); (0, 19)]%nat
    (fun c => returned_from_serve c && asking is_elapse c 1)) as (tr & c & Hr & Ha); [vm_compute; reflexivity|].
  apply andb_true_iff in Ha as [Ha Hq].
  assert (Hn : serveResult (world_of c) <> None).
  { unfold returned_from_serve in Ha. intros He. rewrite He in Ha. discriminate. }
  destruct (asking_elapse _ _ Hq) as (k & h & Hp).
  assert (Hs : exists c', steps event_of body c [(1%nat, EvElapse)] c').
  { destruct c as [w ts]. eexists. change [(1%nat, EvElapse)] with ([] ++ option_list (Some (1%nat, EvElapse)))%list.
    eapply steps_snoc; [constructor|]. by apply (step_ask event_of body 1 _ QElapse k h w ts 0). }
  destruct Hs as [c' Hs]. destruct (nothing_outlives_serve _ _ _ _ _ Hr Hn Hs) as ((_ & _ & _ & H1 & _ & H2 & _) & _).
  exists tr, c, c'. split; [exact Hr|]. split; [exact Hn|]. split; [exact Hs|]. split; [exact H1|exact (H2 0%nat)].
Defined.

(** ** Locks *)

(** The goroutine [tid] waits for a lock that some goroutine holds. *)
Definition waits_for_lock (c : configuration) (tid : nat) : bool :=
  match pool c !! tid with
  | Some th =>
      match code th with
      | Acquire l _ _ =>
          existsb (fun x => existsb (fun y => bool_decide (fst y = l)) (locks (snd x)))
            (map_to_list (pool c))
      | _ => false
      end
  | None => false
  end.

Lemma waits_for_lock_blocked c tid : waits_for_lock c tid = true -> lock_blocked c tid.
Proof.
  unfold waits_for_lock. destruct (pool c !! tid) as [[p h]|] eqn:Hp; [|done]. simpl.
  destruct p as [| | |l m k| |]; try done.
  rewrite existsb_exists. intros ([tid' th'] & Hin%list_elem_of_In%elem_of_map_to_list & Hx).
  simpl in Hx. apply existsb_exists in Hx as ([l' m'] & Hl%list_elem_of_In & He%bool_decide_eq_true).
  simpl in He. subst l'. by exists l, m, k, h; split; [|exists tid', th', m'].
Qed.

(** C12. The locks do not deadlock.  They are taken in one order ([admissionMu],
    [forwardingMu], [mu], the store's), so in every configuration in which some
    goroutine holds a lock, one that holds a lock is not waiting for another. *)
Theorem locks_make_progress o tr c tid th :
  reachable o tr c -> pool c !! tid = Some th -> locks th <> [] ->
  exists tid' th', pool c !! tid' = Some th' /\ locks th' <> [] /\ waits_for_lock c tid' = false.
Proof.
  intros Hr Hth Hl.
  destruct (decide (Exists (fun x => locks (snd x) <> [] /\ waits_for_lock c (fst x) = false)
    (map_to_list (pool c)))) as [He|Hn].
  - apply Exists_exists in He as ([tid' th'] & Hin%elem_of_map_to_list & H1 & H2). eauto.
  - exfalso. apply Hl.
    apply (config_ok_no_deadlock inv guar rely rank allowed pre c (reachable_ok _ _ _ Hr) 3%nat) with tid;
      [intros []; simpl; lia| |done].
    intros tid' th' Hth' Hl'. apply waits_for_lock_blocked.
    destruct (waits_for_lock c tid') eqn:Hw; [done|]. destruct Hn. apply Exists_exists.
    exists (tid', th'). split; [by apply elem_of_map_to_list|]. done.
Qed.

Lemma locks_make_progress_witness : exists tr c th, reachable sample_options tr c /\
  pool c !! 0%nat = Some th /\ locks th <> [] /\
  exists tid' th', pool c !! tid' = Some th' /\ locks th' <> [] /\ waits_for_lock c tid' = false.
Proof.
  destruct (found_reachable wake_oracle [(0, 41)]%nat
    (fun c => match pool c !! 0%nat with Some th => negb (bool_decide (locks th = [])) | None => false end))
    as (tr & c & Hr & Ha); [vm_compute; reflexivity|].
  destruct (pool c !! 0%nat) as [th|] eqn:Hp; [|discriminate].
  apply negb_true_iff, bool_decide_eq_false in Ha.
  exists tr, c, th. split; [exact Hr|]. split; [exact Hp|]. split; [exact Ha|].
  apply (locks_make_progress _ _ _ _ _ Hr Hp Ha).
Defined.
