(* ===== verification/ProxyRuns.v ===== *)
(** * ProxyRuns: what single operations of the proxy do

    The sequential behaviour of the operations of [Proxy.v]: what one call does to the
    state, which questions it asks in which order, and which goroutines it starts. *)
From S2P Require Import Prelude Errors Conc World Session Store Proxy Invariant Buffers Rules.
From S2P Require Import Tokens SessionLogic StoreLogic StartupLogic ProxyLogic Reachable Scenario.

(** How the environment answers, seeing the events so far. *)
Abbreviation environment := (forall B, list event -> query B -> B).

(** The result of a call that runs to its end, the environment answering by [oracle]. *)
Abbreviation runs oracle p w lg sp := (run event_of oracle p w lg sp).

Section runs.
Context (oracle : environment).
Implicit Types (w : world) (lg : list event) (sp : list task).

Lemma run_critical {A B} l (f : world -> B * world) (k : B -> proc A) w lg sp :
  runs oracle (bind (critical l f) k) w lg sp = runs oracle (k (fst (f w))) (snd (f w)) lg sp.
Proof. unfold critical. simpl. by destruct (f w). Qed.

Lemma run_rcritical {A B} l (f : world -> B) (k : B -> proc A) w lg sp :
  runs oracle (bind (rcritical l f) k) w lg sp = runs oracle (k (f w)) w lg sp.
Proof. done. Qed.

Lemma run_gets {A B} (f : world -> B) (k : B -> proc A) w lg sp :
  runs oracle (bind (gets f) k) w lg sp = runs oracle (k (f w)) w lg sp.
Proof. done. Qed.

Lemma run_modify {A} f (k : unit -> proc A) w lg sp :
  runs oracle (bind (modify f) k) w lg sp = runs oracle (k tt) (f w) lg sp.
Proof. done. Qed.

Lemma run_ask {A B} (q : query B) (k : B -> proc A) w lg sp :
  runs oracle (bind (ask q) k) w lg sp =
  let b := oracle _ lg q in runs oracle (k b) w (lg ++ [event_of _ q b]) sp.
Proof. done. Qed.

Lemma run_lock {A} l (k : unit -> proc A) w lg sp :
  runs oracle (bind (lock l) k) w lg sp = runs oracle (k tt) w lg sp.
Proof. done. Qed.

Lemma run_Get {A} key (k : option nat -> proc A) w lg sp :
  runs oracle (bind (Get key) k) w lg sp = runs oracle (k (sessions w !! key)) w lg sp.
Proof. done. Qed.
End runs.

(** ** Admission *)

(** The session [NewSession] leaves behind. *)
Definition fresh_session (client : UDPAddr) (maxp now : Z) : Session :=
  mkSession client maxp (UnixNano now) false OnceNew false false false 2.

Definition with_new_session (client : UDPAddr) (maxp : Z) (w : world) : world :=
  w <| heap := <[nextSession w := fresh_session client maxp (clock w)]> (heap w) |>
    <| nextSession := S (nextSession w) |>.

Lemma insert_insert_eq' {A} (m : gmap nat A) i x y : <[i := x]> (<[i := y]> m) = <[i := x]> m.
Proof. apply insert_insert_eq. Qed.

Lemma run_NewSession (oracle : environment) o client backend w lg sp :
  BackendAddr o = Some backend -> Listener o = true -> 1 <= MaxPacketSize o ->
  oracle _ lg QDial = None ->
  runs oracle (NewSession (session_options o client)) w lg sp =
  Some (Outcome (Some (nextSession w), None) (with_new_session client (MaxPacketSize o) w)
    (lg ++ [EvDial None]) (sp ++ [TReadBackend (nextSession w); TWatchContext (nextSession w)])).
Proof.
  intros Hb Hl Hm Hd. unfold NewSession, session_options. cbn [so_ClientAddr so_BackendAddr so_PublicConn so_MaxPacketSize].
  rewrite Hb, Hl, bool_decide_eq_false_2 by lia. cbn -[alloc_session on_session upd_session].
  rewrite Hd. cbn -[on_session upd_session].
  unfold on_session, upd_session. simpl. rewrite !lookup_insert_eq. simpl.
  rewrite alter_insert_eq, insert_insert_eq. simpl. rewrite <- app_assoc. simpl.
  unfold with_new_session, fresh_session. done.
Qed.

(** [GetOrCreate] on its four branches. *)
Lemma run_GetOrCreate_existing (oracle : environment) key create sid w lg sp :
  sessions w !! key = Some sid ->
  runs oracle (GetOrCreate key create) w lg sp =
  Some (Outcome (Some sid, false, store_len w, None) w lg sp).
Proof. intros Hs. unfold GetOrCreate. simpl. rewrite Hs. done. Qed.

Lemma run_GetOrCreate_full (oracle : environment) key create w lg sp :
  sessions w !! key = None -> storeMax w <= store_len w ->
  runs oracle (GetOrCreate key create) w lg sp =
  Some (Outcome (None, false, store_len w, Some (ErrSentinel ErrSessionCapacity)) w lg sp).
Proof. intros Hs Hm. unfold GetOrCreate. simpl. rewrite Hs, bool_decide_eq_true_2 by done. done. Qed.

Lemma run_GetOrCreate_create (oracle : environment) key create w lg sp :
  sessions w !! key = None -> store_len w < storeMax w ->
  runs oracle (GetOrCreate key create) w lg sp =
  match runs oracle create w lg sp with
  | Some (Outcome (_, Some err) w' lg' sp') => Some (Outcome (None, false, store_len w, Some err) w' lg' sp')
  | Some (Outcome (None, None) w' lg' sp') =>
      Some (Outcome (None, false, store_len w, Some (ErrText "session factory returned nil")) w' lg' sp')
  | Some (Outcome (Some sid, None) w' lg' sp') =>
      let w'' := set_session key sid w' in
      Some (Outcome (Some sid, true, store_len w'', None) w'' lg' sp')
  | None => None
  end.
Proof.
  intros Hs Hm. unfold GetOrCreate. simpl. rewrite Hs, bool_decide_eq_false_2 by lia.
  rewrite run_bind, run_bind. destruct (runs oracle create w lg sp) as [[[[sid|] [err|]] w' lg' sp']|]; done.
Qed.

Lemma run_startServer (oracle : environment) w lg sp :
  runs oracle startServer w lg sp =
  Some (match begin_startup w with
        | (Some generation, w') =>
            Outcome tt (upd_px (fun p => p <| wg := wg p + 1 |>) w') lg (sp ++ [TStartup generation false])
        | (None, w') => Outcome tt w' lg sp
        end).
Proof. unfold startServer. rewrite run_critical. by destruct (begin_startup w) as [[generation|] w']. Qed.

(** A packet that finds its session open and the gate closed. *)
Lemma run_forwardOrQueue_gated (oracle : environment) active packet s w lg sp :
  backendReady (px w) = false -> heap w !! active = Some s -> closed s = false ->
  runs oracle (forwardOrQueue active packet) w lg sp =
  let w1 := w <| heap := <[active := s <| lastActivity := UnixNano (clock w) |>]> (heap w) |> in
  match begin_startup (upd_px (enqueueLocked active packet) w1) with
  | (Some generation, w') =>
      Some (Outcome true (upd_px (fun p => p <| wg := wg p + 1 |>) w') lg (sp ++ [TStartup generation false]))
  | (None, w') => Some (Outcome true w' lg sp)
  end.
Proof.
  intros Hr Hs Hc. unfold forwardOrQueue. simpl. rewrite Hr. simpl. unfold on_session, touch_session.
  rewrite Hs. simpl. rewrite Hc. simpl.
  destruct (begin_startup _) as [[generation|] w'] eqn:Hb; done.
Qed.

Lemma stop_timer_fields w :
  let w' := stopAutoStopTimerLocked w in
  heap w' = heap w /\ sessions w' = sessions w /\ clock w' = clock w /\ nextSession w' = nextSession w /\
  options (px w') = options (px w) /\ queues (px w') = queues (px w) /\
  queuedBytes (px w') = queuedBytes (px w) /\ backendReady (px w') = backendReady (px w) /\
  startupRunning (px w') = startupRunning (px w) /\ shuttingDown (px w') = shuttingDown (px w) /\
  startupGeneration (px w') = startupGeneration (px w) /\
  startupBlockedUntil (px w') = startupBlockedUntil (px w) /\ wg (px w') = wg (px w) /\
  nextTimer w' = nextTimer w /\ stopGeneration (px w') = stopGeneration (px w) /\
  readinessGeneration (px w') = readinessGeneration (px w).
Proof.
  unfold stopAutoStopTimerLocked. destruct (stopTimer (px w)) as [id|]; [|done].
  by destruct (timers w !! id) as [[]|].
Qed.

(** A packet that fits is appended whole to its session's queue; one that does not fit is
    dropped and changes no packet. *)
Definition fits (p : Proxy) (q : packetQueue) (packet : bytes) : Prop :=
  len (packets q) < StartupBufferPackets (options p) /\
  queue_bytes q + len packet <= StartupBufferBytesPerSession (options p) /\
  queuedBytes p + len packet <= StartupBufferBytesGlobal (options p).

Definition queue_of (p : Proxy) (active : nat) : packetQueue := default emptyQueue (queues p !! active).

Lemma queue_of_match p active :
  match queues p !! active with Some q => q | None => emptyQueue end = queue_of p active.
Proof. unfold queue_of. by destruct (queues p !! active). Qed.

Lemma enqueueLocked_fits p active packet :
  options_ok (options p) -> buffers_ok p -> len packet <= MaxPacketSize (options p) ->
  fits p (queue_of p active) packet ->
  enqueueLocked active packet p =
    p <| queues := <[active := queue_of p active <| packets := (packets (queue_of p active) ++ [packet])%list |>
                                <| queue_bytes := queue_bytes (queue_of p active) + len packet |>]> (queues p) |>
      <| queuedBytes := queuedBytes p + len packet |>.
Proof.
  intros Ho Hb Hl (F1 & F2 & F3). unfold enqueueLocked. rewrite queue_of_match.
  destruct (enqueue_no_overflow p active packet Ho Hb Hl) as [E1 E2]. fold (queue_of p active) in E1.
  rewrite E1, E2. by rewrite !bool_decide_eq_false_2 by lia.
Qed.

Lemma enqueueLocked_overflow p active packet :
  options_ok (options p) -> buffers_ok p -> len packet <= MaxPacketSize (options p) ->
  ~ fits p (queue_of p active) packet ->
  enqueueLocked active packet p =
    p <| queues := <[active := queue_of p active <| overflowLogged := true |>]> (queues p) |>.
Proof.
  intros Ho Hb Hl Hn. unfold enqueueLocked. rewrite queue_of_match.
  destruct (enqueue_no_overflow p active packet Ho Hb Hl) as [E1 E2]. fold (queue_of p active) in E1.
  rewrite E1, E2. destruct (_ || _) eqn:Hc; [done|]. destruct Hn. go_bool. unfold fits. lia.
Qed.

(** ** A client wakes the server *)

Lemma begin_startup_fresh w :
  shuttingDown (px w) = false -> backendReady (px w) = false -> startupRunning (px w) = false ->
  Before (clock w) (startupBlockedUntil (px w)) = false ->
  begin_startup w = (Some (uint64 (startupGeneration (px w) + 1)),
    upd_px (fun p => p <| startupRunning := true |>
                       <| startupGeneration := uint64 (startupGeneration (px w) + 1) |>) w).
Proof. intros E1 E2 E3 E4. unfold begin_startup. by rewrite E1, E2, E3, E4. Qed.

Lemma begin_startup_none w :
  shuttingDown (px w) = true \/ backendReady (px w) = true \/ startupRunning (px w) = true \/
  Before (clock w) (startupBlockedUntil (px w)) = true ->
  begin_startup w = (None, w).
Proof.
  unfold begin_startup. intros H. by destruct_or! H; rewrite H, ?orb_true_r.
Qed.

Lemma run_cancelAutoStop (oracle : environment) w lg sp :
  runs oracle cancelAutoStop w lg sp =
  Some (Outcome tt (stopAutoStopTimerLocked (bump_stop_generation w)) lg sp).
Proof. done. Qed.

(** What [enqueueLocked] does to the first packet of a session. *)
Definition first_packet (active : nat) (packet : bytes) (p : Proxy) : Proxy :=
  p <| queues := <[active := mkQueue [packet] (len packet) false]> (queues p) |>
    <| queuedBytes := queuedBytes p + len packet |>.

Lemma enqueueLocked_first p active packet :
  options_ok (options p) -> buffers_ok p -> len packet <= MaxPacketSize (options p) ->
  queues p !! active = None -> queuedBytes p + len packet <= StartupBufferBytesGlobal (options p) ->
  enqueueLocked active packet p = first_packet active packet p.
Proof.
  intros Ho Hb Hl Hq Hg. unfold first_packet. rewrite enqueueLocked_fits; [|done..|]; unfold queue_of; rewrite Hq; simpl.
  - done.
  - destruct Ho. unfold fits. simpl. rewrite len_nil. lia.
Qed.

(** A packet of a client without a session goes to [admitPacket]. *)
Lemma run_handle_absent (oracle : environment) client packet w lg sp :
  packet <> [] -> sessions w !! addr_String client = None ->
  runs oracle (handleClientPacket client packet) w lg sp =
  runs oracle (admitPacket (addr_String client) client packet) w lg sp.
Proof.
  intros Hne Hs. unfold handleClientPacket. rewrite bool_decide_eq_false_2.
  - rewrite run_Get, Hs. simpl. rewrite Hs. simpl. rewrite run_bind.
    by destruct (runs _ _ _ _ _) as [[[] ? ? ?]|].
  - destruct packet; [done|]. rewrite len_cons. pose proof (len_nonneg packet). lia.
Qed.

Lemma buffers_ok_ext p p' :
  options p' = options p -> queues p' = queues p -> queuedBytes p' = queuedBytes p ->
  buffers_ok p -> buffers_ok p'.
Proof. intros E1 E2 E3 []. split; rewrite ?E1, ?E2, ?E3; done. Qed.

(** The end of an admission while the gate is closed: watch, buffer, begin a startup. *)
Lemma run_first_packet (oracle : environment) key client active packet w lg sp :
  let p := px w in
  heap w !! active = Some (fresh_session client (MaxPacketSize (options p)) (clock w)) ->
  len packet <= MaxPacketSize (options p) -> options_ok (options p) -> buffers_ok p ->
  queues p !! active = None -> queuedBytes p + len packet <= StartupBufferBytesGlobal (options p) ->
  backendReady p = false -> startupRunning p = false -> shuttingDown p = false ->
  Before (clock w) (startupBlockedUntil p) = false ->
  exists w', runs oracle (watchSession key active;;; forwardOrQueue active packet;;; startServer) w lg sp =
      Some (Outcome tt w' lg (sp ++ [TWatch key active; TStartup (uint64 (startupGeneration p + 1)) false])) /\
    sessions w' = sessions w /\ heap w' = heap w /\
    queues (px w') = <[active := mkQueue [packet] (len packet) false]> (queues p) /\
    startupRunning (px w') = true /\ backendReady (px w') = false /\ wg (px w') = wg p + 2.
Proof.
  intros p Hh Hl Ho Hbuf Hq Hg Hr Hst Hsd Hbl. subst p. unfold watchSession, add_wg.
  cbn -[forwardOrQueue startServer]. rewrite run_bind. erewrite run_forwardOrQueue_gated by done. cbn -[startServer].
  assert (Hb2 : buffers_ok (px w <| wg := wg (px w) + 1 |>)) by (by destruct Hbuf; split).
  match goal with |- context [upd_px (enqueueLocked active packet) ?W] =>
    assert (E : upd_px (enqueueLocked active packet) W = W <| px := first_packet active packet (px W) |>)
      by (unfold upd_px, first_packet; by rewrite enqueueLocked_first by done); rewrite E; clear E end.
  rewrite begin_startup_fresh by done. cbn -[startServer]. rewrite run_startServer, begin_startup_none by (simpl; tauto).
  eexists. split; [by rewrite <- app_assoc|]. simpl. repeat split; [by apply insert_id|done|lia].
Qed.

(** C13. Waking the server.  A packet of a new client that the detector accepts, while the
    backend is down, no startup is under way and the table has room, opens exactly one
    session under the client's address, buffers the packet for it whole, begins exactly
    one startup attempt and starts the goroutines of the session, its watcher and the
    attempt; nothing is sent to the backend yet, and the gate stays closed. *)
Theorem wake_packet_starts_server (oracle : environment) client backend packet w lg sp :
  let p := px w in
  let sid := nextSession w in
  let key := addr_String client in
  packet <> [] -> len packet <= MaxPacketSize (options p) ->
  sessions w !! key = None -> store_len w < storeMax w ->
  BackendAddr (options p) = Some backend -> Listener (options p) = true ->
  options_ok (options p) -> buffers_ok p -> queues p !! sid = None ->
  queuedBytes p + len packet <= StartupBufferBytesGlobal (options p) ->
  backendReady p = false -> startupRunning p = false -> shuttingDown p = false ->
  Before (clock w) (startupBlockedUntil p) = false ->
  detect_start (options p) packet = true \/ backendRunning p = true ->
  oracle _ lg QDial = None ->
  exists w', runs oracle (handleClientPacket client packet) w lg sp =
      Some (Outcome tt w' (lg ++ [EvDial None])
        (sp ++ [TReadBackend sid; TWatchContext sid; TWatch key sid;
                TStartup (uint64 (startupGeneration p + 1)) false])) /\
    sessions w' = <[key := sid]> (sessions w) /\
    heap w' !! sid = Some (fresh_session client (MaxPacketSize (options p)) (clock w)) /\
    queues (px w') = <[sid := mkQueue [packet] (len packet) false]> (queues p) /\
    startupRunning (px w') = true /\ backendReady (px w') = false /\ wg (px w') = wg p + 2.
Proof.
  intros p sid key Hne Hl Hs Hroom Hb Hli Ho Hbuf Hq Hg Hr Hst Hsd Hbl Hdet Hd. subst p sid key.
  rewrite run_handle_absent by done. unfold admitPacket. rewrite run_critical. simpl fst. simpl snd. cbv beta iota.
  change (runs oracle (bind (gets ?f) ?k) ?w ?lg ?sp) with (runs oracle (k (f w)) w lg sp).
  cbv beta. rewrite Hbl, Hr. replace (negb false && _ && _) with false by (destruct Hdet as [-> | ->]; by rewrite ?andb_false_r).
  rewrite run_bind, run_GetOrCreate_create by done.
  erewrite run_NewSession by (done || by destruct Ho). cbv beta iota zeta.
  rewrite run_bind, run_bind, run_cancelAutoStop. cbv beta iota.
  set (w1 := bump_stop_generation _).
  destruct (stop_timer_fields w1) as (F1 & F2 & F3 & F4 & F5 & F6 & F7 & F8 & F9 & F10 & F11 & F12 & F13 & _).
  rewrite <- run_bind. simpl negb. cbv iota.
  destruct (run_first_packet oracle (addr_String client) client (nextSession w) packet (stopAutoStopTimerLocked w1)
    (lg ++ [EvDial None]) (sp ++ [TReadBackend (nextSession w); TWatchContext (nextSession w)]))
    as (w' & R & G1 & G2 & G3 & G4 & G5 & G6).
  all: rewrite ?F1, ?F2, ?F3, ?F5, ?F6, ?F7, ?F8, ?F9, ?F10, ?F11, ?F12; try done.
  { simpl. by rewrite lookup_insert_eq. }
  { apply (buffers_ok_ext (px w)); [by rewrite F5|by rewrite F6|by rewrite F7|done]. }
  exists w'. rewrite R. split; [by rewrite F11, <- app_assoc|].
  rewrite G1, G2, G3, G6, F1, F2, F6, F13. simpl. by rewrite lookup_insert_eq.
Qed.

(** The proxy of the sample options before any packet, at time 0. *)
Definition sample_world : world := initial_world 0 (initial_proxy (default_options sample_options)) 2.

Lemma sample_options_ok : options_ok (options (px sample_world)).
Proof. split; vm_compute; done. Qed.

Lemma sample_buffers_ok : buffers_ok (px sample_world).
Proof. split; [apply map_Forall_empty|done|done]. Qed.

Lemma wake_packet_starts_server_witness : exists w',
  runs (fun B lg => wake_oracle [] B) (handleClientPacket client_addr wake_packet) sample_world [] [] =
    Some (Outcome tt w' [EvDial None] [TReadBackend 0; TWatchContext 0;
      TWatch (addr_String client_addr) 0; TStartup 1 false]) /\
  startupRunning (px w') = true.
Proof.
  destruct (wake_packet_starts_server (fun B lg => wake_oracle [] B) client_addr backend_addr wake_packet
    sample_world [] []) as (w' & R & _ & _ & _ & H & _);
    try reflexivity; try exact sample_options_ok; try exact sample_buffers_ok; try (vm_compute; congruence).
  { by left. }
  exists w'. split; [exact R|exact H].
Defined.

Lemma run_admit_dropped (oracle : environment) client packet w lg sp :
  Before (clock w) (startupBlockedUntil (px w)) = true \/
  (backendReady (px w) = false /\ backendRunning (px w) = false /\
   detect_start (options (px w)) packet = false) ->
  runs oracle (admitPacket (addr_String client) client packet) w lg sp = Some (Outcome tt w lg sp).
Proof.
  intros Hdrop. unfold admitPacket. rewrite run_critical. simpl.
  destruct Hdrop as [->|(-> & -> & ->)]; [done|]. by destruct (Before _ _).
Qed.

Lemma run_admit_full (oracle : environment) client packet w lg sp :
  sessions w !! addr_String client = None -> storeMax w <= store_len w ->
  exists t, runs oracle (admitPacket (addr_String client) client packet) w lg sp =
    Some (Outcome tt (upd_px (fun p => p <| lastCapacityWarning := t |>) w) lg sp).
Proof.
  intros Hs Hm.
  assert (Hid : w = upd_px (fun p => p <| lastCapacityWarning := lastCapacityWarning (px w) |>) w).
  { unfold upd_px. by destruct w as [? ? ? ? ? ? ? ? ? ? ? []]. }
  unfold admitPacket. rewrite run_critical. cbn -[GetOrCreate shouldLogCapacityWarning].
  destruct (Before _ _); [exists (lastCapacityWarning (px w)); by rewrite <- Hid|].
  destruct (_ && _ && _); [exists (lastCapacityWarning (px w)); by rewrite <- Hid|].
  rewrite run_bind, run_GetOrCreate_full by done. cbn -[shouldLogCapacityWarning].
  unfold shouldLogCapacityWarning, critical, capacity_warning. simpl.
  destruct (_ && _); [exists (lastCapacityWarning (px w)); rewrite <- Hid|by eexists].
  by replace (w <| px := px w |>) with w by (by destruct w).
Qed.

(** C14. Unwelcome packets cost nothing.  A packet of a client without a session that is
    empty, that comes during the cooldown of a failed startup, or that the detector
    rejects while the backend is down, changes no state, asks nothing of the
    environment and starts no goroutine; at a full table it changes at most the time of
    the last capacity warning. *)
Theorem unwelcome_packets_cost_nothing (oracle : environment) client packet w lg sp :
  sessions w !! addr_String client = None ->
  (packet = [] \/ Before (clock w) (startupBlockedUntil (px w)) = true \/
   (backendReady (px w) = false /\ backendRunning (px w) = false /\
    detect_start (options (px w)) packet = false) ->
   runs oracle (handleClientPacket client packet) w lg sp = Some (Outcome tt w lg sp)) /\
  (storeMax w <= store_len w ->
   exists t, runs oracle (handleClientPacket client packet) w lg sp = Some (Outcome tt w lg sp) \/
     runs oracle (handleClientPacket client packet) w lg sp =
       Some (Outcome tt (upd_px (fun p => p <| lastCapacityWarning := t |>) w) lg sp)).
Proof.
  intros Hs. destruct (decide (packet = [])) as [->|Hne].
  { split; [done|]. intros _. exists 0. by left. }
  rewrite run_handle_absent by done. split.
  - intros [|Hd]; [done|]. by apply run_admit_dropped.
  - intros Hm. destruct (run_admit_full oracle client packet w lg sp Hs Hm) as [t Ht]. exists t. by right.
Qed.

Lemma unwelcome_packets_cost_nothing_witness :
  runs (fun B lg => wake_oracle [] B) (handleClientPacket client_addr [Byte.x01]) sample_world [] [] =
  Some (Outcome tt sample_world [] []).
Proof.
  apply (unwelcome_packets_cost_nothing (fun B lg => wake_oracle [] B) client_addr [Byte.x01] sample_world [] []
    eq_refl).
  right. right. repeat split.
Defined.

(** ** Buffering and forwarding *)

#[export] Instance fits_decision p q packet : Decision (fits p q packet).
Proof. unfold fits. apply _. Defined.

(** C15. Buffering is first in, first out, and all or nothing.  While the limits leave room
    a packet is appended whole at the end of its session's queue and counted; otherwise
    the packets of the queue and the count stay as they are.  The queues of the other
    sessions are untouched either way, and the arithmetic never wraps around. *)
Theorem buffering_is_fifo p active packet :
  options_ok (options p) -> buffers_ok p -> len packet <= MaxPacketSize (options p) ->
  let p' := enqueueLocked active packet p in
  let room := bool_decide (fits p (queue_of p active) packet) in
  packets (queue_of p' active) = (packets (queue_of p active) ++ if room then [packet] else [])%list /\
  queue_bytes (queue_of p' active) = queue_bytes (queue_of p active) + (if room then len packet else 0) /\
  queuedBytes p' = queuedBytes p + (if room then len packet else 0) /\
  overflowLogged (queue_of p' active) = overflowLogged (queue_of p active) || negb room /\
  forall other, other <> active -> queues p' !! other = queues p !! other.
Proof.
  intros Ho Hb Hl p' room. unfold p', room. case_bool_decide as Hf.
  - rewrite enqueueLocked_fits by done. unfold queue_of. simpl. rewrite lookup_insert_eq. simpl.
    repeat split; [by rewrite orb_false_r|]. intros other Hne. by apply lookup_insert_ne.
  - rewrite enqueueLocked_overflow by done. unfold queue_of. simpl. rewrite lookup_insert_eq. simpl.
    repeat split; [by rewrite app_nil_r|lia|lia|by rewrite orb_true_r|].
    intros other Hne. by apply lookup_insert_ne.
Qed.

Lemma buffering_is_fifo_witness :
  packets (queue_of (enqueueLocked 3 wake_packet (px sample_world)) 3) = [wake_packet].
Proof.
  destruct (buffering_is_fifo (px sample_world) 3 wake_packet sample_options_ok sample_buffers_ok)
    as (H & _); [vm_compute; congruence|].
  rewrite H. vm_compute. reflexivity.
Defined.

(** C16. An open gate forwards.  A packet of a client whose session is open is, with the
    gate open, written to the backend at once, whole and exactly once; its time is
    recorded, and nothing else changes and no goroutine starts. *)
Theorem open_gate_forwards (oracle : environment) client packet sid s w lg sp :
  packet <> [] -> sessions w !! addr_String client = Some sid -> heap w !! sid = Some s ->
  closed s = false -> backendReady (px w) = true -> oracle _ lg (QWrite sid packet) = None ->
  runs oracle (handleClientPacket client packet) w lg sp =
  Some (Outcome tt (w <| heap := <[sid := s <| lastActivity := UnixNano (clock w) |>]> (heap w) |>)
    (lg ++ [EvWrite sid packet None])%list sp).
Proof.
  intros Hne Hs Hh Hc Hr Hw. unfold handleClientPacket. rewrite bool_decide_eq_false_2.
  2: { destruct packet; [done|]. rewrite len_cons. pose proof (len_nonneg packet). lia. }
  rewrite run_Get, Hs. cbn -[on_session]. rewrite Hr. cbn -[on_session].
  unfold on_session. rewrite Hh. unfold touch_session. rewrite Hc. simpl. by rewrite Hw.
Qed.

(** The sample proxy with its gate open and one client playing. *)
Definition playing_world : world :=
  upd_px (fun p => p <| backendReady := true |> <| backendRunning := true |>)
    (set_session (addr_String client_addr) 0 (with_new_session client_addr 1500 sample_world)).

Lemma open_gate_forwards_witness : exists w',
  runs (fun B lg => wake_oracle [] B) (handleClientPacket client_addr wake_packet) playing_world [] [] =
  Some (Outcome tt w' [EvWrite 0 wake_packet None] []).
Proof.
  eexists. eapply (open_gate_forwards (fun B lg => wake_oracle [] B) client_addr wake_packet 0
    (fresh_session client_addr 1500 0) playing_world [] []); vm_compute; congruence.
Defined.

(** The client's session has just closed, its watcher not yet run. *)
Definition departed_world : world :=
  upd_session 0 (fun s => s <| closed := true |> <| closeOnce := OnceDone |> <| ctxCancelled := true |>
    <| upstreamClosed := true |> <| doneClosed := true |> <| goroutineWG := 0 |>) playing_world.

Definition no_dial_oracle (B : Type) (q : query B) : B :=
  match q in query B return B with
  | QDial => Some (ErrText "too many open files")
  | q => wake_oracle [] _ q
  end.

(** A gap in the scheduling of stops: when a packet of a closed session takes it out of the table
    and its replacement cannot be created, nobody schedules a stop for the idle server - not
    the packet's handler, and not the closed session's watcher, which finds it removed. *)
Example replaced_session_schedules_no_stop :
  match runs (fun B _ => no_dial_oracle B) (handleClientPacket client_addr wake_packet) departed_world [] [] with
  | Some (Outcome _ w _ _) =>
      match runs (fun B _ => no_dial_oracle B) (watch_session (addr_String client_addr) 0) w [] [] with
      | Some (Outcome _ w sp _) =>
          sessions w = ∅ /\ backendReady (px w) = true /\ stopTimer (px w) = None /\ timers w = ∅ /\ sp = []
      | None => False
      end
  | None => False
  end.
Proof. vm_compute. repeat split. Qed.
