(* ===== verification/Local.v ===== *)
(** * Local: what one goroutine does, whatever the others do

    The events of one goroutine in an execution.  A property of the history of its own
    events holds in every execution when its code maintains it at each question,
    whatever state it finds at each access to the shared state. *)
From S2P Require Import Prelude Conc.

Section local.
Context {W : Type} {Q : Type -> Type} {L T Ev : Type} `{EqDecision L}.
Context (event : forall B, Q B -> B -> Ev).
Context (body : T -> prog W Q L T (option T)).

Notation thread := (thread (W := W) (Q := Q) (L := L) (T := T)).
Notation config := (config (W := W) (Q := Q) (L := L) (T := T)).
Notation step := (step (W := W) (Q := Q) (L := L) (T := T) event body).
Notation steps := (steps (W := W) (Q := Q) (L := L) (T := T) event body).

(** The events of the goroutine [tid]. *)
Definition events_of (tid : nat) (tr : list (nat * Ev)) : list Ev :=
  omap (fun x => if bool_decide (fst x = tid) then Some (snd x) else None) tr.

(** Executions during which [tid] is alive: one goroutine, from a moment of its life on. *)
Inductive alive_steps (tid : nat) : config -> list (nat * Ev) -> config -> Prop :=
| alive_refl c : is_Some (pool c !! tid) -> alive_steps tid c [] c
| alive_snoc c tr c' e c'' :
    alive_steps tid c tr c' -> step c' e c'' -> is_Some (pool c'' !! tid) ->
    alive_steps tid c (tr ++ option_list e) c''.

Lemma alive_steps_steps tid c tr c' : alive_steps tid c tr c' -> steps c tr c'.
Proof. induction 1; [constructor|by econstructor]. Qed.

Lemma alive_steps_trans tid c tr c' tr' c'' :
  alive_steps tid c tr c' -> alive_steps tid c' tr' c'' -> alive_steps tid c (tr ++ tr') c''.
Proof.
  intros H1 H2. induction H2; [by rewrite app_nil_r|]. rewrite app_assoc. by eapply alive_snoc; [apply IHalive_steps| |].
Qed.

(** The scheduler run on one goroutine that is alive at the end. *)
Lemma exec_n_alive oracle tid n : forall next tr c next' tr' c',
  exec_n event body oracle tid n next tr c = Some (next', tr', c') -> is_Some (pool c' !! tid) ->
  exists tr'', tr' = (tr ++ tr'')%list /\ alive_steps tid c tr'' c'.
Proof.
  induction n as [|n IH]; intros next tr c next' tr' c'; simpl.
  { intros [= _ <- <-] Ha. exists []. rewrite app_nil_r. split; [done|by constructor]. }
  destruct (exec_step event body _ _ _ _) as [[e c2]|] eqn:He; [|done]. intros Hx Ha.
  assert (Hc : is_Some (pool c !! tid)).
  { unfold exec_step in He. destruct (pool c !! tid); [by eexists|done]. }
  destruct (IH _ _ _ _ _ _ Hx Ha) as (tr2 & -> & H2).
  exists (option_list e ++ tr2)%list. rewrite <- app_assoc. split; [done|].
  eapply alive_steps_trans; [|exact H2]. eapply (alive_snoc tid c []); [by constructor| |].
  - by eapply exec_step_sound.
  - clear -H2. by induction H2.
Qed.

(** A step of the scheduler leaves the other goroutines alone. *)
Lemma exec_step_other answer child tid tid' c e c' th :
  exec_step event body answer child tid' c = Some (e, c') -> tid' <> tid ->
  pool c !! tid = Some th -> pool c' !! tid = Some th.
Proof.
  intros He Hne Hp. unfold exec_step in He. destruct (pool c !! tid') as [[p h]|]; [|done].
  destruct p as [[t|]|B f k|B q k|l m k|l m k|t k]; repeat case_match; simplify_eq/=;
    rewrite ?lookup_insert_ne, ?lookup_delete_ne by (done || congruence); try done.
Qed.

Lemma exec_n_other oracle tid tid' n : forall next tr c next' tr' c' th,
  exec_n event body oracle tid' n next tr c = Some (next', tr', c') -> tid' <> tid ->
  pool c !! tid = Some th ->
  exists tr'', tr' = (tr ++ tr'')%list /\ alive_steps tid c tr'' c' /\ pool c' !! tid = Some th.
Proof.
  induction n as [|n IH]; intros next tr c next' tr' c' th; simpl.
  { intros [= _ <- <-] _ Ha. exists []. rewrite app_nil_r. split; [done|]. split; [constructor; by eexists|done]. }
  destruct (exec_step event body _ _ _ _) as [[e c2]|] eqn:He; [|done]. intros Hx Hne Hp.
  assert (Hp2 : pool c2 !! tid = Some th) by (by eapply exec_step_other).
  destruct (IH _ _ _ _ _ _ _ Hx Hne Hp2) as (tr2 & -> & H2 & Hp').
  exists (option_list e ++ tr2)%list. rewrite <- app_assoc. split; [done|]. split; [|done].
  eapply alive_steps_trans; [|exact H2].
  eapply (alive_snoc tid c []); [constructor; by eexists|by eapply exec_step_sound|by eexists].
Qed.

(** ** Footprints *)

(** [p] asks only the questions of [P] and starts only the goroutines of [G]. *)
Fixpoint asks (P : forall B, Q B -> Prop) (G : T -> Prop) {A} (p : prog W Q L T A) : Prop :=
  match p with
  | Ret _ => True
  | Atomic _ k => forall b, asks P G (k b)
  | Ask q k => P _ q /\ forall b, asks P G (k b)
  | Acquire _ _ k | Release _ _ k => asks P G k
  | Go t k => G t /\ asks P G k
  end.

Lemma asks_bind P G {A B} (p : prog W Q L T A) (g : A -> prog W Q L T B) :
  asks P G p -> (forall a, asks P G (g a)) -> asks P G (bind p g).
Proof. intros Hp Hg. induction p; simpl in *; firstorder. Qed.

Lemma asks_mono (P P' : forall B, Q B -> Prop) (G G' : T -> Prop) {A} (p : prog W Q L T A) :
  (forall B q, P B q -> P' B q) -> (forall t, G t -> G' t) -> asks P G p -> asks P' G' p.
Proof. intros HP HG. induction p; simpl; firstorder. Qed.

(** ** Local invariants *)

Section invariant.
Context (inv : W -> Prop) (ok : list Ev -> Prop) (spawns : T -> list Ev -> Prop).

(** [p] keeps [ok] true of the history, starts only goroutines [spawns] allows, and ends
    with [post], in states that satisfy [inv]. *)
Fixpoint follows {A} (p : prog W Q L T A) (post : A -> list Ev -> Prop) (h : list Ev) : Prop :=
  match p with
  | Ret a => post a h
  | Atomic f k => forall w b w', inv w -> f w = Some (b, w') -> follows (k b) post h
  | Ask q k => forall b, ok (h ++ [event _ q b]) /\ follows (k b) post (h ++ [event _ q b])
  | Acquire _ _ k | Release _ _ k => follows k post h
  | Go t k => spawns t h /\ follows k post h
  end.

Lemma follows_mono {A} (p : prog W Q L T A) (post post' : A -> list Ev -> Prop) h :
  (forall a h', post a h' -> post' a h') -> follows p post h -> follows p post' h.
Proof. revert h. induction p; intros hist Hp; simpl; firstorder eauto. Qed.

Lemma follows_bind {A B} (p : prog W Q L T A) (g : A -> prog W Q L T B) post h :
  follows p (fun a => follows (g a) post) h -> follows (bind p g) post h.
Proof. revert h. induction p; intros hist; simpl; firstorder eauto. Qed.

(** A call that leaves alone what the rest relies on. *)
Lemma follows_call {A B} (p : prog W Q L T A) (g : A -> prog W Q L T B) mid post h :
  follows p mid h -> (forall a h', mid a h' -> follows (g a) post h') -> follows (bind p g) post h.
Proof. intros Hp Hg. apply follows_bind. by eapply follows_mono. Qed.

(** A call whose questions leave [J] alone. *)
Lemma follows_asks P G (J : list Ev -> Prop) {A} (p : prog W Q L T A) h :
  (forall h B q b, J h -> P B q -> J (h ++ [event B q b])) -> (forall h, J h -> ok h) ->
  (forall h t, J h -> G t -> spawns t h) ->
  asks P G p -> J h -> follows p (fun _ => J) h.
Proof.
  intros HJ Hok Hsp. revert h. induction p as [a|B f k IH|B q k IH|l m k IH|l m k IH|t k IH]; intros h Ha Hh; simpl in *; auto.
  - destruct Ha as [Hq Ha]. intros b. split; auto.
  - destruct Ha. split; auto.
Qed.

(** The loop: the tasks [tasks] names may run with their histories. *)
Context (tasks : T -> list Ev -> Prop).

Definition ends (r : option T) (h : list Ev) : Prop :=
  match r with Some t => tasks t h | None => True end.

Hypothesis tasks_ok : forall t h, tasks t h -> follows (body t) ends h.

(** A goroutine that starts with such a task keeps [ok] true of its events. *)
Lemma local_step tid c e c' h th th' :
  step c e c' -> inv (world_of c) -> pool c !! tid = Some th -> pool c' !! tid = Some th' ->
  follows (code th) ends h -> ok h ->
  let h' := (h ++ events_of tid (option_list e))%list in
  follows (code th') ends h' /\ ok h'.
Proof.
  intros Hs Hi Hp Hp' Hf Hok. unfold events_of.
  destruct Hs as [tid0 t h0 w ts Ht|tid0 h0 w ts Ht|tid0 B f k h0 w ts b w' Ht Hfw|tid0 B q k h0 w ts b Ht
    |tid0 l m k h0 w ts Ht Ha|tid0 l m k h0 w ts Ht Hl|tid0 t k h0 w ts tid1 Ht Hn]; simpl in *.
  all: destruct (decide (tid0 = tid)) as [->|Hne];
    [rewrite Ht in Hp; injection Hp as <-; simpl in Hf|].
  all: rewrite ?app_nil_r.
  - rewrite lookup_insert_eq in Hp'. injection Hp' as <-. split; [by apply tasks_ok|done].
  - rewrite lookup_insert_ne, Hp in Hp' by done. by injection Hp' as <-.
  - by rewrite lookup_delete_eq in Hp'.
  - rewrite lookup_delete_ne, Hp in Hp' by done. by injection Hp' as <-.
  - rewrite lookup_insert_eq in Hp'. injection Hp' as <-. split; [by eapply Hf|done].
  - rewrite lookup_insert_ne, Hp in Hp' by done. by injection Hp' as <-.
  - rewrite lookup_insert_eq in Hp'. injection Hp' as <-. rewrite bool_decide_eq_true_2 by done.
    destruct (Hf b). by split.
  - rewrite bool_decide_eq_false_2 by done. simpl. rewrite app_nil_r.
    rewrite lookup_insert_ne, Hp in Hp' by done. by injection Hp' as <-.
  - rewrite lookup_insert_eq in Hp'. by injection Hp' as <-.
  - rewrite lookup_insert_ne, Hp in Hp' by done. by injection Hp' as <-.
  - rewrite lookup_insert_eq in Hp'. by injection Hp' as <-.
  - rewrite lookup_insert_ne, Hp in Hp' by done. by injection Hp' as <-.
  - rewrite lookup_insert_ne in Hp' by congruence. rewrite lookup_insert_eq in Hp'. injection Hp' as <-.
    by destruct Hf.
  - rewrite lookup_insert_ne in Hp' by congruence. rewrite lookup_insert_ne, Hp in Hp' by done.
    by injection Hp' as <-.
Qed.

Lemma local_steps tid c tr c' h th :
  alive_steps tid c tr c' -> (forall tr' c2, steps c tr' c2 -> inv (world_of c2)) ->
  pool c !! tid = Some th -> follows (code th) ends h -> ok h ->
  exists th', pool c' !! tid = Some th' /\
    follows (code th') ends (h ++ events_of tid tr) /\ ok (h ++ events_of tid tr).
Proof.
  intros Hs Hi Hp Hf Hok. induction Hs as [c Ha|c tr c' e c'' Hs IH Hstep [th'' Hp'']].
  { exists th. by rewrite app_nil_r. }
  destruct (IH Hi Hp) as (th' & Hp' & Hf' & Hok').
  exists th''. split; [done|]. unfold events_of at 1 2. rewrite omap_app, app_assoc.
  eapply local_step; [done| |done..]. eapply Hi. by eapply alive_steps_steps.
Qed.
End invariant.
End local.
