(* ===== verification/Observed.v ===== *)
(** * Observed: what one goroutine does and sees

    The history of a goroutine in an execution, its events together with what it observes of
    the shared state at each of its accesses.  Every execution has such a history; a property
    of it holds in every execution when the goroutine's code maintains it, whatever state it
    finds at each access. *)
From S2P Require Import Prelude Conc Local.

(** An event, or an observation at an access to the state. *)
Inductive item (Ev V : Type) := Did (ev : Ev) | Saw (o : V).

Arguments Did {Ev V} ev.
Arguments Saw {Ev V} o.

Section observed.
Context {W : Type} {Q : Type -> Type} {L T Ev V : Type} `{EqDecision L}.
Context (event : forall B, Q B -> B -> Ev).
Context (body : T -> prog W Q L T (option T)).
Context (obs : W -> V).

Notation thread := (thread (W := W) (Q := Q) (L := L) (T := T)).
Notation config := (config (W := W) (Q := Q) (L := L) (T := T)).
Notation step := (step (W := W) (Q := Q) (L := L) (T := T) event body).
Notation history := (list (item Ev V)).

Definition accesses (p : prog W Q L T (option T)) : bool := match p with Atomic _ _ => true | _ => false end.

(** The histories of [tid] from the configuration [c] on, while it is alive: its accesses
    with what it sees, its other steps with their event, and the steps of the others. *)
Inductive observed (tid : nat) (c : config) : history -> config -> Prop :=
| observed_start : is_Some (pool c !! tid) -> observed tid c [] c
| observed_access h w ts B (f : W -> option (B * W)) k hl b w' :
    observed tid c h (Config w ts) -> ts !! tid = Some (Thread (Atomic f k) hl) -> f w = Some (b, w') ->
    observed tid c (h ++ [Saw (obs w)]) (Config w' (<[tid := Thread (k b) hl]> ts))
| observed_own h c1 e c2 th :
    observed tid c h c1 -> step c1 e c2 -> pool c1 !! tid = Some th -> accesses (code th) = false ->
    is_Some (pool c2 !! tid) ->
    observed tid c (h ++ map Did (events_of tid (option_list e))) c2
| observed_other h c1 e c2 :
    observed tid c h c1 -> step c1 e c2 -> pool c2 !! tid = pool c1 !! tid ->
    events_of tid (option_list e) = [] ->
    observed tid c h c2.

(** The events of a history. *)
Definition dones (h : history) : list Ev := omap (fun i => match i with Did ev => Some ev | Saw _ => None end) h.

Lemma dones_app h1 h2 : dones (h1 ++ h2) = dones h1 ++ dones h2.
Proof. apply omap_app. Qed.

Lemma dones_did l : dones (map Did l) = l.
Proof. unfold dones. induction l as [|ev l IH]; [done|]. cbn. f_equal. exact IH. Qed.

Lemma observed_alive tid c h c' : observed tid c h c' -> is_Some (pool c' !! tid).
Proof.
  induction 1 as [Ha|h w ts B f k hl b w' _ _ _ _|h c1 e c2 th _ _ _ _ _ Ha|h c1 e c2 _ IH _ Hp _]; [done| |done|].
  - simpl. rewrite lookup_insert_eq. by eexists.
  - by rewrite Hp.
Qed.

(** Every execution has a history, with the events of the execution. *)
Lemma alive_observed tid c tr c' :
  alive_steps event body tid c tr c' -> exists h, observed tid c h c' /\ dones h = events_of tid tr.
Proof.
  induction 1 as [c Ha|c tr c1 e c2 _ (h & Ho & Hd) Hs Ha]; [exists []; by split; [constructor|]|].
  assert (Happ : events_of tid (tr ++ option_list e) = events_of tid tr ++ events_of tid (option_list e))
    by apply omap_app.
  destruct (observed_alive _ _ _ _ Ho) as [th Hth].
  assert (Hown : accesses (code th) = false ->
    exists h, observed tid c h c2 /\ dones h = events_of tid (tr ++ option_list e)).
  { intros Hacc. exists (h ++ map Did (events_of tid (option_list e))).
    split; [by eapply observed_own|]. by rewrite dones_app, dones_did, Hd, Happ. }
  destruct (accesses (code th)) eqn:Hacc; [|by apply Hown].
  assert (Hother : pool c2 !! tid = pool c1 !! tid -> events_of tid (option_list e) = [] ->
    exists h, observed tid c h c2 /\ dones h = events_of tid (tr ++ option_list e)).
  { intros Hp He. exists h. split; [by eapply observed_other|]. by rewrite Happ, He, app_nil_r. }
  unfold events_of in Hother. pose proof Hs as Hs'.
  destruct Hs as [tid0 t h0 w ts Ht|tid0 h0 w ts Ht|tid0 B f k h0 w ts b w' Ht Hf|tid0 B q k h0 w ts b Ht
    |tid0 l m k h0 w ts Ht Hav|tid0 l m k h0 w ts Ht Hl|tid0 t k h0 w ts tid1 Ht Hn]; simpl in *;
    (destruct (decide (tid0 = tid)) as [->|Hne]; [rewrite Ht in Hth; injection Hth as <-; try done|]).
  all: try (apply Hother; rewrite ?lookup_insert_ne, ?lookup_delete_ne by congruence; done).
  - exists (h ++ [Saw (obs w)]). split; [by eapply observed_access|]. rewrite dones_app, Hd, Happ. reflexivity.
  - apply Hother; [by rewrite lookup_insert_ne|]. by rewrite bool_decide_eq_false_2.
Qed.

(** ** Local invariants of histories *)

Section invariant.
Context (ok : history -> Prop).
Hypothesis ok_saw : forall h o, ok h -> ok (h ++ [Saw o]).

(** [p] keeps [ok] true of the history and ends with [post]. *)
Fixpoint heeds {A} (p : prog W Q L T A) (post : A -> history -> Prop) (h : history) : Prop :=
  match p with
  | Ret a => post a h
  | Atomic f k => forall w b w', f w = Some (b, w') -> heeds (k b) post (h ++ [Saw (obs w)])
  | Ask q k => forall b, ok (h ++ [Did (event _ q b)]) /\ heeds (k b) post (h ++ [Did (event _ q b)])
  | Acquire _ _ k | Release _ _ k | Go _ k => heeds k post h
  end.

Lemma heeds_mono {A} (p : prog W Q L T A) (post post' : A -> history -> Prop) h :
  heeds p post h -> (forall a h', post a h' -> post' a h') -> heeds p post' h.
Proof.
  intros Hp Hpost. revert h Hp. induction p as [a|B f k IH|B q k IH|l m k IH|l m k IH|t k IH]; intros h Hp; simpl in *; eauto.
  intros b. destruct (Hp b). split; auto.
Qed.

Lemma heeds_bind {A B} (p : prog W Q L T A) (g : A -> prog W Q L T B) post h :
  heeds p (fun a => heeds (g a) post) h -> heeds (bind p g) post h.
Proof.
  revert h. induction p as [a|C f k IH|C q k IH|l m k IH|l m k IH|t k IH]; intros h Hp; simpl in *; eauto.
  intros b. destruct (Hp b). split; auto.
Qed.

Lemma heeds_call {A B} (p : prog W Q L T A) (g : A -> prog W Q L T B) mid post h :
  heeds p mid h -> (forall a h', mid a h' -> heeds (g a) post h') -> heeds (bind p g) post h.
Proof. intros Hp Hg. apply heeds_bind. by eapply heeds_mono. Qed.

(** A call whose questions and observations leave [J] alone. *)
Lemma heeds_asks (P : forall B, Q B -> Prop) (G : T -> Prop) (J : history -> Prop) {A} (p : prog W Q L T A) h :
  (forall h o, J h -> J (h ++ [Saw o])) -> (forall h B q b, J h -> P B q -> J (h ++ [Did (event B q b)])) ->
  (forall h, J h -> ok h) -> asks P G p -> J h -> heeds p (fun _ => J) h.
Proof.
  intros Hs Hd Hok. revert h.
  induction p as [a|B f k IH|B q k IH|l m k IH|l m k IH|t k IH]; intros h Ha Hh; simpl in *; auto.
  - destruct Ha as [Hq Ha]. intros b. split; auto.
  - destruct Ha. auto.
Qed.

Context (tasks : T -> history -> Prop).

Definition pursues (r : option T) (h : history) : Prop :=
  match r with Some t => tasks t h | None => True end.

Hypothesis tasks_ok : forall t h, tasks t h -> heeds (body t) pursues h.

(** A goroutine that starts with such a task keeps [ok] true of its history. *)
Lemma observed_ok tid c h c' th :
  observed tid c h c' -> pool c !! tid = Some th -> heeds (code th) pursues [] -> ok [] ->
  exists th', pool c' !! tid = Some th' /\ heeds (code th') pursues h /\ ok h.
Proof.
  intros Ho Hp Hf Hok. induction Ho as [Ha|h w ts B f k hl b w' _ IH Ht Hw|h c1 e c2 th1 _ IH Hs Hth Hacc Ha
    |h c1 e c2 _ IH Hs Hp2 _].
  - by exists th.
  - destruct IH as (th' & Hth' & Hf' & Hok'). simpl in Hth'. rewrite Ht in Hth'. injection Hth' as <-. simpl in *.
    exists (Thread (k b) hl). rewrite lookup_insert_eq. split; [done|]. split; [by eapply Hf'|by apply ok_saw].
  - destruct IH as (th' & Hth' & Hf' & Hok'). rewrite Hth in Hth'. injection Hth' as <-. destruct Ha as [th2 Hth2].
    unfold events_of. exists th2. split; [done|]. clear Hp Hf Hok.
    destruct Hs as [tid0 t h0 w ts Ht|tid0 h0 w ts Ht|tid0 B f k h0 w ts b w' Ht Hfw|tid0 B q k h0 w ts b Ht
      |tid0 l m k h0 w ts Ht Hav|tid0 l m k h0 w ts Ht Hl|tid0 t k h0 w ts tid1 Ht Hn]; simpl in *;
      (destruct (decide (tid0 = tid)) as [->|Hne]; [rewrite Ht in Hth; injection Hth as <-; simpl in *; try done|]);
      rewrite ?app_nil_r; rewrite ?lookup_insert_eq, ?lookup_delete_eq in Hth2;
      rewrite ?lookup_insert_ne, ?lookup_delete_ne in Hth2 by congruence;
      rewrite ?lookup_insert_eq, ?lookup_insert_ne in Hth2 by congruence; simplify_eq/=; auto.
    + destruct (Hf' b). by rewrite bool_decide_eq_true_2 by done.
    + rewrite bool_decide_eq_false_2 by done. simpl. rewrite app_nil_r. auto.
  - destruct IH as (th' & Hth' & Hf' & Hok'). exists th'. by rewrite Hp2.
Qed.
End invariant.

(** *** The scheduler run on one goroutine, with its history *)

Fixpoint observe_n (oracle : list (nat * Ev) -> forall B, Q B -> B) (tid n next : nat)
    (tr : list (nat * Ev)) (h : history) (c : config) : option (history * config) :=
  match n with
  | O => Some (h, c)
  | S n =>
      match exec_step event body (oracle tr) next tid c, pool c !! tid with
      | Some (e, c'), Some th =>
          observe_n oracle tid n (if is_go c tid then S next else next) (tr ++ option_list e)
            (h ++ (if accesses (code th) then [Saw (obs (world_of c))] else map Did (events_of tid (option_list e)))) c'
      | _, _ => None
      end
  end.

Lemma observe_n_observed oracle tid n c0 : forall next tr h c h' c',
  observe_n oracle tid n next tr h c = Some (h', c') -> is_Some (pool c' !! tid) ->
  observed tid c0 h c -> observed tid c0 h' c'.
Proof.
  induction n as [|n IH]; intros next tr h c h' c'; simpl; [by intros [= <- <-]|].
  destruct (exec_step event body _ _ _ _) as [[e c2]|] eqn:He; [|done].
  destruct (pool c !! tid) as [th|] eqn:Hth; [|done]. intros Hx Ha Ho.
  assert (Hc2 : is_Some (pool c2 !! tid)).
  { destruct n as [|n]; simpl in Hx; [injection Hx as _ <-; done|].
    destruct (exec_step event body _ _ _ c2) as [[e2 c3]|]; [|done]. destruct (pool c2 !! tid); [by eexists|done]. }
  eapply IH; [exact Hx|exact Ha|]. destruct (accesses (code th)) eqn:Hacc.
  - destruct c as [w ts], th as [p hl]. simpl in *. unfold exec_step in He. simpl in He. rewrite Hth in He.
    destruct p as [|B f k| | | |]; try done. destruct (f w) as [[b w']|] eqn:Hf; [|done].
    injection He as <- <-. by eapply observed_access.
  - eapply observed_own; [exact Ho|by eapply exec_step_sound|exact Hth|exact Hacc|exact Hc2].
Qed.
End observed.
