(* ===== verification/Amid.v ===== *)
(** * Amid: what a goroutine does while others run

    [amid p post w lg]: the goroutine that runs [p] from the state [w] ends in finitely many
    steps of its own with [post], whatever the environment answers and whatever the others
    do, within [others], before each of its accesses and at its end; its own accesses stay
    within [own], and where one blocks, [waits] holds of the state.  The last section
    shows that this is what happens in the interleaving semantics. *)
From S2P Require Import Prelude Conc Local.

Section amid.
Context {W : Type} {Q : Type -> Type} {L T Ev : Type} `{EqDecision L}.
Context (event : forall B, Q B -> B -> Ev).
Context (others own : W -> W -> Prop) `{!PreOrder others}.
Context (waits : W -> Prop).

Fixpoint amid {A} (p : prog W Q L T A) (post : A -> W -> list Ev -> Prop) (w : W) (lg : list Ev) : Prop :=
  match p with
  | Ret a => forall w1, others w w1 -> post a w1 lg
  | Atomic f k => forall w1, others w w1 ->
      match f w1 with
      | Some (b, w2) => own w1 w2 /\ amid (k b) post w2 lg
      | None => waits w1
      end
  | Ask q k => forall b, amid (k b) post w (lg ++ [event _ q b])
  | Acquire _ _ k | Release _ _ k => amid k post w lg
  | Go _ _ => False
  end.

Lemma amid_others {A} (p : prog W Q L T A) post w w1 lg : others w w1 -> amid p post w lg -> amid p post w1 lg.
Proof.
  intros Ho. revert lg. induction p as [a|B f k IH|B q k IH|l m k IH|l m k IH|t k IH]; intros lg Hp; simpl in *; auto.
  - intros w2 Hw2. apply Hp. by etransitivity.
  - intros w2 Hw2. apply Hp. by etransitivity.
Qed.

Lemma amid_mono {A} (p : prog W Q L T A) (post post' : A -> W -> list Ev -> Prop) w lg :
  amid p post w lg -> (forall a w' lg', post a w' lg' -> post' a w' lg') -> amid p post' w lg.
Proof.
  intros Hp Hpost. revert w lg Hp.
  induction p as [a|B f k IH|B q k IH|l m k IH|l m k IH|t k IH]; intros w lg Hp; simpl in *; auto.
  intros w1 Hw1. specialize (Hp w1 Hw1). destruct (f w1) as [[b w2]|]; [|done]. destruct Hp. auto.
Qed.

Lemma amid_bind {A B} (p : prog W Q L T A) (g : A -> prog W Q L T B) post w lg :
  amid p (fun a => amid (g a) post) w lg -> amid (bind p g) post w lg.
Proof.
  revert w lg. induction p as [a|C f k IH|C q k IH|l m k IH|l m k IH|t k IH]; intros w lg Hp; simpl in *; auto.
  - by apply Hp.
  - intros w1 Hw1. specialize (Hp w1 Hw1). destruct (f w1) as [[b w2]|]; [|done]. destruct Hp. auto.
Qed.

Lemma amid_call {A B} (p : prog W Q L T A) (g : A -> prog W Q L T B) mid post w lg :
  amid p mid w lg -> (forall a w' lg', mid a w' lg' -> amid (g a) post w' lg') -> amid (bind p g) post w lg.
Proof. intros Hp Hg. apply amid_bind. by eapply amid_mono. Qed.

(** *** Runs with given answers and given doings of the others *)

Context (oracle : forall B, list Ev -> Q B -> B).

(** [env n] is what the others do before the [n]-th access. *)
Fixpoint run_amid {A} (env : nat -> W -> W) (n : nat) (p : prog W Q L T A) (w : W) (lg : list Ev)
    : option (A * W * list Ev) :=
  match p with
  | Ret a => Some (a, env n w, lg)
  | Atomic f k =>
      match f (env n w) with
      | Some (b, w') => run_amid env (S n) (k b) w' lg
      | None => None
      end
  | Ask q k => let b := oracle _ lg q in run_amid env n (k b) w (lg ++ [event _ q b])
  | Acquire _ _ k | Release _ _ k => run_amid env n k w lg
  | Go _ _ => None
  end.

Lemma amid_run {A} env (p : prog W Q L T A) post : (forall n w, others w (env n w)) ->
  forall n w lg, amid p post w lg ->
  match run_amid env n p w lg with
  | Some (a, w', lg') => post a w' lg'
  | None => exists w', waits w'
  end.
Proof.
  intros He. induction p as [a|B f k IH|B q k IH|l m k IH|l m k IH|t k IH]; intros n w lg Hp; simpl in *; auto.
  - specialize (Hp _ (He n w)). destruct (f (env n w)) as [[b w2]|]; [|by eexists].
    destruct Hp as [_ Hp]. by apply IH.
  - by apply IH.
  - by apply IH.
  - by apply IH.
  - done.
Qed.
End amid.

(** ** In the interleaving semantics

    One goroutine [tid] and others whose code respects [theirs] while anybody moves within
    [mine] or [theirs]: a step of the others leaves the [amid] of [tid] alone, and a step of
    [tid] advances it. *)
Section interleaving.
Context {W : Type} {Q : Type -> Type} {L T Ev : Type} `{EqDecision L}.
Context (event : forall B, Q B -> B -> Ev).
Context (body : T -> prog W Q L T (option T)).
Context (mine theirs : W -> W -> Prop) `{!PreOrder mine} `{!PreOrder theirs}.
Context (waits : W -> Prop) (companion : T -> Prop).
Hypothesis theirs_mine : forall w w', theirs w w' -> mine w w'.

Notation thread := (thread (W := W) (Q := Q) (L := L) (T := T)).
Notation config := (config (W := W) (Q := Q) (L := L) (T := T)).
Notation step := (step (W := W) (Q := Q) (L := L) (T := T) event body).

Definition goes_on (r : option T) : Prop := match r with Some t => companion t | None => True end.

(** Code that only does to the state what [theirs] allows. *)
Definition respects (p : prog W Q L T (option T)) (w : W) : Prop :=
  amid event mine theirs (fun _ => True) p (fun r _ _ => goes_on r) w [].

Hypothesis companions_respect : forall t w, companion t -> respects (body t) w.

(** The logs do not matter to [respects]. *)
Lemma respects_log (p : prog W Q L T (option T)) w lg lg' :
  amid event mine theirs (fun _ => True) p (fun r _ _ => goes_on r) w lg ->
  amid event mine theirs (fun _ => True) p (fun r _ _ => goes_on r) w lg'.
Proof.
  revert w lg lg'. induction p as [a|B f k IH|B q k IH|l m k IH|l m k IH|t k IH]; intros w lg lg' Hp; simpl in *; eauto.
  intros w1 Hw1. specialize (Hp w1 Hw1). destruct (f w1) as [[b w2]|]; [|done]. destruct Hp. eauto.
Qed.

(** [tid] runs in company. *)
Definition attended (c : config) (tid : nat) (post : option T -> W -> list Ev -> Prop) (lg : list Ev) : Prop :=
  (exists th, pool c !! tid = Some th /\ amid event theirs mine waits (code th) post (world_of c) lg) /\
  forall i th, i <> tid -> pool c !! i = Some th -> respects (code th) (world_of c).

(** Every step keeps [tid] attended, until it is at its end. *)
Lemma attended_step c e c' tid post lg :
  step c e c' -> attended c tid post lg ->
  (exists th r, pool c !! tid = Some th /\ code th = Ret r) \/
  attended c' tid post (lg ++ events_of tid (option_list e)).
Proof.
  intros Hs [(th & Hth & Ha) Hc]. unfold events_of.
  assert (Hmove : forall i w w' ts th1 th2, ts !! i = Some th1 ->
    (i <> tid -> theirs w w') -> (i = tid -> mine w w') ->
    (i <> tid -> exists th, ts !! tid = Some th /\ amid event theirs mine waits (code th) post w lg) ->
    (forall j th, j <> tid -> ts !! j = Some th -> respects (code th) w) ->
    (i <> tid -> respects (code th2) w') -> (i = tid -> amid event theirs mine waits (code th2) post w' lg) ->
    attended (Config w' (<[i := th2]> ts)) tid post lg).
  { intros i w w' ts th1 th2 Hi Ht Hm Ha0 Hc0 Hr Ham. split.
    - destruct (decide (i = tid)) as [->|Hne].
      + exists th2. simpl. rewrite lookup_insert_eq. auto.
      + destruct (Ha0 Hne) as (th0 & Hth0 & Ha1). exists th0. simpl. rewrite lookup_insert_ne by done. split; [done|]. refine (amid_others _ _ _ _ _ _ w w' _ _ Ha1). by apply Ht.
    - intros j th3 Hj. simpl. rewrite lookup_insert_Some. intros [[<- <-]|[Hne Hj3]]; [by apply Hr|].
      refine (amid_others _ _ _ _ _ _ w w' _ _ (Hc0 _ _ _ Hj3)); [|done].
      destruct (decide (i = tid)); [by apply Hm|by apply theirs_mine, Ht]. }
  destruct Hs as [tid0 t h w ts Ht|tid0 h w ts Ht|tid0 B f k h w ts b w' Ht Hf|tid0 B q k h w ts b Ht
    |tid0 l m k h w ts Ht Hav|tid0 l m k h w ts Ht Hl|tid0 t k h w ts tid1 Ht Hn]; simpl in *;
    (destruct (decide (tid0 = tid)) as [->|Hne];
      [rewrite Ht in Hth; injection Hth as <-|pose proof (Hc _ _ Hne Ht) as Hr]); simpl in *.
  - left. eauto.
  - right. rewrite app_nil_r. eapply Hmove; eauto; try done. intros _. apply companions_respect. by apply (Hr w).
  - left. eauto.
  - right. rewrite app_nil_r. split.
    + exists th. simpl. by rewrite lookup_delete_ne.
    + intros j th3 Hj. simpl. rewrite lookup_delete_Some. intros [_ Hj3]. by eapply Hc.
  - right. rewrite app_nil_r. specialize (Ha w ltac:(reflexivity)). rewrite Hf in Ha. destruct Ha as [Hm Ha].
    by apply (Hmove tid w w' ts _ _ Ht).
  - right. rewrite app_nil_r. specialize (Hr w ltac:(reflexivity)). rewrite Hf in Hr. destruct Hr as [Hm Hr].
    apply (Hmove tid0 w w' ts _ _ Ht); [done|done|by exists th|done|by intros _|done].
  - right. rewrite bool_decide_eq_true_2 by done. simpl. split.
    + exists (Thread (k b) h). simpl. rewrite lookup_insert_eq. by split; [|apply Ha].
    + intros j th3 Hj. simpl. rewrite lookup_insert_ne by done. by apply Hc.
  - right. rewrite bool_decide_eq_false_2 by done. simpl. rewrite app_nil_r.
    apply (Hmove tid0 w w ts _ _ Ht); [done|done|by exists th|done| |done]. intros _. eapply respects_log, Hr.
  - right. rewrite app_nil_r. by apply (Hmove tid w w ts _ _ Ht).
  - right. rewrite app_nil_r. apply (Hmove tid0 w w ts _ _ Ht); [done|done|by exists th|done|by intros _|done].
  - right. rewrite app_nil_r. by apply (Hmove tid w w ts _ _ Ht).
  - right. rewrite app_nil_r. apply (Hmove tid0 w w ts _ _ Ht); [done|done|by exists th|done|by intros _|done].
  - done.
  - done.
Qed.

(** In an execution, [tid] is attended at every moment until it ends, and ends as said. *)
Lemma attended_steps c tr c' tid post lg :
  steps event body c tr c' -> attended c tid post lg ->
  (exists tr1 c1 th r, steps event body c tr1 c1 /\ tr1 `prefix_of` tr /\ pool c1 !! tid = Some th /\
     code th = Ret r /\ post r (world_of c1) (lg ++ events_of tid tr1)) \/
  attended c' tid post (lg ++ events_of tid tr).
Proof.
  intros Hs Ha. induction Hs as [c|c tr c' e c'' Hs IH He]; [right; by rewrite app_nil_r|].
  destruct (IH Ha) as [(tr1 & c1 & th & r & H1 & Hp & H2)|Ha'].
  { left. exists tr1, c1, th, r. split; [done|]. split; [by apply prefix_app_r|done]. }
  destruct (attended_step _ _ _ _ _ _ He Ha') as [(th & r & Hth & Hr)|H].
  - left. exists tr, c', th, r. split; [done|]. split; [by apply prefix_app_r|]. split; [done|]. split; [done|].
    destruct Ha' as [(th' & Hth' & Hp) _]. rewrite Hth in Hth'. injection Hth' as <-. rewrite Hr in Hp. by apply Hp.
  - right. unfold events_of in *. by rewrite omap_app, app_assoc.
Qed.
End interleaving.
