(* ===== verification/Histories.v ===== *)
(** * Histories: what each goroutine of the proxy does over its life

    Properties of the sequence of events of one goroutine, in every execution: how often a
    startup attempt asks the panel to start, what must precede an opened gate, that the
    relays of both directions pass packets on whole, in order and at most once, and that
    automatic stops give up. *)
From S2P Require Import Prelude Errors Conc Local World Session Store Proxy Invariant Buffers Rules.
From S2P Require Import Tokens SessionLogic StoreLogic StartupLogic ProxyLogic Reachable Scenario ProxyRuns.

Open Scope string_scope.
Open Scope nat_scope.

(** The goroutine [tid] begins with the task [t] in [c]. *)
Definition begins (c : configuration) (tid : nat) (t : task) : Prop :=
  pool c !! tid = Some (Thread (body t) []).

Abbreviation lives := (alive_steps event_of body).

(** A configuration with one goroutine, and what the scheduler finds when it runs it. *)
Definition alone (w : world) (t : task) : configuration := Config w {[ 9 := Thread (body t) [] ]}.

Lemma alone_begins w t : begins (alone w t) 9 t.
Proof. apply lookup_singleton_eq. Qed.

Definition found_alone (oracle : list (nat * event) -> forall B, query B -> B) (n : nat) (w : world)
    (t : task) (check : list event -> bool) : bool :=
  match exec_n event_of body oracle 9 n 10 [] (alone w t) with
  | Some (_, tr, c) => match pool c !! 9 with Some _ => check (events_of 9 tr) | None => false end
  | None => false
  end.

Lemma found_alone_lives oracle n w t check :
  found_alone oracle n w t check = true ->
  exists tr c, lives 9 (alone w t) tr c /\ check (events_of 9 tr) = true.
Proof.
  unfold found_alone. destruct (exec_n _ _ _ _ _ _ _ _) as [[[next tr] c]|] eqn:He; [|done].
  destruct (pool c !! 9) as [th|] eqn:Hp; [|done]. intros Hc.
  destruct (exec_n_alive event_of body oracle 9 n _ _ _ _ _ _ He) as (tr' & -> & Hl); [by eexists|].
  by exists tr', c.
Qed.

(** ** Footprints of the operations *)

Definition nothing (B : Type) (q : query B) : Prop := False.

Definition choices (B : Type) (q : query B) : Prop :=
  match q with QSelect | QEither | QOrder _ | QKeyOrder _ => True | _ => False end.

Definition writes (B : Type) (q : query B) : Prop :=
  match q with QWrite _ _ | QOrder _ => True | _ => False end.

Definition no_task (t : task) : Prop := False.

Definition first_stop (t : task) : Prop := match t with TAutoStop _ _ 1 => True | _ => False end.

Definition a_startup (t : task) : Prop := match t with TStartup _ false => True | _ => False end.

Create HintDb go_asks discriminated.

(** Use a footprint that is known, or take the program apart. *)
Ltac known_asks :=
  eapply asks_mono; [| |solve [eauto 1 with go_asks nocore]];
  [by (done || intros ? []) | by (done || intros [])].

Ltac go_asks :=
  repeat first
    [ progress intros | done | known_asks
    | match goal with |- asks _ _ (bind _ _) => apply asks_bind end
    | match goal with |- asks _ _ ?p => progress simpl p end
    | progress simpl | split
    | match goal with |- context [match ?x with _ => _ end] => destruct x end ].

Lemma asks_startServer : asks nothing a_startup startServer.
Proof. go_asks. Qed.

Lemma asks_scheduleAutoStop : asks nothing first_stop scheduleAutoStop.
Proof. go_asks. Qed.

Lemma asks_closeResources sid : asks nothing no_task (closeResources sid).
Proof. go_asks. Qed.

Lemma asks_close_each toClose : forall result, asks nothing no_task (close_each toClose result).
Proof. induction toClose as [|sid toClose IH]; intros result; [done|]. go_asks; apply IH. Qed.

Lemma asks_ForwardClient sid data :
  asks (fun B q => match q with QWrite sid' data' => sid' = sid /\ data' = data | _ => False end)
    no_task (ForwardClient sid data).
Proof. go_asks. Qed.

#[export] Hint Resolve asks_startServer asks_scheduleAutoStop asks_closeResources asks_close_each
  asks_ForwardClient : go_asks.

Lemma asks_CloseAll : asks choices no_task CloseAll.
Proof. unfold CloseAll. go_asks. Qed.

Lemma asks_flush_packets active ps : asks writes no_task (flush_packets active ps).
Proof. induction ps as [|packet ps IH]; [done|]. cbn [flush_packets]. go_asks. Qed.

#[export] Hint Resolve asks_CloseAll asks_flush_packets : go_asks.

Lemma asks_flush_queues order : asks writes no_task (flush_queues order).
Proof. induction order as [|active order IH]; [done|]. cbn [flush_queues]. go_asks. Qed.

#[export] Hint Resolve asks_flush_queues : go_asks.

Lemma asks_failStartup generation permanent : asks choices no_task (failStartup generation permanent).
Proof. unfold failStartup. go_asks. Qed.

Lemma asks_openStartupGate : asks writes first_stop openStartupGate.
Proof. unfold openStartupGate. go_asks. Qed.

Lemma asks_markBackendNotRunning : asks nothing no_task markBackendNotRunning.
Proof. go_asks. Qed.

Lemma asks_finishStartup generation : asks nothing a_startup (finishStartup generation).
Proof. unfold finishStartup. go_asks. Qed.

#[export] Hint Resolve asks_failStartup asks_openStartupGate asks_markBackendNotRunning
  asks_finishStartup : go_asks.

(** ** Start requests *)

Definition is_start_request (ev : event) : Prop := match ev with EvStart _ => True | _ => False end.

#[export] Instance is_start_request_dec ev : Decision (is_start_request ev).
Proof. destruct ev; simpl; apply _. Defined.

Definition is_seen_stopping (ev : event) : Prop :=
  match ev with EvStatus state None => state = StateStopping | _ => False end.

#[export] Instance is_seen_stopping_dec ev : Decision (is_seen_stopping ev).
Proof. destruct ev as [state []| | | | | | | | | | | |]; simpl; apply _. Defined.

Definition count (P : event -> Prop) `{forall ev, Decision (P ev)} (h : list event) : nat :=
  length (filter P h).

Lemma count_snoc P `{forall ev, Decision (P ev)} h ev :
  count P (h ++ [ev]) = count P h + if decide (P ev) then 1 else 0.
Proof. unfold count. rewrite filter_app, length_app. simpl. rewrite filter_cons. by case_decide. Qed.

Definition start_budget (left : nat) (h : list event) : Prop :=
  count is_start_request h + left <= 1 + count is_seen_stopping h.

(** Neither a start request nor a status. *)
Definition unbudgeted (B : Type) (q : query B) : Prop :=
  match q with QStart | QStatus => False | _ => True end.

Lemma start_budget_snoc left h B (q : query B) b :
  start_budget left h -> unbudgeted B q -> start_budget left (h ++ [event_of B q b]).
Proof. unfold start_budget. intros Hb Hq. rewrite !count_snoc. destruct q; simpl in *; done || lia. Qed.

Definition startup_tasks (t : task) (h : list event) : Prop :=
  match t with
  | TStartup _ sent => start_budget (if sent then 0 else 1) h
  | _ => False
  end.

Lemma start_budget_mono left h : start_budget left h -> start_budget 0 h.
Proof. unfold start_budget. lia. Qed.

Abbreviation keeps := (follows event_of (fun _ : world => True)).

(** A call without start requests and status queries. *)
Lemma keeps_budget {A} (p : proc A) left h :
  asks unbudgeted (fun _ => True) p -> start_budget left h ->
  keeps (start_budget 0) (fun _ _ => True) p (fun _ => start_budget left) h.
Proof.
  intros Hp Hb. eapply follows_asks; [|intros h'; apply start_budget_mono|done|exact Hp|done].
  intros. by apply start_budget_snoc.
Qed.

(** What a way on leaves of the budget. *)
Definition next_budget {A} (next : loop bool A) : list event -> Prop :=
  start_budget (match next with Again false => 1 | _ => 0 end).

Lemma startup_offline_follows (sent : bool) h :
  start_budget (if sent then 0 else 1) h ->
  keeps (start_budget 0) (fun _ _ => True) (startup_offline sent) next_budget h.
Proof.
  intros Hb. unfold startup_offline. eapply follows_call; [apply keeps_budget; [|exact Hb]; go_asks|].
  intros ? h' Hb'. destruct sent; [done|]. intros b. simpl.
  assert (Hs : start_budget 0 (h' ++ [EvStart b])).
  { unfold start_budget in *. rewrite !count_snoc. simpl. lia. }
  split; [by eapply start_budget_mono|]. destruct b as [err|]; [|done].
  destruct (IsPermanent err); [by eapply start_budget_mono|done].
Qed.

Lemma asks_startup_running : asks unbudgeted (fun _ => True) startup_running.
Proof. unfold startup_running. go_asks. Qed.

Lemma asks_startup_exit generation err : asks choices a_startup (startup_exit generation err).
Proof. unfold startup_exit. go_asks. Qed.

#[export] Hint Resolve asks_startup_running asks_startup_exit : go_asks.

Lemma ensureRunning_follows (sent : bool) h :
  start_budget (if sent then 0 else 1) h ->
  keeps (start_budget 0) (fun _ _ => True) (ensureRunning sent) next_budget h.
Proof.
  intros Hb. unfold ensureRunning. intros [state err]. simpl event_of.
  assert (Hs : start_budget (if sent then 0 else 1) (h ++ [EvStatus state err])).
  { unfold start_budget in *. rewrite !count_snoc. simpl. lia. }
  split; [by eapply start_budget_mono|]. cbn [bind].
  apply (follows_call _ _ _ _ _ _ next_budget).
  - destruct err as [err|].
    { simpl. destruct (IsPermanent err); [by eapply start_budget_mono|by destruct sent]. }
    repeat case_bool_decide; subst.
    + eapply follows_call; [eapply keeps_budget; [|by eapply start_budget_mono]; go_asks|]. done.
    + by apply startup_offline_follows.
    + eapply follows_call; [apply keeps_budget; [|exact Hs]; go_asks|].
      intros ? h' Hb'. exact (start_budget_mono _ _ Hb').
    + assert (Hs' : start_budget 1 (h ++ [EvStatus StateStopping None])).
      { unfold start_budget in *. rewrite !count_snoc. simpl. lia. }
      eapply follows_call; [apply keeps_budget; [|exact Hs']; go_asks|]. by intros ? h' Hb'.
    + simpl. by destruct sent.
  - intros next h' Hb'. destruct next as [sent'|r]; [|done]. unfold startup_wait. intros r.
    assert (Hw : next_budget (Again (B := option error) sent') (h' ++ [event_of _ QSelect r])).
    { by apply start_budget_snoc. }
    split; [by eapply start_budget_mono|]. destruct r as [e|now]; [exact (start_budget_mono _ _ Hw)|exact Hw].
Qed.

Lemma startup_tasks_follow t h :
  startup_tasks t h -> keeps (start_budget 0) (fun _ _ => True) (body t) (ends startup_tasks) h.
Proof.
  destruct t; try done. intros Hb. simpl in Hb. cbn [body].
  eapply follows_call; [by apply ensureRunning_follows|]. intros next h' Hb'.
  destruct next as [sent|err]; [simpl; by destruct sent|].
  eapply follows_call; [apply keeps_budget; [|exact Hb']; go_asks|done].
Qed.

Lemma start_budget_nil : start_budget 0 [].
Proof. unfold start_budget, count. simpl. lia. Qed.

(** C18. Starts are not repeated.  Whatever the rest of the proxy, the panel and the clock do,
    the goroutine of a startup attempt sends at most one start request, and one more for
    each time it has seen the server stopping. *)
Theorem start_requests_bounded c tid generation tr c' :
  begins c tid (TStartup generation false) -> lives tid c tr c' ->
  count is_start_request (events_of tid tr) <= 1 + count is_seen_stopping (events_of tid tr).
Proof.
  intros Hb Hl.
  destruct (local_steps event_of body (fun _ => True) (start_budget 0) (fun _ _ => True) startup_tasks
    startup_tasks_follow _ _ _ _ [] _ Hl ltac:(done) Hb) as (th' & _ & _ & Hok).
  - apply startup_tasks_follow. unfold startup_tasks, start_budget, count. simpl. lia.
  - exact start_budget_nil.
  - unfold start_budget in Hok. simpl in Hok. lia.
Qed.

Lemma start_requests_bounded_witness : exists tr c,
  lives 9 (alone sample_world (TStartup 1 false)) tr c /\
  count is_start_request (events_of 9 tr) = 1 /\
  count is_start_request (events_of 9 tr) <= 1 + count is_seen_stopping (events_of 9 tr).
Proof.
  destruct (found_alone_lives wake_oracle 40 sample_world (TStartup 1 false)
    (fun h => bool_decide (count is_start_request h = 1))) as (tr & c & Hl & Hc);
    [vm_compute; reflexivity|].
  apply bool_decide_eq_true in Hc. exists tr, c. split; [exact Hl|]. split; [exact Hc|].
  exact (start_requests_bounded _ _ _ _ _ (alone_begins _ _) Hl).
Defined.

(** ** The relay from the backend to a client *)

(** The datagrams read from the backend, and those sent on to the client. *)
Definition backend_data (h : list event) : list bytes :=
  omap (fun ev => match ev with EvReadBackend _ data None => Some data | _ => None end) h.

Definition client_data (h : list event) : list bytes :=
  omap (fun ev => match ev with EvWriteClient _ data _ => Some data | _ => None end) h.

Definition relayed (h : list event) : Prop := client_data h `sublist_of` backend_data h.

Definition relay_tasks (t : task) (h : list event) : Prop :=
  match t with TReadBackend _ => relayed h | _ => False end.

Lemma relayed_snoc h ev :
  client_data [ev] = [] -> relayed h -> relayed (h ++ [ev]).
Proof.
  unfold relayed, client_data, backend_data. intros He Hr. rewrite !omap_app, He, app_nil_r.
  by apply sublist_inserts_r.
Qed.

Lemma recv_whole size payload :
  snd (recv_msg size payload) = false -> fst (recv_msg size payload) = payload.
Proof.
  simpl. intros Ht%bool_decide_eq_false. apply take_ge. unfold len in Ht. lia.
Qed.

(** A call that writes to no client. *)
Lemma keeps_relayed {A} (p : proc A) h :
  asks (fun B q => match q with QWriteClient _ _ => False | _ => True end) (fun _ => True) p ->
  relayed h -> keeps relayed (fun _ _ => True) p (fun _ => relayed) h.
Proof.
  intros Hp Hr. eapply follows_asks; [|done|done|exact Hp|done].
  intros h' B q b Hr' Hq. apply relayed_snoc; [|done]. by destruct q as [| | | | | | |[]| | | | | | |].
Qed.

Lemma asks_readBackend_exit sid : asks nothing no_task (readBackend_exit sid).
Proof. unfold readBackend_exit. go_asks. Qed.

#[export] Hint Resolve asks_readBackend_exit : go_asks.

Lemma readBackend_follows sid h :
  relayed h -> keeps relayed (fun _ _ => True) (readBackend sid) (fun _ => relayed) h.
Proof.
  intros Hr. unfold readBackend. intros w1 maxp w1' _ _ [payload err]. simpl event_of.
  assert (Hr1 : relayed (h ++ [EvReadBackend sid payload err])) by (by apply relayed_snoc).
  split; [done|]. cbn [bind]. destruct err as [err|]; [apply keeps_relayed; [go_asks|done]|].
  destruct (recv_msg maxp payload) as [data truncated] eqn:Hm.
  destruct (_ || truncated) eqn:Hb; [done|]. apply orb_false_iff in Hb as [_ ->].
  assert (Hdata : data = payload) by (rewrite <- (recv_whole maxp payload); by rewrite Hm).
  intros w2 alive w2' _ _. cbn [bind]. destruct alive; [|apply keeps_relayed; [simpl negb; go_asks|done]].
  intros sent. simpl event_of. subst data.
  assert (Hr2 : relayed ((h ++ [EvReadBackend sid payload None]) ++ [EvWriteClient sid payload sent])).
  { unfold relayed, client_data, backend_data in *. rewrite !omap_app. simpl. rewrite !app_nil_r.
    by apply sublist_app. }
  split; [done|]. destruct sent; [apply keeps_relayed; [go_asks|done]|done].
Qed.

Lemma relay_tasks_follow t h :
  relay_tasks t h -> keeps relayed (fun _ _ => True) (body t) (ends relay_tasks) h.
Proof.
  destruct t as [| | | | | | |sid| | | |]; try done. intros Hr. cbn [body].
  eapply follows_call; [by apply readBackend_follows|]. by intros [] h' Hr'.
Qed.

(** C19. The relay to the client is faithful.  Whatever else happens, what the goroutine of
    a session writes to its client is, in order, a selection of the datagrams it has read
    from the backend: each is passed on unchanged and whole, at most once, and never
    before an earlier one. *)
Theorem client_relay_faithful c tid sid tr c' :
  begins c tid (TReadBackend sid) -> lives tid c tr c' ->
  client_data (events_of tid tr) `sublist_of` backend_data (events_of tid tr).
Proof.
  intros Hb Hl.
  destruct (local_steps event_of body (fun _ => True) relayed (fun _ _ => True) relay_tasks
    relay_tasks_follow _ _ _ _ [] _ Hl ltac:(done) Hb) as (th' & _ & _ & Hok); [|exact (sublist_nil_l [])|done].
  apply relay_tasks_follow, (sublist_nil_l []).
Qed.

(** A backend that always has the same datagram for its client. *)
Definition talking_oracle (tr : list (nat * event)) (B : Type) (q : query B) : B :=
  match q in query B return B with
  | QReadBackend _ => (wake_packet, None)
  | q => answers StateRunning 0 _ q
  end.

Lemma client_relay_faithful_witness : exists tr c,
  lives 9 (alone playing_world (TReadBackend 0)) tr c /\
  client_data (events_of 9 tr) = [wake_packet; wake_packet] /\
  client_data (events_of 9 tr) `sublist_of` backend_data (events_of 9 tr).
Proof.
  destruct (found_alone_lives talking_oracle 10 playing_world (TReadBackend 0)
    (fun h => bool_decide (client_data h = [wake_packet; wake_packet]))) as (tr & c & Hl & Hc);
    [vm_compute; reflexivity|].
  apply bool_decide_eq_true in Hc. exists tr, c. split; [exact Hl|]. split; [exact Hc|].
  exact (client_relay_faithful _ _ _ _ _ (alone_begins _ _) Hl).
Defined.

(** ** The relay from the clients to the backend *)

(** The datagrams received from clients, and those written to the backend with success. *)
Definition received_data (h : list event) : list bytes :=
  omap (fun ev => match ev with EvReceive (Datagram _ data) => Some data | _ => None end) h.

Definition delivered_data (h : list event) : list bytes :=
  omap (fun ev => match ev with EvWrite _ data None => Some data | _ => None end) h.

(** [extra] may still be delivered. *)
Definition forwarded (extra : list bytes) (h : list event) : Prop :=
  (delivered_data h ++ extra)%list `sublist_of` received_data h.

Lemma forwarded_drop extra h : forwarded extra h -> forwarded [] h.
Proof.
  unfold forwarded. intros Hf. etransitivity; [|exact Hf]. rewrite app_nil_r. by apply sublist_inserts_r.
Qed.

Lemma forwarded_snoc extra h ev : delivered_data [ev] = [] -> forwarded extra h -> forwarded extra (h ++ [ev]).
Proof.
  unfold forwarded, delivered_data, received_data. intros He Hf. rewrite !omap_app, He, app_nil_r.
  by apply sublist_inserts_r.
Qed.

Abbreviation keeps_forwarded := (keeps (forwarded []) (fun _ _ => True)).

(** A call that writes nothing to the backend. *)
Lemma forwarded_call {A} (p : proc A) extra h :
  asks (fun B q => match q with QWrite _ _ => False | _ => True end) (fun _ => True) p ->
  forwarded extra h -> keeps_forwarded p (fun _ => forwarded extra) h.
Proof.
  intros Hp Hr. eapply follows_asks; [|intros h'; apply forwarded_drop|done|exact Hp|done].
  intros h' B q b Hr' Hq. apply forwarded_snoc; [|done]. by destruct q.
Qed.

Ltac quiet_call r h H :=
  eapply follows_call; [eapply forwarded_call; [go_asks|eassumption]|]; intros r h H; cbv beta in H.

(** One packet, delivered or not. *)
Definition handled_post (packet : bytes) (handled : bool) : list event -> Prop :=
  forwarded (if handled then [] else [packet]).

Lemma ForwardClient_follows sid packet h :
  forwarded [packet] h ->
  keeps_forwarded (ForwardClient sid packet)
    (fun err => handled_post packet (match err with None => true | Some _ => false end)) h.
Proof.
  intros Hf. unfold ForwardClient. eapply follows_call; [by apply forwarded_call; [go_asks|]|].
  intros [err|] h' Hf'; [done|]. intros written. simpl event_of.
  assert (Hw : match written with None => forwarded [] (h' ++ [EvWrite sid packet written])
               | Some _ => forwarded [packet] (h' ++ [EvWrite sid packet written]) end).
  { destruct written as [err|]; [by apply forwarded_snoc|].
    unfold forwarded, delivered_data, received_data in *. rewrite !omap_app. simpl. by rewrite !app_nil_r. }
  split; [destruct written; [by eapply forwarded_drop|done]|]. cbn [bind].
  destruct written as [err|]; [|done]. intros w2 isClosed w2' _ _. cbn [bind]. destruct isClosed; [done|].
  eapply follows_call; [by apply forwarded_call; [go_asks|]|intros ? ? Hx; exact Hx].
Qed.

Lemma asks_touch sid : asks nothing no_task (touch sid).
Proof. go_asks. Qed.

Lemma asks_RecordActivity sid : asks nothing no_task (RecordActivity sid).
Proof. go_asks. Qed.

#[export] Hint Resolve asks_touch asks_RecordActivity : go_asks.

Lemma forwardOrQueue_follows sid packet h :
  forwarded [packet] h -> keeps_forwarded (forwardOrQueue sid packet) (handled_post packet) h.
Proof.
  intros Hf. unfold forwardOrQueue. quiet_call a h1 H1. quiet_call a1 h2 H2. quiet_call ready h3 H3.
  apply (follows_call _ _ _ _ _ _ (handled_post packet)).
  - destruct ready; simpl negb; cbv iota.
    + quiet_call a2 h4 H4. eapply follows_call; [by apply ForwardClient_follows|].
      intros [err|] h5 H5; exact H5.
    + quiet_call activity h4 H4. destruct activity as [err|]; [by quiet_call a2 h5 H5|].
      apply forwarded_drop in H4. quiet_call a2 h5 H5. quiet_call a3 h6 H6. by quiet_call a4 h7 H7.
  - intros handled h4 H4. unfold handled_post in H4. by quiet_call a2 h5 H5.
Qed.

Lemma asks_GetOrCreate P G key create : asks P G create -> asks P G (GetOrCreate key create).
Proof. intros Hc. unfold GetOrCreate. go_asks. Qed.

Definition dials (B : Type) (q : query B) : Prop := match q with QDial => True | _ => False end.

Definition session_task (t : task) : Prop :=
  match t with TReadBackend _ | TWatchContext _ => True | _ => False end.

Lemma asks_create key o client :
  asks dials session_task (GetOrCreate key (NewSession (session_options o client))).
Proof. apply asks_GetOrCreate. unfold NewSession. go_asks. Qed.

Lemma asks_Remove key sid : asks nothing no_task (Remove key sid).
Proof. unfold Remove. go_asks. Qed.

#[export] Hint Resolve asks_create asks_Remove : go_asks.

Lemma admitPacket_follows key client packet h :
  forwarded [packet] h -> keeps_forwarded (admitPacket key client packet) (fun _ => forwarded []) h.
Proof.
  intros Hf. unfold admitPacket. quiet_call flags h1 H1. destruct flags as [[ready running] blocked].
  quiet_call o h2 H2. destruct blocked; [by eapply forwarded_drop|].
  destruct (_ && _ && _); [by eapply forwarded_drop|]. quiet_call r h3 H3.
  destruct r as [[[created_session created] n] [err|]].
  { apply forwarded_drop in H3. destruct (errors_Is _ _); [by quiet_call a h4 H4|done]. }
  destruct created_session as [active|]; [|by eapply forwarded_drop].
  eapply (follows_call _ _ _ _ _ _ (fun _ => forwarded [packet])).
  { destruct created; [|done]. quiet_call a h4 H4. apply forwarded_call; [unfold watchSession; go_asks|done]. }
  intros a h4 H4. eapply follows_call; [by apply forwardOrQueue_follows|]. intros handled h5 H5.
  assert (H6 : forwarded [] h5) by (destruct handled; [exact H5|by eapply forwarded_drop]).
  apply forwarded_call; [destruct ready; go_asks|done].
Qed.

Lemma handleClientPacket_follows client packet h :
  forwarded [packet] h ->
  keeps_forwarded (handleClientPacket client packet) (fun _ => forwarded []) h.
Proof.
  intros Hf. unfold handleClientPacket. case_bool_decide; [by eapply forwarded_drop|].
  quiet_call existing h1 H1. apply (follows_call _ _ _ _ _ _ (handled_post packet)).
  { destruct existing as [sid|]; [by apply forwardOrQueue_follows|done]. }
  intros handled h2 H2. destruct handled; [done|]. unfold handled_post in H2. quiet_call a h3 H3.
  quiet_call existing2 h4 H4. apply (follows_call _ _ _ _ _ _ (handled_post packet)).
  { destruct existing2 as [sid|]; [|done]. eapply follows_call; [by apply forwardOrQueue_follows|].
    intros handled h5 H5. destruct handled; [done|]. unfold handled_post in H5.
    quiet_call r h6 H6. by quiet_call r2 h7 H7. }
  intros handled h5 H5. apply (follows_call _ _ _ _ _ _ (fun _ => forwarded [])).
  { destruct handled; [done|]. by apply admitPacket_follows. }
  intros a2 h6 H6. by apply forwarded_call; [go_asks|].
Qed.

Definition serve_tasks (t : task) (h : list event) : Prop :=
  match t with TServe | TServeLoop => forwarded [] h | _ => False end.

Lemma serve_tasks_follow t h : serve_tasks t h -> keeps_forwarded (body t) (ends serve_tasks) h.
Proof.
  destruct t; try done; intros Hf; simpl in Hf; cbn [body].
  - apply (follows_call _ _ _ _ _ _ (fun _ => forwarded [])); [|done].
    apply forwarded_call; [unfold Serve; go_asks|done].
  - apply (follows_call _ _ _ _ _ _ (fun _ => forwarded [])).
    + unfold Serve_loop. quiet_call maxp h1 H1. intros r. simpl event_of. split; [by apply forwarded_snoc|].
      cbn [bind]. assert (H2 : forwarded [] (h1 ++ [EvReceive r])) by (by apply forwarded_snoc).
      destruct r as [client payload|err]; [|apply forwarded_call; [go_asks|done]].
      destruct (recv_msg maxp payload) as [packet truncated] eqn:Hm. destruct truncated; [done|].
      assert (Hp : packet = payload) by (rewrite <- (recv_whole maxp payload); by rewrite Hm).
      apply (follows_call _ _ _ _ _ _ (fun _ => forwarded [])); [|done]. apply handleClientPacket_follows.
      subst packet. clear H2. unfold forwarded, delivered_data, received_data in *. rewrite !omap_app. simpl.
      rewrite !app_nil_r in *. by apply sublist_app.
    + intros [|r] h1 H1; [exact H1|].
      apply (follows_call _ _ _ _ _ _ (fun _ => forwarded [])); [|done].
      apply forwarded_call; [unfold Serve_exit; go_asks|done].
Qed.

(** C20. The read loop is faithful.  Whatever else happens, the datagrams the read loop
    delivers to the backend are, in order, a selection of those it has received: each is
    delivered unchanged and whole, at most once, and never before an earlier one. *)
Theorem serve_relay_faithful c tid tr c' :
  begins c tid TServe -> lives tid c tr c' ->
  delivered_data (events_of tid tr) `sublist_of` received_data (events_of tid tr).
Proof.
  intros Hb Hl.
  destruct (local_steps event_of body (fun _ => True) (forwarded []) (fun _ _ => True) serve_tasks
    serve_tasks_follow _ _ _ _ [] _ Hl ltac:(done) Hb) as (th' & _ & _ & Hok); [|exact (sublist_nil_l [])|].
  { apply serve_tasks_follow, (sublist_nil_l []). }
  unfold forwarded in Hok. by rewrite app_nil_r in Hok.
Qed.

Lemma serve_relay_faithful_witness : exists tr c,
  lives 9 (alone playing_world TServe) tr c /\ delivered_data (events_of 9 tr) = [wake_packet] /\
  delivered_data (events_of 9 tr) `sublist_of` received_data (events_of 9 tr).
Proof.
  destruct (found_alone_lives wake_oracle 20 playing_world TServe
    (fun h => bool_decide (delivered_data h = [wake_packet]))) as (tr & c & Hl & Hc);
    [vm_compute; reflexivity|].
  apply bool_decide_eq_true in Hc. exists tr, c. split; [exact Hl|]. split; [exact Hc|].
  exact (serve_relay_faithful _ _ _ _ (alone_begins _ _) Hl).
Defined.

(** ** What precedes an opened gate *)

(** How far an attempt has confirmed that the game is up. *)
Inductive phase := Down | Running | Waited | Confirmed.

Definition next_phase (p : phase) (ev : event) : phase :=
  match ev, p with
  | EvStatus state None, _ => if bool_decide (state = StateRunning) then Running else Down
  | EvWaitReady None, Running => Waited
  | EvProbe None, Waited => Confirmed
  | EvChoice, _ | EvWrite _ _ _, _ => p
  | _, _ => Down
  end.

Definition phase_of (h : list event) : phase := foldl next_phase Down h.

Lemma phase_of_snoc h ev : phase_of (h ++ [ev]) = next_phase (phase_of h) ev.
Proof. unfold phase_of. by rewrite foldl_app. Qed.

(** The phase in which the gate opens, with or without a readiness check. *)
Definition opening (readiness : bool) : phase := if readiness then Confirmed else Running.

Definition is_write_event (ev : event) : bool := match ev with EvWrite _ _ _ => true | _ => false end.

Definition gated (r : bool) (h : list event) : Prop :=
  forall h1 ev h2, h = (h1 ++ ev :: h2)%list -> is_write_event ev = true -> phase_of h1 = opening r.

Lemma gated_snoc r h ev :
  gated r h -> (is_write_event ev = true -> phase_of h = opening r) -> gated r (h ++ [ev]).
Proof.
  intros Hg He h1 ev' h2 Heq Hw. destruct h2 as [|x h2 _] using rev_ind.
  - apply app_inj_tail in Heq as [-> ->]. by apply He.
  - rewrite app_comm_cons, app_assoc in Heq. apply app_inj_tail in Heq as [Heq _]. by eapply Hg.
Qed.

Section gate.
Context (r : bool).

Definition readiness_is (w : world) : Prop := Readiness (options (px w)) = r.

Abbreviation keeps_gated := (follows event_of readiness_is (gated r) (fun _ _ => True)).

(** A call that writes nothing to the backend. *)
Lemma gated_call {A} (p : proc A) h :
  asks (fun B q => match q with QWrite _ _ => False | _ => True end) (fun _ => True) p ->
  gated r h -> keeps_gated p (fun _ => gated r) h.
Proof.
  intros Hp Hr. eapply follows_asks; [|done|done|exact Hp|done].
  intros h' B q b Hr' Hq. apply gated_snoc; [done|]. by destruct q.
Qed.

Lemma opened_call {A} (p : proc A) h :
  asks writes (fun _ => True) p -> gated r h /\ phase_of h = opening r ->
  keeps_gated p (fun _ h => gated r h /\ phase_of h = opening r) h.
Proof.
  intros Hp Hr. eapply follows_asks; [|by intros ? []|done|exact Hp|done].
  intros h' B q b [Hr' Hp'] Hq. split; [by apply gated_snoc|]. rewrite phase_of_snoc. by destruct q.
Qed.

Lemma startup_running_gated h :
  gated r h -> phase_of h = Running -> keeps_gated startup_running (fun _ => gated r) h.
Proof.
  intros Hg Hp. unfold startup_running. eapply follows_call.
  { apply (follows_asks _ _ _ _ nothing no_task (fun h => gated r h /\ phase_of h = Running));
      [done|by intros ? []|done|go_asks|done]. }
  intros ? h1 [G1 P1]. intros w o w' Hi Ho. injection Ho as <- <-. cbn [bind]. rewrite Hi.
  apply (follows_call _ _ _ _ _ _ (fun waited h => gated r h /\
    (waited = None -> phase_of h = if r then Waited else Running))).
  { destruct r eqn:Er; [|done]. intros waited. simpl event_of.
    assert (gated true (h1 ++ [EvWaitReady waited])) by (by apply gated_snoc).
    rewrite <- Er in *. split; [done|]. split; [done|]. intros ->. by rewrite phase_of_snoc, P1. }
  intros [err|] h2 [G2 P2]; [done|]. specialize (P2 eq_refl).
  apply (follows_call _ _ _ _ _ _ (fun settled h => gated r h /\
    phase_of h = if r then Waited else Running)).
  { case_bool_decide; [|done]. intros s. simpl event_of.
    assert (gated r (h2 ++ [EvChoice])) by (by apply gated_snoc). split; [done|]. split; [done|].
    rewrite phase_of_snoc. by rewrite P2. }
  intros [err|] h3 [G3 P3]; [done|].
  apply (follows_call _ _ _ _ _ _ (fun probed h => gated r h /\
    (probed = None -> phase_of h = opening r))).
  { destruct r eqn:Er; [|done]. intros probed. simpl event_of.
    assert (gated true (h3 ++ [EvProbe probed])) by (by apply gated_snoc).
    rewrite <- Er in *. split; [done|]. split; [done|]. intros ->. by rewrite phase_of_snoc, P3, Er. }
  intros [err|] h4 [G4 P4]; [done|]. specialize (P4 eq_refl).
  eapply follows_call; [by apply opened_call; [go_asks|]|]. by intros ? h5 [G5 _].
Qed.

Lemma asks_startup_offline sent :
  asks (fun B q => match q with QStart => True | _ => False end) no_task (startup_offline sent).
Proof. unfold startup_offline. go_asks. Qed.

Lemma ensureRunning_gated sent h :
  gated r h -> keeps_gated (ensureRunning sent) (fun _ => gated r) h.
Proof.
  intros Hg. unfold ensureRunning. intros [state err]. simpl event_of.
  assert (Hs : gated r (h ++ [EvStatus state err])) by (by apply gated_snoc).
  split; [done|]. cbn [bind]. apply (follows_call _ _ _ _ _ _ (fun _ => gated r)).
  - destruct err as [err|]; [done|]. repeat case_bool_decide.
    + eapply follows_call; [|intros ? ? Hx; exact Hx]. apply startup_running_gated; [done|].
      rewrite phase_of_snoc. simpl. by rewrite bool_decide_eq_true_2.
    + apply gated_call; [|done]. eapply asks_mono; [| |apply asks_startup_offline]; [by intros ? []|done].
    + apply gated_call; [go_asks|done].
    + apply gated_call; [go_asks|done].
    + done.
  - intros [sent'|res] h' Hg'; [|done]. apply gated_call; [unfold startup_wait; go_asks|done].
Qed.

Definition gated_tasks (t : task) (h : list event) : Prop :=
  match t with TStartup _ _ => gated r h | _ => False end.

Lemma gated_tasks_follow t h : gated_tasks t h -> keeps_gated (body t) (ends gated_tasks) h.
Proof.
  destruct t; try done. intros Hg. simpl in Hg. cbn [body].
  eapply follows_call; [by apply ensureRunning_gated|]. intros [sent|err] h' Hg'; [exact Hg'|].
  eapply follows_call; [|done]. apply gated_call; [go_asks|exact Hg'].
Qed.
End gate.

Lemma default_options_readiness o : Readiness (default_options o) = Readiness o.
Proof. unfold default_options. cbv zeta. repeat (case_bool_decide; simpl); done. Qed.

(** C21. No packet reaches an unconfirmed server.  When the goroutine of a startup attempt
    writes to the backend, it has, since it last asked the panel and got the answer
    running, waited for the game to be ready with success and then seen the final probe
    succeed, nothing having failed in between; without a readiness check the panel's
    answer is the last one it got. *)
Theorem gate_needs_confirmation o tr0 c tid generation sent tr c' :
  reachable o tr0 c -> begins c tid (TStartup generation sent) -> lives tid c tr c' ->
  forall h1 sid data err h2, events_of tid tr = (h1 ++ EvWrite sid data err :: h2)%list ->
  phase_of h1 = opening (Readiness o).
Proof.
  intros Hr Hb Hl h1 sid data err h2 He.
  assert (Hi : forall tr2 c2, steps event_of body c tr2 c2 -> readiness_is (Readiness o) (world_of c2)).
  { intros tr2 c2 H2. unfold readiness_is.
    destruct (reachable_options _ _ _ (reachable_trans _ _ _ _ _ Hr H2)) as [-> _].
    apply default_options_readiness. }
  destruct (local_steps event_of body (readiness_is (Readiness o)) (gated (Readiness o)) (fun _ _ => True)
    (gated_tasks (Readiness o)) (gated_tasks_follow (Readiness o)) _ _ _ _ [] _ Hl Hi Hb)
    as (th' & _ & _ & Hok).
  - apply gated_tasks_follow. by intros [].
  - by intros [].
  - by apply (Hok h1 (EvWrite sid data err) h2).
Qed.

(** Let the goroutine 0 start an attempt, run it on, then run the attempt. *)
Definition found_attempt (oracle : list (nat * event) -> forall B, query B -> B) (child n1 n2 : nat)
    (check : list event -> bool) (c : configuration) : bool :=
  match pool c !! 0, pool c !! child with
  | Some (Thread (Go (TStartup g s) k) h), None =>
      let c1 := Config (world_of c) (<[child := Thread (body (TStartup g s)) []]> (<[0 := Thread k h]> (pool c))) in
      match exec_n event_of body oracle 0 n1 (S child) [] c1 with
      | Some (next, tr, c2) =>
          match exec_n event_of body oracle child n2 next tr c2 with
          | Some (_, tr, c3) =>
              match pool c3 !! child with Some _ => check (events_of child tr) | None => false end
          | None => false
          end
      | None => false
      end
  | _, _ => false
  end.

Lemma found_attempt_lives o oracle child n1 n2 check tr c :
  reachable o tr c -> child <> 0 -> found_attempt oracle child n1 n2 check c = true ->
  exists c1 g s tr' c', reachable o tr c1 /\ begins c1 child (TStartup g s) /\
    lives child c1 tr' c' /\ check (events_of child tr') = true.
Proof.
  unfold found_attempt. intros Hr Hne. destruct (pool c !! 0) as [[p h]|] eqn:H0; [|done].
  destruct p as [| | | | |t k]; try done. destruct t as [| | | | |g s| | | | | |]; try done.
  destruct (pool c !! child) eqn:Hch; [done|]. cbv zeta. set (c1 := Config _ _).
  assert (Hb : begins c1 child (TStartup g s)) by (apply lookup_insert_eq).
  assert (Hs : reachable o tr c1).
  { rewrite <- (app_nil_r tr). eapply reachable_trans; [exact Hr|].
    apply (steps_snoc event_of body c [] c None c1); [constructor|]. destruct c. by apply step_go. }
  destruct (exec_n _ _ _ 0 n1 _ _ _) as [[[next tr1] c2]|] eqn:He1; [|done].
  destruct (exec_n _ _ _ child n2 _ _ _) as [[[next2 tr2] c3]|] eqn:He2; [|done].
  destruct (pool c3 !! child) eqn:Hc3; [|done]. intros Hcheck.
  destruct (exec_n_other _ _ _ _ _ _ _ _ _ _ _ _ _ He1 ltac:(done) Hb) as (tr1' & -> & L1 & _).
  destruct (exec_n_alive _ _ _ _ _ _ _ _ _ _ _ He2) as (tr2' & -> & L2); [by eexists|].
  exists c1, g, s, (tr1' ++ tr2')%list, c3. split; [done|]. split; [done|].
  split; [by eapply alive_steps_trans|done].
Qed.

Definition first_write (h : list event) : option (list event * event * list event) :=
  match list_find (fun ev => is_write_event ev = true) h with
  | Some (n, ev) => Some (take n h, ev, drop (S n) h)
  | None => None
  end.

Lemma first_write_split h h1 ev h2 :
  first_write h = Some (h1, ev, h2) ->
  exists sid data err, ev = EvWrite sid data err /\ h = (h1 ++ EvWrite sid data err :: h2)%list.
Proof.
  unfold first_write. destruct (list_find _ h) as [[n ev']|] eqn:Hf; [|done]. intros [= <- <- <-].
  apply list_find_Some in Hf as (Hn & Hw & _). destruct ev' as [| | | | | |sid data err| | | | | |]; try done.
  exists sid, data, err. split; [done|]. by rewrite take_drop_middle.
Qed.

Lemma gate_needs_confirmation_witness : exists tr0 c g s tr c' h1 sid data err h2,
  reachable sample_options tr0 c /\ begins c 3 (TStartup g s) /\ lives 3 c tr c' /\
  events_of 3 tr = (h1 ++ EvWrite sid data err :: h2)%list /\ phase_of h1 = Confirmed.
Proof.
  destruct (found_reachable idle_oracle [(0, 10)]
    (found_attempt idle_oracle 3 55 25 (fun h => match first_write h with Some _ => true | None => false end)))
    as (tr0 & c & Hr & Hf); [vm_compute; reflexivity|].
  destruct (found_attempt_lives _ _ 3 _ _ _ _ _ Hr ltac:(done) Hf) as (c1 & g & s & tr & c' & R & B & L & Hw).
  destruct (first_write (events_of 3 tr)) as [[[h1 ev] h2]|] eqn:Hfw; [|discriminate].
  destruct (first_write_split _ _ _ _ Hfw) as (sid & data & err & _ & He).
  exists tr0, c1, g, s, tr, c', h1, sid, data, err, h2.
  split; [exact R|]. split; [exact B|]. split; [exact L|]. split; [exact He|].
  exact (gate_needs_confirmation _ _ _ _ _ _ _ _ R B L _ _ _ _ _ He).
Defined.

(** ** Automatic stops *)

Definition is_stop_request (ev : event) : Prop := match ev with EvStop _ => True | _ => False end.

#[export] Instance is_stop_request_dec ev : Decision (is_stop_request ev).
Proof. destruct ev; simpl; apply _. Defined.

(** The history a silent call leaves as it was. *)
Ltac same r := let Hx := fresh in intros r ? Hx; cbv beta in Hx; subst.

Section auto_stop.
Context (generation attempt : Z).

Definition one_stop (h : list event) : Prop := count is_stop_request h <= 1.

(** The retry an attempt may start: after its own request has failed, the next one. *)
Definition retry (t : task) (h : list event) : Prop :=
  match t with
  | TAutoStop _ g a => g = generation /\ a = (attempt + 1)%Z /\ (a <= maxAutoStopAttempts)%Z /\
      exists err, EvStop (Some err) ∈ h
  | _ => False
  end.

Abbreviation keeps_stop := (follows event_of (fun _ => True) one_stop retry).

Lemma stop_call {A} (p : proc A) n h :
  asks nothing no_task p -> n <= 1 -> count is_stop_request h = n ->
  keeps_stop p (fun _ h' => h' = h) h.
Proof.
  intros Hp Hn Hc. apply (follows_asks _ _ _ _ nothing no_task (fun h' => h' = h)); [done| |done|exact Hp|done].
  intros h' ->. unfold one_stop. lia.
Qed.

Lemma auto_stop_request_follows h :
  count is_stop_request h = 0 ->
  keeps_stop (auto_stop_request generation attempt) (fun _ _ => True) h.
Proof.
  intros Hc. unfold auto_stop_request. intros err. simpl event_of.
  assert (H1 : count is_stop_request (h ++ [EvStop err]) = 1) by (rewrite count_snoc; simpl; lia).
  split; [unfold one_stop; lia|]. cbn [bind]. destruct err as [err|].
  - case_bool_decide.
    { eapply follows_mono; [|eapply (stop_call _ 1); [go_asks|lia|exact H1]]. done. }
    eapply follows_call; [eapply (stop_call _ 1); [go_asks|lia|exact H1]|]. same u1.
    eapply follows_call; [eapply (stop_call _ 1); [go_asks|lia|exact H1]|]. same p.
    eapply (follows_call _ _ _ _ _ _ (fun _ _ => True)); [|done].
    destruct (_ && _); [|done]. unfold scheduleAutoStopAttemptLocked. intros w id w' _ _. cbn [bind].
    split; [|done]. repeat split; [unfold maxAutoStopAttempts in *; lia|]. exists err. set_solver.
  - eapply follows_call; [eapply (stop_call _ 1); [go_asks|lia|exact H1]|]. same u3.
    eapply follows_mono; [|eapply (stop_call _ 1); [go_asks|lia|exact H1]]. done.
Qed.

Lemma auto_stop_follows id h :
  count is_stop_request h = 0 ->
  keeps_stop (body (TAutoStop id generation attempt)) (ends (fun _ _ => False)) h.
Proof.
  intros Hc. cbn [body]. eapply (follows_call _ _ _ _ _ _ (fun _ _ => True)); [|done].
  unfold auto_stop_timer. intros w fired w' _ _. cbn [bind]. destruct fired; [|done].
  eapply (follows_call _ _ _ _ _ _ (fun _ _ => True)); [|done]. unfold runAutoStopAttempt.
  eapply follows_call; [eapply (stop_call _ 0); [go_asks|lia|exact Hc]|]. same u4.
  eapply follows_call; [eapply (stop_call _ 0); [go_asks|lia|exact Hc]|]. same active.
  eapply (follows_call _ _ _ _ _ _ (fun _ _ => True)); [|done].
  case_bool_decide; [done|].
  eapply follows_call; [eapply (stop_call _ 0); [go_asks|lia|exact Hc]|]. same valid.
  destruct valid; [by apply auto_stop_request_follows|done].
Qed.
End auto_stop.

(** C22. Automatic stops give up.  The goroutine of an auto-stop attempt sends at most one stop
    request; the only goroutine it ever starts is the next attempt of the same stop, of
    which there are three at most, and only after its own request has failed. *)
Theorem auto_stop_gives_up c tid id generation attempt tr c' :
  begins c tid (TAutoStop id generation attempt) -> lives tid c tr c' ->
  count is_stop_request (events_of tid tr) <= 1 /\
  forall t k h, pool c' !! tid = Some (Thread (Go t k) h) ->
    exists id' err, t = TAutoStop id' generation (attempt + 1)%Z /\ (attempt < maxAutoStopAttempts)%Z /\
      EvStop (Some err) ∈ events_of tid tr.
Proof.
  intros Hb Hl.
  destruct (local_steps event_of body (fun _ => True) one_stop (retry generation attempt) (fun _ _ => False)
    ltac:(done) _ _ _ _ [] _ Hl ltac:(done) Hb) as (th' & Hp & Hf & Hok).
  - by apply auto_stop_follows.
  - unfold one_stop, count. simpl. lia.
  - split; [exact Hok|]. intros t k h Hk. rewrite Hk in Hp. injection Hp as <-. destruct Hf as [Hr _].
    destruct t; try done. destruct Hr as (-> & -> & Hle & err & Hin). exists id0, err.
    split; [done|]. split; [lia|done].
Qed.

(** The panel refuses every request. *)
Definition refusing_oracle (tr : list (nat * event)) (B : Type) (q : query B) : B :=
  match q in query B return B with
  | QStop => Some (ErrText "refused")
  | q => answers StateRunning 0 _ q
  end.

(** Nobody plays, and the first attempt is due. *)
Definition due_world : world :=
  snd (arm_timer 0 (upd_px (fun p => p <| backendReady := true |>) sample_world)).

Lemma auto_stop_gives_up_witness : exists tr c,
  lives 9 (alone due_world (TAutoStop 0 0 1)) tr c /\ count is_stop_request (events_of 9 tr) = 1 /\
  count is_stop_request (events_of 9 tr) <= 1.
Proof.
  destruct (found_alone_lives refusing_oracle 15 due_world (TAutoStop 0 0 1)
    (fun h => bool_decide (count is_stop_request h = 1))) as (tr & c & Hl & Hc); [vm_compute; reflexivity|].
  apply bool_decide_eq_true in Hc. exists tr, c. split; [exact Hl|]. split; [exact Hc|].
  exact (proj1 (auto_stop_gives_up _ _ _ _ _ _ _ (alone_begins _ _) Hl)).
Defined.
