(* ===== verification/Company.v ===== *)
(** * Company: operations on sessions while their goroutines run

    The goroutines of the sessions ([readBackend], [watchContext]), the passing of time and
    the termination signal act all the time: [sessions_run] is all they do to the state,
    and they do no more than that as long as the rest of the program only moves sessions
    forwards ([heap_moves]).  [in_company] is what an operation of the rest then does:
    closing a session ends only when its goroutines have gone, and blocks only while one
    of the sessions to close still has them. *)
From S2P Require Import Prelude Errors Conc Local Amid World Session Store Proxy Invariant Buffers Rules.
From S2P Require Import Tokens SessionLogic StoreLogic StartupLogic ProxyRuns.

Open Scope Z_scope.

(** ** What the sessions' goroutines do *)

(** A session between two moments of the clock. *)
Record session_runs (from till : Z) (s s' : Session) : Prop := {
  sr_le : session_le s s';
  sr_ok : session_ok s -> session_ok s';
  sr_workers : goroutineWG s' <= goroutineWG s;
  sr_activity : lastActivity s' = lastActivity s \/
    exists t, from <= t <= till /\ lastActivity s' = UnixNano t }.

Record sessions_run (w w' : world) : Prop := {
  ru_state : exists h now cancelled,
    w' = w <| heap := h |> <| clock := now |> <| parentCancelled := cancelled |>;
  ru_clock : clock w <= clock w';
  ru_parent : parentCancelled w = true -> parentCancelled w' = true;
  ru_none : forall sid, heap w !! sid = None -> heap w' !! sid = None;
  ru_heap : forall sid s, heap w !! sid = Some s ->
    exists s', heap w' !! sid = Some s' /\ session_runs (clock w) (clock w') s s' }.

(** What the others may do: no session appears, and none moves backwards. *)
Definition heap_moves (w w' : world) : Prop :=
  heap_le (heap w) (heap w') /\ forall sid, heap w !! sid = None -> heap w' !! sid = None.

#[export] Instance heap_moves_preorder : PreOrder heap_moves.
Proof.
  split.
  - intros w. by split.
  - intros w1 w2 w3 [H1 N1] [H2 N2]. split; [by etransitivity|auto].
Qed.

Lemma session_runs_refl from till s : session_runs from till s s.
Proof. by split; [|auto|lia|left]. Qed.

Lemma session_runs_trans t1 t2 t3 s1 s2 s3 :
  t1 <= t2 <= t3 -> session_runs t1 t2 s1 s2 -> session_runs t2 t3 s2 s3 -> session_runs t1 t3 s1 s3.
Proof.
  intros Ht [L1 O1 W1 A1] [L2 O2 W2 A2]. split; [by etransitivity|auto|lia|].
  destruct A2 as [->|(t & ? & ->)]; [|right; exists t; split; [lia|done]].
  destruct A1 as [->|(t & ? & ->)]; [by left|right; exists t; split; [lia|done]].
Qed.

Lemma world_same (w : world) : w = w <| heap := heap w |> <| clock := clock w |> <| parentCancelled := parentCancelled w |>.
Proof. by destruct w. Qed.

#[export] Instance sessions_run_preorder : PreOrder sessions_run.
Proof.
  split.
  - intros w. split; [|lia|done|done|].
    + do 3 eexists. apply world_same.
    + intros sid s Hs. exists s. split; [done|apply session_runs_refl].
  - intros w1 w2 w3 [(h1 & c1 & p1 & E1) C1 P1 N1 H1] [(h2 & c2 & p2 & E2) C2 P2 N2 H2].
    split; [|lia|auto|auto|].
    + exists h2, c2, p2. by rewrite E2, E1.
    + intros sid s Hs. destruct (H1 _ _ Hs) as (s2 & Hs2 & R1), (H2 sid s2) as (s3 & Hs3 & R2); [done|].
      exists s3. split; [done|]. eapply session_runs_trans; [|exact R1|exact R2]. lia.
Qed.

Lemma run_moves w w' : sessions_run w w' -> heap_moves w w'.
Proof.
  intros [_ _ _ Hn Hh]. split; [|done]. intros sid s Hs. destruct (Hh _ _ Hs) as (s' & ? & []). eauto.
Qed.

(** A property of the session, if there is one. *)
Definition its (P : Session -> Prop) (sid : nat) (w : world) : Prop := forall s, heap w !! sid = Some s -> P s.

Lemma its_moves (P : Session -> Prop) sid w w' :
  (forall s s', session_le s s' -> P s -> P s') -> heap_moves w w' -> its P sid w -> its P sid w'.
Proof.
  intros HP [Hh Hn] Hp s' Hs'. destruct (heap w !! sid) as [s|] eqn:Hs; [|by rewrite Hn in Hs'].
  destruct (Hh _ _ Hs) as (s2 & Hs2 & Hle). rewrite Hs' in Hs2. injection Hs2 as <-. eauto.
Qed.

Lemma upd_session_runs sid f w :
  its (fun s => session_runs (clock w) (clock w) s (f s)) sid w -> sessions_run w (upd_session sid f w).
Proof.
  intros Hf. unfold upd_session. split; [|simpl; lia|done| |].
  - exists (alter f sid (heap w)), (clock w), (parentCancelled w). by destruct w.
  - intros i Hi. simpl. destruct (decide (i = sid)) as [->|]; [rewrite lookup_alter_eq, Hi|rewrite lookup_alter_ne]; done.
  - intros i s Hs. simpl. destruct (decide (i = sid)) as [->|].
    + exists (f s). rewrite lookup_alter_eq, Hs. split; [done|]. by apply Hf.
    + exists s. rewrite lookup_alter_ne by done. split; [done|apply session_runs_refl].
Qed.

Lemma its_upd (P : Session -> Prop) sid f w : its (fun s => P (f s)) sid w -> its P sid (upd_session sid f w).
Proof.
  intros Hp s. unfold upd_session. simpl. rewrite lookup_alter_eq. intros (s0 & Hs0 & ->)%fmap_Some. by apply Hp.
Qed.

(** [closeOnce] has run to its end. *)
Definition once_done (s : Session) : Prop := closeOnce s = OnceDone.

Lemma once_done_le s s' : session_le s s' -> once_done s -> once_done s'.
Proof.
  unfold once_done. intros Hle Ho. pose proof (sl_once _ _ Hle) as Hx. rewrite Ho in Hx.
  destruct (closeOnce s'); simpl in Hx; [lia|lia|done].
Qed.

(** An update of one field that runs a session on. *)
Ltac go_session_runs :=
  split; simpl; [split; simpl; auto; try lia; try congruence
                |intros []; split; simpl; auto; try congruence; naive_solver
                |lia|by left].

(** ** The operations of a session

    For both sides: [others] is what may happen between two accesses, [own] what the
    goroutine itself may do. *)
Section operations.
Context (others own : world -> world -> Prop) `{!PreOrder others} (waits : world -> Prop).
Hypothesis run_others : forall w w', sessions_run w w' -> others w w'.
Hypothesis others_move : forall w w', others w w' -> heap_moves w w'.
Hypothesis run_own : forall w w', sessions_run w w' -> own w w'.

Abbreviation amids := (amid event_of others own waits).

(** The state has only gone on since [w], without an event. *)
Abbreviation only w lg P := (fun _ w' lg' => lg' = lg /\ others w w' /\ P w').

Lemma amid_only {A} (p : proc A) (P : world -> Prop) (post : A -> world -> list event -> Prop) w lg :
  amids p (only w lg P) w lg ->
  (forall a w', others w w' -> P w' -> post a w' lg) -> amids p post w lg.
Proof. intros Hp Hpost. eapply (amid_mono event_of others own waits); [exact Hp|]. intros a w' lg' (-> & Ho & HP). auto. Qed.

Lemma others_its (P : Session -> Prop) sid w w' :
  (forall s s', session_le s s' -> P s -> P s') -> others w w' -> its P sid w -> its P sid w'.
Proof. intros HP Ho. by apply its_moves, others_move. Qed.

Lemma amid_upd (P Q : Session -> Prop) sid f w lg :
  (forall s s', session_le s s' -> P s -> P s') -> (forall s s', session_le s s' -> Q s -> Q s') ->
  (forall now s, P s -> session_runs now now s (f s) /\ Q (f s)) -> its P sid w ->
  amids (modify (upd_session sid f) : proc unit) (only w lg (its Q sid)) w lg.
Proof.
  intros HP HQ Hf Hw w1 Ho. assert (H1 : its P sid w1) by (by eapply others_its).
  assert (Hr : sessions_run w1 (upd_session sid f w1)).
  { apply upd_session_runs. intros s Hs. eapply Hf, H1, Hs. }
  split; [by apply run_own|]. intros w2 Ho2. split; [done|]. split.
  - etransitivity; [exact Ho|]. etransitivity; [by apply run_others|done].
  - eapply others_its; [exact HQ|exact Ho2|]. apply its_upd. intros s Hs. by apply (Hf 0), H1.
Qed.

Lemma amid_then {A B} (p : proc A) (q : proc B) (P1 P2 : world -> Prop) w lg :
  amids p (only w lg P1) w lg ->
  (forall w1, others w w1 -> P1 w1 -> amids q (only w1 lg P2) w1 lg) ->
  amids (p ;;; q) (only w lg P2) w lg.
Proof.
  intros Hp Hq. eapply (amid_call event_of others own waits); [exact Hp|]. intros a w1 lg1 (-> & Ho & H1).
  apply (amid_only _ P2); [by apply Hq|]. intros b w2 Ho2 H2. split; [done|]. split; [by etransitivity|done].
Qed.

(** Cancelling and closing the socket of a closed session. *)
Lemma amid_closeSocket sid w lg :
  its (fun s => closed s = true) sid w -> amids (closeSocket sid) (only w lg (its released sid)) w lg.
Proof.
  intros Hc. unfold closeSocket.
  apply (amid_then _ _ (its (fun s => closed s = true /\ ctxCancelled s = true) sid)).
  - apply (amid_upd (fun s => closed s = true)); [intros s s' []; auto|intros s s' [] []; auto| |done].
    intros now s Hs. split; [|done]. go_session_runs.
  - intros w1 _ H1. apply (amid_upd (fun s => closed s = true /\ ctxCancelled s = true));
      [intros s s' [] []; auto|apply released_le| |done].
    intros now s [Hs1 Hs2]. split; [|done]. go_session_runs.
Qed.

(** [closeOnce.Do(f)], where it may wait for the goroutine that runs [f]. *)
Lemma amid_closeOnce_Do sid f w lg :
  (forall w s, heap w !! sid = Some s -> closeOnce s = OnceRunning -> waits w) ->
  (forall w1 lg1, others w w1 -> amids f (only w1 lg1 (its released sid)) w1 lg1) ->
  amids (closeOnce_Do sid f) (only w lg (its once_done sid)) w lg.
Proof.
  intros Hwaits Hf w1 Ho. destruct (heap w1 !! sid) as [s|] eqn:Hs.
  2: { split; [by apply run_own|]. intros w2 Ho2. split; [done|]. split; [by etransitivity|].
    intros s Hs2. destruct (others_move _ _ Ho2) as [_ Hn]. by rewrite Hn in Hs2. }
  destruct (closeOnce s) eqn:Hc; cbn -[upd_session]; [|by eapply Hwaits|].
  - set (w2 := upd_session sid _ w1). assert (Hr : sessions_run w1 w2).
    { apply upd_session_runs. intros s0 Hs0. simplify_eq. split; simpl; [split; simpl; rewrite ?Hc; auto; lia| |lia|by left].
      intros [K1 K2 K3 K4]. split; simpl; auto; [done|]. intros Hd. specialize (K4 Hd). congruence. }
    split; [by apply run_own|]. assert (Ho2 : others w w2) by (etransitivity; [exact Ho|by apply run_others]).
    apply (amid_only _ (its once_done sid)).
    + apply (amid_then _ _ (its released sid)); [by apply Hf|]. intros w3 Ho3 H3.
      apply (amid_upd released); [apply released_le|apply once_done_le| |done].
      intros now x (C1 & C2 & C3). split; [|done]. go_session_runs. destruct (closeOnce x); simpl; lia.
    + intros _ w3 Ho3 H3. split; [done|]. split; [by etransitivity|done].
  - split; [by apply run_own|]. intros w2 Ho2. split; [done|]. split; [by etransitivity|].
    eapply others_its; [apply once_done_le|exact Ho2|]. intros s0 Hs0. by simplify_eq.
Qed.

Lemma amid_closeResources sid w lg :
  (forall w s, heap w !! sid = Some s -> closeOnce s = OnceRunning -> waits w) ->
  amids (closeResources sid) (only w lg (its once_done sid)) w lg.
Proof.
  intros Hw. apply amid_closeOnce_Do; [done|]. intros w1 lg1 _.
  apply (amid_then _ _ (its (fun s => closed s = true) sid)); [|intros w2 _ H2; by apply amid_closeSocket].
  apply (amid_upd (fun _ => True)); [done|intros s s' []; auto| |done].
  intros now s _. split; [|done]. go_session_runs.
Qed.

Lemma touch_runs sid w : sessions_run w (snd (on_session false sid (touch_session (clock w)) w)).
Proof.
  rewrite on_session_upd. apply upd_session_runs. intros s _. unfold touch_session.
  destruct (closed s) eqn:Hc; simpl; [apply session_runs_refl|].
  split; simpl; [split; simpl; try done; congruence|intros []; by split|lia|].
  right. exists (clock w). split; [lia|done].
Qed.

Lemma amid_touch sid w lg : amids (touch sid) (only w lg (fun _ => True)) w lg.
Proof.
  intros w1 Ho. pose proof (touch_runs sid w1) as Ht. simpl.
  destruct (on_session _ _ _ _) as [b w2']. simpl in Ht. split; [by apply run_own|].
  intros w2 Ho2. split; [done|]. split; [|done]. etransitivity; [exact Ho|]. etransitivity; [by apply run_others|done].
Qed.
End operations.

(** ** The sessions' goroutines, time and the signal *)

Definition companion (t : task) : Prop :=
  match t with TReadBackend _ | TWatchContext _ | TClock | TSignal => True | _ => False end.

(** Code that only does what [sessions_run] allows, whatever the others do to the rest. *)
Abbreviation companionable p w lg :=
  (amid event_of heap_moves sessions_run (fun _ => True) p (fun _ _ _ => True) w lg).

Lemma companionable_call {A B} (p : proc A) (g : A -> proc B) P w lg :
  amid event_of heap_moves sessions_run (fun _ => True) p P w lg ->
  (forall a w' lg', P a w' lg' -> companionable (g a) w' lg') -> companionable (bind p g) w lg.
Proof. apply (amid_call event_of heap_moves sessions_run). Qed.

Lemma gets_companionable {A B} (f : world -> A) (g : A -> proc B) w lg :
  (forall w', heap_moves w w' -> companionable (g (f w')) w' lg) -> companionable (bind (gets f) g) w lg.
Proof. intros Hg w1 Ho. split; [reflexivity|]. by apply Hg. Qed.

Lemma leave_companionable sid w lg :
  companionable (modify (upd_session sid (add_goroutines (-1))) : proc unit) w lg.
Proof.
  intros w1 Ho. split; [|done]. apply upd_session_runs. intros s _. go_session_runs.
Qed.

Lemma closeResources_companion sid w lg :
  amid event_of heap_moves sessions_run (fun _ => True) (closeResources sid)
    (fun _ w' _ => its once_done sid w') w lg.
Proof.
  eapply amid_mono.
  - apply (amid_closeResources heap_moves sessions_run); [apply run_moves|done|done|done].
  - by intros _ w' lg' (_ & _ & H).
Qed.

Lemma readBackend_exit_companionable sid w lg : companionable (readBackend_exit sid) w lg.
Proof.
  eapply companionable_call; [apply closeResources_companion|]. intros a w1 lg1 H1.
  intros w2 Ho. split; [|by apply leave_companionable]. apply upd_session_runs.
  assert (H2 : its once_done sid w2) by (by eapply its_moves; [apply once_done_le|..]).
  intros s Hs. specialize (H2 _ Hs). unfold once_done in H2. go_session_runs.
Qed.

Lemma readBackend_companionable sid w lg : companionable (readBackend sid) w lg.
Proof.
  unfold readBackend. apply gets_companionable. intros w1 _ [payload [err|]]; cbn [bind].
  { eapply companionable_call; [apply readBackend_exit_companionable|]. by intros. }
  destruct (recv_msg _ payload) as [data truncated]. destruct (_ || truncated); [done|].
  eapply companionable_call.
  { apply (amid_touch heap_moves sessions_run); [apply run_moves|done]. }
  intros alive w2 lg2 _. destruct alive; simpl negb; cbv iota.
  - intros [err|]; [|done]. cbn [bind]. eapply companionable_call; [apply readBackend_exit_companionable|]. by intros.
  - eapply companionable_call; [apply readBackend_exit_companionable|]. by intros.
Qed.

Lemma watchContext_companionable sid w lg : companionable (watchContext sid) w lg.
Proof.
  intros w1 Ho. destruct (watchContext_ready sid w1) as [[[cancelled isDone] w2]|] eqn:Hw; [|done].
  assert (w2 = w1) as ->. { unfold watchContext_ready in Hw. by repeat case_match; simplify_eq. }
  split; [reflexivity|]. cbn [bind].
  assert (Hrest : forall cancelFirst lg', companionable
    ((if cancelFirst : bool then closeResources sid else Ret tt);;;
     modify (upd_session sid (add_goroutines (-1)))) w1 lg').
  { intros [] lg'.
    - eapply companionable_call; [apply closeResources_companion|]. intros. apply leave_companionable.
    - apply leave_companionable. }
  destruct (cancelled && isDone); [|apply Hrest]. intros cancelFirst. apply Hrest.
Qed.

(** As long as the rest only moves sessions forwards, they do only what [sessions_run]
    says, for all their lives. *)
Lemma companions_respect t w :
  companion t -> respects event_of heap_moves sessions_run companion (body t) w.
Proof.
  unfold respects. destruct t; try done; intros _; cbn [body].
  - eapply (amid_call event_of heap_moves sessions_run); [apply readBackend_companionable|].
    intros [] w' lg' _ w2 _; done.
  - eapply (amid_call event_of heap_moves sessions_run); [apply watchContext_companionable|].
    intros [] w' lg' _ w2 _; done.
  - intros elapsed w1 Ho. split; [|by intros w2 _]. split; simpl; try done; try lia.
    + exists (heap w1), (clock w1 + Z.max 0 elapsed), (parentCancelled w1). by destruct w1.
    + intros sid s Hs. exists s. split; [done|]. apply session_runs_refl.
  - intros w1 Ho. split; [|by intros w2 _]. split; simpl; try done; try lia.
    + exists (heap w1), (clock w1), true. by destruct w1.
    + intros sid s Hs. exists s. split; [done|]. apply session_runs_refl.
Qed.

(** ** Closing, in their company *)

(** One of the sessions is being closed, or has goroutines left that must return. *)
Definition unfinished (these : nat -> Prop) (w : world) : Prop :=
  exists sid s, these sid /\ heap w !! sid = Some s /\
    (closeOnce s = OnceRunning \/ (closeOnce s = OnceDone /\ goroutineWG s <> 0)).

(** What an operation does while the sessions' goroutines run, time passes and the
    termination signal may come; it blocks only while one of [these] is unfinished. *)
Abbreviation in_company these := (amid event_of sessions_run heap_moves (unfinished these)).

Lemma company_call {A B} (these : nat -> Prop) (p : proc A) (g : A -> proc B) mid post w lg :
  in_company these p mid w lg -> (forall a w' lg', mid a w' lg' -> in_company these (g a) post w' lg') ->
  in_company these (bind p g) post w lg.
Proof. apply (amid_call event_of sessions_run heap_moves). Qed.

Lemma company_mono {A} (these : nat -> Prop) (p : proc A) (post post' : A -> world -> list event -> Prop) w lg :
  in_company these p post w lg -> (forall a w' lg', post a w' lg' -> post' a w' lg') -> in_company these p post' w lg.
Proof. apply (amid_mono event_of sessions_run heap_moves). Qed.

Lemma company_later {A} (these : nat -> Prop) (p : proc A) post w w1 lg :
  sessions_run w w1 -> in_company these p post w lg -> in_company these p post w1 lg.
Proof. apply (amid_others event_of sessions_run heap_moves). Qed.

(** The sessions of the table. *)
Definition in_table (w : world) (sid : nat) : Prop := exists key, sessions w !! key = Some sid.

(** [closeOnce] has run, and the session's goroutines have been waited for. *)
Definition waited_for (s : Session) : Prop := once_done s /\ goroutineWG s <= 0.

Lemma waited_for_run from till s s' : session_runs from till s s' -> waited_for s -> waited_for s'.
Proof. intros [Hle _ Hw _] [Ho Hg]. split; [by eapply once_done_le|lia]. Qed.

Lemma its_run (P : Session -> Prop) sid w w' :
  (forall from till s s', session_runs from till s s' -> P s -> P s') -> sessions_run w w' -> its P sid w -> its P sid w'.
Proof.
  intros HP [_ _ _ Hn Hh] Hp s' Hs'. destruct (heap w !! sid) as [s|] eqn:Hs; [|by rewrite Hn in Hs'].
  destruct (Hh _ _ Hs) as (s2 & Hs2 & Hr). rewrite Hs' in Hs2. injection Hs2 as <-. eauto.
Qed.

Lemma run_sessions w w' : sessions_run w w' -> sessions w' = sessions w /\ px w' = px w /\ timers w' = timers w.
Proof. by intros [(h & c & p & ->) _ _ _ _]. Qed.

(** A change of the rest commutes with what they do. *)
Lemma run_beside (f : world -> world) w w' :
  (forall h now cancelled, f (w <| heap := h |> <| clock := now |> <| parentCancelled := cancelled |>) =
    f w <| heap := h |> <| clock := now |> <| parentCancelled := cancelled |>) ->
  (heap (f w) = heap w /\ clock (f w) = clock w /\ parentCancelled (f w) = parentCancelled w) ->
  sessions_run w w' -> sessions_run (f w) (f w').
Proof.
  intros Hf (Eh & Ec & Ep) [(h & c & p & ->) C P N H]. rewrite Hf. simpl in *.
  split; simpl; [by do 3 eexists|by rewrite Ec|by rewrite Ep|by rewrite Eh|by rewrite Eh, Ec].
Qed.

Lemma company_Close (these : nat -> Prop) sid w lg :
  these sid ->
  in_company these (Close sid)
    (fun r w' lg' => r = None /\ lg' = lg /\ sessions_run w w' /\ its waited_for sid w') w lg.
Proof.
  intros Hin. unfold Close. eapply company_call.
  - apply (amid_closeResources sessions_run heap_moves); [done|apply run_moves|apply run_moves|].
    intros w1 s Hs Ho. exists sid, s. auto.
  - intros a w1 lg1 (-> & Hr & Ho) w2 Hr2. assert (Ho2 : its once_done sid w2).
    { eapply its_run; [|exact Hr2|exact Ho]. intros ? ? ? ? []. by apply once_done_le. }
    destruct (heap w2 !! sid) as [s|] eqn:Hs; [case_bool_decide as Hg|].
    + split; [reflexivity|]. intros w3 Hr3. split; [done|]. split; [done|].
      split; [by etransitivity; [|etransitivity]|]. eapply its_run; [apply waited_for_run|exact Hr3|].
      intros s' Hs'. simplify_eq. split; [by apply Ho2|lia].
    + exists sid, s. split; [done|]. split; [done|]. right. split; [by apply Ho2|done].
    + split; [reflexivity|]. intros w3 Hr3. split; [done|]. split; [done|].
      split; [by etransitivity; [|etransitivity]|]. intros s Hs3. by rewrite (ru_none _ _ Hr3) in Hs3.
Qed.

Lemma company_close_each (these : nat -> Prop) toClose : forall r w lg,
  (forall sid, sid ∈ toClose -> these sid) ->
  in_company these (close_each toClose r)
    (fun r' w' lg' => r' = r /\ lg' = lg /\ sessions_run w w' /\
       forall sid, sid ∈ toClose -> its waited_for sid w') w lg.
Proof.
  induction toClose as [|sid toClose IH]; intros r w lg Hin; cbn [close_each].
  { intros w1 Hr. split_and!; try done. intros sid. set_solver. }
  eapply company_call; [apply company_Close; apply Hin; set_solver|].
  intros err w1 lg1 (-> & -> & Hr & Hw). assert (errors_Join r None = r) as -> by (by destruct r).
  eapply company_mono; [apply IH; intros; apply Hin; set_solver|].
  intros r' w2 lg2 (-> & -> & Hr2 & Hw2). split_and!; [done|done|by etransitivity|].
  intros i [->|Hi]%elem_of_cons; [|auto]. eapply its_run; [apply waited_for_run|exact Hr2|done].
Qed.

Lemma company_CloseAll w lg :
  in_company (in_table w) CloseAll
    (fun r w' lg' => r = None /\ lg' = (lg ++ [EvKeyOrder (session_keys w)])%list /\
       sessions_run (w <| sessions := ∅ |>) w' /\
       forall key sid, sessions w !! key = Some sid -> its waited_for sid w') w lg.
Proof.
  unfold CloseAll. intros w1 Hr1. split; [reflexivity|]. intros answer.
  destruct (run_sessions _ _ Hr1) as (E1 & _ & _).
  assert (Ek : session_keys w1 = session_keys w) by (unfold session_keys; by rewrite E1).
  intros w2 Hr2. destruct (run_sessions _ _ Hr2) as (E2 & _ & _). rewrite E1 in E2. split; [by split|].
  cbn [bind event_of]. rewrite Ek. set (w3 := w2 <| sessions := ∅ |>).
  assert (Hr3 : sessions_run (w <| sessions := ∅ |>) w3).
  { apply (run_beside (fun w => w <| sessions := ∅ |>)); [done|done|by etransitivity]. }
  eapply company_mono; [apply company_close_each|].
  - intros sid (key & _ & Hk)%list_elem_of_omap. exists key. by rewrite <- E2.
  - intros r w' lg' (-> & -> & Hr & Hw). split_and!; [done|done|by etransitivity|].
    intros key sid Hk. apply Hw, list_elem_of_omap. exists key. rewrite E2. split; [|done].
    rewrite range_order_perm. unfold session_keys. rewrite E2. apply list_elem_of_fmap.
    exists (key, sid). split; [done|]. by apply elem_of_map_to_list.
Qed.

(** In an execution in which the other goroutines are such companions, the goroutine [tid]
    ends as its code does [in_company], or is still on its way there. *)
Lemma company_executes these c tr c' tid th post :
  steps event_of body c tr c' -> pool c !! tid = Some th ->
  in_company these (code th) post (world_of c) [] ->
  (forall i th', i <> tid -> pool c !! i = Some th' -> exists t, companion t /\ code th' = body t) ->
  (exists tr1 c1 th1 r, steps event_of body c tr1 c1 /\ tr1 `prefix_of` tr /\ pool c1 !! tid = Some th1 /\
     code th1 = Ret r /\ post r (world_of c1) (events_of tid tr1)) \/
  exists th', pool c' !! tid = Some th' /\ in_company these (code th') post (world_of c') (events_of tid tr).
Proof.
  intros Hs Hp Ha Hothers.
  destruct (attended_steps event_of body heap_moves sessions_run (unfinished these) companion run_moves
    companions_respect c tr c' tid post [] Hs) as [H|[H _]].
  - split; [by exists th|]. intros i th' Hi Hth'. destruct (Hothers _ _ Hi Hth') as (t & Ht & ->).
    by apply companions_respect.
  - left. exact H.
  - right. exact H.
Qed.

(** ** Companies to evaluate *)

(** Before every access, the goroutines of the sessions whose [closeOnce] has run return,
    and a nanosecond passes. *)
Definition finish (s : Session) : Session :=
  match closeOnce s with
  | OnceDone => s <| doneClosed := true |> <| goroutineWG := Z.min 0 (goroutineWG s) |>
  | _ => s
  end.

Definition finishing (n : nat) (w : world) : world :=
  w <| heap := finish <$> heap w |> <| clock := clock w + 1 |>.

Lemma finish_runs from till s : session_runs from till s (finish s).
Proof.
  unfold finish. destruct (closeOnce s) eqn:Ho; try apply session_runs_refl.
  split; simpl; [by split|intros []; by split|lia|by left].
Qed.

Lemma finishing_runs n w : sessions_run w (finishing n w).
Proof.
  split; simpl; [|lia|done| |].
  - exists (finish <$> heap w), (clock w + 1), (parentCancelled w). by destruct w.
  - intros sid Hs. by rewrite lookup_fmap, Hs.
  - intros sid s Hs. exists (finish s). rewrite lookup_fmap, Hs. split; [done|apply finish_runs].
Qed.

(** The run in that company, and what is found at its end. *)
Definition company_ends {A} (oracle : environment) (p : proc A) (w : world) (check : A -> world -> list event -> bool) : bool :=
  match run_amid event_of oracle finishing 0 p w [] with
  | Some (a, w', lg') => check a w' lg'
  | None => false
  end.

Lemma company_run {A} these (oracle : environment) (p : proc A) post w check :
  in_company these p post w [] -> company_ends oracle p w check = true ->
  exists a w' lg', run_amid event_of oracle finishing 0 p w [] = Some (a, w', lg') /\
    post a w' lg' /\ check a w' lg' = true.
Proof.
  intros Hp. pose proof (amid_run event_of sessions_run heap_moves (unfinished these) oracle finishing p post
    finishing_runs 0 w [] Hp) as Hr. unfold company_ends. destruct (run_amid _ _ _ _ _ _ _) as [[[a w'] lg']|]; [|done].
  intros Hc. by exists a, w', lg'.
Qed.
