(* ===== verification/StartupRuns.v ===== *)
(** * StartupRuns: what a startup attempt does

    The sequential behaviour of the flush and the opening of the gate, of an attempt's
    polling loop, and of its failure. *)
From S2P Require Import Prelude Errors Conc World Session Store Proxy Invariant Buffers Rules.
From S2P Require Import Tokens SessionLogic StoreLogic StartupLogic ProxyLogic Reachable Scenario ProxyRuns.

Open Scope string_scope.


(** ** Closing and forwarding, alone *)

(** No other goroutine is inside [closeOnce.Do]. *)
Definition once_settled (w : world) : Prop :=
  forall sid s, heap w !! sid = Some s -> closeOnce s <> OnceRunning.

(** The effect of [closeResources] on the session. *)
Definition shut_session (s : Session) : Session :=
  match closeOnce s with
  | OnceNew => s <| closed := true |> <| ctxCancelled := true |> <| upstreamClosed := true |>
                 <| closeOnce := OnceDone |>
  | _ => s
  end.

Lemma upd_session_twice sid f g w :
  upd_session sid f (upd_session sid g w) = upd_session sid (fun s => f (g s)) w.
Proof.
  unfold upd_session. simpl. destruct w; unfold set; simpl. f_equal.
  apply alter_alter_eq.
Qed.

Lemma upd_session_ext sid f g w s :
  heap w !! sid = Some s -> f s = g s -> upd_session sid f w = upd_session sid g w.
Proof.
  intros Hs He. unfold upd_session. destruct w; unfold set; simpl in *. f_equal.
  apply map_eq. intros i. destruct (decide (i = sid)) as [->|Hne].
  - by rewrite !lookup_alter_eq, Hs; simpl; rewrite He.
  - by rewrite !lookup_alter_ne.
Qed.

Lemma upd_session_none sid f w : heap w !! sid = None -> upd_session sid f w = w.
Proof.
  intros Hs. unfold upd_session. destruct w; unfold set; simpl in *. f_equal.
  apply map_eq. intros i. destruct (decide (i = sid)) as [->|Hne].
  - by rewrite lookup_alter_eq, Hs.
  - by rewrite lookup_alter_ne.
Qed.

Lemma upd_session_same sid f w s :
  heap w !! sid = Some s -> f s = s -> upd_session sid f w = w.
Proof.
  intros Hs He. rewrite (upd_session_ext sid f (fun s => s) w s Hs He). unfold upd_session.
  destruct w; unfold set; simpl. f_equal. apply map_eq. intros i.
  destruct (decide (i = sid)) as [->|]; [rewrite lookup_alter_eq|by rewrite lookup_alter_ne].
  by destruct (_ !! sid).
Qed.

Lemma run_closeResources (oracle : environment) sid w lg sp :
  once_settled w ->
  runs oracle (closeResources sid) w lg sp = Some (Outcome tt (upd_session sid shut_session w) lg sp).
Proof.
  intros Hset. unfold closeResources, closeOnce_Do. simpl.
  destruct (heap w !! sid) as [s|] eqn:Hs; [|by rewrite upd_session_none].
  destruct (closeOnce s) eqn:Ho; [|by destruct (Hset _ _ Hs)|].
  - simpl. rewrite !upd_session_twice.
    f_equal. f_equal. apply (upd_session_ext _ _ _ _ s Hs). unfold shut_session. by rewrite Ho.
  - simpl. rewrite (upd_session_same _ _ _ s Hs); [done|]. unfold shut_session. by rewrite Ho.
Qed.

Lemma run_RecordActivity (oracle : environment) sid w lg sp :
  runs oracle (RecordActivity sid) w lg sp =
  match heap w !! sid with
  | Some s =>
      if closed s then Some (Outcome (Some (ErrSentinel ErrSessionClosed)) w lg sp)
      else Some (Outcome None (upd_session sid (fun s => s <| lastActivity := UnixNano (clock w) |>) w) lg sp)
  | None => Some (Outcome (Some (ErrSentinel ErrSessionClosed)) w lg sp)
  end.
Proof.
  unfold RecordActivity. simpl. unfold on_session, touch_session.
  destruct (heap w !! sid) as [s|] eqn:Hs; [|done]. destruct (closed s) eqn:Hc; simpl.
  - rewrite insert_id by done. by destruct w.
  - unfold upd_session. f_equal. f_equal. destruct w; unfold set; simpl in *. f_equal. apply map_eq. intros i.
    destruct (decide (i = sid)) as [->|]; [by rewrite lookup_insert_eq, lookup_alter_eq, Hs|].
    by rewrite lookup_insert_ne, lookup_alter_ne.
Qed.

Lemma run_ForwardClient (oracle : environment) sid data w lg sp :
  once_settled w ->
  runs oracle (ForwardClient sid data) w lg sp =
  match heap w !! sid with
  | Some s =>
      if closed s then Some (Outcome (Some (ErrSentinel ErrSessionClosed)) w lg sp)
      else
        let w1 := upd_session sid (fun s => s <| lastActivity := UnixNano (clock w) |>) w in
        let r := oracle _ lg (QWrite sid data) in
        Some (match r with
              | None => Outcome None w1 (lg ++ [EvWrite sid data None])%list sp
              | Some err => Outcome (Some (ErrWrap "forward client packet" err))
                  (upd_session sid shut_session w1) (lg ++ [EvWrite sid data (Some err)])%list sp
              end)
  | None => Some (Outcome (Some (ErrSentinel ErrSessionClosed)) w lg sp)
  end.
Proof.
  intros Hset. unfold ForwardClient. rewrite run_bind, run_RecordActivity.
  destruct (heap w !! sid) as [s|] eqn:Hs; [|done]. destruct (closed s) eqn:Hc; [done|].
  cbv beta iota zeta. set (w1 := upd_session sid _ w). rewrite run_ask. cbv zeta.
  destruct (oracle _ lg (QWrite sid data)) as [err|]; [|done].
  assert (Hl : heap w1 !! sid = Some (s <| lastActivity := UnixNano (clock w) |>)).
  { unfold w1, upd_session. simpl. by rewrite lookup_alter_eq, Hs. }
  rewrite run_gets, Hl. simpl closed. rewrite Hc. cbv iota. rewrite run_bind, run_closeResources; [done|].
  intros i s'. unfold w1, upd_session. simpl. intros Hi.
  apply lookup_alter_Some in Hi as [(-> & x & Hx & ->)|[_ Hi]]; [by apply (Hset _ x Hx)|by apply (Hset _ _ Hi)].
Qed.

(** ** The flush *)

(** The packets the events offer to the backend for a session, in order. *)
Definition offered (sid : nat) (evs : list event) : list bytes :=
  omap (fun ev => match ev with
                  | EvWrite active data _ => if bool_decide (active = sid) then Some data else None
                  | _ => None
                  end) evs.

Lemma offered_app sid evs1 evs2 : offered sid (evs1 ++ evs2) = (offered sid evs1 ++ offered sid evs2)%list.
Proof. apply omap_app. Qed.

(** What a run changes that only touches the record of some sessions. *)
Record touches (sids : list nat) (w w' : world) : Prop := {
  to_heap : exists h, w' = w <| heap := h |>;
  to_settled : once_settled w -> once_settled w';
  to_others : forall sid, sid ∉ sids -> heap w' !! sid = heap w !! sid;
  to_closed : forall sid s', heap w' !! sid = Some s' -> closed s' = false ->
    exists s, heap w !! sid = Some s /\ closed s = false }.

Lemma touches_refl sids w : touches sids w w.
Proof. split; [exists (heap w); by destruct w|done|done|eauto]. Qed.

Lemma touches_trans sids1 sids2 w1 w2 w3 :
  touches sids1 w1 w2 -> touches sids2 w2 w3 -> touches (sids1 ++ sids2) w1 w3.
Proof.
  intros [(h1 & ->) A2 A3 A4] [(h2 & ->) B2 B3 B4]. split.
  - by exists h2.
  - auto.
  - intros sid Hn. rewrite not_elem_of_app in Hn. destruct Hn. by rewrite B3, A3.
  - intros sid s' Hs Hc. destruct (B4 _ _ Hs Hc) as (s & Hs2 & Hc2). by apply (A4 _ _ Hs2).
Qed.

Lemma touches_upd sid f w :
  (forall s, closeOnce s <> OnceRunning -> closeOnce (f s) <> OnceRunning) ->
  (forall s, closed (f s) = false -> closed s = false) ->
  touches [sid] w (upd_session sid f w).
Proof.
  intros Ho Hc. unfold upd_session. split.
  - by eexists.
  - intros Hset i s. simpl. intros [(-> & x & Hx & ->)|[_ Hi]]%lookup_alter_Some; [|by eapply Hset].
    apply Ho. by eapply Hset.
  - intros i Hi. simpl. apply lookup_alter_ne. set_solver.
  - intros i s. simpl. intros [(-> & x & Hx & ->)|[_ Hi]]%lookup_alter_Some Hf; eauto.
Qed.

Lemma touches_weaken sids sids' w w' : (forall x, x ∈ sids -> x ∈ sids') -> touches sids w w' -> touches sids' w w'.
Proof. intros Hs [A1 A2 A3 A4]. split; [done..| |done]. intros i Hi. apply A3. auto. Qed.

(** Forwarding one packet. *)
Lemma run_forward (oracle : environment) sid data w lg sp :
  once_settled w ->
  exists r w' evs, runs oracle (ForwardClient sid data) w lg sp = Some (Outcome r w' (lg ++ evs)%list sp) /\
    touches [sid] w w' /\ (evs = [] \/ exists err, evs = [EvWrite sid data err]) /\
    (r = None -> offered sid evs = [data] /\
       forall s, heap w !! sid = Some s -> closed s = false ->
         exists s', heap w' !! sid = Some s' /\ closed s' = false) /\
    (forall s, heap w !! sid = Some s -> closed s = false ->
       oracle _ lg (QWrite sid data) = None -> r = None).
Proof.
  intros Hset. rewrite run_ForwardClient by done.
  destruct (heap w !! sid) as [s|] eqn:Hs.
  2: { exists (Some (ErrSentinel ErrSessionClosed)), w, []. rewrite app_nil_r. split; [done|].
    split; [apply touches_refl|]. split; [by left|]. split; [done|]. by intros. }
  destruct (closed s) eqn:Hc.
  { exists (Some (ErrSentinel ErrSessionClosed)), w, []. rewrite app_nil_r. split; [done|].
    split; [apply touches_refl|]. split; [by left|]. split; [done|]. intros ? [= <-]. congruence. }
  cbv zeta. set (w1 := upd_session sid _ w).
  assert (Ht : touches [sid] w w1) by (by apply touches_upd).
  destruct (oracle _ lg (QWrite sid data)) as [err|]; do 3 eexists; (split; [done|]).
  - split.
    { apply (touches_weaken ([sid] ++ [sid])); [set_solver|]. eapply touches_trans; [exact Ht|].
      apply touches_upd; unfold shut_session; intros x; by destruct (closeOnce x) eqn:?; simpl; rewrite ?Heqo. }
    split; [right; by eexists|]. done.
  - split; [done|]. split; [right; by eexists|]. split; [|done]. intros _. simpl.
    rewrite bool_decide_eq_true_2 by done. split; [done|]. intros s0 [= <-] Hc0.
    eexists. split; [unfold w1, upd_session; simpl; by rewrite lookup_alter_eq, Hs|done].
Qed.

(** Every write to the session succeeds, whatever happened before. *)
Definition writable (oracle : environment) (sid : nat) : Prop :=
  forall lg data, oracle _ lg (QWrite sid data) = None.

Definition session_open (sid : nat) (w : world) : Prop :=
  exists s, heap w !! sid = Some s /\ closed s = false.

Lemma offered_other sid evs active :
  (forall ev, ev ∈ evs -> exists data err, ev = EvWrite active data err) -> active <> sid ->
  offered sid evs = [].
Proof.
  intros Hall Hne. unfold offered. induction evs as [|ev evs IH]; [done|].
  destruct (Hall ev (list_elem_of_here _ _)) as (data & err & ->). simpl.
  rewrite bool_decide_eq_false_2 by done. apply IH. intros ev' Hin. apply Hall. by right.
Qed.

Lemma run_flush_packets (oracle : environment) active ps w lg sp :
  once_settled w ->
  exists w' evs, runs oracle (flush_packets active ps) w lg sp = Some (Outcome tt w' (lg ++ evs)%list sp) /\
    touches [active] w w' /\
    (forall ev, ev ∈ evs -> exists data err, ev = EvWrite active data err) /\
    offered active evs `prefix_of` ps /\
    (session_open active w -> writable oracle active -> offered active evs = ps).
Proof.
  revert w lg. induction ps as [|packet ps IH]; intros w lg Hset; cbn [flush_packets].
  { exists w, []. rewrite app_nil_r. split; [done|]. split; [apply touches_refl|].
    split; [intros ev; set_solver|]. split; [apply prefix_nil|done]. }
  destruct (run_forward oracle active packet w lg sp Hset) as (r & w1 & evs & R & Ht & He & Hnone & Hok).
  rewrite run_bind, R.
  assert (Hall : forall ev, ev ∈ evs -> exists data err, ev = EvWrite active data err).
  { intros ev. destruct He as [->|[err ->]]; [set_solver|]. intros ->%list_elem_of_singleton. eauto. }
  destruct r as [err|].
  - exists w1, evs. split; [done|]. split; [done|]. split; [done|]. split.
    + destruct He as [->|[e ->]]; [apply prefix_nil|]. simpl. rewrite bool_decide_eq_true_2 by done.
      apply prefix_cons, prefix_nil.
    + intros (s & Hs & Hc) Hw. by specialize (Hok s Hs Hc (Hw _ _)).
  - destruct (IH w1 (lg ++ evs)%list) as (w2 & evs2 & R2 & Ht2 & Hall2 & Hp & Hall3); [by apply Ht|].
    destruct Hnone as [Ho Hopen]; [done|].
    exists w2, (evs ++ evs2)%list. rewrite R2, app_assoc. split; [done|]. split; [|split; [|split]].
    + apply (touches_weaken ([active] ++ [active])); [set_solver|]. by eapply touches_trans.
    + intros ev [?|?]%elem_of_app; auto.
    + rewrite offered_app, Ho. by apply prefix_cons.
    + intros (s & Hs & Hc) Hw. rewrite offered_app, Ho, Hall3; [done| |done]. by apply (Hopen s).
Qed.

Definition buffered (w : world) (sid : nat) : list bytes :=
  match queues (px w) !! sid with Some q => packets q | None => [] end.

Lemma run_flush_queues (oracle : environment) order w lg sp :
  once_settled w -> NoDup order ->
  exists w' evs, runs oracle (flush_queues order) w lg sp = Some (Outcome tt w' (lg ++ evs)%list sp) /\
    touches order w w' /\
    forall sid, offered sid evs `prefix_of` (if bool_decide (sid ∈ order) then buffered w sid else []) /\
      (sid ∈ order -> session_open sid w -> writable oracle sid -> offered sid evs = buffered w sid).
Proof.
  revert w lg. induction order as [|active order IH]; intros w lg Hset Hnd; cbn [flush_queues].
  { exists w, []. rewrite app_nil_r. split; [done|]. split; [apply touches_refl|]. intros sid.
    split; [apply prefix_nil|]. set_solver. }
  apply NoDup_cons in Hnd as [Hni Hnd]. rewrite run_gets, run_bind. fold (buffered w active).
  destruct (run_flush_packets oracle active (buffered w active) w lg sp Hset) as (w1 & evs & R & Ht & Hall & Hp & Hc).
  rewrite R. destruct (IH w1 (lg ++ evs)%list) as (w2 & evs2 & R2 & Ht2 & H2); [by apply Ht|done|].
  exists w2, (evs ++ evs2)%list. rewrite R2, app_assoc. split; [done|].
  split; [by eapply (touches_trans [active])|]. intros sid. destruct (H2 sid) as [P2 C2]. rewrite offered_app.
  assert (Hb : buffered w1 sid = buffered w sid) by (destruct (to_heap _ _ _ Ht) as [h ->]; done).
  destruct (decide (active = sid)) as [->|Hne].
  - rewrite bool_decide_eq_false_2 in P2 by done. apply prefix_nil_inv in P2. rewrite P2, app_nil_r.
    rewrite bool_decide_eq_true_2 by set_solver. split; [done|]. by intros _.
  - rewrite (offered_other sid evs active) by done. simpl. split.
    + destruct (decide (sid ∈ order)) as [Hin|Hnin].
      * rewrite bool_decide_eq_true_2 by set_solver. rewrite bool_decide_eq_true_2 in P2 by done. by rewrite <- Hb.
      * rewrite bool_decide_eq_false_2 by set_solver. by rewrite bool_decide_eq_false_2 in P2.
    + intros [?|Hin]%elem_of_cons Ho Hw; [done|]. rewrite C2; [done|done| |done].
      destruct Ho as (s & Hs & Hcl). exists s. split; [|done].
      rewrite (to_others _ _ _ Ht); [done|]. set_solver.
Qed.

Lemma run_scheduleAutoStop (oracle : environment) w lg sp :
  exists w', runs oracle scheduleAutoStop w lg sp =
    Some (Outcome tt w' lg (sp ++ if shuttingDown (px w) || negb (backendReady (px w)) then []
      else [TAutoStop (nextTimer w) (uint64 (stopGeneration (px w) + 1)) 1])%list) /\
    sessions w' = sessions w /\ heap w' = heap w /\ queues (px w') = queues (px w) /\
    queuedBytes (px w') = queuedBytes (px w) /\ backendReady (px w') = backendReady (px w) /\
    readinessGeneration (px w') = readinessGeneration (px w).
Proof.
  unfold scheduleAutoStop, schedule_generation. simpl.
  destruct (_ || _); [exists w; simpl; by rewrite app_nil_r|]. simpl.
  set (w1 := bump_stop_generation w).
  destruct (stop_timer_fields w1) as (F1 & F2 & F3 & F4 & F5 & F6 & F7 & F8 & F9 & F10 & F11 & F12 & F13 & F14 & F15 & F16).
  eexists. split; [by rewrite F14|]. simpl. by rewrite F1, F2, F6, F7, F8, F16.
Qed.

(** The end of [openStartupGate]: schedule the auto-stop when nobody plays. *)
Lemma run_gate_tail (oracle : environment) w lg sp :
  backendReady (px w) = true -> shuttingDown (px w) = false ->
  exists w', runs oracle (activeSessions <- Len;;
      (if bool_decide (activeSessions = 0) then scheduleAutoStop else Ret tt)) w lg sp =
    Some (Outcome tt w' lg (sp ++ if bool_decide (sessions w = ∅)
      then [TAutoStop (nextTimer w) (uint64 (stopGeneration (px w) + 1)) 1] else [])%list) /\
    sessions w' = sessions w /\ heap w' = heap w /\ queues (px w') = queues (px w) /\
    queuedBytes (px w') = queuedBytes (px w) /\ backendReady (px w') = backendReady (px w) /\
    readinessGeneration (px w') = readinessGeneration (px w).
Proof.
  intros Hr Hsd. unfold Len. rewrite run_rcritical.
  assert (Hz : store_len w = 0 <-> sessions w = ∅).
  { unfold store_len. rewrite <- map_size_empty_iff. lia. }
  rewrite (bool_decide_ext _ _ Hz). case_bool_decide as He.
  - destruct (run_scheduleAutoStop oracle w lg sp) as (w' & R & Hrest).
    rewrite Hr, Hsd in R. exists w'. by rewrite R.
  - exists w. by rewrite app_nil_r.
Qed.

(** C17. The gate opens behind the flush.  Opening the gate offers the backend, for every
    session, a prefix of its buffered packets in their order, and all of them when the
    session is open and its writes succeed; afterwards the gate is open under a new
    readiness generation, nothing is buffered, no session has left the table, and an
    auto-stop is scheduled exactly when nobody plays. *)
Theorem gate_opens_behind_flush (oracle : environment) w lg sp :
  once_settled w -> shuttingDown (px w) = false ->
  exists w' evs, runs oracle openStartupGate w lg sp =
      Some (Outcome tt w' (lg ++ evs)%list
        (sp ++ if bool_decide (sessions w = ∅)
               then [TAutoStop (nextTimer w) (uint64 (stopGeneration (px w) + 1)) 1] else [])%list) /\
    backendReady (px w') = true /\ queues (px w') = ∅ /\ queuedBytes (px w') = 0 /\
    sessions w' = sessions w /\
    readinessGeneration (px w') = (if backendReady (px w) then readinessGeneration (px w)
                                   else uint64 (readinessGeneration (px w) + 1)) /\
    forall sid, offered sid evs `prefix_of` buffered w sid /\
      (session_open sid w -> writable oracle sid -> offered sid evs = buffered w sid).
Proof.
  intros Hset Hsd. unfold openStartupGate. rewrite !run_lock, run_gets, Hsd.
  set (w1 := upd_px (fun p => p <| backendRunning := true |>) w).
  assert (Hset1 : once_settled w1) by done. rewrite run_bind.
  rewrite run_modify, run_gets, run_ask. cbv zeta. fold w1.
  set (ids := queue_keys w1). set (order := range_order ids _).
  assert (Hord : order ≡ₚ ids) by apply range_order_perm.
  rewrite run_bind. destruct (run_flush_queues oracle order w1 (lg ++ [event_of _ (QOrder ids) (oracle _ lg (QOrder ids))])%list sp Hset1)
    as (w2 & evs & R & Ht & Hf).
  { rewrite Hord. apply NoDup_fst_map_to_list. }
  rewrite R, run_modify. set (w3 := upd_px open_gate w2).
  destruct (to_heap _ _ _ Ht) as [h Hw2].
  assert (E3 : backendReady (px w3) = true /\ shuttingDown (px w3) = false /\ queues (px w3) = ∅ /\
    queuedBytes (px w3) = 0 /\ sessions w3 = sessions w /\ nextTimer w3 = nextTimer w /\
    stopGeneration (px w3) = stopGeneration (px w) /\
    readinessGeneration (px w3) = (if backendReady (px w) then readinessGeneration (px w)
                                   else uint64 (readinessGeneration (px w) + 1))).
  { unfold w3. rewrite Hw2. unfold upd_px, open_gate. simpl. by destruct (backendReady (px w)) eqn:Hb; simpl. }
  destruct E3 as (E1 & E2 & E3 & E4 & E5 & E6 & E7 & E8).
  rewrite run_bind.
  change (run event_of oracle (unlock Mu) ?w ?l ?s) with (Some (Outcome tt w l s) : option (outcome unit)). cbv iota.
  destruct (run_gate_tail oracle w3 ((lg ++ [event_of _ (QOrder ids) (oracle _ lg (QOrder ids))]) ++ evs)%list sp E1 E2)
    as (w4 & R4 & G1 & G2 & G3 & G4 & G5 & G6).
  rewrite R4, E5, E6, E7. exists w4, ([event_of _ (QOrder ids) (oracle _ lg (QOrder ids))] ++ evs)%list.
  split; [by rewrite <- !app_assoc|]. rewrite G1, G3, G4, G5, G6.
  repeat (split; [done|]). intros sid. destruct (Hf sid) as [Hp Hc].
  change (offered sid ([?e] ++ evs)) with (offered sid evs).
  destruct (decide (sid ∈ order)) as [Hin|Hnin].
  - rewrite bool_decide_eq_true_2 in Hp by done. split; [done|]. by apply Hc.
  - rewrite bool_decide_eq_false_2 in Hp by done. apply prefix_nil_inv in Hp. rewrite Hp.
    split; [apply prefix_nil|]. intros _ _. unfold buffered.
    destruct (queues (px w) !! sid) as [q|] eqn:Hq; [|done]. destruct Hnin. rewrite Hord.
    apply list_elem_of_fmap. exists (sid, q). split; [done|]. by apply elem_of_map_to_list.
Qed.

(** The sample proxy with one client waiting for the server. *)
Definition waiting_world : world :=
  upd_px (fun p => enqueueLocked 0 [Byte.x02] (enqueueLocked 0 wake_packet (p <| startupRunning := true |>)))
    (set_session (addr_String client_addr) 0 (with_new_session client_addr 1500 sample_world)).

Lemma waiting_world_buffered :
  buffered waiting_world 0 = [wake_packet; [Byte.x02]] /\ session_open 0 waiting_world.
Proof.
  split; [reflexivity|]. exists (fresh_session client_addr 1500 0). split; reflexivity.
Qed.

Lemma gate_opens_behind_flush_witness : exists w' evs sp,
  runs (fun B lg => wake_oracle [] B) openStartupGate waiting_world [] [] = Some (Outcome tt w' evs sp) /\
  backendReady (px w') = true /\ offered 0 evs = [wake_packet; [Byte.x02]].
Proof.
  destruct (gate_opens_behind_flush (fun B lg => wake_oracle [] B) waiting_world [] [])
    as (w' & evs & R & H1 & _ & _ & _ & _ & H2).
  - intros sid s Hs. destruct (decide (sid = 0%nat)) as [->|Hne].
    + vm_compute in Hs. by injection Hs as <-.
    + unfold waiting_world in Hs. simpl in Hs. by rewrite lookup_insert_ne in Hs.
  - reflexivity.
  - exists w', evs. eexists. split; [exact R|]. split; [exact H1|]. destruct (H2 0%nat) as [_ H3].
    destruct waiting_world_buffered as [<- Hopen]. apply H3; [exact Hopen|intros ? ?; reflexivity].
Defined.
