(* ===== verification/MonitorRuns.v ===== *)
(** * MonitorRuns: losing the backend

    What the health monitor needs to close the gate, in every execution, and what closing
    the gate and failing a startup do while the goroutines of the sessions run. *)
From S2P Require Import Prelude Errors Conc Local Observed Amid World Session Store Proxy Invariant Buffers Rules.
From S2P Require Import Tokens SessionLogic StoreLogic StartupLogic ProxyLogic Reachable Scenario.
From S2P Require Import ProxyRuns Histories Company StartupRuns.

Open Scope string_scope.
Open Scope list_scope.
Open Scope Z_scope.

(** ** The failures in a row *)

(** What the monitor sees of the gate: whether it is open, and which opening it is. *)
Definition gate (w : world) : bool * Z := (backendReady (px w), readinessGeneration (px w)).

Abbreviation gate_item := (item event (bool * Z)).

(** The conclusive failures in a row against one opening of the gate. *)
Record streak := mkStreak {
  last_gate : bool * Z;
  against : Z;
  failed : Z }.

#[export] Instance streak_eta : Eta streak := fun s => mkStreak (last_gate s) (against s) (failed s).

(** A probe is against the opening seen last before it; one while the gate was not open, a
    success and an inconclusive failure end the row, and a failure against another opening
    starts a new one. *)
Definition streak_after (s : streak) (i : gate_item) : streak :=
  match i with
  | Saw g => s <| last_gate := g |>
  | Did (EvProbe (Some err)) =>
      let '(ready, generation) := last_gate s in
      if negb ready || backendReadinessInconclusive err then s <| failed := 0 |>
      else if bool_decide (against s = generation) then s <| failed := failed s + 1 |>
      else s <| against := generation |> <| failed := 1 |>
  | Did (EvProbe None) => s <| failed := 0 |>
  | Did _ => s
  end.

Definition streak_of (h : list gate_item) : streak := foldl streak_after (mkStreak (false, 0) 0 0) h.

Lemma streak_snoc h i : streak_of (h ++ [i]) = streak_after (streak_of h) i.
Proof. unfold streak_of. by rewrite foldl_app. Qed.

Lemma failed_nonneg h : 0 <= failed (streak_of h).
Proof.
  induction h as [|i h IH] using rev_ind; [done|]. rewrite streak_snoc.
  destruct i as [ev|g]; [|done]. destruct ev as [| | | |[err|]| | | | | | | |]; try done; simpl.
  destruct (last_gate _) as [ready generation]. destruct (_ || _); [done|]. case_bool_decide; simpl; lia.
Qed.

Lemma streak_saw h g : failed (streak_of (h ++ [Saw g])) = failed (streak_of h) /\
  against (streak_of (h ++ [Saw g])) = against (streak_of h).
Proof. by rewrite streak_snoc. Qed.

(** A session table is emptied only after enough failures in a row. *)
Definition closing_ok (h : list gate_item) : Prop :=
  forall h1 keys h2, h = (h1 ++ Did (EvKeyOrder keys) :: h2)%list ->
    backendHealthFailureThreshold <= failed (streak_of h1).

Lemma closing_ok_snoc h i :
  closing_ok h ->
  (forall keys, i = Did (EvKeyOrder keys) -> backendHealthFailureThreshold <= failed (streak_of h)) ->
  closing_ok (h ++ [i]).
Proof.
  intros Hc He h1 keys h2 Heq. destruct h2 as [|x h2 _] using rev_ind.
  - apply app_inj_tail in Heq as [-> ->]. by eapply He.
  - rewrite app_comm_cons, app_assoc in Heq. apply app_inj_tail in Heq as [Heq _]. by eapply Hc.
Qed.

Lemma closing_saw h g : closing_ok h -> closing_ok (h ++ [Saw g]).
Proof. intros Hc. by apply closing_ok_snoc. Qed.

Abbreviation keeps_closing := (heeds event_of gate closing_ok).

(** The monitor's own count is not above the row's, and against the same opening. *)
Definition monitor_state (f : backendHealthFailures) (h : list gate_item) : Prop :=
  closing_ok h /\ 0 <= failures_count f <= failed (streak_of h) /\
  (0 < failures_count f -> failures_generation f = against (streak_of h)).

Definition monitor_tasks (t : task) (h : list gate_item) : Prop :=
  match t with
  | TMonitor f => failures_count f < backendHealthFailureThreshold /\ monitor_state f h
  | _ => False
  end.

Lemma monitor_saw f h g : monitor_state f h -> monitor_state f (h ++ [Saw g]).
Proof.
  intros (Hc & Hn & Hg). destruct (streak_saw h g) as [E1 E2]. split; [by apply closing_saw|]. by rewrite E1, E2.
Qed.

Lemma monitor_select f h b : monitor_state f h -> monitor_state f (h ++ [Did (event_of _ QSelect b)]).
Proof. intros (Hc & Hn & Hg). split; [by apply closing_ok_snoc|]. by rewrite streak_snoc. Qed.

Lemma monitor_reset h : closing_ok h -> monitor_state failures_reset h.
Proof. intros Hc. split; [done|]. simpl. pose proof (failed_nonneg h). split; [lia|]. lia. Qed.

Lemma reset_again h : closing_ok h -> monitor_tasks (TMonitor failures_reset) h.
Proof. intros Hc. split; [done|by apply monitor_reset]. Qed.

Lemma silent_heeds {A} (J : list gate_item -> Prop) (p : proc A) h :
  asks nothing no_task p -> (forall h g, J h -> J (h ++ [Saw g])) -> (forall h, J h -> closing_ok h) -> J h ->
  keeps_closing p (fun _ => J) h.
Proof. intros Hp Hs Hok HJ. by apply (heeds_asks event_of gate closing_ok nothing no_task J). Qed.

Lemma asks_closeBackendGate generation : asks choices no_task (closeBackendGate generation).
Proof. unfold closeBackendGate. go_asks. Qed.

(** Closing the gate, after enough failures. *)
Lemma closing_call generation h :
  closing_ok h -> backendHealthFailureThreshold <= failed (streak_of h) ->
  keeps_closing (closeBackendGate generation) (fun _ => closing_ok) h.
Proof.
  intros Hc Hs. eapply heeds_mono.
  - apply (heeds_asks event_of gate closing_ok choices no_task
      (fun h => closing_ok h /\ backendHealthFailureThreshold <= failed (streak_of h))).
    + intros h' g [H1 H2]. split; [by apply closing_saw|]. by rewrite (proj1 (streak_saw h' g)).
    + intros h' B q b [H1 H2] Hq. split; [by apply closing_ok_snoc|]. rewrite streak_snoc. by destruct q.
    + by intros h' [H1 _].
    + apply asks_closeBackendGate.
    + done.
  - by intros ? h' [H1 _].
Qed.

Definition monitor_next (next : loop backendHealthFailures unit) (h : list gate_item) : Prop :=
  match next with
  | Again failures => monitor_tasks (TMonitor failures) h
  | Return _ => True
  end.

(** The history right behind a probe, and what the monitor may still look at. *)
Definition probed (f : backendHealthFailures) (generation : Z) (err : option error) (h : list gate_item) : Prop :=
  closing_ok h /\
  match err with
  | Some err => backendReadinessInconclusive err = false ->
      1 <= failed (streak_of h) /\ against (streak_of h) = generation /\
      (failures_generation f = generation -> failures_count f + 1 <= failed (streak_of h))
  | None => True
  end.

Lemma probed_saw f generation err h g : probed f generation err h -> probed f generation err (h ++ [Saw g]).
Proof.
  intros [Hc H]. split; [by apply closing_saw|]. destruct err; [|done]. destruct (streak_saw h g) as [-> ->]. done.
Qed.

Lemma probed_here f generation err h :
  monitor_state f h -> last_gate (streak_of h) = (true, generation) ->
  probed f generation err (h ++ [Did (EvProbe err)]).
Proof.
  intros (Hc & Hn & Hg) Hl. split; [by apply closing_ok_snoc|]. destruct err as [err|]; [|done]. intros Hi.
  rewrite streak_snoc. simpl. rewrite Hl, Hi. simpl. case_bool_decide as Ha; simpl.
  - split; [lia|]. split; [done|]. intros _. lia.
  - split; [lia|]. split; [done|]. intros He. destruct (decide (0 < failures_count f)); [|lia].
    destruct Ha. by rewrite <- Hg.
Qed.

Lemma failures_record_spec generation f :
  0 <= failures_count f < backendHealthFailureThreshold ->
  exists n, failures_record generation f = (n, mkFailures generation n) /\
    ((failures_generation f = generation /\ n = failures_count f + 1) \/ n = 1).
Proof.
  intros Hc. unfold backendHealthFailureThreshold in Hc. unfold failures_record. case_bool_decide as He; cbv zeta; simpl.
  - exists (failures_count f + 1). rewrite int64_id, He by (unfold in_int64, two63; lia). auto.
  - exists 1. split; [done|by right].
Qed.

(** What an iteration does with the answer of its probe. *)
Lemma monitor_failed failures generation (err : option error) h :
  0 <= failures_count failures < backendHealthFailureThreshold -> probed failures generation err h ->
  keeps_closing
    (match err with
     | None => Ret (Again failures_reset)
     | Some err =>
         if backendReadinessInconclusive err then Len;;; Ret (Again failures_reset)
         else
           let '(failureCount, failures) := failures_record generation failures in
           if bool_decide (failureCount < backendHealthFailureThreshold)
           then Ret (Again failures)
           else closeBackendGate generation;;; Ret (Again failures_reset)
     end : proc (loop backendHealthFailures unit))
    monitor_next h.
Proof.
  intros Hlt [Hc Hp]. destruct err as [err|]; [|by apply reset_again].
  destruct (backendReadinessInconclusive err) eqn:Hi.
  { eapply heeds_call; [apply (silent_heeds closing_ok); [go_asks|apply closing_saw|done|done]|].
    intros ? h1 H1. by apply reset_again. }
  destruct (Hp eq_refl) as (H1 & Hg & Hcount). clear Hp.
  destruct (failures_record_spec generation failures Hlt) as (n & -> & Hn). cbv iota beta.
  assert (Hle : 1 <= n <= failed (streak_of h)) by (destruct Hn as [[He ->]| ->]; [specialize (Hcount He)|]; lia).
  case_bool_decide as Hth; [split; [done|]; split; [done|]; simpl; split; [lia|by intros _]|].
  eapply heeds_call; [apply closing_call; [done|lia]|]. intros ? h2 H2. by apply reset_again.
Qed.

Lemma monitor_heeds failures h :
  monitor_tasks (TMonitor failures) h -> keeps_closing (runBackendHealthMonitor failures) monitor_next h.
Proof.
  intros [Hlt Hm]. unfold runBackendHealthMonitor. intros r.
  pose proof (monitor_select _ _ r Hm) as H1. split; [apply H1|]. cbn [bind]. set (h1 := (h ++ _)%list) in *.
  assert (Hquiet : forall A (p : proc A) h', asks nothing no_task p -> closing_ok h' ->
    keeps_closing p (fun _ => closing_ok) h').
  { intros A p h' Hp Hc. by apply (silent_heeds closing_ok); [|apply closing_saw|..]. }
  destruct r as [err|now].
  { eapply heeds_call; [apply Hquiet; [go_asks|apply H1]|]. intros ? h2 H2.
    eapply heeds_call; [apply Hquiet; [go_asks|apply H2]|]. done. }
  intros w b w' [= <- <-]. cbn [bind fst snd]. set (h2 := (h1 ++ [Saw (gate w)])%list).
  pose proof (monitor_saw _ _ (gate w) H1) as H2. fold h2 in H2.
  destruct (backendReady (px w)) eqn:Hready; [|by apply reset_again, H2]. simpl negb. cbv iota.
  intros err. assert (Hp : probed failures (readinessGeneration (px w)) err (h2 ++ [Did (EvProbe err)])).
  { apply probed_here; [done|]. unfold h2. rewrite streak_snoc. simpl. unfold gate. by rewrite Hready. }
  split; [apply Hp|]. cbn [bind]. set (h3 := (h2 ++ _)%list) in *.
  intros w3 cancelled w3' [= <- <-]. apply (probed_saw _ _ _ _ (gate w3)) in Hp. set (h4 := (h3 ++ _)%list) in *.
  cbn [bind]. destruct (ctx_Err w3) as [e|].
  { eapply heeds_call; [apply Hquiet; [go_asks|apply Hp]|]. done. }
  intros w4 current w4' [= <- <-]. cbn [bind]. apply (probed_saw _ _ _ _ (gate w4)) in Hp.
  destruct (_ && _); simpl negb; cbv iota; [|by apply reset_again, Hp].
  apply monitor_failed; [|done]. destruct Hm as (_ & Hn & _). lia.
Qed.

Lemma monitor_tasks_heed t h : monitor_tasks t h -> keeps_closing (body t) (pursues monitor_tasks) h.
Proof.
  destruct t; try done. intros Hm. cbn [body]. eapply heeds_call; [by apply monitor_heeds|].
  intros [failures'|r] h' H'; [exact H'|done].
Qed.

(** C23. The gate is not closed on a whim.  In every execution (each has such a history), when the
    health monitor goes to close the sessions of a backend it holds for lost, its last
    [backendHealthFailureThreshold] probes at least have failed conclusively, all of them
    against one and the same opening of the gate: each began behind a look at the state that
    showed the gate open in that generation, and none of the monitor's probes between them
    succeeded, was inconclusive or was against another generation. *)
Theorem gate_closes_after_streak c tid h c' :
  begins c tid (TMonitor failures_reset) -> observed event_of body gate tid c h c' ->
  forall h1 keys h2, h = (h1 ++ Did (EvKeyOrder keys) :: h2)%list ->
  backendHealthFailureThreshold <= failed (streak_of h1).
Proof.
  intros Hb Ho h1 keys h2 He.
  destruct (observed_ok event_of body gate closing_ok closing_saw monitor_tasks monitor_tasks_heed
    _ _ _ _ _ Ho Hb) as (th' & _ & _ & Hok).
  - apply monitor_tasks_heed, reset_again. by intros [].
  - by intros [].
  - by apply (Hok h1 keys h2).
Qed.

(** A backend that is gone. *)
Definition gone_oracle (tr : list (nat * event)) (B : Type) (q : query B) : B :=
  match q in query B return B with
  | QProbe => Some (ErrNet true "i/o timeout")
  | q => answers StateOffline 0 _ q
  end.

Definition key_order_at (h : list gate_item) : option (list gate_item * list string * list gate_item) :=
  match list_find (fun i => match i with Did (EvKeyOrder _) => true | _ => false end = true) h with
  | Some (n, Did (EvKeyOrder keys)) => Some (take n h, keys, drop (S n) h)
  | _ => None
  end.

Lemma key_order_at_split h h1 keys h2 :
  key_order_at h = Some (h1, keys, h2) -> h = (h1 ++ Did (EvKeyOrder keys) :: h2)%list.
Proof.
  unfold key_order_at. destruct (list_find _ h) as [[n [ev|g]]|] eqn:Hf; try done.
  apply list_find_Some in Hf as (Hn & _ & _). destruct ev; try done. intros [= <- <- <-].
  by rewrite take_drop_middle.
Qed.

(** The scheduler run on one goroutine, and what it finds in its history. *)
Definition found_observed (oracle : list (nat * event) -> forall B, query B -> B) (n : nat) (w : world)
    (t : task) (check : list gate_item -> bool) : bool :=
  match observe_n event_of body gate oracle 9 n 10 [] [] (alone w t) with
  | Some (h, c) => match pool c !! 9%nat with Some _ => check h | None => false end
  | None => false
  end.

Lemma found_observed_history oracle n w t check :
  found_observed oracle n w t check = true ->
  exists h c, observed event_of body gate 9 (alone w t) h c /\ check h = true.
Proof.
  unfold found_observed. destruct (observe_n _ _ _ _ _ _ _ _ _ _) as [[h c]|] eqn:He; [|done].
  destruct (pool c !! 9%nat) as [th|] eqn:Hp; [|done]. intros Hc. exists h, c. split; [|done].
  eapply observe_n_observed; [exact He|by eexists|]. constructor. by eexists.
Qed.

Lemma gate_closes_after_streak_witness : exists h c h1 keys h2,
  observed event_of body gate 9%nat (alone playing_world (TMonitor failures_reset)) h c /\
  h = (h1 ++ Did (EvKeyOrder keys) :: h2)%list /\ backendHealthFailureThreshold <= failed (streak_of h1).
Proof.
  destruct (found_observed_history gone_oracle 44 playing_world (TMonitor failures_reset)
    (fun h => match key_order_at h with Some _ => true | None => false end)) as (h & c & Ho & Hc);
    [vm_compute; reflexivity|].
  destruct (key_order_at h) as [[[h1 keys] h2]|] eqn:Hk; [|discriminate].
  apply key_order_at_split in Hk. exists h, c, h1, keys, h2. split; [exact Ho|]. split; [exact Hk|].
  exact (gate_closes_after_streak _ _ _ _ (alone_begins _ _) Ho _ _ _ Hk).
Defined.

(** ** Closing the gate *)

Lemma stop_timer_stopped w :
  stopTimer (px (stopAutoStopTimerLocked w)) = None /\
  forall id deadline, stopTimer (px w) = Some id -> timers w !! id = Some (TimerArmed deadline) ->
    timers (stopAutoStopTimerLocked w) !! id = Some TimerStopped.
Proof.
  unfold stopAutoStopTimerLocked. destruct (stopTimer (px w)) as [id|] eqn:Hs; [|by rewrite Hs].
  destruct (timers w !! id) as [[]|] eqn:Ht; simpl; (split; [done|]); intros i d [= <-] Hi; simplify_eq.
  apply lookup_insert_eq.
Qed.

Lemma close_gate_current w :
  backendReady (px w) = true ->
  exists w', close_gate (readinessGeneration (px w)) w = (true, w') /\
    backendReady (px w') = false /\ backendRunning (px w') = false /\
    readinessGeneration (px w') = uint64 (readinessGeneration (px w) + 1) /\
    stopTimer (px w') = None /\ queues (px w') = ∅ /\ queuedBytes (px w') = 0 /\
    sessions w' = sessions w /\ heap w' = heap w /\
    forall id deadline, stopTimer (px w) = Some id -> timers w !! id = Some (TimerArmed deadline) ->
      timers w' !! id = Some TimerStopped.
Proof.
  intros Hr. unfold close_gate. rewrite Hr, bool_decide_eq_false_2 by auto. simpl.
  set (w1 := upd_px _ w). pose proof (stop_timer_stopped w1) as [H1 H2].
  destruct (stop_timer_fields w1) as (F1 & F2 & F3 & F4 & F5 & F6 & F7 & F8 & F9 & F10 & F11 & F12 & F13 & F14 & F15 & F16).
  assert (Hrun : backendRunning (px (stopAutoStopTimerLocked w1)) = false).
  { unfold stopAutoStopTimerLocked. destruct (stopTimer (px w1)); [|done]. by destruct (timers w1 !! _) as [[]|]. }
  eexists. split; [done|]. simpl. rewrite F1, F2, F8, F16, Hrun, H1. repeat (split; [done|]). exact H2.
Qed.

(** A session that is closed for good: its resources are released, [closeOnce] has run to
    its end, and its goroutines have been waited for. *)
Definition ended (s : Session) : Prop := finished s /\ goroutineWG s <= 0.

(** Every session of the table of [w] has ended. *)
Definition all_ended (w w' : world) : Prop :=
  forall key sid, sessions w !! key = Some sid -> has_session ended sid w'.

Lemma sessions_ok_run w w' : sessions_run w w' ->
  (forall sid, its session_ok sid w) -> forall sid, its session_ok sid w'.
Proof. intros Hr H sid. eapply its_run; [|exact Hr|apply H]. intros ? ? ? ? []. auto. Qed.

Lemma waited_all_ended w w' :
  sessions_run (w <| sessions := ∅ |>) w' -> (forall sid, its session_ok sid w) ->
  (forall key sid, sessions w !! key = Some sid -> is_Some (heap w !! sid)) ->
  (forall key sid, sessions w !! key = Some sid -> its waited_for sid w') -> all_ended w w'.
Proof.
  intros Hr Hok Hin Hw key sid Hk. destruct (Hin _ _ Hk) as [s Hs].
  destruct (ru_heap _ _ Hr sid s Hs) as (s' & Hs' & Hr'). exists s'. split; [done|].
  destruct (Hw _ _ Hk _ Hs') as [Ho Hg]. split; [|done]. split; [|done].
  apply (so_once _ (sr_ok _ _ _ _ Hr' (Hok _ _ Hs)) Ho).
Qed.

Lemma all_ended_run w w1 w2 : sessions_run w1 w2 -> all_ended w w1 -> all_ended w w2.
Proof.
  intros Hr Ha key sid Hk. destruct (Ha _ _ Hk) as (s & Hs & Hf & Hg).
  destruct (ru_heap _ _ Hr _ _ Hs) as (s' & Hs' & Hr'). exists s'. split; [done|].
  split; [by eapply finished_le; [apply Hr'|]|]. pose proof (sr_workers _ _ _ _ Hr'). lia.
Qed.

(** Closing every session behind a change of the proxy and its timers. *)
Lemma company_empty_table w w1 w2 lg :
  state_ok w -> sessions_run w w1 ->
  sessions w2 = sessions w1 -> heap w2 = heap w1 ->
  in_company (in_table w) CloseAll
    (fun r w' lg' => lg' = (lg ++ [EvKeyOrder (session_keys w)])%list /\
       sessions_run (w2 <| sessions := ∅ |>) w' /\ all_ended w w') w2 lg.
Proof.
  intros Hok Hr Es Eh. destruct (run_sessions _ _ Hr) as (E & _ & _). rewrite E in Es.
  assert (Et : in_table w2 = in_table w) by (unfold in_table; by rewrite Es).
  assert (Ek : session_keys w2 = session_keys w) by (unfold session_keys; by rewrite Es).
  rewrite <- Et, <- Ek. eapply company_mono; [apply company_CloseAll|].
  intros r w' lg' (_ & -> & Hr' & Hw). split_and!; [done|done|].
  assert (Ha : all_ended w2 w').
  { apply waited_all_ended; [done| | |done].
    - intros sid s Hs. rewrite Eh in Hs. revert Hs. eapply sessions_ok_run; [exact Hr|].
      intros i s0. apply (st_sessions _ Hok).
    - intros key sid. rewrite Es, Eh. intros Hk. destruct (st_keys _ Hok _ _ Hk) as (s & Hs & _).
      destruct (ru_heap _ _ Hr _ _ Hs) as (s' & Hs' & _). by eexists. }
  intros key sid Hk. apply (Ha key). by rewrite Es.
Qed.

(** C24. A lost backend leaves nothing behind.  While the goroutines of the sessions go on
    reading, writing and recording activity, time passes and the termination signal may come,
    closing the gate for the current readiness generation shuts it under another generation,
    cancels the scheduled auto-stop, drops every buffered packet, and empties the session
    table: every session that was in it is closed, its resources are released and its
    goroutines have been waited for.  It blocks only while such a session still has
    goroutines.  A loss reported for another generation, or at a closed gate, changes
    nothing at all. *)
Theorem lost_backend_leaves_nothing generation w lg :
  state_ok w -> 0 <= readinessGeneration (px w) < two64 ->
  in_company (in_table w) (closeBackendGate generation)
    (fun _ w' lg' =>
       if backendReady (px w) && bool_decide (readinessGeneration (px w) = generation) then
         lg' = (lg ++ [EvKeyOrder (session_keys w)])%list /\
         backendReady (px w') = false /\ backendRunning (px w') = false /\
         readinessGeneration (px w') <> generation /\ stopTimer (px w') = None /\
         queues (px w') = ∅ /\ queuedBytes (px w') = 0 /\ sessions w' = ∅ /\ all_ended w w' /\
         forall id deadline, stopTimer (px w) = Some id -> timers w !! id = Some (TimerArmed deadline) ->
           timers w' !! id = Some TimerStopped
       else lg' = lg /\ sessions_run w w') w lg.
Proof.
  intros Hok Hg w1 Hr1. destruct (run_sessions _ _ Hr1) as (Es & Ep & Et). cbn [bind].
  destruct (backendReady (px w)) eqn:Hr; cbn [andb]; cbv iota.
  2: { unfold close_gate. rewrite Ep, Hr. simpl. split; [reflexivity|]. intros w2 Hr2. split; [done|by etransitivity]. }
  case_bool_decide as He.
  2: { unfold close_gate. rewrite Ep, Hr, bool_decide_eq_true_2 by done. simpl. split; [reflexivity|].
    intros w2 Hr2. split; [done|by etransitivity]. }
  subst generation. rewrite <- Ep. destruct (close_gate_current w1) as (w2 & E & G1 & G2 & G3 & G4 & G5 & G6 & G7 & G8 & G9);
    [by rewrite Ep|]. rewrite E. split; [split; [by rewrite G8|by rewrite G8]|].
  cbn [bind fst snd]. intros w3 Hr3. split; [reflexivity|].
  set (mid := fun w' lg' => lg' = (lg ++ [EvKeyOrder (session_keys w)])%list /\
    sessions_run (w2 <| sessions := ∅ |>) w' /\ all_ended w w').
  refine (company_call _ (CloseAll;;; Ret tt) (fun _ => unlock ForwardingMu;;; unlock AdmissionMu) (fun _ => mid) _ _ _ _ _).
  { eapply company_call.
    - eapply company_later; [exact Hr3|]. by apply (company_empty_table _ w1).
    - intros r w4 lg4 (-> & Hr4 & Ha4) w5 Hr5.
      split; [done|]. split; [by etransitivity|by eapply all_ended_run]. }
  intros [] w4 lg4 (-> & Hr4 & Ha4) w5 Hr5.
  assert (Hr6 : sessions_run (w2 <| sessions := ∅ |>) w5) by (by etransitivity).
  destruct (run_sessions _ _ Hr6) as (F1 & F2 & F3). simpl in F1, F2, F3.
  rewrite F1, F2, F3, G1, G2, G3, G4, G5, G6, <- Et, Ep. split_and!; try done.
  - by apply uint64_succ_ne.
  - by eapply all_ended_run; [exact Hr5|].
  - by rewrite Ep in G9.
Qed.

(** The sample proxy with sessions. *)
Lemma sample_state_ok p h n tbl now :
  options p = options (px sample_world) -> buffers_ok p -> shuttingDown p = false -> timerWG p = 0 ->
  (forall sid, is_Some (queues p !! sid) -> is_Some (h !! sid)) ->
  (backendReady p = true -> queues p = ∅) -> (size tbl <= 2)%nat ->
  (forall key sid, tbl !! key = Some sid ->
     exists s, h !! sid = Some s /\ addr_String (clientAddr s) = key) ->
  (forall sid s, h !! sid = Some s -> session_ok s /\ (sid < n)%nat) ->
  state_ok (sample_world <| clock := now |> <| heap := h |> <| nextSession := n |> <| sessions := tbl |> <| px := p |>).
Proof.
  intros Ho Hb Hs Ht Hq Hr Hc Hk Hh. split; simpl.
  - rewrite Ho. apply sample_options_ok.
  - exact Hb.
  - exact Hq.
  - exact Hr.
  - congruence.
  - unfold store_len. simpl. lia.
  - exact Hk.
  - intros sid s Hsid. apply (Hh _ _ Hsid).
  - intros sid [s Hsid]. apply (Hh _ _ Hsid).
  - exact Ht.
  - intros id [t Hid]. by rewrite lookup_empty in Hid.
Qed.

Lemma fresh_session_ok client maxp now : session_ok (fresh_session client maxp now).
Proof. split; discriminate. Qed.

(** One client, its two goroutines alive. *)
Lemma one_client_ok p :
  options p = options (px sample_world) -> buffers_ok p -> shuttingDown p = false -> timerWG p = 0 ->
  (forall sid, is_Some (queues p !! sid) -> sid = 0%nat) -> (backendReady p = true -> queues p = ∅) ->
  state_ok (sample_world <| heap := {[ 0%nat := fresh_session client_addr 1500 0 ]} |> <| nextSession := 1%nat |>
    <| sessions := {[ addr_String client_addr := 0%nat ]} |> <| px := p |>).
Proof.
  intros Ho Hb Hs Ht Hq Hr. apply (sample_state_ok p _ _ _ 0); try done.
  - intros sid ->%Hq. by eexists.
  - rewrite map_size_singleton. lia.
  - intros key sid [<- <-]%lookup_singleton_Some. eexists. by rewrite lookup_singleton_eq.
  - intros sid s [<- <-]%lookup_singleton_Some. split; [apply fresh_session_ok|lia].
Qed.

Lemma playing_state_ok : state_ok playing_world.
Proof.
  apply (one_client_ok (px playing_world)); [reflexivity| |reflexivity|reflexivity| |reflexivity].
  - split; [apply map_Forall_empty|reflexivity|vm_compute; discriminate].
  - change (queues (px playing_world)) with (∅ : gmap nat packetQueue). intros sid [q Hq]. by rewrite lookup_empty in Hq.
Qed.

Lemma lost_backend_leaves_nothing_witness : exists w' lg',
  run_amid event_of (fun B lg => gone_oracle [] B) finishing 0 (closeBackendGate 0) playing_world [] = Some (tt, w', lg') /\
  sessions playing_world !! addr_String client_addr = Some 0%nat /\
  heap playing_world !! 0%nat = Some (fresh_session client_addr 1500 0) /\
  lg' = [EvKeyOrder [addr_String client_addr]] /\ backendReady (px w') = false /\ sessions w' = ∅ /\
  has_session ended 0 w'.
Proof.
  assert (H : in_company (in_table playing_world) (closeBackendGate 0) _ playing_world [])
    by (apply lost_backend_leaves_nothing; [exact playing_state_ok|vm_compute; split; congruence]).
  destruct (company_run _ (fun B lg => gone_oracle [] B) _ _ _ (fun _ _ _ => true) H) as ([] & w' & lg' & R & P & _);
    [vm_compute; reflexivity|].
  destruct P as (P1 & P2 & _ & _ & _ & _ & _ & P3 & P4 & _).
  exists w', lg'. split; [exact R|]. split; [reflexivity|]. split; [reflexivity|].
  split; [exact P1|]. split; [exact P2|]. split; [exact P3|]. apply (P4 (addr_String client_addr) 0%nat). reflexivity.
Defined.

(** ** Failing a startup *)

(** C25. A failed startup cools down.  While the goroutines of the sessions go on reading,
    writing and recording activity, time passes and the termination signal may come, the
    failure of the current attempt drops every buffered packet, empties the session table,
    every session that was in it being closed, its resources released and its goroutines
    waited for, and ends the attempt; it blocks only while such a session still has
    goroutines.  After a permanent failure no attempt begins before the cooldown, from the
    moment of the failure, is over, and once it is over, or after any other failure, the
    next one may begin at once. *)
Theorem failed_startup_cools_down generation permanent w lg :
  state_ok w -> startupGeneration (px w) = generation -> shuttingDown (px w) = false -> backendReady (px w) = false ->
  Before (clock w) (startupBlockedUntil (px w)) = false -> 0 < StartupFailureCooldown (options (px w)) ->
  in_company (in_table w) (failStartup generation permanent)
    (fun _ w' lg' =>
       lg' = (lg ++ [EvKeyOrder (session_keys w)])%list /\
       queues (px w') = ∅ /\ queuedBytes (px w') = 0 /\ sessions w' = ∅ /\ all_ended w w' /\
       startupRunning (px w') = false /\ backendRunning (px w') = false /\
       exists failed_at, clock w <= failed_at <= clock w' /\
         forall later, clock w' <= later ->
           is_Some (fst (begin_startup (w' <| clock := later |>))) <->
           (permanent = true -> Add failed_at (StartupFailureCooldown (options (px w))) <= later)) w lg.
Proof.
  intros Hok Hg Hsd Hr Hb Hc w1 Hr1. destruct (run_sessions _ _ Hr1) as (Es & Ep & _). cbn [bind fst snd].
  set (w2 := fail_startup generation permanent w1).
  assert (E : w2 = upd_px (fun p => let p := clear_queues p <| startupRunning := false |> <| backendRunning := false |> in
    if permanent then p <| startupBlockedUntil := Add (clock w1) (StartupFailureCooldown (options p)) |> else p) w1).
  { unfold w2, fail_startup. simpl. rewrite Ep, bool_decide_eq_true_2 by done. by destruct permanent. }
  assert (Eh : heap w2 = heap w1 /\ sessions w2 = sessions w1 /\ clock w2 = clock w1) by (by rewrite E).
  destruct Eh as (Eh & Es2 & Ec2). split; [by split; rewrite Eh|].
  refine (company_call _ CloseAll (fun _ => unlock ForwardingMu;;; unlock AdmissionMu) _ _ _ _ _ _);
    [by apply (company_empty_table w w1 w2)|].
  intros r w3 lg3 (-> & Hr3 & Ha) w4 Hr4.
  assert (Hr5 : sessions_run (w2 <| sessions := ∅ |>) w4) by (by etransitivity).
  destruct (run_sessions _ _ Hr5) as (F1 & F2 & _). simpl in F1, F2.
  pose proof (ru_clock _ _ Hr5) as F3. simpl in F3. pose proof (ru_clock _ _ Hr1) as F4. rewrite Ec2 in F3.
  rewrite F1, F2, E. split_and!; try by destruct permanent.
  { by eapply all_ended_run; [exact Hr4|]. }
  exists (clock w1). split; [lia|]. intros later Hl. unfold begin_startup. simpl. rewrite F2, E.
  destruct permanent; simpl; rewrite Ep, Hsd, Hr; simpl.
  - unfold Before. case_bool_decide; simpl; split; intros H1; try lia; try (destruct H1; congruence); eauto.
  - replace (Before later (startupBlockedUntil (px w))) with false; [simpl; split; [done|eauto]|].
    unfold Before in *. go_bool. symmetry. apply bool_decide_eq_false. lia.
Qed.

(** The sample proxy with one client waiting for the server, its two packets buffered. *)
Lemma waiting_world_eq : waiting_world = sample_world
  <| heap := {[ 0%nat := fresh_session client_addr 1500 0 ]} |> <| nextSession := 1%nat |>
  <| sessions := {[ addr_String client_addr := 0%nat ]} |> <| px := px waiting_world |>.
Proof. vm_compute. reflexivity. Qed.

Lemma waiting_queue_keys sid : is_Some (queues (px waiting_world) !! sid) -> sid = 0%nat.
Proof.
  intros [q Hq]. assert (Hin : sid ∈ queue_keys waiting_world).
  { apply list_elem_of_fmap. exists (sid, q). split; [done|]. by apply elem_of_map_to_list. }
  assert (E : queue_keys waiting_world = [0%nat]) by (vm_compute; reflexivity).
  rewrite E in Hin. by apply list_elem_of_singleton in Hin.
Qed.

Lemma waiting_state_ok : state_ok waiting_world.
Proof.
  rewrite waiting_world_eq. apply (one_client_ok (px waiting_world)); [reflexivity| |reflexivity|reflexivity| |discriminate].
  - split; [|reflexivity|vm_compute; discriminate].
    apply map_Forall_insert_2; [split; vm_compute; congruence|]. apply map_Forall_insert_2; [split; vm_compute; congruence|].
    apply map_Forall_empty.
  - apply waiting_queue_keys.
Qed.

Lemma failed_startup_cools_down_witness : exists w' lg',
  run_amid event_of (fun B lg => gone_oracle [] B) finishing 0 (failStartup 0 true) waiting_world [] = Some (tt, w', lg') /\
  buffered waiting_world 0 = [wake_packet; [Byte.x02]] /\ session_open 0 waiting_world /\
  queues (px w') = ∅ /\ has_session ended 0 w' /\
  ~ is_Some (fst (begin_startup (w' <| clock := Second |>))).
Proof.
  assert (H : in_company (in_table waiting_world) (failStartup 0 true) _ waiting_world [])
    by (apply failed_startup_cools_down; [exact waiting_state_ok|reflexivity..]).
  destruct (company_run _ (fun B lg => gone_oracle [] B) _ _ _ (fun _ w' _ => bool_decide (clock w' <= Second)) H)
    as ([] & w' & lg' & R & P & Hc); [vm_compute; reflexivity|].
  destruct P as (_ & P1 & _ & _ & P2 & _ & _ & now & Hnow & P3). apply bool_decide_eq_true in Hc.
  exists w', lg'. split; [exact R|]. split; [exact (proj1 waiting_world_buffered)|].
  split; [exact (proj2 waiting_world_buffered)|]. split; [exact P1|].
  split; [apply (P2 (addr_String client_addr) 0%nat); reflexivity|].
  rewrite (P3 Second Hc). intros Hn. specialize (Hn eq_refl).
  change (clock waiting_world) with 0 in Hnow. change (StartupFailureCooldown _) with (5 * Second) in Hn.
  unfold Add, Second in *. lia.
Defined.
