(* ===== verification/StoreRuns.v ===== *)
(** * StoreRuns: the expiry of idle sessions

    What one sweep of the session table does while the goroutines of the sessions run: it
    takes out and closes exactly the idle ones. *)
From S2P Require Import Prelude Errors Conc Amid World Session Store Proxy Invariant Buffers Rules.
From S2P Require Import Tokens SessionLogic StoreLogic StartupLogic ProxyLogic Reachable Scenario.
From S2P Require Import ProxyRuns Company StartupRuns MonitorRuns.

Open Scope Z_scope.

(** An open session without activity since [cutoff]. *)
Definition idle_session (cutoff : Z) (s : Session) : bool := negb (closed s) && Before (LastActivity s) cutoff.

Lemma idle_session_true cutoff s : idle_session cutoff s = true <-> closed s = false /\ LastActivity s < cutoff.
Proof. unfold idle_session, Before. rewrite andb_true_iff, negb_true_iff, bool_decide_eq_true. done. Qed.

Lemma expire_session_idle cutoff s :
  expire_session cutoff s = if idle_session cutoff s then (true, s <| closed := true |>) else (false, s).
Proof. unfold expire_session, idle_session. by destruct (closed s), (Before _ _). Qed.

Lemma idle_session_false cutoff s : idle_session cutoff s = false <-> closed s = true \/ cutoff <= LastActivity s.
Proof.
  unfold idle_session, Before. rewrite andb_false_iff, negb_false_iff, bool_decide_eq_false. split; intros [?|?]; auto; right; lia.
Qed.

(** Closed with its last activity before [cutoff]. *)
Definition past (cutoff : Z) (s : Session) : Prop := closed s = true /\ LastActivity s < cutoff.

Lemma past_le cutoff s s' : session_le s s' -> past cutoff s -> past cutoff s'.
Proof. intros [] [Hc Hl]. split; [auto|]. unfold LastActivity in *. by rewrite sl_activity. Qed.

(** Closed, or active since [cutoff]; activity is recorded in 64 bits. *)
Definition spared (cutoff : Z) (sid : nat) (w : world) : Prop :=
  clock w < two63 -> its (fun s => closed s = true \/ cutoff <= LastActivity s) sid w.

(** A cutoff that is not in the future. *)
Definition cutoff_ok (cutoff : Z) (w : world) : Prop := - two63 <= cutoff <= clock w.

Lemma cutoff_ok_run cutoff w w' : sessions_run w w' -> cutoff_ok cutoff w -> cutoff_ok cutoff w'.
Proof. intros Hr. unfold cutoff_ok. pose proof (ru_clock _ _ Hr). lia. Qed.

(** Activity is only recorded with the current time. *)
Lemma activity_run cutoff w w' sid s s' :
  cutoff_ok cutoff w -> sessions_run w w' -> clock w' < two63 ->
  heap w !! sid = Some s -> heap w' !! sid = Some s' ->
  LastActivity s' = LastActivity s \/ cutoff <= LastActivity s'.
Proof.
  intros Hc Hr Hw Hs Hs'. destruct (ru_heap _ _ Hr _ _ Hs) as (s2 & Hs2 & Hrun). rewrite Hs' in Hs2. injection Hs2 as <-.
  destruct (sr_activity _ _ _ _ Hrun) as [E|(t & Ht & E)]; [left|right]; unfold LastActivity, fromUnixNano; rewrite E; [done|].
  unfold cutoff_ok in Hc. unfold UnixNano. rewrite int64_id; [lia|]. unfold in_int64. lia.
Qed.

Lemma spared_run cutoff sid w w' :
  cutoff_ok cutoff w -> sessions_run w w' -> spared cutoff sid w -> spared cutoff sid w'.
Proof.
  intros Hc Hr Hsp Hw s' Hs'. destruct (heap w !! sid) as [s|] eqn:Hs; [|by rewrite (ru_none _ _ Hr) in Hs'].
  assert (Hw0 : clock w < two63) by (pose proof (ru_clock _ _ Hr); lia).
  destruct (Hsp Hw0 _ Hs) as [Hcl|Ha].
  - left. destruct (ru_heap _ _ Hr _ _ Hs) as (s2 & Hs2 & [[] _ _ _]). rewrite Hs' in Hs2. injection Hs2 as <-. auto.
  - right. destruct (activity_run _ _ _ _ _ _ Hc Hr Hw Hs Hs') as [->|]; done.
Qed.

(** Who is idle now has been idle all along. *)
Lemma idle_before cutoff sid w w' s s' :
  cutoff_ok cutoff w -> sessions_run w w' -> clock w' < two63 ->
  heap w !! sid = Some s -> heap w' !! sid = Some s' -> idle_session cutoff s' = true -> idle_session cutoff s = true.
Proof.
  intros Hc Hr Hw Hs Hs'. rewrite !idle_session_true. intros [Hcl Hl].
  destruct (activity_run _ _ _ _ _ _ Hc Hr Hw Hs Hs') as [E|]; [|lia]. rewrite <- E. split; [|done].
  destruct (closed s) eqn:Hcs; [|done]. destruct (ru_heap _ _ Hr _ _ Hs) as (s2 & Hs2 & [[] _ _ _]).
  rewrite Hs' in Hs2. injection Hs2 as <-. rewrite sl_closed in Hcl; done.
Qed.

(** ** One session *)

Lemma expire_runs sid cutoff w : sessions_run w (snd (on_session false sid (expire_session cutoff) w)).
Proof.
  rewrite on_session_upd. apply upd_session_runs. intros s _. rewrite expire_session_idle.
  destruct (idle_session cutoff s) eqn:Hc; simpl; [|apply session_runs_refl]. apply idle_session_true in Hc as [Hc _].
  go_session_runs.
Qed.

Lemma company_TryExpire (these : nat -> Prop) sid cutoff w lg :
  these sid -> cutoff_ok cutoff w ->
  in_company these (TryExpire sid cutoff)
    (fun expired w' lg' => lg' = lg /\ sessions_run w w' /\
       if expired : bool
       then its (past cutoff) sid w' /\ (clock w' < two63 -> its (fun s => idle_session cutoff s = true) sid w)
       else spared cutoff sid w') w lg.
Proof.
  intros Hin Hc w1 Hr1. pose proof (expire_runs sid cutoff w1) as Hx. pose proof (cutoff_ok_run _ _ _ Hr1 Hc) as Hc1.
  unfold on_session in *. cbn [bind].
  destruct (heap w1 !! sid) as [s|] eqn:Hs; [rewrite expire_session_idle in *; destruct (idle_session cutoff s) eqn:Hi|].
  - simpl in Hx. set (w2 := w1 <| heap := _ |>) in *. split; [by apply run_moves|].
    assert (H2 : its (past cutoff) sid w2).
    { intros s0. simpl. rewrite lookup_insert_eq. intros [= <-]. split; [done|]. by apply idle_session_true in Hi as [_ Hi]. }
    eapply company_call.
    + apply (amid_closeOnce_Do sessions_run heap_moves); [done|apply run_moves|apply run_moves| |].
      * intros w3 s3 Hs3 Ho. exists sid, s3. auto.
      * intros w3 lg3 Hr3. apply (amid_closeSocket sessions_run heap_moves); [done|apply run_moves|apply run_moves|].
        eapply its_moves; [|by apply run_moves|intros s0 Hs0; by apply (H2 s0)]. intros ? ? [] ?. auto.
    + intros a w3 lg3 (-> & Hr3 & _) w4 Hr4. split; [done|].
      assert (Hr : sessions_run w2 w4) by (by etransitivity). split; [by etransitivity; [|etransitivity]|]. split.
      * eapply its_moves; [apply past_le|by apply run_moves|done].
      * intros Hw s0 Hs0. eapply (idle_before _ _ w w1); [done|done| |done|done|done].
        pose proof (ru_clock _ _ Hx). pose proof (ru_clock _ _ Hr). lia.
  - split; [by apply run_moves|]. intros w2 Hr2. split; [done|]. split; [by etransitivity; [|etransitivity]|].
    eapply spared_run; [|exact Hr2|]; [done|]. intros _ s0. simpl. rewrite lookup_insert_eq. intros [= <-].
    by apply idle_session_false.
  - split; [by apply run_moves|]. intros w2 Hr2. split; [done|]. split; [by etransitivity|].
    intros _ s0 Hs0. by rewrite (ru_none _ _ Hr2) in Hs0.
Qed.

(** ** The whole table *)

(** The table with the entries of [w'], and otherwise [w]. *)
Definition with_table (w w' : world) : world := w <| sessions := sessions w' |>.

(** What visiting [keys] does: it has taken out the sessions [gone]. *)
Record sweep (cutoff : Z) (keys : list string) (w w' : world) (gone : list nat) : Prop := {
  sw_run : sessions_run (with_table w w') w';
  sw_rest : forall key, key ∉ keys -> sessions w' !! key = sessions w !! key;
  sw_gone : forall sid, sid ∈ gone -> in_table w sid;
  sw_count : len gone + store_len w' = store_len w;
  sw_keys : forall key sid, key ∈ keys -> sessions w !! key = Some sid ->
    (sessions w' !! key = Some sid /\ spared cutoff sid w') \/
    (sessions w' !! key = None /\ sid ∈ gone /\ its (past cutoff) sid w' /\
     (clock w' < two63 -> its (fun s => idle_session cutoff s = true) sid w));
  sw_none : forall key, sessions w !! key = None -> sessions w' !! key = None }.

Lemma with_table_run w1 w2 w' : sessions_run w1 w2 -> sessions_run (with_table w1 w') (with_table w2 w').
Proof. by apply (run_beside (fun w => with_table w w')). Qed.

(** The others may act before and after. *)
Lemma sweep_later cutoff keys w w1 w2 gone :
  cutoff_ok cutoff w -> sweep cutoff keys w w1 gone -> sessions_run w1 w2 -> sweep cutoff keys w w2 gone.
Proof.
  intros Hc [R1 R2 R3 R4 R5 R6] Hr. destruct (run_sessions _ _ Hr) as (E & _ & _).
  assert (Hc1 : cutoff_ok cutoff w1) by (by apply (cutoff_ok_run cutoff (with_table w w1))).
  split; unfold store_len, with_table; rewrite ?E; try done.
  - by etransitivity.
  - intros key sid Hk Hs. destruct (R5 _ _ Hk Hs) as [[H1 H2]|(H1 & H2 & H3 & H4)]; [left|right].
    + split; [done|]. by eapply spared_run.
    + split_and!; try done.
      * eapply its_moves; [apply past_le|by apply run_moves|done].
      * intros Hw. apply H4. pose proof (ru_clock _ _ Hr). lia.
Qed.

Lemma sweep_earlier cutoff keys w w1 w2 gone :
  cutoff_ok cutoff w -> sessions_run w w1 -> sweep cutoff keys w1 w2 gone -> sweep cutoff keys w w2 gone.
Proof.
  intros Hc Hr [R1 R2 R3 R4 R5 R6]. destruct (run_sessions _ _ Hr) as (E & _ & _).
  split.
  - etransitivity; [by apply with_table_run|done].
  - by rewrite <- E.
  - intros sid Hs. unfold in_table. rewrite <- E. by apply R3.
  - unfold store_len in *. by rewrite <- E.
  - intros key sid Hk Hs. rewrite <- E in Hs. destruct (R5 _ _ Hk Hs) as [?|(H1 & H2 & H3 & H4)]; [by left|right].
    split_and!; try done. intros Hw s Hs0. destruct (ru_heap _ _ Hr _ _ Hs0) as (s1 & Hs1 & _).
    eapply (idle_before _ _ w w1); [done|done| |done|done|by apply H4].
    pose proof (ru_clock _ _ R1) as Hcl. simpl in Hcl. lia.
  - by rewrite <- E.
Qed.

Lemma sweep_nil cutoff w : sweep cutoff [] w w [].
Proof.
  split; try done.
  - unfold with_table. destruct w. reflexivity.
  - intros sid. set_solver.
  - intros key sid. set_solver.
Qed.

(** One key, then the others. *)
Lemma sweep_cons cutoff key keys w w1 w2 gone1 gone2 :
  cutoff_ok cutoff w -> key ∉ keys -> sweep cutoff [key] w w1 gone1 -> sweep cutoff keys w1 w2 gone2 ->
  sweep cutoff (key :: keys) w w2 (gone1 ++ gone2).
Proof.
  intros Hc Hn [R1 R2 R3 R4 R5 R6] [S1 S2 S3 S4 S5 S6].
  assert (Hr : sessions_run (with_table w w2) (with_table w1 w2)) by (apply (with_table_run _ _ w2) in R1; exact R1).
  assert (Hc1 : cutoff_ok cutoff w1) by (by apply (cutoff_ok_run cutoff (with_table w w1))).
  split.
  - by etransitivity.
  - intros k Hk. apply not_elem_of_cons in Hk as [Hk1 Hk2]. rewrite S2, R2; [done| |done]. set_solver.
  - intros sid [Hs|Hs]%elem_of_app; [by apply R3|]. destruct (S3 _ Hs) as [k Hk]. exists k.
    destruct (decide (k = key)) as [->|]; [|rewrite <- R2; [done|set_solver]].
    destruct (sessions w !! key) as [sid0|] eqn:Hs0; [|by rewrite R6 in Hk].
    destruct (R5 key sid0) as [[H1 _]|(H1 & _)]; [set_solver|done|congruence|congruence].
  - rewrite len_app. lia.
  - intros k sid [->|Hk]%elem_of_cons Hs.
    + destruct (R5 key sid) as [[H1 H2]|(H1 & H2 & H3 & H4)]; [set_solver|done|left|right].
      * rewrite S2 by done. split; [done|]. by apply (spared_run cutoff sid (with_table w1 w2)).
      * rewrite S2 by done. split_and!; [done|set_solver| |].
        -- eapply its_moves; [apply past_le|by apply run_moves|exact H3].
        -- intros Hw. apply H4. pose proof (ru_clock _ _ S1) as Hcl. simpl in Hcl. lia.
    + assert (k <> key) by (by intros ->). rewrite <- R2 in Hs by set_solver.
      destruct (S5 _ _ Hk Hs) as [?|(H1 & H2 & H3 & H4)]; [by left|right]. split_and!; [done|set_solver|done|].
      intros Hw s Hs0. destruct (ru_heap _ _ R1 _ _ Hs0) as (s1 & Hs1 & _).
      eapply (idle_before _ _ (with_table w w1) w1); [done|done| |done|done|by apply H4].
      pose proof (ru_clock _ _ S1) as Hcl. simpl in Hcl. lia.
  - intros k Hk. destruct (decide (k = key)) as [->|]; [rewrite S2 by done; by apply R6|].
    apply S6. by rewrite R2 by set_solver.
Qed.

(** Visiting one key. *)
Lemma sweep_absent cutoff key w : sessions w !! key = None -> sweep cutoff [key] w w [].
Proof.
  intros Hk. destruct (sweep_nil cutoff w) as [R1 R2 R3 R4 R5 R6]. split; try done.
  intros k sid ->%list_elem_of_singleton. congruence.
Qed.

Lemma sweep_kept cutoff key sid w w1 :
  sessions w !! key = Some sid -> sessions_run w w1 -> spared cutoff sid w1 -> sweep cutoff [key] w w1 [].
Proof.
  intros Hk Hr Hsp. destruct (run_sessions _ _ Hr) as (E & _ & _).
  split; unfold store_len, with_table; rewrite ?E; try done.
  - etransitivity; [|exact Hr]. destruct w. reflexivity.
  - intros i. set_solver.
  - intros k i ->%list_elem_of_singleton Hi. left. split; [done|]. rewrite Hk in Hi. by injection Hi as <-.
Qed.

Lemma sweep_taken cutoff key sid w w1 :
  sessions w !! key = Some sid -> sessions_run w w1 -> its (past cutoff) sid w1 ->
  (clock w1 < two63 -> its (fun s => idle_session cutoff s = true) sid w) ->
  sweep cutoff [key] w (delete_session key w1) [sid].
Proof.
  intros Hk Hr Hp Hi. destruct (run_sessions _ _ Hr) as (E & _ & _). split.
  - apply (run_beside (fun w => with_table w (delete_session key w1))) in Hr; [|done|done]. exact Hr.
  - intros k Hn. simpl. rewrite lookup_delete_ne by set_solver. by rewrite E.
  - intros i ->%list_elem_of_singleton. by exists key.
  - unfold store_len. simpl. rewrite E, map_size_delete_Some by (by eexists).
    assert (size (sessions w) <> 0%nat) by (apply (map_size_ne_0_lookup_2 _ key); by eexists).
    rewrite len_cons. change (len []) with 0. lia.
  - intros k i ->%list_elem_of_singleton Hs. rewrite Hk in Hs. injection Hs as <-. right.
    split; [apply lookup_delete_eq|]. split; [set_solver|]. by split.
  - intros k Hn. simpl. rewrite lookup_delete_None. right. by rewrite E.
Qed.

Lemma company_expire_each these cutoff keys : forall w toClose lg,
  (forall sid, in_table w sid -> these sid) -> NoDup keys -> cutoff_ok cutoff w ->
  in_company these (expire_each cutoff keys toClose)
    (fun r w' lg' => lg' = lg /\ exists gone, r = (toClose ++ gone)%list /\ sweep cutoff keys w w' gone) w lg.
Proof.
  induction keys as [|key keys IH]; intros w toClose lg Hin Hnd Hc; cbn [expire_each].
  { intros w1 Hr. split; [done|]. exists []. rewrite app_nil_r. split; [done|].
    by eapply sweep_later; [|apply sweep_nil|]. }
  apply NoDup_cons in Hnd as [Hni Hnd]. intros w1 Hr1. split; [reflexivity|]. cbn [bind].
  pose proof (cutoff_ok_run _ _ _ Hr1 Hc) as Hc1. destruct (run_sessions _ _ Hr1) as (E1 & _ & _).
  (* the rest, behind what was done for [key] *)
  assert (Hrest : forall w2 gone1, sweep cutoff [key] w1 w2 gone1 ->
    in_company these (expire_each cutoff keys (toClose ++ gone1))
      (fun r w' lg' => lg' = lg /\ exists gone, r = (toClose ++ gone)%list /\ sweep cutoff (key :: keys) w w' gone) w2 lg).
  { intros w2 gone1 Hsw. eapply company_mono; [apply IH; [|done|]|].
    - intros sid [k Hk]. apply Hin. exists k. rewrite <- E1. destruct (sessions w1 !! k) as [sid0|] eqn:Hs0;
        [|by rewrite (sw_none _ _ _ _ _ Hsw) in Hk].
      destruct (decide (k = key)) as [->|Hne].
      + destruct (sw_keys _ _ _ _ _ Hsw key sid0) as [[H1 _]|(H1 & _)]; [set_solver|done|congruence|congruence].
      + rewrite (sw_rest _ _ _ _ _ Hsw) in Hk by set_solver. congruence.
    - by apply (cutoff_ok_run cutoff (with_table w1 w2)); [apply Hsw|].
    - intros r w' lg' (-> & gone2 & -> & Hsw2). split; [done|]. exists (gone1 ++ gone2)%list.
      rewrite app_assoc. split; [done|]. eapply sweep_earlier; [done|exact Hr1|]. by eapply sweep_cons. }
  destruct (sessions w1 !! key) as [sid|] eqn:Hk.
  2: { pose proof (Hrest w1 [] (sweep_absent cutoff key w1 Hk)) as Hs. by rewrite app_nil_r in Hs. }
  eapply company_call; [apply company_TryExpire; [apply Hin; exists key; by rewrite <- E1|done]|].
  intros [] w2 lg2 (-> & Hr2 & H2).
  - destruct H2 as [Hp Hi]. intros w3 Hr3. destruct (run_sessions _ _ Hr3) as (E3 & _ & _).
    split; [by split|]. cbn [bind]. apply Hrest. apply sweep_taken; [done|by etransitivity| |].
    + eapply its_moves; [apply past_le|by apply run_moves|done].
    + intros Hw. apply Hi. pose proof (ru_clock _ _ Hr3). lia.
  - pose proof (Hrest w2 [] (sweep_kept cutoff key sid w1 w2 Hk Hr2 H2)) as Hs. by rewrite app_nil_r in Hs.
Qed.

(** What the sweep with [cutoff] means for the session [s] of [key]. *)
Definition swept (cutoff : Z) (key : string) (sid : nat) (s : Session) (w' : world) : Prop :=
  (sessions w' !! key = Some sid /\
     has_session (fun s' => closed s' = true \/ cutoff <= LastActivity s') sid w') \/
  (sessions w' !! key = None /\ idle_session cutoff s = true /\
     has_session (fun s' => ended s' /\ LastActivity s' < cutoff) sid w').

(** The end of a sweep: what it has taken out has been closed and waited for. *)
Lemma sweep_swept cutoff keys w w1 w' gone key sid s :
  state_ok w -> cutoff_ok cutoff w -> sweep cutoff keys w w1 gone -> sessions_run w1 w' ->
  (forall sid, sid ∈ gone -> its waited_for sid w') -> clock w' < two63 -> key ∈ keys ->
  sessions w !! key = Some sid -> heap w !! sid = Some s -> swept cutoff key sid s w'.
Proof.
  intros Hok Hc Hsw Hr Hw Hcl Hin Hk Hs. apply (sweep_later _ _ _ _ _ _ Hc Hsw) in Hr. destruct Hr as [R1 _ _ _ R5 _].
  destruct (ru_heap _ _ R1 sid s Hs) as (s' & Hs' & Hrun).
  destruct (R5 _ _ Hin Hk) as [[H1 H2]|(H1 & H2 & H3 & H4)]; [left|right].
  - split; [done|]. exists s'. split; [done|]. by apply H2.
  - split; [done|]. split; [by apply H4|]. exists s'. split; [done|]. destruct (H3 _ Hs') as [Hcd Hl].
    destruct (Hw _ H2 _ Hs') as [Ho Hg]. split; [|done]. split; [|done]. split; [|done].
    apply (so_once _ (sr_ok _ _ _ _ Hrun (st_sessions _ Hok _ _ Hs)) Ho).
Qed.

(** C26. Exactly the idle sessions expire.  While the goroutines of the sessions go on
    reading, writing and recording activity, time passes and the termination signal may come,
    one sweep visits every session of the table, in whatever order: each is either still in
    the table, and then it has been closed by others or was active at the cutoff or later, or
    it has left the table, and then it was open and idle when the sweep began, never recorded
    activity from the cutoff on, is closed with its resources released, and its
    goroutines have been waited for.  The sweep reports how many have left and how many
    remain, leaves the rest of the proxy alone, and blocks only while a session of
    the table that is being closed still has goroutines. *)
Theorem exactly_the_idle_expire cutoff w lg :
  state_ok w -> cutoff_ok cutoff w ->
  in_company (in_table w) (ExpireIdle cutoff)
    (fun r w' lg' =>
       exists expired, r = (expired, store_len w', None) /\ lg' = (lg ++ [EvKeyOrder (session_keys w)])%list /\
         expired + store_len w' = store_len w /\ px w' = px w /\
         (forall key, sessions w !! key = None -> sessions w' !! key = None) /\
         (clock w' < two63 -> forall key sid s, sessions w !! key = Some sid -> heap w !! sid = Some s ->
            swept cutoff key sid s w')) w lg.
Proof.
  intros Hok Hc w1 Hr1. split; [reflexivity|]. cbn [bind]. intros answer. destruct (run_sessions _ _ Hr1) as (E1 & _ & _).
  assert (Ek : session_keys w1 = session_keys w) by (unfold session_keys; by rewrite E1).
  cbn [bind event_of]. rewrite Ek. set (order := range_order _ _).
  assert (Hord : order ≡ₚ session_keys w) by apply range_order_perm.
  refine (company_call _ (expire_each cutoff order []) _ _ _ _ _ _ _).
  { eapply company_later; [exact Hr1|]. apply company_expire_each; [done| |done].
    rewrite Hord. apply NoDup_fst_map_to_list. }
  intros r w2 lg2 (-> & gone & -> & Hsw) w3 Hr3. split; [reflexivity|]. cbn [bind].
  destruct (run_sessions _ _ Hr3) as (E3 & _ & _).
  refine (company_call _ (close_each gone None) _ _ _ _ _ _ _).
  { apply company_close_each. apply Hsw. }
  intros r w4 lg4 (-> & -> & Hr4 & Hw4) w5 Hr5. assert (Hr35 : sessions_run w3 w5) by (by etransitivity).
  assert (Hr25 : sessions_run w2 w5) by (by etransitivity).
  destruct (run_sessions _ _ Hr35) as (E5 & _ & _).
  pose proof (sweep_later _ _ _ _ _ _ Hc Hsw Hr25) as Hsw5. exists (len gone).
  split; [by unfold store_len; rewrite E5|]. split; [done|]. split; [apply Hsw5|].
  split; [apply (run_sessions _ _ (sw_run _ _ _ _ _ Hsw5))|]. split; [apply Hsw5|].
  intros Hcl key sid s Hk Hs. eapply sweep_swept; [done|done|exact Hsw|exact Hr25| |done| |exact Hk|exact Hs].
  - intros i Hi. eapply its_run; [apply waited_for_run|exact Hr5|by apply Hw4].
  - rewrite Hord. apply list_elem_of_fmap. exists (key, sid). split; [done|]. by apply elem_of_map_to_list.
Qed.

(** One client idle since time 0 and one active at the cutoff, all their goroutines alive. *)
Definition active_session (port lastActivity : Z) : Session :=
  mkSession (mkUDPAddr "192.0.2.7" port) 1500 lastActivity false OnceNew false false false 2.

Definition two_clients_world : world :=
  sample_world <| clock := 2 * Second |> <| heap := {[ 0%nat := active_session 1 0; 1%nat := active_session 2 Second ]} |> <| nextSession := 2%nat |>
               <| sessions := {[ "192.0.2.7:1"%string := 0%nat; "192.0.2.7:2"%string := 1%nat ]} |>
               <| px := px sample_world |>.

Lemma two_clients_ok : state_ok two_clients_world.
Proof.
  apply sample_state_ok; [reflexivity|apply sample_buffers_ok|reflexivity|reflexivity| |reflexivity|vm_compute; lia| |].
  - change (queues (px sample_world)) with (∅ : gmap nat packetQueue). intros sid [q Hq]. by rewrite lookup_empty in Hq.
  - intros key sid. rewrite lookup_insert_Some, lookup_singleton_Some.
    intros [[<- <-]|[_ [<- <-]]]; eexists; (split; [reflexivity|vm_compute; reflexivity]).
  - intros sid s. rewrite lookup_insert_Some, lookup_singleton_Some.
    intros [[<- <-]|[_ [<- <-]]]; (split; [split; discriminate|lia]).
Qed.

Lemma exactly_the_idle_expire_witness : exists expired w' lg',
  run_amid event_of (fun B lg => wake_oracle [] B) finishing 0 (ExpireIdle Second) two_clients_world [] =
    Some ((expired, store_len w', None), w', lg') /\
  swept Second "192.0.2.7:1" 0 (active_session 1 0) w' /\
  swept Second "192.0.2.7:2" 1 (active_session 2 Second) w' /\
  sessions w' = {[ "192.0.2.7:2"%string := 1%nat ]}.
Proof.
  assert (H : in_company (in_table two_clients_world) (ExpireIdle Second) _ two_clients_world [])
    by (apply exactly_the_idle_expire; [exact two_clients_ok|vm_compute; split; congruence]).
  destruct (company_run _ (fun B lg => wake_oracle [] B) _ _ _
    (fun _ w' _ => bool_decide (clock w' < two63) && bool_decide (sessions w' = {[ "192.0.2.7:2"%string := 1%nat ]})) H)
    as (r & w' & lg' & R & P & Hc); [vm_compute; reflexivity|].
  destruct P as (expired & -> & _ & _ & _ & _ & P). apply andb_true_iff in Hc as [Hc Ht].
  apply bool_decide_eq_true in Hc. apply bool_decide_eq_true in Ht.
  exists expired, w', lg'. split; [exact R|].
  split; [apply (P Hc); reflexivity|]. split; [apply (P Hc); reflexivity|exact Ht].
Defined.
