(* ===== verification/Games.v ===== *)
(** * Games: the wake detector ([pkg/games/palworld.go])

    Which packets count as an attempt to join, and the bounded, rate-limited diagnostic
    of those that do not.  The diagnostic callback is an output of the operations and the
    clock an argument; error texts are kept without their formatted arguments. *)
From S2P Require Import Prelude GoStrings Errors.

Open Scope string_scope.
Open Scope Z_scope.

Definition defaultPalworldStartSignature : string := "09080004bc597e73".

Record PalworldOptions := mkPalworldOptions {
  po_WakePolicy : string;
  po_Signatures : list string;
  po_LogUnmatchedPrefixes : bool;
  po_DiagnosticPrefixBytes : Z;
  po_DiagnosticInterval : Z }.

#[export] Instance PalworldOptions_eta : Eta PalworldOptions := fun o =>
  mkPalworldOptions (po_WakePolicy o) (po_Signatures o) (po_LogUnmatchedPrefixes o)
    (po_DiagnosticPrefixBytes o) (po_DiagnosticInterval o).

Record PalworldGame := mkPalworldGame {
  wakePolicy : string;
  startSignatures : list bytes;
  logUnmatched : bool;
  diagnosticPrefix : Z;
  diagnosticInterval : Z;
  lastDiagnostic : Z }.

#[export] Instance PalworldGame_eta : Eta PalworldGame := fun g =>
  mkPalworldGame (wakePolicy g) (startSignatures g) (logUnmatched g) (diagnosticPrefix g)
    (diagnosticInterval g) (lastDiagnostic g).

(** The loop over the configured signatures. *)
Fixpoint decode_signatures (encoded : list string) : error + list bytes :=
  match encoded with
  | [] => inr []
  | e :: encoded =>
      match hex_DecodeString (TrimSpace e) with
      | Some (b :: l) =>
          match decode_signatures encoded with
          | inr rest => inr ((b :: l) :: rest)
          | inl err => inl err
          end
      | _ => inl (ErrText "invalid Palworld wake signature")
      end
  end.

Definition NewConfiguredPalworldGame (o : PalworldOptions) : error + PalworldGame :=
  if negb (bool_decide (po_WakePolicy o = "signature")) && negb (bool_decide (po_WakePolicy o = "any"))
  then inl (ErrText "invalid Palworld wake policy")
  else if bool_decide (po_WakePolicy o = "signature") && bool_decide (len (po_Signatures o) = 0)
  then inl (ErrText "at least one Palworld wake signature is required")
  else
    let o := if bool_decide (po_DiagnosticPrefixBytes o <= 0)
             then o <| po_DiagnosticPrefixBytes := 8 |> else o in
    if bool_decide (32 < po_DiagnosticPrefixBytes o)
    then inl (ErrText "palworld diagnostic prefix must not exceed 32 bytes")
    else
      let o := if bool_decide (po_DiagnosticInterval o <= 0)
               then o <| po_DiagnosticInterval := 30 * Second |> else o in
      let game := mkPalworldGame (po_WakePolicy o) [] (po_LogUnmatchedPrefixes o)
        (po_DiagnosticPrefixBytes o) (po_DiagnosticInterval o) zeroTime in
      if bool_decide (po_WakePolicy o = "signature") then
        match decode_signatures (po_Signatures o) with
        | inl err => inl err
        | inr signatures => inr (game <| startSignatures := signatures |>)
        end
      else inr game.

(** [NewPalworldGame]; [None] where the source panics. *)
Definition NewPalworldGame : option PalworldGame :=
  match NewConfiguredPalworldGame
    (mkPalworldOptions "signature" [defaultPalworldStartSignature] false 0 0) with
  | inr game => Some game
  | inl _ => None
  end.

(** [len(data) >= len(signature) && bytes.Equal(data[:len(signature)], signature)]. *)
Definition matches (data signature : bytes) : bool :=
  bool_decide (len signature <= len data) && bool_decide (take (length signature) data = signature).

(** [diagnoseUnmatched]: what the callback is given, if it is called. *)
Definition diagnoseUnmatched (now : Z) (data : bytes) (g : PalworldGame) : option (Z * bytes) * PalworldGame :=
  if negb (logUnmatched g) || bool_decide (len data = 0) then (None, g)
  else if negb (IsZero (lastDiagnostic g)) && bool_decide (Sub now (lastDiagnostic g) < diagnosticInterval g)
  then (None, g)
  else
    let prefixLength := Z.min (len data) (diagnosticPrefix g) in
    (Some (len data, take (Z.to_nat prefixLength) data), g <| lastDiagnostic := now |>).

Definition DetectStart (now : Z) (data : bytes) (g : PalworldGame) : bool * option (Z * bytes) * PalworldGame :=
  if bool_decide (wakePolicy g = "any") then (bool_decide (0 < len data), None, g)
  else if existsb (matches data) (startSignatures g) then (true, None, g)
  else let '(d, g) := diagnoseUnmatched now data g in (false, d, g).

(** ** What wakes the server *)

Lemma matches_prefix data signature : matches data signature = true <-> signature `prefix_of` data.
Proof.
  unfold matches. rewrite andb_true_iff, !bool_decide_eq_true. split.
  - intros [_ Ht]. exists (drop (length signature) data). by rewrite <- Ht at 1; rewrite take_drop.
  - intros [rest ->]. rewrite len_app, take_app_length. pose proof (len_nonneg rest). split; [lia|done].
Qed.

Lemma decode_signatures_spec encoded signatures :
  decode_signatures encoded = inr signatures ->
  Forall2 (fun e s => hex_DecodeString (TrimSpace e) = Some s /\ s <> []) encoded signatures.
Proof.
  revert signatures. induction encoded as [|e encoded IH]; intros signatures; simpl; [by intros [= <-]|].
  destruct (hex_DecodeString (TrimSpace e)) as [[|b l]|] eqn:He; try done.
  destruct (decode_signatures encoded) as [err|rest]; [done|]. intros [= <-].
  constructor; [by rewrite He|by apply IH].
Qed.

(** What a successful construction gives. *)
Lemma NewConfigured_inv o g :
  NewConfiguredPalworldGame o = inr g ->
  wakePolicy g = po_WakePolicy o /\ (po_WakePolicy o = "signature" \/ po_WakePolicy o = "any") /\
  logUnmatched g = po_LogUnmatchedPrefixes o /\ 1 <= diagnosticPrefix g <= 32 /\ 0 < diagnosticInterval g /\
  lastDiagnostic g = zeroTime /\
  if bool_decide (po_WakePolicy o = "signature")
  then decode_signatures (po_Signatures o) = inr (startSignatures g) else startSignatures g = [].
Proof.
  unfold NewConfiguredPalworldGame. destruct (_ && _) eqn:Hp; [done|].
  assert (Hpol : po_WakePolicy o = "signature" \/ po_WakePolicy o = "any").
  { apply andb_false_iff in Hp as [Hp|Hp]; go_bool; tauto. }
  clear Hp. cbv zeta. destruct (_ && _); [done|]. set (o1 := if bool_decide (po_DiagnosticPrefixBytes o <= 0) then _ else _).
  assert (H1 : 1 <= po_DiagnosticPrefixBytes o1 /\ po_WakePolicy o1 = po_WakePolicy o /\
    po_Signatures o1 = po_Signatures o /\ po_LogUnmatchedPrefixes o1 = po_LogUnmatchedPrefixes o).
  { unfold o1. case_bool_decide; simpl; split_and!; try done; lia. }
  destruct H1 as (A1 & A2 & A3 & A4). case_bool_decide as H32; [done|].
  set (o2 := if bool_decide (po_DiagnosticInterval o1 <= 0) then _ else _).
  assert (H2 : 0 < po_DiagnosticInterval o2 /\ po_WakePolicy o2 = po_WakePolicy o1 /\
    po_Signatures o2 = po_Signatures o1 /\ po_LogUnmatchedPrefixes o2 = po_LogUnmatchedPrefixes o1 /\
    po_DiagnosticPrefixBytes o2 = po_DiagnosticPrefixBytes o1).
  { unfold o2. case_bool_decide; simpl; split_and!; try done; unfold Second; lia. }
  destruct H2 as (B1 & B2 & B3 & B4 & B5). rewrite <- A2, <- B2.
  case_bool_decide as Hs.
  - destruct (decode_signatures _) as [err|sigs] eqn:Hd; [done|]. intros [= <-]. simpl.
    rewrite B5. rewrite <- A3, <- B3, Hd. split_and!; try done; try congruence; lia.
  - intros [= <-]. simpl. rewrite B5. split_and!; try done; try congruence; lia.
Qed.

(** C28. What wakes the server.  A configured detector accepts a packet exactly when it is not
    empty and the policy is [any], or one of the configured signatures, decoded and freed
    of surrounding white space, is a prefix of it; no packet shorter than every signature,
    and no empty packet, is ever accepted, and what was seen before does not matter. *)
Theorem detector_accepts_exactly o g now data :
  NewConfiguredPalworldGame o = inr g ->
  forall last, let g' := g <| lastDiagnostic := last |> in
  fst (fst (DetectStart now data g')) = true <->
  data <> [] /\
  (po_WakePolicy o = "any" \/
   po_WakePolicy o = "signature" /\
   exists encoded signature, encoded ∈ po_Signatures o /\
     hex_DecodeString (TrimSpace encoded) = Some signature /\ signature `prefix_of` data).
Proof.
  intros Hn last g'. destruct (NewConfigured_inv _ _ Hn) as (E1 & E2 & _ & _ & _ & _ & E3).
  unfold DetectStart. simpl. rewrite E1.
  destruct (decide (po_WakePolicy o = "any")) as [Ha|Ha].
  - rewrite (bool_decide_eq_true_2 _ Ha). simpl. rewrite bool_decide_eq_true. unfold len. destruct data; simpl; split; try lia; try naive_solver.
  - rewrite (bool_decide_eq_false_2 _ Ha). destruct E2 as [E2|]; [|done]. rewrite E2 in E3. simpl in E3.
    apply decode_signatures_spec in E3.
    transitivity (exists signature, signature ∈ startSignatures g /\ signature `prefix_of` data).
    + destruct (existsb _ _) eqn:Hx.
      * split; [|done]. intros _. apply existsb_exists in Hx as (s & Hin & Hm).
        exists s. split; [by apply list_elem_of_In|by apply matches_prefix].
      * destruct (diagnoseUnmatched now data g') as [d g2] eqn:Hd. simpl. split; [done|]. intros (s & Hin & Hm).
        apply not_true_iff_false in Hx. destruct Hx. apply existsb_exists. exists s.
        split; [by apply list_elem_of_In|by apply matches_prefix].
    + split.
      * intros (s & Hin & Hp). apply list_elem_of_lookup in Hin as [i Hi].
        destruct (Forall2_lookup_r _ _ _ _ _ E3 Hi) as (e & He & Hd & Hne).
        split; [intros ->; by apply prefix_nil_inv in Hp|]. right. split; [done|].
        exists e, s. split; [by eapply list_elem_of_lookup_2|done].
      * intros (_ & [|(_ & e & s & Hin & Hd & Hp)]); [done|].
        apply list_elem_of_lookup in Hin as [i Hi]. destruct (Forall2_lookup_l _ _ _ _ _ E3 Hi) as (s' & Hs' & Hd' & _).
        exists s'. split; [by eapply list_elem_of_lookup_2|]. congruence.
Qed.

Definition sample_detector_options : PalworldOptions := mkPalworldOptions "signature" [" 0102 "; "AAbb"] true 2 Minute.

Lemma detector_accepts_exactly_witness : exists g,
  NewConfiguredPalworldGame sample_detector_options = inr g /\
  fst (fst (DetectStart 0 [Byte.xaa; Byte.xbb; Byte.xcc] (g <| lastDiagnostic := 0 |>))) = true.
Proof.
  destruct (NewConfiguredPalworldGame sample_detector_options) as [err|g] eqn:Hn; [vm_compute in Hn; discriminate|].
  exists g. split; [reflexivity|].
  apply (detector_accepts_exactly _ g 0 [Byte.xaa; Byte.xbb; Byte.xcc] Hn 0). split; [discriminate|].
  right. split; [reflexivity|]. exists "AAbb", [Byte.xaa; Byte.xbb].
  split; [right; left|]. split; [vm_compute; reflexivity|]. by exists [Byte.xcc].
Defined.

(** The default game is built without panicking, and its signature is the one of the source. *)
Example NewPalworldGame_total : exists g, NewPalworldGame = Some g /\
  map hex_EncodeToString (startSignatures g) = [defaultPalworldStartSignature].
Proof. eexists. split; vm_compute; reflexivity. Qed.

(** ** The diagnostic *)

(** A detector over packets that arrive at given times: the diagnostics with their times. *)
Fixpoint diagnostics (arrivals : list (Z * bytes)) (g : PalworldGame) : list (Z * (Z * bytes)) :=
  match arrivals with
  | [] => []
  | (now, data) :: arrivals =>
      let '(_, d, g) := DetectStart now data g in
      match d with
      | Some d => (now, d) :: diagnostics arrivals g
      | None => diagnostics arrivals g
      end
  end.

(** Every two diagnostics in a row are at least [interval] apart, the first one after [last]. *)
Fixpoint spaced (interval : Z) (last : option Z) (l : list (Z * (Z * bytes))) : Prop :=
  match l with
  | [] => True
  | (t, _) :: l => match last with Some t0 => t0 + interval <= t | None => True end /\ spaced interval (Some t) l
  end.

Lemma DetectStart_diagnostic now data g d g' b :
  DetectStart now data g = (b, Some d, g') ->
  b = false /\ logUnmatched g = true /\ d = (len data, take (Z.to_nat (Z.min (len data) (diagnosticPrefix g))) data) /\
  (lastDiagnostic g = zeroTime \/ ~ Sub now (lastDiagnostic g) < diagnosticInterval g) /\
  g' = g <| lastDiagnostic := now |>.
Proof.
  unfold DetectStart, diagnoseUnmatched, IsZero. case_bool_decide; [done|]. destruct (existsb _ _); [done|].
  destruct (logUnmatched g); simpl; [|done]. case_bool_decide; [done|].
  case_bool_decide as Hz; simpl; [|case_bool_decide as Hs; [done|]]; intros [= <- <- <-]; split_and!; auto.
Qed.

Lemma DetectStart_silent now data g b g' : DetectStart now data g = (b, None, g') -> g' = g.
Proof.
  unfold DetectStart, diagnoseUnmatched. case_bool_decide; [by intros [= _ <-]|].
  destruct (existsb _ _); [by intros [= _ <-]|]. destruct (_ || _); [by intros [= _ <-]|].
  destruct (_ && _); [by intros [= _ <-]|done].
Qed.

Lemma diagnostics_spaced arrivals : forall g,
  0 <= diagnosticInterval g <= maxDuration -> Forall (fun x => zeroTime < fst x) arrivals ->
  spaced (diagnosticInterval g) (if bool_decide (lastDiagnostic g = zeroTime) then None else Some (lastDiagnostic g))
    (diagnostics arrivals g).
Proof.
  induction arrivals as [|[now data] arrivals IH]; intros g Hi Ht; simpl; [done|].
  apply Forall_cons in Ht as [Hn Ht]. destruct (DetectStart now data g) as [[b [d|]] g'] eqn:Hd.
  - apply DetectStart_diagnostic in Hd as (_ & _ & _ & Hs & ->). simpl. split.
    + case_bool_decide; [done|]. destruct Hs as [|Hs]; [done|]. rewrite Sub_lt in Hs by done. lia.
    + specialize (IH (g <| lastDiagnostic := now |>)). rewrite bool_decide_eq_false_2 in IH.
      * by apply IH.
      * simpl in Hn |- *. lia.
  - apply DetectStart_silent in Hd as ->. by apply IH.
Qed.

Lemma diagnostics_bounded arrivals : forall g t n prefix,
  (t, (n, prefix)) ∈ diagnostics arrivals g ->
  len prefix <= Z.max 0 (diagnosticPrefix g) /\ exists data, (t, data) ∈ arrivals /\ n = len data /\ prefix `prefix_of` data.
Proof.
  induction arrivals as [|[now data] arrivals IH]; intros g t n prefix; simpl; [by intros ?%elem_of_nil|].
  destruct (DetectStart now data g) as [[b [d|]] g'] eqn:Hd.
  - apply DetectStart_diagnostic in Hd as (_ & _ & -> & _ & ->). intros [[= -> -> ->]|Hin]%elem_of_cons.
    + split.
      * unfold len. rewrite length_take. lia.
      * exists data. split; [left|]. split; [done|]. exists (drop (Z.to_nat (Z.min (len data) (diagnosticPrefix g))) data).
        by rewrite take_drop.
    + destruct (IH _ _ _ _ Hin) as (H1 & d & H2 & H3). split; [done|]. exists d. split; [by right|done].
  - apply DetectStart_silent in Hd as ->. intros Hin. destruct (IH _ _ _ _ Hin) as (H1 & d & H2 & H3).
    split; [done|]. exists d. split; [by right|done].
Qed.

(** C29. Diagnostics disclose little.  Over any sequence of packets, whatever their times, two
    diagnostics in a row are at least the configured interval apart, and each reports the
    length of a packet that arrived then and a prefix of it no longer than the configured
    number of bytes, which is at most 32. *)
Theorem diagnostics_disclose_little o g arrivals :
  NewConfiguredPalworldGame o = inr g -> diagnosticInterval g <= maxDuration ->
  Forall (fun x => zeroTime < fst x) arrivals ->
  spaced (diagnosticInterval g) None (diagnostics arrivals g) /\
  forall t n prefix, (t, (n, prefix)) ∈ diagnostics arrivals g ->
    len prefix <= diagnosticPrefix g <= 32 /\ exists data, (t, data) ∈ arrivals /\ n = len data /\ prefix `prefix_of` data.
Proof.
  intros Hn Hm Ht. destruct (NewConfigured_inv _ _ Hn) as (_ & _ & _ & E1 & E2 & E3 & _). split.
  - pose proof (diagnostics_spaced arrivals g ltac:(lia) Ht) as Hs. by rewrite bool_decide_eq_true_2 in Hs.
  - intros t n prefix Hin. destruct (diagnostics_bounded _ _ _ _ _ Hin) as [H1 H2]. split; [lia|done].
Qed.

Lemma diagnostics_disclose_little_witness : exists g,
  NewConfiguredPalworldGame sample_detector_options = inr g /\
  diagnostics [(0, [Byte.x09; Byte.x08; Byte.x07]); (Second, [Byte.x06]); (Minute, [Byte.x05])] g =
    [(0, (3, [Byte.x09; Byte.x08])); (Minute, (1, [Byte.x05]))] /\
  spaced (diagnosticInterval g) None
    (diagnostics [(0, [Byte.x09; Byte.x08; Byte.x07]); (Second, [Byte.x06]); (Minute, [Byte.x05])] g).
Proof.
  destruct (NewConfiguredPalworldGame sample_detector_options) as [err|g] eqn:Hn; [vm_compute in Hn; discriminate|].
  exists g. split; [reflexivity|].
  assert (Hg : inr g = NewConfiguredPalworldGame sample_detector_options :> error + PalworldGame) by (symmetry; exact Hn).
  vm_compute in Hg. injection Hg as ->. split; [vm_compute; reflexivity|].
  apply (diagnostics_disclose_little _ _ _ Hn); [vm_compute; congruence|].
  repeat constructor.
Defined.
