(* ===== verification/A2S.v ===== *)
(** * A2S: the information response of the Source query protocol ([pkg/readiness/a2s.go])

    [validA2SInfo], the routine that walks over the response with an offset, and the
    grammar of the responses it accepts, given by an encoder. *)
From S2P Require Import Prelude.

(** [append([]byte{0xff, 0xff, 0xff, 0xff, 0x54}, []byte("Source Engine Query\x00")...)]. *)
Definition a2sInfoQuery : bytes :=
  [Byte.xff; Byte.xff; Byte.xff; Byte.xff; Byte.x54] ++
  String.list_byte_of_string "Source Engine Query" ++ [Byte.x00].

(** [for offset < len(response) && response[offset] != 0 { offset++ }]; every round moves
    the offset, so the length of the response is enough fuel. *)
Fixpoint scan (fuel : nat) (response : bytes) (offset : nat) : nat :=
  match fuel with
  | O => offset
  | S fuel =>
      match response !! offset with
      | Some b => if bool_decide (b <> Byte.x00) then scan fuel response (S offset) else offset
      | None => offset
      end
  end.

(** The loop over server name, map, folder and game; [None] where it returns false. *)
Fixpoint skip_strings (k : nat) (response : bytes) (offset : nat) : option nat :=
  match k with
  | O => Some offset
  | S k =>
      let stop := scan (length response) response offset in
      if bool_decide (length response <= stop)%nat then None else skip_strings k response (S stop)
  end.

Definition validA2SInfo (response : bytes) : bool :=
  if bool_decide (len response < 6) || negb (bool_decide (response !! 4%nat = Some Byte.x49)) then false
  else
    match skip_strings 4 response 6 with
    | None => false
    | Some offset =>
        if bool_decide (len response - Z.of_nat offset < 9) then false
        else bool_decide (scan (length response) response (offset + 9) < length response)%nat
    end.

(** ** The grammar *)

Record A2SInfo := mkA2SInfo {
  info_header : bytes;         (* four bytes *)
  info_protocol : byte;
  info_strings : list bytes;   (* server name, map, folder and game *)
  info_fixed : bytes;          (* app ID, players, max players, bots, type, environment, visibility, VAC *)
  info_version : bytes;
  info_extra : bytes }.

Definition text (s : bytes) : Prop := Byte.x00 ∉ s.

Definition info_wf (i : A2SInfo) : Prop :=
  length (info_header i) = 4%nat /\ length (info_strings i) = 4%nat /\ Forall text (info_strings i) /\
  length (info_fixed i) = 9%nat /\ text (info_version i).

Definition encode_strings (l : list bytes) : bytes := concat (map (fun s => s ++ [Byte.x00]) l).

Definition encode_info (i : A2SInfo) : bytes :=
  info_header i ++ [Byte.x49; info_protocol i] ++ encode_strings (info_strings i) ++
  info_fixed i ++ info_version i ++ Byte.x00 :: info_extra i.

(** ** The offsets *)

(** A scan stops behind the text at its offset: at the end or at a zero byte. *)
Lemma scan_spec fuel : forall response offset, (length response - offset <= fuel)%nat ->
  exists s, scan fuel response offset = (offset + length s)%nat /\ text s /\
    drop offset response = s ++ drop (offset + length s) response /\
    (drop (offset + length s) response = [] \/ exists rest, drop (offset + length s) response = Byte.x00 :: rest).
Proof.
  induction fuel as [|fuel IH]; intros response offset Hf; simpl.
  - exists []. simpl. rewrite Nat.add_0_r. split_and!; [done|by intros ?%elem_of_nil|done|].
    left. apply drop_ge. lia.
  - destruct (response !! offset) as [b|] eqn:Hb.
    + pose proof (lookup_lt_Some _ _ _ Hb). pose proof (drop_S _ _ _ Hb) as Hd. case_bool_decide as Hz.
      * destruct (IH response (S offset) ltac:(lia)) as (s & -> & Hs & He & Hr). exists (b :: s).
        simpl. rewrite !Nat.add_succ_r. split_and!; [done| |by rewrite Hd, He|done].
        intros [H0|Hin]%elem_of_cons; [congruence|by apply Hs].
      * exists []. simpl. rewrite Nat.add_0_r.
        split_and!; [done|by intros ?%elem_of_nil|done|]. right. rewrite Hd, Hz. eauto.
    + apply lookup_ge_None in Hb. exists []. simpl. rewrite Nat.add_0_r.
      split_and!; [done|by intros ?%elem_of_nil|done|]. left. by apply drop_ge.
Qed.

(** Text in front of a zero byte is cut off in one way only. *)
Lemma text_zero_inj s1 s2 r1 r2 :
  text s1 -> text s2 -> s1 ++ Byte.x00 :: r1 = s2 ++ Byte.x00 :: r2 -> s1 = s2 /\ r1 = r2.
Proof.
  unfold text. revert s2. induction s1 as [|b s1 IH]; intros [|c s2] H1 H2; simpl; intros [=]; subst; try done.
  - by destruct H2; left.
  - by destruct H1; left.
  - destruct (IH s2) as [-> ->]; [set_solver|set_solver|done|done].
Qed.

Lemma scan_zero response offset s rest :
  drop offset response = s ++ Byte.x00 :: rest -> text s ->
  scan (length response) response offset = (offset + length s)%nat /\
  (offset + length s < length response)%nat /\ drop (S (offset + length s)) response = rest.
Proof.
  intros Hd Hs. destruct (scan_spec (length response) response offset ltac:(lia)) as (s' & -> & Hs' & He & Hr).
  rewrite Hd in He. destruct Hr as [Hr|[rest' Hr]]; rewrite Hr in He.
  - rewrite app_nil_r in He. destruct Hs'. rewrite <- He. set_solver.
  - apply text_zero_inj in He as [-> ->]; [|done..]. split_and!; [done| |].
    + apply (f_equal length) in Hr. rewrite length_drop in Hr. simpl in Hr. lia.
    + change (S (offset + length s')) with (1 + (offset + length s'))%nat.
      by rewrite Nat.add_comm, <- drop_drop, Hr.
Qed.

(** A scan that stops before the end stops at a zero byte. *)
Lemma scan_stops response offset :
  (scan (length response) response offset < length response)%nat ->
  exists s rest, drop offset response = s ++ Byte.x00 :: rest /\ text s /\
    scan (length response) response offset = (offset + length s)%nat.
Proof.
  destruct (scan_spec (length response) response offset ltac:(lia)) as (s & -> & Hs & He & Hr).
  intros Hl. destruct Hr as [Hr|[rest Hr]]; rewrite Hr in He.
  - apply (f_equal length) in Hr. rewrite length_drop in Hr. simpl in Hr. lia.
  - eauto.
Qed.

Lemma skip_strings_spec k : forall response offset,
  (forall l rest, drop offset response = encode_strings l ++ rest -> length l = k -> Forall text l ->
    exists offset', skip_strings k response offset = Some offset' /\ drop offset' response = rest) /\
  (forall offset', skip_strings k response offset = Some offset' ->
    exists l, drop offset response = encode_strings l ++ drop offset' response /\ length l = k /\ Forall text l).
Proof.
  induction k as [|k IH]; intros response offset; simpl.
  - split.
    + intros [|? ?] rest Hd; [|done]. eauto.
    + intros _ [= <-]. by exists [].
  - split.
    + intros [|s l] rest Hd; [done|]. intros [= Hl] [Hs Hf]%Forall_cons.
      unfold encode_strings in Hd. simpl in Hd. rewrite <- !app_assoc in Hd. simpl in Hd.
      destruct (scan_zero _ _ _ _ Hd Hs) as (-> & Hlt & Hd').
      rewrite bool_decide_eq_false_2 by lia. by apply (proj1 (IH _ _) l).
    + intros offset'. case_bool_decide as Hlt; [done|]. intros Hk.
      destruct (scan_stops response offset ltac:(lia)) as (s & rest & Hd & Hs & He). rewrite He in Hk.
      destruct (scan_zero _ _ _ _ Hd Hs) as (_ & _ & Hd').
      apply (proj2 (IH _ _)) in Hk as (l & Hdl & Hl & Hf). rewrite Hd' in Hdl.
      exists (s :: l). rewrite Hd, Hdl. unfold encode_strings. simpl. rewrite <- !app_assoc. simpl.
      split_and!; [done|by rewrite Hl|by constructor].
Qed.

(** C30. What counts as an information response.  The walk over the response accepts it exactly
    when it is the encoding of some information record: four bytes, the type byte [I], a
    protocol byte, four texts each ended by a zero byte, nine fixed bytes, a version text
    ended by a zero byte, and any extra data. *)
Theorem info_grammar response :
  validA2SInfo response = true <-> exists i, info_wf i /\ response = encode_info i.
Proof.
  unfold validA2SInfo. split.
  - destruct (_ || _) eqn:Hh; [done|]. go_bool.
    destruct (skip_strings 4 response 6) as [offset|] eqn:Hk; [|done].
    case_bool_decide as H9; [done|]. rewrite bool_decide_eq_true. intros Hv.
    apply (proj2 (skip_strings_spec _ _ _)) in Hk as (l & Hd & Hl & Hf).
    apply scan_stops in Hv as (version & extra & He & Hv & _).
    unfold len in *. destruct response as [|b0 [|b1 [|b2 [|b3 [|b4 [|protocol response]]]]]]; simpl in *; try lia.
    exists (mkA2SInfo [b0; b1; b2; b3] protocol l (take 9 (drop offset (b0 :: b1 :: b2 :: b3 :: b4 :: protocol :: response)))
      version extra). unfold info_wf, encode_info. simpl. split_and!; try done.
    + rewrite length_take, length_drop. cbn [length]. lia.
    + assert (b4 = Byte.x49) as -> by congruence.
      rewrite <- He, <- drop_drop, take_drop. change (drop 0 response) with response in Hd. by rewrite <- Hd.
  - intros ([header protocol l fixed version extra] & (H4 & Hl & Hf & H9 & Hv) & ->).
    unfold encode_info.
    cbn [info_header info_protocol info_strings info_fixed info_version info_extra] in *.
    destruct header as [|b0 [|b1 [|b2 [|b3 [|? ?]]]]]; try discriminate H4. cbn [app].
    set (rest := encode_strings l ++ _). set (response := b0 :: _).
    rewrite bool_decide_eq_false_2
      by (unfold response; rewrite !len_cons; pose proof (len_nonneg rest); lia).
    rewrite bool_decide_eq_true_2 by reflexivity. cbn [negb orb].
    destruct (proj1 (skip_strings_spec 4 response 6) l (fixed ++ version ++ Byte.x00 :: extra) eq_refl Hl Hf) as (offset & Ho & Hd).
    rewrite Ho.
    assert (Hlen : (length response - offset = 9 + length version + S (length extra))%nat).
    { rewrite <- length_drop, Hd, !length_app. simpl. lia. }
    rewrite bool_decide_eq_false_2 by (unfold len; lia).
    assert (Hd9 : drop (offset + 9) response = version ++ Byte.x00 :: extra).
    { rewrite <- drop_drop, Hd. by rewrite drop_app_length'. }
    destruct (scan_zero _ _ _ _ Hd9 Hv) as (-> & Hlt & _). by apply bool_decide_eq_true_2.
Qed.

(** The response of the tests. *)
Example validA2SInfo_example :
  validA2SInfo (encode_info (mkA2SInfo [Byte.xff; Byte.xff; Byte.xff; Byte.xff] Byte.x11
    [[Byte.x61]; []; [Byte.x62; Byte.x63]; [Byte.x64]] (replicate 9 Byte.x00) [Byte.x31] [])) = true /\
  validA2SInfo [Byte.xff; Byte.xff; Byte.xff; Byte.xff; Byte.x49; Byte.x11] = false.
Proof. split; vm_compute; reflexivity. Qed.
