(* ===== verification/Readiness.v ===== *)
(** * Readiness: the two backend probes ([pkg/readiness])

    [A2SProbe] of [a2s.go] and [PterodactylProbe] of [pterodactyl.go], each with one check
    ([Probe]) and the loop that waits for readiness ([WaitReady]).  They are sequential
    programs over the questions of [io]: the context, the clock, a UDP socket and the
    [server.Controller].  What a probe did is the log of its run. *)
From S2P Require Import Prelude Errors Conc World Sequential A2S.

Open Scope string_scope.
Open Scope Z_scope.
Open Scope prog_scope.

(** ** The environment of a probe *)

Inductive io : Type -> Type :=
| QCtxErr : io (option error)                    (* ctx.Err() *)
| QCtxDeadline : io (option Z)                   (* ctx.Deadline() *)
| QNow : io Z                                    (* time.Now() *)
| QDialUDP (address : UDPAddr) : io (option error)
| QSetDeadline (deadline : Z) : io (option error)      (* SetDeadline and SetReadDeadline *)
| QSend (query : bytes) : io (option error)            (* conn.Write *)
| QRecv : io (error + bytes)                     (* the datagram conn.ReadMsgUDP takes *)
| QTimer (delay : Z) : io bool                   (* select of ctx.Done (true) and a timer *)
| QState : io (string * option error).           (* controller.Status(ctx) *)

Inductive io_event :=
| OCtxErr (err : option error)
| ODial (address : UDPAddr) (err : option error)
| OSetDeadline (deadline : Z) (err : option error)
| OSend (query : bytes) (err : option error)
| ORecv (reply : error + bytes)
| OTimer (delay : Z) (cancelled : bool)
| OState (state : string) (err : option error)
| ORead.

Definition io_event_of (B : Type) (q : io B) : B -> io_event :=
  match q in io B return B -> io_event with
  | QCtxErr => OCtxErr
  | QDialUDP a => ODial a
  | QSetDeadline d => OSetDeadline d
  | QSend data => OSend data
  | QRecv => ORecv
  | QTimer d => OTimer d
  | QState => fun r => OState (fst r) (snd r)
  | QCtxDeadline | QNow => fun _ => ORead
  end.

Abbreviation probe_prog := (prog unit io Empty_set Empty_set).

(** [waitForRetry]. *)
Definition waitForRetry (delay : Z) : probe_prog (option error) :=
  cancelled <- ask (QTimer delay);;
  if cancelled : bool then ask QCtxErr else Ret None.

(** ** [A2SProbe] *)

Record A2SProbe := mkA2SProbe {
  a2s_address : UDPAddr;
  a2s_pollInterval : Z }.

(** [NewA2SProbe]; [resolve] is [net.ResolveUDPAddr]. *)
Definition NewA2SProbe (resolve : string -> error + UDPAddr) (address : string) (pollInterval : Z)
    : error + A2SProbe :=
  if bool_decide (pollInterval <= 0) then inl (ErrText "A2S poll interval must be positive")
  else
    match resolve address with
    | inl err => inl (ErrWrap "resolve A2S address" err)
    | inr resolved => inr (mkA2SProbe resolved pollInterval)
    end.

(** The buffer [response] of 1400 bytes after [ReadMsgUDP]: its first [n] bytes. *)
Definition response_of (datagram : bytes) : bytes := take 1400 datagram.

(** [flags&unix.MSG_TRUNC != 0]: the datagram did not fit. *)
Definition msg_trunc (datagram : bytes) : bool := bool_decide (1400 < len datagram).

(** [n < 5 || response[0] != 0xff || ...], together with the truncation flag. *)
Definition invalid_response (datagram : bytes) : bool :=
  let response := response_of datagram in
  msg_trunc datagram || bool_decide (len response < 5) ||
  bool_decide (response !! 0%nat <> Some Byte.xff) || bool_decide (response !! 1%nat <> Some Byte.xff) ||
  bool_decide (response !! 2%nat <> Some Byte.xff) || bool_decide (response !! 3%nat <> Some Byte.xff).

(** [append(append([]byte(nil), a2sInfoQuery...), response[5:9]...)]. *)
Definition challenge_query (response : bytes) : bytes := a2sInfoQuery ++ take 4 (drop 5 response).

(** The earlier of the poll interval's end and the context's deadline. *)
Definition poll_deadline (pollInterval : Z) : probe_prog Z :=
  now <- ask QNow;;
  contextDeadline <- ask QCtxDeadline;;
  let deadline := Add now pollInterval in
  Ret (match contextDeadline with
       | Some d => if Before d deadline then d else deadline
       | None => deadline
       end).

(** The loop [for attempts := 0; attempts < 2; attempts++] of [Probe], [remaining] rounds before
    its end. *)
Fixpoint probe_attempts (remaining : nat) (attempts : Z) (query : bytes) : probe_prog (option error) :=
  match remaining with
  | O => Ret (Some (ErrText "A2S probe challenge did not produce an info response"))
  | S remaining =>
      werr <- ask (QSend query);;
      match werr with
      | Some err => Ret (Some (ErrWrap "write A2S probe" err))
      | None =>
          reply <- ask QRecv;;
          match reply with
          | inl err =>
              cerr <- ask QCtxErr;;
              Ret (Some (match cerr with
                         | Some cerr => ErrWrap "probe A2S readiness" cerr
                         | None => ErrWrap "read A2S probe" err
                         end))
          | inr datagram =>
              let response := response_of datagram in
              if invalid_response datagram then Ret (Some (ErrText "invalid A2S response"))
              else if bool_decide (response !! 4%nat = Some Byte.x49) then
                Ret (if validA2SInfo response then None else Some (ErrText "invalid A2S info response"))
              else if bool_decide (response !! 4%nat = Some Byte.x41)
                      && bool_decide (attempts = 0) && bool_decide (9 <= len response) then
                probe_attempts remaining (attempts + 1) (challenge_query response)
              else Ret (Some (ErrText "unexpected A2S response type"))
          end
      end
  end.

(** [A2SProbe.Probe]. *)
Definition A2SProbe_Probe (probe : A2SProbe) : probe_prog (option error) :=
  cerr <- ask QCtxErr;;
  match cerr with
  | Some err => Ret (Some (ErrWrap "probe A2S readiness" err))
  | None =>
      derr <- ask (QDialUDP (a2s_address probe));;
      match derr with
      | Some err => Ret (Some (ErrWrap "dial A2S endpoint" err))
      | None =>
          deadline <- poll_deadline (a2s_pollInterval probe);;
          serr <- ask (QSetDeadline deadline);;
          match serr with
          | Some err => Ret (Some (ErrWrap "set A2S probe deadline" err))
          | None => probe_attempts 2 0 a2sInfoQuery
          end
      end
  end.

(** [waitForRetry] and, unless the context ended, a new round with the plain query. *)
Definition a2s_retry (probe : A2SProbe) : probe_prog (loop bytes (option error)) :=
  err <- waitForRetry (a2s_pollInterval probe);;
  Ret (match err with
       | Some err => Return (Some (ErrWrap "wait for A2S readiness" err))
       | None => Again a2sInfoQuery
       end).

(** The branches of [WaitReady] for a datagram. *)
Definition a2s_reply (probe : A2SProbe) (datagram : bytes) : probe_prog (loop bytes (option error)) :=
  let response := response_of datagram in
  if invalid_response datagram then a2s_retry probe
  else if bool_decide (response !! 4%nat = Some Byte.x49) && validA2SInfo response then Ret (Return None)
  else if bool_decide (response !! 4%nat = Some Byte.x41) && bool_decide (9 <= len response) then
    Ret (Again (challenge_query response))
  else a2s_retry probe.

(** One round of the loop of [A2SProbe.WaitReady]; its loop variable is [query]. *)
Definition a2s_round (probe : A2SProbe) (query : bytes) : probe_prog (loop bytes (option error)) :=
  cerr <- ask QCtxErr;;
  match cerr with
  | Some err => Ret (Return (Some (ErrWrap "wait for A2S readiness" err)))
  | None =>
      werr <- ask (QSend query);;
      match werr with
      | Some _ => a2s_retry probe
      | None =>
          deadline <- poll_deadline (a2s_pollInterval probe);;
          serr <- ask (QSetDeadline deadline);;
          match serr with
          | Some err => Ret (Return (Some (ErrWrap "set A2S read deadline" err)))
          | None =>
              reply <- ask QRecv;;
              match reply with
              | inl err =>
                  cerr <- ask QCtxErr;;
                  match cerr with
                  | Some cerr => Ret (Return (Some (ErrWrap "wait for A2S readiness" cerr)))
                  | None =>
                      match net_Timeout err with
                      | Some true => Ret (Again a2sInfoQuery)
                      | _ => a2s_retry probe
                      end
                  end
              | inr datagram => a2s_reply probe datagram
              end
          end
      end
  end.

(** [A2SProbe.WaitReady] for at most [fuel] rounds. *)
Definition A2SProbe_WaitReady (fuel : nat) (probe : A2SProbe) : probe_prog (option (option error)) :=
  derr <- ask (QDialUDP (a2s_address probe));;
  match derr with
  | Some err => Ret (Some (Some (ErrWrap "dial A2S endpoint" err)))
  | None => loop_rounds fuel (a2s_round probe) a2sInfoQuery
  end.

(** ** [PterodactylProbe] *)

(** The controller is a [server.Controller] that is not nil. *)
Record PterodactylProbe := mkPterodactylProbe { pp_pollInterval : Z }.

Definition NewPterodactylProbe (controller : bool) (pollInterval : Z) : error + PterodactylProbe :=
  if negb controller || bool_decide (pollInterval <= 0)
  then inl (ErrText "Pterodactyl controller and positive poll interval are required")
  else inr (mkPterodactylProbe pollInterval).

Definition PterodactylProbe_Probe : probe_prog (option error) :=
  cerr <- ask QCtxErr;;
  match cerr with
  | Some err => Ret (Some (inconclusiveReadinessError (ErrWrap "probe Pterodactyl readiness" err)))
  | None =>
      '(state, err) <- ask QState;;
      Ret (match err with
           | Some err => Some (inconclusiveReadinessError (ErrWrap "probe Pterodactyl readiness" err))
           | None =>
               if bool_decide (state <> StateRunning)
               then Some (ErrText "Pterodactyl backend state is not running") else None
           end)
  end.

(** One round of the loop of [PterodactylProbe.WaitReady]. *)
Definition pterodactyl_round (probe : PterodactylProbe) (_ : unit) : probe_prog (loop unit (option error)) :=
  err <- PterodactylProbe_Probe;;
  match err with
  | None => Ret (Return None)
  | Some err =>
      cerr <- ask QCtxErr;;
      match cerr with
      | Some cerr => Ret (Return (Some (ErrWrap "wait for Pterodactyl readiness" cerr)))
      | None =>
          if IsPermanent err then Ret (Return (Some err))
          else
            werr <- waitForRetry (pp_pollInterval probe);;
            Ret (match werr with
                 | Some err => Return (Some (ErrWrap "wait for Pterodactyl readiness" err))
                 | None => Again tt
                 end)
      end
  end.

(** [PterodactylProbe.WaitReady] for at most [fuel] rounds. *)
Definition PterodactylProbe_WaitReady (fuel : nat) (probe : PterodactylProbe) : probe_prog (option (option error)) :=
  loop_rounds fuel (pterodactyl_round probe) tt.
