(* ===== verification/ReadinessLogic.v ===== *)
(** * ReadinessLogic: what the probes do, whatever their environment answers

    The replies of the A2S endpoint by their grammar, and the properties of the checks and of
    the waiting loops. *)
From S2P Require Import Prelude Errors Conc World Sequential A2S Readiness.

Open Scope string_scope.
Open Scope list_scope.
Open Scope Z_scope.
Open Scope prog_scope.

Abbreviation wp := (Sequential.wp io_event_of).

Ltac wp_step := wp_step_with ltac:(cbn [io_event_of]).

(** ** Replies *)

Definition header : bytes := [Byte.xff; Byte.xff; Byte.xff; Byte.xff].

(** An information response with the right header that fits the buffer. *)
Definition info_reply (d : bytes) : Prop :=
  len d <= 1400 /\ exists i, info_wf i /\ info_header i = header /\ d = encode_info i.

(** A challenge: four bytes to send back. *)
Definition challenge_reply (d challenge : bytes) : Prop :=
  len d <= 1400 /\ length challenge = 4%nat /\ exists extra, d = header ++ Byte.x41 :: challenge ++ extra.

Lemma response_of_fits d : msg_trunc d = false -> response_of d = d /\ len d <= 1400.
Proof.
  unfold msg_trunc, response_of, len. intros Hd%bool_decide_eq_false.
  split; [apply take_ge; lia|lia].
Qed.

Lemma invalid_response_spec d :
  invalid_response d = false <->
  len d <= 1400 /\ response_of d = d /\ exists b rest, d = header ++ b :: rest.
Proof.
  unfold invalid_response. split.
  - intros H. go_bool. repeat match goal with H : ~ (_ <> _) |- _ => apply dec_stable in H end.
    destruct (response_of_fits d) as [Hr Hl]; [done|]. rewrite Hr in *.
    split_and!; [done..|]. unfold len, header in *.
    destruct d as [|b0 [|b1 [|b2 [|b3 [|b4 rest]]]]]; simpl in *; try lia.
    simplify_eq. eauto.
  - intros (Hl & Hr & b & rest & ->). rewrite Hr. unfold msg_trunc, header in *. cbn [app] in *.
    pose proof (len_nonneg rest). rewrite !orb_false_iff, !bool_decide_eq_false, !len_cons in *.
    split_and!; first [lia|by intros []].
Qed.

(** The two kinds of reply, as the code tests for them. *)
Lemma info_reply_spec d :
  invalid_response d = false /\ response_of d !! 4%nat = Some Byte.x49 /\ validA2SInfo (response_of d) = true <->
  info_reply d.
Proof.
  rewrite invalid_response_spec. unfold info_reply. split.
  - intros ((Hl & Hr & b & rest & ->) & _ & Hv). rewrite Hr in Hv. apply info_grammar in Hv as ([h p l f v e] & Hw & He).
    split; [done|]. exists (mkA2SInfo h p l f v e). split_and!; try done. destruct Hw as (H4 & _). simpl in *.
    unfold encode_info, header in He. simpl in He.
    destruct h as [|b0 [|b1 [|b2 [|b3 [|? ?]]]]]; try discriminate H4. cbn [app] in He. by injection He as <- <- <- <- _ _.
  - intros (Hl & i & Hw & Hh & ->). pose proof Hw as (H4 & _).
    assert (Hr : response_of (encode_info i) = encode_info i).
    { apply take_ge. unfold len in Hl. lia. }
    rewrite Hr. split_and!; [done|done| | |].
    + unfold encode_info. rewrite Hh. simpl. eauto.
    + unfold encode_info. rewrite Hh. done.
    + apply info_grammar. eauto.
Qed.

(** A challenge, as the code tests for it. *)
Lemma challenge_reply_spec d :
  invalid_response d = false -> response_of d !! 4%nat = Some Byte.x41 -> 9 <= len (response_of d) ->
  exists challenge, challenge_reply d challenge /\ challenge_query (response_of d) = a2sInfoQuery ++ challenge.
Proof.
  intros (Hl & Hr & b & rest & ->)%invalid_response_spec. rewrite Hr. unfold header, len. cbn [app]. intros [= ->] H9.
  destruct rest as [|c1 [|c2 [|c3 [|c4 rest]]]]; simpl in H9; try lia.
  exists [c1; c2; c3; c4]. split; [|done]. split_and!; [exact Hl|done|]. by exists rest.
Qed.

Lemma challenge_reply_tests d challenge :
  challenge_reply d challenge ->
  invalid_response d = false /\ response_of d !! 4%nat = Some Byte.x41 /\ 9 <= len (response_of d).
Proof.
  intros (Hl & Hc & extra & ->). assert (Hr : response_of (header ++ Byte.x41 :: challenge ++ extra) =
    header ++ Byte.x41 :: challenge ++ extra) by (apply take_ge; unfold len in Hl; lia).
  rewrite Hr. split_and!; [apply invalid_response_spec; eauto 10|done|].
  unfold len, header. rewrite length_app. simpl. rewrite length_app, Hc. lia.
Qed.

(** The datagrams that are neither. *)
Definition junk_reply (d : bytes) : Prop := ~ info_reply d /\ forall challenge, ~ challenge_reply d challenge.

(** ** One check *)

(** What crossed the socket. *)
Definition on_socket (e : io_event) : bool := match e with OSend _ _ | ORecv _ => true | _ => false end.

Definition exchange (lg : list io_event) : list io_event := List.filter on_socket lg.

(** The last exchange of a check with [query], and whether the check succeeds with it. *)
Inductive last_attempt (query : bytes) : list io_event -> bool -> Prop :=
| last_unsent err : last_attempt query [OSend query (Some err)] false
| last_unanswered err : last_attempt query [OSend query None; ORecv (inl err)] false
| last_info d : info_reply d -> last_attempt query [OSend query None; ORecv (inr d)] true
| last_other d : ~ info_reply d -> last_attempt query [OSend query None; ORecv (inr d)] false.

(** The exchanges of a check: one attempt with the query or, behind a challenge, a second one
    with the query that carries the challenge. *)
Inductive check_exchange : list io_event -> bool -> Prop :=
| check_once l ok :
    last_attempt a2sInfoQuery l ok ->
    (forall d challenge, ORecv (inr d) ∈ l -> ~ challenge_reply d challenge) ->
    check_exchange l ok
| check_challenged d challenge l ok :
    challenge_reply d challenge -> last_attempt (a2sInfoQuery ++ challenge) l ok ->
    check_exchange (OSend a2sInfoQuery None :: ORecv (inr d) :: l) ok.

(** A step before the first datagram failed. *)
Definition setup_failed (e : io_event) : Prop :=
  match e with OCtxErr (Some _) | ODial _ (Some _) | OSetDeadline _ (Some _) => True | _ => False end.

(** A reply that one of the tests of the code rejects is no information response. *)
Ltac not_info :=
  intros Hinfo; apply info_reply_spec in Hinfo as (? & ? & ?);
  repeat match goal with
  | H : bool_decide _ = false |- _ => apply bool_decide_eq_false in H
  end; congruence.

(** Nor a challenge. *)
Ltac not_challenge :=
  intros Hchallenge; apply challenge_reply_tests in Hchallenge as (? & ? & ?);
  repeat match goal with
  | H : _ && _ = false |- _ => apply andb_false_iff in H as [?|?]
  | H : bool_decide _ = true |- _ => apply bool_decide_eq_true in H
  | H : bool_decide _ = false |- _ => apply bool_decide_eq_false in H
  end; first [congruence|contradiction].

Lemma exchange_app l1 l2 : exchange (l1 ++ l2) = exchange l1 ++ exchange l2.
Proof. apply List.filter_app. Qed.

Lemma probe_last_attempt oracle query lg :
  wp oracle (probe_attempts 1 1 query) lg (fun r lg' => exists l ok,
    exchange lg' = exchange lg ++ l /\ last_attempt query l ok /\ (r = None <-> ok = true)).
Proof.
  unfold probe_attempts. repeat wp_step; try destruct (validA2SInfo _) eqn:?;
    rewrite ?exchange_app; simpl; rewrite <- ?app_assoc; simpl;
    eexists; match goal with |- exists ok, _ /\ _ /\ (?r = None <-> _) =>
      exists (bool_decide (r = None)) end;
    (split; [reflexivity|]); (split; [|by rewrite bool_decide_eq_true]); simpl.
  all: try (by constructor).
  all: try (apply last_other; not_info).
  all: go_bool; apply last_info; by apply info_reply_spec.
Qed.

(** The first attempt, which a challenge turns into a second one. *)
Lemma probe_first_attempt oracle lg :
  wp oracle (probe_attempts 2 0 a2sInfoQuery) lg (fun r lg' => exists l ok,
    exchange lg' = exchange lg ++ l /\ check_exchange l ok /\ (r = None <-> ok = true)).
Proof.
  enough (H : forall one, one = 1%nat -> wp oracle (probe_attempts (S one) 0 a2sInfoQuery) lg (fun r lg' => exists l ok,
    exchange lg' = exchange lg ++ l /\ check_exchange l ok /\ (r = None <-> ok = true))) by exact (H 1%nat eq_refl).
  intros one Hone. cbn [probe_attempts].
  repeat match goal with
  | |- Sequential.wp _ _ (probe_attempts _ _ _) _ _ => fail 1
  | _ => wp_step
  end; try destruct (validA2SInfo _) eqn:?.
  6: { go_bool. destruct (challenge_reply_spec l) as (ch & Hch & ->); [done..|].
    subst one. eapply seq_mono; [apply probe_last_attempt|]. intros r lg' (l2 & ok & -> & Hl & Hr).
    eexists _, ok. rewrite !exchange_app. simpl. rewrite <- !app_assoc. split; [reflexivity|].
    split; [|done]. by apply (check_challenged l ch). }
  all: rewrite ?exchange_app; simpl; rewrite <- ?app_assoc; simpl; eexists;
    match goal with |- exists ok, _ /\ _ /\ (?r = None <-> _) => exists (bool_decide (r = None)) end;
    (split; [reflexivity|]); (split; [|by rewrite bool_decide_eq_true]); simpl; apply check_once.
  all: try (intros d ch; rewrite ?elem_of_cons, elem_of_nil; intros Hin; destruct_or?; simplify_eq; not_challenge).
  all: try (by constructor).
  all: try (apply last_other; not_info).
  all: go_bool; apply last_info; by apply info_reply_spec.
Qed.

(** C31. The single check.  Whatever the environment answers, a check ends.  It fails before
    anything is sent only when the context has ended, the socket cannot be opened or its
    deadline cannot be set.  Otherwise what crosses the socket is one attempt with the query
    or, exactly when that is answered by a challenge (any datagram of at most 1400 bytes with
    four bytes behind the challenge's header and type), a second attempt with the query that
    carries those four bytes; and the check succeeds exactly when its last attempt is
    answered by an information response. *)
Theorem a2s_probe_exact oracle probe :
  wp oracle (A2SProbe_Probe probe) [] (fun r lg =>
    (exchange lg = [] /\ r <> None /\ Exists setup_failed lg) \/
    exists ok, check_exchange (exchange lg) ok /\ (r = None <-> ok = true)).
Proof.
  unfold A2SProbe_Probe, poll_deadline.
  repeat match goal with
  | |- Sequential.wp _ _ (probe_attempts _ _ _) _ _ => fail 1
  | _ => wp_step
  end.
  all: try (left; split_and!; [done|done|]; repeat (first [by apply Exists_cons_hd|apply Exists_cons_tl])).
  all: eapply seq_mono; [apply probe_first_attempt|]; intros r lg (l & ok & -> & H); right; by exists ok.
Qed.

(** ** The waiting loops *)

Definition info_event (e : io_event) : Prop := exists d, e = ORecv (inr d) /\ info_reply d.

Definition no_info (lg : list io_event) : Prop := Forall (fun e => ~ info_event e) lg.

Lemma no_info_app l1 l2 : no_info l1 -> no_info l2 -> no_info (l1 ++ l2).
Proof. intros. by apply Forall_app. Qed.

(** The rounds of [A2SProbe.WaitReady], [delay] being the poll interval. *)
Section rounds.
Context (delay : Z).

(** A round that has sent [query] and set its read deadline. *)
Definition asked (query : bytes) (deadline : Z) : list io_event :=
  [OCtxErr None; OSend query None; ORead; ORead; OSetDeadline deadline None].

(** A round without use, behind which the client pauses: the query could not be sent, reading
    failed other than by a timeout, or the datagram is neither information nor a challenge. *)
Inductive a2s_miss (query : bytes) : list io_event -> Prop :=
| miss_unsent err : a2s_miss query [OCtxErr None; OSend query (Some err)]
| miss_error deadline err : net_Timeout err <> Some true ->
    a2s_miss query (asked query deadline ++ [ORecv (inl err); OCtxErr None])
| miss_junk deadline d : junk_reply d -> a2s_miss query (asked query deadline ++ [ORecv (inr d)]).

(** A round and the query of the next one: the plain query behind a read timeout or a pause,
    and the query with the challenge, at once, behind a challenge. *)
Inductive a2s_next (query : bytes) : list io_event -> bytes -> Prop :=
| next_timeout deadline err : net_Timeout err = Some true ->
    a2s_next query (asked query deadline ++ [ORecv (inl err); OCtxErr None]) a2sInfoQuery
| next_challenge deadline d challenge : challenge_reply d challenge ->
    a2s_next query (asked query deadline ++ [ORecv (inr d)]) (a2sInfoQuery ++ challenge)
| next_pause l pause : a2s_miss query l ->
    pause = [OTimer delay false] \/ pause = [OTimer delay true; OCtxErr None] ->
    a2s_next query (l ++ pause) a2sInfoQuery.

(** The rounds so far and the query of the next one. *)
Inductive a2s_log : list io_event -> bytes -> Prop :=
| log_start address : a2s_log [ODial address None] a2sInfoQuery
| log_round lg query l query' :
    a2s_log lg query -> a2s_next query l query' -> a2s_log (lg ++ l) query'.

(** The last round: information, or the context's end before or behind a datagram or in a
    pause, or a read deadline that cannot be set. *)
Inductive a2s_end (query : bytes) : list io_event -> option error -> Prop :=
| end_info deadline d : info_reply d -> a2s_end query (asked query deadline ++ [ORecv (inr d)]) None
| end_before err : a2s_end query [OCtxErr (Some err)] (Some (ErrWrap "wait for A2S readiness" err))
| end_deadline deadline err :
    a2s_end query [OCtxErr None; OSend query None; ORead; ORead; OSetDeadline deadline (Some err)]
      (Some (ErrWrap "set A2S read deadline" err))
| end_reading deadline e err :
    a2s_end query (asked query deadline ++ [ORecv (inl e); OCtxErr (Some err)])
      (Some (ErrWrap "wait for A2S readiness" err))
| end_waiting l err : a2s_miss query l ->
    a2s_end query (l ++ [OTimer delay true; OCtxErr (Some err)])
      (Some (ErrWrap "wait for A2S readiness" err)).

Lemma asked_no_info query deadline e : ~ info_event e -> no_info (asked query deadline ++ [e]).
Proof. intros He. repeat constructor; try done; by intros (? & ? & ?). Qed.

(** Only the end of a successful waiting holds an information response. *)
Lemma miss_no_info query l : a2s_miss query l -> no_info l.
Proof.
  destruct 1 as [err|deadline err Ht|deadline d [Hd _]].
  - repeat constructor; by intros (? & ? & ?).
  - repeat constructor; by intros (? & ? & ?).
  - apply asked_no_info. by intros (? & [= <-] & ?).
Qed.

Lemma challenge_not_info d challenge : challenge_reply d challenge -> ~ info_reply d.
Proof. intros (_ & E & _)%challenge_reply_tests (_ & E' & _)%info_reply_spec. congruence. Qed.

Lemma next_no_info query l query' : a2s_next query l query' -> no_info l.
Proof.
  destruct 1 as [deadline err Ht|deadline d ch Hc|l pause Hm Hp].
  - repeat constructor; by intros (? & ? & ?).
  - apply asked_no_info. intros (? & [= <-] & ?). by eapply challenge_not_info.
  - apply no_info_app; [by eapply miss_no_info|]. destruct Hp as [-> | ->]; repeat constructor; by intros (? & ? & ?).
Qed.

Lemma log_no_info lg query : a2s_log lg query -> no_info lg.
Proof.
  induction 1 as [address|lg query l query' _ IH Hn]; [repeat constructor; by intros (? & ? & ?)|].
  apply no_info_app; [done|]. by eapply next_no_info.
Qed.

Lemma end_no_info query l err : a2s_end query l (Some err) -> no_info l.
Proof.
  inversion 1; subst; try (repeat constructor; by intros (? & ? & ?)).
  apply no_info_app; [by eapply miss_no_info|]. repeat constructor; by intros (? & ? & ?).
Qed.
End rounds.

(** What a round of [A2SProbe.WaitReady] leads to from the log [lg]. *)
Definition a2s_after (probe : A2SProbe) (query : bytes) (lg : list io_event)
    (r : loop bytes (option error)) (lg' : list io_event) : Prop :=
  exists l, lg' = lg ++ l /\
  match r with
  | Again query' => a2s_next (a2s_pollInterval probe) query l query'
  | Return result => a2s_end (a2s_pollInterval probe) query l result
  end.

Lemma a2s_retry_spec oracle probe query lg l :
  a2s_miss query l ->
  wp oracle (a2s_retry probe) (lg ++ l) (a2s_after probe query lg).
Proof.
  intros Hm. unfold a2s_retry, waitForRetry. repeat wp_step; repeat case_match; simplify_eq; unfold a2s_after;
    rewrite <- ?app_assoc; (eexists; split; [reflexivity|]).
  - by apply end_waiting.
  - apply next_pause; [done|by right].
  - apply next_pause; [done|by left].
Qed.

Lemma a2s_reply_spec oracle probe query deadline d lg :
  wp oracle (a2s_reply probe d) (lg ++ asked query deadline ++ [ORecv (inr d)]) (a2s_after probe query lg).
Proof.
  unfold a2s_reply. repeat match goal with
  | |- Sequential.wp _ _ (a2s_retry _) _ _ => apply a2s_retry_spec, miss_junk
  | _ => wp_step
  end; go_bool.
  - split; [not_info|]. intros ch. not_challenge.
  - eexists. split; [done|]. apply end_info. by apply info_reply_spec.
  - destruct (challenge_reply_spec d) as (ch & Hc & ->); [done..|]. eexists. split; [done|]. by apply next_challenge.
  - split; [|intros ch; not_challenge]. intros (_ & H0 & H1)%info_reply_spec.
    by rewrite bool_decide_eq_true_2, H1 in Heqb0.
Qed.

Lemma a2s_round_spec oracle probe query lg :
  wp oracle (a2s_round probe query) lg (a2s_after probe query lg).
Proof.
  unfold a2s_round, poll_deadline. repeat match goal with
  | |- Sequential.wp _ _ (a2s_retry _) _ _ => rewrite <- ?app_assoc; apply a2s_retry_spec
  | |- Sequential.wp _ _ (a2s_reply _ _) _ _ => rewrite <- ?app_assoc; apply a2s_reply_spec
  | _ => wp_step
  end.
  all: try (rewrite <- ?app_assoc; eexists; (split; [reflexivity|]); by constructor).
  all: try by constructor.
  all: apply miss_error; congruence.
Qed.

(** The context has ended when [k] events have happened. *)
Definition context_ends (oracle : forall B, list io_event -> io B -> B) (k : nat) : Prop :=
  forall lg, (k <= length lg)%nat -> oracle (option error) lg QCtxErr <> None.

(** Every round asks the context first, and goes on only if it has not ended. *)
Lemma a2s_round_asks oracle probe k query lg :
  context_ends oracle k ->
  wp oracle (a2s_round probe query) lg (fun r lg' =>
    (length lg < length lg')%nat /\ match r with Again _ => (length lg < k)%nat | Return _ => True end).
Proof.
  intros Hk. unfold a2s_round, poll_deadline, a2s_reply, a2s_retry, waitForRetry. wp_step. wp_step.
  destruct (oracle _ lg QCtxErr) eqn:He; [wp_step; rewrite length_app; simpl; split; [lia|done]|].
  assert (length lg < k)%nat by (destruct (decide (k <= length lg)%nat) as [Hl|]; [by destruct (Hk _ Hl)|lia]).
  repeat wp_step; rewrite !length_app; simpl; (split; [lia|]); by repeat case_match.
Qed.

Lemma pterodactyl_round_asks oracle probe k u lg :
  context_ends oracle k ->
  wp oracle (pterodactyl_round probe u) lg (fun r lg' =>
    (length lg < length lg')%nat /\ match r with Again _ => (length lg < k)%nat | Return _ => True end).
Proof.
  intros Hk. unfold pterodactyl_round, PterodactylProbe_Probe, waitForRetry.
  destruct (decide (length lg < k)%nat) as [Hl|Hl].
  - repeat wp_step; rewrite !length_app; simpl; (split; [lia|]); by repeat case_match.
  - assert (He : forall lg', (length lg <= length lg')%nat -> oracle _ lg' QCtxErr <> None) by (intros; apply Hk; lia).
    repeat wp_step; rewrite ?length_app; simpl; (split; [lia|]); simplify_eq; try done.
    all: exfalso; eapply He; [|eassumption]; rewrite ?length_app; lia.
Qed.

(** C32. Waiting for the A2S endpoint.  If the context ends at some point, waiting is over within
    a round for every event before that.  Its log is exactly that of the rounds described by
    [a2s_log], [a2s_next] and [a2s_end]: every round asks the context and sends its query; a
    challenge is answered in the very next round, without a pause, by the query that carries
    it; a read timeout leads to the plain query at once, and every other miss to the plain
    query behind one pause of the poll interval.  Waiting succeeds exactly when the last
    datagram received is an information response, it stops at the first one, and otherwise
    it ends with the error of dialling, of the context or of setting the deadline. *)
Theorem a2s_wait_ready oracle probe k fuel :
  context_ends oracle k -> (k < fuel)%nat ->
  wp oracle (A2SProbe_WaitReady fuel probe) [] (fun r lg =>
    (exists err, lg = [ODial (a2s_address probe) (Some err)] /\
       r = Some (Some (ErrWrap "dial A2S endpoint" err))) \/
    exists result lg0 query l, r = Some result /\ lg = lg0 ++ l /\
      a2s_log (a2s_pollInterval probe) lg0 query /\ a2s_end (a2s_pollInterval probe) query l result /\
      no_info lg0 /\ (result <> None -> no_info l)).
Proof.
  intros Hk Hf. unfold A2SProbe_WaitReady. repeat match goal with
  | |- Sequential.wp _ _ (loop_rounds _ _ _) _ _ => fail 1
  | _ => wp_step
  end; [left; by eexists|].
  set (log := a2s_log (a2s_pollInterval probe)). set (done_with := a2s_end (a2s_pollInterval probe)).
  eapply seq_mono.
  - apply seq_and.
    + apply (seq_loop_ends _ _ _ k); [intros; by apply a2s_round_asks|simpl; lia].
    + apply (seq_loop _ _ _ (fun query lg => log lg query)
        (fun result lg => exists lg0 query l, lg = lg0 ++ l /\ log lg0 query /\ done_with query l result)).
      * intros query lg Hl. eapply seq_mono; [apply a2s_round_spec|].
        intros [query'|result] lg' (l & -> & H); [by eapply log_round|by eauto 10].
      * apply log_start.
  - intros [result|] lg [H1 H2]; [|destruct H1; [done|lia]].
    destruct H2 as (lg0 & query & l & -> & Hl & He). right. exists result, lg0, query, l.
    split_and!; [done..|by eapply log_no_info|]. destruct result; [intros _|done]. by eapply end_no_info.
Qed.

(** The endpoint answers with a challenge, then with information; the context would end later. *)
Definition sample_info : bytes :=
  encode_info (mkA2SInfo header Byte.x11 [[Byte.x61]; []; [Byte.x62]; [Byte.x63]] (replicate 9 Byte.x00) [] []).

Definition sample_endpoint (B : Type) (lg : list io_event) (q : io B) : B :=
  match q in io B return B with
  | QCtxErr => if bool_decide (12 <= len lg) then Some (ErrSentinel DeadlineExceeded) else None
  | QCtxDeadline => None
  | QNow => 0
  | QRecv => inr (if bool_decide (len lg < 8)
                  then header ++ [Byte.x41; Byte.x01; Byte.x02; Byte.x03; Byte.x04] else sample_info)
  | QDialUDP _ | QSetDeadline _ | QSend _ => None
  | QTimer _ => false
  | QState => (StateRunning, None)
  end.

Lemma a2s_probe_exact_witness :
  wp sample_endpoint (A2SProbe_Probe (mkA2SProbe (mkUDPAddr "127.0.0.1" 27015) Second)) [] (fun r lg =>
    (match r with None => true | _ => false end && bool_decide (length (exchange lg) = 4%nat) = true) /\
    ((exchange lg = [] /\ r <> None /\ Exists setup_failed lg) \/
     exists ok, check_exchange (exchange lg) ok /\ (r = None <-> ok = true))).
Proof.
  apply seq_and; [vm_compute; reflexivity|].
  apply (a2s_probe_exact sample_endpoint (mkA2SProbe (mkUDPAddr "127.0.0.1" 27015) Second)).
Defined.

Lemma a2s_wait_ready_witness :
  wp sample_endpoint (A2SProbe_WaitReady 13 (mkA2SProbe (mkUDPAddr "127.0.0.1" 27015) Second)) [] (fun r lg =>
    (match r with Some None => true | _ => false end && bool_decide (length (exchange lg) = 4%nat) = true) /\
    ((exists err, lg = [ODial (mkUDPAddr "127.0.0.1" 27015) (Some err)] /\
       r = Some (Some (ErrWrap "dial A2S endpoint" err))) \/
    exists result lg0 query l, r = Some result /\ lg = lg0 ++ l /\
      a2s_log Second lg0 query /\ a2s_end Second query l result /\
      no_info lg0 /\ (result <> None -> no_info l))).
Proof.
  apply seq_and; [vm_compute; reflexivity|].
  apply (a2s_wait_ready sample_endpoint (mkA2SProbe (mkUDPAddr "127.0.0.1" 27015) Second) 12); [|lia].
  intros lg Hl. simpl. rewrite bool_decide_eq_true_2; [congruence|unfold len; lia].
Defined.

(** ** The panel's verdict *)

(** What a check of the panel saw: a context that has ended, an error of the panel, a state. *)
Inductive panel_view :=
| PanelCancelled (err : error)
| PanelFailed (state : string) (err : error)
| PanelState (state : string).

Definition view_events (v : panel_view) : list io_event :=
  match v with
  | PanelCancelled err => [OCtxErr (Some err)]
  | PanelFailed state err => [OCtxErr None; OState state (Some err)]
  | PanelState state => [OCtxErr None; OState state None]
  end.

(** What it answers: ready exactly in the state [running], inconclusive exactly when the state
    could not be learned, permanent exactly when the panel's error is. *)
Definition view_verdict (v : panel_view) (r : option error) : Prop :=
  match v, r with
  | PanelState state, None => state = StateRunning
  | PanelState state, Some e =>
      state <> StateRunning /\ backendReadinessInconclusive e = false /\ IsPermanent e = false
  | PanelFailed _ err, Some e | PanelCancelled err, Some e =>
      backendReadinessInconclusive e = true /\ IsPermanent e = IsPermanent err
  | _, None => False
  end.

Lemma pterodactyl_probe_view oracle lg :
  wp oracle PterodactylProbe_Probe lg (fun r lg' =>
    exists v, lg' = lg ++ view_events v /\ view_verdict v r).
Proof.
  unfold PterodactylProbe_Probe. repeat wp_step; rewrite <- ?app_assoc.
  - by exists (PanelCancelled e).
  - destruct o as [err|]; [by exists (PanelFailed s err)|]. exists (PanelState s).
    split; [done|]. by case_bool_decide.
Qed.

(** The verdicts a waiting loop passes over: neither ready nor permanent. *)
Definition passed_over (v : panel_view) : Prop :=
  match v with
  | PanelState state => state <> StateRunning
  | PanelFailed _ err | PanelCancelled err => IsPermanent err = false
  end.

(** Checks, each but the last followed by a look at the context and a pause. *)
Inductive panel_log (delay : Z) : list io_event -> list panel_view -> Prop :=
| panel_log_nil : panel_log delay [] []
| panel_log_snoc lg vs v pause :
    panel_log delay lg vs -> pause = [OTimer delay false] \/ pause = [OTimer delay true; OCtxErr None] ->
    panel_log delay (lg ++ view_events v ++ [OCtxErr None] ++ pause) (vs ++ [v]).

(** How the waiting ends behind the last check: ready, the context over, a permanent error of
    the panel, or the context over during the pause. *)
Inductive panel_end (delay : Z) : panel_view -> option error -> list io_event -> Prop :=
| end_ready : panel_end delay (PanelState StateRunning) None []
| end_context v err : v <> PanelState StateRunning ->
    panel_end delay v (Some (ErrWrap "wait for Pterodactyl readiness" err)) [OCtxErr (Some err)]
| end_permanent v e : ~ passed_over v -> v <> PanelState StateRunning ->
    IsPermanent e = true -> backendReadinessInconclusive e = true ->
    panel_end delay v (Some e) [OCtxErr None]
| end_pause v err : passed_over v ->
    panel_end delay v (Some (ErrWrap "wait for Pterodactyl readiness" err))
      [OCtxErr None; OTimer delay true; OCtxErr (Some err)].

Lemma verdict_not_running v e : view_verdict v (Some e) -> v <> PanelState StateRunning.
Proof. intros H ->. by destruct H. Qed.

Lemma verdict_passed_over v e : view_verdict v (Some e) -> IsPermanent e = false -> passed_over v.
Proof. destruct v; simpl; intros H He; [destruct H; congruence..|tauto]. Qed.

Lemma verdict_permanent v e :
  view_verdict v (Some e) -> IsPermanent e = true -> ~ passed_over v /\ backendReadinessInconclusive e = true.
Proof. destruct v; simpl; intros H He; destruct_and?; split; try congruence. Qed.

Lemma pterodactyl_round_spec oracle probe u lg vs :
  panel_log (pp_pollInterval probe) lg vs -> Forall passed_over vs ->
  wp oracle (pterodactyl_round probe u) lg (fun r lg' =>
    match r with
    | Again _ => exists vs', panel_log (pp_pollInterval probe) lg' vs' /\ Forall passed_over vs'
    | Return result => exists lg0 vs' v rest, lg' = lg0 ++ view_events v ++ rest /\
        panel_log (pp_pollInterval probe) lg0 vs' /\ Forall passed_over vs' /\
        panel_end (pp_pollInterval probe) v result rest
    end).
Proof.
  intros Hl Hf. unfold pterodactyl_round, waitForRetry. wp_step.
  eapply seq_mono; [apply pterodactyl_probe_view|]. intros r lg' (v & -> & Hv).
  repeat wp_step; repeat case_match; simplify_eq; rewrite <- ?app_assoc; simpl.
  - do 4 eexists. split; [reflexivity|]. split_and!; [done..|]. apply end_context. by eapply verdict_not_running.
  - do 4 eexists. split; [reflexivity|]. split_and!; [done..|].
    edestruct verdict_permanent; [done..|]. apply end_permanent; try done. by eapply verdict_not_running.
  - eexists. split; [apply panel_log_snoc; eauto|]. apply Forall_app. split; [done|].
    constructor; [by eapply verdict_passed_over|done].
  - do 4 eexists. split; [reflexivity|]. split_and!; [done..|]. apply end_pause. by eapply verdict_passed_over.
  - eexists. split; [apply panel_log_snoc; eauto|]. apply Forall_app. split; [done|].
    constructor; [by eapply verdict_passed_over|done].
  - exists lg, vs, v, []. rewrite app_nil_r. split_and!; [done..|]. destruct v; simpl in Hv; try done.
    subst. constructor.
Qed.

(** C33. Waiting for the panel.  If the context ends at some point, waiting is over.  It succeeds
    exactly when the last check saw the state [running]; every check before saw neither that
    nor a permanent error and was followed by one pause of the poll interval; a permanent
    error of the panel ends the waiting at once, as a permanent and inconclusive error; and
    otherwise the waiting ends with the context's error. *)
Theorem pterodactyl_wait_ready oracle probe k fuel :
  context_ends oracle k -> (k < fuel)%nat ->
  wp oracle (PterodactylProbe_WaitReady fuel probe) [] (fun r lg =>
    exists result lg0 vs v rest, r = Some result /\ lg = lg0 ++ view_events v ++ rest /\
      panel_log (pp_pollInterval probe) lg0 vs /\ Forall passed_over vs /\
      panel_end (pp_pollInterval probe) v result rest).
Proof.
  intros Hk Hf. eapply seq_mono.
  - apply seq_and.
    + apply (seq_loop_ends _ _ _ k); [intros; by apply pterodactyl_round_asks|simpl; lia].
    + apply (seq_loop _ _ _ (fun _ lg => exists vs, panel_log (pp_pollInterval probe) lg vs /\ Forall passed_over vs)
        (fun result lg' => exists lg0 vs' v rest, lg' = lg0 ++ view_events v ++ rest /\
           panel_log (pp_pollInterval probe) lg0 vs' /\ Forall passed_over vs' /\
           panel_end (pp_pollInterval probe) v result rest)).
      * intros u lg (vs & H1 & H2). by eapply pterodactyl_round_spec.
      * exists []. split; constructor.
  - intros [r|] lg [H1 H2].
    + destruct H2 as (lg0 & vs & v & rest & H2). exists r, lg0, vs, v, rest. by split.
    + destruct H1; [done|lia].
Qed.

(** A panel that is unreachable at first, then stopping, then answers that the token is wrong. *)
Definition sample_panel (B : Type) (lg : list io_event) (q : io B) : B :=
  match q in io B return B with
  | QCtxErr => if bool_decide (20 <= len lg) then Some (ErrSentinel DeadlineExceeded) else None
  | QCtxDeadline => None
  | QNow => 0
  | QRecv => inr []
  | QDialUDP _ | QSetDeadline _ | QSend _ => None
  | QTimer _ => false
  | QState =>
      if bool_decide (len lg < 4) then ("", Some (ErrText "unreachable"))
      else if bool_decide (len lg < 8) then (StateStopping, None)
      else ("", Some (permanentError (ErrText "HTTP 401")))
  end.

Lemma pterodactyl_wait_ready_witness :
  wp sample_panel (PterodactylProbe_WaitReady 21 (mkPterodactylProbe Second)) [] (fun r lg =>
    (match r with Some (Some e) => IsPermanent e | _ => false end = true) /\
    exists result lg0 vs v rest, r = Some result /\ lg = lg0 ++ view_events v ++ rest /\
      panel_log Second lg0 vs /\ Forall passed_over vs /\ panel_end Second v result rest).
Proof.
  apply seq_and; [vm_compute; reflexivity|].
  apply (pterodactyl_wait_ready sample_panel (mkPterodactylProbe Second) 20); [|lia].
  intros lg Hl. simpl. rewrite bool_decide_eq_true_2; [congruence|unfold len; lia].
Defined.
