(* ===== verification/Network.v ===== *)
(** * Network: what the sources use of [net] and [net/url]

    Resolution and parsing are answers of the environment, the operations of a class:
    [net.ResolveUDPAddr] and [net.ResolveTCPAddr] (which may ask a name server; the answers
    do not change while the process starts), [net.ParseIP], [url.Parse] and [url.JoinPath].
    An IP is its canonical text, as [IP.String] prints it, and empty when it is nil. *)
From S2P Require Import Prelude GoStrings Errors World.

Open Scope string_scope.

(** A [url.URL]; [url_User] is true when it has user info, [Hostname] is the method. *)
Record URL := mkURL {
  Scheme : string;
  Host : string;
  url_User : bool;
  RawQuery : string;
  Fragment : string;
  Hostname : string;
  url_String : string }.

Class Network := {
  ResolveUDPAddr : string -> error + UDPAddr;
  ResolveTCPAddr : string -> error + UDPAddr;
  ParseIP : string -> option string;
  url_Parse : string -> error + URL;
  JoinPath : string -> list string -> error + string }.

(** [ip == nil], [IP.IsUnspecified] and [IP.IsLoopback] on the canonical text. *)
Definition ip_nil (ip : string) : bool := bool_decide (ip = "").

Definition IsUnspecified (ip : string) : bool := bool_decide (ip = "0.0.0.0") || bool_decide (ip = "::").

Definition IsLoopback (ip : string) : bool :=
  match has_prefix "127." ip with Some _ => true | None => bool_decide (ip = "::1") end.

(** [host != "localhost" && (ip == nil || !ip.IsLoopback())] for [ip := net.ParseIP(host)]. *)
Definition remote_host `{Network} (host : string) : bool :=
  negb (bool_decide (host = "localhost")) &&
  match ParseIP host with Some ip => negb (IsLoopback ip) | None => true end.
