(* ===== verification/Server.v ===== *)
(** * Server: the client of the Pterodactyl panel ([pkg/server/pterodactyl.go])

    Construction and its checks, the requests, the answers and their classification, and the
    redaction of secrets from error texts.  [encoding/json]'s decoder and [strconv.Quote] are
    operations of the class [Encoding]; the HTTP transport is the environment. *)
From S2P Require Import Prelude GoStrings Errors Conc World Sequential Network.

Open Scope string_scope.
Open Scope Z_scope.
Open Scope prog_scope.

(** The struct [config.PterodactylConfig]. *)
Record PterodactylConfig := mkPterodactylConfig {
  BaseURL : string;
  APIToken : string;
  ServerID : string }.

#[export] Instance PterodactylConfig_eta : Eta PterodactylConfig := fun c =>
  mkPterodactylConfig (BaseURL c) (APIToken c) (ServerID c).

(** [safeServerID], the expression [^[A-Za-z0-9_-]+$]. *)
Definition id_char (c : ascii) : bool :=
  let z := GoStrings.code c in
  bool_decide (65 <= z <= 90) || bool_decide (97 <= z <= 122) || bool_decide (48 <= z <= 57) ||
  bool_decide (c = "_"%char) || bool_decide (c = "-"%char).

Definition safeServerID (s : string) : bool :=
  negb (bool_decide (s = "")) && forallb id_char (String.list_ascii_of_string s).

(** [clientTimeout] is the [Timeout] of the client's own copy of the HTTP client. *)
Record PterodactylClient := mkPterodactylClient {
  baseURL : URL;
  apiToken : string;
  serverID : string;
  clientTimeout : Z }.

(** The HTTP client given is nil or has a timeout. *)
Definition NewPterodactylClient `{Network} (cfg : PterodactylConfig) (httpClient : option Z)
    : error + PterodactylClient :=
  match url_Parse (BaseURL cfg) with
  | inl _ => inl (ErrText "invalid Pterodactyl base URL")
  | inr base =>
      if (negb (bool_decide (Scheme base = "http")) && negb (bool_decide (Scheme base = "https")))
         || bool_decide (Host base = "") || url_User base
         || negb (bool_decide (RawQuery base = "")) || negb (bool_decide (Fragment base = ""))
      then inl (ErrText "invalid Pterodactyl base URL")
      else if bool_decide (Scheme base = "http") && remote_host (Hostname base)
      then inl (ErrText "pterodactyl plaintext HTTP is restricted to loopback tests")
      else if bool_decide (TrimSpace (APIToken cfg) = "") || negb (safeServerID (ServerID cfg))
      then inl (ErrText "pterodactyl API token and valid server ID are required")
      else
        let timeout := match httpClient with Some t => t | None => 0 end in
        let timeout := if bool_decide (timeout <= 0) || bool_decide (10 * Second < timeout)
                       then 10 * Second else timeout in
        inr (mkPterodactylClient base (APIToken cfg) (ServerID cfg) timeout)
  end.

(** ** Requests *)

Record Request := mkRequest {
  req_Method : string;
  req_URL : string;
  req_Header : list (string * string);
  req_Body : option string }.

(** [StatusCode] and [Body]; reading the body gives its text and then an error, if there is one. *)
Record Response := mkResponse {
  StatusCode : Z;
  Body : string;
  bodyErr : option error }.

(** What the transport answers to a request ([httpClient.Do], which follows no redirect), and
    whether [http.NewRequestWithContext] accepts its parts. *)
Inductive http : Type -> Type :=
| QNewRequest (method url : string) : http (option error)
| QDo (request : Request) : http (error + Response).

Inductive http_event :=
| HNew (method url : string) (err : option error)
| HDo (request : Request) (answer : error + Response).

Definition http_event_of (B : Type) (q : http B) : B -> http_event :=
  match q in http B return B -> http_event with
  | QNewRequest m u => HNew m u
  | QDo r => HDo r
  end.

Abbreviation http_prog := (prog unit http Empty_set Empty_set).

(** [json.Decoder]: the member [attributes.current_state] of the first value, with the rest of
    the input; [decode_trailing] is what the second [Decode] returns.  [Quote] is [%q]. *)
Class Encoding := {
  decode_status : string -> error + (string * string);
  decode_trailing : string -> option error;
  Quote : string -> string }.

Definition maxPterodactylStatusBody : Z := 64 * 1024.

Definition maxPterodactylErrorBody : Z := 4096.

Definition size (s : string) : Z := Z.of_nat (String.length s).

(** The first [n] bytes of a string. *)
Definition head (n : Z) (s : string) : string := String.substring 0 (Z.to_nat n) s.

(** [io.ReadAll(io.LimitReader(body, limit))]: an error behind the limit is not seen. *)
Definition ReadAll_limited (limit : Z) (response : Response) : error + string :=
  if bool_decide (limit <= size (Body response)) then inr (head limit (Body response))
  else match bodyErr response with Some err => inl err | None => inr (Body response) end.

(** [json.Marshal(map[string]string{"signal": signal})] for the two signals. *)
Definition quoted (s : string) : string :=
  String "034"%char (s ++ String "034"%char EmptyString).

Definition signal_body (signal : string) : string := "{" ++ quoted "signal" ++ ":" ++ quoted signal ++ "}".

Section client.
Context `{Network} `{Encoding}.

(** [PterodactylClient.request]. *)
Definition request (client : PterodactylClient) (method endpoint : string) (body : option string)
    : http_prog (error + Request) :=
  match JoinPath (url_String (baseURL client)) ["api"; "client"; "servers"; serverID client; endpoint] with
  | inl err => Ret (inl (ErrWrap "construct Pterodactyl request URL" err))
  | inr requestURL =>
      err <- ask (QNewRequest method requestURL);;
      Ret (match err with
           | Some err => inl (ErrWrap "construct Pterodactyl request" err)
           | None => inr (mkRequest method requestURL
               [("Authorization", "Bearer " ++ apiToken client); ("Accept", "application/json")] body)
           end)
  end.

Definition sanitize (client : PterodactylClient) (message : string) : string :=
  ReplaceAll (ReplaceAll message (apiToken client) "[REDACTED]") (serverID client) "[REDACTED]".

Definition sanitizeError (err : error) : error := redactedError err "Pterodactyl transport request failed".

Definition classifyHTTPError (statusCode : Z) (err : error) : error :=
  if bool_decide (400 <= statusCode) && bool_decide (statusCode < 500)
     && negb (bool_decide (statusCode = 408)) && negb (bool_decide (statusCode = 429))
  then permanentError err else err.

(** The text before the body of an error response. *)
Definition http_text (operation : string) (statusCode : Z) : string :=
  operation ++ ": HTTP " ++ pretty statusCode.

Definition responseError (client : PterodactylClient) (operation : string) (response : Response) : error :=
  match ReadAll_limited (maxPterodactylErrorBody + 1) response with
  | inl readErr =>
      classifyHTTPError (StatusCode response)
        (ErrText (http_text operation (StatusCode response) ++ " (read error body)"))
  | inr body =>
      let truncated := bool_decide (maxPterodactylErrorBody < size body) in
      let body := if truncated then head maxPterodactylErrorBody body else body in
      let sanitized := sanitize client body in
      let suffix := if truncated then " (truncated)" else "" in
      classifyHTTPError (StatusCode response)
        (ErrText (http_text operation (StatusCode response) ++ " body=" ++ Quote sanitized ++ suffix))
  end.

(** [response.StatusCode < 200 || response.StatusCode >= 300]. *)
Definition unsuccessful (response : Response) : bool :=
  bool_decide (StatusCode response < 200) || bool_decide (300 <= StatusCode response).

(** What [Status] makes of a successful response. *)
Definition status_of_response (response : Response) : string * option error :=
  match ReadAll_limited (maxPterodactylStatusBody + 1) response with
  | inl err => ("", Some (ErrWrap "read Pterodactyl status" err))
  | inr statusBody =>
      if bool_decide (maxPterodactylStatusBody < size statusBody)
      then ("", Some (permanentError (ErrText "pterodactyl status response exceeds 65536 bytes")))
      else
        match decode_status statusBody with
        | inl err => ("", Some (permanentError (ErrWrap "decode Pterodactyl status" err)))
        | inr (state, rest) =>
            if match decode_trailing rest with Some err => errors_Is IoEOF err | None => false end then
              if bool_decide (state = StateOffline) || bool_decide (state = StateStarting)
                 || bool_decide (state = StateRunning) || bool_decide (state = StateStopping)
              then (state, None)
              else ("", Some (permanentError (ErrText "unknown Pterodactyl state")))
            else ("", Some (permanentError (ErrText "decode Pterodactyl status: trailing JSON value")))
        end
  end.

(** [PterodactylClient.Status]. *)
Definition Status (client : PterodactylClient) : http_prog (string * option error) :=
  req <- request client "GET" "resources" None;;
  match req with
  | inl err => Ret ("", Some err)
  | inr req =>
      answer <- ask (QDo req);;
      Ret (match answer with
           | inl err => ("", Some (ErrWrap "get Pterodactyl status" (sanitizeError err)))
           | inr response =>
               if unsuccessful response
               then ("", Some (responseError client "get Pterodactyl status" response))
               else status_of_response response
           end)
  end.

Definition power (client : PterodactylClient) (signal : string) : http_prog (option error) :=
  req <- request client "POST" "power" (Some (signal_body signal));;
  match req with
  | inl err => Ret (Some err)
  | inr req =>
      let req := mkRequest (req_Method req) (req_URL req)
                   (req_Header req ++ [("Content-Type", "application/json")])%list (req_Body req) in
      answer <- ask (QDo req);;
      Ret (match answer with
           | inl err => Some (ErrWrap ("send Pterodactyl " ++ signal ++ " signal") (sanitizeError err))
           | inr response =>
               if unsuccessful response
               then Some (responseError client ("send Pterodactyl " ++ signal ++ " signal") response)
               else None
           end)
  end.

(** The methods [Start] and [Stop]. *)
Definition client_Start (client : PterodactylClient) : http_prog (option error) := power client "start".

Definition client_Stop (client : PterodactylClient) : http_prog (option error) := power client "stop".
End client.
