(* ===== verification/ServerLogic.v ===== *)
(** * ServerLogic: what the panel client promises

    The verdicts of [Status], the requests the client sends, and the redaction of secrets. *)
From S2P Require Import Prelude GoStrings Errors Conc World Sequential Network Server.

Open Scope string_scope.
Open Scope list_scope.
Open Scope Z_scope.
Open Scope prog_scope.

Abbreviation wp := (Sequential.wp http_event_of).

Ltac wp_step := wp_step_with ltac:(cbn [http_event_of]).

(** ** Status *)

Section status.
Context `{Network} `{Encoding}.

(** The body is read to its end or past the limit. *)
Definition readable (r : Response) : Prop := bodyErr r = None \/ maxPterodactylStatusBody < size (Body r).

Definition successful (r : Response) : Prop := 200 <= StatusCode r < 300.

Definition known_state (state : string) : Prop :=
  state ∈ [StateOffline; StateStarting; StateRunning; StateStopping].

(** The response says that the backend is in [state]: a whole body within the limit, that is
    one JSON value and nothing else, whose member is one of the four states. *)
Definition reports (r : Response) (state : string) : Prop :=
  successful r /\ bodyErr r = None /\ size (Body r) <= maxPterodactylStatusBody /\
  known_state state /\
  exists rest err, decode_status (Body r) = inr (state, rest) /\
    decode_trailing rest = Some err /\ errors_Is IoEOF err = true.

(** The response shows that asking again is of no use: a client error other than a timeout or
    rate limit, or a successful and readable response that reports no state. *)
Definition hopeless (r : Response) : Prop :=
  400 <= StatusCode r < 500 /\ StatusCode r <> 408 /\ StatusCode r <> 429 \/
  successful r /\ readable r /\ ~ exists state, reports r state.

(** No error of the standard library is one the sources mark as permanent. *)
Definition plain (err : error) : Prop := IsPermanent err = false.

Definition plain_environment (oracle : forall B, list http_event -> http B -> B) : Prop :=
  (forall lg m u err, oracle (option error) lg (QNewRequest m u) = Some err -> plain err) /\
  (forall base parts err, JoinPath base parts = inl err -> plain err) /\
  (forall lg r, match oracle (error + Response)%type lg (QDo r) with
                | inl err => plain err
                | inr response => match bodyErr response with Some err => plain err | None => True end
                end) /\
  (forall body err, decode_status body = inl err -> plain err).

Lemma unsuccessful_spec r : unsuccessful r = false <-> successful r.
Proof. unfold unsuccessful, successful. rewrite orb_false_iff, !bool_decide_eq_false. lia. Qed.

Lemma classify_permanent code err :
  plain err ->
  IsPermanent (classifyHTTPError code err) = true <-> 400 <= code < 500 /\ code <> 408 /\ code <> 429.
Proof.
  unfold classifyHTTPError, plain. intros Hp. destruct (_ && _) eqn:Hc; go_bool.
  - split; [lia|done].
  - rewrite Hp. split; [done|]. intros Hr.
    rewrite !andb_false_iff, !bool_decide_eq_false, !negb_false_iff, !bool_decide_eq_true in Hc. lia.
Qed.

Lemma responseError_permanent client operation r :
  IsPermanent (responseError client operation r) = true <->
  400 <= StatusCode r < 500 /\ StatusCode r <> 408 /\ StatusCode r <> 429.
Proof. unfold responseError. destruct (ReadAll_limited _ _); by apply classify_permanent. Qed.

Lemma substring_all s n : (String.length s <= n)%nat -> String.substring 0 n s = s.
Proof. revert n. induction s as [|c s IH]; intros [|n] Hn; simpl in *; try lia; try done. by rewrite IH by lia. Qed.

Lemma length_substring n : forall s, (n <= String.length s)%nat -> String.length (String.substring 0 n s) = n.
Proof. induction n as [|n IH]; intros [|c s] Hn; simpl in *; try lia; try done. rewrite IH; lia. Qed.

(** What [Status] makes of a successful response. *)
Lemma status_of_response_spec r :
  successful r -> (forall err, bodyErr r = Some err -> plain err) ->
  (forall body err, decode_status body = inl err -> plain err) ->
  match status_of_response r with
  | (state, None) => reports r state
  | (state, Some e) => state = "" /\ (IsPermanent e = true <-> readable r) /\ ~ exists state, reports r state
  end.
Proof.
  intros Hs Hp Hd. unfold status_of_response, ReadAll_limited. case_bool_decide as Hlim.
  - unfold head. rewrite bool_decide_eq_true_2.
    + split; [done|]. split.
      * split; [|done]. intros _. right. lia.
      * intros (st & _ & _ & Hle & _). lia.
    + unfold size in *. rewrite length_substring; lia.
  - destruct (bodyErr r) as [err|] eqn:Hb.
    + split; [done|]. split.
      * unfold readable. rewrite Hb. split; [|intros [|?]; [done|lia]].
        unfold IsPermanent. simpl. intros Hi. specialize (Hp err eq_refl). unfold plain, IsPermanent in Hp. congruence.
      * intros (st & _ & Hx & _). congruence.
    + rewrite bool_decide_eq_false_2 by lia. assert (Hr : readable r) by by left.
      destruct (decode_status (Body r)) as [err|[state rest]] eqn:Hdec.
      * split; [done|]. split; [done|]. intros (st & _ & _ & _ & _ & rest & err' & Hx & _). congruence.
      * destruct (decode_trailing rest) as [err|] eqn:Ht; [destruct (errors_Is IoEOF err) eqn:He|].
        -- destruct (_ || _) eqn:Hk.
           ++ split_and!; [done|done|lia| |by exists rest, err].
              unfold known_state. rewrite !orb_true_iff, !bool_decide_eq_true in Hk. set_solver.
           ++ split; [done|]. split; [done|]. intros (st & _ & _ & _ & Hin & rest' & err' & Hx & _).
              unfold known_state in Hin. rewrite !orb_false_iff, !bool_decide_eq_false in Hk.
              assert (st = state) as -> by congruence. set_solver.
        -- split; [done|]. split; [done|]. intros (st & _ & _ & _ & _ & rest' & err' & Hx & Hy & Hz). congruence.
        -- split; [done|]. split; [done|]. intros (st & _ & _ & _ & _ & rest' & err' & Hx & Hy & Hz). congruence.
Qed.

(** The responses of the panel in a log. *)
Definition response_of_event (e : http_event) : option Response :=
  match e with HDo _ (inr r) => Some r | _ => None end.

Definition responses (lg : list http_event) : list Response := omap response_of_event lg.

(** What [request] builds, if it succeeds. *)
Definition panel_url (client : PterodactylClient) (endpoint : string) : error + string :=
  JoinPath (url_String (baseURL client)) ["api"; "client"; "servers"; serverID client; endpoint].

Definition panel_request (client : PterodactylClient) (method url : string) (body : option string) : Request :=
  mkRequest method url [("Authorization", ("Bearer " ++ apiToken client)%string); ("Accept", "application/json")] body.

Lemma request_spec oracle client method endpoint body lg :
  wp oracle (request client method endpoint body) lg (fun r lg' =>
    match r with
    | inl err => responses lg' = responses lg /\ (plain_environment oracle -> plain err) /\
        (lg' = lg \/ exists url e, lg' = lg ++ [HNew method url e])
    | inr req => exists url, panel_url client endpoint = inr url /\ lg' = lg ++ [HNew method url None] /\
        req = panel_request client method url body
    end).
Proof.
  unfold request. repeat wp_step; simplify_eq.
  - split_and!; [done| |by left]. intros (_ & Hj & _). exact (Hj _ _ _ Heqs).
  - match goal with |- context [oracle (option error) lg ?q] => destruct (oracle (option error) lg q) eqn:He end.
    + split_and!; [|intros (Hn & _); exact (Hn _ _ _ _ He)|eauto].
      unfold responses. by rewrite omap_app, app_nil_r.
    + eauto.
Qed.

(** C34. The verdict on the backend's state.  Asking for the status ends; it yields a state
    exactly when the panel's answer reports that state, one of the four, in a successful
    response with a whole body of one JSON value within 64 KiB; otherwise it yields the
    empty state and an error, which is permanent exactly when the panel's answer shows
    that asking again is of no use. *)
Theorem status_verdict oracle client :
  plain_environment oracle ->
  wp oracle (Status client) [] (fun r lg =>
    match r with
    | (state, None) => exists response, responses lg = [response] /\ reports response state
    | (state, Some e) => state = "" /\
        (forall response state, response ∈ responses lg -> ~ reports response state) /\
        (IsPermanent e = true <-> exists response, responses lg = [response] /\ hopeless response)
    end).
Proof.
  intros Henv. pose proof Henv as (_ & _ & Hdo & Hdec). unfold Status. wp_step.
  eapply seq_mono; [apply request_spec|]. intros [err|req] lg; cbv beta iota.
  - intros (Hr & Hp & _). wp_step. rewrite Hr. split_and!; [done|by intros ? ? ?%elem_of_nil|].
    unfold plain in Hp. rewrite (Hp Henv). split; [done|]. by intros (? & ? & _).
  - intros (url & _ & -> & ->). wp_step. wp_step.
    match goal with |- context [oracle (error + Response)%type ?l (QDo ?r)] => specialize (Hdo l r);
      destruct (oracle (error + Response)%type l (QDo r)) as [err|response] eqn:Ha end; wp_step.
    + split_and!; [done|by intros ? ? ?%elem_of_nil|]. unfold plain in Hdo.
      unfold sanitizeError, IsPermanent in *. simpl in *. rewrite Hdo.
      split; [done|]. by intros (? & ? & _).
    + simpl. destruct (unsuccessful response) eqn:Hu.
      * assert (Hs : ~ successful response) by (rewrite <- unsuccessful_spec, Hu; done).
        split_and!; [done|intros r st ->%list_elem_of_singleton Hr; by destruct Hr|].
        rewrite responseError_permanent. split.
        -- intros Hc. exists response. split; [done|by left].
        -- intros (r & [= <-] & [Hh|Hh]); [done|]. by destruct Hh.
      * apply unsuccessful_spec in Hu.
        pose proof (status_of_response_spec response Hu ltac:(intros e He; by rewrite He in Hdo) Hdec) as Hspec.
        destruct (status_of_response response) as [state [e|]]; [|by exists response].
        destruct Hspec as (-> & Hp & Hn). split_and!; [done| |].
        -- intros r st ->%list_elem_of_singleton Hr. eauto.
        -- rewrite Hp. split.
           ++ intros Hrd. exists response. split; [done|]. right. auto.
           ++ intros (r & [= <-] & [Hh|Hh]); [|tauto]. unfold successful in Hu. lia.
Qed.
End status.

(** A network and an encoding for the witnesses: one URL, bodies that are bare states. *)
#[local] Instance sample_network : Network := {|
  ResolveUDPAddr := fun _ => inr (mkUDPAddr "10.0.0.5" 8211);
  ResolveTCPAddr := fun _ => inr (mkUDPAddr "127.0.0.1" 8080);
  ParseIP := fun _ => None;
  url_Parse := fun _ => inr (mkURL "https" "panel" false "" "" "panel" "https://panel");
  JoinPath := fun base parts => inr (String.concat "/" (base :: parts)) |}.

#[local] Instance sample_encoding : Encoding := {|
  decode_status := fun body => inr (body, "");
  decode_trailing := fun _ => Some (ErrSentinel IoEOF);
  Quote := quoted |}.

Definition sample_client : PterodactylClient :=
  mkPterodactylClient (mkURL "https" "panel" false "" "" "panel" "https://panel") "token" "1a2b" (10 * Second).

Definition sample_panel_answer (r : Response) (B : Type) (_ : list http_event) (q : http B) : B :=
  match q in http B return B with QNewRequest _ _ => None | QDo _ => inr r end.

Lemma sample_plain r : bodyErr r = None -> plain_environment (sample_panel_answer r).
Proof. intros Hr. split_and!; simpl; try done. intros _ _. by rewrite Hr. Qed.

Lemma status_verdict_witness :
  wp (sample_panel_answer (mkResponse 200 "exploding" None)) (Status sample_client) [] (fun r lg =>
    snd r <> None /\
    match r with
    | (state, None) => exists response, responses lg = [response] /\ reports response state
    | (state, Some e) => state = "" /\
        (forall response state, response ∈ responses lg -> ~ reports response state) /\
        (IsPermanent e = true <-> exists response, responses lg = [response] /\ hopeless response)
    end).
Proof.
  apply seq_and; [vm_compute; congruence|].
  apply (status_verdict (sample_panel_answer (mkResponse 200 "exploding" None)) sample_client).
  by apply sample_plain.
Defined.

(** ** Requests *)

Section requests.
Context `{Network} `{Encoding}.

Definition request_of_event (e : http_event) : option Request :=
  match e with HDo r _ => Some r | HNew _ _ _ => None end.

Definition requests (lg : list http_event) : list Request := omap request_of_event lg.

(** Nothing was sent, or one request to the panel's endpoint with the client's token. *)
Definition one_request (client : PterodactylClient) (method endpoint : string)
    (extra : list (string * string)) (body : option string) (lg : list http_event) : Prop :=
  requests lg = [] \/
  exists url, panel_url client endpoint = inr url /\
    requests lg = [mkRequest method url
      ([("Authorization", ("Bearer " ++ apiToken client)%string); ("Accept", "application/json")] ++ extra) body].

(** The conditions on a panel's URL and on the credentials. *)
Definition panel_base (base : URL) : Prop :=
  (Scheme base = "https" \/ Scheme base = "http" /\ remote_host (Hostname base) = false) /\
  Host base <> "" /\ url_User base = false /\ RawQuery base = "" /\ Fragment base = "".

Lemma NewPterodactylClient_spec cfg httpClient client :
  NewPterodactylClient cfg httpClient = inr client <->
  exists base, url_Parse (BaseURL cfg) = inr base /\ panel_base base /\
    TrimSpace (APIToken cfg) <> "" /\ safeServerID (ServerID cfg) = true /\
    client = mkPterodactylClient base (APIToken cfg) (ServerID cfg)
      (match httpClient with
       | Some t => if bool_decide (t <= 0) || bool_decide (10 * Second < t) then 10 * Second else t
       | None => 10 * Second
       end).
Proof.
  unfold NewPterodactylClient, panel_base.
  destruct (url_Parse (BaseURL cfg)) as [err|base]; [split; [done|by intros (? & ? & _)]|]. split.
  - cbv zeta. do 3 (match goal with |- (if ?b then _ else _) = _ -> _ => destruct b eqn:? end; [done|]).
    go_bool. intros [= <-]. exists base. split_and!; try done.
    + repeat match goal with H : (_ && _) = false |- _ => apply andb_false_iff in H end.
      rewrite ?negb_false_iff, ?bool_decide_eq_true, ?bool_decide_eq_false in *. naive_solver.
    + by destruct httpClient.
  - intros (base' & [= <-] & ((Hsch & Hh & -> & Hq & Hf) & Ht & Hid & ->)).
    rewrite (bool_decide_eq_false_2 (Host base = "")) by done.
    rewrite (bool_decide_eq_true_2 (RawQuery base = "")), (bool_decide_eq_true_2 (Fragment base = "")) by done.
    rewrite (bool_decide_eq_false_2 (TrimSpace _ = "")) by done. rewrite Hid.
    destruct Hsch as [Hsch|[Hsch Hloc]]; rewrite Hsch; [|rewrite Hloc]; simpl; by destruct httpClient.
Qed.

Lemma requests_app l1 l2 : requests (l1 ++ l2) = requests l1 ++ requests l2.
Proof. apply omap_app. Qed.

(** C35. The client talks to its panel only.  A client that was built has an HTTPS base URL, or
    plain HTTP to a loopback host, without user info, query or fragment, and gives up on a
    request within ten seconds; asking for the status and sending a power signal each make
    at most one request, to the endpoint of the configured server below that base and with
    the configured token; and a signal succeeds exactly when the panel answered it with
    success, and fails for good exactly when the panel answered with a client error other
    than a timeout or rate limit. *)
Theorem client_talks_to_panel oracle cfg httpClient client signal :
  NewPterodactylClient cfg httpClient = inr client -> plain_environment oracle ->
  (Scheme (baseURL client) = "https" \/
   Scheme (baseURL client) = "http" /\ remote_host (Hostname (baseURL client)) = false) /\
  url_Parse (BaseURL cfg) = inr (baseURL client) /\ url_User (baseURL client) = false /\
  0 < clientTimeout client <= 10 * Second /\
  wp oracle (Status client) [] (fun _ lg => one_request client "GET" "resources" [] None lg) /\
  wp oracle (power client signal) [] (fun r lg =>
    one_request client "POST" "power" [("Content-Type", "application/json")] (Some (signal_body signal)) lg /\
    (r = None <-> exists response, responses lg = [response] /\ successful response) /\
    forall e, r = Some e -> (IsPermanent e = true <-> exists response, responses lg = [response] /\
      400 <= StatusCode response < 500 /\ StatusCode response <> 408 /\ StatusCode response <> 429)).
Proof.
  intros Hnew Henv. apply NewPterodactylClient_spec in Hnew as (base & Hb & Hbase & _ & _ & ->).
  destruct Hbase as (Hsch & _ & Hu & _). split_and!; try done.
  { simpl. unfold Second. destruct httpClient; [|lia]. destruct (_ || _) eqn:Ht; [lia|]. go_bool. unfold Second in *. lia. }
  { simpl. unfold Second. destruct httpClient; [|lia]. destruct (_ || _) eqn:Ht; [lia|]. go_bool. unfold Second in *. lia. }
  all: set (client := mkPterodactylClient _ _ _ _).
  - unfold Status. wp_step. eapply seq_mono; [apply request_spec|]. intros [err|req] lg; cbv beta iota.
    + intros (_ & _ & [->|(url & e & ->)]); wp_step; by left.
    + intros (url & Hurl & -> & ->). do 3 wp_step. right. by exists url.
  - unfold power. wp_step. eapply seq_mono; [apply request_spec|]. intros [err|req] lg; cbv beta iota.
    + intros (Hr & Hp & Hl). wp_step. rewrite Hr. split_and!.
      * destruct Hl as [->|(url & e & ->)]; by left.
      * split; [done|]. by intros (? & ? & _).
      * intros e [= <-]. unfold plain in Hp. rewrite (Hp Henv). split; [done|]. by intros (? & ? & _).
    + intros (url & Hurl & -> & ->). cbv zeta. wp_step. wp_step.
      destruct Henv as (_ & _ & Hdo & _).
      match goal with |- context [oracle (error + Response)%type ?l (QDo ?r)] => specialize (Hdo l r);
        destruct (oracle (error + Response)%type l (QDo r)) as [err|response] eqn:Ha end; wp_step.
      all: split; [right; by exists url|].
      * split; [split; [done|by intros (? & ? & _)]|]. intros e [= <-]. unfold plain in Hdo.
        unfold sanitizeError, IsPermanent in *. simpl in *. rewrite Hdo. split; [done|]. by intros (? & ? & _).
      * simpl. destruct (unsuccessful response) eqn:Hun.
        -- assert (Hs : ~ successful response) by (rewrite <- unsuccessful_spec, Hun; done).
           split; [split; [done|]; by intros (r & [= <-] & ?)|]. intros e [= <-].
           rewrite responseError_permanent. split; [eauto|]. by intros (r & [= <-] & ?).
        -- apply unsuccessful_spec in Hun. split; [split; [eauto|done]|done].
Qed.
End requests.

Lemma client_talks_to_panel_witness :
  NewPterodactylClient (mkPterodactylConfig "https://panel" "token" "1a2b") None = inr sample_client /\
  wp (sample_panel_answer (mkResponse 403 "" None)) (power sample_client "start") [] (fun r lg =>
    r <> None /\ one_request sample_client "POST" "power" [("Content-Type", "application/json")]
      (Some (signal_body "start")) lg).
Proof.
  split; [vm_compute; reflexivity|]. apply seq_and; [vm_compute; congruence|].
  eapply seq_mono.
  - apply (client_talks_to_panel (sample_panel_answer (mkResponse 403 "" None))
      (mkPterodactylConfig "https://panel" "token" "1a2b") None sample_client "start");
      [vm_compute; reflexivity|by apply sample_plain].
  - intros r lg [Hr _]. exact Hr.
Defined.

(** ** Redaction *)

(** [p] occurs in [s]. *)
Definition occurs (p s : string) : Prop := exists a b, s = (a ++ p ++ b)%string.

Fixpoint char_in (c : ascii) (s : string) : Prop :=
  match s with EmptyString => False | String d s => d = c \/ char_in c s end.

Definition mark : string := "[REDACTED]".

(** A secret that the mark cannot spell: no brackets in it, and not a part of the word. *)
Definition spelled_apart (p : string) : Prop :=
  p <> "" /\ ~ char_in "["%char p /\ ~ char_in "]"%char p /\ ~ occurs p "REDACTED".

Lemma app_String c p r : (String c p ++ r)%string = String c (p ++ r).
Proof. reflexivity. Qed.

Lemma app_Empty r : ("" ++ r)%string = r.
Proof. reflexivity. Qed.

Lemma app_String_assoc a b c : ((a ++ b) ++ c)%string = (a ++ (b ++ c))%string.
Proof. induction a as [|x a IH]; [done|]. by rewrite !app_String, IH. Qed.

Lemma length_app_String a b : String.length (a ++ b) = (String.length a + String.length b)%nat.
Proof. induction a as [|x a IH]; [done|]. rewrite app_String. simpl. by rewrite IH. Qed.

(** Concatenations in sight, one character at a time. *)
Ltac app_simpl := simpl in *; rewrite ?app_String, ?app_Empty in *.

Lemma has_prefix_spec p : forall s rest, has_prefix p s = Some rest <-> s = (p ++ rest)%string.
Proof.
  induction p as [|c p IH]; intros s rest; app_simpl; [split; [by intros [= ->]|by intros ->]|].
  destruct s as [|d s]; [done|]. case_bool_decide as Hc; [subst d; rewrite IH|]; app_simpl; split; congruence.
Qed.

Lemma occurs_String p c s : occurs p (String c s) <-> occurs p s \/ exists b, String c s = (p ++ b)%string.
Proof.
  split.
  - intros ([|d a] & b & He); app_simpl; [eauto|]. left. exists a, b. by injection He as _ ->.
  - intros [(a & b & ->)|(b & He)]; [by exists (String c a), b|]. exists "", b. by rewrite He.
Qed.

(** A text without the character [c] lies before or behind any [c]. *)
Lemma prefix_before p c : forall x y b, ~ char_in c p ->
  (x ++ String c y)%string = (p ++ b)%string -> exists b', x = (p ++ b')%string.
Proof.
  induction p as [|d p IH]; intros x y b Hc He; [by exists x|]. app_simpl.
  destruct x as [|e x]; app_simpl; injection He as -> He.
  - tauto.
  - destruct (IH x y b ltac:(tauto) He) as [b' ->]. by exists b'.
Qed.

Lemma occurs_split p c x y : ~ char_in c p -> occurs p (x ++ String c y) -> p <> "" -> occurs p x \/ occurs p y.
Proof.
  intros Hc Ho Hp. induction x as [|d x IH]; app_simpl; apply occurs_String in Ho as [Ho|(b & He)].
  - auto.
  - destruct p as [|e p]; [done|]. app_simpl. injection He as -> _. tauto.
  - destruct (IH Ho) as [(a & b & ->)|]; [left; by exists (String d a), b|auto].
  - left. change (String d (x ++ String c y)) with ((String d x) ++ String c y)%string in He.
    destruct (prefix_before _ _ _ _ _ Hc He) as [b' ->]. by exists "", b'.
Qed.

Section replace.
Context (old : string).

(** Text without brackets at the front of a replaced text was there before. *)
Lemma replaced_prefix fuel : forall p s b, ~ char_in "["%char p ->
  replace_all fuel old mark s = (p ++ b)%string -> exists b', s = (p ++ b')%string.
Proof.
  induction fuel as [|fuel IH]; intros p s b Hp; simpl; [eauto|].
  destruct s as [|c s]; [eauto|]. destruct (has_prefix old (String c s)) as [rest|].
  - destruct p as [|d p]; [eauto|]. simpl. intros [= <- _]. simpl in Hp. tauto.
  - destruct p as [|d p]; [eauto|]. simpl. intros [= <- He]. simpl in Hp.
    destruct (IH p s b ltac:(tauto) He) as [b' ->]. eauto.
Qed.

(** Replacing creates no new occurrence of a secret. *)
Lemma replace_keeps_absent p fuel : spelled_apart p -> forall s, ~ occurs p s ->
  ~ occurs p (replace_all fuel old mark s).
Proof.
  intros (Hne & Hl & Hr & Hm). induction fuel as [|fuel IH]; intros s Hs; simpl; [done|].
  destruct s as [|c s]; [done|]. destruct (has_prefix old (String c s)) as [rest|] eqn:Hp.
  - intros Ho. change (mark ++ replace_all fuel old mark rest)%string with
      ("" ++ String "[" ("REDACTED" ++ String "]" (replace_all fuel old mark rest)))%string in Ho.
    apply occurs_split in Ho as [Ho|Ho]; [|apply occurs_split in Ho as [Ho|Ho]| |]; try done.
    + destruct p; [done|]. destruct Ho as ([|? ?] & b & He); done.
    + apply IH in Ho; [done|]. apply has_prefix_spec in Hp. rewrite Hp in Hs.
      intros (a & b & ->). apply Hs. exists (old ++ a)%string, b. by rewrite app_String_assoc.
  - intros [Ho|(b & He)]%occurs_String.
    + revert Ho. apply IH. intros Ho. apply Hs. apply occurs_String. by left.
    + destruct p as [|d p]; [done|]. simpl in Hl. injection He as -> He.
      apply replaced_prefix in He as [b' ->]; [|tauto]. apply Hs. by exists "", b'.
Qed.

(** Replacing leaves no occurrence of the old text. *)
Lemma replace_removes fuel : spelled_apart old -> forall s, (String.length s <= fuel)%nat ->
  ~ occurs old (replace_all fuel old mark s).
Proof.
  intros (Hne & Hl & Hr & Hm). induction fuel as [|fuel IH]; intros s Hs; simpl.
  - destruct s; [|simpl in Hs; lia]. intros (a & b & He). destruct a, old; done.
  - destruct s as [|c s]; [intros (a & b & He); destruct a, old; done|].
    destruct (has_prefix old (String c s)) as [rest|] eqn:Hp.
    + intros Ho. change (mark ++ replace_all fuel old mark rest)%string with
        ("" ++ String "[" ("REDACTED" ++ String "]" (replace_all fuel old mark rest)))%string in Ho.
      apply occurs_split in Ho as [Ho|Ho]; [|apply occurs_split in Ho as [Ho|Ho]| |]; try done.
      * destruct Ho as ([|? ?] & b & He); destruct old; done.
      * revert Ho. apply IH. apply has_prefix_spec in Hp. apply (f_equal String.length) in Hp.
        rewrite length_app_String in Hp. simpl in *. destruct old; [done|]. simpl in Hp. lia.
    + simpl in Hs. intros [Ho|(b & He)]%occurs_String; [revert Ho; apply IH; lia|].
      destruct old as [|d p] eqn:Hold; [done|]. simpl in Hl. injection He as -> He.
      rewrite <- Hold in He, Hp. apply replaced_prefix in He as [b' ->]; [|tauto].
      assert (Hx : has_prefix old (String d (p ++ b')) = Some b') by (apply has_prefix_spec; by rewrite Hold).
      congruence.
Qed.
End replace.

(** C36. Secrets do not survive redaction.  Whatever the panel writes into the part of an error body
    that is kept, the text that enters the error contains neither the token nor the
    server's ID, for secrets that the redaction mark itself cannot spell. *)
Theorem sanitize_hides_secrets client message :
  spelled_apart (apiToken client) -> spelled_apart (serverID client) ->
  ~ occurs (apiToken client) (sanitize client message) /\ ~ occurs (serverID client) (sanitize client message).
Proof.
  intros Ht Hid. unfold sanitize, ReplaceAll. split.
  - apply replace_keeps_absent; [done|]. by apply replace_removes.
  - by apply replace_removes.
Qed.

Lemma char_in_app c a b : char_in c (a ++ b)%string <-> char_in c a \/ char_in c b.
Proof. induction a as [|d a IH]; rewrite ?app_String; simpl; [rewrite app_Empty; tauto|rewrite IH; tauto]. Qed.

(** A text with a character that [s] does not have does not occur in [s]. *)
Lemma occurs_char c p s : char_in c p -> ~ char_in c s -> ~ occurs p s.
Proof. intros Hp Hs (a & b & ->). apply Hs. rewrite !char_in_app. tauto. Qed.

Definition secret_client : PterodactylClient :=
  mkPterodactylClient (baseURL sample_client) "ptlc_7Qx" "1a2b3c4d" (10 * Second).

Ltac spell := split_and!; [discriminate|intros H; simpl in H; destruct_or! H; done..|].

Lemma sanitize_hides_secrets_witness :
  sanitize secret_client "bad token ptlc_7Qx for 1a2b3c4d" = "bad token [REDACTED] for [REDACTED]" /\
  ~ occurs "ptlc_7Qx" (sanitize secret_client "bad token ptlc_7Qx for 1a2b3c4d").
Proof.
  split; [vm_compute; reflexivity|].
  refine (proj1 (sanitize_hides_secrets secret_client "bad token ptlc_7Qx for 1a2b3c4d" _ _)); spell;
    [apply (occurs_char "7")|apply (occurs_char "1")]; simpl; try (intros H; destruct_or! H; done); tauto.
Defined.

(** A body is cut to 4096 bytes before it is redacted: a token that straddles the cut loses its
    end, no longer matches, and its first characters enter the error. *)
Definition padding (n : nat) : string := String.string_of_list_ascii (replicate n "x"%char).

Lemma truncation_leaks_token_prefix :
  responseError secret_client "get Pterodactyl status"
    (mkResponse 403 (padding 4090 ++ "ptlc_7Qx") None) =
  permanentError (ErrText ("get Pterodactyl status: HTTP 403 body=" ++
    quoted (padding 4090 ++ "ptlc_7") ++ " (truncated)")).
Proof. vm_compute. reflexivity. Qed.
