(* ===== verification/Health.v ===== *)
(** * Health: the health endpoint and its client ([pkg/proxy/health.go], [cmd/healthcheck.go])

    The handler as a function of the readiness flag and the request, and the check that the
    [healthcheck] command makes, a program over the HTTP transport of [Server]. *)
From S2P Require Import Prelude GoStrings Errors Conc World Sequential Network Server ServerLogic.

Open Scope string_scope.
Open Scope list_scope.
Open Scope Z_scope.
Open Scope prog_scope.

(** ** The endpoint *)

Record HealthState := mkHealthState { health_ready : bool }.

Definition SetReady (ready : bool) (state : HealthState) : HealthState := mkHealthState ready.

Definition Ready (state : HealthState) : bool := health_ready state.

(** Status, content type and body. *)
Record answer := mkAnswer {
  answer_status : Z;
  answer_type : string;
  answer_body : string }.

Definition line (s : string) : string := s ++ String "010"%char EmptyString.

Definition serve_healthz : answer := mkAnswer 200 "text/plain; charset=utf-8" (line "ok").

Definition serve_readyz (state : HealthState) : answer :=
  if Ready state then mkAnswer 200 "text/plain; charset=utf-8" (line "ready")
  else mkAnswer 503 "text/plain; charset=utf-8" (line "not ready").

(** [NewHealthHandler] for a request with a clean path: the patterns [GET /healthz] and
    [GET /readyz] of [http.ServeMux] also serve [HEAD], whose body the server drops; a known
    path with another method is refused with 405, any other path with 404. *)
Definition NewHealthHandler (state : HealthState) (method path : string) : answer :=
  let get := bool_decide (method = "GET") || bool_decide (method = "HEAD") in
  if bool_decide (path = "/healthz") then
    if get then serve_healthz else mkAnswer 405 "text/plain; charset=utf-8" (line "Method Not Allowed")
  else if bool_decide (path = "/readyz") then
    if get then serve_readyz state else mkAnswer 405 "text/plain; charset=utf-8" (line "Method Not Allowed")
  else mkAnswer 404 "text/plain; charset=utf-8" (line "404 page not found").

(** ** The check *)

Section check.
Context `{Network}.

(** The restriction on the endpoint. *)
Definition loopback_endpoint (endpoint : URL) : bool :=
  negb (bool_decide (Scheme endpoint <> "http") || url_User endpoint
        || bool_decide (Hostname endpoint = "") || remote_host (Hostname endpoint)).

(** [checkHealth]; its client turns a redirect into an error of [Do]. *)
Definition checkHealth (address : string) : http_prog (option error) :=
  match url_Parse address with
  | inl err => Ret (Some (ErrWrap "parse health endpoint" err))
  | inr endpoint =>
      if negb (loopback_endpoint endpoint)
      then Ret (Some (ErrText "health endpoint must be an HTTP loopback URL"))
      else
        nerr <- ask (QNewRequest "GET" (url_String endpoint));;
        match nerr with
        | Some err => Ret (Some (ErrWrap "create health request" err))
        | None =>
            response <- ask (QDo (mkRequest "GET" (url_String endpoint) [] None));;
            Ret (match response with
                 | inl err => Some (ErrWrap "request health endpoint" err)
                 | inr response =>
                     if unsuccessful response then Some (ErrText "health endpoint returned a failure") else None
                 end)
        end
  end.

(** The transport is that of a process whose health server is in [state]: it answers requests for
    the URL [url] by the handler's answer for [path]. *)
Definition served_by (oracle : forall B, list http_event -> http B -> B) (state : HealthState)
    (url path : string) : Prop :=
  (forall lg, oracle (option error) lg (QNewRequest "GET" url) = None) /\
  forall lg r, req_URL r = url -> exists response,
    oracle (error + Response)%type lg (QDo r) = inr response /\
    StatusCode response = answer_status (NewHealthHandler state (req_Method r) path) /\
    Body response = answer_body (NewHealthHandler state (req_Method r) path).

(** C40. The health check.  Checking an address ends, sends at most one request, a GET without a
    body to that very address and only if it is a plain HTTP URL of the loopback host
    without user info, and succeeds exactly when such a request is answered with success;
    so against the process's own server the check of [/healthz] succeeds whatever the
    state, and the check of [/readyz] exactly while the process is ready. *)
Theorem health_check_exact oracle address :
  wp oracle (checkHealth address) [] (fun r lg =>
    (requests lg = [] \/ exists endpoint, url_Parse address = inr endpoint /\
       Scheme endpoint = "http" /\ url_User endpoint = false /\ Hostname endpoint <> "" /\
       remote_host (Hostname endpoint) = false /\
       requests lg = [mkRequest "GET" (url_String endpoint) [] None]) /\
    (r = None <-> exists response, responses lg = [response] /\ successful response) /\
    forall endpoint state, url_Parse address = inr endpoint -> loopback_endpoint endpoint = true ->
      (served_by oracle state (url_String endpoint) "/healthz" -> r = None) /\
      (served_by oracle state (url_String endpoint) "/readyz" -> (r = None <-> Ready state = true))).
Proof.
  unfold checkHealth. destruct (url_Parse address) as [err|endpoint] eqn:Hurl.
  { apply seq_ret. split_and!; [by left| |done]. split; [done|by intros (? & ? & _)]. }
  destruct (loopback_endpoint endpoint) eqn:Hl; simpl negb; cbv iota.
  2: { apply seq_ret. split_and!; [by left|split; [done|by intros (? & ? & _)]|]. intros e st [= <-]. by rewrite Hl. }
  assert (Hend : Scheme endpoint = "http" /\ url_User endpoint = false /\ Hostname endpoint <> "" /\
    remote_host (Hostname endpoint) = false).
  { unfold loopback_endpoint in Hl. go_bool. split_and!; try done. by apply dec_stable. }
  wp_step. wp_step.
  destruct (oracle (option error) [] (QNewRequest "GET" (url_String endpoint))) as [err|] eqn:Hn.
  { wp_step. split_and!; [by left|split; [done|by intros (? & ? & _)]|]. intros e st [= <-] _.
    split; intros [Hs _]; by rewrite Hs in Hn. }
  wp_step. wp_step. wp_step.
  match goal with |- context [oracle (error + Response)%type ?l (QDo ?r)] => set (lg := l); set (req := r) end.
  split; [|split].
  - right. exists endpoint. by destruct_and! Hend.
  - destruct (oracle _ lg (QDo req)) as [err|response]; simpl; [split; [done|by intros (? & ? & _)]|].
    destruct (unsuccessful response) eqn:Hu; simpl.
    + split; [done|]. intros (r & [= <-] & Hs%unsuccessful_spec). congruence.
    + split; [|done]. intros _. exists response. split; [done|by apply unsuccessful_spec].
  - intros e st [= <-] _. split; intros [_ Hs]; destruct (Hs lg req eq_refl) as (response & -> & Hc & _);
      unfold unsuccessful; rewrite Hc; simpl; [done|].
    unfold NewHealthHandler, serve_readyz. simpl. by destruct (Ready st).
Qed.
End check.

(** A network that knows the endpoint of the container's health check, and its server. *)
Definition health_network : Network := {|
  ResolveUDPAddr := fun _ => inl (ErrText "no such host");
  ResolveTCPAddr := fun _ => inl (ErrText "no such host");
  ParseIP := fun s => if bool_decide (s = "127.0.0.1") then Some s else None;
  url_Parse := fun s => inr (mkURL "http" "127.0.0.1:8080" false "" "" "127.0.0.1" s);
  JoinPath := fun _ _ => inl (ErrText "not used") |}.

Definition health_server (state : HealthState) (B : Type) (_ : list http_event) (q : http B) : B :=
  match q in http B return B with
  | QNewRequest _ _ => None
  | QDo r =>
      let a := NewHealthHandler state (req_Method r) "/readyz" in
      inr (mkResponse (answer_status a) (answer_body a) None)
  end.

Lemma health_check_exact_witness :
  wp (health_server (mkHealthState false)) (@checkHealth health_network "http://127.0.0.1:8080/readyz") []
    (fun r _ => r = None <-> false = true).
Proof.
  eapply seq_mono; [apply (@health_check_exact health_network)|]. intros r lg (_ & _ & Hs).
  refine (proj2 (Hs (mkURL "http" "127.0.0.1:8080" false "" "" "127.0.0.1" "http://127.0.0.1:8080/readyz")
    (mkHealthState false) eq_refl eq_refl) _).
  split; [reflexivity|]. intros lg' req _. eexists. split; [reflexivity|]. split; reflexivity.
Defined.
