(* ===== verification/Config.v ===== *)
(** * Config: the configuration ([pkg/config/config.go])

    The struct, its defaults, validation, the overrides from the environment, loading and the
    redacted form that is logged.  The YAML decoder is a third-party package and thus a
    parameter; the environment is the function [LookupEnv]; error texts are kept without
    their formatted arguments.  The two loops over a Go map take the order in which the
    runtime visits it as an argument. *)
From S2P Require Import Prelude GoStrings Errors World Network Server.

Open Scope string_scope.
Open Scope Z_scope.

Record Config := mkConfig {
  cfg_ListenAddr : string;
  cfg_ServerAddr : string;
  cfg_MaxSessions : Z;
  cfg_MaxPacketSize : Z;
  cfg_Game : string;
  cfg_AutoStopDelay : Z;
  cfg_IdleTimeout : Z;
  cfg_StartupTimeout : Z;
  cfg_StartupPollInterval : Z;
  cfg_StartupSettleDelay : Z;
  cfg_StartupBufferPackets : Z;
  cfg_StartupBufferBytesPerSession : Z;
  cfg_StartupBufferBytesGlobal : Z;
  cfg_WakePolicy : string;
  cfg_WakeSignatures : list string;
  cfg_LogUnmatchedPrefixes : bool;
  cfg_DiagnosticPrefixBytes : Z;
  cfg_HealthAddr : string;
  cfg_BackendReadinessMode : string;
  cfg_BackendReadinessAddr : string;
  cfg_Pterodactyl : PterodactylConfig;
  cfg_LogLevel : string }.

#[export] Instance Config_eta : Eta Config := fun c =>
  mkConfig (cfg_ListenAddr c) (cfg_ServerAddr c) (cfg_MaxSessions c) (cfg_MaxPacketSize c) (cfg_Game c)
    (cfg_AutoStopDelay c) (cfg_IdleTimeout c) (cfg_StartupTimeout c) (cfg_StartupPollInterval c)
    (cfg_StartupSettleDelay c) (cfg_StartupBufferPackets c) (cfg_StartupBufferBytesPerSession c)
    (cfg_StartupBufferBytesGlobal c) (cfg_WakePolicy c) (cfg_WakeSignatures c) (cfg_LogUnmatchedPrefixes c)
    (cfg_DiagnosticPrefixBytes c) (cfg_HealthAddr c) (cfg_BackendReadinessMode c) (cfg_BackendReadinessAddr c)
    (cfg_Pterodactyl c) (cfg_LogLevel c).

Definition maxUDPPayloadSize : Z := 65507.

Definition DefaultConfig : Config := {|
  cfg_ListenAddr := ":8211";
  cfg_ServerAddr := "";
  cfg_MaxSessions := 32;
  cfg_MaxPacketSize := maxUDPPayloadSize;
  cfg_Game := "palworld";
  cfg_AutoStopDelay := Minute;
  cfg_IdleTimeout := 30 * Second;
  cfg_StartupTimeout := 5 * Minute;
  cfg_StartupPollInterval := 2 * Second;
  cfg_StartupSettleDelay := 5 * Second;
  cfg_StartupBufferPackets := 32;
  cfg_StartupBufferBytesPerSession := 262144;
  cfg_StartupBufferBytesGlobal := 4194304;
  cfg_WakePolicy := "signature";
  cfg_WakeSignatures := ["09080004bc597e73"];
  cfg_LogUnmatchedPrefixes := false;
  cfg_DiagnosticPrefixBytes := 8;
  cfg_HealthAddr := "127.0.0.1:8080";
  cfg_BackendReadinessMode := "pterodactyl";
  cfg_BackendReadinessAddr := "";
  cfg_Pterodactyl := mkPterodactylConfig "" "" "";
  cfg_LogLevel := "info" |}.

(** ** The redacted form *)

(** The copy [RedactedString] prints with [%+v]. *)
Definition RedactedConfig (cfg : Config) : Config :=
  let redacted := cfg <| cfg_ServerAddr := "***REDACTED***" |> in
  let redacted := if bool_decide (cfg_BackendReadinessAddr redacted <> "")
                  then redacted <| cfg_BackendReadinessAddr := "***REDACTED***" |> else redacted in
  redacted <| cfg_Pterodactyl := cfg_Pterodactyl redacted <| BaseURL := "***REDACTED***" |>
    <| APIToken := "***REDACTED***" |> <| ServerID := "***REDACTED***" |> |>.

(** [RedactedString]; [Sprintf] is the formatting of a value with [%+v]. *)
Definition RedactedString (Sprintf : Config -> string) (cfg : Config) : string := Sprintf (RedactedConfig cfg).

(** ** Validation *)

Section validate.
Context `{Network}.

(** [backend_readiness_addr] and its mode. *)
Definition validate_readiness_addr (cfg : Config) : option error :=
  if bool_decide (cfg_BackendReadinessAddr cfg <> "") then
    if bool_decide (cfg_BackendReadinessMode cfg <> "a2s")
    then Some (ErrText "backend_readiness_addr is only valid in a2s mode")
    else
      match ResolveUDPAddr (cfg_BackendReadinessAddr cfg) with
      | inl err => Some (ErrWrap "invalid backend_readiness_addr" err)
      | inr readinessAddr =>
          if ip_nil (addr_ip readinessAddr) || IsUnspecified (addr_ip readinessAddr)
          then Some (ErrText "backend_readiness_addr must identify a specific host") else None
      end
  else None.

(** The panel's URL and credentials, and the log level. *)
Definition validate_panel (cfg : Config) : option error :=
  match url_Parse (BaseURL (cfg_Pterodactyl cfg)) with
  | inl _ => Some (ErrText "pterodactyl.base_url must be a valid HTTP or HTTPS URL without user info")
  | inr panelURL =>
      if (bool_decide (Scheme panelURL <> "http") && bool_decide (Scheme panelURL <> "https"))
         || bool_decide (Host panelURL = "") || url_User panelURL
      then Some (ErrText "pterodactyl.base_url must be a valid HTTP or HTTPS URL without user info")
      else if bool_decide (Scheme panelURL = "http") && remote_host (Hostname panelURL)
      then Some (ErrText "pterodactyl.base_url may use plaintext HTTP only for loopback tests")
      else if bool_decide (TrimSpace (APIToken (cfg_Pterodactyl cfg)) = "")
      then Some (ErrText "pterodactyl.api_token is required")
      else if bool_decide (TrimSpace (ServerID (cfg_Pterodactyl cfg)) = "")
      then Some (ErrText "pterodactyl.server_id is required")
      else if bool_decide (cfg_LogLevel cfg ∈ ["debug"; "info"; "warn"; "error"; "fatal"])
      then None
      else Some (ErrText "log_level must be debug, info, warn, error, or fatal")
  end.

(** A signature is refused when it is not hexadecimal or has no bytes. *)
Definition bad_signature (signature : string) : bool :=
  match hex_DecodeString (TrimSpace signature) with
  | None | Some [] => true
  | Some _ => false
  end.

(** From the wake policy on. *)
Definition validate_wake (cfg : Config) : option error :=
  if bool_decide (cfg_WakePolicy cfg <> "signature") && bool_decide (cfg_WakePolicy cfg <> "any")
  then Some (ErrText "wake_policy must be signature or any")
  else if bool_decide (cfg_WakePolicy cfg = "signature") && bool_decide (len (cfg_WakeSignatures cfg) = 0)
  then Some (ErrText "wake_signatures must not be empty under signature policy")
  else if existsb bad_signature (cfg_WakeSignatures cfg)
  then Some (ErrText "wake_signatures must contain non-empty hexadecimal prefixes")
  else if bool_decide (cfg_DiagnosticPrefixBytes cfg < 1) || bool_decide (32 < cfg_DiagnosticPrefixBytes cfg)
  then Some (ErrText "diagnostic_prefix_bytes must be between 1 and 32")
  else
    match ResolveTCPAddr (cfg_HealthAddr cfg) with
    | inl err => Some (ErrWrap "invalid health_addr" err)
    | inr healthAddr =>
        if ip_nil (addr_ip healthAddr) || negb (IsLoopback (addr_ip healthAddr))
        then Some (ErrText "health_addr must use a loopback address")
        else if negb (bool_decide (cfg_BackendReadinessMode cfg ∈ ["pterodactyl"; "a2s"; "delay"]))
        then Some (ErrText "backend_readiness_mode must be pterodactyl, a2s, or delay")
        else
          match validate_readiness_addr cfg with
          | Some err => Some err
          | None => validate_panel cfg
          end
    end.

(** From the session limit on. *)
Definition validate_limits (cfg : Config) : option error :=
  if bool_decide (cfg_MaxSessions cfg < 1) then Some (ErrText "max_sessions must be positive")
  else if bool_decide (cfg_MaxPacketSize cfg < 1) || bool_decide (maxUDPPayloadSize < cfg_MaxPacketSize cfg)
  then Some (ErrText "max_packet_size must be between 1 and 65507")
  else if bool_decide (cfg_Game cfg <> "palworld") then Some (ErrText "game must be palworld")
  else if bool_decide (cfg_IdleTimeout cfg <= 0) then Some (ErrText "idle_timeout must be positive")
  else if bool_decide (cfg_AutoStopDelay cfg <= 0) then Some (ErrText "auto_stop_delay must be positive")
  else if bool_decide (cfg_StartupTimeout cfg <= 0) then Some (ErrText "startup_timeout must be positive")
  else if bool_decide (cfg_StartupPollInterval cfg <= 0)
          || bool_decide (cfg_StartupTimeout cfg <= cfg_StartupPollInterval cfg)
  then Some (ErrText "startup_poll_interval must be positive and shorter than startup_timeout")
  else if bool_decide (cfg_StartupSettleDelay cfg < 0)
          || bool_decide (cfg_StartupTimeout cfg <= cfg_StartupSettleDelay cfg)
  then Some (ErrText "startup_settle_delay must be non-negative and shorter than startup_timeout")
  else if bool_decide (cfg_StartupBufferPackets cfg < 1)
  then Some (ErrText "startup_buffer_packets must be positive")
  else if bool_decide (cfg_StartupBufferBytesPerSession cfg < cfg_MaxPacketSize cfg)
  then Some (ErrText "startup_buffer_bytes_per_session must hold at least one max_packet_size datagram")
  else if bool_decide (cfg_StartupBufferBytesGlobal cfg < cfg_StartupBufferBytesPerSession cfg)
  then Some (ErrText "startup_buffer_bytes_global must be at least startup_buffer_bytes_per_session")
  else validate_wake cfg.

Definition Validate (cfg : Config) : option error :=
  match ResolveUDPAddr (cfg_ListenAddr cfg) with
  | inl err => Some (ErrWrap "invalid listen_addr" err)
  | inr _ =>
      if bool_decide (TrimSpace (cfg_ServerAddr cfg) = "") then Some (ErrText "server_addr is required")
      else
        match ResolveUDPAddr (cfg_ServerAddr cfg) with
        | inl err => Some (ErrWrap "invalid server_addr" err)
        | inr serverAddr =>
            if ip_nil (addr_ip serverAddr) || IsUnspecified (addr_ip serverAddr)
            then Some (ErrText "server_addr must identify a specific backend host")
            else validate_limits cfg
        end
  end.
End validate.

(** ** The environment *)

Section overrides.
Context (LookupEnv : string -> option string).

(** What one variable does to the configuration: nothing when it is not set. *)
Definition override (name : string) (apply : string -> Config -> error + Config) (r : error + Config)
    : error + Config :=
  match r with
  | inl err => inl err
  | inr cfg =>
      match LookupEnv name with
      | Some val => apply val cfg
      | None => inr cfg
      end
  end.

Definition set_string (set : string -> Config -> Config) (val : string) (cfg : Config) : error + Config :=
  inr (set val cfg).

Definition set_int (name : string) (set : Z -> Config -> Config) (val : string) (cfg : Config) : error + Config :=
  match Atoi val with
  | Some n => inr (set n cfg)
  | None => inl (ErrText ("invalid " ++ name))
  end.

Definition set_duration (name : string) (set : Z -> Config -> Config) (val : string) (cfg : Config)
    : error + Config :=
  match ParseDuration val with
  | Some dur => inr (set dur cfg)
  | None => inl (ErrText ("invalid " ++ name))
  end.

(** A map from names to targets, in some order. *)
Definition duration_targets : list (string * (Z -> Config -> Config)) :=
  [("STARTUP_TIMEOUT", fun n cfg => cfg <| cfg_StartupTimeout := n |>);
   ("STARTUP_POLL_INTERVAL", fun n cfg => cfg <| cfg_StartupPollInterval := n |>);
   ("STARTUP_SETTLE_DELAY", fun n cfg => cfg <| cfg_StartupSettleDelay := n |>)].

Definition int_targets : list (string * (Z -> Config -> Config)) :=
  [("STARTUP_BUFFER_PACKETS", fun n cfg => cfg <| cfg_StartupBufferPackets := n |>);
   ("STARTUP_BUFFER_BYTES_PER_SESSION", fun n cfg => cfg <| cfg_StartupBufferBytesPerSession := n |>);
   ("STARTUP_BUFFER_BYTES_GLOBAL", fun n cfg => cfg <| cfg_StartupBufferBytesGlobal := n |>);
   ("DIAGNOSTIC_PREFIX_BYTES", fun n cfg => cfg <| cfg_DiagnosticPrefixBytes := n |>)].

(** The loop over a map of targets. *)
Fixpoint override_each (parse : string -> (Z -> Config -> Config) -> string -> Config -> error + Config)
    (targets : list (string * (Z -> Config -> Config))) (r : error + Config) : error + Config :=
  match targets with
  | [] => r
  | (name, set) :: targets => override_each parse targets (override name (parse name set) r)
  end.

Definition set_signatures (val : string) (cfg : Config) : error + Config :=
  inr (cfg <| cfg_WakeSignatures := map TrimSpace (Split val ","%char) |>).

Definition set_log_unmatched (val : string) (cfg : Config) : error + Config :=
  if bool_decide (val = "true") then inr (cfg <| cfg_LogUnmatchedPrefixes := true |>)
  else if bool_decide (val = "false") then inr (cfg <| cfg_LogUnmatchedPrefixes := false |>)
  else inl (ErrText "invalid LOG_UNMATCHED_PREFIXES").

(** [applyEnvOverrides]; [durations] and [ints] are the maps in the order they are visited. *)
Definition applyEnvOverrides (durations ints : list (string * (Z -> Config -> Config))) (cfg : Config)
    : error + Config :=
  let r := inr cfg in
  let r := override "LISTEN_ADDR" (set_string (fun val cfg => cfg <| cfg_ListenAddr := val |>)) r in
  let r := override "SERVER_ADDR" (set_string (fun val cfg => cfg <| cfg_ServerAddr := val |>)) r in
  let r := override "MAX_SESSIONS" (set_int "MAX_SESSIONS" (fun n cfg => cfg <| cfg_MaxSessions := n |>)) r in
  let r := override "MAX_PACKET_SIZE"
             (set_int "MAX_PACKET_SIZE" (fun n cfg => cfg <| cfg_MaxPacketSize := n |>)) r in
  let r := override "GAME" (set_string (fun val cfg => cfg <| cfg_Game := val |>)) r in
  let r := override "AUTO_STOP_DELAY"
             (set_duration "AUTO_STOP_DELAY" (fun d cfg => cfg <| cfg_AutoStopDelay := d |>)) r in
  let r := override "PTERO_BASE_URL" (set_string (fun val cfg =>
             cfg <| cfg_Pterodactyl := cfg_Pterodactyl cfg <| BaseURL := val |> |>)) r in
  let r := override "PTERO_API_TOKEN" (set_string (fun val cfg =>
             cfg <| cfg_Pterodactyl := cfg_Pterodactyl cfg <| APIToken := val |> |>)) r in
  let r := override "PTERO_SERVER_ID" (set_string (fun val cfg =>
             cfg <| cfg_Pterodactyl := cfg_Pterodactyl cfg <| ServerID := val |> |>)) r in
  let r := override "LOG_LEVEL" (set_string (fun val cfg => cfg <| cfg_LogLevel := val |>)) r in
  let r := override "IDLE_TIMEOUT"
             (set_duration "IDLE_TIMEOUT" (fun d cfg => cfg <| cfg_IdleTimeout := d |>)) r in
  let r := override_each set_duration durations r in
  let r := override_each set_int ints r in
  let r := override "WAKE_POLICY" (set_string (fun val cfg => cfg <| cfg_WakePolicy := TrimSpace val |>)) r in
  let r := override "WAKE_SIGNATURES" set_signatures r in
  let r := override "LOG_UNMATCHED_PREFIXES" set_log_unmatched r in
  let r := override "HEALTH_ADDR" (set_string (fun val cfg => cfg <| cfg_HealthAddr := val |>)) r in
  let r := override "BACKEND_READINESS_MODE"
             (set_string (fun val cfg => cfg <| cfg_BackendReadinessMode := TrimSpace val |>)) r in
  override "BACKEND_READINESS_ADDR"
    (set_string (fun val cfg => cfg <| cfg_BackendReadinessAddr := TrimSpace val |>)) r.
End overrides.

(** ** Loading *)

(** A configuration file that could be opened: what the YAML decoder, told to refuse unknown
    fields, makes of its first document on top of a configuration, and of what follows. *)
Record yaml_file := mkYaml {
  yaml_decode : Config -> error + Config;
  yaml_trailing : option error }.

Definition parseYAML (file : yaml_file) (cfg : Config) : error + Config :=
  match yaml_decode file cfg with
  | inl err => inl err
  | inr cfg =>
      match yaml_trailing file with
      | None => inl (ErrText "multiple YAML documents are not allowed")
      | Some err => if errors_Is IoEOF err then inr cfg else inl err
      end
  end.

Inductive Level := DebugLevel | InfoLevel | WarnLevel | ErrorLevel | FatalLevel.

(** [setLogLevel]: the level the logger is set to. *)
Definition setLogLevel (logLevel : string) : Level :=
  if bool_decide (logLevel = "debug") then DebugLevel
  else if bool_decide (logLevel = "warn") then WarnLevel
  else if bool_decide (logLevel = "error") then ErrorLevel
  else if bool_decide (logLevel = "fatal") then FatalLevel
  else InfoLevel.

(** [LoadConfig]: the configuration and the level of the logger; [file] is [config.yaml] when it
    can be opened, and every error of opening it counts as its absence. *)
Definition LoadConfig `{Network} (file : option yaml_file) (LookupEnv : string -> option string)
    (durations ints : list (string * (Z -> Config -> Config))) : error + (Config * Level) :=
  match match file with Some f => parseYAML f DefaultConfig | None => inr DefaultConfig end with
  | inl err => inl (ErrText "could not parse config.yaml")
  | inr cfg =>
      match applyEnvOverrides LookupEnv durations ints cfg with
      | inl err => inl err
      | inr cfg =>
          match Validate cfg with
          | Some err => inl (ErrWrap "invalid configuration" err)
          | None => inr (cfg, setLogLevel (cfg_LogLevel cfg))
          end
      end
  end.
