(* ===== verification/Main.v ===== *)
(** * Main: the process ([cmd/main.go])

    The construction of the parts from the configuration, and [run]: startup with its clean-up,
    the wait for the first of the parent context, the proxy and the health server to end, and
    the shutdown of the others.  [run] is a program over the questions of [process_io]; the
    goroutines it starts report through the two channels it reads. *)
From S2P Require Import Prelude GoStrings Errors Conc World Sequential Network Server Config Games A2S Readiness Store Proxy.

Open Scope string_scope.
Open Scope list_scope.
Open Scope Z_scope.
Open Scope prog_scope.

(** ** Parts from the configuration *)

Definition newPalworldDetector (cfg : Config) : error + PalworldGame :=
  NewConfiguredPalworldGame (mkPalworldOptions (cfg_WakePolicy cfg) (cfg_WakeSignatures cfg)
    (cfg_LogUnmatchedPrefixes cfg) (cfg_DiagnosticPrefixBytes cfg) 0).

(** A [proxy.BackendReadiness] that is not nil. *)
Inductive BackendReadiness :=
| PterodactylReadiness (probe : PterodactylProbe)
| A2SReadiness (probe : A2SProbe).

(** [net.JoinHostPort]. *)
Definition JoinHostPort (host port : string) : string :=
  (if has_colon host then "[" ++ host ++ "]" else host) ++ ":" ++ port.

Section construction.
Context `{Network}.

(** [newBackendReadiness]; the controller is never nil here. *)
Definition newBackendReadiness (cfg : Config) (backend : UDPAddr) (controller : bool)
    : error + option BackendReadiness :=
  if bool_decide (cfg_BackendReadinessMode cfg = "delay") then inr None
  else if bool_decide (cfg_BackendReadinessMode cfg = "pterodactyl") then
    match NewPterodactylProbe controller (cfg_StartupPollInterval cfg) with
    | inl err => inl err
    | inr probe => inr (Some (PterodactylReadiness probe))
    end
  else if bool_decide (cfg_BackendReadinessMode cfg = "a2s") then
    let address := if bool_decide (cfg_BackendReadinessAddr cfg = "")
                   then JoinHostPort (addr_ip backend) "27015" else cfg_BackendReadinessAddr cfg in
    match NewA2SProbe ResolveUDPAddr address (cfg_StartupPollInterval cfg) with
    | inl err => inl err
    | inr probe => inr (Some (A2SReadiness probe))
    end
  else inl (ErrText "unsupported backend readiness mode").

(** [proxyOptionsFromConfig]; the detector is its [DetectStart], and the options the
    configuration does not set are zero. *)
Definition proxyOptionsFromConfig (cfg : Config) (backend : UDPAddr) (detector : bytes -> bool)
    (backendReadiness : option BackendReadiness) : Options := {|
  Listener := true;
  BackendAddr := Some backend;
  Controller := true;
  Detector := Some detector;
  Readiness := match backendReadiness with Some _ => true | None => false end;
  MaxSessions := cfg_MaxSessions cfg;
  MaxPacketSize := cfg_MaxPacketSize cfg;
  IdleTimeout := cfg_IdleTimeout cfg;
  SweepInterval := 0;
  AutoStopDelay := cfg_AutoStopDelay cfg;
  AutoStopRetryDelay := 0;
  StartupTimeout := cfg_StartupTimeout cfg;
  StartupPollInterval := cfg_StartupPollInterval cfg;
  StartupSettleDelay := cfg_StartupSettleDelay cfg;
  StartupFailureCooldown := 0;
  StartupBufferPackets := cfg_StartupBufferPackets cfg;
  StartupBufferBytesPerSession := cfg_StartupBufferBytesPerSession cfg;
  StartupBufferBytesGlobal := cfg_StartupBufferBytesGlobal cfg |}.

(** What [run] builds before it opens a socket. *)
Record parts := mkParts {
  part_detector : PalworldGame;
  part_client : PterodactylClient;
  part_listen : UDPAddr;
  part_backend : UDPAddr;
  part_readiness : option BackendReadiness }.

(** [run] up to [net.ListenUDP]. *)
Definition build_parts (cfg : Config) : error + parts :=
  if bool_decide (cfg_Game cfg <> "palworld") then inl (ErrText "unsupported game")
  else
    match newPalworldDetector cfg with
    | inl err => inl (ErrWrap "configure Palworld detector" err)
    | inr detector =>
        match NewPterodactylClient (cfg_Pterodactyl cfg) None with
        | inl err => inl (ErrWrap "configure Pterodactyl client" err)
        | inr client =>
            match ResolveUDPAddr (cfg_ListenAddr cfg) with
            | inl err => inl (ErrWrap "resolve UDP listener" err)
            | inr listenAddr =>
                match ResolveUDPAddr (cfg_ServerAddr cfg) with
                | inl err => inl (ErrWrap "resolve Palworld backend" err)
                | inr backendAddr =>
                    match newBackendReadiness cfg backendAddr true with
                    | inl err => inl (ErrWrap "configure Palworld readiness" err)
                    | inr readiness => inr (mkParts detector client listenAddr backendAddr readiness)
                    end
                end
            end
        end
    end.
End construction.

(** The detector of the options: what [DetectStart] answers, which depends on neither the clock
    nor the last diagnostic. *)
Definition detector_of (g : PalworldGame) (packet : bytes) : bool := fst (fst (DetectStart 0 packet g)).

(** ** The process *)

(** The winner of the [select] that waits for the first part to end. *)
Inductive first_end :=
| ParentDone
| ProxyEnded (err : option error)
| HealthEnded (err : option error).

Inductive process_io : Type -> Type :=
| QListenUDP (address : UDPAddr) : process_io (option error)
| QListenTCP (address : string) : process_io (option error)
| QCloseListener : process_io unit                (* listener.Close() *)
| QSetReady (ready : bool) : process_io unit      (* healthState.SetReady *)
| QServe : process_io unit                        (* the two go statements *)
| QFirstEnd : process_io first_end
| QCancel : process_io unit                       (* cancel() *)
| QShutdownHealth : process_io (option error)     (* healthServer.Shutdown(shutdownCtx) *)
| QProxyResult : process_io (option (option error))   (* <-proxyErrors, or <-shutdownCtx.Done() *)
| QHealthResult : process_io (option (option error))  (* <-healthErrors, or <-shutdownCtx.Done() *)
| QShutdownErr : process_io error.                (* shutdownCtx.Err() once it is done *)

Inductive process_event :=
| PListenUDP (address : UDPAddr) (err : option error)
| PListenTCP (address : string) (err : option error)
| PCloseListener
| PSetReady (ready : bool)
| PServe
| PFirstEnd (e : first_end)
| PCancel
| PShutdownHealth (err : option error)
| PProxyResult (r : option (option error))
| PHealthResult (r : option (option error))
| PShutdownErr.

Definition process_event_of (B : Type) (q : process_io B) : B -> process_event :=
  match q in process_io B return B -> process_event with
  | QListenUDP a => PListenUDP a
  | QListenTCP a => PListenTCP a
  | QCloseListener => fun _ => PCloseListener
  | QSetReady b => fun _ => PSetReady b
  | QServe => fun _ => PServe
  | QFirstEnd => PFirstEnd
  | QCancel => fun _ => PCancel
  | QShutdownHealth => PShutdownHealth
  | QProxyResult => PProxyResult
  | QHealthResult => PHealthResult
  | QShutdownErr => fun _ => PShutdownErr
  end.

Abbreviation process_prog := (prog unit process_io Empty_set Empty_set).

(** [errors.Join] of two errors that may be nil. *)
Definition errors_Join (e1 e2 : option error) : option error :=
  match e1, e2 with
  | Some e1, Some e2 => Some (ErrJoin e1 e2)
  | Some e, None | None, Some e => Some e
  | None, None => None
  end.

(** [if err != nil && !errors.Is(err, ...) { ... }]: an error that is not the expected one. *)
Definition unexpected (expected : sentinel) (prefix : string) (err : option error) : option error :=
  match err with
  | Some err => if errors_Is expected err then None else Some (ErrWrap prefix err)
  | None => None
  end.

(** The [select] that waits for one of the goroutines until the shutdown context ends. *)
Definition await_part (done : bool) (q : process_io (option (option error))) (expected : sentinel)
    (prefix timeout_prefix : string) (result : option error) : process_prog (option error) :=
  if done then Ret result
  else
    r <- ask q;;
    match r with
    | Some err =>
        Ret (match unexpected expected prefix err with
             | Some e => errors_Join result (Some e)
             | None => result
             end)
    | None =>
        err <- ask QShutdownErr;;
        Ret (errors_Join result (Some (ErrWrap timeout_prefix err)))
    end.

(** [run] behind the first [select]. *)
Definition run_shutdown (e : first_end) : process_prog (option error) :=
  let result := match e with
                | ParentDone => None
                | ProxyEnded err => unexpected Canceled "serve UDP proxy" err
                | HealthEnded err => unexpected HttpErrServerClosed "serve health endpoint" err
                end in
  let proxyDone := match e with ProxyEnded _ => true | _ => false end in
  let healthDone := match e with HealthEnded _ => true | _ => false end in
  ask (QSetReady false);;;
  ask QCancel;;;
  serr <- ask QShutdownHealth;;
  let result := match serr with
                | Some err => errors_Join result (Some (ErrWrap "shutdown health endpoint" err))
                | None => result
                end in
  ask QCloseListener;;;
  result <- await_part proxyDone QProxyResult Canceled "shutdown UDP proxy" "shutdown UDP proxy" result;;
  await_part healthDone QHealthResult HttpErrServerClosed "shutdown health endpoint"
    "wait for health endpoint shutdown" result.

(** [run] from [net.ListenUDP] on. *)
Definition run_sockets (cfg : Config) (p : parts) : process_prog (option error) :=
  lerr <- ask (QListenUDP (part_listen p));;
  match lerr with
  | Some err => Ret (Some (ErrWrap "listen for Palworld UDP" err))
  | None =>
      match New (proxyOptionsFromConfig cfg (part_backend p) (detector_of (part_detector p)) (part_readiness p)) with
      | inl err => ask QCloseListener;;; Ret (Some (ErrWrap "configure UDP proxy" err))
      | inr _ =>
          herr <- ask (QListenTCP (cfg_HealthAddr cfg));;
          match herr with
          | Some err => ask QCloseListener;;; Ret (Some (ErrWrap "listen for health checks" err))
          | None =>
              ask (QSetReady true);;;
              ask QServe;;;
              e <- ask QFirstEnd;;
              run_shutdown e
          end
      end
  end.

(** The function [run] of the process. *)
Definition run_process `{Network} (file : option yaml_file) (LookupEnv : string -> option string)
    (durations ints : list (string * (Z -> Config -> Config))) : process_prog (option error) :=
  match LoadConfig file LookupEnv durations ints with
  | inl err => Ret (Some (ErrWrap "load config" err))
  | inr (cfg, _) =>
      match build_parts cfg with
      | inl err => Ret (Some err)
      | inr p => run_sockets cfg p
      end
  end.
