(* ===== verification/ProcessLogic.v ===== *)
(** * ProcessLogic: configuration and process

    What a validated configuration satisfies and what can be built from it, what the
    environment overrides, and how the process starts and shuts down. *)
From S2P Require Import Prelude GoStrings Errors Conc World Sequential Network Server ServerLogic.
From S2P Require Import Config Games A2S Readiness Store Proxy Main.

Open Scope string_scope.
Open Scope list_scope.
Open Scope Z_scope.
Open Scope prog_scope.

(** ** Validation *)

Section valid.
Context `{Network}.

















(** ** Construction *)







End valid.

(** A network that resolves literal addresses, and a configuration for it. *)
#[local] Instance start_network : Network := {|
  ResolveUDPAddr := fun s => inr (mkUDPAddr (if bool_decide (s = ":8211") then "" else "10.0.0.5") 8211);
  ResolveTCPAddr := fun _ => inr (mkUDPAddr "127.0.0.1" 8080);
  ParseIP := fun _ => None;
  url_Parse := fun s => inr (mkURL "https" "panel" false "" "" "panel" s);
  JoinPath := fun base parts => inr (String.concat "/" (base :: parts)) |}.




(** ** The environment *)

Section environment.
Context (LookupEnv : string -> option string).

(** The value of a field: that of the variable, if it is set, or the one it had. *)
Definition str (name : string) (f : string -> string) (old : string) : string :=
  match LookupEnv name with Some val => f val | None => old end.

Definition num (name : string) (parse : string -> option Z) (old : Z) : option Z :=
  match LookupEnv name with Some val => parse val | None => Some old end.

Definition flag (name : string) (old : bool) : option bool :=
  match LookupEnv name with
  | Some val =>
      if bool_decide (val = "true") then Some true
      else if bool_decide (val = "false") then Some false else None
  | None => Some old
  end.

(** The configuration the environment asks for, field by field: none if a number, a duration
    or the flag is malformed. *)
Definition effective (cfg : Config) : option Config :=
  max_sessions ← num "MAX_SESSIONS" Atoi (cfg_MaxSessions cfg);
  max_packet ← num "MAX_PACKET_SIZE" Atoi (cfg_MaxPacketSize cfg);
  auto_stop ← num "AUTO_STOP_DELAY" ParseDuration (cfg_AutoStopDelay cfg);
  idle ← num "IDLE_TIMEOUT" ParseDuration (cfg_IdleTimeout cfg);
  timeout ← num "STARTUP_TIMEOUT" ParseDuration (cfg_StartupTimeout cfg);
  poll ← num "STARTUP_POLL_INTERVAL" ParseDuration (cfg_StartupPollInterval cfg);
  settle ← num "STARTUP_SETTLE_DELAY" ParseDuration (cfg_StartupSettleDelay cfg);
  buffer_packets ← num "STARTUP_BUFFER_PACKETS" Atoi (cfg_StartupBufferPackets cfg);
  buffer_session ← num "STARTUP_BUFFER_BYTES_PER_SESSION" Atoi (cfg_StartupBufferBytesPerSession cfg);
  buffer_global ← num "STARTUP_BUFFER_BYTES_GLOBAL" Atoi (cfg_StartupBufferBytesGlobal cfg);
  diagnostic ← num "DIAGNOSTIC_PREFIX_BYTES" Atoi (cfg_DiagnosticPrefixBytes cfg);
  log_unmatched ← flag "LOG_UNMATCHED_PREFIXES" (cfg_LogUnmatchedPrefixes cfg);
  Some (mkConfig
    (str "LISTEN_ADDR" id (cfg_ListenAddr cfg)) (str "SERVER_ADDR" id (cfg_ServerAddr cfg))
    max_sessions max_packet (str "GAME" id (cfg_Game cfg)) auto_stop idle timeout poll settle
    buffer_packets buffer_session buffer_global (str "WAKE_POLICY" TrimSpace (cfg_WakePolicy cfg))
    (match LookupEnv "WAKE_SIGNATURES" with
     | Some val => map TrimSpace (Split val ","%char) | None => cfg_WakeSignatures cfg end)
    log_unmatched diagnostic (str "HEALTH_ADDR" id (cfg_HealthAddr cfg))
    (str "BACKEND_READINESS_MODE" TrimSpace (cfg_BackendReadinessMode cfg))
    (str "BACKEND_READINESS_ADDR" TrimSpace (cfg_BackendReadinessAddr cfg))
    (mkPterodactylConfig (str "PTERO_BASE_URL" id (BaseURL (cfg_Pterodactyl cfg)))
       (str "PTERO_API_TOKEN" id (APIToken (cfg_Pterodactyl cfg)))
       (str "PTERO_SERVER_ID" id (ServerID (cfg_Pterodactyl cfg))))
    (str "LOG_LEVEL" id (cfg_LogLevel cfg))).

(** Results that agree: the same configuration, or an error each. *)
Definition agree (r1 r2 : error + Config) : Prop :=
  match r1, r2 with
  | inr c1, inr c2 => c1 = c2
  | inl _, inl _ => True
  | _, _ => False
  end.

#[local] Instance agree_equiv : Equivalence agree.
Proof.
  split.
  - by intros [].
  - intros [] []; simpl; congruence.
  - intros [] [] []; simpl; try done; congruence.
Qed.

(** How the entries of a map are parsed: a value to set, or an error. *)
Definition parses (parse : string -> (Z -> Config -> Config) -> string -> Config -> error + Config)
    (f : string -> option Z) : Prop :=
  forall name set val cfg, match f val with
    | Some n => parse name set val cfg = inr (set n cfg)
    | None => exists err, parse name set val cfg = inl err
    end.

Lemma set_int_parses : parses set_int Atoi.
Proof. intros name set val cfg. unfold set_int. destruct (Atoi val); eauto. Qed.

Lemma set_duration_parses : parses set_duration ParseDuration.
Proof. intros name set val cfg. unfold set_duration. destruct (ParseDuration val); eauto. Qed.

(** An entry of such a map, up to the text of the error. *)
Definition put (f : string -> option Z) (name : string) (set : Z -> Config -> Config) (r : error + Config)
    : error + Config :=
  match r with
  | inl err => inl err
  | inr cfg =>
      match LookupEnv name with
      | Some val => match f val with Some n => inr (set n cfg) | None => inl (ErrText "") end
      | None => inr cfg
      end
  end.

Fixpoint put_each (f : string -> option Z) (targets : list (string * (Z -> Config -> Config)))
    (r : error + Config) : error + Config :=
  match targets with
  | [] => r
  | (name, set) :: targets => put_each f targets (put f name set r)
  end.

Lemma override_put parse f name set r1 r2 :
  parses parse f -> agree r1 r2 -> agree (override LookupEnv name (parse name set) r1) (put f name set r2).
Proof.
  intros Hp. unfold override, put. destruct r1 as [|cfg], r2; simpl; try done. intros <-.
  destruct (LookupEnv name) as [val|]; [|done].
  specialize (Hp name set val cfg). destruct (f val); [by rewrite Hp|]. by destruct Hp as [err ->].
Qed.

Lemma override_each_put parse f targets : parses parse f -> forall r1 r2, agree r1 r2 ->
  agree (override_each LookupEnv parse targets r1) (put_each f targets r2).
Proof.
  intros Hp. induction targets as [|[name set] targets IH]; intros r1 r2 Hr; simpl; [done|].
  by apply IH, override_put.
Qed.

Lemma put_each_agree f targets : forall r1 r2, agree r1 r2 -> agree (put_each f targets r1) (put_each f targets r2).
Proof.
  induction targets as [|[name set] targets IH]; intros r1 r2 Hr; simpl; [done|]. apply IH.
  destruct r1, r2; simpl in *; try done. by subst.
Qed.

(** Entries with different names set different fields. *)
Definition commuting (targets : list (string * (Z -> Config -> Config))) : Prop :=
  NoDup targets.*1 /\ forall x y, x ∈ targets -> y ∈ targets -> x.1 <> y.1 ->
    forall n m cfg, x.2 n (y.2 m cfg) = y.2 m (x.2 n cfg).

Lemma commuting_perm l l' : l ≡ₚ l' -> commuting l -> commuting l'.
Proof.
  intros Hp [Hn Hc]. split; [by rewrite <- Hp|]. intros x y Hx Hy. apply Hc; by rewrite Hp.
Qed.

Lemma put_swap f n1 s1 n2 s2 r : (forall n m cfg, s1 n (s2 m cfg) = s2 m (s1 n cfg)) ->
  agree (put f n1 s1 (put f n2 s2 r)) (put f n2 s2 (put f n1 s1 r)).
Proof.
  intros Hs. unfold put. destruct r as [|cfg]; [done|].
  destruct (LookupEnv n1) as [v1|]; [destruct (f v1) eqn:H1|];
    (destruct (LookupEnv n2) as [v2|]; [destruct (f v2) eqn:H2|]); rewrite ?H1, ?H2; simpl; auto.
Qed.

(** The order in which the map is visited does not matter. *)
Lemma put_each_perm f targets targets' : targets ≡ₚ targets' -> commuting targets ->
  forall r, agree (put_each f targets r) (put_each f targets' r).
Proof.
  intros Hperm. induction Hperm as [|[n1 s1] l l' _ IH|[n1 s1] [n2 s2] l|l1 l2 l3 H1 IH1 H2 IH2]; intros Hc r.
  - done.
  - simpl. apply IH. destruct Hc as [Hn Hc]. apply NoDup_cons in Hn as [_ Hn].
    split; [done|]. intros x y Hx Hy. apply Hc; by right.
  - simpl. apply put_each_agree, put_swap. destruct Hc as [Hn Hc]. apply NoDup_cons in Hn as [Hn _].
    apply (Hc (n1, s1) (n2, s2)); [right; left|left|]. simpl. intros ->. apply Hn. left.
  - etrans; [by apply IH1|]. apply IH2. by eapply commuting_perm.
Qed.

Lemma duration_targets_commuting : commuting duration_targets.
Proof.
  split; [apply (bool_decide_unpack _); vm_compute; exact I|].
  intros x y Hx Hy. unfold duration_targets in *. rewrite !elem_of_cons, elem_of_nil in Hx, Hy.
  destruct_or! Hx; destruct_or! Hy; try done; subst; done.
Qed.

Lemma int_targets_commuting : commuting int_targets.
Proof.
  split; [apply (bool_decide_unpack _); vm_compute; exact I|].
  intros x y Hx Hy. unfold int_targets in *. rewrite !elem_of_cons, elem_of_nil in Hx, Hy.
  destruct_or! Hx; destruct_or! Hy; try done; subst; done.
Qed.

Lemma override_agree apply name r1 r2 :
  agree r1 r2 -> agree (override LookupEnv name apply r1) (override LookupEnv name apply r2).
Proof. destruct r1, r2; simpl; try done. by intros ->. Qed.

(** The two loops, in whatever order, agree with the entries put one after the other. *)
Lemma override_durations durations r1 r2 : durations ≡ₚ duration_targets -> agree r1 r2 ->
  agree (override_each LookupEnv set_duration durations r1) (put_each ParseDuration duration_targets r2).
Proof.
  intros Hp Hr. etrans; [by apply override_each_put; [apply set_duration_parses|]|].
  apply put_each_perm; [done|]. eapply commuting_perm; [by symmetry|]. apply duration_targets_commuting.
Qed.

Lemma override_ints ints r1 r2 : ints ≡ₚ int_targets -> agree r1 r2 ->
  agree (override_each LookupEnv set_int ints r1) (put_each Atoi int_targets r2).
Proof.
  intros Hp Hr. etrans; [by apply override_each_put; [apply set_int_parses|]|].
  apply put_each_perm; [done|]. eapply commuting_perm; [by symmetry|]. apply int_targets_commuting.
Qed.
(** Field accesses and updates of an explicit record. *)
Ltac eval_config c :=
  eval cbv beta iota delta [set cfg_ListenAddr cfg_ServerAddr cfg_MaxSessions cfg_MaxPacketSize cfg_Game
    cfg_AutoStopDelay cfg_IdleTimeout cfg_StartupTimeout cfg_StartupPollInterval cfg_StartupSettleDelay
    cfg_StartupBufferPackets cfg_StartupBufferBytesPerSession cfg_StartupBufferBytesGlobal cfg_WakePolicy
    cfg_WakeSignatures cfg_LogUnmatchedPrefixes cfg_DiagnosticPrefixBytes cfg_HealthAddr
    cfg_BackendReadinessMode cfg_BackendReadinessAddr cfg_Pterodactyl cfg_LogLevel
    BaseURL APIToken ServerID] in c.

(** One override of the code, as a field of [effective]. *)
Ltac step_field name upd :=
  match goal with
  | |- context [override LookupEnv name ?a (inr ?c)] =>
      let c' := eval cbv beta in (upd c) in
      let c' := eval_config c' in
      replace (override LookupEnv name a (inr c)) with (inr c' : error + Config)
        by (unfold override, str; destruct (LookupEnv name); reflexivity)
  end.

Ltac step_num name f field :=
  match goal with
  | |- context [override LookupEnv name ?a (inr ?c)] =>
      let old := eval_config (field c) in
      let c' := eval_config (fun n : Z => c <| field := n |>) in
      replace (override LookupEnv name a (inr c)) with
        (match num name f old with
         | Some n => inr (c' n) | None => inl (ErrText ("invalid " ++ name)%string) end : error + Config)
        by (unfold override, num, set_int, set_duration; destruct (LookupEnv name) as [v|]; [destruct (f v)|]; reflexivity);
      cbv beta; destruct (num name f old) eqn:?
  | |- context [put f name ?a (inr ?c)] =>
      let old := eval_config (field c) in
      let c' := eval_config (fun n : Z => c <| field := n |>) in
      replace (put f name a (inr c)) with
        (match num name f old with
         | Some n => inr (c' n) | None => inl (ErrText "") end : error + Config)
        by (unfold put, num; destruct (LookupEnv name) as [v|]; [destruct (f v)|]; reflexivity);
      cbv beta; destruct (num name f old) eqn:?
  end.

(** The values found so far decide [effective]. *)
Ltac by_effective :=
  match goal with
  | |- agree _ (match effective ?c with _ => _ end) =>
      let H := fresh in
      enough (H : effective c = None) by (rewrite H; exact I)
  | |- effective _ = _ => idtac
  end;
  unfold effective;
  cbn [cfg_ListenAddr cfg_ServerAddr cfg_MaxSessions cfg_MaxPacketSize cfg_Game
    cfg_AutoStopDelay cfg_IdleTimeout cfg_StartupTimeout cfg_StartupPollInterval cfg_StartupSettleDelay
    cfg_StartupBufferPackets cfg_StartupBufferBytesPerSession cfg_StartupBufferBytesGlobal cfg_WakePolicy
    cfg_WakeSignatures cfg_LogUnmatchedPrefixes cfg_DiagnosticPrefixBytes cfg_HealthAddr
    cfg_BackendReadinessMode cfg_BackendReadinessAddr cfg_Pterodactyl cfg_LogLevel
    BaseURL APIToken ServerID];
  repeat match goal with
  | H : num _ _ _ = _ |- _ => rewrite H; clear H; cbn [mbind option_bind]
  | H : flag _ _ = _ |- _ => rewrite H; clear H; cbn [mbind option_bind]
  end; reflexivity.

Lemma apply_effective durations ints cfg :
  durations ≡ₚ duration_targets -> ints ≡ₚ int_targets ->
  agree (applyEnvOverrides LookupEnv durations ints cfg)
    (match effective cfg with Some c => inr c | None => inl (ErrText "") end).
Proof.
  intros Hd Hi. unfold applyEnvOverrides. cbv zeta. etrans.
  { repeat apply override_agree. apply override_ints; [done|]. apply override_durations; [done|].
    apply (@Equivalence_Reflexive _ agree agree_equiv). }
  destruct cfg as [f1 f2 f3 f4 f5 f6 f7 f8 f9 f10 f11 f12 f13 f14 f15 f16 f17 f18 f19 f20 [g1 g2 g3] f22].
  unfold duration_targets, int_targets. cbn [put_each].
  step_field "LISTEN_ADDR" (fun c => c <| cfg_ListenAddr := str "LISTEN_ADDR" (@id string) (cfg_ListenAddr c) |>).
  step_field "SERVER_ADDR" (fun c => c <| cfg_ServerAddr := str "SERVER_ADDR" (@id string) (cfg_ServerAddr c) |>).
  step_num "MAX_SESSIONS" Atoi cfg_MaxSessions; [|by by_effective].
  step_num "MAX_PACKET_SIZE" Atoi cfg_MaxPacketSize; [|by by_effective].
  step_field "GAME" (fun c => c <| cfg_Game := str "GAME" (@id string) (cfg_Game c) |>).
  step_num "AUTO_STOP_DELAY" ParseDuration cfg_AutoStopDelay; [|by by_effective].
  step_field "PTERO_BASE_URL" (fun c => c <| cfg_Pterodactyl := cfg_Pterodactyl c
    <| BaseURL := str "PTERO_BASE_URL" (@id string) (BaseURL (cfg_Pterodactyl c)) |> |>).
  step_field "PTERO_API_TOKEN" (fun c => c <| cfg_Pterodactyl := cfg_Pterodactyl c
    <| APIToken := str "PTERO_API_TOKEN" (@id string) (APIToken (cfg_Pterodactyl c)) |> |>).
  step_field "PTERO_SERVER_ID" (fun c => c <| cfg_Pterodactyl := cfg_Pterodactyl c
    <| ServerID := str "PTERO_SERVER_ID" (@id string) (ServerID (cfg_Pterodactyl c)) |> |>).
  step_field "LOG_LEVEL" (fun c => c <| cfg_LogLevel := str "LOG_LEVEL" (@id string) (cfg_LogLevel c) |>).
  step_num "IDLE_TIMEOUT" ParseDuration cfg_IdleTimeout; [|by by_effective].
  step_num "STARTUP_TIMEOUT" ParseDuration cfg_StartupTimeout; [|by by_effective].
  step_num "STARTUP_POLL_INTERVAL" ParseDuration cfg_StartupPollInterval; [|by by_effective].
  step_num "STARTUP_SETTLE_DELAY" ParseDuration cfg_StartupSettleDelay; [|by by_effective].
  step_num "STARTUP_BUFFER_PACKETS" Atoi cfg_StartupBufferPackets; [|by by_effective].
  step_num "STARTUP_BUFFER_BYTES_PER_SESSION" Atoi cfg_StartupBufferBytesPerSession; [|by by_effective].
  step_num "STARTUP_BUFFER_BYTES_GLOBAL" Atoi cfg_StartupBufferBytesGlobal; [|by by_effective].
  step_num "DIAGNOSTIC_PREFIX_BYTES" Atoi cfg_DiagnosticPrefixBytes; [|by by_effective].
  step_field "WAKE_POLICY" (fun c => c <| cfg_WakePolicy := str "WAKE_POLICY" TrimSpace (cfg_WakePolicy c) |>).
  step_field "WAKE_SIGNATURES" (fun c => c <| cfg_WakeSignatures := match LookupEnv "WAKE_SIGNATURES" with
     | Some val => map TrimSpace (Split val ","%char) | None => cfg_WakeSignatures c end |>).
  match goal with
  | |- context [override LookupEnv "LOG_UNMATCHED_PREFIXES" ?a (inr ?c)] =>
      let c' := eval_config (fun b : bool => c <| cfg_LogUnmatchedPrefixes := b |>) in
      replace (override LookupEnv "LOG_UNMATCHED_PREFIXES" a (inr c)) with
        (match flag "LOG_UNMATCHED_PREFIXES" f16 with
         | Some b => inr (c' b) | None => inl (ErrText "invalid LOG_UNMATCHED_PREFIXES") end : error + Config)
        by (unfold override, flag, set_log_unmatched; destruct (LookupEnv _); [|reflexivity];
            repeat case_bool_decide; reflexivity)
  end.
  destruct (flag "LOG_UNMATCHED_PREFIXES" f16) eqn:?; [cbv beta|by by_effective].
  step_field "HEALTH_ADDR" (fun c => c <| cfg_HealthAddr := str "HEALTH_ADDR" (@id string) (cfg_HealthAddr c) |>).
  step_field "BACKEND_READINESS_MODE" (fun c => c <| cfg_BackendReadinessMode :=
    str "BACKEND_READINESS_MODE" TrimSpace (cfg_BackendReadinessMode c) |>).
  step_field "BACKEND_READINESS_ADDR" (fun c => c <| cfg_BackendReadinessAddr :=
    str "BACKEND_READINESS_ADDR" TrimSpace (cfg_BackendReadinessAddr c) |>).
  match goal with
  | |- agree (inr ?c) (match effective ?d with _ => _ end) =>
      let H := fresh in enough (H : effective d = Some c) by (rewrite H; reflexivity)
  end.
  by by_effective.
Qed.
End environment.

(** ** Loading *)

(** The configuration the environment is applied to: the defaults, or what the file makes of them. *)
Definition file_config (file : option yaml_file) : option Config :=
  match file with
  | Some f => match parseYAML f DefaultConfig with inr cfg => Some cfg | inl _ => None end
  | None => Some DefaultConfig
  end.

(** C38. What is loaded.  In whatever order the runtime visits the two maps of variables, loading
    succeeds exactly when the file, if there is one, is well-formed, every number, duration
    and flag that is set in the environment is, and the configuration that results is
    valid; that configuration is, field by field, the value of the field's variable if it
    is set and that of the file or the default if not, and the logger has its level. *)
Theorem loading_exact `{Network} file LookupEnv durations ints cfg level :
  durations ≡ₚ duration_targets -> ints ≡ₚ int_targets ->
  LoadConfig file LookupEnv durations ints = inr (cfg, level) <->
  exists base, file_config file = Some base /\ effective LookupEnv base = Some cfg /\
    Validate cfg = None /\ level = setLogLevel (cfg_LogLevel cfg).
Proof.
  intros Hd Hi. unfold LoadConfig, file_config.
  assert (Hrest : forall base,
    match applyEnvOverrides LookupEnv durations ints base with
    | inl err => inl err
    | inr cfg => match Validate cfg with
                 | Some err => inl (ErrWrap "invalid configuration" err)
                 | None => inr (cfg, setLogLevel (cfg_LogLevel cfg))
                 end
    end = inr (cfg, level) <->
    effective LookupEnv base = Some cfg /\ Validate cfg = None /\ level = setLogLevel (cfg_LogLevel cfg)).
  { intros base. pose proof (apply_effective LookupEnv durations ints base Hd Hi) as Ha.
    destruct (applyEnvOverrides _ _ _ base) as [err|c], (effective LookupEnv base) as [c'|]; simpl in Ha; try done.
    - by split; [|intros []].
    - subst c'. destruct (Validate c) eqn:Hv; [split; [done|intros ([= ->] & Hv' & _); congruence]|].
      split; [by intros [= -> ->]|]. by intros ([= ->] & _ & ->). }
  destruct file as [f|]; [destruct (parseYAML f DefaultConfig) as [err|base]|].
  - split; [done|]. by intros (? & ? & _).
  - rewrite Hrest. split; [eauto|]. by intros (? & [= <-] & ?).
  - rewrite Hrest. split; [eauto|]. by intros (? & [= <-] & ?).
Qed.

Definition start_environment (name : string) : option string :=
  if bool_decide (name = "SERVER_ADDR") then Some "10.0.0.5:8211"
  else if bool_decide (name = "PTERO_BASE_URL") then Some "https://panel"
  else if bool_decide (name = "PTERO_API_TOKEN") then Some "token"
  else if bool_decide (name = "PTERO_SERVER_ID") then Some "1a2b"
  else if bool_decide (name = "WAKE_SIGNATURES") then Some "0102, aabb"
  else if bool_decide (name = "STARTUP_TIMEOUT") then Some "1m30s" else None.

Lemma loading_exact_witness : exists cfg level,
  LoadConfig None start_environment (rev duration_targets) int_targets = inr (cfg, level) /\
  cfg_StartupTimeout cfg = 90 * Second /\ cfg_WakeSignatures cfg = ["0102"; "aabb"].
Proof.
  eexists _, _. split.
  - apply (loading_exact None start_environment (rev duration_targets) int_targets);
      [symmetry; apply Permutation_rev|reflexivity|].
    eexists. split; [reflexivity|]. split; [vm_compute; reflexivity|]. split; vm_compute; reflexivity.
  - split; reflexivity.
Defined.

(** ** Redaction *)

(** What is printed of a configuration depends on its public part only: other values of the
    backend's address, of a readiness address that is set, and of the panel's URL, token and
    server ID print alike. *)
Lemma redaction_hides Sprintf c server url token id addr :
  (addr = "" <-> cfg_BackendReadinessAddr c = "") ->
  RedactedString Sprintf (c <| cfg_ServerAddr := server |> <| cfg_BackendReadinessAddr := addr |>
    <| cfg_Pterodactyl := mkPterodactylConfig url token id |>) = RedactedString Sprintf c.
Proof.
  intros Ha. unfold RedactedString, RedactedConfig. f_equal. destruct c. simpl in *.
  destruct (decide (addr = "")) as [He|He].
  - pose proof (proj1 Ha He) as ->. by rewrite He.
  - by rewrite !bool_decide_eq_true_2 by tauto.
Qed.

(** ** The process *)

Abbreviation wp := (Sequential.wp process_event_of).

Ltac wp_step := wp_step_with ltac:(cbn [process_event_of]).

(** The errors of a part that ended otherwise than it should; a part that did not end in time
    has none. *)
Definition failures_of (expected : sentinel) (r : option (option error)) : list error :=
  match r with
  | Some (Some err) => if errors_Is expected err then [] else [err]
  | _ => []
  end.

(** The part ended, and as it should. *)
Definition ended_well (expected : sentinel) (r : option (option error)) : Prop :=
  is_Some r /\ failures_of expected r = [].

(** [y] is one of the causes of the result. *)
Definition carried (result : option error) (y : error) : Prop := exists r, result = Some r /\ in_chain y r.

Definition part_events (done : bool) (event : option (option error) -> process_event)
    (r : option (option error)) : list process_event :=
  if done then [] else event r :: match r with None => [PShutdownErr] | Some _ => [] end.

Lemma carried_join_l r e y : carried r y -> carried (errors_Join r e) y.
Proof.
  intros (x & -> & Hy). unfold carried. destruct e as [e|]; simpl; eexists; (split; [reflexivity|]); [|done].
  eapply in_chain_next; [|exact Hy]. simpl. left.
Qed.

Lemma carried_join_r r e y : in_chain y e -> carried (errors_Join r (Some e)) y.
Proof.
  intros Hy. unfold carried. destruct r as [r|]; simpl; eexists; (split; [reflexivity|]); [|done].
  eapply in_chain_next; [|exact Hy]. simpl. right. left.
Qed.

Lemma errors_Join_some r e : errors_Join r (Some e) <> None.
Proof. by destruct r. Qed.

Lemma unexpected_spec expected prefix err :
  match unexpected expected prefix err with
  | Some e => exists x, failures_of expected (Some err) = [x] /\ in_chain x e
  | None => failures_of expected (Some err) = []
  end.
Proof.
  unfold unexpected, failures_of. destruct err as [err|]; [|done]. destruct (errors_Is expected err); [done|].
  eexists. split; [done|]. eapply in_chain_next; [left|constructor].
Qed.

(** Waiting for one part: its events, and a result that carries all the failures. *)
Lemma await_part_spec oracle done q event expected prefix timeout_prefix result lg :
  (forall r, process_event_of _ q r = event r) ->
  wp oracle (await_part done q expected prefix timeout_prefix result) lg (fun r lg' => exists x,
    lg' = lg ++ part_events done event x /\ (forall y, carried result y -> carried r y) /\
    if done then r = result
    else Forall (carried r) (failures_of expected x) /\ (r = None <-> result = None /\ ended_well expected x)).
Proof.
  intros Hq. unfold await_part. destruct done.
  { wp_step. exists None. by rewrite app_nil_r. }
  wp_step. apply seq_ask. rewrite Hq. destruct (oracle _ lg q) as [err|] eqn:Hx; simpl.
  - wp_step. exists (Some err). split; [done|]. pose proof (unexpected_spec expected prefix err) as Hu.
    destruct (unexpected expected prefix err) as [e|].
    + destruct Hu as (x & Hf & Hc). split; [intros y; apply carried_join_l|]. rewrite Hf. split.
      * constructor; [by apply carried_join_r|constructor].
      * split; [intros Hn; by destruct (errors_Join_some result e)|]. intros (_ & _ & Hw). congruence.
    + rewrite Hu. split; [done|]. split; [constructor|]. unfold ended_well. rewrite Hu. naive_solver.
  - repeat wp_step. exists None. rewrite <- app_assoc. split; [done|]. split; [intros y; apply carried_join_l|].
    split; [constructor|]. split; [intros Hn; by eapply errors_Join_some in Hn|]. intros (_ & [? ?] & _). done.
Qed.

(** What a part reported, whether it was the first to end or not. *)
Definition proxy_end (e : first_end) (p : option (option error)) : option (option error) :=
  match e with ProxyEnded err => Some err | _ => p end.

Definition health_end (e : first_end) (h : option (option error)) : option (option error) :=
  match e with HealthEnded err => Some err | _ => h end.

(** The log of a shutdown: not ready any more, then cancelled, then the servers closed, and then
    every part that has not ended waited for. *)
Definition shutdown_events (e : first_end) (s : option error) (p h : option (option error)) : list process_event :=
  [PSetReady false; PCancel; PShutdownHealth s; PCloseListener] ++
  part_events (match e with ProxyEnded _ => true | _ => false end) PProxyResult p ++
  part_events (match e with HealthEnded _ => true | _ => false end) PHealthResult h.

Definition first_failures (e : first_end) : list error :=
  match e with
  | ParentDone => []
  | ProxyEnded err => failures_of Canceled (Some err)
  | HealthEnded err => failures_of HttpErrServerClosed (Some err)
  end.

(** The result when the servers have been told to stop: of the first end and of that. *)
Lemma stopped_result e s :
  let result := match e with
                | ParentDone => None
                | ProxyEnded err => unexpected Canceled "serve UDP proxy" err
                | HealthEnded err => unexpected HttpErrServerClosed "serve health endpoint" err
                end in
  let result := match s with
                | Some err => errors_Join result (Some (ErrWrap "shutdown health endpoint" err))
                | None => result
                end in
  Forall (carried result) (option_list s ++ first_failures e) /\ (result = None <-> s = None /\ first_failures e = []).
Proof.
  cbv zeta. set (first := match e with ParentDone => None | _ => _ end).
  assert (Hfirst : Forall (carried first) (first_failures e) /\ (first = None <-> first_failures e = [])).
  { destruct e as [|err|err]; cbn [first_failures]; unfold first; [by split|..].
    - pose proof (unexpected_spec Canceled "serve UDP proxy" err) as Hu. destruct (unexpected _ _ err) as [x|].
      + destruct Hu as (y & -> & Hy). split; [constructor; [by exists x|constructor]|done].
      + by rewrite Hu.
    - pose proof (unexpected_spec HttpErrServerClosed "serve health endpoint" err) as Hu.
      destruct (unexpected _ _ err) as [x|].
      + destruct Hu as (y & -> & Hy). split; [constructor; [by exists x|constructor]|done].
      + by rewrite Hu. }
  destruct Hfirst as [H1 H2]. destruct s as [err|]; simpl; [|rewrite H2; naive_solver]. split.
  - constructor.
    + apply carried_join_r. eapply in_chain_next; [left|constructor].
    + eapply Forall_impl; [exact H1|]. intros y. apply carried_join_l.
  - split; [intros Hn; by apply errors_Join_some in Hn|by intros []].
Qed.

Lemma run_shutdown_spec oracle e lg :
  wp oracle (run_shutdown e) lg (fun r lg' => exists s p h,
    lg' = lg ++ shutdown_events e s p h /\
    (r = None <-> s = None /\ ended_well Canceled (proxy_end e p) /\ ended_well HttpErrServerClosed (health_end e h)) /\
    Forall (carried r) (option_list s ++ failures_of Canceled (proxy_end e p) ++
                        failures_of HttpErrServerClosed (health_end e h))).
Proof.
  unfold run_shutdown. cbv zeta. do 6 wp_step.
  set (s := oracle (option error) ((lg ++ [PSetReady false]) ++ [PCancel]) QShutdownHealth).
  destruct (stopped_result e s) as [H1 H2]. set (result := match s with Some _ => _ | None => _ end) in *.
  do 3 wp_step. eapply seq_mono; [by apply (await_part_spec _ _ _ PProxyResult)|].
  intros r1 lg1 (p & -> & Hk1 & Hp). eapply seq_mono; [by apply (await_part_spec _ _ _ PHealthResult)|].
  intros r2 lg2 (h & -> & Hk2 & Hh). exists s, p, h. split; [unfold shutdown_events; by rewrite <- !app_assoc|].
  apply Forall_app in H1 as [Hs Hf].
  assert (Hmono : forall l, Forall (carried r1) l -> Forall (carried r2) l) by (intros l Hl; eapply Forall_impl; [exact Hl|exact Hk2]).
  assert (Hmono' : forall l, Forall (carried result) l -> Forall (carried r1) l) by (intros l Hl; eapply Forall_impl; [exact Hl|exact Hk1]).
  unfold ended_well. rewrite !Forall_app.
  destruct e as [|err|err]; cbn [proxy_end health_end first_failures] in *.
  - destruct Hp as [Hp1 Hp2], Hh as [Hh1 Hh2]. rewrite Hh2, Hp2, H2. unfold ended_well. split; [tauto|]. auto.
  - subst r1. destruct Hh as [Hh1 Hh2]. rewrite Hh2, H2. unfold ended_well.
    split; [|by auto]. split; [intros [[? ?] ?]; by eauto|tauto].
  - subst r2. destruct Hp as [Hp1 Hp2]. rewrite Hp2, H2. unfold ended_well.
    split; [|by auto]. split; [intros [[? ?] ?]; by eauto 10|tauto].
Qed.

(** The startup that ends in serving. *)
Definition serving_events (cfg : Config) (p : parts) : list process_event :=
  [PListenUDP (part_listen p) None; PListenTCP (cfg_HealthAddr cfg) None; PSetReady true; PServe].

(** C39. The process ends in order.  Whatever the environment answers, the process either fails
    before it serves - then with an error, never having been ready, and with the public
    socket closed again if it was opened - or it serves with both listeners open and ready
    before, and ends by this one sequence: the first part ends or the parent context does,
    readiness is withdrawn, the proxy's context cancelled, the health server shut down, the
    public socket closed, and every part that has not ended waited for until the deadline.
    It reports success exactly when the shutdown succeeded and both parts ended in time
    with nothing but the expected error, and its error carries every other error. *)
Theorem process_ends_in_order `{Network} oracle file LookupEnv durations ints :
  wp oracle (run_process file LookupEnv durations ints) [] (fun r lg =>
    (exists cfg level p e s pr hr,
       LoadConfig file LookupEnv durations ints = inr (cfg, level) /\ build_parts cfg = inr p /\
       lg = serving_events cfg p ++ [PFirstEnd e] ++ shutdown_events e s pr hr /\
       (r = None <-> s = None /\ ended_well Canceled (proxy_end e pr) /\ ended_well HttpErrServerClosed (health_end e hr)) /\
       Forall (carried r) (option_list s ++ failures_of Canceled (proxy_end e pr) ++
                           failures_of HttpErrServerClosed (health_end e hr))) \/
    r <> None /\ PServe ∉ lg /\ PSetReady true ∉ lg /\
    ((exists address, PListenUDP address None ∈ lg) -> last lg = Some PCloseListener)).
Proof.
  unfold run_process. destruct (LoadConfig _ _ _ _) as [err|[cfg level]] eqn:Hload.
  { wp_step. right. split_and!; [done|set_solver..|by intros (? & ?%elem_of_nil)]. }
  destruct (build_parts cfg) as [err|p] eqn:Hp.
  { wp_step. right. split_and!; [done|set_solver..|by intros (? & ?%elem_of_nil)]. }
  unfold run_sockets. do 2 wp_step. wp_step.
  { wp_step. right. split_and!; [done|set_solver..|]. intros (a & Ha). apply list_elem_of_singleton in Ha. done. }
  destruct (New _) as [err|[px max]].
  { repeat wp_step. right. split_and!; [done|set_solver..|done]. }
  do 2 wp_step. wp_step.
  { repeat wp_step. right. split_and!; [done|set_solver..|done]. }
  do 6 wp_step. eapply seq_mono; [apply run_shutdown_spec|].
  intros r lg (s & pr & hr & -> & H1 & H2). left. eexists cfg, level, p, _, s, pr, hr. split; [done|]. split; [done|].
  rewrite <- !app_assoc. split; [reflexivity|]. by split.
Qed.
